(* ===== verification/_CoqProject ===== *)
-Q . S2P
Prelude.v
Gears.v
Outcome.v
OutcomeVoid.v
Meta.v
Bytes.v
QueryAst.v
Dialect.v
PostgresDialect.v
PostgresParams.v
ResultViews.v
SqlGenerator.v
SqlTemplate.v
QueryCompiler.v
SqlLex.v
CompilerTheorems.v
FloatText.v
Disruptor.v
DisruptorSafety.v
WaitStrategies.v
StaticSequencer.v
SlidingWindowSorter.v
Transaction.v
ErrorCodes.v
Schema.v
StaticSchema.v
QueryBuilders.v
ConnectionConfig.v
PoolConfig.v
ConnectionPool.v
ConnectionPoolSafety.v
ConnectionPoolTheorems.v
BlockingPool.v
BlockingPoolSafety.v
BlockingPoolTheorems.v
Sessions.v
Executors.v
ExecutorTheorems.v
Chrono.v
Serialization.v
Ink.v
InkTheorems.v
Support.v
DbExceptions.v
Logging.v
SinkTheorems.v
Logger.v
LoggerTheorems.v
HttpRouting.v
HttpRequest.v
HttpServer.v
HttpControllers.v
ThreadPool.v
Nexus.v
NexusJanitor.v
