(* ===== verification/Prelude.v ===== *)
(** * Demiplane: a verification library

    Demiplane (src/) is a C++ code base with a compile-time and run-time SQL
    query compiler, a PostgreSQL client built on libpq (parameters, results,
    transactions, connection pools, sessions, executors), an HTTP server with routing, a
    thread pool, a registry of services, an asynchronous logger whose events a
    disruptor carries to console and file sinks, JSON fields, terminal
    rendering, and the support code they share.  This
    library models those parts as executable definitions and proves what makes
    them correct.

    ** Conventions

    A function that may throw returns [result A] (below); undefined behaviour
    is the exception [UndefinedBehaviour] and leaving a [noexcept] function by
    an exception is [terminate], so a theorem that concludes [Ok _] excludes
    both.  Integers that can wrap are kept at their width ([size_t],
    [to_unsigned], [in_signed]).  A C++ concept or abstract class is a type
    class, with a second class for its laws.  What C++ rejects at compile time
    is [None] or a proposition.  A concurrent program is a step relation or a
    partial step function on a shared state and one program counter per thread;
    a step is one atomic access or one critical section, memory is sequentially
    consistent, and everything the environment decides (what libpq answers,
    which thread runs, when a timeout fires) is a label of the step.

    ** Files and the code they model

    Shared
    - Prelude: results, tactics, hint databases, lemmas on lists, strings and
      ordered string maps.
    - Gears: common/gears strings and utilities: [Appendable], [InlineString],
      [constexpr_to_string].  Bytes: integer casts and byte order.
    - Outcome: common/gears/outcome: the variant result type, its accessors,
      [and_then], [or_else], [transform], [chain_outcomes], and the types the
      compiler computes for them.  OutcomeVoid: its constructors, [visit],
      comparison and the specialisation for [void].
    - Meta: the selection of arguments and tuple elements by type, byte
      literals, type names and the transparent string functors of common/gears.

    Queries (components/database/primitives, base, query)
    - QueryAst: values, columns, tables and expression nodes.
    - Schema: tables with their fluent schema builder and name index, records,
      INSERT rows, SQL type names.  StaticSchema: compile-time tables, typed
      columns, constraints, [FixedString].  QueryBuilders: factories, operators and
      the fluent members with their feature tags.
    - Dialect: the interfaces [IsSqlDialect] and [ParamSink] and their laws.
      PostgresDialect and PostgresParams implement them.
    - SqlGenerator: [QueryVisitor] and [SqlGeneratorVisitor], one definition
      per overload and callback.  QueryCompiler: [compile_static] and
      [compile_dynamic].
    - SqlTemplate: the abstract specification of the generator.  SqlLex: an
      SQL lexer.  CompilerTheorems: what the compiler guarantees.
    - FloatText: how [float] and [double] literals are printed in constant
      evaluation, on the floating-point arithmetic of SpecFloat.

    PostgreSQL provider (components/database/providers/postgresql)
    - ResultViews: decoding of results.  ErrorCodes: error codes, SQLSTATE and
      status mapping, error extraction, retry policy.
    - Transaction: transactions, savepoints, automatic transactions.
    - ConnectionConfig: credentials, configuration, connection strings.
      PoolConfig: pool configuration and release-time clean-up.
    - ConnectionPool, ConnectionPoolSafety, ConnectionPoolTheorems: the
      lock-free pool with its clients, janitor and shutdown.
    - BlockingPool, BlockingPoolSafety, BlockingPoolTheorems: the mutex-based
      pool with blocked and asynchronous waiters.
    - Sessions: both sessions over their pools, from construction to shutdown.
    - Executors, ExecutorTheorems: the blocking and the asynchronous executor
      (capabilities/executors) over an interface of libpq with its documented
      laws, and an instance of it.

    Concurrency and algorithms (common)
    - Disruptor, DisruptorSafety: sequences, ring buffer, sequencer and the
      consumer loop of the logger.  WaitStrategies: how the consumer waits.
      StaticSequencer: the variant whose size is a template argument.
    - SlidingWindowSorter: batch-wise sorting with a window.
    - ThreadPool: workers, the priority queue, the cleanup thread, shutdown.
    - Nexus: common/nexus, the service registry with its lifetime policies.
      NexusJanitor: its construction, janitor thread and destruction.

    Logger (common/scroll)
    - Logging: levels, events, entries, the prefix filter, the console and the
      file sink with their configurations.  SinkTheorems: what the file sink
      keeps and how rotation bounds its files.
    - Logger: configuration, slot filling ([log], streams, macros), providers,
      strands and [shutdown].  LoggerTheorems: from the ring to the sinks.

    Configuration, time and terminal (common)
    - Serialization: common/serialization/formats/json, the overloads that write
      and read a member, over an interface of the JSON library, and a concrete
      document type.
    - Chrono: common/chrono, timestamps, stopwatches, the timer's watchdog.
    - Ink, InkTheorems: common/ink, layout, colours, tables, boxes, sections.
    - Support: common/math, common/crypto and ThreadSafeResource: random values
      from the numbers drawn, salts and hashes over OpenSSL's functions,
      constant-time comparison, a resource behind a reader-writer lock.
    - DbExceptions: database/base/errors/db_exceptions.hpp, the hierarchy, its
      categories and the cached [what].

    HTTP (components/http/http_server)
    - HttpRouting: the route registry and the controllers.  HttpRequest: the
      request context.  HttpServer: response factory, callbacks, sessions.
      HttpControllers: registration of member handlers, the exceptions of
      [add_controller], the accept loop.

    ** What the theorems show

    - Compiler: the text and the parameters of every compiled query are the
      rendering of its template, in every mode; the static and the dynamic
      compiler agree on queries without explicit placeholders and INSERT or
      UPDATE values; capacity is exceeded exactly when the text is too long;
      no value or identifier can change the lexical structure of the SQL; the
      fluent chains admit exactly the SELECT grammar.
    - Wire format: a bound value that the server sends back in the binary format
      decodes to itself, except a [uint64_t], whose [numeric] the decoder
      refuses; quoted identifiers and literals read back as what was written,
      connection strings as the credentials and connection options, without the
      session settings; a
      floating-point literal compiled into a query has the exact decimals of
      its number, cut off at 6 or 14.
    - Schemas: static and dynamic tables with the same constraints give the same
      [CREATE TABLE], and which constraints a static table loses.
    - Disruptor: delivery in claim order without loss; a published entry stays in
      its cell until it is taken; bounded distance, and the consumer can always
      drain what was claimed before the stop entry; the static
      variant agrees with the dynamic one operation by operation.
    - Logger: after shutdown every sink has processed exactly the events claimed
      before the signal, in order, and is flushed; the drain of the strands in
      shutdown ends when the pool has a thread and the sinks do not throw; a
      reused slot never shows its history; the files hold exactly the accepted
      entries and, when no two openings meet in one name, each stays within the
      limit plus one entry.
    - Executors: both give the same outcome for a single result and send the same
      request for a compiled query; execution ends on every path unless libpq,
      the network or a wait on the socket keeps it waiting; leases are given back
      exactly once, but for one that a failed construction loses; and what
      differs for several statements.
    - Terminal output: tables and boxes are rectangles; [add_row] keeps the
      columns aligned, and what [headers] does to a table with rows.  Time: the
      deltas of a stopwatch add up to its total.
    - Pools: exclusive leases, stable leased connections, a wait-free
      [acquire_slot], FIFO hand-over, and in orderly runs no connection lost or
      closed twice; and the schedules in which shutdown, a failed connect, a
      dropped connection or two replacements of one connection at the same time
      break these promises.
    - Transactions and sessions: every run executes a legal history of
      statements; every error path gives the connection back.
    - Outcome: a monad whose error types add up, for types other than
      [std::monostate]; chains return the first error.
    - Sorter, schema, error codes: no entry is lost, batches are sorted; the
      name index finds the right field; both error extractions agree.
    - HTTP: routes with parameters serve exactly their instances; a request
      passes the registered callbacks in order and reaches its handler with the
      right path and query parameters.
    - Thread pool: every task is queued, held or executed exactly once;
      shutdown ends and executes what was enqueued; and the schedule in which
      all workers retire while a task is queued.
    - Nexus: an immortal service is made once, whoever asks for it, and asking
      fails only with the factory; and what
      resets and sweeps do to the other lifetimes.  Its destructor joins the
      janitor, and what the order of its members means for the thread.

    Several theorems state defects: they exhibit the input or the schedule in
    which the code does not do what it is documented to do.

    ** Bounds and fuel

    Recursion is structural on the expression, the list or the string wherever
    the code's is.  The loop of [constexpr_to_string] has fuel for ten
    iterations of two digits, enough for every [size_t] (proved).  The
    scans of the lock-free pool recur on the capacity.  [read_settings] takes
    the number of settings as fuel and the round trip holds for any larger
    fuel.  The asynchronous executor takes fuel for the flushes, the reads and
    the results to collect; it returns, with an outcome that more fuel does not
    change, unless one of the three was repeated that often without success or
    a wait on the socket never ends (proved); the timer's watchdog takes one unit per 10 ms.  The concurrent
    programs are not bounded: the theorems hold for any number of threads and
    steps.

    ** Assumptions

    - libpq, the server, Boost.Asio, Beast, JsonCpp, the file system, the
      calendar and the clock are parameters, interfaces with their documented
      laws, or labels.
    - [std::sort] is a parameter with its documented specification; the
      printing at run time and the reading of floating-point numbers and the
      time formats of [put_time] and [chrono::parse] are parameters.
    - The functions that print numbers are modelled for 64-bit [size_t] and
      IEEE 754 [float] and [double].
    - The reading rules of SQL literals, of the wire format and of connection
      strings are specifications of PostgreSQL written here.

    ** Not modelled

    [ConfigInterface::serialize] and [deserialize], which nothing instantiates,
    OpenSSL and the random engines below their wrappers, what a thread leaves
    behind when [Timer::execute_violent_kill] cancels it, the [ofstream] buffer
    below the operations on it, the concepts and mixins that only restrict
    types, common/fsm and the HTTP configuration, which have no operations yet,
    and the vendored libraries.  [std::format] enters the logger as the
    text it makes.  Of [std::regex] only the syntax
    that routes produce is interpreted.  Memory orders weaker than sequential
    consistency are not modelled. *)

From Stdlib Require OrderedTypeEx.
From Stdlib Require Export Sorted.
From Stdlib Require Export Ascii String ZArith NArith Lia.
From stdpp Require Export base list strings numbers relations.

(** ** Exceptions and results

    A C++ function that may throw returns [result A]: [Ok a] is a normal
    return, [Throw e] an exception leaving the function.  Behaviour the
    language leaves undefined (an index out of range, a dangling pointer) is
    the distinguished exception [UndefinedBehaviour], so that a theorem whose
    conclusion is [Ok _] also rules it out.  [terminate] is [std::terminate],
    called when an exception leaves a [noexcept] function. *)
Inductive exn : Type :=
  | out_of_range
  | invalid_argument
  | runtime_error
  | logic_error
  | null_conversion_error
  | bad_variant_access
  | BadOutcomeAccess
  | regex_error
  | bad_weak_ptr
  | terminate
  | UndefinedBehaviour.

#[export] Instance exn_eq_dec : EqDecision exn.
Proof. solve_decision. Defined.

Inductive result (A : Type) : Type :=
  | Ok (a : A)
  | Throw (e : exn).
Arguments Ok {A} a.
Arguments Throw {A} e.

Definition rbind {A B} (m : result A) (k : A → result B) : result B :=
  match m with
  | Ok a => k a
  | Throw e => Throw e
  end.

Declare Scope demi_scope.
Delimit Scope demi_scope with demi.

Notation "'let!' x ':=' m 'in' k" := (rbind m (fun x => k))
  (at level 10, x pattern, m at level 100, k at level 200) : demi_scope.

Definition is_ok {A} (m : result A) : bool :=
  match m with Ok _ => true | Throw _ => false end.

(** ** Tactics *)

(** Split every conjunction of the context and every hypothesis equation. *)
Ltac split_hyps :=
  repeat match goal with
  | H : _ ∧ _ |- _ => destruct H
  | H : ∃ _, _ |- _ => destruct H
  end; simplify_eq/=.

(** Case on the innermost boolean test or match of the goal. *)
Ltac case_test :=
  match goal with
  | |- context [if decide ?P then _ else _] => destruct (decide P)
  | |- context [if ?b then _ else _] => let E := fresh "Etest" in destruct b eqn:E
  end.

(** Turn the boolean comparisons of the context into propositions. *)
Ltac bool_to_prop :=
  repeat match goal with
  | H : (_ && _)%bool = true |- _ => apply andb_true_iff in H as [? ?]
  | H : (_ || _)%bool = false |- _ => apply orb_false_iff in H as [? ?]
  | H : (_ =? _)%Z = true |- _ => apply Z.eqb_eq in H
  | H : (_ =? _)%Z = false |- _ => apply Z.eqb_neq in H
  | H : (_ <? _)%Z = true |- _ => apply Z.ltb_lt in H
  | H : (_ <? _)%Z = false |- _ => apply Z.ltb_ge in H
  | H : (_ <=? _)%Z = true |- _ => apply Z.leb_le in H
  | H : (_ <=? _)%Z = false |- _ => apply Z.leb_gt in H
  | H : (_ =? _)%nat = true |- _ => apply Nat.eqb_eq in H
  | H : (_ =? _)%nat = false |- _ => apply Nat.eqb_neq in H
  | H : (_ <? _)%nat = true |- _ => apply Nat.ltb_lt in H
  | H : (_ <? _)%nat = false |- _ => apply Nat.ltb_ge in H
  | H : (_ <=? _)%nat = true |- _ => apply Nat.leb_le in H
  | H : (_ <=? _)%nat = false |- _ => apply Nat.leb_gt in H
  | H : bool_decide _ = true |- _ => apply bool_decide_eq_true in H
  | H : bool_decide _ = false |- _ => apply bool_decide_eq_false in H
  end.

(** ** Strings *)

#[global] Arguments Nat.ltb : simpl never.
#[global] Arguments Nat.leb : simpl never.
#[global] Arguments String.append !s1 s2 : simpl nomatch.

Lemma string_app_nil_r (s : string) : s +:+ "" = s.
Proof. induction s as [|c s IH]; [done|]. cbn. f_equal. exact IH. Qed.

Lemma string_app_assoc (s t u : string) : (s +:+ t) +:+ u = s +:+ (t +:+ u).
Proof. induction s as [|c s IH]; [done|]. cbn. f_equal. exact IH. Qed.

Lemma string_length_app (s t : string) :
  String.length (s +:+ t) = String.length s + String.length t.
Proof. induction s as [|c s IH]; [done|]. cbn. f_equal. exact IH. Qed.

Lemma string_app_cons (c : ascii) (s t : string) :
  String c s +:+ t = String c (s +:+ t).
Proof. done. Qed.

Create Rewrite HintDb str.
#[export] Hint Rewrite string_app_nil_r string_app_assoc string_length_app : str.

(** [s] holds only characters that satisfy [P]. *)
Fixpoint string_all (P : ascii → bool) (s : string) : bool :=
  match s with
  | EmptyString => true
  | String c s' => P c && string_all P s'
  end.

Lemma string_all_app P s t : string_all P (s +:+ t) = string_all P s && string_all P t.
Proof. induction s as [|c s IH]; [done|]. cbn. rewrite IH. apply andb_assoc. Qed.

(** A string as the list of its characters. *)
Lemma list_ascii_app (s t : string) :
  list_ascii_of_string (s +:+ t) = list_ascii_of_string s ++ list_ascii_of_string t.
Proof. induction s as [|c s IH]; [done|]. cbn. f_equal. exact IH. Qed.

Lemma length_string_of_list (l : list ascii) :
  String.length (string_of_list_ascii l) = length l.
Proof. induction l; simpl; auto. Qed.

Lemma length_list_ascii (s : string) : length (list_ascii_of_string s) = String.length s.
Proof. induction s; simpl; auto. Qed.

(** ** Lists *)

Lemma Forall2_impl_in {A B} (P Q : A → B → Prop) l k :
  Forall2 P l k → (∀ x y, x ∈ l → P x y → Q x y) → Forall2 Q l k.
Proof.
  induction 1 as [|x y l k Hxy _ IH]; intros Himp; constructor.
  - apply Himp; [left|done].
  - apply IH. intros x' y' Hx'. apply Himp. by right.
Qed.

Lemma alter_as_insert {A} (f : A → A) (l : list A) i x : l !! i = Some x → alter f i l = <[i := f x]> l.
Proof. revert i. induction l as [|y l IH]; intros [|i] H; simplify_eq/=; [done|]. f_equal. by apply IH. Qed.

Lemma alter_out_of_range {A} (f : A → A) (l : list A) i : l !! i = None → alter f i l = l.
Proof. revert i. induction l as [|y l IH]; intros [|i] H; simplify_eq/=; [done|done|]. f_equal. by apply IH. Qed.

(** ** Relations *)

(** A property that every step preserves holds along every run. *)
Lemma rtc_preserved {A} (P : A → Prop) (R : relation A) x y :
  (∀ a b, P a → R a b → P b) → rtc R x y → P x → P y.
Proof. intros HR. induction 1; eauto. Qed.

(** Replacing one summand. *)
Lemma sum_list_insert {A} (f : A → nat) (l : list A) i x y :
  l !! i = Some x → (sum_list_with f (<[i:=y]> l) + f x = sum_list_with f l + f y)%nat.
Proof.
  revert i. induction l as [|a l IH]; intros [|i] E; simplify_eq/=; [lia|]. specialize (IH _ E). lia.
Qed.

(** ** std::map<std::string, std::string> *)

(** [std::map::operator[] = value] on a list ordered by key *)
Fixpoint map_assign (key value : string) (l : list (string * string)) : list (string * string) :=
  match l with
  | [] => [(key, value)]
  | (k, v) :: l' =>
      match String.compare key k with
      | Lt => (key, value) :: l
      | Eq => (key, value) :: l'
      | Gt => (k, v) :: map_assign key value l'
      end
  end.

Definition key_lt (a b : string * string) : Prop := String.compare a.1 b.1 = Lt.
Abbreviation map_sorted := (StronglySorted key_lt).

Lemma key_lt_trans a b c : key_lt a b → key_lt b c → key_lt a c.
Proof. unfold key_lt. rewrite !OrderedTypeEx.String_as_OT.cmp_lt. apply OrderedTypeEx.String_as_OT.lt_trans. Qed.

Lemma key_lt_ne a b : key_lt a b → a.1 ≠ b.1.
Proof. unfold key_lt. intros Hl%OrderedTypeEx.String_as_OT.cmp_lt. by apply OrderedTypeEx.String_as_OT.lt_not_eq. Qed.

Lemma elem_of_map_assign k v l p : map_sorted l → p ∈ map_assign k v l ↔ p = (k, v) ∨ (p.1 ≠ k ∧ p ∈ l).
Proof.
  induction 1 as [|[k' v'] l Hs IH Hf]; simpl.
  { rewrite list_elem_of_singleton. split; [by left|]. intros [?|[_ []%not_elem_of_nil]]; done. }
  rewrite Forall_forall in Hf.
  destruct (String.compare k k') eqn:E.
  - apply String.compare_eq_iff in E as <-. rewrite !elem_of_cons. split.
    2:{ intros [->|[Hk [->|Hp]]]; [by left|done|by right]. }
    intros [->|Hp]; [by left|]. right. split; [|by right]. apply not_eq_sym. by apply (key_lt_ne (k, v')), Hf.
  - assert (∀ q, q ∈ (k', v') :: l → q.1 ≠ k) as Hne.
    { intros q Hq. apply not_eq_sym, (key_lt_ne (k, v)). apply elem_of_cons in Hq as [-> |Hq]; [done|].
      eapply key_lt_trans; [|by apply Hf]. done. }
    rewrite elem_of_cons. split; [|tauto]. intros [->|Hp]; [by left|]. right. auto.
  - rewrite elem_of_cons, IH, elem_of_cons. split; [|tauto]. intros [->|[->|[? ?]]]; auto.
    right. split; [|by left]. simpl. intros ->. by rewrite (proj2 (OrderedTypeEx.String_as_OT.cmp_eq k k) eq_refl : String.compare k k = Eq) in E.
Qed.

Lemma map_assign_sorted k v l : map_sorted l → map_sorted (map_assign k v l).
Proof.
  induction 1 as [|[k' v'] l Hs IH Hf]; simpl; [by repeat constructor|].
  destruct (String.compare k k') eqn:E.
  - apply String.compare_eq_iff in E as <-. by constructor.
  - constructor; [by constructor|]. constructor; [done|]. eapply Forall_impl; [exact Hf|].
    intros q Hq. by eapply key_lt_trans; [|exact Hq].
  - constructor; [done|]. rewrite Forall_forall in *. intros q [->|[_ Hq]]%elem_of_map_assign; [|by apply Hf|done].
    unfold key_lt. simpl. rewrite String.compare_antisym, E. done.
Qed.

(** Ordered lists with the same entries are equal. *)
Lemma map_sorted_ext l1 l2 : map_sorted l1 → map_sorted l2 → (∀ p, p ∈ l1 ↔ p ∈ l2) → l1 = l2.
Proof.
  assert (∀ p, ¬ key_lt p p) as Hirr by (intros p Hp; by apply key_lt_ne in Hp).
  intros H1. revert l2. induction H1 as [|a l1 Hs1 IH Hf1]; intros l2 H2 He.
  { destruct l2 as [|b l2]; [done|]. exfalso. eapply not_elem_of_nil, He. by left. }
  destruct H2 as [|b l2 Hs2 Hf2]; [exfalso; eapply not_elem_of_nil, He; by left|].
  rewrite Forall_forall in Hf1, Hf2.
  assert (a = b) as <-.
  { destruct (proj1 (elem_of_cons _ _ _) (proj1 (He a) ltac:(by left))) as [|Ha]; [done|].
    destruct (proj1 (elem_of_cons _ _ _) (proj2 (He b) ltac:(by left))) as [|Hb]; [done|].
    exfalso. apply (Hirr a). eapply key_lt_trans; [by apply Hf1|by apply Hf2]. }
  f_equal. apply IH; [done|]. intros p. split; intros Hp.
  - destruct (proj1 (elem_of_cons _ _ _) (proj1 (He p) ltac:(by right))) as [->|]; [|done].
    exfalso. eapply Hirr, Hf1. exact Hp.
  - destruct (proj1 (elem_of_cons _ _ _) (proj2 (He p) ltac:(by right))) as [->|]; [|done].
    exfalso. eapply Hirr, Hf2. exact Hp.
Qed.
