(* ===== verification/Gears.v ===== *)
(** * Gears: strings, number formatting and integer casts

    Models the parts of [common/gears] the database layer is built on:
    - the [Appendable] concept of [dialect_concepts.hpp] as a type class with
      the law every string type of the code generator has to satisfy;
    - [InlineString<Capacity>] of [gears_strings.hpp], a fixed-capacity buffer
      that throws when it is full, as an instance of that class;
    - [std::string], the unbounded instance;
    - [constexpr_to_string(size_t)] of [gears_utils.hpp];
    - the fixed-width integer casts and [ntoh]/[hton] of [gears_convert.hpp]. *)

From S2P Require Import Prelude.

Local Open Scope demi_scope.

(** ** The Appendable concept *)

Class Appendable (Str : Type) := {
  append_sv : Str → string → result Str;
  append_ch : Str → ascii → result Str;
  view : Str → string;
  (** [room s n]: [n] more characters fit. *)
  room : Str → nat → bool;
  str_ok : Str → Prop;
}.

(** One append of [x] to [s]: it succeeds exactly when there is room, and then
    extends the contents by [x] and uses up [length x] of the room. *)
Definition appended `{Appendable Str} (s : Str) (x : string) (r : result Str) : Prop :=
  if room s (String.length x)
  then ∃ s', r = Ok s' ∧ str_ok s' ∧ view s' = view s +:+ x ∧
             ∀ n, room s' n = room s (String.length x + n)
  else r = Throw out_of_range.

Class AppendableLaws (Str : Type) `{Appendable Str} := {
  append_sv_spec : ∀ s x, str_ok s → appended s x (append_sv s x);
  append_ch_spec : ∀ s c, str_ok s → appended s (String c "") (append_ch s c);
  room_zero : ∀ s, str_ok s → room s 0 = true;
  room_mono : ∀ s n m, room s (n + m) = true → room s n = true;
}.

(** A text generator: a function from a string to the string it appends to.
    [appends f x] says that [f] has the effect of one append of [x], whatever
    the pieces in which it does it. *)
Definition appends `{Appendable Str} (f : Str → result Str) (x : string) : Prop :=
  ∀ s, str_ok s → appended s x (f s).

Section Appends.
Context `{AppendableLaws Str}.

Lemma appends_nil : appends (fun s => Ok s) "".
Proof.
  intros s Hs. unfold appended. simpl. rewrite room_zero by done.
  exists s. rewrite string_app_nil_r. auto.
Qed.

Lemma appends_sv x : appends (fun s => append_sv s x) x.
Proof. intros s Hs. by apply append_sv_spec. Qed.

Lemma appends_ch c : appends (fun s => append_ch s c) (String c "").
Proof. intros s Hs. by apply append_ch_spec. Qed.

Lemma appends_bind f g x y :
  appends f x → appends g y → appends (fun s => let! s' := f s in g s') (x +:+ y).
Proof.
  intros Hf Hg s Hs. specialize (Hf s Hs). unfold appended in *.
  rewrite string_length_app.
  destruct (room s (String.length x)) eqn:Ex.
  - destruct Hf as (s1 & -> & Hs1 & Hv1 & Hr1). simpl.
    specialize (Hg s1 Hs1). unfold appended in Hg. rewrite Hr1 in Hg.
    destruct (room s (String.length x + String.length y)); [|done].
    destruct Hg as (s2 & -> & Hs2 & Hv2 & Hr2). exists s2.
    split_and!; [done|done|..].
    + by rewrite Hv2, Hv1, string_app_assoc.
    + intros n. rewrite Hr2, Hr1. f_equal. lia.
  - rewrite Hf. simpl.
    destruct (room s (String.length x + String.length y)) eqn:Exy; [|done].
    apply room_mono in Exy. congruence.
Qed.

Lemma appends_eq f x y : appends f x → x = y → appends f y.
Proof. by intros ? <-. Qed.

Lemma appends_if (b : bool) f g x y :
  appends f x → appends g y →
  appends (fun s => if b then f s else g s) (if b then x else y).
Proof. by destruct b. Qed.
End Appends.

Create HintDb appends.
#[export] Hint Resolve appends_nil appends_sv appends_ch appends_bind appends_if : appends.

(** ** std::string *)

(** [std::string] grows on demand: an append never throws. *)
#[export] Instance string_Appendable : Appendable string := {|
  append_sv s x := Ok (s +:+ x);
  append_ch s c := Ok (s +:+ String c "");
  view s := s;
  room _ _ := true;
  str_ok _ := True;
|}.

#[export] Instance string_AppendableLaws : AppendableLaws string.
Proof. split; repeat intro; unfold appended; simpl; eauto. Qed.

(** ** InlineString<Capacity> *)

Module InlineString.
(** [data_] has [Capacity + 1] characters and is zero-initialised. *)
Record t (Capacity : nat) := mk { size_ : nat; data_ : list ascii }.
Arguments mk {Capacity} size_ data_.
Arguments size_ {Capacity} _.
Arguments data_ {Capacity} _.

Definition NUL : ascii := Ascii.zero.

Definition empty {Capacity} : t Capacity := mk 0 (replicate (S Capacity) NUL).

(** The element-wise copy loops: [cs] written to [data] from index [i]. *)
Fixpoint write_at (data : list ascii) (i : nat) (cs : list ascii) : list ascii :=
  match cs with
  | [] => data
  | c :: cs' => write_at (<[i:=c]> data) (S i) cs'
  end.

Definition append_view {Capacity} (s : t Capacity) (sv : string) : result (t Capacity) :=
  if Capacity <? size_ s + String.length sv then Throw out_of_range
  else Ok (mk (size_ s + String.length sv)
              (write_at (data_ s) (size_ s) (list_ascii_of_string sv))).

Definition append_char {Capacity} (s : t Capacity) (c : ascii) : result (t Capacity) :=
  if Capacity <=? size_ s then Throw out_of_range
  else Ok (mk (S (size_ s)) (<[size_ s:=c]> (data_ s))).

(** The run-time path of [assign]: silent truncation at [Capacity]. *)
Definition assign {Capacity} (s : t Capacity) (sv : string) : t Capacity :=
  let n := Nat.min (String.length sv) Capacity in
  mk n (<[n:=NUL]> (write_at (data_ s) 0 (take n (list_ascii_of_string sv)))).

Definition clear {Capacity} (s : t Capacity) : t Capacity :=
  mk 0 (<[0:=NUL]> (data_ s)).

Definition view {Capacity} (s : t Capacity) : string :=
  string_of_list_ascii (take (size_ s) (data_ s)).

(** What a C function reads from [c_str()]: the characters up to the first NUL. *)
Fixpoint until_nul (l : list ascii) : list ascii :=
  match l with
  | [] => []
  | c :: l' => if decide (c = NUL) then [] else c :: until_nul l'
  end.
Definition c_str {Capacity} (s : t Capacity) : string :=
  string_of_list_ascii (until_nul (data_ s)).

(** Representation invariant: the buffer has its declared size, the contents
    fit with room for the terminator. *)
Definition inv {Capacity} (s : t Capacity) : Prop :=
  length (data_ s) = S Capacity ∧ size_ s ≤ Capacity.

Lemma length_write_at data i cs : length (write_at data i cs) = length data.
Proof.
  revert data i. induction cs as [|c cs IH]; intros data i; simpl; [done|].
  by rewrite IH, length_insert.
Qed.

Lemma take_write_at data i cs :
  i + length cs ≤ length data →
  take (i + length cs) (write_at data i cs) = take i data ++ cs.
Proof.
  revert data i. induction cs as [|c cs IH]; intros data i Hlen; simpl in *.
  { by rewrite Nat.add_0_r, app_nil_r. }
  replace (i + S (length cs)) with (S i + length cs) by lia.
  rewrite IH by (rewrite length_insert; lia).
  rewrite (take_S_r _ i c) by (apply list_lookup_insert_eq; lia).
  rewrite take_insert_ge by lia. by rewrite <- app_assoc.
Qed.

Lemma drop_write_at data i cs k :
  i + length cs ≤ k → drop k (write_at data i cs) = drop k data.
Proof.
  revert data i. induction cs as [|c cs IH]; intros data i Hk; simpl in *; [done|].
  rewrite IH by lia. apply drop_insert_lt; lia.
Qed.

Lemma view_write_at {Capacity} (s : t Capacity) (cs : list ascii) :
  inv s → size_ s + length cs ≤ Capacity →
  string_of_list_ascii (take (size_ s + length cs) (write_at (data_ s) (size_ s) cs))
  = view s +:+ string_of_list_ascii cs.
Proof.
  intros [Hlen _] Hfit. rewrite take_write_at by lia.
  unfold view. generalize (take (size_ s) (data_ s)) as l.
  induction l as [|c l IH]; simpl; [done|by rewrite IH].
Qed.

(** The buffer is terminated: everything from [size_] on is NUL. *)
Definition terminated {Capacity} (s : t Capacity) : Prop :=
  inv s ∧ drop (size_ s) (data_ s) = replicate (S Capacity - size_ s) NUL.

Lemma empty_terminated {Capacity} : terminated (@empty Capacity).
Proof. split; [split; simpl; [by rewrite length_replicate|lia]|done]. Qed.

#[global] Instance Appendable_inline Capacity : Appendable (t Capacity) := {|
  append_sv := append_view;
  append_ch := append_char;
  Gears.view := view;
  room s n := size_ s + n <=? Capacity;
  str_ok := terminated;
|}.

Lemma append_view_spec {Capacity} (s : t Capacity) x :
  terminated s → appended s x (append_view s x).
Proof.
  intros [Hs Hd]. unfold appended, append_view. cbn.
  pose proof (view_write_at s (list_ascii_of_string x) Hs) as Hv.
  rewrite length_list_ascii, string_of_list_ascii_of_string in Hv.
  destruct (Nat.leb_spec (size_ s + String.length x) Capacity) as [Hle|Hgt].
  - destruct (Nat.ltb_spec Capacity (size_ s + String.length x)); [lia|].
    eexists; split_and!; [done|..]; cbn.
    + split; [split; cbn; [rewrite length_write_at; apply Hs|done]|]. cbn.
      rewrite drop_write_at by (rewrite length_list_ascii; lia).
      rewrite <- drop_drop, Hd, drop_replicate. f_equal. lia.
    + exact (Hv Hle).
    + intros n. f_equal. lia.
  - destruct (Nat.ltb_spec Capacity (size_ s + String.length x)); [done|lia].
Qed.

Lemma append_char_as_view {Capacity} (s : t Capacity) c :
  append_char s c = append_view s (String c "").
Proof.
  unfold append_char, append_view. cbn. rewrite Nat.add_1_r.
  destruct (Nat.leb_spec Capacity (size_ s)), (Nat.ltb_spec Capacity (S (size_ s))); auto; lia.
Qed.

#[global] Instance AppendableLaws_inline Capacity : AppendableLaws (t Capacity).
Proof.
  split; cbn.
  - intros; by apply append_view_spec.
  - intros s c Hs. rewrite append_char_as_view. by apply append_view_spec.
  - intros s [[_ Hs] _]. apply Nat.leb_le. lia.
  - intros s n m Hle. apply Nat.leb_le in Hle. apply Nat.leb_le. lia.
Qed.

Lemma until_nul_app l k :
  Forall (λ c, c ≠ NUL) l → until_nul (l ++ replicate (S k) NUL) = l.
Proof. induction 1 as [|c l Hc _ IH]; simpl; [done|]. rewrite decide_False by done. f_equal. exact IH. Qed.

(** Appending to a default-constructed [InlineString] keeps [c_str()] and
    [view()] in agreement, as long as the text holds no NUL. *)
Lemma c_str_view {Capacity} (s : t Capacity) :
  terminated s → Forall (λ c, c ≠ NUL) (take (size_ s) (data_ s)) → c_str s = view s.
Proof.
  intros [[Hlen Hle] Hd] Hnn. unfold c_str, view. f_equal.
  rewrite <- (take_drop (size_ s) (data_ s)) at 1. rewrite Hd.
  replace (S Capacity - size_ s) with (S (Capacity - size_ s)) by lia.
  by apply until_nul_app.
Qed.
End InlineString.

(** ** constexpr_to_string(std::size_t) *)

Module ToString.
Local Open Scope N_scope.

(** The two-digit lookup table: [digits[2*i]] and [digits[2*i+1]] are the
    tens and units digits of [i]. *)
Definition digits : string :=
  "00010203040506070809" +:+ "10111213141516171819" +:+ "20212223242526272829" +:+
  "30313233343536373839" +:+ "40414243444546474849" +:+ "50515253545556575859" +:+
  "60616263646566676869" +:+ "70717273747576777879" +:+ "80818283848586878889" +:+
  "90919293949596979899".

Definition digit_at (i : N) : ascii := default "?"%char (String.get (N.to_nat i) digits).

Definition ascii_digit (d : N) : ascii := ascii_of_N (48 + d).

(** The extraction loop and the final one or two digits.  [buffer] is the
    C++ buffer with its last written element first, so that reading the
    buffer backwards is reading the list forwards; a write past the 20
    elements of the buffer is undefined behaviour. *)
Definition push (c : ascii) (buffer : list ascii) : result (list ascii) :=
  if (length buffer <? 20)%nat then Ok (c :: buffer) else Throw UndefinedBehaviour.

Fixpoint extract (fuel : nat) (temp : N) (buffer : list ascii) : result (N * list ascii) :=
  match fuel with
  | O => Throw UndefinedBehaviour
  | S fuel' =>
      if 100 <=? temp then
        let idx := (temp mod 100) * 2 in
        let! b1 := push (digit_at (idx + 1)) buffer in
        let! b2 := push (digit_at idx) b1 in
        extract fuel' (temp / 100) b2
      else Ok (temp, buffer)
  end.

Definition finish (temp : N) (buffer : list ascii) : result (list ascii) :=
  if 10 <=? temp then
    let idx := temp * 2 in
    let! b1 := push (digit_at (idx + 1)) buffer in
    push (digit_at idx) b1
  else push (ascii_digit temp) buffer.

(** Ten iterations remove twenty decimal digits: [size_t] has at most 20. *)
Definition constexpr_to_string (value : N) : result string :=
  if value =? 0 then Ok "0"
  else
    let! p := extract 11 value [] in
    let! b := finish (fst p) (snd p) in
    Ok (string_of_list_ascii b).

(** Reference: the decimal numeral of [n], most significant digit first. *)
Fixpoint numeral_aux (fuel : nat) (n : N) (acc : list ascii) : list ascii :=
  match fuel with
  | O => acc
  | S fuel' =>
      let acc' := ascii_digit (n mod 10) :: acc in
      if n <? 10 then acc' else numeral_aux fuel' (n / 10) acc'
  end.

(** [numeral] is defined for every [n]: its fuel is the bit size of [n]. *)
Definition numeral (n : N) : string :=
  string_of_list_ascii (numeral_aux (S (N.size_nat n)) n []).

(** The number a list of decimal digits denotes. *)
Definition digit_val (c : ascii) : N := N_of_ascii c - 48.
Definition dec_value (l : list ascii) : N :=
  fold_left (λ acc c, acc * 10 + digit_val c) l 0.

Definition is_digit (c : ascii) : bool := (48 <=? N_of_ascii c) && (N_of_ascii c <=? 57).

Lemma digit_val_ascii d : d < 10 → digit_val (ascii_digit d) = d ∧ is_digit (ascii_digit d) = true.
Proof.
  intros Hd. unfold digit_val, ascii_digit, is_digit.
  rewrite N_ascii_embedding by lia. split; [lia|].
  apply andb_true_iff; split; apply N.leb_le; lia.
Qed.

Lemma dec_value_shift_aux l a :
  fold_left (λ acc c, acc * 10 + digit_val c) l a =
  a * 10 ^ N.of_nat (length l) + fold_left (λ acc c, acc * 10 + digit_val c) l 0.
Proof.
  revert a. induction l as [|c l IH]; intros a; cbn [fold_left length]; [simpl; lia|].
  rewrite IH, (IH (0 * 10 + digit_val c)), Nat2N.inj_succ, N.pow_succ_r by lia. lia.
Qed.

Lemma digit_table_checked :
  forallb (λ i : nat, bool_decide (digit_at (N.of_nat i * 2) = ascii_digit (N.of_nat i / 10)) &&
             bool_decide (digit_at (N.of_nat i * 2 + 1) = ascii_digit (N.of_nat i mod 10)))
          (seq 0 100) = true.
Proof. vm_compute. reflexivity. Qed.

Lemma digit_table i :
  i < 100 → digit_at (i * 2) = ascii_digit (i / 10) ∧ digit_at (i * 2 + 1) = ascii_digit (i mod 10).
Proof.
  intros Hi. pose proof digit_table_checked as H. rewrite forallb_forall in H.
  specialize (H (N.to_nat i)). rewrite N2Nat.id in H.
  assert (In (N.to_nat i) (seq 0 100)) as Hin by (apply in_seq; lia).
  apply H, andb_true_iff in Hin as [H1 H2]. by bool_to_prop.
Qed.

Lemma pow10_S f : 10 ^ N.of_nat (S f) = 10 * 10 ^ N.of_nat f.
Proof. rewrite Nat2N.inj_succ, N.pow_succ_r; lia. Qed.

(** Enough fuel is enough: the numeral does not depend on it. *)
Lemma numeral_aux_fuel f1 f2 n acc :
  n < 10 ^ N.of_nat f1 → n < 10 ^ N.of_nat f2 → (0 < f1)%nat → (0 < f2)%nat →
  numeral_aux f1 n acc = numeral_aux f2 n acc.
Proof.
  revert f2 n acc. induction f1 as [|f1 IH]; intros [|f2] n acc H1 H2 Hp1 Hp2; try lia.
  simpl. destruct (N.ltb_spec n 10) as [|Hge]; [done|].
  rewrite pow10_S in H1, H2.
  assert (n / 10 < 10 ^ N.of_nat f1) by (apply N.Div0.div_lt_upper_bound; lia).
  assert (n / 10 < 10 ^ N.of_nat f2) by (apply N.Div0.div_lt_upper_bound; lia).
  assert (1 <= n / 10) by (apply N.div_le_lower_bound; lia).
  apply IH; try done; [destruct f1|destruct f2]; simpl in *; lia.
Qed.

Lemma two_digits_tens n : n mod 100 / 10 = n / 10 mod 10.
Proof. zify; Z.to_euclidean_division_equations; lia. Qed.
Lemma two_digits_units n : n mod 100 mod 10 = n mod 10.
Proof. zify; Z.to_euclidean_division_equations; lia. Qed.

Lemma numeral_aux_two f n acc :
  100 <= n →
  numeral_aux (S (S f)) n acc =
  numeral_aux f (n / 100) (ascii_digit ((n mod 100) / 10) :: ascii_digit (n mod 100 mod 10) :: acc).
Proof.
  intros Hn. simpl.
  destruct (N.ltb_spec n 10); [lia|].
  assert (10 <= n / 10) by (apply N.div_le_lower_bound; lia).
  destruct (N.ltb_spec (n / 10) 10); [lia|].
  rewrite N.Div0.div_div. change (10 * 10) with 100.
  rewrite two_digits_tens, two_digits_units. done.
Qed.

Lemma push_ok c buffer : (length buffer < 20)%nat → push c buffer = Ok (c :: buffer).
Proof. intros H. unfold push. destruct (Nat.ltb_spec (length buffer) 20); [done|lia]. Qed.

Lemma room_pow t (len k : nat) :
  (len <= 20)%nat → 10 ^ N.of_nat k <= t → t < 10 ^ N.of_nat (20 - len) → (len + k < 20)%nat.
Proof.
  intros Hlen H1 H2. destruct (Nat.lt_ge_cases (len + k) 20); [done|].
  assert (10 ^ N.of_nat (20 - len) <= 10 ^ N.of_nat k) by (apply N.pow_le_mono_r; lia). lia.
Qed.

Lemma finish_spec temp buffer :
  1 <= temp < 100 → (length buffer <= 20)%nat → temp < 10 ^ N.of_nat (20 - length buffer) →
  finish temp buffer = Ok (numeral_aux 2 temp buffer).
Proof.
  intros Ht Hlen Hlt. unfold finish. cbn [numeral_aux].
  destruct (N.leb_spec 10 temp) as [Hge|Hlt10].
  - assert (length buffer + 1 < 20)%nat by (apply (room_pow temp); simpl; lia).
    destruct (digit_table temp) as [Ed1 Ed2]; [lia|].
    rewrite push_ok by lia. cbn [rbind]. rewrite push_ok by (cbn; lia).
    destruct (N.ltb_spec temp 10); [lia|].
    assert (temp / 10 < 10) by (apply N.Div0.div_lt_upper_bound; lia).
    destruct (N.ltb_spec (temp / 10) 10); [|lia].
    rewrite Ed1, Ed2, (N.mod_small (temp / 10)) by lia. done.
  - assert (length buffer + 0 < 20)%nat by (apply (room_pow temp); simpl; lia).
    rewrite push_ok by lia. destruct (N.ltb_spec temp 10); [|lia].
    by rewrite N.mod_small.
Qed.

Lemma extract_finish fuel f temp buffer :
  1 <= temp → (length buffer <= 20)%nat →
  temp < 10 ^ N.of_nat (20 - length buffer) → temp < 10 ^ N.of_nat (2 * fuel) →
  temp < 10 ^ N.of_nat f → (0 < f)%nat →
  (let! p := extract fuel temp buffer in finish (fst p) (snd p))%demi
  = Ok (numeral_aux f temp buffer).
Proof.
  revert f temp buffer.
  induction fuel as [|fuel IH]; intros f temp buffer H1 Hlen Hb Hfuel Hf Hpf; [simpl in *; lia|].
  cbn [extract]. destruct (N.leb_spec 100 temp) as [Hge|Hlt].
  - assert (length buffer + 2 < 20)%nat by (apply (room_pow temp); simpl; lia).
    destruct (digit_table (temp mod 100)) as [Ed1 Ed2]; [apply N.mod_lt; lia|].
    rewrite push_ok by lia. cbn [rbind]. rewrite push_ok by (cbn; lia). cbn [rbind].
    rewrite Ed1, Ed2.
    destruct f as [|[|[|f]]]; [lia|simpl in *; lia|simpl in *; lia|].
    rewrite numeral_aux_two by done.
    assert (1 <= temp / 100) by (apply N.div_le_lower_bound; lia).
    replace (2 * S fuel)%nat with (S (S (2 * fuel))) in Hfuel by lia.
    rewrite !pow10_S in Hfuel. rewrite !pow10_S in Hf.
    replace (20 - length buffer)%nat with (S (S (20 - length buffer - 2))) in Hb by lia.
    rewrite !pow10_S in Hb.
    apply IH; cbn [length]; try (apply N.Div0.div_lt_upper_bound); try lia.
    + replace (20 - S (S (length buffer)))%nat with (20 - length buffer - 2)%nat by lia. lia.
    + rewrite pow10_S. lia.
  - cbn [rbind fst snd]. rewrite finish_spec by lia. f_equal.
    apply numeral_aux_fuel; simpl; lia.
Qed.

Lemma size_nat_pow2 n : n < 2 ^ N.of_nat (N.size_nat n).
Proof.
  destruct n as [|p]; [simpl; lia|]. cbn [N.size_nat].
  induction p as [p IH|p IH|]; cbn [Pos.size_nat];
    rewrite ?Nat2N.inj_succ, ?N.pow_succ_r by lia; simpl in *; lia.
Qed.

Lemma size_nat_pow10 n : n < 10 ^ N.of_nat (S (N.size_nat n)).
Proof.
  rewrite pow10_S. pose proof (size_nat_pow2 n).
  assert (2 ^ N.of_nat (N.size_nat n) <= 10 ^ N.of_nat (N.size_nat n)) by (apply N.pow_le_mono_l; lia).
  lia.
Qed.

(** The optimised two-digits-at-a-time conversion computes the decimal
    numeral of every [size_t] value, within its 20-character buffer. *)
Lemma constexpr_to_string_numeral value :
  value < 2 ^ 64 → constexpr_to_string value = Ok (numeral value).
Proof.
  intros Hv. unfold constexpr_to_string. destruct (N.eqb_spec value 0) as [->|Hne]; [done|].
  pose proof (extract_finish 11 (S (N.size_nat value)) value []) as E.
  specialize (E ltac:(lia) ltac:(simpl; lia)).
  assert (value < 10 ^ 20) by lia.
  specialize (E H ltac:(change (10 ^ N.of_nat (2 * 11)) with (100 * 10 ^ 20); lia)
                (size_nat_pow10 value) ltac:(lia)).
  unfold rbind in *. destruct (extract 11 value []) as [[t b]|]; [|done].
  simpl in *. by rewrite E.
Qed.

(** The numeral of [n] consists of digits and denotes [n]. *)
Lemma dec_value_aux f n acc :
  n < 10 ^ N.of_nat f → Forall (λ c, is_digit c) acc →
  Forall (λ c, is_digit c) (numeral_aux f n acc) ∧
  dec_value (numeral_aux f n acc) = n * 10 ^ N.of_nat (length acc) + dec_value acc.
Proof.
  revert n acc. induction f as [|f IH]; intros n acc Hn Hacc.
  { simpl in *. split; [done|lia]. }
  assert (n mod 10 < 10) as Hm by (apply N.mod_lt; lia).
  destruct (digit_val_ascii (n mod 10) Hm) as [Ev Ed].
  assert (dec_value (ascii_digit (n mod 10) :: acc)
          = (n mod 10) * 10 ^ N.of_nat (length acc) + dec_value acc) as Edv.
  { rewrite <- Ev at 2. unfold dec_value. cbn [fold_left].
    generalize (ascii_digit (n mod 10)) as c. intros c. clear.
    change (0 * 10 + digit_val c) with (digit_val c).
    rewrite dec_value_shift_aux. lia. }
  simpl. destruct (N.ltb_spec n 10) as [Hlt|Hge].
  - split; [constructor; [by rewrite Ed|done]|]. rewrite Edv, N.mod_small by done. done.
  - rewrite pow10_S in Hn.
    destruct (IH (n / 10) (ascii_digit (n mod 10) :: acc)) as [IH1 IH2].
    { apply N.Div0.div_lt_upper_bound; lia. }
    { constructor; [by rewrite Ed|done]. }
    split; [done|]. rewrite IH2, Edv. cbn [length]. rewrite pow10_S.
    pose proof (N.div_mod n 10). nia.
Qed.

Lemma dec_value_numeral n : dec_value (list_ascii_of_string (numeral n)) = n.
Proof.
  unfold numeral. rewrite list_ascii_of_string_of_list_ascii.
  destruct (dec_value_aux (S (N.size_nat n)) n []) as [_ ->]; [apply size_nat_pow10|done|].
  unfold dec_value. simpl. lia.
Qed.

Lemma numeral_digits n : Forall (λ c, is_digit c) (list_ascii_of_string (numeral n)).
Proof.
  unfold numeral. rewrite list_ascii_of_string_of_list_ascii.
  apply dec_value_aux; [apply size_nat_pow10|done].
Qed.

Lemma numeral_aux_nonempty f n acc : acc ≠ [] → numeral_aux f n acc ≠ [].
Proof.
  revert n acc. induction f as [|f IH]; intros n acc Hacc; simpl; [done|].
  destruct (n <? 10); [done|]. by apply IH.
Qed.

Lemma numeral_nonempty n : list_ascii_of_string (numeral n) ≠ [].
Proof.
  unfold numeral. rewrite list_ascii_of_string_of_list_ascii. simpl.
  destruct (n <? 10); [done|]. by apply numeral_aux_nonempty.
Qed.

Lemma numeral_inj n m : numeral n = numeral m → n = m.
Proof. intros H. rewrite <- (dec_value_numeral n), <- (dec_value_numeral m). by rewrite H. Qed.

Lemma numeral_aux_length f n acc : (length (numeral_aux f n acc) <= f + length acc)%nat.
Proof.
  revert n acc. induction f as [|f IH]; intros n acc; simpl; [lia|].
  destruct (n <? 10); [simpl; lia|]. specialize (IH (n / 10) (ascii_digit (n mod 10) :: acc)).
  simpl in IH. lia.
Qed.

Lemma numeral_length n : n < 2 ^ 64 → (String.length (numeral n) <= 20)%nat.
Proof.
  intros Hn. unfold numeral. rewrite length_string_of_list.
  rewrite (numeral_aux_fuel _ 20) by (try apply size_nat_pow10; simpl; lia).
  pose proof (numeral_aux_length 20 n []) as Hl. by rewrite Nat.add_0_r in Hl.
Qed.

(** [constexpr_to_string] succeeds on every [size_t]: its two-digits-at-a-time
    loop stays within the 20-character buffer and yields the decimal numeral
    of the value, digits only, which reads back as the value. *)
Theorem constexpr_to_string_correct (value : N) :
  value < 2 ^ 64 →
  ∃ s, constexpr_to_string value = Ok s ∧ s = numeral value ∧ (String.length s <= 20)%nat ∧
       Forall (λ c, is_digit c) (list_ascii_of_string s) ∧ dec_value (list_ascii_of_string s) = value.
Proof.
  intros Hv. exists (numeral value). split_and!; auto using constexpr_to_string_numeral, numeral_length,
    numeral_digits, dec_value_numeral.
Qed.

Lemma constexpr_to_string_correct_witness :
  ∃ s, constexpr_to_string 18446744073709551615 = Ok s ∧ s = numeral 18446744073709551615 ∧
       (String.length s <= 20)%nat ∧
       Forall (λ c, is_digit c) (list_ascii_of_string s) ∧
       dec_value (list_ascii_of_string s) = 18446744073709551615.
Proof. apply (constexpr_to_string_correct 18446744073709551615). reflexivity. Defined.
End ToString.
