(* ===== verification/Outcome.v ===== *)
(** * Outcome: the result type of the code base

    [common/gears/outcome/gears_outcome.hpp]: [Outcome<T, Errors...>] and its
    specialisation for [void], a variant of the success value and the error
    alternatives, with its accessors and combinators.  C++ types are codes
    with decidable equality (what [std::same_as] decides); a variant holds the
    code of its alternative and a value of that type.  An [Outcome] type is
    its value type ([None] for [void]) and its error types; what the compiler
    computes from types is a function on such descriptions, what it rejects is
    a proposition.  The lvalue, const and rvalue overloads of a member differ
    in what they move, not in what they return, and share a definition. *)

From S2P Require Import Prelude.
From stdpp Require Import list sets.

Local Open Scope demi_scope.

(** ** Type lists: [gears_templates.hpp] *)

Section TypeLists.
Context {ty : Type} `{EqDecision ty}.

(** [all_unique_v] *)
Fixpoint all_unique (l : list ty) : bool :=
  match l with
  | [] => true
  | t :: l' => bool_decide (t ∉ l') && all_unique l'
  end.

(** [variant_unique_append] and [merge_variants_t] *)
Fixpoint variant_unique_append (acc l : list ty) : list ty :=
  match l with
  | [] => acc
  | t :: l' => if decide (t ∈ acc) then variant_unique_append acc l' else variant_unique_append (acc ++ [t]) l'
  end.
Definition merge_variants (a b : list ty) : list ty := variant_unique_append a b.

(** [merge_all_t] *)
Definition merge_all (vs : list (list ty)) : list ty :=
  match vs with
  | [] => []
  | v :: vs' => foldl merge_variants v vs'
  end.

Lemma all_unique_NoDup l : all_unique l = true ↔ NoDup l.
Proof.
  induction l as [|t l IH]; simpl; [split; [constructor|done]|].
  by rewrite andb_true_iff, bool_decide_eq_true, NoDup_cons, IH.
Qed.

Lemma unique_append_elem acc l t : t ∈ variant_unique_append acc l ↔ t ∈ acc ∨ t ∈ l.
Proof.
  revert acc. induction l as [|u l IH]; intros acc; simpl; [rewrite elem_of_nil; tauto|].
  rewrite elem_of_cons. case_decide as Hu; rewrite IH.
  - split; [tauto|]. intros [?|[->|?]]; auto.
  - rewrite elem_of_app, list_elem_of_singleton. tauto.
Qed.

Lemma unique_append_NoDup acc l : NoDup acc → NoDup (variant_unique_append acc l).
Proof.
  revert acc. induction l as [|u l IH]; intros acc Hn; simpl; [done|]. case_decide as Hu; apply IH; [done|].
  apply NoDup_app. split_and!; [done| |apply NoDup_singleton]. by intros x Hx ->%list_elem_of_singleton.
Qed.

(** Merging is associative. *)
Lemma merge_assoc a b c : merge_variants a (merge_variants b c) = merge_variants (merge_variants a b) c.
Proof.
  unfold merge_variants. revert b. induction c as [|u c IH]; intros b; simpl; [done|].
  assert (variant_unique_append a (b ++ [u]) =
          if decide (u ∈ variant_unique_append a b) then variant_unique_append a b
          else variant_unique_append a b ++ [u]) as E.
  { generalize a. induction b as [|t b IHb]; intros a'; simpl; [done|]. by case_decide. }
  destruct (decide (u ∈ b)) as [Hb|Hb]; rewrite IH.
  - case_decide as Hab; [done|]. destruct Hab. rewrite unique_append_elem. by right.
  - rewrite E. by case_decide.
Qed.

Lemma merge_incl a b : (∀ t, t ∈ b → t ∈ a) → merge_variants a b = a.
Proof.
  unfold merge_variants. revert a. induction b as [|u b IH]; intros a Hb; simpl; [done|].
  case_decide as Hu; [|destruct Hu; apply Hb; left]. apply IH. intros t Ht. apply Hb. by right.
Qed.
Lemma merge_fold_elem (vs : list (list ty)) acc t : t ∈ foldl merge_variants acc vs ↔ t ∈ acc ∨ ∃ v, v ∈ vs ∧ t ∈ v.
Proof.
  revert acc. induction vs as [|v vs IH]; intros acc; simpl.
  - split; [by left|]. intros [?|(v & Hv%elem_of_nil & _)]; done.
  - rewrite IH. unfold merge_variants. rewrite unique_append_elem. split.
    + intros [[?|?]|(w & Hw & Ht)]; [by left|right; exists v; split; [left|done]|right; exists w; split; [by right|done]].
    + intros [?|(w & [->|Hw]%elem_of_cons & Ht)]; [by left; left|by left; right|right; by exists w].
Qed.

End TypeLists.

(** ** Outcomes *)

Section Outcomes.
Context {ty : Type} `{EqDecision ty} (el : ty → Type).
(** [std::monostate] and its value *)
Variables (monostate : ty) (mono : el monostate).

(** A variant alternative: [std::variant]'s index and content. *)
Definition alt : Type := {t : ty & el t}.
Definition tag (a : alt) : ty := projT1 a.

(** [Outcome<T, Errors...>] as a type; [None] is [void]. *)
Record OutcomeType := mkOT { value_type : option ty; error_types : list ty }.

#[export] Instance OutcomeType_eq_dec : EqDecision OutcomeType.
Proof. solve_decision. Defined.

(** The alternative that stands for success. *)
Definition success_type (T : OutcomeType) : ty := default monostate (value_type T).

(** The static assertions of the class, and for [void] that
    [std::variant<std::monostate, Errors...>] has no duplicate. *)
Definition type_ok (T : OutcomeType) : bool :=
  all_unique (error_types T) && bool_decide (success_type T ∉ error_types T).

(** A value of the type. *)
Definition has_type (T : OutcomeType) (o : alt) : Prop := tag o = success_type T ∨ tag o ∈ error_types T.

(** [std::get<t>] *)
Definition get (t : ty) (o : alt) : option (el t) :=
  match decide (tag o = t) with
  | left e => Some (eq_rect (tag o) el (projT2 o) t e)
  | right _ => None
  end.

(** Construction from [ok(v)], [ok()] and [err(e)]. *)
Definition ok (t : ty) (v : el t) : alt := existT t v.
Definition ok_void : alt := existT monostate mono.
Definition err (t : ty) (e : el t) : alt := existT t e.

Definition is_success (T : OutcomeType) (o : alt) : bool := bool_decide (tag o = success_type T).
Definition is_error (T : OutcomeType) (o : alt) : bool := negb (is_success T o).
Definition holds_error (E : ty) (o : alt) : bool := bool_decide (tag o = E).

Definition value (t : ty) (o : alt) : result (el t) :=
  match get t o with Some v => Ok v | None => Throw BadOutcomeAccess end.
Definition value_or (t : ty) (o : alt) (default_value : el t) : el t :=
  match get t o with Some v => v | None => default_value end.
Definition error (E : ty) (o : alt) : result (el E) :=
  match get E o with Some e => Ok e | None => Throw bad_variant_access end.
Definition ensure_success (o : alt) : result unit :=
  if bool_decide (tag o = monostate) then Ok tt else Throw BadOutcomeAccess.

(** [Wider{}]: the default value of a type that has one. *)
Variable default_value : ∀ t, el t.

(** [detail::widen_outcome<Wider>]: visits the alternative of a narrower
    outcome.  The test for [std::monostate] comes first. *)
Definition widen_outcome (Wider Narrower : OutcomeType) (src : alt) : alt :=
  if decide (tag src = monostate) then existT (success_type Wider) (default_value (success_type Wider))
  else if decide (value_type Narrower = Some (tag src)) then src
  else src.

(** [detail::rebuild_outcome_t]: the result type of [and_then]. *)
Definition and_then_type (T F : OutcomeType) : OutcomeType :=
  mkOT (value_type F) (merge_all [error_types T; error_types F]).

(** The visit of the error path: the success alternative cannot occur. *)
Definition propagate (T : OutcomeType) (o : alt) : result alt :=
  if decide (tag o = success_type T) then Throw BadOutcomeAccess else Ok o.

(** [and_then]: [f] is given the content of the success alternative. *)
Definition and_then (T F : OutcomeType) (f : el (success_type T) → alt) (o : alt) : result alt :=
  match get (success_type T) o with
  | Some v => Ok (if decide (F = and_then_type T F) then f v else widen_outcome (and_then_type T F) F (f v))
  | None => propagate T o
  end.

(** [or_else]: the error is replaced by what [f] returns, an outcome of type
    [F]; a success value is put into [F] as it is, and the success of a [void]
    outcome becomes a default-constructed [F]. *)
Definition or_else (T F : OutcomeType) (f : alt) (o : alt) : alt :=
  match get (success_type T) o with
  | Some v =>
      match value_type T with
      | Some _ => existT (success_type T) v
      | None => existT (success_type F) (default_value (success_type F))
      end
  | None => f
  end.

(** [transform]: [f] returns a plain value of type [u] ([void] as [None]). *)
Definition transform_type (T : OutcomeType) (u : option ty) : OutcomeType := mkOT u (error_types T).
Definition transform (T : OutcomeType) (u : option ty) (f : el (success_type T) → el (default monostate u)) (o : alt)
    : result alt :=
  match get (success_type T) o with
  | Some v => Ok (existT (default monostate u) (f v))
  | None => propagate T o
  end.

(** ** [chain_outcomes] *)

(** The success payload: nothing, one value, or a tuple. *)
Inductive chained : Type := Nothing | One (a : alt) | Tuple (l : list alt).

Definition simplify_tuple (l : list alt) : chained :=
  match l with [] => Nothing | [a] => One a | _ => Tuple l end.

(** [extract_first_error] *)
Fixpoint extract_first_error (os : list (OutcomeType * alt)) : result alt :=
  match os with
  | [] => Throw BadOutcomeAccess
  | (T, o) :: os' =>
      if is_success T o then extract_first_error os'
      else if decide (tag o = monostate ∨ value_type T = Some (tag o)) then Throw BadOutcomeAccess
      else Ok o
  end.

(** The values of the outcomes that carry one. *)
Fixpoint values (os : list (OutcomeType * alt)) : list alt :=
  match os with
  | [] => []
  | (T, o) :: os' => match value_type T with None => values os' | Some _ => o :: values os' end
  end.

(** Either the payload or the first error. *)
Definition chain_outcomes (os : list (OutcomeType * alt)) : result (chained + alt) :=
  if existsb (λ p, negb (is_success p.1 p.2)) os
  then let! e := extract_first_error os in Ok (inr e)
  else Ok (inl (simplify_tuple (values os))).

Definition chain_error_types (Ts : list OutcomeType) : list ty := merge_all (error_types <$> Ts).

(** ** Laws *)

(** [std::monostate] has one value. *)
Hypothesis mono_unique : ∀ x : el monostate, x = mono.

(** The types the code base uses: accepted by the compiler, and
    [std::monostate] is neither an error type nor a value type. *)
Definition plain (T : OutcomeType) : Prop :=
  type_ok T = true ∧ (monostate ∉ error_types T) ∧ value_type T ≠ Some monostate.

Lemma get_same t (x : el t) : get t (existT t x) = Some x.
Proof.
  unfold get. simpl. destruct (decide (t = t)) as [e|]; [|done].
  by rewrite (proof_irrel e eq_refl).
Qed.

Lemma get_some t o v : get t o = Some v → o = existT t v.
Proof. unfold get. destruct o as [u x]. simpl. destruct (decide (u = t)) as [e|]; [|done]. intros [= <-]. by destruct e. Qed.

Lemma get_none t o : get t o = None → tag o ≠ t.
Proof. unfold get. by destruct (decide (tag o = t)). Qed.

(** Widening does not change a plain outcome. *)
Lemma widen_plain W F o :
  plain F → has_type F o → value_type W = value_type F → widen_outcome W F o = o.
Proof.
  intros (Hok & Hm & Hv) Ht HW. unfold widen_outcome. case_decide as Hd; [|by case_decide].
  destruct Ht as [Ht|Ht]; [|by rewrite Hd in Ht].
  destruct o as [u x]. simpl in *. subst u. unfold success_type in *. rewrite HW.
  destruct (value_type F) as [t|]; simpl in *; [congruence|]. f_equal.
  by rewrite (mono_unique x), (mono_unique (default_value monostate)).
Qed.

(** The value or the error that [and_then] is specified to give. *)
Definition bind (T : OutcomeType) (f : el (success_type T) → alt) (o : alt) : alt :=
  match get (success_type T) o with Some v => f v | None => o end.

Lemma and_then_bind T F f o :
  plain F → (∀ v, has_type F (f v)) → and_then T F f o = Ok (bind T f o).
Proof.
  intros HF Hf. unfold and_then, bind, propagate. destruct (get (success_type T) o) as [v|] eqn:E.
  - case_decide; [done|]. by rewrite (widen_plain _ F).
  - apply get_none in E. by case_decide.
Qed.

Lemma bind_type T F f o :
  has_type T o → (∀ v, has_type F (f v)) → has_type (and_then_type T F) (bind T f o).
Proof.
  intros Ht Hf. unfold bind, has_type, and_then_type, merge_all, merge_variants. simpl.
  destruct (get (success_type T) o) as [v|] eqn:E.
  - destruct (Hf v) as [H|H]; [left|right; rewrite unique_append_elem; by right].
    exact H.
  - apply get_none in E. destruct Ht as [?|Ht]; [done|]. right. rewrite unique_append_elem. by left.
Qed.

Lemma bind_assoc T F (f : el (success_type T) → alt) (g : el (success_type F) → alt) o :
  plain (and_then_type T F) → has_type T o →
  bind (and_then_type T F) g (bind T f o) = bind T (λ v, bind F g (f v)) o.
Proof.
  intros (Hok & _) Ho. unfold bind at 2 3. destruct (get (success_type T) o) as [v|] eqn:E; [done|].
  apply get_none in E. destruct Ho as [?|Ho]; [done|]. unfold bind.
  destruct (get (success_type (and_then_type T F)) o) as [w|] eqn:Ew; [|done].
  apply get_some in Ew. unfold type_ok in Hok. apply andb_true_iff in Hok as [_ Hn].
  apply bool_decide_eq_true in Hn. destruct Hn. unfold and_then_type, merge_all, merge_variants. simpl.
  rewrite unique_append_elem. left. by rewrite Ew in Ho.
Qed.

(** C38: [Outcome] is a monad whose errors add up.  For plain types, in which
    [std::monostate] is neither the value type nor an error type, [and_then]
    never throws; it calls the function on a success value and hands on every
    error unchanged; its result has the computed type; [ok] is neutral on both
    sides; and a chain of two [and_then] has the same value and the same type
    however it is grouped. *)
Theorem outcome_monad (T F G : OutcomeType) (f : el (success_type T) → alt) (g : el (success_type F) → alt) (o : alt) :
  plain T → plain F → plain G → plain (and_then_type T F) → plain (and_then_type F G) →
  has_type T o → (∀ v, has_type F (f v)) → (∀ v, has_type G (g v)) →
  and_then T F f o = Ok (bind T f o) ∧ has_type (and_then_type T F) (bind T f o) ∧
  (∀ v, and_then T F f (ok _ v) = Ok (f v)) ∧
  and_then T T (λ v, ok _ v) o = Ok o ∧
  (let! o' := and_then T F f o in and_then (and_then_type T F) G g o') =
    and_then T (and_then_type F G) (λ v, bind F g (f v)) o ∧
  and_then_type (and_then_type T F) G = and_then_type T (and_then_type F G).
Proof.
  intros HT HF HG HTF HFG Ho Hf Hg. split_and!.
  - by apply and_then_bind.
  - by apply bind_type.
  - intros v. rewrite and_then_bind by done. unfold bind, ok. by rewrite get_same.
  - rewrite and_then_bind; [|done|intros v; by left]. f_equal. unfold bind.
    destruct (get (success_type T) o) as [v|] eqn:E; [|done]. by apply get_some in E.
  - rewrite (and_then_bind T F) by done. simpl.
    rewrite (and_then_bind _ G), (and_then_bind T (and_then_type F G)); [|done|..|done|done].
    + f_equal. by apply bind_assoc.
    + intros v. by apply bind_type.
  - unfold and_then_type. simpl. f_equal. unfold merge_all. simpl. symmetry. apply merge_assoc.
Qed.

Lemma or_else_cases T F r o :
  value_type F = value_type T → or_else T F r o = if is_success T o then o else r.
Proof.
  intros HF. unfold or_else, is_success. destruct (get (success_type T) o) as [v|] eqn:E.
  - apply get_some in E. subst o. rewrite bool_decide_eq_true_2 by done. destruct T as [[t|] es]; [done|].
    unfold success_type in *. simpl in *. rewrite HF. simpl.
    by rewrite (mono_unique v), (mono_unique (default_value monostate)).
  - apply get_none in E. by rewrite bool_decide_eq_false_2.
Qed.

(** Recovery and mapping.  [transform] is [and_then] with a function that
    cannot fail: it never throws, keeps the error types, applies the function
    to a success and leaves an error alone.  [or_else] leaves a success alone
    when the recovery has the same value type, forgets an error in favour of
    what the recovery returns, and its result has the type of the recovery. *)
Theorem outcome_transform_or_else (T F : OutcomeType) (u : option ty)
    (f : el (success_type T) → el (default monostate u)) (r o : alt) :
  has_type T o → has_type F r → value_type F = value_type T → plain (mkOT u []) →
  transform T u f o = Ok (bind T (λ v, existT (default monostate u) (f v)) o) ∧
  transform T u f o = and_then T (mkOT u []) (λ v, existT (default monostate u) (f v)) o ∧
  and_then_type T (mkOT u []) = transform_type T u ∧
  has_type (transform_type T u) (bind T (λ v, existT (default monostate u) (f v)) o) ∧
  or_else T F r o = (if is_success T o then o else r) ∧ has_type F (or_else T F r o).
Proof.
  intros Ho Hr HF Hu.
  assert (transform T u f o = Ok (bind T (λ v, existT (default monostate u) (f v)) o)) as Et.
  { unfold transform, bind, propagate. destruct (get (success_type T) o) eqn:E; [done|].
    apply get_none in E. by case_decide. }
  pose proof (or_else_cases T F r o HF) as Eo.
  split_and!; [done| |done| |done|].
  - rewrite Et. symmetry. apply and_then_bind; [done|]. intros v. by left.
  - apply (bind_type T (mkOT u [])); [done|]. intros v. by left.
  - rewrite Eo. destruct (is_success T o) eqn:E; [|done]. unfold is_success in E.
    apply bool_decide_eq_true in E. left. rewrite E. unfold success_type. by rewrite HF.
Qed.

(** ** Chains *)

(** The first error, left to right. *)
Fixpoint first_error (os : list (OutcomeType * alt)) : option alt :=
  match os with
  | [] => None
  | (T, o) :: os' => if is_success T o then first_error os' else Some o
  end.

Lemma is_success_get T o : is_success T o = true ↔ tag o = success_type T.
Proof. unfold is_success. by rewrite bool_decide_eq_true. Qed.

Lemma first_error_none os :
  first_error os = None ↔ existsb (λ p, negb (is_success p.1 p.2)) os = false.
Proof.
  induction os as [|[T o] os IH]; simpl; [done|]. destruct (is_success T o); simpl; done.
Qed.

Lemma extract_first os e :
  Forall (λ p, plain p.1 ∧ has_type p.1 p.2) os → first_error os = Some e → extract_first_error os = Ok e.
Proof.
  induction os as [|[T o] os IH]; simpl; [done|]. intros [[HT Ho] Hos]%Forall_cons_1. simpl in *.
  destruct (is_success T o) eqn:E; [by apply IH|]. intros [= <-].
  destruct HT as (_ & Hm & _). unfold is_success in E. apply bool_decide_eq_false in E.
  destruct Ho as [?|Ho]; [done|]. case_decide as Hd; [|done]. destruct Hd as [Hd|Hd]; [by rewrite Hd in Ho|].
  destruct E. unfold success_type. by rewrite Hd.
Qed.

Lemma first_error_type os e :
  Forall (λ p, has_type p.1 p.2) os → first_error os = Some e → tag e ∈ chain_error_types (os.*1).
Proof.
  intros Hos He. unfold chain_error_types, merge_all.
  assert (∃ T, T ∈ os.*1 ∧ tag e ∈ error_types T) as (T & HT & Ht).
  { induction os as [|[T o] os IH]; simpl in *; [done|]. apply Forall_cons_1 in Hos as [Ho Hos]. simpl in Ho.
    destruct (is_success T o) eqn:E.
    - destruct (IH Hos He) as (T' & HT' & H'). exists T'. split; [by right|done].
    - simplify_eq. exists T. split; [left|]. unfold is_success in E. apply bool_decide_eq_false in E. by destruct Ho. }
  destruct (os.*1) as [|T0 Ts] eqn:EE; [by apply elem_of_nil in HT|]. simpl. rewrite merge_fold_elem.
  apply elem_of_cons in HT as [->|HT]; [by left|right]. exists (error_types T). split; [|done].
  by apply list_elem_of_fmap_2.
Qed.

(** [chain_outcomes] is the early-return chain it documents: for plain types
    it never throws, gives the first error from left to right, which is one of
    the merged error types, and otherwise the values of the outcomes that carry
    one, a single value bare. *)
Theorem outcome_chain (os : list (OutcomeType * alt)) :
  Forall (λ p, plain p.1 ∧ has_type p.1 p.2) os →
  chain_outcomes os =
    Ok (match first_error os with Some e => inr e | None => inl (simplify_tuple (values os)) end) ∧
  ∀ e, first_error os = Some e → tag e ∈ chain_error_types (os.*1).
Proof.
  intros Hos. split.
  - unfold chain_outcomes. destruct (first_error os) as [e|] eqn:E.
    + destruct (existsb _ os) eqn:Ex; [|by apply first_error_none in Ex; congruence].
      by rewrite (extract_first os e).
    + apply first_error_none in E. by rewrite E.
  - intros e. apply first_error_type. eapply Forall_impl; [exact Hos|]. by intros p [_ ?].
Qed.

(** An error of type [std::monostate] is not plain, and is lost: widening turns
    it into a default-constructed success, and a chain throws. *)
Lemma monostate_error_lost (T : OutcomeType) (t u : ty) :
  t ≠ monostate → value_type T = Some t → error_types T = [monostate] →
  let W := mkOT (Some t) [monostate; u] in
  type_ok T = true ∧ has_type T (err monostate mono) ∧ is_error T (err monostate mono) = true ∧
  widen_outcome W T (err monostate mono) = ok t (default_value t) ∧
  chain_outcomes [(T, err monostate mono)] = Throw BadOutcomeAccess.
Proof.
  intros Hne HT HE W. unfold type_ok, has_type, is_error, chain_outcomes, is_success, widen_outcome.
  simpl. unfold is_success, success_type. rewrite HT, HE. simpl.
  split_and!.
  - rewrite bool_decide_eq_true_2; [|by intros ?%list_elem_of_singleton]. done.
  - right. left.
  - rewrite bool_decide_eq_false_2; done.
  - by case_decide.
  - rewrite bool_decide_eq_false_2; [|done]. simpl. case_decide as Hd; [done|]. destruct Hd. by left.
Qed.

End Outcomes.

(** ** Witnesses *)

Module Example.
(** 0 is [std::monostate], 1 an integer, the others strings. *)
Definition el (t : nat) : Type := match t with 0 => unit | 1 => Z | _ => string end.
Definition dflt (t : nat) : el t := match t with 0 => tt | 1 => 0%Z | _ => ""%string end.
Definition mono_unique (x : el 0) : x = tt := match x with tt => eq_refl end.
Definition T : OutcomeType := mkOT (Some 1) [2].
Definition F : OutcomeType := mkOT (Some 1) [3; 2].

Lemma plain_T : plain 0 T.
Proof. split_and!; [done| |done]. by intros ?%list_elem_of_singleton. Qed.
Lemma plain_F : plain 0 F.
Proof. split_and!; [done| |done]. by intros [?|?%list_elem_of_singleton]%elem_of_cons. Qed.
Lemma plain_TF : plain 0 (and_then_type T F).
Proof. split_and!; [done| |done]. by intros [?|?%list_elem_of_singleton]%elem_of_cons. Qed.
Lemma plain_FT : plain 0 (and_then_type F T).
Proof. split_and!; [done| |done]. by intros [?|?%list_elem_of_singleton]%elem_of_cons. Qed.

Definition half (v : Z) : alt el :=
  if (v mod 2 =? 0)%Z then existT 1 (v / 2)%Z else existT 3 "odd"%string.
Lemma half_type v : has_type el 0 F (half v).
Proof. unfold half. destruct (v mod 2 =? 0)%Z; [by left|right; left]. Qed.
End Example.

Lemma outcome_monad_witness :
  and_then Example.el 0 Example.dflt Example.T Example.F Example.half (existT 1 7%Z) = Ok (existT 3 "odd"%string).
Proof.
  apply (outcome_monad Example.el 0 tt Example.dflt Example.mono_unique Example.T Example.F Example.T
    Example.half (λ v, existT 1 v) (existT 1 7%Z) Example.plain_T Example.plain_F Example.plain_T
    Example.plain_TF Example.plain_FT).
  - by left.
  - apply Example.half_type.
  - intros v. by left.
Defined.

Lemma outcome_chain_witness :
  chain_outcomes Example.el 0 [(Example.T, existT 1 4%Z); (Example.F, existT 3 "odd"%string)] =
    Ok (inr (existT 3 "odd"%string)).
Proof.
  refine (proj1 (outcome_chain Example.el 0 [(Example.T, existT 1 4%Z); (Example.F, existT 3 "odd"%string)] _)).
  apply Forall_cons_2; [split; [apply Example.plain_T|by left]|].
  apply Forall_cons_2; [split; [apply Example.plain_F|right; left]|]. apply Forall_nil_2.
Defined.

Lemma outcome_transform_or_else_witness :
  transform Example.el 0 Example.T (Some 2) (λ _ : Z, "seven"%string) (existT 1 7%Z) = Ok (existT 2 "seven"%string) ∧
  or_else Example.el 0 Example.dflt Example.F Example.T (existT 1 0%Z) (existT 3 "odd"%string) = existT 1 0%Z.
Proof.
  split.
  - refine (proj1 (outcome_transform_or_else Example.el 0 tt Example.dflt Example.mono_unique Example.T Example.T (Some 2)
      (λ _ : Z, "seven"%string) (existT 1 0%Z) (existT 1 7%Z) _ _ _ _)); [by left|by left|done|].
    split_and!; [done|apply not_elem_of_nil|done].
  - refine (proj1 (proj2 (proj2 (proj2 (proj2 (outcome_transform_or_else Example.el 0 tt Example.dflt Example.mono_unique
      Example.F Example.T (Some 2) (λ _ : Z, "seven"%string) (existT 1 0%Z) (existT 3 "odd"%string) _ _ _ _))))));
      [right; left|by left|done|].
    split_and!; [done|apply not_elem_of_nil|done].
Defined.
