(* ===== verification/OutcomeVoid.v ===== *)
(** * Outcome: the specialisation for void, construction, visiting

    The class [Outcome<void, Errors...>] of [gears_outcome.hpp] is written out a
    second time in the source; the [void_] definitions translate it on its own, shown to
    be the primary template with [std::monostate] as value.  Also the
    constructors, [operator*], [visit] with [overloaded], equality and [swap] of
    both, the text of [BadOutcomeAccess], and the types of a chain's payload
    ([NonVoidTypes]). *)

From S2P Require Import Prelude Outcome.
From stdpp Require Import list sets.

Local Open Scope demi_scope.

(** ** BadOutcomeAccess *)

Definition bad_outcome_what (msg_ : option string) : string :=
  default "demiplane::gears::BadOutcomeAccess" msg_.

(** ** Both classes *)

Section Members.
Context {ty : Type} `{EqDecision ty} (el : ty → Type).
Variables (monostate : ty) (mono : el monostate).
Variable default_value : ∀ t, el t.

Abbreviation alt := (alt el).
Abbreviation OutcomeType := (@OutcomeType ty).

(** [Outcome()]: the default value of [T], or success for [void]. *)
Definition default_outcome (T : OutcomeType) : alt :=
  existT (success_type monostate T) (default_value (success_type monostate T)).

(** [Outcome(U&&)] with [U] the value type: the constraint excludes the error
    types and the tags, so the alternative is always the value. *)
Definition from_value (T : OutcomeType) (v : el (success_type monostate T)) : alt := ok el _ v.
(** [Outcome(SuccessTag<U>&&)] and [Outcome(ErrorTag<E>&&)]: what a tag holds goes
    into the alternative of its type; [E] must be one of the errors. *)
Definition from_success_tag (T : OutcomeType) (v : el (success_type monostate T)) : alt := ok el _ v.
Definition from_error_tag (T : OutcomeType) (E : ty) (e : el E) : option alt :=
  if decide (E ∈ error_types T) then Some (err el E e) else None.
(** [Outcome::error] and [Outcome::success], through the tag and the value
    constructor. *)
Definition error_factory (T : OutcomeType) (E : ty) (e : el E) : option alt := from_error_tag T E e.
Definition success_factory (T : OutcomeType) (v : el (success_type monostate T)) : alt := from_value T v.

Definition to_bool (T : OutcomeType) (o : alt) : bool := is_success el monostate T o.
Definition deref (t : ty) (o : alt) : result (el t) := value el t o.

(** *** Visiting *)

(** [overloaded{fs...}]: each [f] takes one type or is generic; a call picks the
    function for the exact type before a generic one, and two candidates that are
    equally good, or none, do not compile. *)
Inductive handler (R : Type) : Type :=
  | Exact (t : ty) (f : el t → R)
  | Generic (f : alt → R).
Arguments Exact {R}.
Arguments Generic {R}.

Definition exact_for {R} (t : ty) (h : handler R) : option (el t → R) :=
  match h with
  | Exact u f => match decide (u = t) with left e => Some (eq_rect u (λ v, el v → R) f t e) | right _ => None end
  | Generic _ => None
  end.
Definition generic_of {R} (h : handler R) : option (alt → R) :=
  match h with Exact _ _ => None | Generic f => Some f end.

(** The chosen function, [None] where the compiler rejects the call. *)
Definition overload {R} (fs : list (handler R)) (t : ty) : option (el t → R) :=
  match omap (exact_for t) fs with
  | [f] => Some f
  | _ :: _ :: _ => None
  | [] => match omap generic_of fs with [f] => Some (λ x, f (existT t x)) | _ => None end
  end.

(** The visit compiles when every alternative has a function. *)
Definition visitable {R} (fs : list (handler R)) (T : OutcomeType) : Prop :=
  ∀ t, t = success_type monostate T ∨ t ∈ error_types T → is_Some (overload fs t).

Definition visit {R} (fs : list (handler R)) (o : alt) : option R :=
  match overload fs (tag el o) with Some f => Some (f (projT2 o)) | None => None end.

(** [operator==] (defaulted): the same alternative with an equal value. *)
Definition outcome_eqb `{∀ t, EqDecision (el t)} (a b : alt) : bool :=
  match get el (tag el b) a with Some v => bool_decide (v = projT2 b) | None => false end.

Definition swap (a b : alt) : alt * alt := (b, a).

(** *** Laws *)

(** A visit that compiles returns on every value of the type. *)
Lemma visit_total {R} (fs : list (handler R)) T o :
  visitable fs T → has_type el monostate T o → is_Some (visit fs o).
Proof. intros Hv Ho. unfold visit. destruct (Hv (tag el o) Ho) as [f ->]. eauto. Qed.

(** Two functions, one for the value and one generic for the errors, are a case
    distinction on [is_success]. *)
Lemma visit_cases {R} T (f : el (success_type monostate T) → R) (g : alt → R) o :
  visit [Exact _ f; Generic g] o =
    Some (match get el (success_type monostate T) o with Some v => f v | None => g o end).
Proof.
  unfold visit, overload, get. destruct o as [t x]. cbn.
  destruct (decide (success_type monostate T = t)) as [e|Hne].
  - subst t. cbn. destruct (decide _) as [e'|]; [|done]. by rewrite (proof_irrel e' eq_refl).
  - destruct (decide (t = _)) as [e'|]; [congruence|done].
Qed.

(** So a visit of that shape is [and_then] without the types. *)
Lemma visit_bind T (f : el (success_type monostate T) → alt) o :
  visit [Exact _ f; Generic (λ a, a)] o = Some (bind el monostate T f o).
Proof. apply visit_cases. Qed.

Lemma outcome_eqb_spec `{∀ t, EqDecision (el t)} a b : outcome_eqb a b = true ↔ a = b.
Proof.
  unfold outcome_eqb, get. destruct a as [t x], b as [u y]. cbn. destruct (decide (t = u)) as [->|Hne].
  - cbn. rewrite bool_decide_eq_true. split; [by intros ->|]. intros [= Hp].
    by apply Eqdep_dec.inj_pair2_eq_dec in Hp; [|intros v w; apply (decide (v = w))].
  - split; [done|]. intros [= ? _]. done.
Qed.

(** The constructors give values of the type, the one asked for. *)
Lemma constructors_typed T E (e : el E) v :
  has_type el monostate T (default_outcome T) ∧ is_success el monostate T (default_outcome T) = true ∧
  has_type el monostate T (from_value T v) ∧ deref _ (from_value T v) = Ok v ∧
  (E ∈ error_types T → ∃ o, error_factory T E e = Some o ∧ has_type el monostate T o ∧ error el E o = Ok e) ∧
  (type_ok monostate T = true → ∀ o, error_factory T E e = Some o → to_bool T o = false).
Proof.
  split_and!; [by left| |by left| | |].
  - unfold is_success. by rewrite bool_decide_true.
  - unfold deref, value, from_value, ok. by rewrite get_same.
  - intros HE. exists (err el E e). unfold error_factory, from_error_tag. rewrite decide_True by done.
    split_and!; [done|by right|]. unfold error, err. by rewrite get_same.
  - intros Hok o. unfold error_factory, from_error_tag. case_decide as HE; [|done]. intros [= <-].
    unfold to_bool, is_success. apply bool_decide_eq_false. cbn. intros Heq.
    unfold type_ok in Hok. apply andb_true_iff in Hok as [_ Hn%bool_decide_eq_true]. by rewrite <- Heq in Hn.
Qed.

(** ** Outcome<void, Errors...> *)

(** [FRes] is the result type of the function; a void outcome's type is its list
    of errors. *)
Definition void_success : alt := ok_void el monostate mono.
Definition void_from_monostate (_ : el monostate) : alt := void_success.
Definition void_error_tag (Errors : list ty) (E : ty) (e : el E) : option alt :=
  if decide (E ∈ Errors) then Some (err el E e) else None.

Definition void_is_success (o : alt) : bool := bool_decide (tag el o = monostate).
Definition void_is_error (o : alt) : bool := negb (void_is_success o).
Definition void_holds_error (E : ty) (o : alt) : bool := bool_decide (tag el o = E).
Definition void_to_bool (o : alt) : bool := void_is_success o.
Definition void_error (E : ty) (o : alt) : result (el E) :=
  match get el E o with Some e => Ok e | None => Throw bad_variant_access end.

(** The visit on the error path. *)
Definition void_propagate (o : alt) : result alt :=
  if decide (tag el o = monostate) then Throw BadOutcomeAccess else Ok o.

Definition void_and_then (Errors : list ty) (FRes : OutcomeType) (f : unit → alt) (o : alt) : result alt :=
  let MergedErrors := merge_all [Errors; error_types FRes] in
  let Result := mkOT (value_type FRes) MergedErrors in
  if void_is_success o
  then Ok (if decide (FRes = Result) then f tt else widen_outcome el monostate default_value Result FRes (f tt))
  else void_propagate o.

Definition void_or_else (FRes : OutcomeType) (f : unit → alt) (o : alt) : alt :=
  if void_is_error o then f tt else default_outcome FRes.

(** [f] returns a value of type [u], [None] for [void]. *)
Definition void_transform (u : option ty) (f : unit → el (default monostate u)) (o : alt) : result alt :=
  if void_is_success o
  then match u return (unit → el (default monostate u)) → result alt with
       | None => λ _, Ok void_success
       | Some t => λ f, Ok (existT t (f tt))
       end f
  else void_propagate o.

(** The specialisation is the primary template at [void]: every operation gives
    the same result. *)
Theorem void_specialisation (mono_unique : ∀ x : el monostate, x = mono)
    (Errors : list ty) (F : OutcomeType) (u : option ty) (E : ty)
    (f : unit → alt) (g : unit → el (default monostate u)) (o : alt) (T := mkOT None Errors) :
  void_is_success o = is_success el monostate T o ∧
  void_error E o = error el E o ∧
  void_and_then Errors F f o = and_then el monostate default_value T F (λ _, f tt) o ∧
  void_or_else F f o = or_else el monostate default_value T F (f tt) o ∧
  void_transform u g o = transform el monostate T u (λ _, g tt) o.
Proof.
  assert (∀ b, void_is_success b = true ↔ get el (success_type monostate T) b ≠ None) as Hs.
  { intros b. unfold void_is_success, get. rewrite bool_decide_eq_true. cbn. by case_decide. }
  assert (void_is_success o = false → get el (success_type monostate T) o = None) as Hf.
  { intros Hn. destruct (get _ _ o) eqn:Eg; [|done]. assert (void_is_success o = true) by (apply Hs; congruence). congruence. }
  unfold void_and_then, void_or_else, void_transform, void_is_error, and_then, or_else, transform.
  split_and!; [done|done|..]; destruct (void_is_success o) eqn:Eo; cbn [negb];
    try (rewrite (Hf eq_refl); done);
    destruct (get el (success_type monostate T) o) as [v|] eqn:Eg; try (by apply Hs in Eo; rewrite Eg in Eo).
  destruct u as [t|]; [done|]. cbn. unfold void_success, ok_void. by rewrite (mono_unique (g tt)).
Qed.

(** ** The payload of a chain *)

(** [NonVoidTypes<Ts...>::tuple_type] *)
Fixpoint non_void_types (Ts : list (option ty)) : list ty :=
  match Ts with
  | [] => []
  | None :: rest => non_void_types rest
  | Some t :: rest => t :: non_void_types rest
  end.

(** The values a successful chain collects have exactly those types, in order. *)
Theorem chain_payload_types (os : list (OutcomeType * alt)) :
  Forall (λ p, is_success el monostate p.1 p.2 = true) os →
  tag el <$> values el os = non_void_types (value_type ∘ fst <$> os).
Proof.
  induction 1 as [|[T o] os Ho _ IH]; [done|]. cbn in *. unfold is_success in Ho. apply bool_decide_eq_true in Ho.
  destruct T as [[t|] es]; cbn in *; [|done]. f_equal; [done|exact IH].
Qed.
End Members.

Arguments Exact {ty el R}.
Arguments Generic {ty el R}.
