(* ===== verification/Meta.v ===== *)
(** * Compile-time gears

    src/common/gears/meta_programming/gears_templates.hpp and
    gears_concepts.hpp, src/common/gears/utilities/gears_types.hpp and
    gears_hash.hpp: the selection of arguments by type, the byte literals, the
    names of types, and the transparent functors of the name indexes.

    A C++ type is a term of [ty]; [volatile] occurs nowhere in the sources and
    has no constructor.  A function template that does not instantiate is
    [None].  The callers are [Timer::execute_polite_vanish] ([get_arg]) and
    the entry factory ([make_arg_tuple]). *)
From stdpp Require Import base list strings option.
From Stdlib Require Import ZArith Lia.
From S2P Require Import Prelude.

Module Meta.

(** ** Types *)

Inductive ty : Type :=
| Name (n : string)
| Spec (template : string) (args : list ty)
| Const (t : ty)
| Lref (t : ty)
| Rref (t : ty).

Fixpoint ty_eqb (a b : ty) : bool :=
  match a, b with
  | Name m, Name n => String.eqb m n
  | Spec s l, Spec t r =>
      String.eqb s t
      && (fix go l r := match l, r with
                        | [], [] => true
                        | x :: l', y :: r' => ty_eqb x y && go l' r'
                        | _, _ => false
                        end) l r
  | Const a, Const b | Lref a, Lref b | Rref a, Rref b => ty_eqb a b
  | _, _ => false
  end.

Definition remove_reference (t : ty) : ty :=
  match t with Lref u | Rref u => u | _ => t end.

Definition remove_cv (t : ty) : ty := match t with Const u => u | _ => t end.
Definition remove_cvref (t : ty) : ty := remove_cv (remove_reference t).

(** [T&], with the collapsing of references *)
Definition lvalue_of (t : ty) : ty := Lref (remove_reference t).

(** ** Traits *)

Definition is_specialization_of (t : ty) (template : string) : bool :=
  match t with Spec n _ => String.eqb n template | _ => false end.

(** [std::vector<T, Alloc>]: the primary template's arguments are all there *)
Definition is_vector (t : ty) : bool :=
  match t with Spec n [_; _] => String.eqb n "std::vector" | _ => false end.

Definition has_arg_type (t : ty) (args : list ty) : bool :=
  existsb (fun a => ty_eqb (remove_cvref a) t) args.

Definition has_exact_arg_type (t : ty) (args : list ty) : bool :=
  existsb (fun a => ty_eqb a t) args.

Definition OneOf (t : ty) (args : list ty) : bool := existsb (fun a => ty_eqb a t) args.
Definition OneOfDecayed (t : ty) (args : list ty) : bool :=
  existsb (fun a => ty_eqb (remove_cvref a) t) args.

Definition all_variant_types_satisfy (predicate : ty → bool) (alternatives : list ty) : bool :=
  forallb predicate alternatives.

(** ** Selection by type

    A tuple is the list of its elements' types and values.  [std::get<T>] is
    well formed when exactly one element has the type [T]. *)

Section Tuples.
Context {V : Type}.

Definition has_type (t : ty) (e : ty * V) : bool := ty_eqb (fst e) t.

Definition get (t : ty) (tuple : list (ty * V)) : option V :=
  match List.filter (has_type t) tuple with
  | [e] => Some (snd e)
  | _ => None
  end.

Definition pick (t : ty) (tuple : list (ty * V)) : option V := get t tuple.

(** [make_arg_tuple<type_list<Ts...>, Tuple>::from]: [tup] is an lvalue there,
    so every element of the result is a reference *)
Fixpoint make_arg_tuple (wants : list ty) (tup : list (ty * V)) : option (list (ty * V)) :=
  match wants with
  | [] => Some []
  | t :: wants' =>
      v ← pick t tup;
      rest ← make_arg_tuple wants' tup;
      Some ((lvalue_of t, v) :: rest)
  end.

(** [get_arg<T>(args...)]: the named parameters are lvalues, so the elements of
    [std::forward_as_tuple(args...)] are lvalue references *)
Definition get_arg (t : ty) (args : list (ty * V)) : option V :=
  pick t (map (fun e => (lvalue_of (fst e), snd e)) args).

End Tuples.

(** [execute_polite_vanish]: the assertion on the arguments, then the token *)
Definition token_ty : ty := Spec "std::shared_ptr" [Name "CancellationToken"].
Definition polite_vanish_token {V} (args : list (ty * V)) : option V :=
  if has_arg_type token_ty (map fst args) then get_arg (Lref token_ty) args else None.

(** ** Byte literals: [unsigned long long] *)

Definition ull (z : Z) : Z := (z mod 2 ^ 64)%Z.
Definition literal_b (value : Z) : Z := value.
Definition literal_kb (value : Z) : Z := ull (value * 1024).
Definition literal_mb (value : Z) : Z := ull (ull (value * 1024) * 1024).
Definition literal_gb (value : Z) : Z := ull (ull (ull (value * 1024) * 1024) * 1024).
Definition literal_tb (value : Z) : Z := ull (ull (ull (ull (value * 1024) * 1024) * 1024) * 1024).

(** ** Names of types

    [int32_t] is [int] and [int64_t] is [long].  [mangled] is
    [std::type_info::name]; [typeid] ignores references and top-level [const]. *)
Definition int32_t : ty := Name "int".
Definition int64_t : ty := Name "long".
Definition std_string : ty := Spec "std::basic_string" [Name "char"].

Section TypeNames.
Variable mangled : ty → string.

Definition get_type_name (t : ty) : string :=
  if ty_eqb t (Name "int") then "int"
  else if ty_eqb t (Name "double") then "double"
  else if ty_eqb t (Name "float") then "float"
  else if ty_eqb t (Name "bool") then "bool"
  else if ty_eqb t std_string then "string"
  else if ty_eqb t int32_t then "int32"
  else if ty_eqb t int64_t then "int64"
  else mangled (remove_cvref t).

Definition type_index (t : ty) : ty := remove_cvref t.

Definition get_type_name_from_index (ti : ty) : string :=
  if ty_eqb ti (type_index (Name "int")) then "int"
  else if ty_eqb ti (type_index (Name "double")) then "double"
  else if ty_eqb ti (type_index (Name "float")) then "float"
  else if ty_eqb ti (type_index (Name "bool")) then "bool"
  else if ty_eqb ti (type_index std_string) then "string"
  else if ty_eqb ti (type_index int32_t) then "int32"
  else if ty_eqb ti (type_index int64_t) then "int64"
  else mangled ti.

End TypeNames.

(** ** Transparent string functors *)

Inductive str_kind : Type := StringView | StdString | CString.

(** the three ways a key is spelled; a [const char*] ends at its first NUL *)
Record key : Type := mkKey { k_kind : str_kind; k_bytes : string }.

Fixpoint c_str (s : string) : string :=
  match s with
  | EmptyString => EmptyString
  | String c s' => if Ascii.eqb c Ascii.zero then EmptyString else String c (c_str s')
  end.

Definition as_view (k : key) : string :=
  match k_kind k with CString => c_str (k_bytes k) | _ => k_bytes k end.

(** [StringHash]: [hash] is [std::hash<std::string_view>] *)
Definition StringHash (hash : string → Z) (k : key) : Z := hash (as_view k).

(** Overload resolution for [StringEqual]: the conversion of an argument to a
    parameter is the identity, a user-defined conversion (by the named
    function) or impossible. *)
Inductive conversion : Type := Identity | User (by_function : string).

Definition convert (from to : str_kind) : option conversion :=
  match from, to with
  | StringView, StringView | StdString, StdString | CString, CString => Some Identity
  | StdString, StringView => Some (User "string::operator string_view")
  | CString, StringView => Some (User "string_view::string_view")
  | CString, StdString => Some (User "string::string")
  | StringView, StdString | _, CString => None
  end.

(** conversions by different functions are not ordered, and none is better
    than itself *)
Definition better (a b : option conversion) : bool :=
  match a, b with Some Identity, Some (User _) => true | _, _ => false end.

Definition string_equal_overloads : list (str_kind * str_kind) :=
  [(StringView, StringView); (StdString, StringView);
   (StringView, StdString); (StdString, StdString)].

Definition viable (args f : str_kind * str_kind) : bool :=
  match convert (fst args) (fst f), convert (snd args) (snd f) with
  | Some _, Some _ => true
  | _, _ => false
  end.

(** [f] is a better overload than [g]: worse for no argument, better for one *)
Definition beats (args f g : str_kind * str_kind) : bool :=
  let l := better (convert (fst args) (fst f)) (convert (fst args) (fst g)) in
  let r := better (convert (snd args) (snd f)) (convert (snd args) (snd g)) in
  let l' := better (convert (fst args) (fst g)) (convert (fst args) (fst f)) in
  let r' := better (convert (snd args) (snd g)) (convert (snd args) (snd f)) in
  negb l' && negb r' && (l || r).

Definition kind_eqb (a b : str_kind) : bool :=
  match a, b with
  | StringView, StringView | StdString, StdString | CString, CString => true
  | _, _ => false
  end.

Definition same_overload (f g : str_kind * str_kind) : bool :=
  kind_eqb (fst f) (fst g) && kind_eqb (snd f) (snd g).

Definition resolve (args : str_kind * str_kind) : option (str_kind * str_kind) :=
  let fs := List.filter (viable args) string_equal_overloads in
  List.find (fun f => forallb (fun g => same_overload f g || beats args f g) fs) fs.

(** [StringEqual::operator()]: every overload compares the two views *)
Definition StringEqual (lhs rhs : key) : option bool :=
  _ ← resolve (k_kind lhs, k_kind rhs);
  Some (String.eqb (as_view lhs) (as_view rhs)).

(** ** Equality of types *)

Section TyInd.
Variable P : ty → Prop.
Hypothesis HName : ∀ n, P (Name n).
Hypothesis HSpec : ∀ s l, Forall P l → P (Spec s l).
Hypothesis HConst : ∀ t, P t → P (Const t).
Hypothesis HLref : ∀ t, P t → P (Lref t).
Hypothesis HRref : ∀ t, P t → P (Rref t).

Fixpoint ty_ind' (t : ty) : P t :=
  match t with
  | Name n => HName n
  | Spec s l =>
      HSpec s l ((fix go l : Forall P l :=
                    match l with
                    | [] => Forall_nil_2 P
                    | x :: l' => Forall_cons_2 P x l' (ty_ind' x) (go l')
                    end) l)
  | Const u => HConst u (ty_ind' u)
  | Lref u => HLref u (ty_ind' u)
  | Rref u => HRref u (ty_ind' u)
  end.
End TyInd.

Lemma ty_eqb_spec a b : ty_eqb a b = true ↔ a = b.
Proof.
  revert b; induction a as [n|s l IH|t IH|t IH|t IH] using ty_ind'; intros b;
    destruct b as [m|s' r|u|u|u]; cbn [ty_eqb];
    try (split; [discriminate | congruence]);
    try (rewrite IH; split; congruence).
  - rewrite String.eqb_eq; split; congruence.
  - rewrite andb_true_iff, String.eqb_eq.
    assert (Hgo : (fix go (l r : list ty) {struct l} : bool :=
               match l, r with
               | [], [] => true
               | x :: l', y :: r' => ty_eqb x y && go l' r'
               | _, _ => false
               end) l r = true ↔ l = r).
    { clear s s'; revert r; induction IH as [|x l Hx _ IHl]; intros [|y r];
        try (split; [discriminate | congruence]); [done|].
      rewrite andb_true_iff, Hx, IHl; split; [intros [-> ->] | intros [= -> ->]]; done. }
    rewrite Hgo; split; [intros [-> ->] | intros [= -> ->]]; done.
Qed.

Lemma ty_eqb_refl a : ty_eqb a a = true.
Proof. by apply ty_eqb_spec. Qed.

#[export] Instance ty_eq_dec : EqDecision ty.
Proof.
  intros a b; destruct (ty_eqb a b) eqn:E; [left | right].
  - by apply ty_eqb_spec.
  - by intros H%ty_eqb_spec; rewrite H in E.
Defined.

(** ** Selection by type *)

Section Selection.
Context {V : Type}.
Implicit Types tup args : list (ty * V).

Lemma get_elem t tup v : get t tup = Some v → (t, v) ∈ tup.
Proof.
  unfold get; destruct (List.filter _ tup) as [|[u w] [|]] eqn:E; try discriminate; intros [= <-].
  assert (Hin : In (u, w) (List.filter (has_type t) tup)) by (rewrite E; left; done).
  apply filter_In in Hin as [Hin Ht%ty_eqb_spec]; simpl in *; subst.
  by apply list_elem_of_In.
Qed.

Lemma get_unique t v tup : NoDup (map fst tup) → (t, v) ∈ tup → get t tup = Some v.
Proof.
  intros Hnd (l1 & l2 & ->)%list_elem_of_split; unfold get.
  rewrite map_app in Hnd; simpl in Hnd.
  apply NoDup_app in Hnd as (_ & H1 & [H2 _]%NoDup_cons).
  assert (Hno : ∀ l : list (ty * V), t ∉ map fst l → List.filter (has_type t) l = []).
  { induction l as [|[u w] l IH]; [done|]; intros Hn; cbn [map] in Hn.
    apply not_elem_of_cons in Hn as [Hne Hn]; cbn [List.filter].
    change (has_type t (u, w)) with (ty_eqb u t).
    case_eq (ty_eqb u t); [|intros _; by apply IH].
    by intros E%ty_eqb_spec; subst; destruct Hne. }
  rewrite List.filter_app; cbn [List.filter].
  change (has_type t (t, v)) with (ty_eqb t t); rewrite ty_eqb_refl, !Hno; try done.
  intros Hin; apply (H1 t Hin); left.
Qed.

(** the projection of a tuple of distinct types is in the order of the list,
    an element per wanted type, each a reference to the element of that type *)
Theorem make_arg_tuple_projects wants tup :
  NoDup (map fst tup) → wants ⊆ map fst tup →
  ∃ r, make_arg_tuple wants tup = Some r ∧
       Forall2 (λ t e, fst e = lvalue_of t ∧ (t, snd e) ∈ tup) wants r.
Proof.
  intros Hnd; induction wants as [|t wants IH]; intros Hsub; [by exists []; split|].
  destruct IH as (r & Hr & HF); [set_solver|].
  assert (Ht : t ∈ map fst tup) by set_solver.
  apply list_elem_of_fmap in Ht as ([u v] & Hu & Hin); simpl in Hu; subst u.
  exists ((lvalue_of t, v) :: r); simpl; unfold pick.
  rewrite (get_unique t v tup Hnd Hin), Hr; split; [done | by constructor].
Qed.

Lemma make_arg_tuple_missing t wants tup :
  t ∈ wants → t ∉ map fst tup → make_arg_tuple wants tup = None.
Proof.
  intros Ht Hno; induction wants as [|u wants IH]; [by apply not_elem_of_nil in Ht|].
  simpl; unfold pick; destruct (get u tup) as [v|] eqn:E; [|done]; simpl.
  apply elem_of_cons in Ht as [->|Ht]; [|by rewrite (IH Ht)].
  exfalso; apply Hno; apply get_elem in E.
  apply list_elem_of_fmap; exists (u, v); done.
Qed.

(** The token of [execute_polite_vanish] is found exactly when one argument,
    as an lvalue, has the token's type. *)
Theorem polite_vanish_token_spec args v :
  polite_vanish_token args = Some v ↔
  ∃ a, List.filter (fun e => ty_eqb (remove_reference (fst e)) token_ty) args = [(a, v)].
Proof.
  assert (Hf : ∀ l : list (ty * V), List.filter (has_type (Lref token_ty))
                (map (fun e => (lvalue_of (fst e), snd e)) l)
              = map (fun e => (lvalue_of (fst e), snd e))
                  (List.filter (fun e => ty_eqb (remove_reference (fst e)) token_ty) l)).
  { induction l as [|[u w] l IH]; [done|]; cbn [map List.filter fst snd].
    rewrite IH; change (has_type (Lref token_ty) (lvalue_of u, w))
      with (ty_eqb (remove_reference u) token_ty).
    by destruct (ty_eqb (remove_reference u) token_ty). }
  unfold polite_vanish_token, get_arg, pick, get; rewrite Hf.
  destruct (List.filter _ args) as [|[a w] [|]] eqn:E; simpl.
  - split; [by case_match | by intros []].
  - assert (Hin : In (a, w) args ∧ ty_eqb (remove_reference a) token_ty = true).
    { apply (filter_In (fun e : ty * V => ty_eqb (remove_reference (fst e)) token_ty)); rewrite E; left; done. }
    destruct Hin as [Hin Ha%ty_eqb_spec].
    replace (has_arg_type token_ty (map fst args)) with true.
    + split; [intros [= <-]; by exists a | by intros [? [= _ <-]]].
    + symmetry; apply existsb_exists; exists a; split; [by apply (in_map fst) in Hin|].
      by unfold remove_cvref; rewrite Ha.
  - split; [by case_match | by intros [? [=]]].
Qed.

End Selection.

(** The assertion strips [const] and the extraction does not: a const token
    passes the assertion, and the call does not compile. *)
Example const_token_refused :
  let args := [(Lref (Const token_ty), 7)] in
  has_arg_type token_ty (map fst args) = true ∧ polite_vanish_token args = None.
Proof. done. Qed.

Example token_found :
  polite_vanish_token [(Lref (Name "int"), 1); (token_ty, 2)] = Some 2.
Proof. done. Qed.

(** ** Literals *)

Lemma ull_step a k : ull (ull a * k) = ull (a * k).
Proof. unfold ull; by rewrite Zmult_mod_idemp_l. Qed.

(** the products wrap as one product does *)
Theorem literal_wrap value :
  literal_kb value = ull (value * 2 ^ 10) ∧ literal_mb value = ull (value * 2 ^ 20) ∧
  literal_gb value = ull (value * 2 ^ 30) ∧ literal_tb value = ull (value * 2 ^ 40).
Proof.
  unfold literal_kb, literal_mb, literal_gb, literal_tb; rewrite ?ull_step, <- ?Z.mul_assoc.
  repeat split.
Qed.

Theorem literal_tb_exact value :
  (0 ≤ value < 2 ^ 24)%Z → literal_tb value = (value * 2 ^ 40)%Z.
Proof.
  intros H; destruct (literal_wrap value) as (_ & _ & _ & ->); unfold ull.
  apply Z.mod_small; lia.
Qed.

(** ** Names of types *)

(** types as C++ forms them: no reference to a reference, no const of a
    reference or of a const *)
Definition canonical (t : ty) : bool :=
  match t with
  | Name _ | Spec _ _ => true
  | Const u => match u with Const _ | Lref _ | Rref _ => false | _ => true end
  | Lref u | Rref u =>
      match u with
      | Lref _ | Rref _ => false
      | Const w => match w with Const _ | Lref _ | Rref _ => false | _ => true end
      | _ => true
      end
  end.

Lemma remove_cvref_idem t : canonical t = true → remove_cvref (remove_cvref t) = remove_cvref t.
Proof. destruct t as [| |[]|[| |[]| |]|[| |[]| |]]; done. Qed.

(** the run-time function names the type without references and const *)
Theorem type_name_runtime mangled t :
  canonical t = true →
  get_type_name_from_index mangled (type_index t) = get_type_name mangled (remove_cvref t).
Proof.
  intros H; unfold get_type_name_from_index, get_type_name, type_index.
  by rewrite (remove_cvref_idem _ H).
Qed.

(** [int32_t] is [int], which the first test takes *)
Theorem int32_name_unreachable mangled t :
  get_type_name mangled t = "int32"%string → mangled (remove_cvref t) = "int32"%string.
Proof. unfold get_type_name, int32_t; repeat case_match; congruence. Qed.

(** ** String functors *)

(** A comparison compiles exactly when neither side is a [const char*]: its
    conversions to the two parameter types are not ordered. *)
Theorem string_equal_compiles lhs rhs :
  is_Some (StringEqual lhs rhs) ↔ k_kind lhs ≠ CString ∧ k_kind rhs ≠ CString.
Proof.
  destruct lhs as [[] a], rhs as [[] b]; unfold StringEqual; cbn [k_kind];
    vm_compute resolve; simpl;
    (split; [intros [? [=]]; done | intros [? ?]; done || by eexists]).
Qed.

(** keys that compare equal hash equally, however they are spelled *)
Theorem hash_respects_equal hash lhs rhs :
  StringEqual lhs rhs = Some true → StringHash hash lhs = StringHash hash rhs.
Proof.
  unfold StringEqual, StringHash; destruct (resolve _); [|done]; simpl.
  by intros [= ->%String.eqb_eq].
Qed.

End Meta.
