(* ===== verification/Bytes.v ===== *)
(** * Fixed-width integers and byte order

    The integer conversions the wire code relies on: the modular casts between
    signed and unsigned types, [std::memcpy] of an integer to and from memory,
    and [ntoh]/[hton] of [gears_convert.hpp], on a host of either byte order. *)

From S2P Require Import Prelude Gears.

Local Open Scope Z_scope.

(** ** Casts *)

(** [static_cast<uintW_t>] *)
Definition to_unsigned (w z : Z) : Z := z mod 2 ^ w.
(** [static_cast<intW_t>]: two's complement. *)
Definition to_signed (w z : Z) : Z := (z + 2 ^ (w - 1)) mod 2 ^ w - 2 ^ (w - 1).

Definition in_signed (w z : Z) : bool := (- 2 ^ (w - 1) <=? z) && (z <? 2 ^ (w - 1)).
Definition in_unsigned (w z : Z) : bool := (0 <=? z) && (z <? 2 ^ w).

Lemma in_signed_spec w z : in_signed w z = true ↔ - 2 ^ (w - 1) ≤ z < 2 ^ (w - 1).
Proof. unfold in_signed. rewrite andb_true_iff, Z.leb_le, Z.ltb_lt. done. Qed.
Lemma in_unsigned_spec w z : in_unsigned w z = true ↔ 0 ≤ z < 2 ^ w.
Proof. unfold in_unsigned. rewrite andb_true_iff, Z.leb_le, Z.ltb_lt. done. Qed.

Lemma pow2_half w : 0 < w → 2 ^ w = 2 * 2 ^ (w - 1).
Proof. intros Hw. rewrite <- Z.pow_succ_r by lia. f_equal. lia. Qed.

Lemma to_signed_unsigned w z :
  0 < w → in_signed w z = true → to_signed w (to_unsigned w z) = z.
Proof.
  intros Hw Hz%in_signed_spec. unfold to_signed, to_unsigned.
  rewrite Zplus_mod_idemp_l. pose proof (pow2_half w Hw).
  rewrite Z.mod_small by lia. lia.
Qed.

Lemma to_unsigned_id w z : in_unsigned w z = true → to_unsigned w z = z.
Proof. intros Hz%in_unsigned_spec. by apply Z.mod_small. Qed.

Lemma to_unsigned_range w z : 0 ≤ w → in_unsigned w (to_unsigned w z) = true.
Proof. intros Hw. apply in_unsigned_spec, Z.mod_pos_bound, Z.pow_pos_nonneg; lia. Qed.

(** ** Bytes *)

Definition byte_val (b : ascii) : Z := Z.of_N (N_of_ascii b).
Definition byte_of (z : Z) : ascii := ascii_of_N (Z.to_N (z mod 256)).

Lemma byte_val_range b : 0 ≤ byte_val b < 256.
Proof. unfold byte_val. pose proof (N_ascii_bounded b). lia. Qed.

Lemma byte_val_of z : byte_val (byte_of z) = z mod 256.
Proof.
  unfold byte_val, byte_of. pose proof (Z.mod_pos_bound z 256).
  rewrite N_ascii_embedding by lia. lia.
Qed.

Lemma byte_of_val b : byte_of (byte_val b) = b.
Proof.
  unfold byte_of. rewrite Z.mod_small by apply byte_val_range.
  unfold byte_val. rewrite N2Z.id. apply ascii_N_embedding.
Qed.

(** The [n] bytes of [z], least significant first, and back. *)
Fixpoint le_bytes (n : nat) (z : Z) : list ascii :=
  match n with
  | O => []
  | S n' => byte_of z :: le_bytes n' (z / 256)
  end.

Fixpoint le_value (l : list ascii) : Z :=
  match l with
  | [] => 0
  | b :: l' => byte_val b + 256 * le_value l'
  end.

Lemma length_le_bytes n z : length (le_bytes n z) = n.
Proof. revert z. induction n; simpl; auto. Qed.

Lemma le_value_range l : 0 ≤ le_value l < 256 ^ Z.of_nat (length l).
Proof.
  induction l as [|b l IH]; [simpl; lia|]. cbn [le_value length].
  rewrite Nat2Z.inj_succ, Z.pow_succ_r by lia. pose proof (byte_val_range b). lia.
Qed.

Lemma le_value_bytes n z : le_value (le_bytes n z) = z mod 256 ^ Z.of_nat n.
Proof.
  revert z. induction n as [|n IH]; intros z; cbn [le_bytes le_value].
  { simpl. by rewrite Z.mod_1_r. }
  rewrite IH, byte_val_of, Nat2Z.inj_succ, Z.pow_succ_r by lia.
  rewrite Z.rem_mul_r by lia. lia.
Qed.

Lemma le_bytes_value l : le_bytes (length l) (le_value l) = l.
Proof.
  induction l as [|b l IH]; [done|]. cbn [length le_value le_bytes].
  pose proof (byte_val_range b). f_equal.
  - unfold byte_of. rewrite Z.mul_comm, Z_mod_plus_full. apply byte_of_val.
  - rewrite Z.mul_comm, Z.div_add, Z.div_small by lia. exact IH.
Qed.

(** Network order: most significant byte first. *)
Definition be_bytes (n : nat) (z : Z) : list ascii := rev (le_bytes n z).
Definition be_value (l : list ascii) : Z := le_value (rev l).

#[global] Arguments be_bytes : simpl never.
#[global] Arguments to_unsigned : simpl never.
#[global] Arguments to_signed : simpl never.

Lemma be_value_bytes n z : be_value (be_bytes n z) = z mod 256 ^ Z.of_nat n.
Proof. unfold be_value, be_bytes. rewrite rev_involutive. apply le_value_bytes. Qed.

(** ** Byte order of the host *)

Section Host.
(** [std::endian::native == std::endian::big] *)
Variable native_big : bool.

(** [std::memcpy(ptr, &z, n)] and [std::memcpy(&z, ptr, n)] for an unsigned
    [n]-byte integer. *)
Definition memcpy_out (n : nat) (z : Z) : list ascii :=
  if native_big then rev (le_bytes n z) else le_bytes n z.
Definition memcpy_in (l : list ascii) : Z :=
  if native_big then le_value (rev l) else le_value l.

(** [std::byteswap] *)
Definition byteswap (n : nat) (z : Z) : Z := le_value (rev (le_bytes n z)).

Definition ntoh (n : nat) (net : Z) : Z := if native_big then net else byteswap n net.
Definition hton (n : nat) (host : Z) : Z := ntoh n host.

(** Whatever the host, what goes to memory is network order... *)
Lemma memcpy_out_hton n z : memcpy_out n (hton n z) = be_bytes n z.
Proof.
  unfold memcpy_out, hton, ntoh, be_bytes, byteswap. destruct native_big; [done|].
  rewrite <- (length_le_bytes n z) at 1. rewrite <- length_rev. apply le_bytes_value.
Qed.

(** ... and what comes from memory is read as network order. *)
Lemma ntoh_memcpy_in l : ntoh (length l) (memcpy_in l) = be_value l.
Proof.
  unfold ntoh, memcpy_in, be_value, byteswap. destruct native_big; [done|].
  by rewrite le_bytes_value.
Qed.

Lemma be_bytes_length n z : length (be_bytes n z) = n.
Proof. unfold be_bytes. rewrite length_rev. apply length_le_bytes. Qed.

(** A value written in network order reads back as itself. *)
Lemma wire_roundtrip n z :
  ntoh n (memcpy_in (memcpy_out n (hton n z))) = z mod 256 ^ Z.of_nat n.
Proof.
  rewrite memcpy_out_hton. rewrite <- (be_bytes_length n z) at 1.
  rewrite ntoh_memcpy_in. apply be_value_bytes.
Qed.
End Host.

(** ** Reading numbers with the C library *)

(** [std::isspace] in the C locale: blank, tab, newline, vertical tab, form
    feed, carriage return *)
Definition isspace (c : ascii) : bool :=
  (N_of_ascii c =? 32)%N || ((9 <=? N_of_ascii c)%N && (N_of_ascii c <=? 13)%N).

Fixpoint skip_space (s : string) : string :=
  match s with
  | String c s' => if isspace c then skip_space s' else s
  | EmptyString => s
  end.

(** The longest prefix of digits. *)
Fixpoint digits_prefix (s : string) : list ascii :=
  match s with
  | String c s' => if ToString.is_digit c then c :: digits_prefix s' else []
  | EmptyString => []
  end.

(** [std::stoi] and [std::stol] for a type of [w] bits: white space, a sign,
    digits; the rest is ignored. *)
Definition sto (w : Z) (s : string) : result Z :=
  let s := skip_space s in
  let '(neg, s) := match s with
                   | String c s' => if decide (c = "-"%char) then (true, s')
                                    else if decide (c = "+"%char) then (false, s') else (false, s)
                   | EmptyString => (false, s)
                   end in
  match digits_prefix s with
  | [] => Throw invalid_argument
  | ds => let n := Z.of_N (ToString.dec_value ds) in
          let n := if neg : bool then (- n)%Z else n in
          if in_signed w n then Ok n else Throw out_of_range
  end.
Definition stoi : string → result Z := sto 32.
Definition stol : string → result Z := sto 64.
