(* ===== verification/QueryAst.v ===== *)
(** * Query expressions

    The values, tables and expression nodes of [components/database]:
    [FieldValue] ([primitives/field/db_field_value.hpp]), [Column] and
    [AllColumns] ([primitives/column/db_column.hpp]), the table types the
    [IsTable] concept admits, and the expression templates of
    [query/expressions/definitions].

    The C++ code has one class template per node; here they are the
    constructors of one inductive type, so a definition by recursion on it has
    one case per [QueryVisitor::visit] overload.  The factories and fluent
    members that construct the nodes are in [QueryBuilders]. *)

From stdpp Require Import gmap.
From S2P Require Import Prelude Gears Bytes.

(** ** FieldValue *)

(** The alternatives of the variant, in its order.  Integers are mathematical
    integers together with [field_value_ok], which says that they lie in the
    range of their C++ type; [float] and [double] are their IEEE bit patterns;
    a byte is an [ascii]. *)
Inductive FieldValue : Type :=
  | FNull
  | FBool (b : bool)
  | FChar (c : ascii)
  | FInt16 (z : Z)
  | FInt32 (z : Z)
  | FInt64 (z : Z)
  | FUint16 (z : Z)
  | FUint32 (z : Z)
  | FUint64 (z : Z)
  | FFloat (bits : Z)
  | FDouble (bits : Z)
  | FString (s : string)
  | FStringView (s : string)
  | FBytes (l : list ascii)
  | FSpan (l : list ascii).

#[export] Instance FieldValue_eq_dec : EqDecision FieldValue.
Proof. solve_decision. Defined.

Definition field_value_ok (v : FieldValue) : bool :=
  match v with
  | FInt16 z => in_signed 16 z
  | FInt32 z => in_signed 32 z
  | FInt64 z => in_signed 64 z
  | FUint16 z => in_unsigned 16 z
  | FUint32 z => in_unsigned 32 z
  | FUint64 z => in_unsigned 64 z
  | FFloat b => in_unsigned 32 b
  | FDouble b => in_unsigned 64 b
  | _ => true
  end.

(** ** Columns and tables *)

Record Column := mkColumn { col_name : string; col_table : string; col_alias : string }.

Definition col (name : string) : Column := mkColumn name "" "".
Definition col_of (name table : string) : Column := mkColumn name table "".

(** [Column::as]: a copy with the alias set. *)
Definition col_as (c : Column) (alias : string) : Column :=
  mkColumn (col_name c) (col_table c) alias.

(** [IsColumnLike]: a column, or all columns of a table ([""] for none). *)
Inductive ColumnLike : Type :=
  | CCol (c : Column)
  | CAll (table : string).

Record DynamicFieldSchema := mkField {
  f_name : string;
  f_db_type : string;
  f_is_nullable : bool;
  f_is_primary_key : bool;
  f_is_foreign_key : bool;
  f_is_unique : bool;
  f_is_indexed : bool;
  f_foreign_table : string;
  f_foreign_column : string;
  f_default_value : string;
  f_max_length : N;
  f_db_attributes : list (string * string);
}.

Inductive Providers : Type := NoProvider | PostgreSQL.

#[export] Instance Providers_eq_dec : EqDecision Providers.
Proof. solve_decision. Defined.

(** [DynamicTable]: the fields in order, and the index from names to positions. *)
Record DynamicTable := mkTable {
  table_name : string;
  fields : list DynamicFieldSchema;
  field_index : gmap string nat;
  table_provider : Providers;
}.

(** A field of a [StaticTable]: the compile-time schema as the visitor reads it
    ([sql_type] is [sql_type_for<Schema::value_type, DialectT::type()>()]). *)
Record StaticField := mkStaticField {
  sf_name : string;
  sf_sql_type : string;
  sf_is_nullable : bool;
  sf_is_primary_key : bool;
  sf_is_unique : bool;
}.

(** [IsTable]: a (possibly null) [DynamicTablePtr], a name, a static table. *)
Inductive Table : Type :=
  | TDynamic (t : option DynamicTable)
  | TName (name : string)
  | TStatic (name : string) (fields : list StaticField).

(** ** Operators *)

Inductive BinaryOp : Type :=
  | OpEqual | OpNotEqual | OpLess | OpLessEqual | OpGreater | OpGreaterEqual
  | OpAnd | OpOr | OpLike | OpNotLike | OpIn.

Inductive UnaryOp : Type := OpNot | OpIsNull | OpIsNotNull.

(** [Op::is_postfix] *)
Definition is_postfix (op : UnaryOp) : bool :=
  match op with OpNot => false | OpIsNull | OpIsNotNull => true end.

Inductive JoinType : Type := INNER | LEFT | RIGHT | FULL | CROSS.
Inductive SetOperation : Type := UNION | UNION_ALL | INTERSECT | EXCEPT.
Inductive OrderDirection : Type := ASC | DESC.
Inductive AggregateFn : Type := AggSum | AggAvg | AggMax | AggMin.

(** ** Expressions *)

#[local] Set Warnings "-register-all".

Inductive Expr : Type :=
  | EColumn (c : Column)
  | EAllColumns (table : string)
  | ELiteral (value : FieldValue) (alias : string)
  | ENull
  | EParam
  | EBinary (op : BinaryOp) (left right : Expr)
  | EUnary (op : UnaryOp) (operand : Expr)
  | EBetween (operand lower upper : Expr)
  | EInList (operand : Expr) (values : list Expr)
  | ESubquery (query : Expr) (alias : string)
  | EExists (query : Expr)
  | ECount (column : ColumnLike) (distinct : bool) (alias : string)
  | EAggregate (fn : AggregateFn) (column : ColumnLike) (alias : string)
  | EOrder (column : ColumnLike) (dir : OrderDirection)
  | ESelect (distinct : bool) (columns : list Expr)
  | EFromTable (select : Expr) (table : Table) (alias : string)
  | EFromCte (select : Expr) (cte_name : string) (cte_query : Expr) (recursive : bool)
  | EWhere (query condition : Expr)
  | EGroupByColumns (query : Expr) (columns : list Expr)
  | EGroupByQuery (query criteria : Expr)
  | EHaving (query condition : Expr)
  | EOrderBy (query : Expr) (orders : list Expr)
  | ELimit (query : Expr) (count offset : N)
  | EJoin (query : Expr) (on_condition : Expr) (table : Table) (type : JoinType) (alias : string)
  | EInsert (table : Table) (columns : list string) (rows : list (list FieldValue))
  | EUpdate (table : Table) (assignments : list (string * FieldValue))
  | EUpdateWhere (update condition : Expr)
  | EDelete (table : Table)
  | EDeleteWhere (del condition : Expr)
  | ESetOp (left right : Expr) (op : SetOperation)
  | ECase (when_clauses : list (Expr * Expr)) (alias : string)
  | ECaseElse (when_clauses : list (Expr * Expr)) (else_clause : Expr) (alias : string)
  | ECte (name : string) (query : Expr) (recursive : bool)
  | ECreateTable (table : Table) (if_not_exists : bool)
  | EDropTable (table : Table) (if_exists cascade : bool).

(** The induction principle that reaches into the lists of sub-expressions. *)
Section ExprInd.
Variable P : Expr → Prop.
Definition Pboth (p : Expr * Expr) : Prop := P (fst p) ∧ P (snd p).

Hypothesis Hleaf : ∀ e,
  match e with
  | EColumn _ | EAllColumns _ | ELiteral _ _ | ENull | EParam | ECount _ _ _
  | EAggregate _ _ _ | EOrder _ _ | EInsert _ _ _ | EUpdate _ _ | EDelete _
  | ECreateTable _ _ | EDropTable _ _ _ => True
  | _ => False
  end → P e.
Hypothesis Hbinary : ∀ op l r, P l → P r → P (EBinary op l r).
Hypothesis Hunary : ∀ op o, P o → P (EUnary op o).
Hypothesis Hbetween : ∀ o l u, P o → P l → P u → P (EBetween o l u).
Hypothesis Hinlist : ∀ o vs, P o → Forall P vs → P (EInList o vs).
Hypothesis Hsubquery : ∀ q a, P q → P (ESubquery q a).
Hypothesis Hexists : ∀ q, P q → P (EExists q).
Hypothesis Hselect : ∀ d cs, Forall P cs → P (ESelect d cs).
Hypothesis Hfromtable : ∀ s t a, P s → P (EFromTable s t a).
Hypothesis Hfromcte : ∀ s n q r, P s → P q → P (EFromCte s n q r).
Hypothesis Hwhere : ∀ q c, P q → P c → P (EWhere q c).
Hypothesis Hgroupcols : ∀ q cs, P q → Forall P cs → P (EGroupByColumns q cs).
Hypothesis Hgroupquery : ∀ q c, P q → P c → P (EGroupByQuery q c).
Hypothesis Hhaving : ∀ q c, P q → P c → P (EHaving q c).
Hypothesis Horderby : ∀ q os, P q → Forall P os → P (EOrderBy q os).
Hypothesis Hlimit : ∀ q n o, P q → P (ELimit q n o).
Hypothesis Hjoin : ∀ q c t ty a, P q → P c → P (EJoin q c t ty a).
Hypothesis Hupdatewhere : ∀ u c, P u → P c → P (EUpdateWhere u c).
Hypothesis Hdeletewhere : ∀ d c, P d → P c → P (EDeleteWhere d c).
Hypothesis Hsetop : ∀ l r op, P l → P r → P (ESetOp l r op).
Hypothesis Hcase : ∀ ws a, Forall Pboth ws → P (ECase ws a).
Hypothesis Hcaseelse : ∀ ws e a, Forall Pboth ws → P e → P (ECaseElse ws e a).
Hypothesis Hcte : ∀ n q r, P q → P (ECte n q r).

Fixpoint Expr_ind' (e : Expr) : P e.
Proof.
  pose (all := fix all (l : list Expr) : Forall P l :=
    match l with
    | [] => List.Forall_nil _
    | x :: l' => @List.Forall_cons _ _ x l' (Expr_ind' x) (all l')
    end).
  pose (both := fix both (l : list (Expr * Expr)) : Forall Pboth l :=
    match l with
    | [] => List.Forall_nil _
    | x :: l' => @List.Forall_cons _ _ x l' (conj (Expr_ind' (fst x)) (Expr_ind' (snd x))) (both l')
    end).
  destruct e; try (apply Hleaf; exact I);
    [apply Hbinary|apply Hunary|apply Hbetween|apply Hinlist|apply Hsubquery|apply Hexists
    |apply Hselect|apply Hfromtable|apply Hfromcte|apply Hwhere|apply Hgroupcols
    |apply Hgroupquery|apply Hhaving|apply Horderby|apply Hlimit|apply Hjoin
    |apply Hupdatewhere|apply Hdeletewhere|apply Hsetop|apply Hcase|apply Hcaseelse|apply Hcte];
    first [apply all|apply both|apply Expr_ind'].
Defined.
End ExprInd.

(** [P] holds of every node of an expression. *)
Section AllNodes.
Variable P : Expr → bool.

Fixpoint all_nodes (e : Expr) : bool :=
  P e &&
  match e with
  | EBinary _ l r | ESetOp l r _ => all_nodes l && all_nodes r
  | EUnary _ o => all_nodes o
  | EBetween o l u => all_nodes o && (all_nodes l && all_nodes u)
  | EInList o vs => all_nodes o && forallb all_nodes vs
  | ESubquery q _ | EExists q | EFromTable q _ _ | ELimit q _ _ | ECte _ q _ => all_nodes q
  | ESelect _ cs => forallb all_nodes cs
  | EFromCte s _ q _ => all_nodes q && all_nodes s
  | EWhere q c | EGroupByQuery q c | EHaving q c | EJoin q c _ _ _
  | EUpdateWhere q c | EDeleteWhere q c => all_nodes q && all_nodes c
  | EGroupByColumns q cs | EOrderBy q cs => all_nodes q && forallb all_nodes cs
  | ECase ws _ => forallb (λ w, all_nodes (fst w) && all_nodes (snd w)) ws
  | ECaseElse ws e' _ => forallb (λ w, all_nodes (fst w) && all_nodes (snd w)) ws && all_nodes e'
  | EColumn _ | EAllColumns _ | ELiteral _ _ | ENull | EParam | ECount _ _ _ | EAggregate _ _ _
  | EOrder _ _ | EInsert _ _ _ | EUpdate _ _ | EDelete _ | ECreateTable _ _ | EDropTable _ _ _ => true
  end.
End AllNodes.
