(* ===== verification/Dialect.v ===== *)
(** * The dialect and parameter-sink interfaces

    [IsSqlDialect] ([base/dialect/dialect_concepts.hpp]) is the concept the SQL
    generator is written against, [ParamSink] ([base/params/sql_params.hpp]) the
    abstract class through which it hands out bound parameters.  Both are type
    classes here; the law classes state what the generator relies on, and the
    PostgreSQL files discharge them. *)

From S2P Require Import Prelude Gears QueryAst.

(** [size_t]: a natural number read modulo 2^64. *)
Definition size_t (n : N) : N := (n mod 2 ^ 64)%N.

Lemma size_t_lt n : (size_t n < 2 ^ 64)%N.
Proof. apply N.mod_lt. done. Qed.

Lemma size_t_small n : (n < 2 ^ 64)%N → size_t n = n.
Proof. apply N.mod_small. Qed.

#[export] Hint Resolve size_t_lt : appends.

(** ** Dialects *)

(** Every operation appends to a string of any [Appendable] type. *)
Class SqlDialect := {
  quote_identifier : ∀ {Str} `{Appendable Str}, Str → string → result Str;
  placeholder : ∀ {Str} `{Appendable Str}, Str → N → result Str;
  limit_clause : ∀ {Str} `{Appendable Str}, Str → N → N → result Str;
  format_value : ∀ {Str} `{Appendable Str}, Str → FieldValue → result Str;
  dialect_type : Providers;
}.

(** What the generator relies on: each operation appends a text that depends on
    its arguments only. *)
Class SqlDialectText (D : SqlDialect) := {
  quote_text : string → string;
  placeholder_text : N → string;
  limit_text : N → N → string;
  value_text : FieldValue → string;
  quote_identifier_appends : ∀ Str `{AppendableLaws Str} name,
    appends (λ s : Str, quote_identifier s name) (quote_text name);
  placeholder_appends : ∀ Str `{AppendableLaws Str} index, (index < 2 ^ 64)%N →
    appends (λ s : Str, placeholder s index) (placeholder_text index);
  limit_clause_appends : ∀ Str `{AppendableLaws Str} limit offset,
    (limit < 2 ^ 64)%N → (offset < 2 ^ 64)%N →
    appends (λ s : Str, limit_clause s limit offset) (limit_text limit offset);
  format_value_appends : ∀ Str `{AppendableLaws Str} v,
    appends (λ s : Str, format_value s v) (value_text v);
}.

#[export] Hint Resolve quote_identifier_appends placeholder_appends limit_clause_appends
  format_value_appends : appends.

(** ** Parameter sinks *)

(** [push] binds a value and returns its 1-based index. *)
Class ParamSink (Sink : Type) := {
  push : Sink → FieldValue → Sink * N;
}.

(** What a sink promises: it keeps the values in the order in which they were
    pushed, each in the form [bind_of] the backend gives it, and the index is
    the position. *)
Class ParamSinkLaws (Sink : Type) `{ParamSink Sink} (Bound : Type) := {
  bound : Sink → list Bound;
  bind_of : FieldValue → Bound;
  sink_ok : Sink → Prop;
  push_ok : ∀ k v, sink_ok k → sink_ok (fst (push k v));
  push_bound : ∀ k v, sink_ok k → bound (fst (push k v)) = bound k ++ [bind_of v];
  push_index : ∀ k v, sink_ok k → snd (push k v) = size_t (N.of_nat (S (length (bound k))));
}.

(** What the SQL text needs of a sink: the index is a [size_t]. *)
Class ParamSinkBounded (Sink : Type) `{ParamSink Sink} :=
  push_lt : ∀ k v, (snd (push k v) < 2 ^ 64)%N.

(** Code that is compiled without a sink ([sink_ == nullptr]) uses this one. *)
#[export] Instance no_sink : ParamSink unit := {| push k _ := (k, 0%N) |}.
#[export] Instance no_sink_bounded : ParamSinkBounded unit.
Proof. done. Qed.
