(* ===== verification/PostgresDialect.v ===== *)
(** * The PostgreSQL dialect

    [PostgresDialect] of [providers/postgresql/dialect]: identifier quoting,
    placeholders, LIMIT/OFFSET and the formatting of literal values, with the
    character-level escaping loops as the code has them.  The theorems relate
    the emitted text to the reading rules of SQL literals: what is read back is
    what was written, and a literal never ends before its closing quote. *)

From S2P Require Import Prelude Gears QueryAst Dialect.

Local Open Scope demi_scope.

Definition dquote : ascii := "034"%char.
Definition squote : ascii := "'"%char.
Definition backslash : ascii := "\"%char.

(** [std::to_chars] on an integer. *)
Definition to_chars_int (z : Z) : string :=
  if (z <? 0)%Z then String "-" (ToString.numeral (Z.to_N (- z)))
  else ToString.numeral (Z.to_N z).

Module Postgres.
Section Dialect.
(** The text of a [float] (32) or [double] (64) bit pattern: at run time
    [std::to_chars], the shortest decimal that reads back to the same number; in
    constant evaluation [chars] of FloatText. *)
Context (float_chars : Z → Z → string).

Section Emit.
Context {Str : Type} `{Appendable Str}.

Definition escape_char (out : Str) (c : ascii) : result Str :=
  if decide (c = squote) then append_sv out (String squote (String squote ""))
  else if decide (c = backslash) then append_sv out (String backslash (String backslash ""))
  else append_ch out c.

Fixpoint escape_string (out : Str) (str : string) : result Str :=
  match str with
  | EmptyString => Ok out
  | String c str' => let! out' := escape_char out c in escape_string out' str'
  end.

Fixpoint escape_identifier (out : Str) (name : string) : result Str :=
  match name with
  | EmptyString => Ok out
  | String c name' =>
      let! out' :=
        (if decide (c = dquote) then append_sv out (String dquote (String dquote ""))
         else append_ch out c) in
      escape_identifier out' name'
  end.
End Emit.

(** [hex_chars[i]] *)
Definition hex_char (i : N) : ascii :=
  default "?"%char (String.get (N.to_nat i) "0123456789abcdef").

Fixpoint hex_digits (data : list ascii) : string :=
  match data with
  | [] => ""
  | b :: data' =>
      String (hex_char (N.shiftr (N_of_ascii b) 4))
        (String (hex_char (N.land (N_of_ascii b) 15)) (hex_digits data'))
  end.

Definition format_binary_data (data : list ascii) : string :=
  String squote (String backslash (String "x" (hex_digits data +:+ String squote ""))).

Section Format.
Context {Str : Type} `{Appendable Str}.

Definition format_null (query : Str) : result Str := append_sv query "NULL".

Definition format_bool (query : Str) (val : bool) : result Str :=
  append_sv query (if val then "TRUE" else "FALSE").

Definition format_char (query : Str) (val : ascii) : result Str :=
  let! q := append_sv query (String squote "") in
  let! q := escape_char q val in
  append_sv q (String squote "").

Definition format_floating (width : Z) (query : Str) (bits : Z) : result Str :=
  append_sv query (float_chars width bits).

Definition format_integral (query : Str) (val : Z) : result Str :=
  append_sv query (to_chars_int val).

Definition format_string_value (query : Str) (val : string) : result Str :=
  let! q := append_sv query (String squote "") in
  let! q := escape_string q val in
  append_sv q (String squote "").

Definition format_binary (query : Str) (val : list ascii) : result Str :=
  append_sv query (format_binary_data val).

Definition format_value_impl (query : Str) (value : FieldValue) : result Str :=
  match value with
  | FNull => format_null query
  | FBool val => format_bool query val
  | FChar val => format_char query val
  | FFloat val => format_floating 32 query val
  | FDouble val => format_floating 64 query val
  | FInt16 val | FInt32 val | FInt64 val
  | FUint16 val | FUint32 val | FUint64 val => format_integral query val
  | FString val | FStringView val => format_string_value query val
  | FBytes val | FSpan val => format_binary query val
  end.

Definition quote_identifier_impl (query : Str) (name : string) : result Str :=
  let! q := append_ch query dquote in
  let! q := escape_identifier q name in
  append_ch q dquote.

Definition placeholder_impl (query : Str) (index : N) : result Str :=
  let! q := append_ch query "$"%char in
  let! digits := ToString.constexpr_to_string index in
  append_sv q digits.

Definition limit_clause_impl (query : Str) (limit offset : N) : result Str :=
  let! q := append_sv query " LIMIT " in
  let! digits := ToString.constexpr_to_string limit in
  let! q := append_sv q digits in
  if (0 <? offset)%N then
    let! q := append_sv q " OFFSET " in
    let! digits := ToString.constexpr_to_string offset in
    append_sv q digits
  else Ok q.
End Format.

#[local] Instance dialect : SqlDialect := {|
  quote_identifier Str _ := @quote_identifier_impl Str _;
  placeholder Str _ := @placeholder_impl Str _;
  limit_clause Str _ := @limit_clause_impl Str _;
  format_value Str _ := @format_value_impl Str _;
  dialect_type := PostgreSQL;
|}.

(** *** The emitted texts *)

Definition esc_char (c : ascii) : string :=
  if decide (c = squote) then String squote (String squote "")
  else if decide (c = backslash) then String backslash (String backslash "")
  else String c "".

Fixpoint esc_string (s : string) : string :=
  match s with EmptyString => "" | String c s' => esc_char c +:+ esc_string s' end.

Fixpoint esc_ident (s : string) : string :=
  match s with
  | EmptyString => ""
  | String c s' =>
      (if decide (c = dquote) then String dquote (String dquote "") else String c "")
      +:+ esc_ident s'
  end.

Definition value_literal (v : FieldValue) : string :=
  match v with
  | FNull => "NULL"
  | FBool b => if b then "TRUE" else "FALSE"
  | FChar c => String squote (esc_char c +:+ String squote "")
  | FFloat b => float_chars 32 b
  | FDouble b => float_chars 64 b
  | FInt16 z | FInt32 z | FInt64 z | FUint16 z | FUint32 z | FUint64 z => to_chars_int z
  | FString s | FStringView s => String squote (esc_string s +:+ String squote "")
  | FBytes l | FSpan l => format_binary_data l
  end.

Definition ident_literal (name : string) : string :=
  String dquote (esc_ident name +:+ String dquote "").

Definition limit_literal (limit offset : N) : string :=
  " LIMIT " +:+ ToString.numeral limit +:+
  (if (0 <? offset)%N then " OFFSET " +:+ ToString.numeral offset else "").

Section Texts.
Context {Str : Type} `{AppendableLaws Str}.

Lemma escape_char_appends c : appends (λ s : Str, escape_char s c) (esc_char c).
Proof. unfold escape_char, esc_char. repeat case_decide; auto with appends. Qed.

Lemma escape_string_appends x : appends (λ s : Str, escape_string s x) (esc_string x).
Proof.
  induction x as [|c x IH]; [apply appends_nil|].
  exact (appends_bind _ _ _ _ (escape_char_appends c) IH).
Qed.

Lemma escape_identifier_appends x :
  appends (λ s : Str, escape_identifier s x) (esc_ident x).
Proof.
  induction x as [|c x IH]; [apply appends_nil|].
  refine (appends_bind _ _ _ _ _ IH). case_decide; auto with appends.
Qed.

Hint Resolve escape_char_appends escape_string_appends escape_identifier_appends : appends.

Lemma constexpr_appends n : (n < 2 ^ 64)%N →
  appends (λ s : Str, let! digits := ToString.constexpr_to_string n in append_sv s digits)
          (ToString.numeral n).
Proof. intros Hn. rewrite ToString.constexpr_to_string_numeral by done. exact (appends_sv _). Qed.

Lemma quoted_appends q f x :
  appends f x →
  appends (λ s : Str, let! s1 := append_sv s (String q "") in
                      let! s2 := f s1 in append_sv s2 (String q ""))
          (String q (x +:+ String q "")).
Proof.
  intros Hf. exact (appends_bind _ _ (String q "") _ (appends_sv _)
                      (appends_bind _ _ _ _ Hf (appends_sv _))).
Qed.

Lemma format_value_impl_appends v :
  appends (λ s : Str, format_value_impl s v) (value_literal v).
Proof.
  destruct v; unfold format_value_impl, value_literal; first
    [ apply quoted_appends; auto with appends
    | unfold format_null, format_bool, format_floating, format_integral, format_binary;
      auto with appends ].
Qed.

Lemma quote_identifier_impl_appends name :
  appends (λ s : Str, quote_identifier_impl s name) (ident_literal name).
Proof.
  exact (appends_bind _ _ (String dquote "") _ (appends_ch _)
           (appends_bind _ _ _ _ (escape_identifier_appends name) (appends_ch _))).
Qed.

Lemma placeholder_impl_appends n : (n < 2 ^ 64)%N →
  appends (λ s : Str, placeholder_impl s n) (String "$" (ToString.numeral n)).
Proof.
  intros Hn. exact (appends_bind _ _ (String "$" "") _ (appends_ch _) (constexpr_appends n Hn)).
Qed.

Lemma limit_clause_impl_appends l o : (l < 2 ^ 64)%N → (o < 2 ^ 64)%N →
  appends (λ s : Str, limit_clause_impl s l o) (limit_literal l o).
Proof.
  intros Hl Ho.
  unfold limit_clause_impl, limit_literal.
  rewrite !ToString.constexpr_to_string_numeral by done. cbn [rbind].
  refine (appends_bind _ _ _ _ (appends_sv _) (appends_bind _ _ _ _ (appends_sv _) _)).
  destruct (0 <? o)%N; [|apply appends_nil].
  exact (appends_bind _ _ _ _ (appends_sv _) (appends_sv _)).
Qed.
End Texts.

#[local] Instance dialect_text : SqlDialectText dialect := {|
  quote_text := ident_literal;
  placeholder_text n := String "$" (ToString.numeral n);
  limit_text := limit_literal;
  value_text := value_literal;
  quote_identifier_appends Str _ _ := @quote_identifier_impl_appends Str _ _;
  placeholder_appends Str _ _ := @placeholder_impl_appends Str _ _;
  limit_clause_appends Str _ _ := @limit_clause_impl_appends Str _ _;
  format_value_appends Str _ _ := @format_value_impl_appends Str _ _;
|}.
End Dialect.

(** ** Reading literals back *)

(** The content of a delimited literal: read up to the closing [q], a doubled
    [q] standing for one.  With [esc] set a backslash makes the next character
    literal ([standard_conforming_strings = off]).  Returns the value and what
    follows the literal; [None] if the literal is not closed. *)
Fixpoint read_delimited (q : ascii) (esc : bool) (s : string) : option (string * string) :=
  match s with
  | EmptyString => None
  | String c s' =>
      if decide (c = q) then
        match s' with
        | String c' s'' =>
            if decide (c' = q) then prod_map (String q) id <$> read_delimited q esc s''
            else Some (EmptyString, s')
        | EmptyString => Some (EmptyString, s')
        end
      else if decide (esc = true ∧ c = backslash) then
        match s' with
        | String c' s'' => prod_map (String c') id <$> read_delimited q esc s''
        | EmptyString => None
        end
      else prod_map (String c) id <$> read_delimited q esc s'
  end.

Definition read_identifier (s : string) : option (string * string) :=
  match s with
  | String c s' => if decide (c = dquote) then read_delimited dquote false s' else None
  | EmptyString => None
  end.

Definition read_string (esc : bool) (s : string) : option (string * string) :=
  match s with
  | String c s' => if decide (c = squote) then read_delimited squote esc s' else None
  | EmptyString => None
  end.

(** [rest] does not start with the delimiter, so it does not extend the literal. *)
Definition not_starting (q : ascii) (rest : string) : bool :=
  match rest with String c _ => bool_decide (c ≠ q) | EmptyString => true end.

Lemma read_delimited_close q esc rest :
  not_starting q rest = true → read_delimited q esc (String q rest) = Some ("", rest).
Proof.
  intros Hr. simpl. rewrite decide_True by done.
  destruct rest as [|c rest]; [done|]. simpl in Hr. bool_to_prop.
  by rewrite decide_False.
Qed.

Lemma read_escaped_ident name rest :
  not_starting dquote rest = true →
  read_delimited dquote false (esc_ident name +:+ String dquote rest) = Some (name, rest).
Proof.
  intros Hr. induction name as [|c name IH]; [by apply read_delimited_close|].
  cbn [esc_ident]. destruct (decide (c = dquote)) as [->|Hc]; cbn [String.append read_delimited].
  - by rewrite !decide_True, IH.
  - rewrite decide_False, decide_False, IH by intuition congruence. done.
Qed.

Lemma hex_char_plain b :
  let h := hex_char (N.shiftr (N_of_ascii b) 4) in
  let l := hex_char (N.land (N_of_ascii b) 15) in
  h ≠ squote ∧ h ≠ backslash ∧ l ≠ squote ∧ l ≠ backslash.
Proof. destruct b as [[] [] [] [] [] [] [] []]; vm_compute; split_and!; discriminate. Qed.

(** Every backslash of [s] doubled. *)
Fixpoint double_backslashes (s : string) : string :=
  match s with
  | EmptyString => ""
  | String c s' =>
      if decide (c = backslash) then String backslash (String backslash (double_backslashes s'))
      else String c (double_backslashes s')
  end.

Lemma read_escaped_string esc s rest :
  not_starting squote rest = true →
  read_delimited squote esc (esc_string s +:+ String squote rest)
  = Some (if esc then s else double_backslashes s, rest).
Proof.
  intros Hr. induction s as [|c s IH].
  { destruct esc; by apply read_delimited_close. }
  cbn [esc_string double_backslashes]. unfold esc_char.
  destruct (decide (c = squote)) as [->|Hq]; [|destruct (decide (c = backslash)) as [->|Hb]];
    cbn [String.append read_delimited].
  - rewrite !decide_True, IH by done. destruct esc; [done|]. by rewrite decide_False.
  - rewrite decide_False by done. destruct esc.
    + rewrite decide_True, IH by done. done.
    + rewrite decide_False by intuition congruence. cbn [read_delimited].
      rewrite decide_False, decide_False, IH by intuition congruence. done.
  - rewrite decide_False, decide_False, IH by intuition congruence.
    by destruct esc.
Qed.

Lemma string_emits (f : string → result string) x : appends f x → f "" = Ok x.
Proof. intros Hf. destruct (Hf "" I) as (s' & -> & _ & Hv & _). simpl in Hv. by subst. Qed.

(** A quoted identifier reads back as the name it was made from, whatever
    characters the name holds, and ends exactly where the quoting ended. *)
Theorem quoted_identifier_reads_back (name rest : string) :
  not_starting dquote rest = true →
  ∃ q, quote_identifier_impl "" name = Ok q ∧ read_identifier (q +:+ rest) = Some (name, rest).
Proof.
  intros Hr. exists (ident_literal name).
  split; [apply (string_emits _ _ (quote_identifier_impl_appends (Str := string) name))|].
  cbn [read_identifier ident_literal String.append]. rewrite decide_True by done.
  rewrite string_app_assoc. by apply read_escaped_ident.
Qed.

Lemma quoted_identifier_reads_back_witness :
  ∃ q, quote_identifier_impl "" (String dquote "; DROP TABLE users") = Ok q ∧
       read_identifier (q +:+ " = 1") = Some (String dquote "; DROP TABLE users", " = 1").
Proof. apply (quoted_identifier_reads_back _ " = 1"). reflexivity. Defined.

(** A string literal never ends before its closing quote.  With
    [standard_conforming_strings] off it reads back as the string; with it on
    (the server's default) every backslash of the string arrives doubled. *)
Theorem string_literal_reads_back (float_chars : Z → Z → string) (esc : bool) (s rest : string) :
  not_starting squote rest = true →
  ∃ q, format_value_impl float_chars "" (FString s) = Ok q ∧
       read_string esc (q +:+ rest) = Some (if esc then s else double_backslashes s, rest).
Proof.
  intros Hr. exists (value_literal float_chars (FString s)).
  split; [apply (string_emits _ _ (format_value_impl_appends float_chars (Str := string) (FString s)))|].
  cbn [read_string value_literal String.append]. rewrite decide_True by done.
  rewrite string_app_assoc. by apply read_escaped_string.
Qed.

Lemma string_literal_reads_back_witness :
  ∃ q, format_value_impl (λ _ b, to_chars_int b) "" (FString "C:\dir's") = Ok q ∧
       read_string false (q +:+ ")") = Some ("C:\\dir's", ")").
Proof. apply (string_literal_reads_back (λ _ b, to_chars_int b) false "C:\dir's" ")"). reflexivity. Defined.
End Postgres.
