(* ===== verification/PostgresParams.v ===== *)
(** * PostgreSQL bound parameters

    [Params] and [ParamSink] of [providers/postgresql/params]: the four parallel
    arrays handed to libpq and the two deques that own the bytes their pointers
    point into, with one [bind_one] overload per alternative of [FieldValue].
    The sink discharges the [ParamSinkLaws] the query compiler relies on. *)

From S2P Require Import Prelude Gears Bytes QueryAst Dialect.

(** ** Registries *)

Module FormatRegistry.
Definition text : Z := 0.
Definition binary : Z := 1.
End FormatRegistry.

Module OidTypeRegistry.
Definition oid_int2 : Z := 21.
Definition oid_int4 : Z := 23.
Definition oid_int8 : Z := 20.
Definition oid_float4 : Z := 700.
Definition oid_float8 : Z := 701.
Definition oid_numeric : Z := 1700.
Definition oid_char : Z := 18.
Definition oid_text : Z := 25.
Definition oid_bytea : Z := 17.
Definition oid_bool : Z := 16.
End OidTypeRegistry.

(** ** Params *)

(** A [const char*] of [values]: null, the characters of an element of
    [str_data], or the bytes of an element of [binary_chunks].  Both deques
    only grow at the back, so an element keeps its index and its address. *)
Inductive ptr : Type :=
  | nullptr
  | str_ptr (i : nat)
  | bin_ptr (i : nat).

Record Params := mkParams {
  values : list ptr;
  lengths : list Z;
  formats : list Z;
  oids : list Z;
  str_data : list string;
  binary_chunks : list (list ascii);
}.

(** [ParamSink(mr)]: all six containers empty. *)
Definition empty_params : Params := mkParams [] [] [] [] [] [].

(** What libpq is given for one parameter. *)
Record Bound := mkBound {
  b_memory : option (list ascii);
  b_length : Z;
  b_format : Z;
  b_oid : Z;
}.

Section ParamSink.
Variable native_big : bool.
(** [data()] of an empty [std::vector] may or may not be null. *)
Variable empty_data_is_null : bool.

(** The memory a pointer leads to ([c_str()] without its terminator). *)
Definition deref (p : Params) (x : ptr) : option (list ascii) :=
  match x with
  | nullptr => None
  | str_ptr i => list_ascii_of_string <$> str_data p !! i
  | bin_ptr i => binary_chunks p !! i
  end.

(** The four [push_back]s every overload ends with. *)
Definition push_row (p : Params) (value : ptr) (len fmt oid : Z) : Params :=
  mkParams (values p ++ [value]) (lengths p ++ [len]) (formats p ++ [fmt]) (oids p ++ [oid])
           (str_data p) (binary_chunks p).

(** [binary_chunks.emplace_back(...)] filled with [bytes], and the pointer to it. *)
Definition add_chunk (p : Params) (bytes : list ascii) : Params * ptr :=
  (mkParams (values p) (lengths p) (formats p) (oids p) (str_data p) (binary_chunks p ++ [bytes]),
   match bytes with
   | [] => if empty_data_is_null then nullptr else bin_ptr (length (binary_chunks p))
   | _ => bin_ptr (length (binary_chunks p))
   end).

(** [str_data.emplace_back(...)] and [str_data.back().c_str()]. *)
Definition add_string (p : Params) (s : string) : Params * ptr :=
  (mkParams (values p) (lengths p) (formats p) (oids p) (str_data p ++ [s]) (binary_chunks p),
   str_ptr (length (str_data p))).

(** [static_cast<int>(size)] *)
Definition int_of_size (n : nat) : Z := to_signed 32 (Z.of_nat n).

Definition bind_null (p : Params) : Params := push_row p nullptr 0 0 0.

Definition bind_chunk (p : Params) (bytes : list ascii) (len oid : Z) : Params :=
  let (p', x) := add_chunk p bytes in push_row p' x len FormatRegistry.binary oid.

Definition bind_bool (p : Params) (b : bool) : Params :=
  bind_chunk p [if b then byte_of 1 else byte_of 0] 1 OidTypeRegistry.oid_bool.

Definition bind_char (p : Params) (c : ascii) : Params :=
  bind_chunk p [c] 1 OidTypeRegistry.oid_char.

Definition bind_int16 (p : Params) (i : Z) : Params :=
  let net := hton native_big 2 (to_unsigned 16 i) in
  bind_chunk p (memcpy_out native_big 2 net) 2 OidTypeRegistry.oid_int2.

Definition bind_int32 (p : Params) (i : Z) : Params :=
  let net := hton native_big 4 (to_unsigned 32 i) in
  bind_chunk p (memcpy_out native_big 4 net) 4 OidTypeRegistry.oid_int4.

Definition bind_int64 (p : Params) (i : Z) : Params :=
  let net := hton native_big 8 (to_unsigned 64 i) in
  bind_chunk p (memcpy_out native_big 8 net) 8 OidTypeRegistry.oid_int8.

(** Promoted to [int4]. *)
Definition bind_uint16 (p : Params) (i : Z) : Params :=
  let net := hton native_big 4 i in
  bind_chunk p (memcpy_out native_big 4 net) 4 OidTypeRegistry.oid_int4.

(** Promoted to [int8]. *)
Definition bind_uint32 (p : Params) (i : Z) : Params :=
  let net := hton native_big 8 i in
  bind_chunk p (memcpy_out native_big 8 net) 8 OidTypeRegistry.oid_int8.

(** Text, as NUMERIC. *)
Definition bind_text (p : Params) (s : string) (oid : Z) : Params :=
  let (p', x) := add_string p s in
  push_row p' x (int_of_size (String.length s)) FormatRegistry.text oid.

Definition bind_uint64 (p : Params) (i : Z) : Params :=
  bind_text p (ToString.numeral (Z.to_N i)) OidTypeRegistry.oid_numeric.

Definition bind_float (p : Params) (bits : Z) : Params :=
  bind_chunk p (memcpy_out native_big 4 (hton native_big 4 bits)) 4 OidTypeRegistry.oid_float4.

Definition bind_double (p : Params) (bits : Z) : Params :=
  bind_chunk p (memcpy_out native_big 8 (hton native_big 8 bits)) 8 OidTypeRegistry.oid_float8.

Definition bind_string (p : Params) (s : string) : Params := bind_text p s OidTypeRegistry.oid_text.

Definition bind_bytes (p : Params) (bytes : list ascii) : Params :=
  bind_chunk p bytes (int_of_size (length bytes)) OidTypeRegistry.oid_bytea.

(** [std::visit([this](const auto& x) { bind_one(x); }, v)] *)
Definition bind_one (p : Params) (v : FieldValue) : Params :=
  match v with
  | FNull => bind_null p
  | FBool b => bind_bool p b
  | FChar c => bind_char p c
  | FInt16 i => bind_int16 p i
  | FInt32 i => bind_int32 p i
  | FInt64 i => bind_int64 p i
  | FUint16 i => bind_uint16 p i
  | FUint32 i => bind_uint32 p i
  | FUint64 i => bind_uint64 p i
  | FFloat bits => bind_float p bits
  | FDouble bits => bind_double p bits
  | FString s | FStringView s => bind_string p s
  | FBytes bytes | FSpan bytes => bind_bytes p bytes
  end.

(** [push]: 1-based index. *)
Definition push_value (p : Params) (v : FieldValue) : Params * N :=
  let p' := bind_one p v in (p', size_t (N.of_nat (length (values p')))).

(** ** What is bound *)

(** The parameters as libpq sees them: the four arrays read in parallel. *)
Fixpoint rows (p : Params) (vs : list ptr) (ls fs os : list Z) : list Bound :=
  match vs, ls, fs, os with
  | v :: vs', l :: ls', f :: fs', o :: os' => mkBound (deref p v) l f o :: rows p vs' ls' fs' os'
  | _, _, _, _ => []
  end.
Definition bound_params (p : Params) : list Bound := rows p (values p) (lengths p) (formats p) (oids p).

(** The wire form of a value. *)
Definition chunk_memory (bytes : list ascii) : option (list ascii) :=
  match bytes with [] => if empty_data_is_null then None else Some [] | _ => Some bytes end.

Definition wire (v : FieldValue) : Bound :=
  match v with
  | FNull => mkBound None 0 FormatRegistry.text 0
  | FBool b => mkBound (Some [byte_of (if b then 1 else 0)]) 1 FormatRegistry.binary OidTypeRegistry.oid_bool
  | FChar c => mkBound (Some [c]) 1 FormatRegistry.binary OidTypeRegistry.oid_char
  | FInt16 i => mkBound (Some (be_bytes 2 (to_unsigned 16 i))) 2 FormatRegistry.binary OidTypeRegistry.oid_int2
  | FInt32 i => mkBound (Some (be_bytes 4 (to_unsigned 32 i))) 4 FormatRegistry.binary OidTypeRegistry.oid_int4
  | FInt64 i => mkBound (Some (be_bytes 8 (to_unsigned 64 i))) 8 FormatRegistry.binary OidTypeRegistry.oid_int8
  | FUint16 i => mkBound (Some (be_bytes 4 i)) 4 FormatRegistry.binary OidTypeRegistry.oid_int4
  | FUint32 i => mkBound (Some (be_bytes 8 i)) 8 FormatRegistry.binary OidTypeRegistry.oid_int8
  | FUint64 i =>
      let s := ToString.numeral (Z.to_N i) in
      mkBound (Some (list_ascii_of_string s)) (int_of_size (String.length s))
        FormatRegistry.text OidTypeRegistry.oid_numeric
  | FFloat bits => mkBound (Some (be_bytes 4 bits)) 4 FormatRegistry.binary OidTypeRegistry.oid_float4
  | FDouble bits => mkBound (Some (be_bytes 8 bits)) 8 FormatRegistry.binary OidTypeRegistry.oid_float8
  | FString s | FStringView s =>
      mkBound (Some (list_ascii_of_string s)) (int_of_size (String.length s))
        FormatRegistry.text OidTypeRegistry.oid_text
  | FBytes l | FSpan l =>
      mkBound (chunk_memory l) (int_of_size (length l)) FormatRegistry.binary OidTypeRegistry.oid_bytea
  end.

(** ** Invariant: the arrays are parallel and no pointer dangles *)

Definition ptr_ok (p : Params) (x : ptr) : Prop :=
  match x with
  | nullptr => True
  | str_ptr i => i < length (str_data p)
  | bin_ptr i => i < length (binary_chunks p)
  end.

Definition params_ok (p : Params) : Prop :=
  length (lengths p) = length (values p) ∧ length (formats p) = length (values p) ∧
  length (oids p) = length (values p) ∧ Forall (ptr_ok p) (values p).

(** [q] owns everything [p] owned, at the same addresses. *)
Definition extends (p q : Params) : Prop :=
  (∃ ss, str_data q = str_data p ++ ss) ∧ (∃ bs, binary_chunks q = binary_chunks p ++ bs).

Lemma deref_extends p q x : extends p q → ptr_ok p x → deref q x = deref p x.
Proof.
  intros [[ss Hs] [bs Hb]] Hx. destruct x; simpl in *; [done|..].
  - by rewrite Hs, lookup_app_l.
  - by rewrite Hb, lookup_app_l.
Qed.

Lemma ptr_ok_extends p q x : extends p q → ptr_ok p x → ptr_ok q x.
Proof.
  intros [[ss Hs] [bs Hb]] Hx. destruct x; simpl in *; [done|..]; rewrite ?Hs, ?Hb, length_app; lia.
Qed.

Lemma rows_snoc p q vs ls fs os v l f o :
  extends p q → Forall (ptr_ok p) vs →
  length ls = length vs → length fs = length vs → length os = length vs →
  rows q (vs ++ [v]) (ls ++ [l]) (fs ++ [f]) (os ++ [o]) =
  rows p vs ls fs os ++ [mkBound (deref q v) l f o].
Proof.
  intros Hpq Hvs. revert ls fs os.
  induction Hvs as [|w vs Hw Hvs IH]; intros [|l' ls] [|f' fs] [|o' os] Hl Hf Ho; simpl in *; try done.
  rewrite IH by lia. by rewrite (deref_extends p q).
Qed.

(** One more row: the invariant and what is bound. *)
Lemma push_row_bound p q x l f o :
  params_ok p → extends p q → ptr_ok q x →
  values q = values p → lengths q = lengths p → formats q = formats p → oids q = oids p →
  params_ok (push_row q x l f o) ∧
  bound_params (push_row q x l f o) = bound_params p ++ [mkBound (deref q x) l f o].
Proof.
  intros (Hl & Hf & Ho & Hp) Hpq Hx Ev El Ef Eo. unfold bound_params, params_ok. simpl.
  rewrite Ev, El, Ef, Eo, !length_app, Hl, Hf, Ho. split.
  - split_and!; [done..|]. apply Forall_app. split; [|by constructor].
    eapply List.Forall_impl; [|exact Hp]. intros y Hy. apply (ptr_ok_extends p); [done|done].
  - rewrite (rows_snoc p) by done. done.
Qed.

Lemma bind_chunk_bound p bytes len oid :
  params_ok p →
  params_ok (bind_chunk p bytes len oid) ∧
  bound_params (bind_chunk p bytes len oid) =
    bound_params p ++ [mkBound (chunk_memory bytes) len FormatRegistry.binary oid].
Proof.
  intros Hp. unfold bind_chunk, add_chunk.
  set (q := mkParams _ _ _ _ _ (binary_chunks p ++ [bytes])).
  set (x := match bytes with [] => _ | _ => _ end).
  assert (deref q x = chunk_memory bytes) as <-.
  { unfold x, chunk_memory. destruct bytes; [destruct empty_data_is_null|]; simpl; try done;
      by rewrite lookup_app_r, Nat.sub_diag. }
  apply push_row_bound; [done| | |done..].
  - split; [by exists []; rewrite app_nil_r|by eexists].
  - unfold x. destruct bytes; [destruct empty_data_is_null|]; simpl; rewrite ?length_app; simpl; try lia; done.
Qed.

Lemma bind_text_bound p s oid :
  params_ok p →
  params_ok (bind_text p s oid) ∧
  bound_params (bind_text p s oid) =
    bound_params p ++
    [mkBound (Some (list_ascii_of_string s)) (int_of_size (String.length s)) FormatRegistry.text oid].
Proof.
  intros Hp. unfold bind_text, add_string.
  set (q := mkParams _ _ _ _ (str_data p ++ [s]) _).
  assert (deref q (str_ptr (length (str_data p))) = Some (list_ascii_of_string s)) as <-.
  { simpl. by rewrite lookup_app_r, Nat.sub_diag. }
  apply push_row_bound; [done| | |done..].
  - split; [by eexists|by exists []; rewrite app_nil_r].
  - simpl. rewrite length_app. simpl. lia.
Qed.

Lemma bind_one_bound p v :
  params_ok p → params_ok (bind_one p v) ∧ bound_params (bind_one p v) = bound_params p ++ [wire v].
Proof.
  intros Hp. destruct v; simpl;
    unfold bind_bool, bind_char, bind_int16, bind_int32, bind_int64, bind_uint16, bind_uint32,
      bind_uint64, bind_float, bind_double, bind_string, bind_bytes; rewrite ?memcpy_out_hton;
    try (by apply bind_chunk_bound); try (by apply bind_text_bound).
  - by apply (push_row_bound p p); [done|split; exists []; rewrite app_nil_r|..].
  - by destruct b; apply bind_chunk_bound.
Qed.

Lemma length_bound_params p : params_ok p → length (bound_params p) = length (values p).
Proof.
  intros (Hl & Hf & Ho & _). unfold bound_params. revert Hl Hf Ho.
  generalize (values p) (lengths p) (formats p) (oids p).
  induction l as [|v vs IH]; intros [|? ls] [|? fs] [|? os]; simpl; try done.
  intros. f_equal. apply IH; lia.
Qed.

#[local] Instance params_sink : ParamSink Params := {| push := push_value |}.

#[local] Instance params_bounded : ParamSinkBounded Params.
Proof. intros k v. apply size_t_lt. Qed.

#[local] Program Instance params_laws : ParamSinkLaws Params Bound := {|
  bound := bound_params;
  bind_of := wire;
  sink_ok := params_ok;
|}.
Next Obligation. intros p v Hp. apply bind_one_bound, Hp. Qed.
Next Obligation. intros p v Hp. apply bind_one_bound, Hp. Qed.
Next Obligation.
  intros p v Hp. destruct (bind_one_bound p v Hp) as [H1 H2]. cbn [snd push params_sink push_value].
  rewrite <- (length_bound_params _ H1), H2, length_app, Nat.add_1_r. done.
Qed.
End ParamSink.
