(* ===== verification/ResultViews.v ===== *)
(** * Reading query results

    [FieldView] of [providers/postgresql/result/views]: one decoder per type,
    dispatching on the wire format and the column's type OID, and the parsers
    of the text format.  The round-trip theorem relates them to the parameter
    sink: what a value sent to the server and returned by it decodes to. *)

From S2P Require Import Prelude Gears Bytes QueryAst Dialect PostgresDialect PostgresParams.

Local Open Scope demi_scope.

(** ** Standard-library parsers *)

(** The longest prefix of digits in base [base], and its value. *)
Definition digit_of (c : ascii) : option N :=
  let n := N_of_ascii c in
  if (48 <=? n)%N && (n <=? 57)%N then Some (n - 48)%N
  else if (97 <=? n)%N && (n <=? 102)%N then Some (n - 87)%N
  else if (65 <=? n)%N && (n <=? 70)%N then Some (n - 55)%N
  else None.

Definition base_digit (base : N) (c : ascii) : option N :=
  match digit_of c with
  | Some d => if (d <? base)%N then Some d else None
  | None => None
  end.

Fixpoint scan_digits (base acc : N) (l : list ascii) : N :=
  match l with
  | [] => acc
  | c :: l' =>
      match base_digit base c with
      | Some d => scan_digits base (acc * base + d) l'
      | None => acc
      end
  end.

(** [std::from_chars] on an unsigned magnitude: [None] when there is no digit.
    Characters after the digits are left alone. *)
Definition scan (base : N) (l : list ascii) : option N :=
  match l with
  | [] => None
  | c :: _ => match base_digit base c with Some _ => Some (scan_digits base 0 l) | None => None end
  end.

(** [std::from_chars(first, last, T&)]: [None] is [ec != std::errc{}]. *)
Definition from_chars_unsigned (w : Z) (l : list ascii) : option Z :=
  match scan 10 l with
  | Some n => if in_unsigned w (Z.of_N n) then Some (Z.of_N n) else None
  | None => None
  end.

Definition from_chars_signed (w : Z) (l : list ascii) : option Z :=
  let r := match l with
           | c :: l' => if decide (c = "-"%char) then Z.opp ∘ Z.of_N <$> scan 10 l'
                        else Z.of_N <$> scan 10 l
           | [] => None
           end in
  match r with
  | Some z => if in_signed w z then Some z else None
  | None => None
  end.

(** [std::from_chars(p, p + 2, byte_val, 16)] *)
Definition from_chars_hex2 (c1 c2 : ascii) : option N := scan 16 [c1; c2].

(** ** FieldView *)

(** The bytes at [ptr_], their number being [len_]; libpq terminates every
    value with a NUL that [len_] does not count. *)
Record FieldView := mkView {
  bytes : list ascii;
  is_null : bool;
  format : Z;
  oid : Z;
}.

Definition memory (fv : FieldView) : list ascii := bytes fv ++ [Ascii.zero].
Definition as_sv (fv : FieldView) : string := string_of_list_ascii (bytes fv).

(** [std::memcpy(&be, ptr_, n)]: reading past the terminator is undefined. *)
Definition read (n : nat) (fv : FieldView) : result (list ascii) :=
  if n <=? length (memory fv) then Ok (take n (memory fv)) else Throw UndefinedBehaviour.

(** The element types of [FieldValue], the [T] of [as<T>()]. *)
Inductive field_type : Type :=
  | TMonostate | TBool | TChar | TInt16 | TInt32 | TInt64 | TUint16 | TUint32 | TUint64
  | TFloat | TDouble | TString | TStringView | TSpan | TVector.

(** ** The server *)

(** The binary form of a NUMERIC (the [numeric] message format of PostgreSQL):
    four 16-bit words with the number of base-10000 digits, the weight of the
    first one, the sign and the display scale, then the digits, most significant
    first and without trailing zeros.  Five digits hold every 64-bit number. *)
Fixpoint base10000 (k : nat) (n : N) : list N :=
  match k with
  | O => []
  | S k' => base10000 k' (n / 10000) ++ [n mod 10000]%N
  end.

Fixpoint drop_zeros (l : list N) : list N :=
  match l with
  | [] => []
  | d :: l' => if (d =? 0)%N then drop_zeros l' else l
  end.

Definition numeric_send (n : N) : list ascii :=
  let whole := drop_zeros (base10000 5 n) in
  let digits := reverse (drop_zeros (reverse whole)) in
  be_bytes 2 (Z.of_nat (length digits)) ++ be_bytes 2 (Z.of_nat (length whole - 1)) ++
  be_bytes 2 0 ++ be_bytes 2 0 ++ (digits ≫= λ d, be_bytes 2 (Z.of_N d)).

(** The binary values of the fixed-size types, as their send functions make them. *)
Definition binary_image (t : Z) (m : list ascii) : bool :=
  if (t =? OidTypeRegistry.oid_bool)%Z then bool_decide (m = [byte_of 0]) || bool_decide (m = [byte_of 1])
  else if (t =? OidTypeRegistry.oid_char)%Z then length m =? 1
  else if (t =? OidTypeRegistry.oid_int2)%Z then length m =? 2
  else if (t =? OidTypeRegistry.oid_int4)%Z || (t =? OidTypeRegistry.oid_float4)%Z then length m =? 4
  else if (t =? OidTypeRegistry.oid_int8)%Z || (t =? OidTypeRegistry.oid_float8)%Z then length m =? 8
  else false.

(** What PostgreSQL documents of [SELECT $1] with binary results, the format both
    executors ask for: a null pointer is SQL NULL; a binary value comes back as it
    was sent; a text is read up to its terminator, must be valid in the client's
    encoding, and its binary form is the text; a NUMERIC given as a text comes back
    in its binary form.  [max_value] is the server's limit on the size of a value. *)
Class EchoServer := {
  echo : Bound → FieldView;
  max_value : nat;
  valid_text : list ascii → bool;
  max_value_int : (Z.of_nat max_value < 2 ^ 31)%Z;
  echo_null l f t : ∃ t', echo (mkBound None l f t) = mkView [] true FormatRegistry.binary t';
  echo_binary m t : binary_image t m = true →
    echo (mkBound (Some m) (Z.of_nat (length m)) FormatRegistry.binary t) =
    mkView m false FormatRegistry.binary t;
  echo_bytea m : length m ≤ max_value →
    echo (mkBound (Some m) (Z.of_nat (length m)) FormatRegistry.binary OidTypeRegistry.oid_bytea) =
    mkView m false FormatRegistry.binary OidTypeRegistry.oid_bytea;
  echo_text m l : length m ≤ max_value → valid_text (InlineString.until_nul m) = true →
    echo (mkBound (Some m) l FormatRegistry.text OidTypeRegistry.oid_text) =
    mkView (InlineString.until_nul m) false FormatRegistry.binary OidTypeRegistry.oid_text;
  echo_numeric n l : (n < 2 ^ 64)%N →
    echo (mkBound (Some (list_ascii_of_string (ToString.numeral n))) l FormatRegistry.text
            OidTypeRegistry.oid_numeric) =
    mkView (numeric_send n) false FormatRegistry.binary OidTypeRegistry.oid_numeric;
}.

(** A server that behaves so. *)
Module EchoLoopback.
Definition answer (b : Bound) : FieldView :=
  match b_memory b with
  | None => mkView [] true FormatRegistry.binary OidTypeRegistry.oid_text
  | Some m =>
      mkView (if (b_format b =? FormatRegistry.binary)%Z then take (Z.to_nat (b_length b)) m
              else if (b_oid b =? OidTypeRegistry.oid_numeric)%Z then numeric_send (ToString.dec_value m)
              else InlineString.until_nul m)
             false FormatRegistry.binary (b_oid b)
  end.

#[export] Program Instance server : EchoServer := {| echo := answer; max_value := 1000; valid_text := λ _, true |}.
Next Obligation. lia. Qed.
Next Obligation. intros l f t. by exists OidTypeRegistry.oid_text. Qed.
Next Obligation. intros m t _. unfold answer. simpl. by rewrite Nat2Z.id, take_ge by done. Qed.
Next Obligation. intros m _. unfold answer. simpl. by rewrite Nat2Z.id, take_ge by done. Qed.
Next Obligation. done. Qed.
Next Obligation. intros n l _. unfold answer. simpl. by rewrite ToString.dec_value_numeral. Qed.
End EchoLoopback.

Section FieldView.
Variable native_big : bool.
(** [std::from_chars] on a [float] (32) or a [double] (64), as a bit pattern. *)
Variable float_from_chars : Z → list ascii → option Z.

Definition binary_of (fv : FieldView) (t : Z) : bool :=
  (format fv =? FormatRegistry.binary)%Z && (oid fv =? t)%Z.

(** [gears::ntoh(be)] of the first [n] bytes. *)
Definition read_be (n : nat) (fv : FieldView) : result Z :=
  let! l := read n fv in Ok (ntoh native_big n (memcpy_in native_big l)).

Definition decode_integer_text (parse : list ascii → option Z) (fv : FieldView) : result Z :=
  match parse (bytes fv) with
  | Some z => Ok z
  | None => Throw runtime_error
  end.

Definition decode_bool (fv : FieldView) : result bool :=
  if binary_of fv OidTypeRegistry.oid_bool then
    let! l := read 1 fv in Ok (bool_decide (l ≠ [Ascii.zero]))
  else
    let sv := as_sv fv in
    Ok (bool_decide (sv = "t") || bool_decide (sv = "true") || bool_decide (sv = "1") ||
        bool_decide (sv = "TRUE") || bool_decide (sv = "T")).

Definition decode_char (fv : FieldView) : result ascii :=
  if binary_of fv OidTypeRegistry.oid_char then
    let! l := read 1 fv in Ok (hd Ascii.zero l)
  else Ok (hd Ascii.zero (bytes fv)).

Definition decode_int16 (fv : FieldView) : result Z :=
  if binary_of fv OidTypeRegistry.oid_int2 then let! v := read_be 2 fv in Ok (to_signed 16 v)
  else decode_integer_text (from_chars_signed 16) fv.

Definition decode_int32 (fv : FieldView) : result Z :=
  if binary_of fv OidTypeRegistry.oid_int4 then let! v := read_be 4 fv in Ok (to_signed 32 v)
  else decode_integer_text (from_chars_signed 32) fv.

Definition decode_int64 (fv : FieldView) : result Z :=
  if binary_of fv OidTypeRegistry.oid_int8 then let! v := read_be 8 fv in Ok (to_signed 64 v)
  else decode_integer_text (from_chars_signed 64) fv.

Definition decode_uint16 (fv : FieldView) : result Z :=
  if binary_of fv OidTypeRegistry.oid_int4 then let! v := read_be 4 fv in Ok (to_unsigned 16 v)
  else if binary_of fv OidTypeRegistry.oid_int2 then read_be 2 fv
  else decode_integer_text (from_chars_unsigned 16) fv.

Definition decode_uint32 (fv : FieldView) : result Z :=
  if binary_of fv OidTypeRegistry.oid_int8 then let! v := read_be 8 fv in Ok (to_unsigned 32 v)
  else if binary_of fv OidTypeRegistry.oid_int4 then read_be 4 fv
  else decode_integer_text (from_chars_unsigned 32) fv.

Definition decode_uint64 (fv : FieldView) : result Z :=
  if binary_of fv OidTypeRegistry.oid_int8 then read_be 8 fv
  else decode_integer_text (from_chars_unsigned 64) fv.

(** The special values, as bit patterns. *)
Definition quiet_NaN (w : Z) : Z := if (w =? 32)%Z then 0x7fc00000 else 0x7ff8000000000000.
Definition infinity (w : Z) : Z := if (w =? 32)%Z then 0x7f800000 else 0x7ff0000000000000.
Definition neg_infinity (w : Z) : Z := if (w =? 32)%Z then 0xff800000 else 0xfff0000000000000.

Definition decode_float_text (w : Z) (fv : FieldView) : result Z :=
  match float_from_chars w (bytes fv) with
  | Some r => Ok r
  | None =>
      let s := as_sv fv in
      if bool_decide (s = "NaN") || bool_decide (s = "nan") then Ok (quiet_NaN w)
      else if bool_decide (s = "Infinity") || bool_decide (s = "inf") then Ok (infinity w)
      else if bool_decide (s = "-Infinity") || bool_decide (s = "-inf") then Ok (neg_infinity w)
      else Throw runtime_error
  end.

Definition decode_float (fv : FieldView) : result Z :=
  if binary_of fv OidTypeRegistry.oid_float4 then read_be 4 fv else decode_float_text 32 fv.

Definition decode_double (fv : FieldView) : result Z :=
  if binary_of fv OidTypeRegistry.oid_float8 then read_be 8 fv else decode_float_text 64 fv.

Definition decode_string (fv : FieldView) : result string := Ok (as_sv fv).
Definition decode_string_view (fv : FieldView) : result string := Ok (as_sv fv).

Definition decode_binary_span (fv : FieldView) : result (list ascii) :=
  if binary_of fv OidTypeRegistry.oid_bytea then Ok (bytes fv) else Throw runtime_error.

(** The loop of [decode_hex_bytea]: [sv] is what remains after the prefix.
    With an odd number of digits the last pair reads the terminator. *)
Fixpoint hex_loop (sv : list ascii) : result (list ascii) :=
  match sv with
  | [] => Ok []
  | [c] =>
      match from_chars_hex2 c Ascii.zero with
      | Some b => Ok [ascii_of_N b]
      | None => Throw runtime_error
      end
  | c1 :: c2 :: sv' =>
      match from_chars_hex2 c1 c2 with
      | Some b => let! result := hex_loop sv' in Ok (ascii_of_N b :: result)
      | None => Throw runtime_error
      end
  end.

Definition decode_hex_bytea (fv : FieldView) : result (list ascii) :=
  match bytes fv with
  | c1 :: c2 :: sv =>
      if decide (c1 = backslash ∧ c2 = "x"%char) then hex_loop sv else Throw runtime_error
  | _ => Throw runtime_error
  end.

Definition decode_binary_vector (fv : FieldView) : result (list ascii) :=
  if binary_of fv OidTypeRegistry.oid_bytea then Ok (bytes fv) else decode_hex_bytea fv.

(** [as<T>()] *)
Definition as_type (T : field_type) (fv : FieldView) : result FieldValue :=
  if is_null fv && match T with TMonostate => false | _ => true end
  then Throw null_conversion_error
  else match T with
  | TMonostate => Ok FNull
  | TBool => let! x := decode_bool fv in Ok (FBool x)
  | TChar => let! x := decode_char fv in Ok (FChar x)
  | TInt16 => let! x := decode_int16 fv in Ok (FInt16 x)
  | TInt32 => let! x := decode_int32 fv in Ok (FInt32 x)
  | TInt64 => let! x := decode_int64 fv in Ok (FInt64 x)
  | TUint16 => let! x := decode_uint16 fv in Ok (FUint16 x)
  | TUint32 => let! x := decode_uint32 fv in Ok (FUint32 x)
  | TUint64 => let! x := decode_uint64 fv in Ok (FUint64 x)
  | TFloat => let! x := decode_float fv in Ok (FFloat x)
  | TDouble => let! x := decode_double fv in Ok (FDouble x)
  | TString => let! x := decode_string fv in Ok (FString x)
  | TStringView => let! x := decode_string_view fv in Ok (FStringView x)
  | TSpan => let! x := decode_binary_span fv in Ok (FSpan x)
  | TVector => let! x := decode_binary_vector fv in Ok (FBytes x)
  end.

(** [get<T>()] *)
Definition get (T : field_type) (fv : FieldView) : result (option FieldValue) :=
  if is_null fv then Ok None else let! v := as_type T fv in Ok (Some v).

(** ** Round trip with the parameter sink *)

Definition type_of (v : FieldValue) : field_type :=
  match v with
  | FNull => TMonostate | FBool _ => TBool | FChar _ => TChar
  | FInt16 _ => TInt16 | FInt32 _ => TInt32 | FInt64 _ => TInt64
  | FUint16 _ => TUint16 | FUint32 _ => TUint32 | FUint64 _ => TUint64
  | FFloat _ => TFloat | FDouble _ => TDouble
  | FString _ => TString | FStringView _ => TStringView
  | FBytes _ => TVector | FSpan _ => TSpan
  end.

Lemma read_be_echo n z t :
  (0 ≤ z < 256 ^ Z.of_nat n)%Z →
  read_be n (mkView (be_bytes n z) false FormatRegistry.binary t) = Ok z.
Proof.
  intros Hz. unfold read_be, read, memory. simpl.
  rewrite length_app, be_bytes_length. simpl.
  destruct (Nat.leb_spec n (n + 1)); [|lia]. simpl.
  rewrite take_app_le, take_ge by (rewrite be_bytes_length; lia).
  rewrite <- (be_bytes_length n z) at 1. rewrite ntoh_memcpy_in, be_value_bytes.
  by rewrite Z.mod_small.
Qed.

Context `{srv : EchoServer}.

(** Values whose wire form determines them: a text without NUL that the server
    accepts, a byte string within the server's limit that, where an empty vector
    has no storage, is not empty. *)
Definition bindable (empty_data_is_null : bool) (v : FieldValue) : bool :=
  match v with
  | FString s | FStringView s =>
      let l := list_ascii_of_string s in
      forallb (λ c, bool_decide (c ≠ InlineString.NUL)) l && valid_text l && (length l <=? max_value)
  | FBytes l | FSpan l => (length l <=? max_value) && negb (empty_data_is_null && bool_decide (l = []))
  | _ => true
  end.

Lemma until_nul_id l :
  forallb (λ c, bool_decide (c ≠ InlineString.NUL)) l = true → InlineString.until_nul l = l.
Proof.
  induction l as [|c l IH]; simpl; [done|]. intros [Hc Hl]%andb_true_iff.
  apply bool_decide_eq_true in Hc. rewrite decide_False by done. by rewrite IH.
Qed.

Lemma base_digit_10 c : ToString.is_digit c = true → base_digit 10 c = Some (ToString.digit_val c).
Proof.
  unfold ToString.is_digit, base_digit, digit_of, ToString.digit_val. intros H. rewrite H.
  apply andb_true_iff in H as [H1 H2]. apply N.leb_le in H1, H2.
  destruct (N.ltb_spec (N_of_ascii c - 48) 10); [done|lia].
Qed.

Lemma scan_digits_10 l acc :
  Forall (λ c, ToString.is_digit c) l →
  scan_digits 10 acc l = fold_left (λ acc c, acc * 10 + ToString.digit_val c)%N l acc.
Proof.
  intros Hl. revert acc. induction Hl as [|c l Hc _ IH]; intros acc; simpl; [done|].
  rewrite base_digit_10 by (by apply Is_true_true). apply IH.
Qed.

Lemma scan_numeral n : scan 10 (list_ascii_of_string (ToString.numeral n)) = Some n.
Proof.
  pose proof (ToString.numeral_digits n) as Hd. pose proof (ToString.dec_value_numeral n) as Hv.
  unfold scan. destruct (list_ascii_of_string (ToString.numeral n)) as [|c l] eqn:E.
  { by apply ToString.numeral_nonempty in E. }
  pose proof (List.Forall_inv Hd) as Hc. simpl in Hc.
  rewrite base_digit_10 by (by apply Is_true_true). f_equal.
  rewrite scan_digits_10 by done. exact Hv.
Qed.

Lemma digits_no_nul l :
  Forall (λ c, ToString.is_digit c) l → forallb (λ c, bool_decide (c ≠ InlineString.NUL)) l = true.
Proof.
  intros Hl. apply forallb_forall. intros c Hc. rewrite List.Forall_forall in Hl.
  apply bool_decide_eq_true. intros ->. by apply (Hl _) in Hc.
Qed.

Lemma pow256 w n : (8 * Z.of_nat n = w → 2 ^ w = 256 ^ Z.of_nat n)%Z.
Proof. intros <-. by rewrite Z.pow_mul_r by lia. Qed.

Lemma unsigned_fits w z n :
  (8 * Z.of_nat n = w)%Z → in_unsigned w z = true → (0 ≤ z < 256 ^ Z.of_nat n)%Z.
Proof. intros Hw Hz%in_unsigned_spec. by rewrite <- (pow256 w n Hw). Qed.

#[local] Opaque read_be take.

Lemma echo_chunk empty_data_is_null (l : list ascii) :
  (length l <=? max_value) && negb (empty_data_is_null && bool_decide (l = [])) = true →
  echo (mkBound (chunk_memory empty_data_is_null l) (int_of_size (length l)) FormatRegistry.binary
          OidTypeRegistry.oid_bytea) = mkView l false FormatRegistry.binary OidTypeRegistry.oid_bytea.
Proof.
  intros [Hl%Nat.leb_le He]%andb_true_iff. pose proof max_value_int.
  unfold int_of_size, to_signed. rewrite Z.mod_small by lia.
  replace (_ - _)%Z with (Z.of_nat (length l)) by lia. rewrite <- echo_bytea by done. do 2 f_equal.
  unfold chunk_memory. destruct l; [|done]. by destruct empty_data_is_null.
Qed.

Lemma echo_plain s :
  forallb (λ c, bool_decide (c ≠ InlineString.NUL)) (list_ascii_of_string s) &&
    valid_text (list_ascii_of_string s) && (length (list_ascii_of_string s) <=? max_value) = true →
  echo (mkBound (Some (list_ascii_of_string s)) (int_of_size (String.length s)) FormatRegistry.text
          OidTypeRegistry.oid_text) =
  mkView (list_ascii_of_string s) false FormatRegistry.binary OidTypeRegistry.oid_text.
Proof.
  intros [[Hn Hv]%andb_true_iff Hl%Nat.leb_le]%andb_true_iff.
  rewrite echo_text by (done || by rewrite until_nul_id). by rewrite until_nul_id.
Qed.

(** The first byte of a binary NUMERIC is no decimal digit. *)
Lemma numeric_send_text n : from_chars_unsigned 64 (numeric_send n) = None.
Proof.
  assert (∀ k m, length (base10000 k m) = k) as Hb.
  { intros k. induction k as [|k IH]; intros m; [done|]. simpl. rewrite length_app, IH. simpl. lia. }
  assert (∀ l, length (drop_zeros l) ≤ length l) as Hz.
  { intros l. induction l as [|d l IH]; [done|]. simpl. case_match; simpl; lia. }
  unfold numeric_send. set (ds := reverse _).
  assert (length ds ≤ 5) as Hd.
  { unfold ds. rewrite length_reverse. rewrite Hz, length_reverse, Hz, Hb. done. }
  clearbody ds. do 6 (destruct ds as [|? ds]; [reflexivity|]). simpl in Hd. lia.
Qed.

(** What a bound value becomes on the way through the server. *)
Definition read_back (v : FieldValue) : result FieldValue :=
  match v with FUint64 _ => Throw runtime_error | _ => Ok v end.

Lemma echo_decodes empty_data_is_null v :
  field_value_ok v = true → bindable empty_data_is_null v = true →
  as_type (type_of v) (echo (wire empty_data_is_null v)) = read_back v.
Proof.
  assert (∀ w n z, (8 * Z.of_nat n = w)%Z → (0 ≤ to_unsigned w z < 256 ^ Z.of_nat n)%Z) as Hcast.
  { intros w n z Hw. apply (unsigned_fits w); [done|]. apply to_unsigned_range. lia. }
  assert (∀ n z t, binary_image t (be_bytes n z) = true →
    echo (mkBound (Some (be_bytes n z)) (Z.of_nat n) FormatRegistry.binary t) =
    mkView (be_bytes n z) false FormatRegistry.binary t) as Hbin.
  { intros n z t Hi. rewrite <- echo_binary by done. by rewrite be_bytes_length. }
  intros Hok Hb. destruct v; unfold as_type, wire; cbn [type_of read_back];
    try (rewrite (Hbin 2%nat) by done); try (rewrite (Hbin 4%nat) by done); try (rewrite (Hbin 8%nat) by done);
    unfold decode_int16, decode_int32, decode_int64, decode_uint16, decode_uint32, decode_uint64,
      decode_float, decode_double, decode_string, decode_string_view, decode_binary_span,
      decode_binary_vector, binary_of; simpl in Hok |- *;
    try (rewrite read_be_echo by (by apply Hcast); simpl; by rewrite to_signed_unsigned by (lia || done)).
  - destruct (echo_null 0 FormatRegistry.text 0) as [t ->]. done.
  - rewrite (echo_binary [byte_of (if b then 1 else 0)]) by (by destruct b). by destruct b.
  - by rewrite (echo_binary [c]) by done.
  - pose proof (proj1 (in_unsigned_spec 16 z) Hok).
    rewrite read_be_echo by (simpl; lia). simpl. by rewrite to_unsigned_id.
  - pose proof (proj1 (in_unsigned_spec 32 z) Hok).
    rewrite read_be_echo by (simpl; lia). simpl. by rewrite to_unsigned_id.
  - pose proof (proj1 (in_unsigned_spec 64 z) Hok). rewrite echo_numeric by lia. simpl.
    unfold decode_integer_text. simpl. by rewrite numeric_send_text.
  - by rewrite read_be_echo by (by apply (unsigned_fits 32)).
  - by rewrite read_be_echo by (by apply (unsigned_fits 64)).
  - rewrite echo_plain by done. unfold as_sv. simpl. by rewrite string_of_list_ascii_of_string.
  - rewrite echo_plain by done. unfold as_sv. simpl. by rewrite string_of_list_ascii_of_string.
  - by rewrite (echo_chunk _ _ Hb).
  - by rewrite (echo_chunk _ _ Hb).
Qed.

(** *** Hexadecimal bytea *)

Lemma hex_byte b :
  from_chars_hex2 (Postgres.hex_char (N.shiftr (N_of_ascii b) 4))
                  (Postgres.hex_char (N.land (N_of_ascii b) 15)) = Some (N_of_ascii b).
Proof. destruct b as [[] [] [] [] [] [] [] []]; vm_compute; reflexivity. Qed.

Lemma hex_loop_digits l : hex_loop (list_ascii_of_string (Postgres.hex_digits l)) = Ok l.
Proof.
  induction l as [|b l IH]; [done|]. cbn [Postgres.hex_digits list_ascii_of_string hex_loop].
  by rewrite hex_byte, IH, <- (ascii_N_embedding b) at 1.
Qed.

Lemma read_binary_literal l rest :
  Postgres.not_starting squote rest = true →
  Postgres.read_string false (Postgres.format_binary_data l +:+ rest) =
  Some (String backslash (String "x" (Postgres.hex_digits l)), rest).
Proof.
  intros Hr. unfold Postgres.format_binary_data. cbn [Postgres.read_string String.append].
  rewrite decide_True by done. cbn [Postgres.read_delimited].
  rewrite !decide_False by (unfold backslash, squote; intuition congruence).
  assert (Postgres.read_delimited squote false ((Postgres.hex_digits l +:+ String squote "") +:+ rest)
          = Some (Postgres.hex_digits l, rest)) as ->; [|done].
  induction l as [|b l IH]; [by apply Postgres.read_delimited_close|].
  destruct (Postgres.hex_char_plain b) as (H1 & _ & H3 & _).
  cbn [Postgres.hex_digits String.append Postgres.read_delimited].
  rewrite !decide_False by (intuition congruence). by rewrite IH.
Qed.
End FieldView.

(** ** Theorems *)

Section RoundTrips.
Context (native_big empty_data_is_null : bool) (float_from_chars : Z → list ascii → option Z).

(** In a text result (a query without parameters) a NUMERIC column does decode. *)
Theorem uint64_text_decodes (z : Z) :
  in_unsigned 64 z = true →
  as_type native_big float_from_chars TUint64
    (mkView (list_ascii_of_string (ToString.numeral (Z.to_N z))) false FormatRegistry.text
       OidTypeRegistry.oid_numeric) = Ok (FUint64 z).
Proof.
  intros Hz. unfold as_type, decode_uint64, decode_integer_text, from_chars_unsigned. simpl.
  rewrite scan_numeral. pose proof (proj1 (in_unsigned_spec 64 z) Hz). rewrite Z2N.id by lia. by rewrite Hz.
Qed.

(** C10: a value pushed into the parameter sink, on a host of either byte order,
    and returned by [SELECT $1] in the binary format the executors request
    decodes to itself, for every type except [uint64_t]: the encodings of
    integers and floating-point numbers, the promotions of the smaller unsigned
    types, NULL, strings and byte strings.  Texts have no NUL character, are valid
    in the client's encoding and within the server's limit, as are byte strings,
    which are not empty where [data()] of an empty vector is null.  A [uint64_t] is
    sent as a NUMERIC, comes back in the binary form of that type, and
    [decode_uint64] throws on every one of them. *)
Theorem bind_decode_roundtrip `{EchoServer} (p : Params) (v : FieldValue) :
  params_ok p → field_value_ok v = true → bindable empty_data_is_null v = true →
  ∃ b, bound_params (fst (push_value native_big empty_data_is_null p v)) = bound_params p ++ [b] ∧
       as_type native_big float_from_chars (type_of v) (echo b) =
         match v with FUint64 _ => Throw runtime_error | _ => Ok v end.
Proof.
  intros Hp Hok Hb. exists (wire empty_data_is_null v). split.
  - by apply bind_one_bound.
  - by apply echo_decodes.
Qed.

(** The inline literal of a byte string and the decoder of the text format
    agree: the server reads the literal (standard-conforming strings) as a text
    that [decode_hex_bytea] turns back into the bytes. *)
Theorem bytea_literal_roundtrip (float_chars : Z → Z → string) (l : list ascii) (rest : string) :
  Postgres.not_starting squote rest = true →
  ∃ q t, Postgres.format_value_impl float_chars "" (FBytes l) = Ok q ∧
         Postgres.read_string false (q +:+ rest) = Some (t, rest) ∧
         decode_hex_bytea (mkView (list_ascii_of_string t) false FormatRegistry.text
                             OidTypeRegistry.oid_bytea) = Ok l.
Proof.
  intros Hr. exists (Postgres.format_binary_data l), (String backslash (String "x" (Postgres.hex_digits l))).
  split_and!; [done|by apply read_binary_literal|]. apply hex_loop_digits.
Qed.
End RoundTrips.

(** An empty byte string is bound as SQL NULL when [data()] of an empty
    vector is a null pointer: reading the parameter back with [get] gives no
    value, and [as] throws. *)
Theorem empty_bytes_bound_as_null `{EchoServer} (native_big : bool) (float_from_chars : Z → list ascii → option Z)
    (p : Params) :
  params_ok p →
  ∃ b, bound_params (fst (push_value native_big true p (FBytes []))) = bound_params p ++ [b] ∧
       get native_big float_from_chars TVector (echo b) = Ok None ∧
       as_type native_big float_from_chars TVector (echo b) = Throw null_conversion_error.
Proof.
  intros Hp. exists (wire true (FBytes [])). split; [by apply bind_one_bound|]. simpl.
  destruct (echo_null (int_of_size 0) FormatRegistry.binary OidTypeRegistry.oid_bytea) as [t ->]. done.
Qed.

(** The hex decoder takes a pair whose second character is not a hex digit,
    and a last single digit, for a one-digit number instead of reporting
    invalid hex. *)
Theorem hex_pair_half_accepted (c1 c2 : ascii) (d : N) (sv : list ascii) (r : list ascii) :
  base_digit 16 c1 = Some d → base_digit 16 c2 = None → hex_loop sv = Ok r →
  hex_loop (c1 :: c2 :: sv) = Ok (ascii_of_N d :: r) ∧ hex_loop [c1] = Ok [ascii_of_N d].
Proof.
  intros H1 H2 Hr. cbn [hex_loop]. unfold from_chars_hex2, scan. rewrite H1.
  cbn [scan_digits]. rewrite H1, H2, Hr. change (base_digit 16 Ascii.zero) with (@None N). done.
Qed.

Import EchoLoopback.

(** 1234 5678: two digits, the first of weight 1. *)
Example numeric_send_12345678 :
  numeric_send 12345678 =
  map ascii_of_N [0; 2; 0; 1; 0; 0; 0; 0; 4; 210; 22; 46]%N.
Proof. vm_compute. reflexivity. Qed.

(** 5 0000 0000: one digit, of weight 2. *)
Example numeric_send_zeros : numeric_send 500000000 = map ascii_of_N [0; 1; 0; 2; 0; 0; 0; 0; 0; 5]%N.
Proof. vm_compute. reflexivity. Qed.

Lemma uint64_text_decodes_witness :
  as_type false (λ _ _, None) TUint64
    (mkView (list_ascii_of_string (ToString.numeral (Z.to_N 18446744073709551615))) false FormatRegistry.text
       OidTypeRegistry.oid_numeric) = Ok (FUint64 18446744073709551615).
Proof. apply (uint64_text_decodes false (λ _ _, None)). reflexivity. Defined.

Lemma bind_decode_roundtrip_witness :
  (∃ b, bound_params (fst (push_value false true empty_params (FInt16 (-2)))) = [] ++ [b] ∧
        as_type false (λ _ _, None) TInt16 (echo b) = Ok (FInt16 (-2))) ∧
  (∃ b, bound_params (fst (push_value false true empty_params (FString "o'k"))) = [] ++ [b] ∧
        as_type false (λ _ _, None) TString (echo b) = Ok (FString "o'k")) ∧
  (∃ b, bound_params (fst (push_value false true empty_params (FUint64 42))) = [] ++ [b] ∧
        as_type false (λ _ _, None) TUint64 (echo b) = Throw runtime_error).
Proof.
  split_and!.
  - apply (bind_decode_roundtrip false true (λ _ _, None) empty_params (FInt16 (-2)));
      [by repeat split|reflexivity|reflexivity].
  - apply (bind_decode_roundtrip false true (λ _ _, None) empty_params (FString "o'k"));
      [by repeat split|reflexivity|reflexivity].
  - apply (bind_decode_roundtrip false true (λ _ _, None) empty_params (FUint64 42));
      [by repeat split|reflexivity|reflexivity].
Defined.

Lemma bytea_literal_roundtrip_witness :
  ∃ q t, Postgres.format_value_impl (λ _ b, to_chars_int b) "" (FBytes ["A"%char; "000"%char]) = Ok q ∧
         Postgres.read_string false (q +:+ "") = Some (t, "") ∧
         decode_hex_bytea (mkView (list_ascii_of_string t) false FormatRegistry.text
                             OidTypeRegistry.oid_bytea) = Ok ["A"%char; "000"%char].
Proof. apply (bytea_literal_roundtrip (λ _ b, to_chars_int b)). reflexivity. Defined.

Lemma empty_bytes_bound_as_null_witness :
  ∃ b, bound_params (fst (push_value false true empty_params (FBytes []))) = [] ++ [b] ∧
       get false (λ _ _, None) TVector (echo b) = Ok None ∧
       as_type false (λ _ _, None) TVector (echo b) = Throw null_conversion_error.
Proof. apply (empty_bytes_bound_as_null false (λ _ _, None) empty_params). by repeat split. Defined.

Lemma hex_pair_half_accepted_witness :
  hex_loop ["4"%char; "g"%char] = Ok [ascii_of_N 4] ∧ hex_loop ["4"%char] = Ok [ascii_of_N 4].
Proof. by apply (hex_pair_half_accepted "4" "g" 4 [] []). Defined.
