(* ===== verification/SqlGenerator.v ===== *)
(** * The SQL generator

    [SqlGeneratorVisitor] ([query/compiler/query_visitor/sql_generator_visitor.hpp]
    and its [.inl]) and the traversal [QueryVisitor]
    ([query_visitor.hpp]) it derives from, for every dialect, string type and
    parameter mode.  The visitor is explicit state: the SQL text so far, the
    parameter sink and the placeholder counter; a visit may throw when the
    string type runs out of capacity.

    A [visit] overload of the C++ code takes the sub-expressions and calls
    [accept] on them; here it takes the visits of the sub-expressions, and
    [visit] ties the recursive knot. *)

From S2P Require Import Prelude Gears QueryAst Dialect.

Local Open Scope demi_scope.

(** [ParamMode] *)
Inductive ParamMode : Type := Inline | Tuple | Sink.

#[export] Instance ParamMode_eq_dec : EqDecision ParamMode.
Proof. solve_decision. Defined.

(** The C++ parameter tuple. *)
Definition params : Type := list FieldValue.

Record Visitor (Str SinkT : Type) := mkVisitor {
  sql_ : Str;
  sink_ : SinkT;
  param_count_ : N;
}.
Arguments mkVisitor {Str SinkT} sql_ sink_ param_count_.
Arguments sql_ {Str SinkT} _.
Arguments sink_ {Str SinkT} _.
Arguments param_count_ {Str SinkT} _.

(** A visiting function. *)
Definition V (Str SinkT A : Type) : Type := Visitor Str SinkT → result (A * Visitor Str SinkT).

Definition vret {Str SinkT A} (a : A) : V Str SinkT A := λ st, Ok (a, st).
Definition vbind {Str SinkT A B} (m : V Str SinkT A) (k : A → V Str SinkT B) : V Str SinkT B :=
  λ st, let! p := m st in k (fst p) (snd p).

Declare Scope visit_scope.
Delimit Scope visit_scope with visit.
Notation "x <- m ;; k" := (vbind m (fun x => k))
  (at level 100, m at next level, right associativity) : visit_scope.
Notation "m ;; k" := (vbind m (fun _ => k))
  (at level 100, right associativity) : visit_scope.
Local Open Scope visit_scope.

Module Generator.
Section Generator.
Context {Str SinkT : Type} `{Appendable Str} `{ParamSink SinkT} `{D : SqlDialect}.
Variable Mode : ParamMode.

Abbreviation Vis := (V Str SinkT).

(** ** The callbacks of SqlGeneratorVisitor *)

Definition emit (f : Str → result Str) : Vis unit := λ st,
  let! s := f (sql_ st) in Ok (tt, mkVisitor s (sink_ st) (param_count_ st)).

(** [sql_ += text] *)
Definition text (t : string) : Vis unit := emit (λ s, append_sv s t).

(** [++param_count_] *)
Definition next_param : Vis N := λ st,
  let n := size_t (param_count_ st + 1) in Ok (n, mkVisitor (sql_ st) (sink_ st) n).

(** [sink_->push(value)] *)
Definition sink_push (v : FieldValue) : Vis N := λ st,
  let (k, idx) := push (sink_ st) v in Ok (idx, mkVisitor (sql_ st) k (param_count_ st)).

Definition capture_param (val : FieldValue) : params :=
  match Mode with Tuple => [val] | _ => [] end.

Definition no_params : params := [].

Definition cat_params (tuples : list params) : params :=
  match Mode with Tuple => concat tuples | _ => [] end.

Definition visit_table_name_impl (table_name : string) : Vis unit :=
  if decide (table_name = "") then vret tt
  else emit (λ s, quote_identifier s table_name).

Definition visit_alias_impl (alias : string) : Vis unit :=
  if decide (alias = "") then vret tt
  else text " AS " ;; emit (λ s, quote_identifier s alias).

Definition visit_column_impl (name table alias : string) : Vis unit :=
  (if decide (table = "") then vret tt else visit_table_name_impl table ;; text ".") ;;
  emit (λ s, quote_identifier s name) ;;
  visit_alias_impl alias.

Definition visit_value_impl (value : FieldValue) : Vis unit :=
  match Mode with
  | Inline => emit (λ s, format_value s value)
  | Tuple => idx <- next_param ;; emit (λ s, placeholder s idx)
  | Sink => idx <- sink_push value ;; emit (λ s, placeholder s idx)
  end.

Definition visit_null_impl : Vis unit := text "NULL".

Definition visit_param_placeholder_impl : Vis unit :=
  idx <- next_param ;; emit (λ s, placeholder s idx).

Definition visit_all_columns_impl (table : string) : Vis unit :=
  (if decide (table = "") then vret tt else visit_table_name_impl table ;; text ".") ;;
  text "*".

(** The three [visit_table_impl] overloads. *)
Definition visit_table_impl (table : Table) : Vis unit :=
  match table with
  | TDynamic None => vret tt
  | TDynamic (Some t) => emit (λ s, quote_identifier s (table_name t))
  | TName name => visit_table_name_impl name
  | TStatic name _ => visit_table_name_impl name
  end.

Definition visit_binary_expr_start : Vis unit := text "(".
Definition visit_binary_expr_end : Vis unit := text ")".
Definition visit_unary_expr_start : Vis unit := vret tt.
Definition visit_unary_expr_end : Vis unit := vret tt.
Definition visit_subquery_start : Vis unit := text "(".
Definition visit_subquery_end : Vis unit := text ")".
Definition visit_exists_start : Vis unit := text "EXISTS (".
Definition visit_exists_end : Vis unit := text ")".

Definition binary_op_text (op : BinaryOp) : string :=
  match op with
  | OpEqual => " = "
  | OpNotEqual => " != "
  | OpLess => " < "
  | OpLessEqual => " <= "
  | OpGreater => " > "
  | OpGreaterEqual => " >= "
  | OpAnd => " AND "
  | OpOr => " OR "
  | OpLike => " LIKE "
  | OpNotLike => " NOT LIKE "
  | OpIn => " IN "
  end.
Definition visit_binary_op_impl (op : BinaryOp) : Vis unit := text (binary_op_text op).

Definition unary_op_text (op : UnaryOp) : string :=
  match op with
  | OpNot => "NOT "
  | OpIsNull => " IS NULL"
  | OpIsNotNull => " IS NOT NULL"
  end.
Definition visit_unary_op_impl (op : UnaryOp) : Vis unit := text (unary_op_text op).

Definition visit_between_impl : Vis unit := text " BETWEEN ".
Definition visit_and_impl : Vis unit := text " AND ".
Definition visit_in_list_start : Vis unit := text " IN (".
Definition visit_in_list_end : Vis unit := text ")".

Definition visit_count_impl (distinct : bool) : Vis unit :=
  text "COUNT(" ;; if distinct then text "DISTINCT " else vret tt.

Definition aggregate_text (fn : AggregateFn) : string :=
  match fn with
  | AggSum => "SUM("
  | AggAvg => "AVG("
  | AggMax => "MAX("
  | AggMin => "MIN("
  end.
Definition visit_aggregate_start (fn : AggregateFn) : Vis unit := text (aggregate_text fn).
Definition visit_aggregate_end (alias : string) : Vis unit := text ")" ;; visit_alias_impl alias.

Definition visit_select_start (distinct : bool) : Vis unit :=
  text "SELECT " ;; if distinct then text "DISTINCT " else vret tt.
Definition visit_from_start : Vis unit := text " FROM ".
Definition visit_where_start : Vis unit := text " WHERE ".
Definition visit_group_by_start : Vis unit := text " GROUP BY ".
Definition visit_having_start : Vis unit := text " HAVING ".
Definition visit_order_by_start : Vis unit := text " ORDER BY ".

Definition order_text (dir : OrderDirection) : string :=
  match dir with ASC => " ASC" | DESC => " DESC" end.
Definition visit_order_direction_impl (dir : OrderDirection) : Vis unit := text (order_text dir).

Definition visit_limit_impl (limit offset : N) : Vis unit :=
  emit (λ s, limit_clause s (size_t limit) (size_t offset)).

Definition join_text (type : JoinType) : string :=
  match type with
  | INNER => " INNER JOIN "
  | LEFT => " LEFT JOIN "
  | RIGHT => " RIGHT JOIN "
  | FULL => " FULL OUTER JOIN "
  | CROSS => " CROSS JOIN "
  end.
Definition visit_join_start (type : JoinType) : Vis unit := text (join_text type).
Definition visit_join_on : Vis unit := text " ON ".

Definition visit_insert_start : Vis unit := text "INSERT INTO ".
Definition visit_update_start : Vis unit := text "UPDATE ".
Definition visit_delete_start : Vis unit := text "DELETE FROM ".

(** [for (x : xs) { if (!first) sql_ += ", "; first = false; body(x); }] *)
Fixpoint comma_loop {A} (body : A → Vis unit) (first : bool) (xs : list A) : Vis unit :=
  match xs with
  | [] => vret tt
  | x :: xs' =>
      (if first then vret tt else text ", ") ;;
      body x ;;
      comma_loop body false xs'
  end.

Definition visit_insert_columns (columns : list string) : Vis unit :=
  text " (" ;;
  comma_loop (λ c, emit (λ s, quote_identifier s c)) true columns ;;
  text ") VALUES ".

Definition visit_insert_values (rows : list (list FieldValue)) : Vis unit :=
  comma_loop (λ row, text "(" ;; comma_loop visit_value_impl true row ;; text ")") true rows.

Definition visit_update_set (assignments : list (string * FieldValue)) : Vis unit :=
  text " SET " ;;
  comma_loop (λ cv : string * FieldValue,
    emit (λ s, quote_identifier s (fst cv)) ;;
    text " = " ;;
    visit_value_impl (snd cv)) true assignments.

Definition visit_case_start : Vis unit := text "CASE".
Definition visit_case_end : Vis unit := text " END".
Definition visit_when_start : Vis unit := text " WHEN ".
Definition visit_when_then : Vis unit := text " THEN ".
Definition visit_else_start : Vis unit := text " ELSE ".

Definition set_op_text (op : SetOperation) : string :=
  match op with
  | UNION => " UNION "
  | UNION_ALL => " UNION ALL "
  | INTERSECT => " INTERSECT "
  | EXCEPT => " EXCEPT "
  end.
Definition visit_set_op_impl (op : SetOperation) : Vis unit := text (set_op_text op).

Definition visit_cte_start (recursive : bool) : Vis unit :=
  text "WITH " ;; if recursive then text "RECURSIVE " else vret tt.
Definition visit_cte_name_impl (name : string) : Vis unit := emit (λ s, quote_identifier s name).
Definition visit_cte_as_start : Vis unit := text " AS (".
Definition visit_cte_as_end : Vis unit := text ")".
Definition visit_cte_end : Vis unit := text " ".

Definition visit_create_table_start (if_not_exists : bool) : Vis unit :=
  text "CREATE TABLE " ;; if if_not_exists then text "IF NOT EXISTS " else vret tt.

Definition when_ (b : bool) (m : Vis unit) : Vis unit := if b then m else vret tt.

Definition visit_dynamic_field (field : DynamicFieldSchema) : Vis unit :=
  emit (λ s, quote_identifier s (f_name field)) ;;
  text " " ;;
  text (f_db_type field) ;;
  when_ (f_is_primary_key field) (text " PRIMARY KEY") ;;
  when_ (negb (f_is_nullable field) && negb (f_is_primary_key field)) (text " NOT NULL") ;;
  when_ (f_is_unique field && negb (f_is_primary_key field)) (text " UNIQUE") ;;
  when_ (bool_decide (f_default_value field ≠ ""))
    (text " DEFAULT " ;; text (f_default_value field)) ;;
  when_ (f_is_foreign_key field && bool_decide (f_foreign_table field ≠ ""))
    (text " REFERENCES " ;; emit (λ s, quote_identifier s (f_foreign_table field)) ;;
     text "(" ;; emit (λ s, quote_identifier s (f_foreign_column field)) ;; text ")").

Definition visit_static_field (field : StaticField) : Vis unit :=
  emit (λ s, quote_identifier s (sf_name field)) ;;
  text " " ;;
  text (sf_sql_type field) ;;
  when_ (sf_is_primary_key field) (text " PRIMARY KEY") ;;
  when_ (negb (sf_is_nullable field) && negb (sf_is_primary_key field)) (text " NOT NULL") ;;
  when_ (sf_is_unique field && negb (sf_is_primary_key field)) (text " UNIQUE").

(** [visit_create_table_columns]: the overloads for dynamic and static tables;
    a bare name has no columns to visit (the C++ code does not compile). *)
Definition visit_create_table_columns (table : Table) : Vis unit :=
  match table with
  | TDynamic None => vret tt
  | TDynamic (Some t) => text " (" ;; comma_loop visit_dynamic_field true (fields t) ;; text ")"
  | TStatic _ fs => text " (" ;; comma_loop visit_static_field true fs ;; text ")"
  | TName _ => vret tt
  end.

Definition visit_drop_table_start (if_exists : bool) : Vis unit :=
  text "DROP TABLE " ;; if if_exists then text "IF EXISTS " else vret tt.
Definition visit_drop_table_end (cascade : bool) : Vis unit :=
  if cascade then text " CASCADE" else vret tt.

Definition visit_column_separator : Vis unit := text ", ".

(** ** The traversal: QueryVisitor *)

(** [visit_tuple_elements]: the elements with separators, first to last. *)
Fixpoint visit_tuple_elements (is_first : bool) (elems : list (Vis params)) : Vis params :=
  match elems with
  | [] => vret no_params
  | elem :: rest =>
      (if is_first then vret tt else visit_column_separator) ;;
      head <- elem ;;
      tail <- visit_tuple_elements false rest ;;
      vret (cat_params [head; tail])
  end.

Definition visit_single_when (cond val : Vis params) : Vis params :=
  visit_when_start ;;
  cp <- cond ;;
  visit_when_then ;;
  vp <- val ;;
  vret (cat_params [cp; vp]).

Fixpoint visit_when_clauses (clauses : list (Vis params * Vis params)) : Vis params :=
  match clauses with
  | [] => vret no_params
  | w :: rest =>
      head <- visit_single_when (fst w) (snd w) ;;
      tail <- visit_when_clauses rest ;;
      vret (cat_params [head; tail])
  end.

Definition visit_Column (c : Column) : Vis params :=
  visit_column_impl (col_name c) (col_table c) (col_alias c) ;; vret no_params.

Definition visit_Literal (value : FieldValue) (alias : string) : Vis params :=
  visit_value_impl value ;; visit_alias_impl alias ;; vret (capture_param value).

Definition visit_NullLiteral : Vis params := visit_null_impl ;; vret no_params.

Definition visit_ParamPlaceholder : Vis params := visit_param_placeholder_impl ;; vret no_params.

Definition visit_AllColumns (table : string) : Vis params :=
  visit_all_columns_impl table ;; vret no_params.

(** [expr.column.accept(derived())] for a column-like operand. *)
Definition visit_ColumnLike (c : ColumnLike) : Vis params :=
  match c with CCol c => visit_Column c | CAll t => visit_AllColumns t end.

Definition visit_BinaryExpr (op : BinaryOp) (left right : Vis params) : Vis params :=
  visit_binary_expr_start ;;
  lp <- left ;;
  visit_binary_op_impl op ;;
  rp <- right ;;
  visit_binary_expr_end ;;
  vret (cat_params [lp; rp]).

Definition visit_UnaryExpr (op : UnaryOp) (operand : Vis params) : Vis params :=
  visit_unary_expr_start ;;
  if is_postfix op then
    p <- operand ;; visit_unary_op_impl op ;; visit_unary_expr_end ;; vret p
  else
    visit_unary_op_impl op ;; p <- operand ;; visit_unary_expr_end ;; vret p.

Definition visit_BetweenExpr (operand lower upper : Vis params) : Vis params :=
  op <- operand ;;
  visit_between_impl ;;
  lp <- lower ;;
  visit_and_impl ;;
  up <- upper ;;
  vret (cat_params [op; lp; up]).

Definition visit_InListExpr (operand : Vis params) (values : list (Vis params)) : Vis params :=
  op <- operand ;;
  visit_in_list_start ;;
  vp <- visit_tuple_elements true values ;;
  visit_in_list_end ;;
  vret (cat_params [op; vp]).

Definition visit_Subquery (query : Vis params) (alias : string) : Vis params :=
  visit_subquery_start ;; qp <- query ;; visit_subquery_end ;; visit_alias_impl alias ;; vret qp.

Definition visit_ExistsExpr (query : Vis params) : Vis params :=
  visit_exists_start ;; qp <- query ;; visit_exists_end ;; vret qp.

Definition visit_CountExpr (column : ColumnLike) (distinct : bool) (alias : string) : Vis params :=
  visit_count_impl distinct ;;
  (match column with
   | CAll _ => visit_all_columns_impl ""
   | CCol c => visit_Column c ;; vret tt
   end) ;;
  visit_aggregate_end alias ;;
  vret no_params.

(** [SumExpr], [AvgExpr], [MaxExpr], [MinExpr]. *)
Definition visit_AggregateExpr (fn : AggregateFn) (column : ColumnLike) (alias : string) : Vis params :=
  visit_aggregate_start fn ;; visit_ColumnLike column ;; visit_aggregate_end alias ;; vret no_params.

Definition visit_OrderBy (column : ColumnLike) (dir : OrderDirection) : Vis params :=
  visit_ColumnLike column ;; visit_order_direction_impl dir ;; vret no_params.

Definition visit_SelectExpr (distinct : bool) (columns : list (Vis params)) : Vis params :=
  visit_select_start distinct ;; visit_tuple_elements true columns.

Definition visit_FromTableExpr (select : Vis params) (table : Table) (alias : string) : Vis params :=
  sp <- select ;;
  visit_from_start ;;
  visit_table_impl table ;;
  visit_alias_impl alias ;;
  vret sp.

Definition visit_CteExpr (name : string) (query : Vis params) (recursive : bool) : Vis params :=
  visit_cte_start recursive ;;
  visit_cte_name_impl name ;;
  visit_cte_as_start ;;
  qp <- query ;;
  visit_cte_as_end ;;
  visit_cte_end ;;
  vret qp.

Definition visit_FromCteExpr (select : Vis params) (cte_name : string) (cte_query : Vis params)
    (recursive : bool) : Vis params :=
  cp <- visit_CteExpr cte_name cte_query recursive ;;
  sp <- select ;;
  visit_from_start ;;
  visit_table_name_impl cte_name ;;
  vret (cat_params [cp; sp]).

Definition visit_WhereExpr (query condition : Vis params) : Vis params :=
  qp <- query ;; visit_where_start ;; cp <- condition ;; vret (cat_params [qp; cp]).

Definition visit_GroupByColumnExpr (query : Vis params) (columns : list (Vis params)) : Vis params :=
  qp <- query ;; visit_group_by_start ;; cp <- visit_tuple_elements true columns ;;
  vret (cat_params [qp; cp]).

Definition visit_GroupByQueryExpr (query criteria : Vis params) : Vis params :=
  qp <- query ;; visit_group_by_start ;; cp <- criteria ;; vret (cat_params [qp; cp]).

Definition visit_HavingExpr (query condition : Vis params) : Vis params :=
  qp <- query ;; visit_having_start ;; cp <- condition ;; vret (cat_params [qp; cp]).

Definition visit_OrderByExpr (query : Vis params) (orders : list (Vis params)) : Vis params :=
  qp <- query ;; visit_order_by_start ;; op <- visit_tuple_elements true orders ;;
  vret (cat_params [qp; op]).

Definition visit_LimitExpr (query : Vis params) (count offset : N) : Vis params :=
  qp <- query ;; visit_limit_impl count offset ;; vret qp.

Definition visit_JoinExpr (query on_condition : Vis params) (table : Table) (type : JoinType)
    (alias : string) : Vis params :=
  qp <- query ;;
  visit_join_start type ;;
  visit_table_impl table ;;
  visit_alias_impl alias ;;
  visit_join_on ;;
  cp <- on_condition ;;
  vret (cat_params [qp; cp]).

Definition visit_InsertExpr (table : Table) (columns : list string)
    (rows : list (list FieldValue)) : Vis params :=
  visit_insert_start ;;
  visit_table_impl table ;;
  visit_insert_columns columns ;;
  visit_insert_values rows ;;
  vret no_params.

Definition visit_UpdateExpr (table : Table) (assignments : list (string * FieldValue)) : Vis params :=
  visit_update_start ;; visit_table_impl table ;; visit_update_set assignments ;; vret no_params.

Definition visit_UpdateWhereExpr (update condition : Vis params) : Vis params :=
  up <- update ;; visit_where_start ;; cp <- condition ;; vret (cat_params [up; cp]).

Definition visit_DeleteExpr (table : Table) : Vis params :=
  visit_delete_start ;; visit_table_impl table ;; vret no_params.

Definition visit_DeleteWhereExpr (del condition : Vis params) : Vis params :=
  dp <- del ;; visit_where_start ;; cp <- condition ;; vret (cat_params [dp; cp]).

Definition visit_SetOpExpr (left right : Vis params) (op : SetOperation) : Vis params :=
  lp <- left ;; visit_set_op_impl op ;; rp <- right ;; vret (cat_params [lp; rp]).

Definition visit_CaseExpr (clauses : list (Vis params * Vis params)) (alias : string) : Vis params :=
  visit_case_start ;;
  wp <- visit_when_clauses clauses ;;
  visit_case_end ;;
  visit_alias_impl alias ;;
  vret wp.

Definition visit_CaseExprWithElse (clauses : list (Vis params * Vis params))
    (else_clause : Vis params) (alias : string) : Vis params :=
  visit_case_start ;;
  wp <- visit_when_clauses clauses ;;
  visit_else_start ;;
  ep <- else_clause ;;
  visit_case_end ;;
  visit_alias_impl alias ;;
  vret (cat_params [wp; ep]).

Definition visit_CreateTableExpr (table : Table) (if_not_exists : bool) : Vis params :=
  visit_create_table_start if_not_exists ;;
  visit_table_impl table ;;
  visit_create_table_columns table ;;
  vret no_params.

Definition visit_DropTableExpr (table : Table) (if_exists cascade : bool) : Vis params :=
  visit_drop_table_start if_exists ;;
  visit_table_impl table ;;
  visit_drop_table_end cascade ;;
  vret no_params.

(** [accept]: the overload resolution of [visit] on the node type. *)
Fixpoint visit (e : Expr) : Vis params :=
  match e with
  | EColumn c => visit_Column c
  | EAllColumns t => visit_AllColumns t
  | ELiteral v a => visit_Literal v a
  | ENull => visit_NullLiteral
  | EParam => visit_ParamPlaceholder
  | EBinary op l r => visit_BinaryExpr op (visit l) (visit r)
  | EUnary op o => visit_UnaryExpr op (visit o)
  | EBetween o l u => visit_BetweenExpr (visit o) (visit l) (visit u)
  | EInList o vs => visit_InListExpr (visit o) (map visit vs)
  | ESubquery q a => visit_Subquery (visit q) a
  | EExists q => visit_ExistsExpr (visit q)
  | ECount c d a => visit_CountExpr c d a
  | EAggregate fn c a => visit_AggregateExpr fn c a
  | EOrder c d => visit_OrderBy c d
  | ESelect d cs => visit_SelectExpr d (map visit cs)
  | EFromTable s t a => visit_FromTableExpr (visit s) t a
  | EFromCte s n q r => visit_FromCteExpr (visit s) n (visit q) r
  | EWhere q c => visit_WhereExpr (visit q) (visit c)
  | EGroupByColumns q cs => visit_GroupByColumnExpr (visit q) (map visit cs)
  | EGroupByQuery q c => visit_GroupByQueryExpr (visit q) (visit c)
  | EHaving q c => visit_HavingExpr (visit q) (visit c)
  | EOrderBy q os => visit_OrderByExpr (visit q) (map visit os)
  | ELimit q n o => visit_LimitExpr (visit q) n o
  | EJoin q c t ty a => visit_JoinExpr (visit q) (visit c) t ty a
  | EInsert t cs rs => visit_InsertExpr t cs rs
  | EUpdate t asg => visit_UpdateExpr t asg
  | EUpdateWhere u c => visit_UpdateWhereExpr (visit u) (visit c)
  | EDelete t => visit_DeleteExpr t
  | EDeleteWhere d c => visit_DeleteWhereExpr (visit d) (visit c)
  | ESetOp l r op => visit_SetOpExpr (visit l) (visit r) op
  | ECase ws a => visit_CaseExpr (map (λ w, (visit (fst w), visit (snd w))) ws) a
  | ECaseElse ws e' a =>
      visit_CaseExprWithElse (map (λ w, (visit (fst w), visit (snd w))) ws) (visit e') a
  | ECte n q r => visit_CteExpr n (visit q) r
  | ECreateTable t b => visit_CreateTableExpr t b
  | EDropTable t i c => visit_DropTableExpr t i c
  end.
End Generator.
End Generator.
