(* ===== verification/SqlTemplate.v ===== *)
(** * SQL templates: what the generator produces

    The abstract specification of [SqlGeneratorVisitor].  The [template] of an
    expression is the SQL text with identifiers, values and parameter markers
    left symbolic; it does not depend on the string type, the dialect or the
    parameter mode.  [run] renders a template in a given mode.  The refinement
    theorem says that visiting an expression appends exactly the rendering of
    its template, or throws [out_of_range] when that does not fit; everything
    known about the modes (numbering of placeholders, agreement with the bound
    parameters, the captured tuple) follows from facts about [template]. *)

From S2P Require Import Prelude Gears QueryAst Dialect SqlGenerator.

Local Open Scope demi_scope.
Import Generator.

(** ** Templates *)

Inductive tok : Type :=
  | Txt (s : string)
  | Ident (s : string)
  | Val (v : FieldValue)
  | Par
  | Lim (limit offset : N).

Module Template.

Definition opt_ident (s : string) : list tok := if decide (s = "") then [] else [Ident s].
Definition alias (a : string) : list tok := if decide (a = "") then [] else [Txt " AS "; Ident a].
Definition qualifier (t : string) : list tok := if decide (t = "") then [] else opt_ident t ++ [Txt "."].

Definition column (c : Column) : list tok :=
  qualifier (col_table c) ++ Ident (col_name c) :: alias (col_alias c).
Definition all_columns (t : string) : list tok := qualifier t ++ [Txt "*"].
Definition column_like (c : ColumnLike) : list tok :=
  match c with CCol c => column c | CAll t => all_columns t end.

Definition table (t : Table) : list tok :=
  match t with
  | TDynamic None => []
  | TDynamic (Some t) => [Ident (table_name t)]
  | TName n | TStatic n _ => opt_ident n
  end.

(** [xs] separated by commas. *)
Fixpoint commas (first : bool) (xs : list (list tok)) : list tok :=
  match xs with
  | [] => []
  | x :: xs' => (if first then [] else [Txt ", "]) ++ x ++ commas false xs'
  end.

Definition flag (b : bool) (t : list tok) : list tok := if b then t else [].

Definition dynamic_field (f : DynamicFieldSchema) : list tok :=
  [Ident (f_name f); Txt " "; Txt (f_db_type f)] ++
  flag (f_is_primary_key f) [Txt " PRIMARY KEY"] ++
  flag (negb (f_is_nullable f) && negb (f_is_primary_key f)) [Txt " NOT NULL"] ++
  flag (f_is_unique f && negb (f_is_primary_key f)) [Txt " UNIQUE"] ++
  flag (bool_decide (f_default_value f ≠ "")) [Txt " DEFAULT "; Txt (f_default_value f)] ++
  flag (f_is_foreign_key f && bool_decide (f_foreign_table f ≠ ""))
    [Txt " REFERENCES "; Ident (f_foreign_table f); Txt "("; Ident (f_foreign_column f); Txt ")"].

Definition static_field (f : StaticField) : list tok :=
  [Ident (sf_name f); Txt " "; Txt (sf_sql_type f)] ++
  flag (sf_is_primary_key f) [Txt " PRIMARY KEY"] ++
  flag (negb (sf_is_nullable f) && negb (sf_is_primary_key f)) [Txt " NOT NULL"] ++
  flag (sf_is_unique f && negb (sf_is_primary_key f)) [Txt " UNIQUE"].

Definition create_columns (t : Table) : list tok :=
  match t with
  | TDynamic (Some t) => Txt " (" :: commas true (map dynamic_field (fields t)) ++ [Txt ")"]
  | TStatic _ fs => Txt " (" :: commas true (map static_field fs) ++ [Txt ")"]
  | TDynamic None | TName _ => []
  end.

Definition cte (name : string) (q : list tok) (recursive : bool) : list tok :=
  Txt "WITH " :: flag recursive [Txt "RECURSIVE "] ++ [Ident name; Txt " AS ("] ++ q ++ [Txt ")"; Txt " "].

Definition when (w : list tok * list tok) : list tok := Txt " WHEN " :: fst w ++ Txt " THEN " :: snd w.

End Template.

Fixpoint template (e : Expr) : list tok :=
  match e with
  | EColumn c => Template.column c
  | EAllColumns t => Template.all_columns t
  | ELiteral v a => Val v :: Template.alias a
  | ENull => [Txt "NULL"]
  | EParam => [Par]
  | EBinary op l r => Txt "(" :: template l ++ Txt (binary_op_text op) :: template r ++ [Txt ")"]
  | EUnary op o =>
      if is_postfix op then template o ++ [Txt (unary_op_text op)]
      else Txt (unary_op_text op) :: template o
  | EBetween o l u => template o ++ Txt " BETWEEN " :: template l ++ Txt " AND " :: template u
  | EInList o vs => template o ++ Txt " IN (" :: Template.commas true (map template vs) ++ [Txt ")"]
  | ESubquery q a => Txt "(" :: template q ++ Txt ")" :: Template.alias a
  | EExists q => Txt "EXISTS (" :: template q ++ [Txt ")"]
  | ECount c d a =>
      Txt "COUNT(" :: Template.flag d [Txt "DISTINCT "] ++
      match c with CAll _ => [Txt "*"] | CCol c => Template.column c end ++
      Txt ")" :: Template.alias a
  | EAggregate fn c a =>
      Txt (aggregate_text fn) :: Template.column_like c ++ Txt ")" :: Template.alias a
  | EOrder c d => Template.column_like c ++ [Txt (order_text d)]
  | ESelect d cs =>
      Txt "SELECT " :: Template.flag d [Txt "DISTINCT "] ++ Template.commas true (map template cs)
  | EFromTable s t a => template s ++ Txt " FROM " :: Template.table t ++ Template.alias a
  | EFromCte s n q r =>
      Template.cte n (template q) r ++ template s ++ Txt " FROM " :: Template.opt_ident n
  | EWhere q c => template q ++ Txt " WHERE " :: template c
  | EGroupByColumns q cs => template q ++ Txt " GROUP BY " :: Template.commas true (map template cs)
  | EGroupByQuery q c => template q ++ Txt " GROUP BY " :: template c
  | EHaving q c => template q ++ Txt " HAVING " :: template c
  | EOrderBy q os => template q ++ Txt " ORDER BY " :: Template.commas true (map template os)
  | ELimit q n o => template q ++ [Lim (size_t n) (size_t o)]
  | EJoin q c t ty a =>
      template q ++ Txt (join_text ty) :: Template.table t ++ Template.alias a ++ Txt " ON " :: template c
  | EInsert t cs rs =>
      Txt "INSERT INTO " :: Template.table t ++
      Txt " (" :: Template.commas true (map (λ c, [Ident c]) cs) ++ Txt ") VALUES " ::
      Template.commas true
        (map (λ row, Txt "(" :: Template.commas true (map (λ v, [Val v]) row) ++ [Txt ")"]) rs)
  | EUpdate t asg =>
      Txt "UPDATE " :: Template.table t ++ Txt " SET " ::
      Template.commas true (map (λ cv, [Ident (fst cv); Txt " = "; Val (snd cv)]) asg)
  | EUpdateWhere u c => template u ++ Txt " WHERE " :: template c
  | EDelete t => Txt "DELETE FROM " :: Template.table t
  | EDeleteWhere d c => template d ++ Txt " WHERE " :: template c
  | ESetOp l r op => template l ++ Txt (set_op_text op) :: template r
  | ECase ws a =>
      Txt "CASE" :: concat (map (λ w, Template.when (template (fst w), template (snd w))) ws) ++
      Txt " END" :: Template.alias a
  | ECaseElse ws e' a =>
      Txt "CASE" :: concat (map (λ w, Template.when (template (fst w), template (snd w))) ws) ++
      Txt " ELSE " :: template e' ++ Txt " END" :: Template.alias a
  | ECte n q r => Template.cte n (template q) r
  | ECreateTable t b =>
      Txt "CREATE TABLE " :: Template.flag b [Txt "IF NOT EXISTS "] ++
      Template.table t ++ Template.create_columns t
  | EDropTable t i c =>
      Txt "DROP TABLE " :: Template.flag i [Txt "IF EXISTS "] ++
      Template.table t ++ Template.flag c [Txt " CASCADE"]
  end.

(** The values an expression captures for the C++ tuple: those of its literals
    ([InsertExpr] and [UpdateExpr] return [no_params()]). *)
Fixpoint captured (e : Expr) : list FieldValue :=
  match e with
  | ELiteral v _ => [v]
  | EBinary _ l r | ESetOp l r _ => captured l ++ captured r
  | EUnary _ o => captured o
  | EBetween o l u => captured o ++ captured l ++ captured u
  | EInList o vs => captured o ++ concat (map captured vs)
  | ESubquery q _ | EExists q | EFromTable q _ _ | ELimit q _ _ | ECte _ q _ => captured q
  | ESelect _ cs => concat (map captured cs)
  | EFromCte s _ q _ => captured q ++ captured s
  | EWhere q c | EGroupByQuery q c | EHaving q c | EJoin q c _ _ _
  | EUpdateWhere q c | EDeleteWhere q c => captured q ++ captured c
  | EGroupByColumns q cs | EOrderBy q cs => captured q ++ concat (map captured cs)
  | ECase ws _ => concat (map (λ w, captured (fst w) ++ captured (snd w)) ws)
  | ECaseElse ws e' _ => concat (map (λ w, captured (fst w) ++ captured (snd w)) ws) ++ captured e'
  | EColumn _ | EAllColumns _ | ENull | EParam | ECount _ _ _ | EAggregate _ _ _ | EOrder _ _
  | EInsert _ _ _ | EUpdate _ _ | EDelete _ | ECreateTable _ _ | EDropTable _ _ _ => []
  end.

(** ** Rendering *)

Section Rendering.
Context {Str SinkT : Type} {HA : Appendable Str} {HP : ParamSink SinkT}.
Context {D : SqlDialect} {DT : SqlDialectText D}.
Variable Mode : ParamMode.

(** Rendering one token from a placeholder counter and a sink. *)
Definition run1 (t : tok) (n : N) (k : SinkT) : string * (N * SinkT) :=
  match t with
  | Txt s => (s, (n, k))
  | Ident s => (quote_text s, (n, k))
  | Val v =>
      match Mode with
      | Inline => (value_text v, (n, k))
      | Tuple => let n' := size_t (n + 1) in (placeholder_text n', (n', k))
      | Sink => let (k', i) := push k v in (placeholder_text i, (n, k'))
      end
  | Par => let n' := size_t (n + 1) in (placeholder_text n', (n', k))
  | Lim l o => (limit_text l o, (n, k))
  end.

Fixpoint run (ts : list tok) (n : N) (k : SinkT) : string * (N * SinkT) :=
  match ts with
  | [] => ("", (n, k))
  | t :: ts' =>
      let '(x, (n1, k1)) := run1 t n k in
      let '(y, nk) := run ts' n1 k1 in
      (x +:+ y, nk)
  end.

Lemma run_app ts us n k :
  run (ts ++ us) n k =
  let '(x, (n1, k1)) := run ts n k in let '(y, nk) := run us n1 k1 in (x +:+ y, nk).
Proof.
  revert n k. induction ts as [|t ts IH]; intros n k; simpl.
  { by destruct (run us n k) as [? [??]]. }
  destruct (run1 t n k) as [x [n1 k1]]. rewrite IH.
  destruct (run ts n1 k1) as [y [n2 k2]]. destruct (run us n2 k2) as [z nk].
  by rewrite string_app_assoc.
Qed.

(** [c] appends the rendering of [ts] and returns [a]; it throws exactly when
    the rendering does not fit. *)
Definition writes {A} (c : V Str SinkT A) (ts : list tok) (a : A) : Prop :=
  ∀ st, str_ok (sql_ st) →
  let '(x, (n', k')) := run ts (param_count_ st) (sink_ st) in
  if room (sql_ st) (String.length x)
  then ∃ s', c st = Ok (a, mkVisitor s' k' n') ∧ str_ok s' ∧ view s' = view (sql_ st) +:+ x ∧
             ∀ m, room s' m = room (sql_ st) (String.length x + m)
  else c st = Throw out_of_range.

Context {HAL : AppendableLaws Str} {HPL : ParamSinkBounded SinkT}.

Lemma writes_ret {A} (a : A) : writes (vret a) [] a.
Proof.
  intros [s k n] Hs. simpl in *. rewrite room_zero by done.
  exists s. rewrite string_app_nil_r. auto.
Qed.

Lemma writes_bind {A B} (c : V Str SinkT A) (d : A → V Str SinkT B) ts us a b :
  writes c ts a → writes (d a) us b → writes (vbind c d) (ts ++ us) b.
Proof.
  intros Hc Hd st Hs. specialize (Hc st Hs). rewrite run_app.
  destruct (run ts (param_count_ st) (sink_ st)) as [x [n1 k1]].
  destruct (room (sql_ st) (String.length x)) eqn:Ex.
  - destruct Hc as (s1 & Hc & Hs1 & Hv1 & Hr1).
    specialize (Hd (mkVisitor s1 k1 n1) Hs1). simpl in Hd.
    unfold vbind. rewrite Hc. simpl.
    destruct (run us n1 k1) as [y [n2 k2]].
    rewrite string_length_app. rewrite Hr1 in Hd.
    destruct (room (sql_ st) (String.length x + String.length y)); [|done].
    destruct Hd as (s2 & Hd & Hs2 & Hv2 & Hr2). exists s2. split_and!; [done|done|..].
    + by rewrite Hv2, Hv1, string_app_assoc.
    + intros m. rewrite Hr2, Hr1. f_equal. lia.
  - unfold vbind. rewrite Hc. simpl.
    destruct (run us n1 k1) as [y [n2 k2]].
    destruct (room (sql_ st) (String.length (x +:+ y))) eqn:Exy; [|done].
    rewrite string_length_app in Exy. apply room_mono in Exy. congruence.
Qed.

Lemma writes_eq {A} (c : V Str SinkT A) ts us a b :
  writes c ts a → ts = us → a = b → writes c us b.
Proof. by intros ? <- <-. Qed.

(** Sequencing after an unconditional or conditional prefix of tokens. *)
Lemma writes_then {B} (c : V Str SinkT unit) (d : V Str SinkT B) ts us vs b :
  writes c ts tt → writes d us b → vs = ts ++ us → writes (vbind c (λ _, d)) vs b.
Proof. intros Hc Hd ->. by eapply writes_bind. Qed.

Lemma writes_emit f t x :
  appends f x → (∀ n k, run1 t n k = (x, (n, k))) → writes (emit f) [t] tt.
Proof.
  intros Hf Ht st Hs. simpl. rewrite Ht. rewrite string_app_nil_r.
  specialize (Hf (sql_ st) Hs). unfold appended in Hf.
  destruct (room (sql_ st) (String.length x)).
  - destruct Hf as (s' & E & Hs' & Hv & Hr). exists s'. unfold emit. rewrite E. auto.
  - unfold emit. by rewrite Hf.
Qed.

Lemma writes_text t : writes (text t) [Txt t] tt.
Proof. by apply writes_emit with t; [apply appends_sv|]. Qed.

Lemma writes_ident i : writes (emit (λ s, quote_identifier s i)) [Ident i] tt.
Proof. by apply writes_emit with (quote_text i); [apply quote_identifier_appends|]. Qed.

Lemma writes_limit l o : writes (visit_limit_impl l o) [Lim (size_t l) (size_t o)] tt.
Proof.
  by apply writes_emit with (limit_text (size_t l) (size_t o));
    [apply (limit_clause_appends Str); apply size_t_lt|].
Qed.

Lemma writes_placeholder n (s : Str) (k : SinkT) c :
  (n < 2 ^ 64)%N → str_ok s →
  let x := placeholder_text n in
  if room s (String.length x)
  then ∃ s', emit (λ s, placeholder s n) (mkVisitor s k c) = Ok (tt, mkVisitor s' k c) ∧ str_ok s' ∧
             view s' = view s +:+ x ∧ ∀ m, room s' m = room s (String.length x + m)
  else emit (λ s, placeholder s n) (mkVisitor s k c) = Throw out_of_range.
Proof.
  intros Hn Hs x. pose proof (placeholder_appends Str n Hn s Hs) as Hf. unfold appended in Hf.
  fold x in Hf. destruct (room s (String.length x)).
  - destruct Hf as (s' & E & Hs' & Hv & Hr). exists s'. unfold emit. simpl. rewrite E. auto.
  - unfold emit. simpl. by rewrite Hf.
Qed.

Lemma writes_par : writes visit_param_placeholder_impl [Par] tt.
Proof.
  intros [s k n] Hs. simpl in *. rewrite string_app_nil_r.
  exact (writes_placeholder (size_t (n + 1)) s k _ (size_t_lt _) Hs).
Qed.

End Rendering.

Section RenderingValues.
Context {Str SinkT : Type} {HA : Appendable Str} {HP : ParamSink SinkT}.
Context {D : SqlDialect} {DT : SqlDialectText D}.
Context {HAL : AppendableLaws Str} {HPL : ParamSinkBounded SinkT}.

Lemma writes_value Mode v : writes (Str := Str) (SinkT := SinkT) Mode (visit_value_impl Mode v) [Val v] tt.
Proof.
  destruct Mode; simpl.
  - by apply writes_emit with (value_text v); [apply format_value_appends|].
  - intros [s k n] Hs. simpl in *. rewrite string_app_nil_r.
    exact (writes_placeholder (size_t (n + 1)) s k _ (size_t_lt _) Hs).
  - intros [s k n] Hs. simpl in *.
    pose proof (push_lt k v) as Hi. unfold vbind, sink_push. cbn.
    destruct (push k v) as [k' i]. simpl in *. rewrite string_app_nil_r.
    by apply (writes_placeholder _ s k').
Qed.

(** *** The callbacks *)

Variable Mode : ParamMode.
Abbreviation writes := (@writes Str SinkT HA HP D DT Mode _).

Lemma writes_if {A} (b : bool) (c d : V Str SinkT A) ts us a :
  writes c ts a → writes d us a → writes (if b then c else d) (if b then ts else us) a.
Proof. by destruct b. Qed.

Lemma writes_opt_ident n : writes (visit_table_name_impl n) (Template.opt_ident n) tt.
Proof.
  unfold visit_table_name_impl, Template.opt_ident.
  case_decide; [apply writes_ret; apply _|apply writes_ident; apply _].
Qed.

Lemma writes_alias a : writes (visit_alias_impl a) (Template.alias a) tt.
Proof.
  unfold visit_alias_impl, Template.alias. case_decide; [apply writes_ret; apply _|].
  exact (writes_bind _ _ _ [_] _ _ _ (writes_text _ _) (writes_ident _ a)).
Qed.

Lemma writes_qualifier t :
  writes (if decide (t = "") then vret tt else vbind (visit_table_name_impl t) (λ _, text "."))
         (Template.qualifier t) tt.
Proof.
  unfold Template.qualifier. case_decide; [apply writes_ret; apply _|].
  exact (writes_bind _ _ _ _ _ _ _ (writes_opt_ident t) (writes_text _ _)).
Qed.

Lemma writes_table t : writes (visit_table_impl t) (Template.table t) tt.
Proof.
  destruct t as [[t|]|n|n fs]; simpl;
    [apply writes_ident; apply _|apply writes_ret; apply _|apply writes_opt_ident..].
Qed.

Lemma writes_when b c ts : writes c ts tt → writes (when_ b c) (Template.flag b ts) tt.
Proof. intros Hc. unfold when_, Template.flag. destruct b; [done|apply writes_ret; apply _]. Qed.

Lemma writes_comma_loop {A} (body : A → V Str SinkT unit) (ts : A → list tok) first xs :
  (∀ x, writes (body x) (ts x) tt) →
  writes (comma_loop body first xs) (Template.commas first (map ts xs)) tt.
Proof.
  intros Hb. revert first. induction xs as [|x xs IH]; intros first; simpl; [apply writes_ret; apply _|].
  eapply writes_then; [apply _| |eapply writes_then; [apply _|apply Hb|apply IH|done]|done].
  destruct first; [apply writes_ret; apply _|apply writes_text; apply _].
Qed.
End RenderingValues.

(** Decompose [writes c ts a] along the binds of [c]; the token lists agree up
    to associativity. *)
Ltac writes_step :=
  first
    [ eassumption | apply writes_ret | apply writes_text | apply writes_ident | apply writes_limit
    | apply writes_par | apply writes_value | apply writes_opt_ident | apply writes_alias
    | apply writes_qualifier | apply writes_table | apply writes_when
    | apply writes_comma_loop; intros | eapply writes_bind ].
Ltac solve_writes :=
  eapply writes_eq;
  [ repeat writes_step; try apply _
  | rewrite <- ?app_assoc; simpl; rewrite ?app_nil_r; try reflexivity
  | try reflexivity ].

(** What a visit returns: the captured values in [Tuple] mode, nothing else. *)
Definition returned (Mode : ParamMode) (e : Expr) : params :=
  match Mode with Tuple => captured e | _ => [] end.

(** Close an equation between returned parameter tuples. *)
Ltac solve_returned Mode :=
  unfold returned, cat_params, capture_param, no_params; destruct Mode; simpl;
  rewrite ?app_nil_r, <- ?app_assoc; reflexivity.

Section Refinement.
Context {Str SinkT : Type} {HA : Appendable Str} {HP : ParamSink SinkT}.
Context {D : SqlDialect} {DT : SqlDialectText D}.
Context {HAL : AppendableLaws Str} {HPL : ParamSinkBounded SinkT}.

Abbreviation wr Mode := (@writes Str SinkT HA HP D DT Mode _).

(** The visit of [e] writes the template of [e]. *)
Definition refines (Mode : ParamMode) (e : Expr) : Prop :=
  wr Mode (visit Mode e) (template e) (returned Mode e).

Lemma writes_column Mode c : wr Mode (visit_Column c) (Template.column c) [].
Proof. unfold visit_Column, visit_column_impl. solve_writes. Qed.

Lemma writes_all_columns Mode t : wr Mode (visit_all_columns_impl t) (Template.all_columns t) tt.
Proof. unfold visit_all_columns_impl. solve_writes. Qed.

Lemma writes_column_like Mode c : wr Mode (visit_ColumnLike c) (Template.column_like c) [].
Proof.
  destruct c; simpl; [apply writes_column|].
  unfold visit_AllColumns. eapply writes_eq; [eapply writes_bind; [apply _|apply writes_all_columns|]|..].
  - apply writes_ret, _.
  - by rewrite app_nil_r.
  - done.
Qed.

Lemma writes_tuple_elements Mode first es :
  Forall (refines Mode) es →
  wr Mode (visit_tuple_elements Mode first (map (visit Mode) es))
     (Template.commas first (map template es))
     (match Mode with Tuple => concat (map captured es) | _ => [] end).
Proof.
  intros Hes. revert first. induction Hes as [|e es He Hes IH]; intros first; simpl.
  { eapply writes_eq; [apply writes_ret, _|done|by destruct Mode]. }
  eapply writes_eq.
  - eapply writes_bind; [apply _|by apply writes_if; [apply writes_ret|apply writes_text]|].
    eapply writes_bind; [apply _|apply He|].
    eapply writes_bind; [apply _|apply IH|apply writes_ret, _].
  - by rewrite app_nil_r.
  - solve_returned Mode.
Qed.

Lemma writes_when_clauses Mode ws :
  Forall (λ w, refines Mode (fst w) ∧ refines Mode (snd w)) ws →
  wr Mode (visit_when_clauses Mode (map (λ w, (visit Mode (fst w), visit Mode (snd w))) ws))
     (concat (map (λ w, Template.when (template (fst w), template (snd w))) ws))
     (match Mode with Tuple => concat (map (λ w, captured (fst w) ++ captured (snd w)) ws) | _ => [] end).
Proof.
  induction 1 as [|[c v] ws [Hc Hv] Hws IH]; simpl.
  { eapply writes_eq; [apply writes_ret, _|done|by destruct Mode]. }
  unfold refines in Hc, Hv. unfold visit_single_when. simpl in *. eapply writes_eq.
  - eapply writes_bind; [apply _|repeat writes_step; apply _|].
    eapply writes_bind; [apply _|apply IH|apply writes_ret, _].
  - unfold Template.when. simpl. by rewrite !app_nil_r, <- !app_assoc.
  - solve_returned Mode.
Qed.

Lemma writes_count_column Mode c :
  wr Mode (match c with CAll _ => visit_all_columns_impl "" | CCol c => vbind (visit_Column c) (λ _, vret tt) end)
     (match c with CAll _ => [Txt "*"] | CCol c => Template.column c end) tt.
Proof.
  destruct c; simpl; [|apply (writes_all_columns Mode "")].
  eapply writes_eq; [eapply writes_bind; [apply _|apply writes_column|apply writes_ret, _]|..]; [|done].
  by rewrite app_nil_r.
Qed.

Lemma writes_dynamic_field Mode f : wr Mode (visit_dynamic_field f) (Template.dynamic_field f) tt.
Proof. unfold visit_dynamic_field. solve_writes. Qed.

Lemma writes_static_field Mode f : wr Mode (visit_static_field f) (Template.static_field f) tt.
Proof. unfold visit_static_field. solve_writes. Qed.

Lemma writes_create_columns Mode t :
  wr Mode (visit_create_table_columns t) (Template.create_columns t) tt.
Proof.
  destruct t as [[t|]|n|n fs]; simpl; try (apply writes_ret, _).
  - eapply writes_eq; [repeat first [apply writes_dynamic_field | writes_step]; apply _|..]; [|done].
    done.
  - eapply writes_eq; [repeat first [apply writes_static_field | writes_step]; apply _|..]; [|done].
    done.
Qed.
End Refinement.

(** [solve_node Mode]: one node of the traversal, unfolded. *)
Ltac node_step :=
  first
    [ apply writes_all_columns | apply writes_column_like | apply writes_column
    | apply writes_count_column | apply writes_create_columns | writes_step ].
Ltac solve_node Mode :=
  eapply writes_eq;
  [ repeat node_step; try apply _
  | simpl; rewrite <- ?app_assoc; simpl; rewrite ?app_nil_r; try reflexivity
  | solve_returned Mode ].

Section Nodes.
Context {Str SinkT : Type} {HA : Appendable Str} {HP : ParamSink SinkT}.
Context {D : SqlDialect} {DT : SqlDialectText D}.
Context {HAL : AppendableLaws Str} {HPL : ParamSinkBounded SinkT}.

Abbreviation refines := (@refines Str SinkT HA HP D DT).

Lemma refines_leaf Mode e :
  match e with
  | EColumn _ | EAllColumns _ | ELiteral _ _ | ENull | EParam | ECount _ _ _
  | EAggregate _ _ _ | EOrder _ _ | EInsert _ _ _ | EUpdate _ _ | EDelete _
  | ECreateTable _ _ | EDropTable _ _ _ => True
  | _ => False
  end → refines Mode e.
Proof.
  unfold SqlTemplate.refines. destruct e; intros He; try done; clear He; simpl.
  - solve_node Mode.
  - unfold visit_AllColumns. solve_node Mode.
  - unfold visit_Literal. solve_node Mode.
  - unfold visit_NullLiteral. solve_node Mode.
  - unfold visit_ParamPlaceholder. solve_node Mode.
  - unfold visit_CountExpr, visit_count_impl, visit_aggregate_end. solve_node Mode. 
  - unfold visit_AggregateExpr, visit_aggregate_end. solve_node Mode.
  - unfold visit_OrderBy. solve_node Mode.
  - unfold visit_InsertExpr, visit_insert_columns, visit_insert_values. solve_node Mode. 
  - unfold visit_UpdateExpr, visit_update_set. solve_node Mode. 
  - unfold visit_DeleteExpr. solve_node Mode.
  - unfold visit_CreateTableExpr, visit_create_table_start. solve_node Mode.
  - unfold visit_DropTableExpr, visit_drop_table_start, visit_drop_table_end. solve_node Mode.
Qed.

Lemma refines_visit Mode e : refines Mode e.
Proof.
  induction e using Expr_ind'; [by apply refines_leaf|..];
    unfold SqlTemplate.refines, Pboth in *; simpl;
    repeat match goal with
    | H : Forall _ ?l |- _ =>
        first [ apply (writes_tuple_elements Mode true) in H | apply (writes_when_clauses Mode) in H ]
    end.
  - unfold visit_BinaryExpr. solve_node Mode.
  - unfold visit_UnaryExpr. destruct (is_postfix op); solve_node Mode.
  - unfold visit_BetweenExpr. solve_node Mode.
  - unfold visit_InListExpr. solve_node Mode.
  - unfold visit_Subquery. solve_node Mode.
  - unfold visit_ExistsExpr. solve_node Mode.
  - unfold visit_SelectExpr, visit_select_start. solve_node Mode.
  - unfold visit_FromTableExpr. solve_node Mode.
  - unfold visit_FromCteExpr, visit_CteExpr, visit_cte_start, Template.cte. solve_node Mode.
  - unfold visit_WhereExpr. solve_node Mode.
  - unfold visit_GroupByColumnExpr. solve_node Mode.
  - unfold visit_GroupByQueryExpr. solve_node Mode.
  - unfold visit_HavingExpr. solve_node Mode.
  - unfold visit_OrderByExpr. solve_node Mode.
  - unfold visit_LimitExpr. solve_node Mode.
  - unfold visit_JoinExpr. solve_node Mode.
  - unfold visit_UpdateWhereExpr. solve_node Mode.
  - unfold visit_DeleteWhereExpr. solve_node Mode.
  - unfold visit_SetOpExpr. solve_node Mode.
  - unfold visit_CaseExpr. solve_node Mode.
  - unfold visit_CaseExprWithElse. solve_node Mode.
  - unfold visit_CteExpr, visit_cte_start, Template.cte. solve_node Mode.
Qed.
End Nodes.
