(* ===== verification/QueryCompiler.v ===== *)
(** * The query compiler

    [QueryCompiler] ([query/compiler/query_compiler.hpp]): the constexpr path
    [compile_static], which writes into an [InlineString<MaxLen>] and returns
    the captured literals as a tuple, and the run-time path [compile_dynamic],
    which writes into a growing string and binds the values through the
    dialect's parameter sink.  The theorems state what a caller gets: the SQL
    text, the placeholder numbering and the parameters that go with it. *)

From S2P Require Import Prelude Gears QueryAst Dialect SqlGenerator SqlTemplate.

Local Open Scope demi_scope.

(** [StaticDefault] and [RuntimeDefault]: the mode that is used on each path
    when the compiler's default mode does not apply there. *)
Definition StaticDefault (DefaultMode : ParamMode) : ParamMode :=
  if decide (DefaultMode = Sink) then Tuple else DefaultMode.
Definition RuntimeDefault (DefaultMode : ParamMode) : ParamMode :=
  if decide (DefaultMode = Tuple) then Sink else DefaultMode.

Record CompiledStaticQuery (MaxLen : nat) := mkStatic {
  static_sql_ : InlineString.t MaxLen;
  static_params_ : params;
}.
Arguments mkStatic {MaxLen} static_sql_ static_params_.
Arguments static_sql_ {MaxLen} _.
Arguments static_params_ {MaxLen} _.

Definition static_sql {MaxLen} (q : CompiledStaticQuery MaxLen) : string :=
  InlineString.view (static_sql_ q).
Definition static_c_sql {MaxLen} (q : CompiledStaticQuery MaxLen) : string :=
  InlineString.c_str (static_sql_ q).
(** [size()]: the number of captured parameters. *)
Definition static_size {MaxLen} (q : CompiledStaticQuery MaxLen) : nat := length (static_params_ q).

Record CompiledDynamicQuery (SinkT : Type) := mkDynamic {
  dynamic_sql : string;
  backend_packet : option SinkT;
  provider : Providers;
}.
Arguments mkDynamic {SinkT} dynamic_sql backend_packet provider.
Arguments dynamic_sql {SinkT} _.
Arguments backend_packet {SinkT} _.
Arguments provider {SinkT} _.

Section Compiler.
Context {D : SqlDialect}.

(** [compile_static]: [requires (Mode != Sink)]; the visitor has no sink. *)
Definition compile_static (Mode : ParamMode) (MaxLen : nat) (e : Expr)
    : result (CompiledStaticQuery MaxLen) :=
  let visitor := mkVisitor (@InlineString.empty MaxLen) tt 0%N in
  let! p := Generator.visit Mode e visitor in
  Ok (mkStatic (sql_ (snd p)) (fst p)).

Section Dynamic.
Context {SinkT : Type} `{ParamSink SinkT}.
(** [DialectT::make_param_sink]: a sink with nothing bound yet. *)
Variable make_param_sink : SinkT.

(** [compile_dynamic]: [requires (Mode != Tuple)]. *)
Definition compile_dynamic (Mode : ParamMode) (e : Expr) : result (CompiledDynamicQuery SinkT) :=
  match Mode with
  | Inline =>
      let! p := Generator.visit Inline e (mkVisitor "" tt 0%N) in
      Ok (mkDynamic (sql_ (snd p)) None dialect_type)
  | _ =>
      let! p := Generator.visit Sink e (mkVisitor "" make_param_sink 0%N) in
      Ok (mkDynamic (sql_ (snd p)) (Some (sink_ (snd p))) dialect_type)
  end.
End Dynamic.
End Compiler.

(** ** What is in a template *)

(** The values of a template, first to last. *)
Fixpoint vals (ts : list tok) : list FieldValue :=
  match ts with
  | [] => []
  | Val v :: ts' => v :: vals ts'
  | _ :: ts' => vals ts'
  end.

(** The number of explicit parameter markers. *)
Fixpoint markers (ts : list tok) : nat :=
  match ts with
  | [] => 0
  | Par :: ts' => S (markers ts')
  | _ :: ts' => markers ts'
  end.

Lemma vals_app ts us : vals (ts ++ us) = vals ts ++ vals us.
Proof. induction ts as [|[]]; simpl; by rewrite ?IHts. Qed.

Lemma markers_app ts us : markers (ts ++ us) = markers ts + markers us.
Proof. induction ts as [|[]]; simpl; by rewrite ?IHts. Qed.

Definition inlines (Mode : ParamMode) : bool := match Mode with Inline => true | _ => false end.

Section Text.
Context {D : SqlDialect} {DT : SqlDialectText D}.

(** The SQL text of a template when [n] placeholders were already given out;
    [inl]: values as literals, not as placeholders. *)
Fixpoint sql_text (inl : bool) (ts : list tok) (n : N) : string :=
  match ts with
  | [] => ""
  | Txt s :: ts' => s +:+ sql_text inl ts' n
  | Ident s :: ts' => quote_text s +:+ sql_text inl ts' n
  | Val v :: ts' =>
      if inl then value_text v +:+ sql_text inl ts' n
      else placeholder_text (n + 1) +:+ sql_text inl ts' (n + 1)
  | Par :: ts' => placeholder_text (n + 1) +:+ sql_text inl ts' (n + 1)
  | Lim l o :: ts' => limit_text l o +:+ sql_text inl ts' n
  end.

(** The number of placeholders a template gives out. *)
Definition slots (inl : bool) (ts : list tok) : N :=
  N.of_nat (markers ts + if inl then 0 else length (vals ts)).

Lemma run_counted {SinkT} `{ParamSink SinkT} Mode ts n (k : SinkT) :
  Mode ≠ Sink → (n + slots (inlines Mode) ts < 2 ^ 64)%N →
  run Mode ts n k =
  (sql_text (inlines Mode) ts n, (n + slots (inlines Mode) ts, k))%N.
Proof.
  intros HM. revert n. induction ts as [|t ts IH]; intros n Hn.
  { simpl. by destruct Mode; rewrite N.add_0_r. }
  destruct t, Mode; cbn -[size_t] in *; try done;
    rewrite ?size_t_small by (unfold slots in Hn; cbn -[size_t] in *; lia);
    rewrite IH by (unfold slots in *; cbn -[size_t] in *; lia); try done;
    f_equal; f_equal; unfold slots; cbn; lia.
Qed.

Lemma run_sink {SinkT Bound} `{ParamSinkLaws SinkT Bound} ts n (k : SinkT) :
  sink_ok k → markers ts = 0 → (N.of_nat (length (bound k) + length (vals ts)) < 2 ^ 64)%N →
  ∃ k', run Sink ts n k = (sql_text false ts (N.of_nat (length (bound k))), (n, k')) ∧
        sink_ok k' ∧ bound k' = bound k ++ map bind_of (vals ts).
Proof.
  revert k. induction ts as [|t ts IH]; intros k Hk Hm Hn.
  { exists k. simpl. by rewrite app_nil_r. }
  destruct t as [s|s|v| |l o]; simpl in *; try done.
  3:{ pose proof (push_bound k v Hk) as Hb. pose proof (push_index k v Hk) as Hi.
      pose proof (push_ok k v Hk) as Hk1.
      destruct (push k v) as [k1 i]. simpl in *. subst i.
      destruct (IH k1) as (k' & -> & Hk' & Hbk'); [done|done|rewrite Hb, length_app; simpl; lia|].
      exists k'. rewrite size_t_small, Hbk', Hb, length_app, <- app_assoc by lia. simpl.
      split; [|done]. do 3 f_equal; f_equal; lia. }
  all: destruct (IH k) as (k' & -> & Hk' & Hbk'); [done|done|lia|]; eauto.
Qed.
End Text.

(** ** INSERT and UPDATE *)

(** [e] has no [InsertExpr] or [UpdateExpr]. *)
Definition no_dml_node (e : Expr) : bool :=
  match e with EInsert _ _ _ | EUpdate _ _ => false | _ => true end.
Definition no_dml_values (e : Expr) : bool := all_nodes no_dml_node e.

Lemma vals_opt_ident n : vals (Template.opt_ident n) = [].
Proof. unfold Template.opt_ident. by case_decide. Qed.
Lemma vals_alias a : vals (Template.alias a) = [].
Proof. unfold Template.alias. by case_decide. Qed.
Lemma vals_qualifier t : vals (Template.qualifier t) = [].
Proof. unfold Template.qualifier. case_decide; [done|]. by rewrite vals_app, vals_opt_ident. Qed.
Lemma vals_table t : vals (Template.table t) = [].
Proof. destruct t as [[]| |]; simpl; auto using vals_opt_ident. Qed.
Lemma vals_flag b ts : vals ts = [] → vals (Template.flag b ts) = [].
Proof. by destruct b. Qed.
Lemma vals_column c : vals (Template.column c) = [].
Proof. unfold Template.column. rewrite vals_app, vals_qualifier. apply vals_alias. Qed.
Lemma vals_column_like c : vals (Template.column_like c) = [].
Proof.
  destruct c; simpl; [apply vals_column|]. unfold Template.all_columns.
  by rewrite vals_app, vals_qualifier.
Qed.

Lemma vals_commas first xs : vals (Template.commas first xs) = concat (map vals xs).
Proof.
  revert first. induction xs as [|x xs IH]; intros first; simpl; [done|].
  rewrite !vals_app, IH. by destruct first.
Qed.

Lemma vals_create_columns t : vals (Template.create_columns t) = [].
Proof.
  assert (∀ xs : list (list tok), Forall (λ x, vals x = []) xs → vals (Template.commas true xs) = [])
    as Hnil.
  { intros xs Hxs. rewrite vals_commas. induction Hxs as [|x xs Hx _ IH]; simpl; by rewrite ?Hx. }
  destruct t as [[t|]|n|n fs]; simpl; try done; rewrite vals_app, Hnil; try done;
    apply List.Forall_map, List.Forall_forall; intros f _;
    unfold Template.dynamic_field, Template.static_field;
    rewrite !vals_app, !vals_flag by done; done.
Qed.

Create Rewrite HintDb vals.
#[export] Hint Rewrite vals_app vals_opt_ident vals_alias vals_qualifier vals_table vals_column
  vals_column_like vals_commas vals_create_columns map_map app_nil_r : vals.

Ltac simpl_vals := repeat progress (simpl; autorewrite with vals).

Lemma concat_map_guarded {A B} (f g : A → list B) (P : A → bool) xs :
  Forall (λ x, P x = true → f x = g x) xs → forallb P xs = true →
  concat (map f xs) = concat (map g xs).
Proof.
  induction 1 as [|x xs Hx _ IH]; simpl; [done|].
  intros [H1 H2]%andb_true_iff. by rewrite Hx, IH.
Qed.

Lemma vals_concat_whens (f : Expr * Expr → list tok * list tok) ws :
  vals (concat (map (λ w, Template.when (f w)) ws)) =
  concat (map (λ w, vals (fst (f w)) ++ vals (snd (f w))) ws).
Proof.
  induction ws as [|w ws IH]; simpl; [done|].
  rewrite !vals_app, IH. simpl. by rewrite <- app_assoc.
Qed.

(** Outside INSERT and UPDATE the captured tuple holds every value of the
    template, in order. *)
Lemma captured_vals e : no_dml_values e = true → vals (template e) = captured e.
Proof.
  unfold no_dml_values. induction e using Expr_ind'.
  { destruct e; simpl in *; intros; try done; unfold Template.flag, Template.all_columns;
      repeat case_match; by simpl_vals. }
  all: simpl; intros Hd; unfold Template.cte, Template.flag.
  all: repeat match goal with H : (_ && _)%bool = true |- _ => apply andb_true_iff in H as [? ?] end.
  all: repeat case_match; simpl_vals; rewrite ?vals_concat_whens; simpl;
    repeat match goal with
      | IH : ?b = true → vals _ = _, H : ?b = true |- _ => rewrite (IH H); clear IH
      end; try done.
  all: repeat match goal with |- _ ++ _ = _ ++ _ => f_equal end.
  all: eapply concat_map_guarded; [|eassumption].
  all: try eassumption.
  all: eapply List.Forall_impl; [|eassumption].
  all: by intros [c v] [Hc Hv] [? ?]%andb_true_iff; simpl in *; rewrite Hc, Hv.
Qed.

(** ** Running the compiler *)

Section CompilerFacts.
Context {D : SqlDialect} {DT : SqlDialectText D}.

Lemma visit_string {SinkT} `{ParamSinkBounded SinkT} Mode e (k : SinkT) :
  let '(x, (n', k')) := run Mode (template e) 0%N k in
  Generator.visit Mode e (mkVisitor "" k 0%N) = Ok (returned Mode e, mkVisitor x k' n').
Proof.
  pose proof (refines_visit (Str := string) Mode e (mkVisitor "" k 0%N) I) as H1.
  simpl in H1. destruct (run Mode (template e) 0%N k) as [x [n' k']].
  destruct H1 as (s' & E & _ & Hv & _). simpl in *. by subst.
Qed.

Lemma compile_static_run Mode MaxLen e :
  let x := fst (run (SinkT := unit) Mode (template e) 0%N tt) in
  if String.length x <=? MaxLen
  then ∃ q, compile_static Mode MaxLen e = Ok q ∧ static_sql q = x ∧
            static_params_ q = returned Mode e ∧ InlineString.terminated (static_sql_ q)
  else compile_static Mode MaxLen e = Throw out_of_range.
Proof.
  pose proof (refines_visit (Str := InlineString.t MaxLen) Mode e
    (mkVisitor InlineString.empty tt 0%N) InlineString.empty_terminated) as H.
  simpl in H. destruct (run Mode (template e) 0%N tt) as [x [n' k']].
  unfold compile_static. simpl in *. destruct (String.length x <=? MaxLen).
  - destruct H as (s' & -> & Hs' & Hv & _). simpl. by eexists.
  - by rewrite H.
Qed.
End CompilerFacts.
