(* ===== verification/SqlLex.v ===== *)
(** * Lexical safety of the generated SQL

    A small SQL lexer that strips string literals and quoted identifiers, and
    the theorem that what it leaves of a generated query does not depend on
    the contents of the identifiers and values in it: neither can end its
    quotes early or add to the code around it.  The lexer covers both settings
    of [standard_conforming_strings]. *)

From S2P Require Import Prelude Gears Bytes QueryAst Dialect PostgresDialect SqlGenerator SqlTemplate QueryCompiler.

(** ** The lexer *)

(** [StrQ] and [IdQ]: just after a quote that closes the literal unless it is
    doubled. *)
Inductive lex_state : Type := Code | Str | StrEsc | StrQ | Id | IdQ.

(** One character in code. *)
Definition lex_code (c : ascii) : lex_state * string :=
  if decide (c = squote) then (Str, String squote "")
  else if decide (c = dquote) then (Id, String dquote "")
  else (Code, String c "").

(** [esc]: a backslash in a string literal escapes the next character. *)
Definition lex_char (esc : bool) (st : lex_state) (c : ascii) : lex_state * string :=
  match st with
  | Code => lex_code c
  | Str =>
      if decide (c = squote) then (StrQ, "")
      else if esc && bool_decide (c = backslash) then (StrEsc, "")
      else (Str, "")
  | StrEsc => (Str, "")
  | StrQ => if decide (c = squote) then (Str, "") else lex_code c
  | Id => if decide (c = dquote) then (IdQ, "") else (Id, "")
  | IdQ => if decide (c = dquote) then (Id, "") else lex_code c
  end.

(** The code of [s], a literal leaving only its opening quote. *)
Fixpoint skeleton (esc : bool) (st : lex_state) (s : string) : lex_state * string :=
  match s with
  | EmptyString => (st, "")
  | String c s' =>
      let (st1, x) := lex_char esc st c in
      let (st2, y) := skeleton esc st1 s' in
      (st2, x +:+ y)
  end.

(** Not inside a literal. *)
Definition closed (st : lex_state) : bool :=
  match st with Code | StrQ | IdQ => true | _ => false end.

Lemma skeleton_app esc st s t :
  skeleton esc st (s +:+ t) =
  let (st1, x) := skeleton esc st s in let (st2, y) := skeleton esc st1 t in (st2, x +:+ y).
Proof.
  revert st. induction s as [|c s IH]; intros st; simpl.
  { by destruct (skeleton esc st t). }
  destruct (lex_char esc st c) as [st1 x]. rewrite IH.
  destruct (skeleton esc st1 s) as [st2 y]. destruct (skeleton esc st2 t) as [st3 z].
  by rewrite string_app_assoc.
Qed.

(** ** Texts *)

Definition not_quote (c : ascii) : bool := bool_decide (c ≠ squote) && bool_decide (c ≠ dquote).
Definition quote_free (s : string) : bool := string_all not_quote s.

Lemma lex_char_plain esc st c :
  closed st = true → not_quote c = true → lex_char esc st c = (Code, String c "").
Proof.
  unfold not_quote. intros Hst [H1 H2]%andb_true_iff. bool_to_prop.
  destruct st; try done; simpl; unfold lex_code; by rewrite ?decide_False.
Qed.

Lemma skeleton_plain esc st s :
  closed st = true → quote_free s = true →
  skeleton esc st s = (if decide (s = "") then st else Code, s).
Proof.
  revert st. induction s as [|c s IH]; intros st Hst Hs; [done|].
  simpl in Hs. apply andb_true_iff in Hs as [Hc Hs]. simpl.
  rewrite lex_char_plain, IH by done. simpl. f_equal. by case_decide.
Qed.

Lemma skeleton_cons esc st c s :
  skeleton esc st (String c s) =
  let (st1, x) := lex_char esc st c in let (st2, y) := skeleton esc st1 s in (st2, x +:+ y).
Proof. done. Qed.

Lemma skeleton_ident esc x : skeleton esc Code (Postgres.ident_literal x) = (IdQ, String dquote "").
Proof.
  assert (skeleton esc Id (Postgres.esc_ident x +:+ String dquote "") = (IdQ, "")) as E.
  { induction x as [|c x IH]; [done|]. cbn [Postgres.esc_ident]. case_decide as Hc;
      rewrite string_app_assoc, skeleton_app; simpl; rewrite ?(decide_False (P := c = dquote)) by done;
      simpl; by rewrite IH. }
  unfold Postgres.ident_literal. rewrite skeleton_cons. simpl. by rewrite E.
Qed.

Lemma skeleton_esc_char esc c : skeleton esc Str (Postgres.esc_char c) = (Str, "").
Proof.
  unfold Postgres.esc_char. case_decide as Hq; [done|]. case_decide as Hb; [by destruct esc|].
  rewrite skeleton_cons. simpl.
  by rewrite decide_False, bool_decide_eq_false_2, andb_false_r.
Qed.

Lemma skeleton_string esc x :
  skeleton esc Code (String squote (Postgres.esc_string x +:+ String squote "")) = (StrQ, String squote "").
Proof.
  assert (skeleton esc Str (Postgres.esc_string x +:+ String squote "") = (StrQ, "")) as E.
  { induction x as [|c x IH]; [done|]. cbn [Postgres.esc_string].
    by rewrite string_app_assoc, skeleton_app, skeleton_esc_char, IH. }
  rewrite skeleton_cons. simpl. by rewrite E.
Qed.

Lemma lex_char_in_string esc c :
  c ≠ squote → c ≠ backslash → lex_char esc Str c = (Str, "").
Proof. intros Hq Hb. simpl. by rewrite decide_False, bool_decide_eq_false_2, andb_false_r. Qed.

Lemma skeleton_hex esc l : skeleton esc Str (Postgres.hex_digits l) = (Str, "").
Proof.
  induction l as [|b l IH]; [done|]. destruct (Postgres.hex_char_plain b) as (H1 & H2 & H3 & H4).
  cbn [Postgres.hex_digits]. rewrite skeleton_cons, lex_char_in_string, skeleton_cons by done.
  by rewrite lex_char_in_string, IH.
Qed.

Lemma skeleton_binary esc l :
  skeleton esc Code (Postgres.format_binary_data l) = (StrQ, String squote "").
Proof.
  assert (skeleton esc Str (Postgres.hex_digits l +:+ String squote "") = (StrQ, "")) as E.
  { by rewrite skeleton_app, skeleton_hex. }
  unfold Postgres.format_binary_data. rewrite !skeleton_cons.
  destruct esc; simpl; by rewrite E.
Qed.

Lemma digits_quote_free l : Forall (λ c, ToString.is_digit c) l → quote_free (string_of_list_ascii l) = true.
Proof.
  induction 1 as [|c l Hc _ IH]; [done|]. unfold quote_free in *. simpl. rewrite IH, andb_true_r.
  apply andb_true_iff; split; apply bool_decide_eq_true; intros ->; done.
Qed.

Lemma numeral_quote_free n : quote_free (ToString.numeral n) = true.
Proof.
  rewrite <- (string_of_list_ascii_of_string (ToString.numeral n)).
  apply digits_quote_free, ToString.numeral_digits.
Qed.

Lemma to_chars_quote_free z : quote_free (to_chars_int z) = true.
Proof. unfold to_chars_int. destruct (z <? 0)%Z; [|apply numeral_quote_free]. apply numeral_quote_free. Qed.

Lemma limit_quote_free l o : quote_free (Postgres.limit_literal l o) = true.
Proof.
  unfold Postgres.limit_literal, quote_free.
  rewrite !string_all_app. fold (quote_free (ToString.numeral l)). rewrite numeral_quote_free.
  destruct (0 <? o)%N; [|done]. rewrite string_all_app.
  fold (quote_free (ToString.numeral o)). by rewrite numeral_quote_free.
Qed.

(** ** Adjacency

    Two quoted tokens are never next to each other in a template: [flow b ts]
    is [None] if they are, and otherwise tells whether [ts] ends in one, when
    what precedes [ts] does according to [b]. *)
Fixpoint flow (b : bool) (ts : list tok) : option bool :=
  match ts with
  | [] => Some b
  | Txt s :: ts' => flow (if decide (s = "") then b else false) ts'
  | (Ident _ | Val _) :: ts' => if b then None else flow true ts'
  | (Par | Lim _ _) :: ts' => flow false ts'
  end.

Lemma flow_app b ts us : flow b (ts ++ us) = flow b ts ≫= λ b', flow b' us.
Proof.
  revert b. induction ts as [|[] ts IH]; intros b; simpl; try done; try apply IH;
    destruct b; try done; apply IH.
Qed.

(** [ts] can follow code and be followed by code. *)
Definition flows (ts : list tok) : Prop := is_Some (flow false ts).

Lemma flows_nil : flows [].
Proof. by eexists. Qed.

Lemma flow_text_after b s ts : s ≠ "" → flow b (Txt s :: ts) = flow false ts.
Proof. intros Hs. simpl. by rewrite decide_False. Qed.

(** After anything that flows, a non-empty text restarts. *)
Lemma flows_app_text ts s us : s ≠ "" → flows ts → flows us → flows (ts ++ Txt s :: us).
Proof.
  unfold flows. intros Hs [b Hb] Hu. rewrite flow_app, Hb. simpl. by rewrite decide_False.
Qed.

Lemma flows_text s us : flows us → flows (Txt s :: us).
Proof. unfold flows. simpl. intros. by case_decide. Qed.

Lemma flows_one t : flows [t].
Proof. destruct t; unfold flows; simpl; [case_decide|..]; by eexists. Qed.

(** [us] starts with a non-empty text, a parameter or nothing. *)
Definition starts_code (us : list tok) : bool :=
  match us with
  | [] => true
  | Txt s :: _ => bool_decide (s ≠ "")
  | (Par | Lim _ _) :: _ => true
  | _ => false
  end.

Lemma flows_app ts us : starts_code us = true → flows ts → flows us → flows (ts ++ us).
Proof.
  unfold flows. intros Hc [b Hb] Hu. rewrite flow_app, Hb. simpl.
  destruct us as [|[s| | | |] us]; simpl in *; try done; bool_to_prop.
  by rewrite decide_False in Hu |- *.
Qed.

Lemma flows_cons_app t ts us : flows (t :: ts) → starts_code us = true → flows us → flows (t :: ts ++ us).
Proof. intros. by apply (flows_app (t :: ts)). Qed.

Lemma starts_alias a : starts_code (Template.alias a) = true.
Proof. unfold Template.alias. by case_decide. Qed.
Lemma starts_alias_app a us : starts_code us = true → starts_code (Template.alias a ++ us) = true.
Proof. unfold Template.alias. by case_decide. Qed.
Lemma flows_alias a : flows (Template.alias a).
Proof. unfold Template.alias. case_decide; by eexists. Qed.
Lemma flows_opt_ident n : flows (Template.opt_ident n).
Proof. unfold Template.opt_ident. case_decide; by eexists. Qed.
Lemma flows_table t : flows (Template.table t).
Proof. destruct t as [[]| |]; simpl; try apply flows_one; try apply flows_nil; apply flows_opt_ident. Qed.
Lemma flow_qualifier t ts : flow false (Template.qualifier t ++ ts) = flow false ts.
Proof.
  unfold Template.qualifier, Template.opt_ident. repeat case_decide; try done.
Qed.
Lemma flows_column c : flows (Template.column c).
Proof.
  unfold flows, Template.column. rewrite flow_qualifier. unfold Template.alias. simpl.
  case_decide; by eexists.
Qed.
Lemma flows_column_like c : flows (Template.column_like c).
Proof.
  destruct c; [apply flows_column|]. unfold flows. simpl. unfold Template.all_columns.
  rewrite flow_qualifier. by eexists.
Qed.
Lemma flows_flag_text b s us : flows us → flows (Template.flag b [Txt s] ++ us).
Proof. destruct b; [apply flows_text|done]. Qed.

Lemma flows_commas first xs :
  Forall flows xs → flows (Template.commas first xs) ∧ starts_code (Template.commas false xs) = true.
Proof.
  intros Hxs. revert first. induction Hxs as [|x xs Hx Hxs IH]; intros first; simpl.
  { split; [apply flows_nil|done]. }
  split; [|done]. destruct (IH false) as [H1 H2].
  destruct first; simpl; [|apply flows_text]; by apply flows_app.
Qed.

Lemma flows_whens (ws : list (list tok * list tok)) us :
  Forall (λ w, flows (fst w) ∧ flows (snd w)) ws → starts_code us = true → flows us →
  flows (concat (map Template.when ws) ++ us) ∧ starts_code (concat (map Template.when ws) ++ us) = true.
Proof.
  intros Hws Hs Hu. induction Hws as [|[c v] ws [Hc Hv] Hws [IH1 IH2]]; simpl; [done|].
  split; [|done]. rewrite <- !app_assoc. apply flows_text, flows_app_text; [done|done|].
  by apply flows_app.
Qed.

(** *** Every template flows *)

Create HintDb flows.
#[export] Hint Resolve flows_nil flows_one flows_text flows_alias starts_alias flows_opt_ident
  flows_table flows_column flows_column_like : flows.

(** The keyword tables have no empty entry. *)
Ltac nonempty := first [ done | match goal with |- _ ?x ≠ "" => by destruct x end ].

(** Peel one construct of a template. *)
Ltac flows_step :=
  first
    [ assumption
    | apply flows_nil | apply flows_one | apply flows_alias | apply flows_opt_ident | apply flows_table
    | apply flows_column | apply flows_column_like | apply flows_text
    | apply flows_flag_text
    | apply flows_app_text; [nonempty| |]
    | apply flows_app; [first [done | apply starts_alias | by apply starts_alias_app]| |]
    | apply flows_commas ].

Lemma flows_dynamic_field f : flows (Template.dynamic_field f).
Proof.
  unfold flows, Template.dynamic_field, Template.flag. simpl.
  repeat case_match; simpl; repeat case_decide; by eexists.
Qed.
Lemma flows_static_field f : flows (Template.static_field f).
Proof.
  unfold flows, Template.static_field, Template.flag. simpl.
  repeat case_match; simpl; repeat case_decide; by eexists.
Qed.

Lemma flows_create_columns t :
  flows (Template.create_columns t) ∧ starts_code (Template.create_columns t) = true.
Proof.
  destruct t as [[t|]|n|n fs]; simpl; split; try done; try apply flows_nil; apply flows_text;
    apply flows_app; try done; try apply flows_one; apply flows_commas;
    apply List.Forall_map, List.Forall_forall; intros f _;
    [apply flows_dynamic_field|apply flows_static_field].
Qed.

Lemma flows_map {A} (f : A → list tok) xs : (∀ x, flows (f x)) → Forall flows (map f xs).
Proof. intros Hf. apply List.Forall_map, List.Forall_forall. auto. Qed.

Lemma flows_leaf e :
  match e with
  | EColumn _ | EAllColumns _ | ELiteral _ _ | ENull | EParam | ECount _ _ _
  | EAggregate _ _ _ | EOrder _ _ | EInsert _ _ _ | EUpdate _ _ | EDelete _
  | ECreateTable _ _ | EDropTable _ _ _ => True
  | _ => False
  end → flows (template e).
Proof.
  destruct e; intros He; try done; clear He; cbn [template].
  - apply flows_column.
  - apply (flows_column_like (CAll table)).
  - apply (flows_app [Val _]); repeat flows_step; apply starts_alias.
  - repeat flows_step.
  - repeat flows_step.
  - destruct column; repeat flows_step.
  - repeat flows_step.
  - repeat flows_step.
  - repeat first [flows_step | apply flows_map; intros].
  - repeat first [flows_step | apply flows_map; intros | by eexists].
  - repeat flows_step.
  - destruct (flows_create_columns table) as [H1 H2].
    apply flows_text, flows_flag_text, flows_app; [done|apply flows_table|done].
  - apply flows_text, flows_flag_text, flows_app; [by destruct cascade|apply flows_table|].
    destruct cascade; repeat flows_step.
Qed.

Lemma flows_forall es : Forall (λ e, flows (template e)) es → Forall flows (map template es).
Proof. intros H. by apply List.Forall_map. Qed.

Lemma flows_cte n q r us :
  flows q → flows us → flows (Template.cte n q r ++ us).
Proof.
  intros Hq Hu. unfold Template.cte. destruct r; simpl; rewrite <- app_assoc; simpl;
    repeat first [assumption | flows_step];
    apply (flows_app [Ident n]); repeat flows_step; done.
Qed.

Lemma flows_case (ws : list (Expr * Expr)) us :
  Forall (Pboth (λ e, flows (template e))) ws → starts_code us = true → flows us →
  flows (concat (map (λ w, Template.when (template (fst w), template (snd w))) ws) ++ us).
Proof.
  intros Hws Hs Hu. rewrite <- (map_map (λ w, (template (fst w), template (snd w))) Template.when).
  apply flows_whens; [|done|done]. by apply List.Forall_map.
Qed.

Lemma flows_template e : flows (template e).
Proof.
  induction e using Expr_ind'; [by apply flows_leaf|..]; cbn [template];
    repeat match goal with H : Forall (λ e, flows _) _ |- _ => apply flows_forall in H end.
  all: try (destruct (is_postfix op)).
  all: try solve [repeat flows_step].
  - by apply flows_cte; repeat flows_step.
  - apply flows_text, flows_case; repeat first [done | flows_step].
  - apply flows_text, flows_case; repeat first [done | flows_step].
Qed.

(** ** Fixed text has no quotes *)

Definition plain_tok (t : tok) : bool := match t with Txt s => quote_free s | _ => true end.
Definition plain (ts : list tok) : bool := forallb plain_tok ts.

(** The column types and defaults that a CREATE TABLE copies verbatim. *)
Definition raw_node (e : Expr) : bool :=
  match e with
  | ECreateTable (TDynamic (Some t)) _ =>
      forallb (λ f, quote_free (f_db_type f) && quote_free (f_default_value f)) (fields t)
  | ECreateTable (TStatic _ fs) _ => forallb (λ f, quote_free (sf_sql_type f)) fs
  | _ => true
  end.

Lemma plain_app ts us : plain (ts ++ us) = plain ts && plain us.
Proof. apply forallb_app. Qed.
Lemma plain_cons t ts : plain (t :: ts) = plain_tok t && plain ts.
Proof. done. Qed.
Lemma plain_flag b ts : plain ts = true → plain (Template.flag b ts) = true.
Proof. by destruct b. Qed.
Lemma plain_alias a : plain (Template.alias a) = true.
Proof. unfold Template.alias. by case_decide. Qed.
Lemma plain_opt_ident n : plain (Template.opt_ident n) = true.
Proof. unfold Template.opt_ident. by case_decide. Qed.
Lemma plain_table t : plain (Template.table t) = true.
Proof. destruct t as [[]| |]; simpl; auto using plain_opt_ident. Qed.
Lemma plain_qualifier t : plain (Template.qualifier t) = true.
Proof. unfold Template.qualifier. case_decide; [done|]. by rewrite plain_app, plain_opt_ident. Qed.
Lemma plain_column c : plain (Template.column c) = true.
Proof. unfold Template.column. by rewrite plain_app, plain_qualifier, plain_cons, plain_alias. Qed.
Lemma plain_all_columns t : plain (Template.all_columns t) = true.
Proof. unfold Template.all_columns. by rewrite plain_app, plain_qualifier. Qed.
Lemma plain_column_like c : plain (Template.column_like c) = true.
Proof. destruct c; [apply plain_column|apply plain_all_columns]. Qed.

Lemma plain_commas first xs : plain (Template.commas first xs) = forallb plain xs.
Proof.
  revert first. induction xs as [|x xs IH]; intros first; [done|]. cbn [Template.commas forallb].
  rewrite !plain_app, IH. by destruct first.
Qed.

Lemma plain_create t b :
  raw_node (ECreateTable t b) = true → plain (Template.create_columns t) = true.
Proof.
  destruct t as [[t|]|n|n fs]; simpl; try done; intros Hraw;
    rewrite plain_app, plain_commas, andb_true_r; simpl;
    apply forallb_forall; intros ? (f & <- & Hf)%in_map_iff;
    rewrite forallb_forall in Hraw; specialize (Hraw f Hf); simpl in Hraw.
  - apply andb_true_iff in Hraw as [H1 H2].
    unfold Template.dynamic_field. rewrite !plain_app, !plain_flag; simpl; by rewrite ?H1, ?H2.
  - unfold Template.static_field. rewrite !plain_app, !plain_flag; simpl; by rewrite ?Hraw.
Qed.

Lemma plain_keywords :
  (∀ op, plain_tok (Txt (Generator.binary_op_text op)) = true) ∧
  (∀ op, plain_tok (Txt (Generator.unary_op_text op)) = true) ∧
  (∀ fn, plain_tok (Txt (Generator.aggregate_text fn)) = true) ∧
  (∀ d, plain_tok (Txt (Generator.order_text d)) = true) ∧
  (∀ ty, plain_tok (Txt (Generator.join_text ty)) = true) ∧
  (∀ op, plain_tok (Txt (Generator.set_op_text op)) = true).
Proof. split_and!; by intros []. Qed.

Lemma forallb_map A B (f : A → B) (P : B → bool) xs : forallb P (map f xs) = forallb (λ x, P (f x)) xs.
Proof. induction xs as [|x xs IH]; simpl; by rewrite ?IH. Qed.

Create Rewrite HintDb plain.
#[export] Hint Rewrite plain_app plain_cons plain_alias plain_opt_ident plain_table plain_qualifier
  plain_column plain_all_columns plain_column_like plain_commas forallb_map andb_true_r : plain.

Lemma forallb_guarded {A} (P Q : A → bool) xs :
  Forall (λ x, P x = true → Q x = true) xs → forallb P xs = true → forallb Q xs = true.
Proof.
  induction 1 as [|x xs Hx _ IH]; simpl; [done|].
  intros [H1 H2]%andb_true_iff. by rewrite Hx, IH.
Qed.

Lemma plain_whens (ws : list (Expr * Expr)) :
  plain (concat (map (λ w, Template.when (template (fst w), template (snd w))) ws)) =
  forallb (λ w, plain (template (fst w)) && plain (template (snd w))) ws.
Proof.
  induction ws as [|w ws IH]; [done|]. cbn [map concat forallb].
  rewrite plain_app, IH. unfold Template.when. rewrite plain_cons, plain_app, plain_cons. done.
Qed.

Lemma forallb_true {A} (xs : list A) (P : A → bool) : (∀ x, P x = true) → forallb P xs = true.
Proof. intros HP. apply forallb_forall. auto. Qed.

Lemma plain_leaf e :
  match e with
  | EColumn _ | EAllColumns _ | ELiteral _ _ | ENull | EParam | ECount _ _ _
  | EAggregate _ _ _ | EOrder _ _ | EInsert _ _ _ | EUpdate _ _ | EDelete _
  | ECreateTable _ _ | EDropTable _ _ _ => True
  | _ => False
  end → raw_node e = true → plain (template e) = true.
Proof.
  destruct plain_keywords as (_ & _ & Hagg & Hord & _ & _).
  destruct e; intros He Hraw; try done; clear He; cbn [template]; autorewrite with plain;
    rewrite ?plain_flag, ?Hagg, ?Hord by done; simpl; try done.
  - by destruct column; autorewrite with plain.
  - rewrite !forallb_true; [done|..]; intros x; [|done]. simpl. autorewrite with plain.
    by apply forallb_true.
  - by apply forallb_true.
  - by apply plain_create in Hraw.
Qed.

Lemma plain_case (ws : list (Expr * Expr)) :
  Forall (Pboth (λ e, all_nodes raw_node e = true → plain (template e) = true)) ws →
  forallb (λ w, all_nodes raw_node (fst w) && all_nodes raw_node (snd w)) ws = true →
  forallb (λ w, plain (template (fst w)) && plain (template (snd w))) ws = true.
Proof.
  intros Hws. apply forallb_guarded. eapply List.Forall_impl; [|exact Hws].
  intros w [Hc Hv] [H1 H2]%andb_true_iff. by rewrite Hc, Hv.
Qed.

Lemma plain_template e : all_nodes raw_node e = true → plain (template e) = true.
Proof.
  destruct plain_keywords as (Hbin & Hun & _ & _ & Hjoin & Hset).
  induction e using Expr_ind'.
  { destruct e; try done; cbn [all_nodes]; rewrite andb_true_r; by apply plain_leaf. }
  all: cbn [all_nodes template raw_node andb]; intros Hall; unfold Template.cte;
    repeat match goal with H : (_ && _)%bool = true |- _ => apply andb_true_iff in H as [? ?] end;
    try (destruct (is_postfix op));
    autorewrite with plain; rewrite ?plain_whens, ?plain_flag, ?Hbin, ?Hun, ?Hjoin, ?Hset by done;
    repeat match goal with
      | IH : ?b = true → plain _ = _, H : ?b = true |- _ => rewrite (IH H); clear IH
      | IH : Forall (λ _, _ → plain _ = _) ?l, H : forallb _ ?l = true |- _ =>
          rewrite (forallb_guarded _ _ _ IH H); clear IH
      end; try done.
  - by rewrite plain_case.
  - by rewrite plain_case.
Qed.

(** ** The main lemma *)

(** The token with the contents of its identifier or text value removed. *)
Definition mask_value (v : FieldValue) : FieldValue :=
  match v with
  | FChar _ | FString _ | FStringView _ => FString ""
  | FBytes _ | FSpan _ => FBytes []
  | _ => v
  end.
Definition mask (t : tok) : tok :=
  match t with
  | Ident _ => Ident ""
  | Val v => Val (mask_value v)
  | t => t
  end.

Section Lexing.
Context (float_chars : Z → Z → string).
(** [std::to_chars] prints digits, signs, points, exponents, [inf] and [nan]. *)
Hypothesis float_chars_plain : ∀ w b, quote_free (float_chars w b) = true.

#[local] Existing Instance Postgres.dialect.
#[local] Existing Instance Postgres.dialect_text.
Abbreviation DT := (Postgres.dialect_text float_chars).
Abbreviation text := (@sql_text (Postgres.dialect float_chars) DT).

(** From code, a value is one literal or one word, whatever its contents. *)
Lemma skeleton_value esc v :
  ∃ st x, closed st = true ∧
    skeleton esc Code (Postgres.value_literal float_chars v) = (st, x) ∧
    skeleton esc Code (Postgres.value_literal float_chars (mask_value v)) = (st, x).
Proof.
  destruct v; simpl;
    try (eexists StrQ, _; split; [done|];
         first [split; [apply (skeleton_string esc)|apply (skeleton_string esc "")]
               |split; [apply (skeleton_binary esc)|apply (skeleton_binary esc [])]]; fail);
    try (rewrite skeleton_plain by (done || apply to_chars_quote_free || apply float_chars_plain);
         eexists _, _; split; [|done]; by case_decide).
  - by eexists Code, _.
  - destruct b; by eexists Code, _.
  - eexists StrQ, _. split; [done|]. split; [|apply (skeleton_string esc "")].
    rewrite <- (string_app_nil_r (Postgres.esc_char c)). apply (skeleton_string esc (String c "")).
Qed.

Lemma skeleton_mask esc inl ts b b' n st :
  flow b ts = Some b' → plain ts = true → closed st = true → (b = false → st = Code) →
  ∃ st' x, closed st' = true ∧
    skeleton esc st (text inl ts n) = (st', x) ∧
    skeleton esc st (text inl (map mask ts) n) = (st', x).
Proof.
  revert b n st. induction ts as [|t ts IH]; intros b n st Hf Hp Hst Hb.
  { by exists st, "". }
  apply andb_true_iff in Hp as [Ht Hp].
  (** A plain piece of text, the same on both sides. *)
  assert (∀ s n' b1, quote_free s = true → flow b1 ts = Some b' →
            (b1 = false → (if decide (s = "") then st else Code) = Code) →
            ∃ st' x, closed st' = true ∧
              skeleton esc st (s +:+ text inl ts n') = (st', x) ∧
              skeleton esc st (s +:+ text inl (map mask ts) n') = (st', x)) as Hplain.
  { intros s n' b1 Hs Hf1 Hb1. rewrite !skeleton_app, !skeleton_plain by done.
    destruct (IH b1 n' (if decide (s = "") then st else Code)) as (st' & x & Hc & E1 & E2);
      [done|done|by case_decide|done|].
    exists st'. eexists. rewrite E1, E2. done. }
  destruct t as [s|s|v| |l o]; simpl in Hf, Ht.
  - apply (Hplain s n _ Ht Hf). by case_decide.
  - destruct b; [done|]. rewrite (Hb eq_refl). cbn [map mask sql_text quote_text Postgres.dialect_text].
    rewrite !skeleton_app. rewrite (skeleton_ident esc s), (skeleton_ident esc "").
    destruct (IH true n IdQ) as (st' & x & Hc & E1 & E2); [done..|].
    exists st'. eexists. rewrite E1, E2. done.
  - destruct b; [done|]. rewrite (Hb eq_refl) in *. cbn [map mask sql_text]. destruct inl.
    + destruct (skeleton_value esc v) as (st1 & x1 & Hc1 & E1 & E2).
      rewrite !skeleton_app. cbn [value_text Postgres.dialect_text]. rewrite E1, E2.
      destruct (IH true n st1) as (st' & x & Hc & E3 & E4); [done..|].
      exists st'. eexists. rewrite E3, E4. done.
    + apply (Hplain _ (n + 1)%N true); [|done|done]. cbn. apply numeral_quote_free.
  - apply (Hplain _ (n + 1)%N false); [|done|done]. cbn. apply numeral_quote_free.
  - apply (Hplain _ n false); [apply limit_quote_free|done|done].
Qed.
End Lexing.
