(* ===== verification/CompilerTheorems.v ===== *)
(** * What the query compiler guarantees

    The theorems about [QueryCompiler] put together from the refinement
    [SqlTemplate], the parameter sink and the lexer, each with an instance on
    a concrete PostgreSQL query. *)

From S2P Require Import Prelude Gears Bytes QueryAst Dialect PostgresDialect PostgresParams SqlGenerator SqlTemplate QueryCompiler SqlLex.

Local Open Scope demi_scope.

(** ** An example query *)

Module Example.
(** A printer for floating-point numbers: the bit pattern. *)
Definition float_chars (w bits : Z) : string := to_chars_int bits.
Definition dialect := Postgres.dialect float_chars.
Definition dialect_text := Postgres.dialect_text float_chars.
Definition sink := params_sink false true.
Definition laws := params_laws false true.

Definition users : Table := TName "users".
(** [SELECT "name" FROM "users" WHERE (("age" > 18) AND ("name" != 'O''Brien'))] *)
Definition query : Expr :=
  EWhere (EFromTable (ESelect false [EColumn (mkColumn "name" "" "")]) users "")
    (EBinary OpAnd
      (EBinary OpGreater (EColumn (mkColumn "age" "" "")) (ELiteral (FInt32 18) ""))
      (EBinary OpNotEqual (EColumn (mkColumn "name" "" "")) (ELiteral (FString "O'Brien") ""))).
Definition other : Expr :=
  EWhere (EFromTable (ESelect false [EColumn (mkColumn "id" "" "")]) users "")
    (EBinary OpAnd
      (EBinary OpGreater (EColumn (mkColumn "age" "" "")) (ELiteral (FInt32 18) ""))
      (EBinary OpNotEqual (EColumn (mkColumn "id" "" "")) (ELiteral (FString "x' OR '1'='1") ""))).
Definition insertion : Expr := EInsert users ["age"] [[FInt32 18]].
End Example.

(** ** The two compilation paths *)

Section Static.
Context {D : SqlDialect} {DT : SqlDialectText D}.

Lemma static_text Mode e :
  Mode ≠ Sink → (slots (inlines Mode) (template e) < 2 ^ 64)%N →
  fst (run (SinkT := unit) Mode (template e) 0%N tt) = sql_text (inlines Mode) (template e) 0%N.
Proof. intros HM Hn. by rewrite run_counted. Qed.

Lemma static_c_str {MaxLen} (q : CompiledStaticQuery MaxLen) :
  InlineString.terminated (static_sql_ q) →
  string_all (λ c, bool_decide (c ≠ InlineString.NUL)) (static_sql q) = true →
  static_c_sql q = static_sql q.
Proof.
  intros Ht Hn. apply InlineString.c_str_view; [done|]. unfold static_sql, InlineString.view in Hn.
  induction (take _ _) as [|c l IH]; [done|]. simpl in Hn.
  apply andb_true_iff in Hn as [Hc Hn]. apply bool_decide_eq_true in Hc. constructor; auto.
Qed.

(** C1: [compile_static] renders the expression's template: when the text fits
    the [InlineString] the result's [sql()] is that text, with the placeholders
    numbered from 1 in [Tuple] mode, and [c_sql()] is the same C string if the
    text has no NUL; otherwise compilation throws [out_of_range] and never
    truncates. *)
Theorem compile_static_correct (Mode : ParamMode) (MaxLen : nat) (e : Expr) :
  Mode ≠ Sink → (slots (inlines Mode) (template e) < 2 ^ 64)%N →
  let x := sql_text (inlines Mode) (template e) 0%N in
  (String.length x ≤ MaxLen →
     ∃ q, compile_static Mode MaxLen e = Ok q ∧ static_sql q = x ∧
          static_params_ q = returned Mode e ∧
          (string_all (λ c, bool_decide (c ≠ InlineString.NUL)) x = true → static_c_sql q = x)) ∧
  (MaxLen < String.length x → compile_static Mode MaxLen e = Throw out_of_range).
Proof.
  intros HM Hn x. pose proof (compile_static_run Mode MaxLen e) as H. cbv zeta in H.
  rewrite (static_text Mode e HM Hn) in H. fold x in H.
  destruct (Nat.leb_spec (String.length x) MaxLen) as [Hle|Hgt]; split; intros; try lia; [|done].
  destruct H as (q & E & Hs & Hp & Ht). exists q. split_and!; [done..|].
  rewrite <- Hs. by apply static_c_str.
Qed.

Lemma static_ok {Mode MaxLen e q} :
  Mode ≠ Sink → (slots (inlines Mode) (template e) < 2 ^ 64)%N →
  compile_static Mode MaxLen e = Ok q →
  static_sql q = sql_text (inlines Mode) (template e) 0%N ∧ static_params_ q = returned Mode e ∧
  InlineString.terminated (static_sql_ q).
Proof.
  intros HM Hn Hq. pose proof (compile_static_run Mode MaxLen e) as H. cbv zeta in H.
  rewrite (static_text Mode e HM Hn), Hq in H.
  destruct (String.length _ <=? MaxLen); [|done]. destruct H as (q' & [= <-] & H). tauto.
Qed.
End Static.

Section Dynamic.
Context {D : SqlDialect} {DT : SqlDialectText D}.
Context {SinkT Bound : Type} {HS : ParamSink SinkT} {HB : ParamSinkBounded SinkT}.
Context {HL : ParamSinkLaws SinkT Bound}.

Lemma dynamic_sink (k0 : SinkT) (e : Expr) :
  sink_ok k0 → bound k0 = [] → markers (template e) = 0 →
  (N.of_nat (length (vals (template e))) < 2 ^ 64)%N →
  ∃ k, compile_dynamic k0 Sink e = Ok (mkDynamic (sql_text false (template e) 0%N) (Some k) dialect_type) ∧
       sink_ok k ∧ bound k = map bind_of (vals (template e)).
Proof.
  intros Hk Hb Hm Hn. pose proof (visit_string Sink e k0) as H.
  destruct (run_sink (template e) 0%N k0) as (k & E & Hok & Hbk); [done|done|by rewrite Hb|].
  rewrite E in H. exists k. unfold compile_dynamic. rewrite H. simpl.
  rewrite Hbk, Hb. done.
Qed.

(** C2: for an expression without explicit placeholders and an empty parameter
    sink, [compile_dynamic] in [Sink] mode always succeeds; the SQL text has the
    placeholders $1, $2, ... in order of appearance, and the packet binds
    exactly the values of the expression, each under its placeholder's number,
    in the backend's form.  (With explicit placeholders numbers collide, see
    [sink_marker_collision].) *)
Theorem compile_dynamic_sink_correct (make_param_sink : SinkT) (e : Expr) :
  sink_ok make_param_sink → bound make_param_sink = [] → markers (template e) = 0 →
  (N.of_nat (length (vals (template e))) < 2 ^ 64)%N →
  ∃ k, compile_dynamic make_param_sink Sink e =
         Ok (mkDynamic (sql_text false (template e) 0%N) (Some k) dialect_type) ∧
       sink_ok k ∧ bound k = map bind_of (vals (template e)).
Proof. apply dynamic_sink. Qed.

(** The two paths on the same expression. *)
Lemma static_dynamic_pair (MaxLen : nat) (k0 : SinkT) (e : Expr) (q : CompiledStaticQuery MaxLen) :
  sink_ok k0 → bound k0 = [] → no_dml_values e = true → markers (template e) = 0 →
  (N.of_nat (length (vals (template e))) < 2 ^ 64)%N →
  compile_static Tuple MaxLen e = Ok q →
  InlineString.terminated (static_sql_ q) ∧
  ∃ k, compile_dynamic k0 Sink e = Ok (mkDynamic (static_sql q) (Some k) dialect_type) ∧
       sink_ok k ∧ bound k = map bind_of (static_params_ q).
Proof.
  intros Hk Hb Hd Hm Hn Hq.
  destruct (dynamic_sink k0 e) as (k & E & Hok & Hbk); [done..|].
  destruct (static_ok (Mode := Tuple) ltac:(done) ltac:(unfold slots; rewrite Hm; exact Hn) Hq)
    as (Hs & Hp & Ht).
  split; [done|]. exists k. split; [by rewrite E, Hs|]. split; [done|].
  rewrite Hbk, Hp. unfold returned. by rewrite captured_vals.
Qed.

(** C3: the constexpr and the run-time path agree: for an expression without
    INSERT or UPDATE values and without explicit placeholders, whenever
    [compile_static] succeeds in [Tuple] mode, [compile_dynamic] in [Sink] mode
    yields the same SQL text, tagged with the dialect's provider, and the tuple of
    the one holds the values the other binds, in the same order. *)
Theorem static_dynamic_agree (MaxLen : nat) (make_param_sink : SinkT) (e : Expr)
    (q : CompiledStaticQuery MaxLen) :
  sink_ok make_param_sink → bound make_param_sink = [] →
  no_dml_values e = true → markers (template e) = 0 →
  (N.of_nat (length (vals (template e))) < 2 ^ 64)%N →
  compile_static Tuple MaxLen e = Ok q →
  ∃ d k, compile_dynamic make_param_sink Sink e = Ok d ∧ dynamic_sql d = static_sql q ∧
         backend_packet d = Some k ∧ bound k = map bind_of (static_params_ q) ∧
         provider d = dialect_type.
Proof.
  intros Hk Hb Hd Hm Hn Hq.
  destruct (static_dynamic_pair MaxLen make_param_sink e q) as (_ & k & E & _ & Hbk); [done..|].
  by eexists _, k.
Qed.

(** A query that mixes values and explicit placeholders gets the same
    number twice in [Sink] mode: [value = ?] compiles to [($1 = $1)], because
    the placeholder counter and the sink's index are independent. *)
Theorem sink_marker_collision (make_param_sink : SinkT) (v : FieldValue) :
  sink_ok make_param_sink → bound make_param_sink = [] →
  ∃ k, compile_dynamic make_param_sink Sink (EBinary OpEqual (ELiteral v "") EParam) =
    Ok (mkDynamic ("(" +:+ placeholder_text 1 +:+ " = " +:+ placeholder_text 1 +:+ ")") (Some k) dialect_type).
Proof.
  intros Hk Hb. pose proof (visit_string Sink (EBinary OpEqual (ELiteral v "") EParam) make_param_sink) as H.
  cbn -[size_t Generator.visit] in H. pose proof (push_index make_param_sink v Hk) as Hi. rewrite Hb in Hi.
  destruct (push make_param_sink v) as [k i]. simpl in Hi. subst i.
  change (size_t 1) with 1%N in H. unfold compile_dynamic. exists k. cbn -[Generator.visit]. rewrite H.
  simpl. by rewrite ?string_app_nil_r.
Qed.
End Dynamic.

(** *** INSERT *)

Lemma markers_table t : markers (Template.table t) = 0.
Proof.
  destruct t as [[]| |]; simpl; try done; unfold Template.opt_ident; by case_decide.
Qed.

Lemma markers_commas first xs :
  Forall (λ x, markers x = 0) xs → markers (Template.commas first xs) = 0.
Proof.
  intros Hxs. revert first. induction Hxs as [|x xs Hx _ IH]; intros first; simpl; [done|].
  rewrite !markers_app, Hx, IH. by destruct first.
Qed.

Lemma markers_map {A} (f : A → list tok) xs :
  (∀ x, markers (f x) = 0) → Forall (λ x, markers x = 0) (map f xs).
Proof. intros Hf. apply List.Forall_map, List.Forall_forall. auto. Qed.

Lemma concat_singletons {A} (l : list A) : concat (map (λ x, [x]) l) = l.
Proof. induction l; simpl; congruence. Qed.

Lemma concat_all_nil {A B} (f : A → list B) xs : (∀ x, f x = []) → concat (map f xs) = [].
Proof. intros Hf. induction xs as [|x xs IH]; simpl; [done|]. by rewrite Hf. Qed.

Lemma insert_slots t columns rows :
  slots false (template (EInsert t columns rows)) = N.of_nat (length (concat rows)).
Proof.
  assert (vals (template (EInsert t columns rows)) = concat rows) as Hv.
  { simpl. simpl_vals. rewrite concat_all_nil by done. simpl. f_equal.
    rewrite <- (map_id rows) at 2. apply map_ext. intros row. simpl_vals. apply concat_singletons. }
  assert (markers (template (EInsert t columns rows)) = 0) as Hm.
  { simpl. rewrite markers_app, markers_table. simpl. rewrite markers_app. simpl.
    rewrite !markers_commas; [done|..]; apply markers_map; intros; [|done].
    simpl. by rewrite markers_app, markers_commas by (by apply markers_map). }
  unfold slots. by rewrite Hv, Hm.
Qed.

(** [compile_static] of an INSERT in [Tuple] mode emits one placeholder per
    value but returns an empty parameter tuple, so the statement cannot be
    executed with the parameters it comes with. *)
Theorem compile_static_insert_params {D : SqlDialect} {DT : SqlDialectText D} (MaxLen : nat)
    (t : Table) (columns : list string) (rows : list (list FieldValue)) (q : CompiledStaticQuery MaxLen) :
  (N.of_nat (length (concat rows)) < 2 ^ 64)%N →
  compile_static Tuple MaxLen (EInsert t columns rows) = Ok q →
  static_sql q = sql_text false (template (EInsert t columns rows)) 0%N ∧
  slots false (template (EInsert t columns rows)) = N.of_nat (length (concat rows)) ∧
  static_size q = 0.
Proof.
  intros Hn Hq. pose proof (insert_slots t columns rows) as Hs.
  rewrite <- Hs in Hn. destruct (static_ok (Mode := Tuple) ltac:(done) Hn Hq) as (H1 & H2 & _).
  split_and!; [done|done|]. unfold static_size. by rewrite H2.
Qed.

(** ** PostgreSQL *)

Section PostgresSafety.
Context (float_chars : Z → Z → string).
Hypothesis float_chars_plain : ∀ w b, quote_free (float_chars w b) = true.

Lemma postgres_skeleton esc inl e n :
  all_nodes raw_node e = true →
  ∃ st x, closed st = true ∧
    skeleton esc Code (@sql_text _ (Postgres.dialect_text float_chars) inl (template e) n) = (st, x) ∧
    skeleton esc Code (@sql_text _ (Postgres.dialect_text float_chars) inl (map mask (template e)) n) = (st, x).
Proof.
  intros Hraw. destruct (flows_template e) as [b' Hf].
  by apply (skeleton_mask float_chars float_chars_plain esc inl _ false b');
    [|apply plain_template|..].
Qed.
End PostgresSafety.

Lemma dynamic_inline {D : SqlDialect} {DT : SqlDialectText D} {SinkT} {HS : ParamSink SinkT}
    (k0 : SinkT) e d :
  (slots true (template e) < 2 ^ 64)%N →
  compile_dynamic k0 Inline e = Ok d → dynamic_sql d = sql_text true (template e) 0%N.
Proof.
  intros Hn Hd. pose proof (visit_string Inline e tt) as H.
  rewrite (run_counted Inline) in H by done. unfold compile_dynamic in Hd. rewrite H in Hd.
  by injection Hd as <-.
Qed.

Lemma markers_mask ts : markers (map mask ts) = markers ts.
Proof. induction ts as [|[] ts IH]; simpl; congruence. Qed.

(** C9: no SQL injection: for the PostgreSQL dialect, two expressions that
    differ only in the contents of their identifiers, strings and byte strings
    compile, with inline values, to SQL with the same code outside quotes, and
    every quote that is opened is closed, under either setting of
    [standard_conforming_strings].  The column types and defaults of a CREATE
    TABLE, which are copied verbatim, must be free of quotes. *)
Theorem compiled_sql_injection_safe (float_chars : Z → Z → string) {SinkT : Type} {HS : ParamSink SinkT}
    (k0 : SinkT) (esc : bool) (e1 e2 : Expr) (d1 d2 : CompiledDynamicQuery SinkT) :
  (∀ w b, quote_free (float_chars w b) = true) →
  all_nodes raw_node e1 = true → all_nodes raw_node e2 = true →
  (slots true (template e1) < 2 ^ 64)%N →
  map mask (template e1) = map mask (template e2) →
  @compile_dynamic (Postgres.dialect float_chars) SinkT HS k0 Inline e1 = Ok d1 →
  @compile_dynamic (Postgres.dialect float_chars) SinkT HS k0 Inline e2 = Ok d2 →
  skeleton esc Code (dynamic_sql d1) = skeleton esc Code (dynamic_sql d2) ∧
  closed (fst (skeleton esc Code (dynamic_sql d1))) = true.
Proof.
  intros Hfl Hr1 Hr2 Hn Hm Hd1 Hd2.
  assert (slots true (template e2) < 2 ^ 64)%N as Hn2.
  { unfold slots in *. by rewrite <- (markers_mask (template e2)), <- Hm, markers_mask. }
  apply (dynamic_inline (DT := Postgres.dialect_text float_chars)) in Hd1, Hd2; [|done..].
  destruct (postgres_skeleton float_chars Hfl esc true e1 0%N Hr1) as (st1 & x1 & Hc & E1 & M1).
  destruct (postgres_skeleton float_chars Hfl esc true e2 0%N Hr2) as (st2 & x2 & _ & E2 & M2).
  rewrite Hd1, Hd2, E1, E2. rewrite Hm, M2 in M1. by rewrite M1.
Qed.

(** ** The statements on concrete queries *)

Lemma example_float_plain w b : quote_free (Example.float_chars w b) = true.
Proof. apply to_chars_quote_free. Qed.

Lemma compile_static_correct_witness :
  let x := @sql_text _ Example.dialect_text false (template Example.query) 0%N in
  (String.length x ≤ 1024 →
     ∃ q, @compile_static Example.dialect Tuple 1024 Example.query = Ok q ∧ static_sql q = x ∧
          static_params_ q = returned Tuple Example.query ∧
          (string_all (λ c, bool_decide (c ≠ InlineString.NUL)) x = true → static_c_sql q = x)) ∧
  (1024 < String.length x → @compile_static Example.dialect Tuple 1024 Example.query = Throw out_of_range).
Proof.
  apply (@compile_static_correct _ Example.dialect_text Tuple 1024 Example.query);
    [discriminate|vm_compute; reflexivity].
Defined.

Lemma compile_dynamic_sink_correct_witness :
  ∃ k, @compile_dynamic Example.dialect _ Example.sink empty_params Sink Example.query =
         Ok (mkDynamic (@sql_text _ Example.dialect_text false (template Example.query) 0%N) (Some k) PostgreSQL) ∧
       params_ok k ∧ bound_params k = map (wire true) [FInt32 18; FString "O'Brien"].
Proof.
  apply (@compile_dynamic_sink_correct _ Example.dialect_text _ _ Example.sink
           (params_bounded false true) Example.laws empty_params Example.query);
    [by repeat split|done|done|vm_compute; reflexivity].
Defined.

Lemma static_dynamic_agree_witness :
  ∃ q, @compile_static Example.dialect Tuple 1024 Example.query = Ok q ∧
  ∃ d k, @compile_dynamic Example.dialect _ Example.sink empty_params Sink Example.query = Ok d ∧
         dynamic_sql d = static_sql q ∧ backend_packet d = Some k ∧
         bound_params k = map (wire true) (static_params_ q) ∧ provider d = PostgreSQL.
Proof.
  eexists. split; [vm_compute; reflexivity|].
  apply (@static_dynamic_agree _ Example.dialect_text _ _ Example.sink
           (params_bounded false true) Example.laws 1024 empty_params Example.query);
    [by repeat split|done|done|done|vm_compute; reflexivity|vm_compute; reflexivity].
Defined.

Lemma sink_marker_collision_witness :
  ∃ k, @compile_dynamic Example.dialect _ Example.sink empty_params Sink
         (EBinary OpEqual (ELiteral (FInt32 7) "") EParam) = Ok (mkDynamic "($1 = $1)" (Some k) PostgreSQL).
Proof.
  apply (@sink_marker_collision _ Example.dialect_text _ _ Example.sink
           (params_bounded false true) Example.laws empty_params (FInt32 7)); [by repeat split|done].
Defined.

Lemma compile_static_insert_params_witness :
  ∃ q, @compile_static Example.dialect Tuple 1024 Example.insertion = Ok q ∧
  static_sql q = @sql_text _ Example.dialect_text false (template Example.insertion) 0%N ∧
  slots false (template Example.insertion) = 1%N ∧ static_size q = 0.
Proof.
  eexists. split; [vm_compute; reflexivity|].
  apply (@compile_static_insert_params _ Example.dialect_text 1024 Example.users ["age"] [[FInt32 18]]);
    [done|vm_compute; reflexivity].
Defined.

Lemma compiled_sql_injection_safe_witness :
  ∃ d1 d2, @compile_dynamic Example.dialect _ Example.sink empty_params Inline Example.query = Ok d1 ∧
    @compile_dynamic Example.dialect _ Example.sink empty_params Inline Example.other = Ok d2 ∧
    skeleton false Code (dynamic_sql d1) = skeleton false Code (dynamic_sql d2) ∧
    closed (fst (skeleton false Code (dynamic_sql d1))) = true.
Proof.
  eexists _, _. split; [vm_compute; reflexivity|]. split; [vm_compute; reflexivity|].
  apply (@compiled_sql_injection_safe Example.float_chars _ Example.sink empty_params false
           Example.query Example.other);
    [apply example_float_plain|done|done|done|done|vm_compute; reflexivity|vm_compute; reflexivity].
Defined.
