(* ===== verification/FloatText.v ===== *)
(** * Floating-point numbers as text in constant evaluation

    The overload of [constexpr_to_string] for floating-point numbers
    ([common/gears/utilities/gears_utils.hpp]), which the PostgreSQL dialect
    uses for a literal when a query is compiled in a constant expression (at run
    time it uses [std::to_chars]).  The arithmetic is IEEE 754 as the Standard
    Library specifies it ([SpecFloat]): every product and difference is rounded
    to nearest even as the code's are. *)

From Stdlib Require Import Floats.SpecFloat.
From S2P Require Import Prelude Gears QueryAst Dialect PostgresDialect SqlGenerator SqlTemplate QueryCompiler SqlLex CompilerTheorems.

Local Open Scope demi_scope.
Local Open Scope Z_scope.

Module FloatText.

Section Format.
(** [std::numeric_limits<FloatT>]: precision and maximal exponent; [max_frac] is
    6 for [float] and 14 otherwise. *)
Context (prec emax : Z) (max_frac : nat).

Definition zero : spec_float := S754_zero false.

(** [static_cast<FloatT>(n)] for an integer, and [FloatT{10}] *)
Definition of_int (n : Z) : spec_float := binary_normalize prec emax n 0 false.
Definition ten : spec_float := of_int 10.

(** Truncation of a finite number. *)
Definition trunc (m : positive) (e : Z) : Z :=
  if 0 <=? e then Zpos m * 2 ^ e else Zpos m / 2 ^ (- e).

(** [static_cast] to an unsigned type of [w] bits: undefined unless the truncated
    value is one of its values. *)
Definition to_unsigned (w : Z) (x : spec_float) : result Z :=
  match x with
  | S754_zero _ => Ok 0
  | S754_finite s m e =>
      let t := if s then - trunc m e else trunc m e in
      if (t <? 0) || (2 ^ w <=? t) then Throw UndefinedBehaviour else Ok t
  | _ => Throw UndefinedBehaviour
  end.

(** The extraction loop; the buffer has its last digit first. *)
Fixpoint digit_loop (n : nat) (frac : spec_float) (frac_buf : list ascii) : result (list ascii) :=
  match n with
  | O => Ok frac_buf
  | S n' =>
      let frac := SFmul prec emax frac ten in
      let! digit := to_unsigned 32 frac in
      let digit := if 9 <? digit then 9 else digit in
      digit_loop n' (SFsub prec emax frac (of_int digit)) (ToString.ascii_digit (Z.to_N digit) :: frac_buf)
  end.

Fixpoint strip_zeros (frac_buf : list ascii) : list ascii :=
  match frac_buf with
  | c :: rest => if Ascii.eqb c "0" then strip_zeros rest else frac_buf
  | [] => []
  end.

Definition constexpr_to_string (val : spec_float) : result string :=
  if negb (SFeqb val val) then Ok "NaN"
  else if SFeqb val (S754_infinity false) then Ok "Infinity"
  else if SFeqb val (S754_infinity true) then Ok "-Infinity"
  else
    let neg := SFltb val zero in
    let result := if neg then "-" else "" in
    let abs_val := if neg then SFopp val else val in
    if SFeqb abs_val zero then Ok (result +:+ "0")
    else
      let! int_part := to_unsigned 64 abs_val in
      let! int_text := ToString.constexpr_to_string (Z.to_N int_part) in
      let result := result +:+ int_text in
      let frac := SFsub prec emax abs_val (of_int int_part) in
      if SFeqb frac zero then Ok result
      else
        let! frac_buf := digit_loop max_frac frac [] in
        match strip_zeros frac_buf with
        | [] => Ok result
        | frac_buf => Ok (result +:+ "." +:+ string_of_list_ascii (rev frac_buf))
        end.
End Format.

(** The two instances the code has. *)
Definition float_to_string : spec_float → result string := constexpr_to_string 24 128 6.
Definition double_to_string : spec_float → result string := constexpr_to_string 53 1024 14.

(** The number a bit pattern of the format denotes: sign, biased exponent,
    fraction. *)
Definition of_bits (prec emax bits : Z) : spec_float :=
  let mw := prec - 1 in
  let s := Z.testbit bits (mw + Z.log2 (2 * emax)) in
  let ex := Z.shiftr bits mw mod (2 * emax) in
  let m := bits mod 2 ^ mw in
  if ex =? 0 then match m with Zpos p => S754_finite s p (emin prec emax) | _ => S754_zero s end
  else if ex =? 2 * emax - 1 then (if m =? 0 then S754_infinity s else S754_nan)
  else match m + 2 ^ mw with Zpos p => S754_finite s p (ex + emin prec emax - 1) | _ => S754_nan end.

(** What [format_floating] appends in constant evaluation; a number whose cast is
    undefined is not a constant expression. *)
Definition chars (w bits : Z) : string :=
  match (if w =? 32 then float_to_string (of_bits 24 128 bits) else double_to_string (of_bits 53 1024 bits)) with
  | Ok s => s
  | Throw _ => ""
  end.

Example float_text_examples :
  map (chars 64) [0x3FF8000000000000; 0xC059000000000000; 0x8000000000000000; 0x7FF0000000000000;
                  0x3FB999999999999A; 0x400921FB54442D18; 0x3E112E0BE826D695; 0xBB67000000000000; 0x43E0000000000000]
  = ["1.5"; "-100"; "0"; "Infinity"; "0.1"; "3.14159265358979"; "0.000000001"; "-0"; "9223372036854775808"].
Proof. vm_compute. reflexivity. Qed.

(** ** Exact arithmetic on scaled integers *)

(** [m * 2 ^ e = k * 2 ^ f] *)
Definition same (m e k f : Z) : Prop := ∀ B, 0 ≤ e + B → 0 ≤ f + B → m * 2 ^ (e + B) = k * 2 ^ (f + B).

Lemma same_intro B m e k f :
  0 ≤ e + B → 0 ≤ f + B → m * 2 ^ (e + B) = k * 2 ^ (f + B) → same m e k f.
Proof.
  intros He Hf H B' He' Hf'. destruct (Z.le_ge_cases B B') as [Hb|Hb].
  - replace (e + B') with (e + B + (B' - B)) by lia. replace (f + B') with (f + B + (B' - B)) by lia.
    rewrite !(Z.pow_add_r 2 _ (B' - B)), !Z.mul_assoc, H by lia. done.
  - replace (e + B) with (e + B' + (B - B')) in H by lia. replace (f + B) with (f + B' + (B - B')) in H by lia.
    rewrite !(Z.pow_add_r 2 _ (B - B')), !Z.mul_assoc in H by lia.
    eapply Z.mul_cancel_r; [|exact H]. apply Z.pow_nonzero; lia.
Qed.

Lemma same_refl m e : same m e m e.
Proof. by intros B. Qed.
Lemma same_sym m e k f : same m e k f → same k f m e.
Proof. intros H B ??. symmetry. by apply H. Qed.
Lemma same_trans m e k f l g : same m e k f → same k f l g → same m e l g.
Proof.
  intros H1 H2. apply (same_intro (Z.abs e + Z.abs f + Z.abs g)); try lia.
  rewrite (H1 (Z.abs e + Z.abs f + Z.abs g)) by lia. apply H2; lia.
Qed.
Lemma same_shift m e n : 0 ≤ n → same (m * 2 ^ n) e m (e + n).
Proof.
  intros Hn. apply (same_intro (Z.abs e)); try lia.
  rewrite <- Z.mul_assoc, <- Z.pow_add_r by lia. f_equal. f_equal. lia.
Qed.
Lemma same_down m e k f : same m e k f → e ≤ f → m = k * 2 ^ (f - e).
Proof. intros H Hef. specialize (H (- e)). rewrite Z.add_opp_diag_r, Z.mul_1_r in H. rewrite H by lia. f_equal. Qed.
Lemma same_mul m e k f n g l h : same m e k f → same n g l h → same (m * n) (e + g) (k * l) (f + h).
Proof.
  intros H1 H2. set (B := Z.abs e + Z.abs f + Z.abs g + Z.abs h).
  apply (same_intro (B + B)); try lia.
  replace (e + g + (B + B)) with ((e + B) + (g + B)) by lia.
  replace (f + h + (B + B)) with ((f + B) + (h + B)) by lia.
  rewrite (Z.pow_add_r 2 (e + B)), (Z.pow_add_r 2 (f + B)) by lia. rewrite (Z.mul_shuffle1 m n), (Z.mul_shuffle1 k l), H1, H2 by lia. done.
Qed.

Lemma digits2_bounds p : 2 ^ (Zpos (digits2_pos p) - 1) ≤ Zpos p < 2 ^ Zpos (digits2_pos p).
Proof.
  induction p as [p IH|p IH|]; cbn [digits2_pos]; [..|done];
    rewrite Pos2Z.inj_succ, Z.pow_succ_r by lia;
    replace (Z.succ (Zpos (digits2_pos p)) - 1) with (Z.succ (Zpos (digits2_pos p) - 1)) by lia;
    rewrite Z.pow_succ_r by lia; lia.
Qed.

Lemma digits2_unique p d : 2 ^ (d - 1) ≤ Zpos p < 2 ^ d → 0 < d → Zpos (digits2_pos p) = d.
Proof.
  intros Hd Hpos. pose proof (digits2_bounds p) as Hb.
  assert (2 ^ (d - 1) < 2 ^ Zpos (digits2_pos p)) as H1 by lia.
  assert (2 ^ (Zpos (digits2_pos p) - 1) < 2 ^ d) as H2 by lia.
  apply Z.pow_lt_mono_r_iff in H1, H2; lia.
Qed.

(** Equal numbers have the same magnitude. *)
Lemma same_digits m e k f : same (Zpos m) e (Zpos k) f → Zpos (digits2_pos m) + e = Zpos (digits2_pos k) + f.
Proof.
  intros H. assert (∀ p g q h, same (Zpos p) g (Zpos q) h → g ≤ h →
    Zpos (digits2_pos p) = Zpos (digits2_pos q) + (h - g)) as Hw.
  { intros p g q h Hs Hgh. apply same_down in Hs; [|done]. pose proof (digits2_bounds q).
    apply digits2_unique; [|lia]. rewrite Hs.
    replace (Zpos (digits2_pos q) + (h - g) - 1) with (Zpos (digits2_pos q) - 1 + (h - g)) by lia.
    rewrite !Z.pow_add_r by lia. pose proof (Z.pow_pos_nonneg 2 (h - g)). nia. }
  destruct (Z.le_ge_cases e f) as [Hl|Hl].
  - rewrite (Hw m e k f) by done. lia.
  - apply same_sym in H. rewrite (Hw k f m e) by done. lia.
Qed.

(** ** Exact operations *)

Lemma iter_pos_nat {A} (g : A → A) p x : SpecFloat.iter_pos g p x = Nat.iter (Pos.to_nat p) g x.
Proof.
  revert x. induction p as [p IH|p IH|]; intros x; cbn [SpecFloat.iter_pos]; [..|done]; rewrite !IH.
  - rewrite <- Nat.iter_add, <- Nat.iter_succ_r. f_equal. lia.
  - rewrite <- Nat.iter_add. f_equal. lia.
Qed.

Lemma shr_exact m n :
  Nat.iter n shr_1 {| shr_m := Zpos m * 2 ^ Z.of_nat n; shr_r := false; shr_s := false |}
  = {| shr_m := Zpos m; shr_r := false; shr_s := false |}.
Proof.
  induction n as [|n IH]; [by rewrite Z.mul_1_r|].
  rewrite Nat.iter_succ_r. rewrite <- IH. f_equal.
  rewrite Nat2Z.inj_succ, Z.pow_succ_r by lia.
  assert (∃ p, Zpos m * 2 ^ Z.of_nat n = Zpos p) as [p Hp].
  { pose proof (Z.pow_pos_nonneg 2 (Z.of_nat n)). destruct (Zpos m * 2 ^ Z.of_nat n) as [|p|p] eqn:E; [nia|by exists p|nia]. }
  rewrite Hp. replace (Zpos m * (2 * 2 ^ Z.of_nat n)) with (Zpos p~0) by lia. done.
Qed.

Section Exact.
Context (prec emax : Z).
Hypothesis Hprec : 0 < prec.

(** Rounding a number that the format has. *)
Lemma round_exact s m e k q :
  same (Zpos m) e (Zpos k) (- q) → Zpos k < 2 ^ prec → emin prec emax ≤ - q →
  Zpos (digits2_pos k) - q ≤ emax → emin prec emax ≤ emax - prec → e ≤ emax - prec →
  ∃ m' e', binary_round_aux prec emax s (Zpos m) e loc_Exact = S754_finite s m' e' ∧ same (Zpos m') e' (Zpos k) (- q).
Proof.
  intros Hs Hk Hq Hx Hee He. pose proof (same_digits _ _ _ _ Hs) as Hd. pose proof (digits2_bounds k) as Hkb.
  assert (Zpos (digits2_pos k) ≤ prec) as Hdk.
  { assert (2 ^ (Zpos (digits2_pos k) - 1) < 2 ^ prec) as H%Z.pow_lt_mono_r_iff by lia; lia. }
  unfold binary_round_aux, shr_fexp. cbn [Zdigits2 shr_record_of_loc].
  set (g := fexp prec emax (Zpos (digits2_pos m) + e)).
  assert (emin prec emax ≤ g ≤ - q ∧ g ≤ emax - prec) as [Hg Hge] by (subst g; unfold fexp; lia).
  destruct (Z.le_gt_cases (g - e) 0) as [Hn|Hn].
  - assert (∀ mrs, shr mrs e (g - e) = (mrs, e)) as Hsh by (intros mrs; destruct (g - e); (done || lia)).
    rewrite Hsh. cbn [shr_m loc_of_shr_record round_nearest_even Zdigits2]. fold g. rewrite Hsh. cbn [shr_m].
    destruct (Z.leb_spec e (emax - prec)); [|lia]. by exists m, e.
  - assert (∃ m1, Zpos m = Zpos m1 * 2 ^ (g - e) ∧ same (Zpos m1) g (Zpos k) (- q)) as (m1 & Hm & Hs1).
    { assert (Zpos m = Zpos k * 2 ^ (- q - g) * 2 ^ (g - e)) as Hm.
      { rewrite <- Z.mul_assoc, <- Z.pow_add_r by lia. rewrite (same_down _ _ _ _ Hs) by lia. f_equal. f_equal. lia. }
      destruct (Zpos k * 2 ^ (- q - g)) as [|m1|m1] eqn:E; [lia| |nia].
      exists m1. split; [done|]. rewrite <- E. replace (- q) with (g + (- q - g)) at 2 by lia. apply same_shift. lia. }
    assert (shr {| shr_m := Zpos m; shr_r := false; shr_s := false |} e (g - e)
            = ({| shr_m := Zpos m1; shr_r := false; shr_s := false |}, g)) as ->.
    { unfold shr. destruct (g - e) as [|n|n] eqn:En; [lia| |lia]. rewrite iter_pos_nat. f_equal; [|lia].
      rewrite Hm, <- (positive_nat_Z n). apply shr_exact. }
    cbn [shr_m loc_of_shr_record round_nearest_even Zdigits2 shr_record_of_loc].
    assert (fexp prec emax (Zpos (digits2_pos m1) + g) = g) as ->.
    { pose proof (same_digits _ _ _ _ Hs1). subst g. f_equal. lia. }
    rewrite Z.sub_diag. cbn [shr shr_m]. destruct (Z.leb_spec g (emax - prec)); [|lia]. by exists m1, g.
Qed.

(** [x] is the number [k / 2 ^ q], and not negative. *)
Definition rep (x : spec_float) (k q : Z) : Prop :=
  match x with
  | S754_zero false => k = 0
  | S754_finite false m e => same (Zpos m) e k (- q)
  | _ => False
  end.

(** The format holds every number [k / 2 ^ q]. *)
Definition fits (k q : Z) : Prop := 0 ≤ k < 2 ^ prec ∧ emin prec emax ≤ - q ∧ prec - q ≤ emax.

Lemma shl_align_same m e g : ∃ m', shl_align m e g = (m', Z.min e g) ∧ same (Zpos m') (Z.min e g) (Zpos m) e.
Proof.
  unfold shl_align. destruct (g - e) as [|d|d] eqn:E.
  - exists m. rewrite Z.min_l by lia. auto using same_refl.
  - exists m. rewrite Z.min_l by lia. auto using same_refl.
  - exists (Pos.iter xO m d). rewrite Z.min_r by lia. split; [done|].
    assert (Zpos (Pos.iter xO m d) = Zpos m * 2 ^ Zpos d) as ->.
    { clear E. induction d as [|d IH] using Pos.peano_ind; [simpl; lia|].
      rewrite Pos.iter_succ, Pos2Z.inj_succ, Z.pow_succ_r by lia. lia. }
    replace e with (g + Zpos d) by lia. apply same_shift. lia.
Qed.

Lemma normalize_exact n e k q :
  0 ≤ n → same n e k (- q) → fits k q → emin prec emax ≤ emax - prec →
  rep (binary_normalize prec emax n e false) k q.
Proof.
  intros Hn Hs (Hk & Hq & Hx) Hee. destruct n as [|m|m]; [| |lia].
  - cbn. specialize (Hs (Z.abs e + Z.abs q)). rewrite Z.mul_0_l in Hs.
    pose proof (Z.pow_pos_nonneg 2 (- q + (Z.abs e + Z.abs q))). nia.
  - destruct k as [|k|k]; [|clear Hn|lia].
    { specialize (Hs (Z.abs e + Z.abs q)). pose proof (Z.pow_pos_nonneg 2 (e + (Z.abs e + Z.abs q))). nia. }
    cbn [binary_normalize]. unfold binary_round. pose proof (same_digits _ _ _ _ Hs) as Hd.
    pose proof (digits2_bounds k).
    assert (Zpos (digits2_pos k) ≤ prec) as Hdk.
    { assert (2 ^ (Zpos (digits2_pos k) - 1) < 2 ^ prec) as H'%Z.pow_lt_mono_r_iff by lia; lia. }
    destruct (shl_align_same m e (fexp prec emax (Zpos (digits2_pos m) + e))) as (m' & -> & Hs').
    destruct (round_exact false m' (Z.min e (fexp prec emax (Zpos (digits2_pos m) + e))) k q) as (m2 & e2 & -> & H2);
      [by eapply same_trans|lia..| |done].
    unfold fexp. lia.
Qed.

Lemma rep_finite_pos m e k q : same (Zpos m) e k (- q) → 0 < k.
Proof.
  intros Hs. specialize (Hs (Z.abs e + Z.abs q)).
  pose proof (Z.pow_pos_nonneg 2 (e + (Z.abs e + Z.abs q))). pose proof (Z.pow_pos_nonneg 2 (- q + (Z.abs e + Z.abs q))).
  nia.
Qed.

Lemma rep_scale x k q n : rep x k q → 0 ≤ n → rep x (k * 2 ^ n) (q + n).
Proof.
  intros Hx Hn. destruct x as [[]|[]| |[] m e]; simpl in *; try done; [lia|].
  eapply same_trans; [exact Hx|]. apply same_sym. replace (- q) with (- (q + n) + n) by lia. by apply same_shift.
Qed.

Lemma sub_exact x y k l q :
  rep x k q → rep y l q → fits (k - l) q → 0 ≤ l → emin prec emax ≤ emax - prec →
  rep (SFsub prec emax x y) (k - l) q.
Proof.
  intros Hx Hy Hf Hl Hee.
  destruct x as [[]|[]| |[] mx ex], y as [[]|[]| |[] my ey]; try done; cbn [SFsub].
  - simpl in *. lia.
  - pose proof (rep_finite_pos _ _ _ _ Hy). simpl in Hx. destruct Hf. lia.
  - simpl in Hy. subst l. by rewrite Z.sub_0_r.
  - destruct (shl_align_same mx ex (Z.min ex ey)) as (mx' & -> & Hsx).
    destruct (shl_align_same my ey (Z.min ex ey)) as (my' & -> & Hsy).
    simpl in Hx, Hy. cbn [fst cond_Zopp].
    replace (Z.min ex (Z.min ex ey)) with (Z.min ex ey) in Hsx by lia.
    replace (Z.min ey (Z.min ex ey)) with (Z.min ex ey) in Hsy by lia.
    pose proof (same_trans _ _ _ _ _ _ Hsx Hx) as Ha. pose proof (same_trans _ _ _ _ _ _ Hsy Hy) as Hb.
    assert (same (Zpos mx' - Zpos my') (Z.min ex ey) (k - l) (- q)) as Hd.
    { intros B H1 H2. rewrite !Z.mul_sub_distr_r, (Ha B), (Hb B) by done. done. }
    apply normalize_exact; [|done..]. destruct Hf as [Hf _].
    specialize (Hd (Z.abs (Z.min ex ey) + Z.abs q)).
    pose proof (Z.pow_pos_nonneg 2 (Z.min ex ey + (Z.abs (Z.min ex ey) + Z.abs q))).
    pose proof (Z.pow_pos_nonneg 2 (- q + (Z.abs (Z.min ex ey) + Z.abs q))). nia.
Qed.

(** Truncation is division. *)
Lemma trunc_rep m e k q : same (Zpos m) e k (- q) → 0 ≤ q → trunc m e = k / 2 ^ q.
Proof.
  intros Hs Hq. unfold trunc. destruct (Z.le_gt_cases (- q) e) as [He|He].
  - apply same_sym, same_down in Hs; [|done]. subst k. destruct (Z.leb_spec 0 e) as [H0|H0].
    + replace (e - - q) with (e + q) by lia. rewrite Z.pow_add_r, Z.mul_assoc, Z.div_mul by lia. done.
    + replace (2 ^ q) with (2 ^ (- e) * 2 ^ (e - - q)) by (rewrite <- Z.pow_add_r by lia; f_equal; lia).
      rewrite Z.div_mul_cancel_r by (apply Z.pow_nonzero; lia). done.
  - apply same_down in Hs; [|lia]. destruct (Z.leb_spec 0 e); [lia|].
    rewrite Hs. replace (2 ^ (- e)) with (2 ^ q * 2 ^ (- q - e)) by (rewrite <- Z.pow_add_r by lia; f_equal; lia).
    apply Z.div_mul_cancel_r; apply Z.pow_nonzero; lia.
Qed.

Lemma to_unsigned_rep w x k q :
  rep x k q → 0 ≤ k → 0 ≤ q → k / 2 ^ q < 2 ^ w → to_unsigned w x = Ok (k / 2 ^ q).
Proof.
  intros Hx Hk Hq Hw. destruct x as [[]|[]| |[] m e]; simpl in Hx; try done; cbn [to_unsigned].
  - subst k. by rewrite Z.div_0_l by (apply Z.pow_nonzero; lia).
  - rewrite (trunc_rep _ _ _ _ Hx Hq). pose proof (Z.div_pos k (2 ^ q)).
    pose proof (Z.pow_pos_nonneg 2 q). destruct (Z.ltb_spec (k / 2 ^ q) 0); [lia|].
    by destruct (Z.leb_spec (2 ^ w) (k / 2 ^ q)); [lia|].
Qed.

Lemma rep_zero x k q : rep x k q → SFeqb x zero = (k =? 0).
Proof.
  intros Hx. destruct x as [[]|[]| |[] m e]; simpl in Hx; try done; [by subst k|].
  pose proof (rep_finite_pos _ _ _ _ Hx). by destruct (Z.eqb_spec k 0); [lia|].
Qed.
End Exact.

(** ** The text is the truncated decimal expansion *)

(** The first [n] decimals of [k / 2 ^ q < 1]. *)
Fixpoint decimals (n : nat) (k q : Z) : list Z :=
  match n with
  | O => []
  | S n' => 10 * k / 2 ^ q :: decimals n' ((10 * k) mod 2 ^ q) q
  end.

Definition decimal_text (n : nat) (k q : Z) : string :=
  match strip_zeros (rev ((λ d, ToString.ascii_digit (Z.to_N d)) <$> decimals n k q)) with
  | [] => ""
  | ds => "." +:+ string_of_list_ascii (rev ds)
  end.

(** The decimals together are the integer part of [k * 10 ^ n / 2 ^ q]. *)
Lemma decimals_value n k q :
  0 ≤ k < 2 ^ q → 0 ≤ q → foldl (λ acc d, acc * 10 + d) 0 (decimals n k q) = k * 10 ^ Z.of_nat n / 2 ^ q.
Proof.
  intros Hk Hq. assert (∀ acc, foldl (λ acc d, acc * 10 + d) acc (decimals n k q)
    = acc * 10 ^ Z.of_nat n + k * 10 ^ Z.of_nat n / 2 ^ q) as ->; [|lia].
  revert k Hk. induction n as [|n IH]; intros k Hk acc.
  { cbn [decimals foldl]. rewrite !Z.mul_1_r, Z.div_small by done. lia. }
  pose proof (Z.mod_pos_bound (10 * k) (2 ^ q)) as Hm. cbn [decimals foldl]. rewrite IH by lia.
  rewrite Nat2Z.inj_succ, Z.pow_succ_r by lia.
  pose proof (Z.div_mod (10 * k) (2 ^ q)) as Hd.
  replace (k * (10 * 10 ^ Z.of_nat n))
    with ((10 * k) mod 2 ^ q * 10 ^ Z.of_nat n + (10 * k / 2 ^ q * 10 ^ Z.of_nat n) * 2 ^ q) by nia.
  rewrite Z.div_add by lia. lia.
Qed.

Lemma decimals_scale n k q : 0 ≤ q → decimals n (2 * k) (q + 1) = decimals n k q.
Proof.
  intros Hq. revert k. induction n as [|n IH]; intros k; [done|]. cbn [decimals].
  pose proof (Z.pow_pos_nonneg 2 q). replace (2 ^ (q + 1)) with (2 * 2 ^ q) by (rewrite Z.pow_add_r by lia; lia).
  replace (10 * (2 * k)) with (2 * (10 * k)) by lia.
  rewrite Z.div_mul_cancel_l by lia. rewrite Z.mul_mod_distr_l by lia. by rewrite IH.
Qed.

Lemma decimals_step n k q :
  1 ≤ q → decimals (S n) k q = 5 * k / 2 ^ (q - 1) :: decimals n ((5 * k) mod 2 ^ (q - 1)) (q - 1).
Proof.
  intros Hq. cbn [decimals]. pose proof (Z.pow_pos_nonneg 2 (q - 1)).
  assert (2 ^ q = 2 * 2 ^ (q - 1)) as E by (rewrite <- Z.pow_succ_r by lia; f_equal; lia).
  replace (10 * k) with (2 * (5 * k)) by lia. rewrite E, Z.div_mul_cancel_l, Z.mul_mod_distr_l by lia.
  f_equal. rewrite <- (decimals_scale n _ (q - 1)) by lia. f_equal. lia.
Qed.

Lemma decimals_zero n q : decimal_text n 0 q = "".
Proof.
  unfold decimal_text. assert (decimals n 0 q = repeat 0 n) as ->.
  { induction n as [|n IH]; [done|]. cbn [decimals repeat]. rewrite Z.mul_0_r, Zdiv_0_l, Zmod_0_l, IH. done. }
  assert (rev ((λ d, ToString.ascii_digit (Z.to_N d)) <$> repeat 0 n) = repeat "0"%char n) as ->.
  { rewrite <- (rev_repeat n "0"%char). f_equal. induction n as [|n IH]; [done|]. cbn. by f_equal. }
  assert (strip_zeros (repeat "0"%char n) = []) as -> by (induction n; done). done.
Qed.

Section Text.
Context (prec emax : Z) (max_frac : nat).
Hypothesis Hfmt : 8 ≤ prec ∧ prec + 64 ≤ emax ∧ Z.of_nat max_frac + 3 ≤ prec.

Lemma emin_small : emin prec emax ≤ - prec - 61.
Proof. unfold emin. lia. Qed.

Lemma rep_same x k q l r : rep x k q → same k (- q) l (- r) → rep x l r.
Proof.
  intros Hx Hs. destruct x as [[]|[]| |[] m e]; simpl in *; try done; [|by eapply same_trans].
  subst k. specialize (Hs (Z.abs q + Z.abs r)). pose proof (Z.pow_pos_nonneg 2 (- r + (Z.abs q + Z.abs r))). nia.
Qed.

Lemma of_int_rep n k q : 0 ≤ n → same n 0 k (- q) → fits prec emax k q → rep (of_int prec emax n) n 0.
Proof.
  intros Hn Hs Hf. eapply rep_same; [|apply same_sym; exact Hs].
  apply normalize_exact; [lia|done..|]. pose proof emin_small. lia.
Qed.

Lemma of_int_small n : 0 ≤ n < 2 ^ prec → rep (of_int prec emax n) n 0.
Proof.
  intros Hn. apply (of_int_rep n n 0); [lia|apply same_refl|]. pose proof emin_small. unfold fits. lia.
Qed.

Lemma mul_ten_exact x k q :
  rep x k q → 0 ≤ k < 2 ^ q → 1 ≤ q ≤ prec - 3 → rep (SFmul prec emax x (ten prec emax)) (5 * k) (q - 1).
Proof.
  intros Hx Hk Hq. pose proof emin_small as Hem.
  assert (2 ^ 8 ≤ 2 ^ prec) as Hp by (apply Z.pow_le_mono_r; lia).
  pose proof (of_int_small 10 ltac:(lia)) as Ht. unfold ten in *.
  destruct (of_int prec emax 10) as [[]|[]| |[] mt et]; simpl in Ht; try done.
  destruct x as [[]|[]| |[] m e]; simpl in Hx; try done; [simpl; lia|].
  pose proof (rep_finite_pos _ _ _ _ Hx) as Hkp.
  assert (same (Zpos mt) et 5 1) as Ht5 by (eapply same_trans; [exact Ht|apply (same_shift 5 0 1); lia]).
  assert (et ≤ 1) as Het.
  { destruct (Z.le_gt_cases et 1) as [|Hgt]; [done|]. apply same_sym, same_down in Ht5; [|lia].
    replace (et - 1) with (Z.succ (et - 2)) in Ht5 by lia. rewrite Z.pow_succ_r in Ht5 by lia. lia. }
  assert (e < 0) as He.
  { destruct (Z.lt_ge_cases e 0) as [|Hge]; [done|]. apply same_sym, same_down in Hx; [|lia].
    assert (2 ^ q ≤ 2 ^ (e - - q)) by (apply Z.pow_le_mono_r; lia). nia. }
  cbn [SFmul]. destruct (5 * k) as [|k5|k5] eqn:E5; [lia| |lia].
  assert (2 ^ q ≤ 2 ^ (prec - 3)) by (apply Z.pow_le_mono_r; lia).
  assert (2 ^ prec = 8 * 2 ^ (prec - 3)) as Epr.
  { replace prec with (3 + (prec - 3)) at 1 by lia. rewrite Z.pow_add_r by lia. done. }
  assert (Zpos (digits2_pos k5) ≤ prec) as Hd.
  { pose proof (digits2_bounds k5). assert (2 ^ (Zpos (digits2_pos k5) - 1) < 2 ^ prec) as H'%Z.pow_lt_mono_r_iff by lia; lia. }
  destruct (round_exact prec emax ltac:(lia) (xorb false false) (m * mt) (e + et) k5 (q - 1))
    as (m' & e' & -> & Hs); [|lia..|done].
  rewrite Pos2Z.inj_mul, <- E5. pose proof (same_mul _ _ _ _ _ _ _ _ Hx Ht5) as Hm.
  replace (- (q - 1)) with (- q + 1) by lia. by rewrite (Z.mul_comm 5).
Qed.

Lemma digit_loop_exact n frac k q buf :
  rep frac k q → 0 ≤ k < 2 ^ q → Z.of_nat n ≤ q ≤ prec - 3 →
  digit_loop prec emax n frac buf
  = Ok (rev ((λ d, ToString.ascii_digit (Z.to_N d)) <$> decimals n k q) ++ buf).
Proof.
  revert frac k q buf. induction n as [|n IH]; intros frac k q buf Hx Hk Hq; [done|].
  pose proof emin_small as Hem. cbn [digit_loop].
  pose proof (mul_ten_exact _ _ _ Hx Hk ltac:(lia)) as Hm.
  pose proof (Z.pow_pos_nonneg 2 (q - 1)) as Hpos.
  assert (2 ^ q = 2 * 2 ^ (q - 1)) as E by (rewrite <- Z.pow_succ_r by lia; f_equal; lia).
  assert (0 ≤ 5 * k / 2 ^ (q - 1) < 10) as Hd.
  { split; [apply Z.div_pos; lia|]. apply Z.div_lt_upper_bound; lia. }
  rewrite (to_unsigned_rep 32 _ (5 * k) (q - 1)) by (done || lia). cbn [rbind].
  destruct (Z.ltb_spec 9 (5 * k / 2 ^ (q - 1))); [lia|].
  rewrite decimals_step by lia. rewrite (IH _ ((5 * k) mod 2 ^ (q - 1)) (q - 1)); [..|lia].
  - cbn [fmap list_fmap rev]. by rewrite <- app_assoc.
  - assert (2 ^ 8 ≤ 2 ^ prec) by (apply Z.pow_le_mono_r; lia).
    assert (2 ^ (q - 1) ≤ 2 ^ prec) by (apply Z.pow_le_mono_r; lia).
    pose proof (Z.mod_pos_bound (5 * k) (2 ^ (q - 1))). pose proof (Z.div_mod (5 * k) (2 ^ (q - 1))).
    replace ((5 * k) mod 2 ^ (q - 1)) with (5 * k - 5 * k / 2 ^ (q - 1) * 2 ^ (q - 1)) by lia.
    apply sub_exact; [lia|done| |unfold fits; lia|lia|lia].
    apply (rep_scale _ _ 0); [|lia]. apply of_int_small. lia.
  - apply Z.mod_pos_bound. lia.
Qed.

Definition sign_text (s : bool) : string := if s then "-" else "".

(** The integer part is a number of the format, and the difference is exact. *)
Lemma int_part_rep m e k q :
  Zpos m < 2 ^ prec → same (Zpos m) e k (- q) → 0 ≤ q → k / 2 ^ q < 2 ^ 64 →
  rep (of_int prec emax (k / 2 ^ q)) (k / 2 ^ q) 0.
Proof.
  intros Hm Hs Hq Hi. pose proof emin_small as Hem. pose proof (rep_finite_pos _ _ _ _ Hs) as Hk.
  pose proof (Z.pow_pos_nonneg 2 q ltac:(lia) Hq) as Hpq.
  pose proof (trunc_rep _ _ _ _ Hs Hq) as Ht. unfold trunc in Ht.
  destruct (Z.leb_spec 0 e) as [He|He].
  - apply (of_int_rep _ (Zpos m) (- e)); [apply Z.div_pos; lia| |].
    + rewrite <- Ht, Z.opp_involutive. apply (same_shift _ 0). done.
    + unfold fits. split; [lia|]. split; [lia|].
      assert (2 ^ e < 2 ^ 64) as H'%Z.pow_lt_mono_r_iff by nia; lia.
  - apply of_int_small. rewrite <- Ht. split; [apply Z.div_pos; lia|].
    apply Z.div_lt_upper_bound; [lia|]. pose proof (Z.pow_pos_nonneg 2 (- e)). nia.
Qed.

Lemma frac_rep m e k (q := prec - 3) :
  Zpos m < 2 ^ prec → same (Zpos m) e k (- q) → k / 2 ^ q < 2 ^ 64 →
  rep (SFsub prec emax (S754_finite false m e) (of_int prec emax (k / 2 ^ q))) (k mod 2 ^ q) q.
Proof.
  intros Hm Hs Hi. assert (0 ≤ q) as Hq by (subst q; lia). pose proof emin_small as Hem.
  pose proof (rep_finite_pos _ _ _ _ Hs) as Hk. pose proof (Z.pow_pos_nonneg 2 q ltac:(lia) Hq) as Hpq.
  pose proof (Z.div_mod k (2 ^ q)) as Hdm. pose proof (Z.mod_pos_bound k (2 ^ q) Hpq) as Hmod.
  assert (2 ^ q ≤ 2 ^ prec) by (subst q; apply Z.pow_le_mono_r; lia).
  replace (k mod 2 ^ q) with (k - k / 2 ^ q * 2 ^ q) by lia.
  apply sub_exact; [lia|done| | |apply Z.mul_nonneg_nonneg; [apply Z.div_pos|]; lia|lia].
  - apply (rep_scale _ _ 0); [|done]. by eapply int_part_rep.
  - unfold fits. subst q. lia.
Qed.

(** What the tests before the conversion do on a finite number. *)
Lemma finite_text s m e :
  constexpr_to_string prec emax max_frac (S754_finite s m e) =
    (let! int_part := to_unsigned 64 (S754_finite false m e) in
     let! int_text := ToString.constexpr_to_string (Z.to_N int_part) in
     let result := sign_text s +:+ int_text in
     let frac := SFsub prec emax (S754_finite false m e) (of_int prec emax int_part) in
     if SFeqb frac zero then Ok result
     else
       let! frac_buf := digit_loop prec emax max_frac frac [] in
       match strip_zeros frac_buf with
       | [] => Ok result
       | ds => Ok (result +:+ "." +:+ string_of_list_ascii (rev ds))
       end).
Proof.
  unfold constexpr_to_string.
  assert (SFeqb (S754_finite s m e) (S754_finite s m e) = true) as ->.
  { unfold SFeqb, SFcompare. rewrite Z.compare_refl.
    change (Pos.compare_cont Eq m m) with (m ?= m)%positive. rewrite Pos.compare_refl. by destruct s. }
  destruct s; reflexivity.
Qed.

(** A number on the grid of [2 ^ -(prec - 3)] whose integer part fits 64 bits is
    printed as its decimal expansion, cut after [max_frac] decimals: no rounding
    error reaches the text. *)
Lemma grid_text s m e k (q := prec - 3) :
  Zpos m < 2 ^ prec → same (Zpos m) e k (- q) → k / 2 ^ q < 2 ^ 64 →
  constexpr_to_string prec emax max_frac (S754_finite s m e)
  = Ok (sign_text s +:+ ToString.numeral (Z.to_N (k / 2 ^ q)) +:+ decimal_text max_frac (k mod 2 ^ q) q).
Proof.
  intros Hm Hs Hi. pose proof (rep_finite_pos _ _ _ _ Hs) as Hk.
  pose proof (frac_rep m e k Hm Hs Hi) as Hf. fold q in Hf.
  pose proof (Z.pow_pos_nonneg 2 q). pose proof (Z.mod_pos_bound k (2 ^ q)). pose proof (Z.div_pos k (2 ^ q)).
  rewrite finite_text, (to_unsigned_rep 64 _ k q) by (done || (subst q; lia)). cbn [rbind].
  rewrite ToString.constexpr_to_string_numeral by lia. cbn [rbind].
  rewrite (rep_zero _ _ _ Hf). destruct (Z.eqb_spec (k mod 2 ^ q) 0) as [->|Hne].
  { by rewrite decimals_zero, string_app_nil_r. }
  rewrite (digit_loop_exact _ _ _ q) by (done || (subst q; lia)). cbn [rbind]. unfold decimal_text.
  rewrite app_nil_r. destruct (strip_zeros _) as [|c ds]; [by rewrite string_app_nil_r|].
  by rewrite !string_app_assoc.
Qed.

(** A larger number has no text: the cast is undefined. *)
Lemma large_text s m e :
  2 ^ 64 ≤ trunc m e → constexpr_to_string prec emax max_frac (S754_finite s m e) = Throw UndefinedBehaviour.
Proof.
  intros Ht. rewrite finite_text. cbn [to_unsigned]. destruct (Z.leb_spec (2 ^ 64) (trunc m e)); [|lia].
  by rewrite orb_true_r.
Qed.
End Text.

(** ** The two formats *)

(** [float] and [double]. *)
Definition text_format (prec emax : Z) (max_frac : nat) : Prop :=
  (prec, emax, max_frac) = (24, 128, 6%nat) ∨ (prec, emax, max_frac) = (53, 1024, 14%nat).

(** Every number of the format from 4 on is on the grid. *)
Lemma grid_from_four prec emax m e :
  0 < prec → bounded prec emax m e = true → 4 ≤ trunc m e → emin prec emax < 3 - prec →
  ∃ k, same (Zpos m) e k (- (prec - 3)).
Proof.
  intros Hp Hb H4 He. apply andb_true_iff in Hb as [Hc%Z.eqb_eq _]. pose proof (digits2_bounds m) as Hd.
  assert (3 - prec ≤ e) as Hge.
  { unfold fexp in Hc. unfold trunc in H4. destruct (Z.leb_spec 0 e) as [|Hneg].
    - assert (3 ≤ Zpos (digits2_pos m) + e); [|lia].
      assert (2 ^ 2 < 2 ^ (Zpos (digits2_pos m) + e)) as H'%Z.pow_lt_mono_r_iff; [|lia..].
      rewrite Z.pow_add_r by lia. pose proof (Z.pow_pos_nonneg 2 e). nia.
    - assert (4 * 2 ^ (- e) ≤ Zpos m) as H'.
      { pose proof (Z.mul_div_le (Zpos m) (2 ^ (- e))). pose proof (Z.pow_pos_nonneg 2 (- e)). nia. }
      assert (2 ^ (2 - e) < 2 ^ Zpos (digits2_pos m)) as H2%Z.pow_lt_mono_r_iff; [|lia..].
      replace (2 - e) with (2 + - e) by lia. rewrite Z.pow_add_r by lia. lia. }
  exists (Zpos m * 2 ^ (e + (prec - 3))).
  apply (same_intro (prec - 3)); [lia..|]. replace (- (prec - 3) + (prec - 3)) with 0 by lia. lia.
Qed.

(** C11: The text of a finite number in constant evaluation is its sign, its integer
    part and the first 6 ([float]) or 14 ([double]) decimals of its exact
    expansion without trailing zeros, for every number on the grid of
    [2 ^ -(prec - 3)] below [2 ^ 64], which includes every number from 4 on; the
    number the decimals make is the integer part of the scaled fraction.  From
    [2 ^ 64] on the conversion is undefined. *)
Theorem float_text_truncates prec emax max_frac s m e :
  text_format prec emax max_frac → bounded prec emax m e = true →
  let q := prec - 3 in
  (∀ k, same (Zpos m) e k (- q) → k / 2 ^ q < 2 ^ 64 →
     constexpr_to_string prec emax max_frac (S754_finite s m e)
       = Ok (sign_text s +:+ ToString.numeral (Z.to_N (k / 2 ^ q)) +:+ decimal_text max_frac (k mod 2 ^ q) q) ∧
     foldl (λ acc d, acc * 10 + d) 0 (decimals max_frac (k mod 2 ^ q) q)
       = (k mod 2 ^ q) * 10 ^ Z.of_nat max_frac / 2 ^ q) ∧
  (4 ≤ trunc m e → ∃ k, same (Zpos m) e k (- q)) ∧
  (2 ^ 64 ≤ trunc m e → constexpr_to_string prec emax max_frac (S754_finite s m e) = Throw UndefinedBehaviour).
Proof.
  intros Hf Hb q.
  assert (8 ≤ prec ∧ prec + 64 ≤ emax ∧ Z.of_nat max_frac + 3 ≤ prec) as Hfmt by (destruct Hf as [[= -> -> ->]|[= -> -> ->]]; lia).
  assert (Zpos m < 2 ^ prec) as Hm.
  { pose proof (digits2_bounds m). assert (Zpos (digits2_pos m) ≤ prec).
    { apply andb_true_iff in Hb as [Hc%Z.eqb_eq _]. unfold fexp in Hc. lia. }
    assert (2 ^ Zpos (digits2_pos m) ≤ 2 ^ prec) by (apply Z.pow_le_mono_r; lia). lia. }
  split_and!.
  - intros k Hs Hk. split; [by apply (grid_text _ _ _ Hfmt)|].
    pose proof (Z.pow_pos_nonneg 2 q). apply decimals_value; [apply Z.mod_pos_bound|]; subst q; lia.
  - intros H4. apply (grid_from_four prec emax); [lia|done..|]. pose proof (emin_small _ _ _ Hfmt). lia.
  - apply large_text.
Qed.

Lemma float_text_truncates_witness :
  constexpr_to_string 53 1024 14 (S754_finite true 6473924464345088 (-50)) = Ok "-5.75" ∧
  constexpr_to_string 24 128 6 (S754_finite false 8388608 41) = Throw UndefinedBehaviour.
Proof.
  split.
  - destruct (float_text_truncates 53 1024 14 true 6473924464345088 (-50)) as [H _];
      [by right|reflexivity|].
    destruct (H 6473924464345088) as [Ht _]; [by intros B|reflexivity|].
    refine (eq_trans Ht _). vm_compute. reflexivity.
  - destruct (float_text_truncates 24 128 6 false 8388608 41) as (_ & _ & H); [by left|reflexivity|].
    apply H. vm_compute. discriminate.
Defined.

(** ** In the dialect *)

Lemma digit_loop_digits prec emax n frac buf ds :
  Forall (λ c, ToString.is_digit c) buf → digit_loop prec emax n frac buf = Ok ds → Forall (λ c, ToString.is_digit c) ds.
Proof.
  revert frac buf. induction n as [|n IH]; intros frac buf Hb; cbn [digit_loop]; [by intros [= <-]|].
  destruct (to_unsigned 32 _) as [d|] eqn:E; [|done]. cbn [rbind]. apply IH. constructor; [|done].
  assert (0 ≤ d) as Hd.
  { unfold to_unsigned in E. repeat case_match; simplify_eq; try done.
    all: match goal with H : (_ || _) = false |- _ => apply orb_false_iff in H as [?%Z.ltb_ge _] end; done. }
  destruct (ToString.digit_val_ascii (Z.to_N (if 9 <? d then 9 else d))) as [_ ->]; [|done].
  destruct (Z.ltb_spec 9 d); lia.
Qed.

Lemma strip_zeros_forall (P : ascii → Prop) l : Forall P l → Forall P (strip_zeros l).
Proof. induction 1 as [|c l Hc Hl IH]; cbn; [done|]. case_match; [done|by constructor]. Qed.

Lemma quote_free_app s t : quote_free s = true → quote_free t = true → quote_free (s +:+ t) = true.
Proof. unfold quote_free. intros Hs Ht. by rewrite string_all_app, Hs, Ht. Qed.

(** Whatever the number, the text has no quote. *)
Lemma text_quote_free prec emax n x t : constexpr_to_string prec emax n x = Ok t → quote_free t = true.
Proof.
  destruct x as [s|[]| |s m e]; [by destruct s; intros [= <-]|by intros [= <-]..|]. rewrite finite_text.
  destruct (to_unsigned 64 _) as [i|] eqn:Ei; [|done]. cbn [rbind].
  assert (i < 2 ^ 64 ∧ 0 ≤ i) as [Hi Hi0].
  { cbn [to_unsigned] in Ei. case_match eqn:Eb; [done|]. simplify_eq.
    apply orb_false_iff in Eb as [?%Z.ltb_ge ?%Z.leb_gt]. done. }
  rewrite ToString.constexpr_to_string_numeral by lia. cbn [rbind].
  assert (quote_free (sign_text s +:+ ToString.numeral (Z.to_N i)) = true) as Hr.
  { apply quote_free_app; [by destruct s|apply numeral_quote_free]. }
  case_match; [by intros [= <-]|]. destruct (digit_loop _ _ _ _ _) as [ds|] eqn:Ed; [|done]. cbn [rbind].
  apply digit_loop_digits, strip_zeros_forall in Ed; [|done].
  destruct (strip_zeros ds) as [|c ds']; intros H'; assert (∀ a b : string, Ok a = Ok b → a = b) as Hinj by congruence;
    apply Hinj in H' as <-; [done|].
  apply quote_free_app; [done|]. apply (quote_free_app "."); [done|]. apply digits_quote_free. by apply Forall_rev.
Qed.

Lemma chars_quote_free w b : quote_free (chars w b) = true.
Proof.
  unfold chars. destruct (if w =? 32 then _ else _) as [t|] eqn:E; [|done].
  destruct (w =? 32); by eapply text_quote_free.
Qed.

(** So the dialect of constant evaluation meets what the compiler's lexical
    safety asks of the numbers. *)
Lemma consteval_skeleton esc inl e n :
  all_nodes raw_node e = true →
  ∃ st x, closed st = true ∧
    skeleton esc Code (@sql_text _ (Postgres.dialect_text chars) inl (template e) n) = (st, x) ∧
    skeleton esc Code (@sql_text _ (Postgres.dialect_text chars) inl (map mask (template e)) n) = (st, x).
Proof. apply postgres_skeleton, chars_quote_free. Qed.

(** A literal that is not zero becomes zero when the query is compiled in a
    constant expression: [1e-20] has no decimal among the first 14, and a
    negative one becomes [-0]. *)
Lemma small_literal_lost :
  of_bits 53 1024 0x3BC79CA10C924223 = S754_finite false 6646139978924579 (-119) ∧
  chars 64 0x3BC79CA10C924223 = "0" ∧ chars 64 0xBBC79CA10C924223 = "-0".
Proof. vm_compute. done. Qed.
End FloatText.
