(* ===== verification/Disruptor.v ===== *)
(** * The disruptor: a lock-free multi-producer, single-consumer ring

    [common/multithread/disruptor]: [Sequence], the ring buffers and the
    multi-producer sequencers (the static and the dynamic one have the same
    operations), and the consumer loop of the logger
    ([common/scroll/logger/source/logger.cpp]) that drains them.

    The first part has the operations as functions on the sequencer.  The
    second part is the concurrent program: any number of producer threads and
    one consumer thread, each step of which is one atomic access, under
    sequential consistency (the code's acquire/release pairs order the data
    accesses with the flag and cursor accesses they are published by). *)

From stdpp Require Import relations.
From S2P Require Import Prelude Bytes.

Local Open Scope Z_scope.

(** ** Slots *)

Section Slots.
Variable lg : nat.

Definition buffer_size : Z := 2 ^ Z.of_nat lg.

(** [static_cast<std::size_t>(sequence) & index_mask_] *)
Definition slot (sequence : Z) : nat := Z.to_nat (Z.land (to_unsigned 64 sequence) (buffer_size - 1)).

Hypothesis Hlg : (lg ≤ 63)%nat.

Lemma buffer_size_pos : 0 < buffer_size.
Proof. unfold buffer_size. apply Z.pow_pos_nonneg; lia. Qed.

Lemma slot_mod s : slot s = Z.to_nat (s mod buffer_size).
Proof.
  unfold slot, buffer_size, to_unsigned.
  replace (2 ^ Z.of_nat lg - 1) with (Z.ones (Z.of_nat lg)) by (rewrite Z.ones_equiv; lia).
  rewrite Z.land_ones by lia. f_equal.
  apply Z.mod_mod_divide.
  exists (2 ^ (64 - Z.of_nat lg)). rewrite <- Z.pow_add_r by lia. f_equal. lia.
Qed.

Lemma slot_lt s : Z.of_nat (slot s) < buffer_size.
Proof.
  rewrite slot_mod. pose proof (Z.mod_pos_bound s buffer_size buffer_size_pos). lia.
Qed.

(** Sequences of one window of [buffer_size] have different slots. *)
Lemma slot_inj a b : slot a = slot b → a - b < buffer_size → b - a < buffer_size → a = b.
Proof.
  rewrite !slot_mod. intros H H1 H2. pose proof buffer_size_pos as Hp.
  assert (a mod buffer_size = b mod buffer_size) as E.
  { apply Z2Nat.inj; [apply Z.mod_pos_bound, Hp|apply Z.mod_pos_bound, Hp|done]. }
  pose proof (Z.div_mod a buffer_size (Z.neq_sym _ _ (Z.lt_neq _ _ Hp))) as Ha.
  pose proof (Z.div_mod b buffer_size (Z.neq_sym _ _ (Z.lt_neq _ _ Hp))) as Hb.
  rewrite E in Ha. clear E H. revert H1 H2 Ha Hb Hp.
  generalize (a / buffer_size) (b / buffer_size) (b mod buffer_size). generalize buffer_size as B.
  intros B x y m H1 H2 Ha Hb Hp. assert (x = y) as -> by nia. lia.
Qed.

Lemma slot_wrap s : slot (s + buffer_size) = slot s.
Proof.
  rewrite !slot_mod. f_equal. rewrite <- (Z.mul_1_l buffer_size) at 1. apply Z_mod_plus_full.
Qed.
End Slots.

(** ** The sequencer's operations *)

Record Sequencer := mkSequencer {
  cursor_ : Z;
  gating_sequence_ : Z;
  buffer_size_ : nat;
  available_flags_ : list bool;
}.

(** [std::has_single_bit] *)
Definition has_single_bit (n : nat) : bool :=
  negb (n =? 0)%nat && (Z.land (Z.of_nat n) (Z.of_nat n - 1) =? 0).

Definition make_sequencer (size : nat) (initial_cursor : Z) : result Sequencer :=
  if has_single_bit size
  then Ok (mkSequencer initial_cursor initial_cursor size (replicate size false))
  else Throw invalid_argument.

Section Operations.
Variable q : Sequencer.

Definition index (sequence : Z) : nat :=
  Z.to_nat (Z.land (to_unsigned 64 sequence) (Z.of_nat (buffer_size_ q) - 1)).

Definition with_flags (fs : list bool) : Sequencer :=
  mkSequencer (cursor_ q) (gating_sequence_ q) (buffer_size_ q) fs.

(** The back-pressure test of [next], [try_next] and [next_batch]. *)
Definition would_wrap (next gating_seq : Z) : bool := gating_seq <? next - Z.of_nat (buffer_size_ q).

(** [try_next], run without interference: the compare-and-set succeeds. *)
Definition try_next : Sequencer * Z :=
  let current := cursor_ q in
  let next := current + 1 in
  if would_wrap next (gating_sequence_ q) then (q, -1)
  else (mkSequencer next (gating_sequence_ q) (buffer_size_ q) (available_flags_ q), next).

Definition publish (sequence : Z) : Sequencer :=
  with_flags (<[index sequence := true]> (available_flags_ q)).

Definition is_available (sequence : Z) : bool := nth (index sequence) (available_flags_ q) false.

Definition mark_consumed (sequence : Z) : Sequencer :=
  with_flags (<[index sequence := false]> (available_flags_ q)).

Definition update_gating_sequence (sequence : Z) : Sequencer :=
  mkSequencer (cursor_ q) sequence (buffer_size_ q) (available_flags_ q).

(** [get_highest_published]: [n] is the length of the scan. *)
Fixpoint scan_published (n : nat) (seq : Z) : Z :=
  match n with
  | O => seq - 1
  | S n' => if is_available seq then scan_published n' (seq + 1) else seq - 1
  end.
Definition get_highest_published (lower_bound available_sequence : Z) : Z :=
  if lower_bound <=? available_sequence
  then scan_published (Z.to_nat (available_sequence - lower_bound + 1)) lower_bound
  else available_sequence.

Definition remaining_capacity : Z :=
  Z.of_nat (buffer_size_ q) - (cursor_ q - gating_sequence_ q).
End Operations.

Fixpoint publish_range (q : Sequencer) (n : nat) (seq : Z) : Sequencer :=
  match n with
  | O => q
  | S n' => publish_range (publish q seq) n' (seq + 1)
  end.
Definition publish_batch (q : Sequencer) (lo hi : Z) : Sequencer :=
  publish_range q (Z.to_nat (hi - lo + 1)) lo.

Lemma scan_published_spec q n seq :
  let r := scan_published q n seq in
  seq - 1 ≤ r ≤ seq + Z.of_nat n - 1 ∧ (∀ s, seq ≤ s ≤ r → is_available q s = true) ∧
  (r = seq + Z.of_nat n - 1 ∨ is_available q (r + 1) = false).
Proof.
  revert seq. induction n as [|n IH]; intros seq; cbn [scan_published]; cbv zeta.
  { split_and!; [lia|lia|intros; lia|left; lia]. }
  destruct (is_available q seq) eqn:E.
  - destruct (IH (seq + 1)) as (H1 & H2 & H3). split_and!; [lia|lia| |].
    + intros s Hs. destruct (decide (s = seq)) as [->|]; [done|]. apply H2. lia.
    + destruct H3 as [H3|H3]; [left; lia|by right].
  - split_and!; [lia|lia|intros; lia|]. right. by replace (seq - 1 + 1) with seq by lia.
Qed.

(** [get_highest_published] returns the end of the longest gap-free run:
    everything from the lower bound up to it is published, and it is either
    the upper bound or the next sequence is a gap. *)
Theorem get_highest_published_spec (q : Sequencer) (lower_bound available_sequence : Z) :
  lower_bound ≤ available_sequence + 1 →
  let r := get_highest_published q lower_bound available_sequence in
  lower_bound - 1 ≤ r ≤ available_sequence ∧
  (∀ s, lower_bound ≤ s ≤ r → is_available q s = true) ∧
  (r = available_sequence ∨ is_available q (r + 1) = false).
Proof.
  intros Hb. unfold get_highest_published. destruct (Z.leb_spec lower_bound available_sequence).
  - destruct (scan_published_spec q (Z.to_nat (available_sequence - lower_bound + 1)) lower_bound)
      as (H1 & H2 & H3).
    cbv zeta. split_and!; [lia|lia|done|]. destruct H3 as [H3|]; [left; lia|by right].
  - cbv zeta. split_and!; [lia|lia|intros; lia|by left].
Qed.

Lemma get_highest_published_spec_witness :
  let q := mkSequencer 3 (-1) 4 [true; true; false; true] in
  let r := get_highest_published q 0 3 in
  0 - 1 ≤ r ≤ 3 ∧ (∀ s, 0 ≤ s ≤ r → is_available q s = true) ∧
  (r = 3 ∨ is_available q (r + 1) = false).
Proof. apply (get_highest_published_spec (mkSequencer 3 (-1) 4 [true; true; false; true]) 0 3). lia. Defined.

(** ** The concurrent program *)

Section Concurrent.
Context {E : Type}.
Variable lg : nat.
Hypothesis Hlg : (lg ≤ 63)%nat.
(** [LogEvent::shutdown_signal] of an entry. *)
Variable stops : E → bool.
(** What [std::move(event)] leaves behind in the ring. *)
Variable moved_from : E → E.

Abbreviation B := (buffer_size lg).
Abbreviation slot := (slot lg).

(** A producer thread: [next]/[next_batch] claims one sequence per entry of
    [es], then the entries are written and published, lowest first. *)
Inductive producer : Type :=
  | PIdle
  | PRead (es : list E)                      (** loop head: read the cursor *)
  | PGate (es : list E) (current : Z)        (** read the gating sequence *)
  | PSpin (es : list E) (current : Z)        (** back-pressure: wait for the consumer *)
  | PCas (es : list E) (current : Z)         (** compare-and-set the cursor *)
  | PWrite (lo seq : Z) (rest : list E)      (** [ring_buffer[seq] = entry] *)
  | PPublish (seq hi : Z)                    (** set the available flags *)
  | PTryRead (e : E)                         (** [try_next] *)
  | PTryGate (e : E) (current : Z)
  | PTryCas (e : E) (current : Z).

(** The consumer thread: [Logger::consumer_loop]. *)
Inductive consumer_pc : Type :=
  | CHead (next_seq : Z)                                       (** [while (running_)] *)
  | CScan (next_seq seq upper : Z)                             (** [get_highest_published] *)
  | CWait (next_seq : Z)                                       (** [wait_for(next_seq)] *)
  | CRead (next_seq seq available : Z) (batch : list E)        (** read the entry *)
  | CMark (next_seq seq available : Z) (batch : list E)        (** [mark_consumed(seq)] *)
  | CMarkStop (seq : Z) (batch : list E)                       (** [mark_consumed], leave the loop *)
  | CGating (last_consumed : Z) (batch : list E)               (** [update_gating_sequence], post *)
  | CDone (next_seq : Z).

(** [claimed] is a history variable: the entry of each claimed sequence, in
    claim order (sequence 0 first). *)
Record state := mkState {
  cursor : Z;
  gating : Z;
  flags : list bool;
  ring : list E;
  producers : list producer;
  consumer : consumer_pc;
  running : bool;
  posted : list (list E);
  claimed : list E;
}.

Definition set_producer (st : state) (t : nat) (p : producer) : state :=
  mkState (cursor st) (gating st) (flags st) (ring st) (<[t:=p]> (producers st)) (consumer st)
          (running st) (posted st) (claimed st).
Definition set_consumer (st : state) (c : consumer_pc) : state :=
  mkState (cursor st) (gating st) (flags st) (ring st) (producers st) c
          (running st) (posted st) (claimed st).
Definition set_flag (st : state) (seq : Z) (b : bool) : state :=
  mkState (cursor st) (gating st) (<[slot seq := b]> (flags st)) (ring st) (producers st)
          (consumer st) (running st) (posted st) (claimed st).
Definition set_ring (st : state) (seq : Z) (e : E) : state :=
  mkState (cursor st) (gating st) (flags st) (<[slot seq := e]> (ring st)) (producers st)
          (consumer st) (running st) (posted st) (claimed st).
(** A successful compare-and-set from [cursor st]: [es] get the next sequences. *)
Definition claim (st : state) (es : list E) : state :=
  mkState (cursor st + Z.of_nat (length es)) (gating st) (flags st) (ring st) (producers st)
          (consumer st) (running st) (posted st) (claimed st ++ es).
Definition set_gating (st : state) (g : Z) (batch : list E) : state :=
  mkState (cursor st) g (flags st) (ring st) (producers st) (consumer st) (running st)
          (match batch with [] => posted st | _ => posted st ++ [batch] end) (claimed st).
Definition stop_running (st : state) : state :=
  mkState (cursor st) (gating st) (flags st) (ring st) (producers st) (consumer st) false
          (posted st) (claimed st).

Definition flag (st : state) (seq : Z) : bool := nth (slot seq) (flags st) false.
Definition cell (st : state) (seq : Z) : option E := ring st !! slot seq.
Definition entry (st : state) (seq : Z) : option E := claimed st !! Z.to_nat seq.

Definition wrap_point (current : Z) (es : list E) : Z := current + Z.of_nat (length es) - B.

(** One step of producer [t]: from its program counter to the next state. *)
Inductive producer_step (st : state) (t : nat) : producer → state → Prop :=
  | p_start es : es ≠ [] → producer_step st t PIdle (set_producer st t (PRead es))
  | p_read es : producer_step st t (PRead es) (set_producer st t (PGate es (cursor st)))
  | p_gate_pass es cur :
      wrap_point cur es ≤ gating st → producer_step st t (PGate es cur) (set_producer st t (PCas es cur))
  | p_gate_wait es cur :
      gating st < wrap_point cur es → producer_step st t (PGate es cur) (set_producer st t (PSpin es cur))
  | p_spin es cur :
      gating st < wrap_point cur es → producer_step st t (PSpin es cur) st
  | p_spin_done es cur :
      wrap_point cur es ≤ gating st → producer_step st t (PSpin es cur) (set_producer st t (PCas es cur))
  | p_cas es cur :
      cursor st = cur →
      producer_step st t (PCas es cur) (set_producer (claim st es) t (PWrite (cur + 1) (cur + 1) es))
  (** the weak compare-and-set may also fail spuriously *)
  | p_cas_fail es cur : producer_step st t (PCas es cur) (set_producer st t (PRead es))
  | p_write lo seq e rest :
      producer_step st t (PWrite lo seq (e :: rest))
        (set_producer (set_ring st seq e) t (PWrite lo (seq + 1) rest))
  | p_written lo seq :
      producer_step st t (PWrite lo seq []) (set_producer st t (PPublish lo (seq - 1)))
  | p_publish seq hi :
      seq ≤ hi →
      producer_step st t (PPublish seq hi) (set_producer (set_flag st seq true) t (PPublish (seq + 1) hi))
  | p_published seq hi :
      hi < seq → producer_step st t (PPublish seq hi) (set_producer st t PIdle)
  | p_try e : producer_step st t PIdle (set_producer st t (PTryRead e))
  | p_try_read e : producer_step st t (PTryRead e) (set_producer st t (PTryGate e (cursor st)))
  | p_try_full e cur :
      gating st < wrap_point cur [e] → producer_step st t (PTryGate e cur) (set_producer st t PIdle)
  | p_try_pass e cur :
      wrap_point cur [e] ≤ gating st → producer_step st t (PTryGate e cur) (set_producer st t (PTryCas e cur))
  | p_try_cas e cur :
      cursor st = cur →
      producer_step st t (PTryCas e cur) (set_producer (claim st [e]) t (PWrite (cur + 1) (cur + 1) [e]))
  | p_try_cas_fail e cur : producer_step st t (PTryCas e cur) (set_producer st t PIdle).

(** After a scan: [available < next_seq] waits, otherwise the batch is read. *)
Definition scanned (next_seq available : Z) : consumer_pc :=
  if available <? next_seq then CWait next_seq else CRead next_seq next_seq available [].

Inductive consumer_step (st : state) : consumer_pc → state → Prop :=
  | c_stop n : running st = false → consumer_step st (CHead n) (set_consumer st (CDone n))
  | c_head n : running st = true → consumer_step st (CHead n) (set_consumer st (CScan n n (cursor st)))
  | c_scan n s up :
      s ≤ up → flag st s = true → consumer_step st (CScan n s up) (set_consumer st (CScan n (s + 1) up))
  | c_gap n s up :
      s ≤ up → flag st s = false → consumer_step st (CScan n s up) (set_consumer st (scanned n (s - 1)))
  | c_all n s up : up < s → consumer_step st (CScan n s up) (set_consumer st (scanned n up))
  | c_wait n : n ≤ cursor st → consumer_step st (CWait n) (set_consumer st (CHead n))
  | c_read n s av batch e :
      s ≤ av → cell st s = Some e → stops e = false →
      consumer_step st (CRead n s av batch)
        (set_consumer (set_ring st s (moved_from e)) (CMark n s av (batch ++ [e])))
  | c_mark n s av batch :
      consumer_step st (CMark n s av batch) (set_consumer (set_flag st s false) (CRead n (s + 1) av batch))
  | c_read_stop n s av batch e :
      s ≤ av → cell st s = Some e → stops e = true →
      consumer_step st (CRead n s av batch) (set_consumer st (CMarkStop s batch))
  | c_mark_stop s batch :
      consumer_step st (CMarkStop s batch)
        (set_consumer (stop_running (set_flag st s false)) (CGating s batch))
  | c_read_done n s av batch :
      av < s → consumer_step st (CRead n s av batch) (set_consumer st (CGating (s - 1) batch))
  | c_gating last batch :
      consumer_step st (CGating last batch) (set_consumer (set_gating st last batch) (CHead (last + 1))).

Inductive step : state → state → Prop :=
  | step_producer st t p st' : producers st !! t = Some p → producer_step st t p st' → step st st'
  | step_consumer st st' : consumer_step st (consumer st) st' → step st st'.

(** [threads] producers, an empty ring of [dflt] entries. *)
Definition initial (threads : nat) (dflt : E) : state :=
  mkState (-1) (-1) (replicate (Z.to_nat B) false) (replicate (Z.to_nat B) dflt)
          (replicate threads PIdle) (CHead 0) true [] [].

Definition reachable (threads : nat) (dflt : E) (st : state) : Prop := rtc step (initial threads dflt) st.
End Concurrent.
