(* ===== verification/DisruptorSafety.v ===== *)
(** * Safety of the disruptor

    The invariant of the concurrent program of [Disruptor] and what follows
    from it: the consumer sees every published entry once, in claim order and
    unmodified; a slot is never written while its previous entry is unread;
    the distance between the cursor and the gating sequence stays within the
    buffer. *)

From stdpp Require Import relations.
From S2P Require Import Prelude Bytes Disruptor.

Local Open Scope Z_scope.

Section Safety.
Context {E : Type}.
Variable lg : nat.
Hypothesis Hlg : (lg ≤ 63)%nat.
Variable stops : E → bool.
Variable moved_from : E → E.

Abbreviation B := (buffer_size lg).
Abbreviation slot := (Disruptor.slot lg).
Abbreviation state := (@state E).
Abbreviation flag := (flag lg).
Abbreviation cell := (cell lg).

(** ** The invariant *)

(** The number of entries the consumer has taken out of the ring. *)
Definition taken (c : @consumer_pc E) : Z :=
  match c with
  | CHead n | CScan n _ _ | CWait n | CDone n => n
  | CRead _ s _ _ => s
  | CMark _ s _ _ | CMarkStop s _ => s + 1
  | CGating last _ => last + 1
  end.

(** The sequence whose flag is still to be cleared. *)
Definition marking (c : @consumer_pc E) (s : Z) : Prop :=
  match c with CMark _ s' _ _ | CMarkStop s' _ => s = s' | _ => False end.

Definition pending_batch (c : @consumer_pc E) : list E :=
  match c with
  | CRead _ _ _ b | CMark _ _ _ b | CMarkStop _ b | CGating _ b => b
  | _ => []
  end.

(** Everything that was handed to the sinks or is about to be. *)
Definition output (st : state) : list E := concat (posted st) ++ pending_batch (consumer st).

(** The sequences a producer has claimed and not yet published. *)
Definition owns (p : @producer E) (s : Z) : Prop :=
  match p with
  | PWrite lo seq rest => lo ≤ s < seq + Z.of_nat (length rest)
  | PPublish seq hi => seq ≤ s ≤ hi
  | _ => False
  end.

(** The sequences it owns whose entry is already in the ring. *)
Definition written (p : @producer E) (s : Z) : Prop :=
  match p with
  | PWrite lo seq rest => lo ≤ s < seq
  | PPublish seq hi => seq ≤ s ≤ hi
  | _ => False
  end.

Record producer_ok (st : state) (p : @producer E) : Prop := {
  po_range : ∀ s, owns p s → taken (consumer st) ≤ s ≤ cursor st ∧ flag st s = false;
  po_data : ∀ s, written p s → cell st s = entry st s;
  po_rest : match p with
            | PWrite lo seq rest => lo ≤ seq ∧ ∀ i e, rest !! i = Some e → entry st (seq + Z.of_nat i) = Some e
            | PCas es cur => wrap_point lg cur es ≤ gating st ∧ es ≠ []
            | PTryCas e cur => wrap_point lg cur [e] ≤ gating st
            | PRead es | PGate es _ | PSpin es _ => es ≠ []
            | _ => True
            end;
}.

Record consumer_ok (st : state) : Prop := {
  co_gate : gating st < taken (consumer st);
  co_taken : taken (consumer st) ≤ cursor st + 1;
  co_marking : ∀ s, marking (consumer st) s → s = taken (consumer st) - 1 ∧ gating st < s;
  co_pc : match consumer st with
          | CScan n s up => n ≤ s ≤ up + 1 ∧ up ≤ cursor st ∧ ∀ x, n ≤ x < s → flag st x = true
          | CRead n s av _ => s ≤ av + 1 ∧ av ≤ cursor st ∧ ∀ x, s ≤ x ≤ av → flag st x = true
          | CMark n s av _ => s ≤ av ∧ av ≤ cursor st ∧ ∀ x, s < x ≤ av → flag st x = true
          | _ => True
          end;
}.

(** What has come out: a prefix of the claimed entries, without gaps, up to the
    first stop entry. *)
Definition output_ok (st : state) : Prop :=
  if running st
  then match consumer st with
       | CMarkStop s _ => output st = take (Z.to_nat s) (claimed st) ∧
                          ∃ e, entry st s = Some e ∧ stops e = true
       | c => output st = take (Z.to_nat (taken c)) (claimed st)
       end
  else (match consumer st with CGating _ _ | CHead _ | CDone _ => True | _ => False end) ∧
       ∃ e, entry st (taken (consumer st) - 1) = Some e ∧ stops e = true ∧
            output st = take (Z.to_nat (taken (consumer st) - 1)) (claimed st).

Record inv (st : state) : Prop := {
  i_flags : Z.of_nat (length (flags st)) = B;
  i_ring : Z.of_nat (length (ring st)) = B;
  i_claimed : Z.of_nat (length (claimed st)) = cursor st + 1;
  i_window : -1 ≤ gating st ∧ cursor st - gating st ≤ B;
  i_producers : ∀ t p, producers st !! t = Some p → producer_ok st p;
  i_disjoint : ∀ t1 t2 p1 p2 s, producers st !! t1 = Some p1 → producers st !! t2 = Some p2 →
    owns p1 s → owns p2 s → t1 = t2;
  i_published : ∀ s, taken (consumer st) ≤ s ≤ cursor st → flag st s = true → cell st s = entry st s;
  i_owned : ∀ s, taken (consumer st) ≤ s ≤ cursor st → flag st s = false →
    ∃ t p, producers st !! t = Some p ∧ owns p s;
  i_free : ∀ s, gating st < s ≤ gating st + B → s < taken (consumer st) ∨ cursor st < s →
    ¬ marking (consumer st) s → flag st s = false;
  i_consumer : consumer_ok st;
  i_output : output_ok st;
}.

(** ** Flags and cells after an update *)

Lemma slot_lt_flags st s : inv st → (slot s < length (flags st))%nat.
Proof. intros Hi. pose proof (i_flags st Hi). pose proof (slot_lt lg Hlg s). lia. Qed.
Lemma slot_lt_ring st s : inv st → (slot s < length (ring st))%nat.
Proof. intros Hi. pose proof (i_ring st Hi). pose proof (slot_lt lg Hlg s). lia. Qed.

Lemma nth_insert (l : list bool) i j b :
  (i < length l)%nat → nth j (<[i:=b]> l) false = if decide (i = j) then b else nth j l false.
Proof.
  intros Hi. rewrite !nth_lookup. case_decide; subst.
  - by rewrite list_lookup_insert_eq.
  - by rewrite list_lookup_insert_ne.
Qed.

Lemma flag_set st x b s :
  inv st → flag (set_flag lg st x b) s = if decide (slot x = slot s) then b else flag st s.
Proof. intros Hi. unfold Disruptor.flag. simpl. rewrite nth_insert by (by apply slot_lt_flags). done. Qed.

Lemma cell_set st x e s :
  inv st → cell (set_ring lg st x e) s = if decide (slot x = slot s) then Some e else cell st s.
Proof.
  intros Hi. unfold Disruptor.cell. simpl. case_decide as H.
  - rewrite H. apply list_lookup_insert_eq. by apply slot_lt_ring.
  - by apply list_lookup_insert_ne.
Qed.

(** Within the window sequences have their own slots. *)
Lemma window_slot st x s :
  inv st → gating st < x ≤ gating st + B → gating st < s ≤ gating st + B → slot x = slot s → x = s.
Proof. intros Hi Hx Hs H. apply (slot_inj lg Hlg _ _ H); lia. Qed.

Lemma owned_window st t p s :
  inv st → producers st !! t = Some p → owns p s → gating st < s ≤ gating st + B.
Proof.
  intros Hi Hp Ho. destruct (po_range _ _ (i_producers _ Hi _ _ Hp) s Ho) as [Hr _].
  pose proof (co_gate _ (i_consumer _ Hi)). pose proof (i_window _ Hi). lia.
Qed.

Lemma taken_nonneg st : inv st → 0 ≤ taken (consumer st).
Proof.
  intros Hi. pose proof (co_gate _ (i_consumer _ Hi)). pose proof (i_window _ Hi). lia.
Qed.

(** A producer stays well placed when the state changes around it. *)
Lemma producer_ok_frame st st' p :
  producer_ok st p → 0 ≤ taken (consumer st) →
  (∀ s, owns p s → taken (consumer st') ≤ s ≤ cursor st' ∧ flag st' s = false) →
  (∀ s, written p s → cell st' s = cell st s) →
  (∀ s, 0 ≤ s ≤ cursor st → entry st' s = entry st s) →
  (∀ s e, entry st s = Some e → entry st' s = Some e) →
  gating st ≤ gating st' → producer_ok st' p.
Proof.
  intros [Hr Hd Hrest] Ht Hr' Hc He He' Hg. split; [done| |].
  - intros s Hs. assert (owns p s) as Ho by (destruct p; simpl in *; lia || done).
    destruct (Hr s Ho). rewrite Hc, He by (done || lia). by apply Hd.
  - destruct p; try done.
    + destruct Hrest. split; [lia|done].
    + destruct Hrest as [Hlo Hrest]. split; [done|]. intros i e Hie. by apply He', Hrest.
    + lia.
Qed.

(** *** Producer steps *)

(** A step that only moves a producer's program counter. *)
Lemma inv_set_producer (st : state) t p p' :
  inv st → producers st !! t = Some p → producer_ok st p' → (∀ s, owns p' s ↔ owns p s) →
  inv (set_producer st t p').
Proof.
  intros Hi Hp Hp' Ho. destruct Hi as [H1 H2 H3 H4 H5 H6 H7 H8 H9 H10 H11]. split; try done.
  - intros t1 p1. simpl. intros [(-> & <- & _)|[Hne Ht1]]%list_lookup_insert_Some;
      [by destruct Hp'|by destruct (H5 t1 p1 Ht1)].
  - simpl. intros t1 t2 p1 p2 s [(-> & <- & _)|[Hne1 Ht1]]%list_lookup_insert_Some
      [(-> & <- & _)|[Hne2 Ht2]]%list_lookup_insert_Some Ho1 Ho2; try done.
    + apply Ho in Ho1. by apply (H6 t1 t2 p p2 s).
    + apply Ho in Ho2. by apply (H6 t1 t2 p1 p s).
    + by apply (H6 t1 t2 p1 p2 s).
  - intros s Hs Hf. destruct (H8 s Hs Hf) as (t1 & p1 & Ht1 & Ho1).
    destruct (decide (t = t1)) as [->|Hne]; simpl.
    + exists t1, p'. rewrite list_lookup_insert_eq by (by eapply lookup_lt_Some).
      split; [done|]. apply Ho. congruence.
    + exists t1, p1. by rewrite list_lookup_insert_ne.
  - by destruct H10.
Qed.

Lemma entry_claim (st : state) es s : inv st → 0 ≤ s ≤ cursor st → entry (claim st es) s = entry st s.
Proof.
  intros Hi Hs. pose proof (i_claimed _ Hi). unfold entry. simpl. apply lookup_app_l. lia.
Qed.

Lemma entry_claim_Some (st : state) es s e : entry st s = Some e → entry (claim st es) s = Some e.
Proof. apply lookup_app_l_Some. Qed.

Lemma entry_claim_new (st : state) es i :
  inv st → entry (claim st es) (cursor st + 1 + Z.of_nat i) = es !! i.
Proof.
  intros Hi. pose proof (i_claimed _ Hi). pose proof (i_window _ Hi).
  pose proof (co_gate _ (i_consumer _ Hi)). pose proof (co_taken _ (i_consumer _ Hi)).
  unfold entry. simpl. rewrite lookup_app_r by lia. f_equal. lia.
Qed.

Lemma take_claim (st : state) es k :
  inv st → k ≤ cursor st + 1 → take (Z.to_nat k) (claimed (claim st es)) = take (Z.to_nat k) (claimed st).
Proof. intros Hi Hk. pose proof (i_claimed _ Hi). simpl. apply take_app_le. lia. Qed.

Lemma output_claim (st : state) es : inv st → output_ok st → output_ok (claim st es).
Proof.
  intros Hi. pose proof (co_taken _ (i_consumer _ Hi)) as Ht.
  unfold output_ok, output. cbn [running consumer posted claim]. fold (claimed (claim st es)).
  destruct (running st).
  - destruct (consumer st) eqn:Ec; try (rewrite take_claim by (done || simpl in *; lia); done).
    simpl in Ht. rewrite take_claim by (done || lia). intros [H1 (e & H2 & H3)].
    split; [done|]. exists e. split; [by apply entry_claim_Some|done].
  - rewrite take_claim by (done || lia). intros (Hc & e & H1 & H2 & H3). split; [done|].
    exists e. split; [by apply entry_claim_Some|done].
Qed.

Lemma free_above (st : state) s :
  inv st → cursor st < s ≤ gating st + B → flag st s = false.
Proof.
  intros Hi Hs. pose proof (co_gate _ (i_consumer _ Hi)) as H1.
  pose proof (co_taken _ (i_consumer _ Hi)) as H2.
  apply (i_free _ Hi); [lia|lia|]. intros Hm.
  destruct (co_marking _ (i_consumer _ Hi) s Hm). lia.
Qed.

(** The successful compare-and-set. *)
Lemma inv_claim (st : state) t p es :
  inv st → producers st !! t = Some p → (∀ s, ¬ owns p s) → es ≠ [] →
  wrap_point lg (cursor st) es ≤ gating st →
  inv (set_producer (claim st es) t (PWrite (cursor st + 1) (cursor st + 1) es)).
Proof.
  intros Hi Hp Hno Hes Hw. unfold wrap_point in Hw.
  pose proof (taken_nonneg _ Hi) as Ht0. pose proof (co_taken _ (i_consumer _ Hi)) as Htk.
  assert (producer_ok (claim st es) (PWrite (cursor st + 1) (cursor st + 1) es)) as Hnew.
  { split; simpl.
    - intros s Hs. split; [lia|]. apply (free_above _ _ Hi). lia.
    - intros s Hs. lia.
    - split; [lia|]. intros i e Hie. by rewrite entry_claim_new. }
  pose proof Hi as [H1 H2 H3 H4 H5 H6 H7 H8 H9 H10 H11]. split; simpl; try done.
  - rewrite length_app. lia.
  - lia.
  - intros t1 p1 [(-> & <- & _)|[Hne Ht1]]%list_lookup_insert_Some; [by destruct Hnew|].
    apply (producer_ok_frame st); try done; simpl; [by apply (H5 t1)|..].
    + intros s Hs. destruct (po_range _ _ (H5 _ _ Ht1) s Hs). split; [lia|done].
    + intros s Hs. by apply entry_claim.
    + intros s e. apply entry_claim_Some.
  - intros t1 t2 p1 p2 s [(-> & <- & _)|[Hne1 Ht1]]%list_lookup_insert_Some
      [(-> & <- & _)|[Hne2 Ht2]]%list_lookup_insert_Some Ho1 Ho2; try done.
    + simpl in Ho1. destruct (po_range _ _ (H5 _ _ Ht2) s Ho2). lia.
    + simpl in Ho2. destruct (po_range _ _ (H5 _ _ Ht1) s Ho1). lia.
    + by apply (H6 t1 t2 p1 p2 s).
  - intros s Hs Hf. destruct (Z.le_gt_cases s (cursor st)).
    + change (entry _ s) with (entry (claim st es) s). rewrite entry_claim by (done || lia).
      apply H7; [lia|done].
    + change (flag st s = true) in Hf. rewrite free_above in Hf; [done|done|lia].
  - intros s Hs Hf. destruct (Z.le_gt_cases s (cursor st)).
    + destruct (H8 s) as (t1 & p1 & Ht1 & Ho1); [lia|done|]. exists t1, p1.
      rewrite list_lookup_insert_ne; [done|]. intros ->. apply (Hno s). congruence.
    + eexists t, _. rewrite list_lookup_insert_eq by (by eapply lookup_lt_Some).
      split; [done|]. simpl. lia.
  - intros s Hs Hor Hm. apply H9; [lia|lia|done].
  - destruct H10 as [G1 G2 G3 G4]. split; simpl; [done|lia|done|]. destruct (consumer st); try done.
    + destruct G4 as (? & ? & ?). split_and!; try done; lia.
    + destruct G4 as (? & ? & ?). split_and!; try done; lia.
    + destruct G4 as (? & ? & ?). split_and!; try done; lia.
  - by apply output_claim.
Qed.

(** A write to a slot the writer owns. *)
Lemma inv_write (st : state) t lo seq e rest :
  inv st → producers st !! t = Some (PWrite lo seq (e :: rest)) →
  inv (set_producer (set_ring lg st seq e) t (PWrite lo (seq + 1) rest)).
Proof.
  intros Hi Hp. pose proof (taken_nonneg _ Hi) as Ht0.
  pose proof (i_producers _ Hi _ _ Hp) as Hok. pose proof (po_rest _ _ Hok) as [Hlo Hrest].
  assert (owns (PWrite lo seq (e :: rest)) seq) as Hown by (simpl; lia).
  pose proof (owned_window _ _ _ _ Hi Hp Hown) as Hwin.
  destruct (po_range _ _ Hok seq Hown) as [Hseq Hfl].
  (** A sequence of the window other than [seq] keeps its cell. *)
  assert (∀ s, gating st < s ≤ gating st + B → s ≠ seq →
            cell (set_ring lg st seq e) s = cell st s) as Hcell.
  { intros s Hs Hne. rewrite cell_set by done. rewrite decide_False; [done|].
    intros Hsl. apply Hne. symmetry. by apply (window_slot st). }
  assert (∀ t1 p1 s, t1 ≠ t → producers st !! t1 = Some p1 → owns p1 s → s ≠ seq) as Hother.
  { intros t1 p1 s Hne Ht1 Ho ->. apply Hne. eapply (i_disjoint _ Hi t1 t); eauto. }
  assert (producer_ok (set_ring lg st seq e) (PWrite lo (seq + 1) rest)) as Hnew.
  { split; simpl.
    - intros s Hs. apply (po_range _ _ Hok). simpl. lia.
    - intros s Hs. destruct (decide (s = seq)) as [->|Hne].
      + rewrite cell_set, decide_True by done. symmetry.
        pose proof (Hrest 0%nat e eq_refl) as H0. by rewrite Z.add_0_r in H0.
      + rewrite Hcell; [|apply (owned_window _ _ _ _ Hi Hp); simpl; lia|done].
        apply (po_data _ _ Hok). simpl. lia.
    - split; [lia|]. intros i e' Hie. pose proof (Hrest (S i) e' Hie) as H0.
      by replace (seq + 1 + Z.of_nat i) with (seq + Z.of_nat (S i)) by lia. }
  pose proof Hi as [H1 H2 H3 H4 H5 H6 H7 H8 H9 H10 H11]. split; simpl; try done.
  - by rewrite length_insert.
  - intros t1 p1 [(-> & <- & _)|[Hne Ht1]]%list_lookup_insert_Some; [by destruct Hnew|].
    apply (producer_ok_frame st); try done; simpl; [by apply (H5 t1)|..].
    + intros s Hs. apply (po_range _ _ (H5 _ _ Ht1) s Hs).
    + intros s Hs. assert (owns p1 s) as Ho by (destruct p1; simpl in *; lia || done).
      apply Hcell; [by apply (owned_window _ t1 p1)|by apply (Hother t1 p1)].
  - intros t1 t2 p1 p2 s [(-> & <- & _)|[Hne1 Ht1]]%list_lookup_insert_Some
      [(-> & <- & _)|[Hne2 Ht2]]%list_lookup_insert_Some Ho1 Ho2; try done.
    + apply (H6 t1 t2 _ p2 s Hp Ht2); [simpl in *; lia|done].
    + apply (H6 t1 t2 p1 _ s Ht1 Hp); [done|simpl in *; lia].
    + by apply (H6 t1 t2 p1 p2 s).
  - intros s Hs Hf. change (flag st s = true) in Hf.
    change (cell (set_ring lg st seq e) s = entry st s).
    rewrite Hcell; [by apply H7| |intros ->; congruence].
    pose proof (co_gate _ H10). lia.
  - intros s Hs Hf. destruct (H8 s Hs Hf) as (t1 & p1 & Ht1 & Ho1).
    destruct (decide (t = t1)) as [->|Hne].
    + eexists t1, _. rewrite list_lookup_insert_eq by (by eapply lookup_lt_Some).
      split; [done|]. rewrite Hp in Ht1. injection Ht1 as <-. simpl in *. lia.
    + exists t1, p1. by rewrite list_lookup_insert_ne.
  - by destruct H10.
Qed.

(** Publishing the lowest owned sequence. *)
Lemma inv_publish (st : state) t seq hi :
  inv st → producers st !! t = Some (PPublish seq hi) → seq ≤ hi →
  inv (set_producer (set_flag lg st seq true) t (PPublish (seq + 1) hi)).
Proof.
  intros Hi Hp Hle. pose proof (taken_nonneg _ Hi) as Ht0.
  pose proof (i_producers _ Hi _ _ Hp) as Hok.
  assert (owns (PPublish seq hi) seq) as Hown by (simpl; lia).
  pose proof (owned_window _ _ _ _ Hi Hp Hown) as Hwin.
  destruct (po_range _ _ Hok seq Hown) as [Hseq Hfl].
  assert (∀ s, gating st < s ≤ gating st + B → s ≠ seq →
            flag (set_flag lg st seq true) s = flag st s) as Hflag.
  { intros s Hs Hne. rewrite flag_set by done. rewrite decide_False; [done|].
    intros Hsl. apply Hne. symmetry. by apply (window_slot st). }
  assert (∀ s, flag st s = true → flag (set_flag lg st seq true) s = true) as Hmono.
  { intros s Hs. rewrite flag_set by done. by case_decide. }
  assert (∀ t1 p1 s, t1 ≠ t → producers st !! t1 = Some p1 → owns p1 s → s ≠ seq) as Hother.
  { intros t1 p1 s Hne Ht1 Ho ->. apply Hne. eapply (i_disjoint _ Hi t1 t); eauto. }
  pose proof Hi as [H1 H2 H3 H4 H5 H6 H7 H8 H9 H10 H11]. split; simpl; try done.
  - by rewrite length_insert.
  - intros t1 p1 [(-> & <- & _)|[Hne Ht1]]%list_lookup_insert_Some.
    + split; simpl; [|intros s Hs; apply (po_data _ _ Hok); simpl; lia|done].
      intros s Hs. destruct (po_range _ _ Hok s) as [Hr Hf]; [simpl; lia|].
      split; [done|]. change (flag (set_flag lg st seq true) s = false).
      rewrite Hflag; [done|apply (owned_window _ _ _ _ Hi Hp); simpl; lia|lia].
    + apply (producer_ok_frame st); try done; simpl; [by apply (H5 t1)|].
      intros s Hs. destruct (po_range _ _ (H5 _ _ Ht1) s Hs) as [Hr Hf]. split; [done|].
      change (flag (set_flag lg st seq true) s = false).
      rewrite Hflag; [done|by apply (owned_window _ t1 p1)|by apply (Hother t1 p1)].
  - intros t1 t2 p1 p2 s [(-> & <- & _)|[Hne1 Ht1]]%list_lookup_insert_Some
      [(-> & <- & _)|[Hne2 Ht2]]%list_lookup_insert_Some Ho1 Ho2; try done.
    + apply (H6 t1 t2 _ p2 s Hp Ht2); [simpl in *; lia|done].
    + apply (H6 t1 t2 p1 _ s Ht1 Hp); [done|simpl in *; lia].
    + by apply (H6 t1 t2 p1 p2 s).
  - intros s Hs Hf. change (flag (set_flag lg st seq true) s = true) in Hf.
    change (cell st s = entry st s). destruct (decide (s = seq)) as [->|Hne].
    + apply (po_data _ _ Hok). simpl. lia.
    + apply H7; [done|]. rewrite Hflag in Hf; [done| |done]. pose proof (co_gate _ H10). lia.
  - intros s Hs Hf. change (flag (set_flag lg st seq true) s = false) in Hf.
    assert (flag st s = false) as Hf'.
    { destruct (flag st s) eqn:Es; [|done]. by rewrite (Hmono _ Es) in Hf. }
    assert (s ≠ seq) as Hne. { intros ->. rewrite flag_set, decide_True in Hf by done. done. }
    destruct (H8 s Hs Hf') as (t1 & p1 & Ht1 & Ho1).
    destruct (decide (t = t1)) as [->|Htne].
    + eexists t1, _. rewrite list_lookup_insert_eq by (by eapply lookup_lt_Some).
      split; [done|]. rewrite Hp in Ht1. injection Ht1 as <-. simpl in *. lia.
    + exists t1, p1. by rewrite list_lookup_insert_ne.
  - intros s Hs Hor Hm. change (flag (set_flag lg st seq true) s = false).
    rewrite Hflag; [by apply H9|done|lia].
  - destruct H10 as [G1 G2 G3 G4]. split; simpl; try done. destruct (consumer st); try done.
    + destruct G4 as (? & ? & G). split_and!; try done; try lia. intros x Hx. by apply Hmono, G.
    + destruct G4 as (? & ? & G). split_and!; try done. intros x Hx. by apply Hmono, G.
    + destruct G4 as (? & ? & G). split_and!; try done. intros x Hx. by apply Hmono, G.
Qed.

Lemma inv_producer_step (st st' : state) t p :
  inv st → producers st !! t = Some p → producer_step lg st t p st' → inv st'.
Proof.
  intros Hi Hp Hs. pose proof (i_producers _ Hi _ _ Hp) as Hok.
  pose proof (po_rest _ _ Hok) as Hrest.
  inversion Hs; subst; simpl in Hrest; try done;
    try (by apply (inv_set_producer st t _ _ Hi Hp); [split; simpl; try done; intros; lia|]; simpl; intros; lia).
  - by apply (inv_claim st t _ es Hi Hp); try apply Hrest; simpl; auto.
  - destruct Hrest. by apply (inv_set_producer st t _ _ Hi Hp); [split; simpl; try done; intros; lia|].
  - by apply inv_write.
  - apply (inv_set_producer st t _ _ Hi Hp); [|simpl; lia]. split; simpl; [..|done].
    + intros s Hs'. apply (po_range _ _ Hok). simpl. lia.
    + intros s Hs'. apply (po_data _ _ Hok). simpl. lia.
  - by apply inv_publish.
  - by apply (inv_claim st t _ [e] Hi Hp); simpl; auto.
Qed.

(** *** Consumer steps *)

(** A consumer step that changes nothing but its program counter, and neither
    what it has taken nor what it has put out. *)
Lemma inv_set_consumer (st : state) c :
  inv st → taken c = taken (consumer st) → (∀ s, marking c s ↔ marking (consumer st) s) →
  consumer_ok (set_consumer st c) → output_ok (set_consumer st c) → inv (set_consumer st c).
Proof.
  intros Hi Ht Hm Hc Ho. destruct Hi as [H1 H2 H3 H4 H5 H6 H7 H8 H9 H10 H11].
  split; simpl; try done; rewrite ?Ht; try done.
  - intros t p Hp. destruct (H5 t p Hp) as [G1 G2 G3]. split; simpl; rewrite ?Ht; done.
  - intros s Hs Hor Hn. apply H9; [done|done|]. by rewrite <- Hm.
Qed.

(** In the states of the loop outside a batch nothing is pending. *)
Lemma output_idle (st : state) n c :
  output_ok st → running st = true → consumer st = c → pending_batch c = [] → taken c = n →
  match c with CMarkStop _ _ => False | _ => True end →
  concat (posted st) = take (Z.to_nat n) (claimed st).
Proof.
  unfold output_ok, output. intros Ho Hr Hc Hb Ht Hns. rewrite Hr, Hc, Hb, app_nil_r in Ho.
  destruct c; simpl in *; subst; done.
Qed.

Lemma inv_scan (st : state) n s up :
  inv st → consumer st = CScan n s up → s ≤ up → flag st s = true →
  inv (set_consumer st (CScan n (s + 1) up)).
Proof.
  intros Hi Hc Hle Hf. pose proof (i_consumer _ Hi) as [G1 G2 G3 G4]. rewrite Hc in *. simpl in *.
  apply inv_set_consumer; [done|by rewrite Hc|by rewrite Hc|..].
  - split; simpl; try done. destruct G4 as (Hs & Hup & Hx). split_and!; try done; try lia.
    intros x Hxs. destruct (decide (x = s)) as [->|]; [done|]. apply Hx. lia.
  - pose proof (i_output _ Hi) as Ho. unfold output_ok, output in *. simpl. by rewrite Hc in Ho.
Qed.

(** The end of a scan: everything up to [av] is published. *)
Lemma inv_scanned (st : state) n s up av :
  inv st → consumer st = CScan n s up → av < s → av ≤ up → (av = s - 1 ∨ s = up + 1 ∧ av = up) →
  inv (set_consumer st (scanned n av)).
Proof.
  intros Hi Hc Hlt Hav Hcase. pose proof (i_consumer _ Hi) as [G1 G2 G3 G4].
  pose proof (i_output _ Hi) as Ho. rewrite Hc in *. simpl in *.
  destruct G4 as (Hs & Hup & Hx). unfold scanned. destruct (Z.ltb_spec av n).
  - apply inv_set_consumer; [done|by rewrite Hc|by rewrite Hc|by split; simpl|].
    unfold output_ok, output in *. simpl. by rewrite Hc in Ho.
  - apply inv_set_consumer; [done|by rewrite Hc|by rewrite Hc|..].
    + split; simpl; try done. split_and!; [lia|lia|]. intros x Hxs. apply Hx. lia.
    + unfold output_ok, output in *. simpl. by rewrite Hc in Ho.
Qed.

(** The entry the consumer reads is the one that was claimed. *)
Lemma read_entry (st : state) n s av b e :
  inv st → consumer st = CRead n s av b → s ≤ av → cell st s = Some e →
  flag st s = true ∧ s ≤ cursor st ∧ entry st s = Some e ∧ 0 ≤ s.
Proof.
  intros Hi Hc Hle He. pose proof (i_consumer _ Hi) as [G1 G2 G3 G4].
  pose proof (taken_nonneg _ Hi). rewrite Hc in *. simpl in *. destruct G4 as (H1 & H2 & H3).
  assert (flag st s = true) as Hf by (apply H3; lia).
  split_and!; [done|lia| |lia]. rewrite <- He. symmetry. apply (i_published _ Hi); [|done].
  rewrite Hc. simpl. lia.
Qed.

Lemma inv_read (st : state) n s av b e :
  inv st → consumer st = CRead n s av b → s ≤ av → cell st s = Some e → stops e = false →
  inv (set_consumer (set_ring lg st s (moved_from e)) (CMark n s av (b ++ [e]))).
Proof.
  intros Hi Hc Hle He Hst. destruct (read_entry _ _ _ _ _ _ Hi Hc Hle He) as (Hf & Hsc & Hen & Hs0).
  pose proof (i_consumer _ Hi) as [G1 G2 G3 G4]. pose proof (taken_nonneg _ Hi) as Ht0.
  pose proof (i_output _ Hi) as Ho. rewrite Hc in G1, G2, G3, G4, Ht0. simpl in *.
  destruct G4 as (_ & Hav & Hx). pose proof (i_window _ Hi) as [Hw1 Hw2].
  assert (∀ x, gating st < x ≤ gating st + B → x ≠ s →
            cell (set_ring lg st s (moved_from e)) x = cell st x) as Hcell.
  { intros x Hxw Hne. rewrite cell_set by done. rewrite decide_False; [done|].
    intros Hsl. apply Hne. symmetry. apply (window_slot st); [done|lia|done|done]. }
  assert (∀ t p x, producers st !! t = Some p → owns p x → s + 1 ≤ x ≤ cursor st ∧ flag st x = false)
    as Hown.
  { intros t p x Hp Hox. destruct (po_range _ _ (i_producers _ Hi _ _ Hp) x Hox) as [Hr Hfx].
    rewrite Hc in Hr. simpl in Hr. assert (x ≠ s) by congruence. split; [lia|done]. }
  pose proof Hi as [H1 H2 H3 H4 H5 H6 H7 H8 H9 H10 H11]. split; simpl; try done.
  - by rewrite length_insert.
  - intros t p Hp. apply (producer_ok_frame st); simpl; try done.
    + by apply (H5 t).
    + by rewrite Hc.
    + intros x Hox. by apply (Hown t p).
    + intros x Hwx. assert (owns p x) as Hox by (destruct p; simpl in *; lia || done).
      apply Hcell; [by apply (owned_window _ t p)|]. destruct (Hown t p x Hp Hox). lia.
  - intros x Hxr Hfx. change (cell (set_ring lg st s (moved_from e)) x = entry st x).
    rewrite Hcell by lia. apply H7; [rewrite Hc; simpl; lia|done].
  - intros x Hxr Hfx. apply H8; [rewrite Hc; simpl; lia|done].
  - intros x Hxw Hor Hm. apply H9; [done|rewrite Hc; simpl; lia|rewrite Hc; simpl; tauto].
  - split; simpl; [lia|lia|intros ? ->; lia|]. split_and!; [done|done|]. intros x Hxr. apply Hx. lia.
  - unfold output_ok, output in *. simpl. rewrite Hc in Ho. simpl in Ho. destruct (running st); [|by destruct Ho as [[] _]].
    rewrite app_assoc, Ho. symmetry. replace (Z.to_nat (s + 1)) with (S (Z.to_nat s)) by lia.
    by apply take_S_r.
Qed.

(** Clearing the flag of the sequence being consumed. *)
Lemma inv_unmark (st : state) s c (stop : bool) :
  let st' := set_consumer (if stop then stop_running (set_flag lg st s false)
                           else set_flag lg st s false) c in
  inv st → marking (consumer st) s → taken c = taken (consumer st) → (∀ x, ¬ marking c x) →
  consumer_ok st' → output_ok st' → inv st'.
Proof.
  intros st' Hi Hm Ht Hnm Hco Hout.
  pose proof (i_consumer _ Hi) as [G1 G2 G3 G4]. destruct (G3 s Hm) as [Hs Hgs].
  pose proof (taken_nonneg _ Hi) as Ht0. pose proof (i_window _ Hi) as [Hw1 Hw2].
  assert (∀ x, gating st < x ≤ gating st + B → x ≠ s → flag st' x = flag st x) as Hflag.
  { intros x Hx Hne. transitivity (flag (set_flag lg st s false) x); [by destruct stop|].
    rewrite flag_set by done. rewrite decide_False; [done|].
    intros Hsl. apply Hne. symmetry. apply (window_slot st); [done|lia|done|done]. }
  assert (flag st' s = false) as Hfs.
  { transitivity (flag (set_flag lg st s false) s); [by destruct stop|].
    by rewrite flag_set, decide_True. }
  pose proof Hi as [H1 H2 H3 H4 H5 H6 H7 H8 H9 H10 H11].
  split; try done.
  - destruct stop; simpl; by rewrite length_insert.
  - by destruct stop.
  - by destruct stop.
  - by destruct stop.
  - intros t p Hp. assert (producers st !! t = Some p) as Hp' by (by destruct stop).
    apply (producer_ok_frame st); try (by destruct stop).
    + by apply (H5 t).
    + intros x Hx. destruct (po_range _ _ (H5 t p Hp') x Hx) as [Hr Hf].
      split; [destruct stop; simpl; rewrite ?Ht; lia|].
      rewrite Hflag; [done|by apply (owned_window _ t p)|lia].
  - by destruct stop.
  - intros x Hx Hf. assert (taken (consumer st) ≤ x ≤ cursor st) as Hx'
      by (destruct stop; simpl in Hx; rewrite Ht in Hx; lia).
    rewrite Hflag in Hf by lia. specialize (H7 x Hx' Hf). by destruct stop.
  - intros x Hx Hf. assert (taken (consumer st) ≤ x ≤ cursor st) as Hx'
      by (destruct stop; simpl in Hx; rewrite Ht in Hx; lia).
    rewrite Hflag in Hf by lia. destruct (H8 x Hx' Hf) as (t & p & Hp & Ho). exists t, p. by destruct stop.
  - intros x Hx Hor _. assert (gating st' = gating st ∧ cursor st' = cursor st ∧ consumer st' = c)
      as (Eg & Ec & Eco) by (by destruct stop).
    rewrite Eg, ?Ec, ?Eco, ?Ht in *. destruct (decide (x = s)) as [->|Hne]; [done|].
    rewrite Hflag by done. apply H9; [done|done|]. intros Hmx. destruct (G3 x Hmx). lia.
Qed.

Lemma inv_mark (st : state) n s av b :
  inv st → consumer st = CMark n s av b →
  inv (set_consumer (set_flag lg st s false) (CRead n (s + 1) av b)).
Proof.
  intros Hi Hc. pose proof (i_consumer _ Hi) as [G1 G2 G3 G4]. pose proof (i_window _ Hi) as [Hw1 Hw2].
  pose proof (i_output _ Hi) as Ho. rewrite Hc in *. simpl in *. destruct G4 as (Hle & Hav & Hx).
  destruct (G3 s eq_refl) as [_ Hgs].
  apply (inv_unmark st s _ false); [done|by rewrite Hc|by rewrite Hc|simpl; tauto|..].
  - split; simpl; [lia|lia|tauto|]. split_and!; [lia|lia|]. intros x Hxr.
    change (flag (set_flag lg st s false) x = true). rewrite flag_set by done.
    rewrite decide_False; [apply Hx; lia|]. intros Hsl.
    assert (s = x) by (apply (window_slot st); [done|lia|lia|done]). lia.
  - unfold output_ok, output in *. simpl in *. rewrite Hc in Ho. done.
Qed.

Lemma inv_read_stop (st : state) n s av b e :
  inv st → consumer st = CRead n s av b → s ≤ av → cell st s = Some e → stops e = true →
  inv (set_consumer st (CMarkStop s b)).
Proof.
  intros Hi Hc Hle He Hst. destruct (read_entry _ _ _ _ _ _ Hi Hc Hle He) as (Hf & Hsc & Hen & Hs0).
  pose proof (i_consumer _ Hi) as [G1 G2 G3 G4]. pose proof (i_window _ Hi) as [Hw1 Hw2].
  pose proof (i_output _ Hi) as Ho. rewrite Hc in G1, G2, G3, G4. simpl in *.
  pose proof Hi as [H1 H2 H3 H4 H5 H6 H7 H8 H9 H10 H11]. split; simpl; try done.
  - intros t p Hp. apply (producer_ok_frame st); simpl; try done; [by apply (H5 t)|by rewrite Hc|].
    intros x Hox. destruct (po_range _ _ (H5 t p Hp) x Hox) as [Hr Hfx]. rewrite Hc in Hr. simpl in Hr.
    assert (x ≠ s) by congruence. split; [lia|done].
  - intros x Hxr Hfx. apply H7; [rewrite Hc; simpl; lia|done].
  - intros x Hxr Hfx. apply H8; [rewrite Hc; simpl; lia|done].
  - intros x Hxw Hor Hm. apply H9; [done|rewrite Hc; simpl; lia|rewrite Hc; simpl; tauto].
  - split; simpl; [lia|lia|intros ? ->; lia|done].
  - unfold output_ok, output in *. simpl. rewrite Hc in Ho. simpl in Ho.
    destruct (running st); [|by destruct Ho as [[] _]]. split; [done|]. by exists e.
Qed.

Lemma inv_mark_stop (st : state) s b :
  inv st → consumer st = CMarkStop s b →
  inv (set_consumer (stop_running (set_flag lg st s false)) (CGating s b)).
Proof.
  intros Hi Hc. pose proof (i_consumer _ Hi) as [G1 G2 G3 G4].
  pose proof (i_output _ Hi) as Ho. rewrite Hc in G1, G2, G3. simpl in *.
  apply (inv_unmark st s _ true); [done|by rewrite Hc|by rewrite Hc|simpl; tauto|..].
  - split; simpl; [lia|lia|tauto|done].
  - unfold output_ok, output in *. simpl. rewrite Hc in Ho. simpl in Ho.
    destruct (running st); [|by destruct Ho as [[] _]]. destruct Ho as [Ho (e & He & Hst)].
    split; [done|]. exists e. replace (s + 1 - 1) with s by lia. done.
Qed.

Lemma inv_gating (st : state) last b :
  inv st → consumer st = CGating last b →
  inv (set_consumer (set_gating st last b) (CHead (last + 1))).
Proof.
  intros Hi Hc. pose proof (i_consumer _ Hi) as [G1 G2 G3 G4]. pose proof (i_window _ Hi) as [Hw1 Hw2].
  pose proof (i_output _ Hi) as Ho. pose proof (taken_nonneg _ Hi) as Ht0.
  rewrite Hc in G1, G2, Ht0. simpl in *.
  pose proof Hi as [H1 H2 H3 H4 H5 H6 H7 H8 H9 H10 H11]. split; simpl; try done.
  - lia.
  - intros t p Hp. apply (producer_ok_frame st); simpl; try done.
    + by apply (H5 t).
    + by rewrite Hc.
    + intros x Hx. destruct (po_range _ _ (H5 t p Hp) x Hx) as [Hr Hf]. by rewrite Hc in Hr.
    + lia.
  - intros x Hx Hf. apply H7; [by rewrite Hc|done].
  - intros x Hx Hf. apply H8; [by rewrite Hc|done].
  - intros x Hx Hor _. change (flag st x = false). destruct (Z.le_gt_cases x (gating st + B)) as [Hle|Hgt].
    + apply H9; [lia|rewrite Hc; simpl; lia|rewrite Hc; simpl; tauto].
    + assert (flag st (x - B) = false) as Hf by (apply H9; [lia|rewrite Hc; simpl; lia|rewrite Hc; simpl; tauto]).
      unfold Disruptor.flag in *. rewrite <- (slot_wrap lg Hlg (x - B)) in Hf.
      by replace (x - B + B) with x in Hf by lia.
  - split; simpl; [lia|lia|tauto|done].
  - unfold output_ok, output in *. simpl in *. rewrite Hc in Ho. simpl in Ho.
    assert (concat (match b with [] => posted st | _ => posted st ++ [b] end) ++ [] = concat (posted st) ++ b)
      as Ecat.
    { rewrite app_nil_r. destruct b; [by rewrite app_nil_r|]. by rewrite concat_app; simpl; rewrite app_nil_r. }
    destruct (running st); by rewrite Ecat.
Qed.

(** A step of the loop that does not touch shared state. *)
Lemma inv_loop (st : state) c :
  inv st → taken c = taken (consumer st) → (∀ s, ¬ marking c s) → (∀ s, ¬ marking (consumer st) s) →
  (match c with CHead _ | CDone _ | CGating _ _ => True | CScan n s up => s = n ∧ up = cursor st | _ => False end) →
  (running st = false → match c with CScan _ _ _ => False | _ => True end) →
  pending_batch c = pending_batch (consumer st) →
  inv (set_consumer st c).
Proof.
  intros Hi Ht Hm1 Hm2 Hc Hr Hb. pose proof (i_consumer _ Hi) as [G1 G2 G3 G4].
  pose proof (i_output _ Hi) as Ho.
  apply inv_set_consumer; [done|done|intros s; split; intros; [by destruct (Hm1 s)|by destruct (Hm2 s)]|..].
  - split; simpl; rewrite ?Ht; try done; [intros s Hs; by destruct (Hm1 s)|].
    destruct c; try done. simpl in *. destruct Hc as [-> ->]. split_and!; [lia|lia|done|]. intros; lia.
  - unfold output_ok, output in *. simpl. rewrite Hb, Ht. destruct (running st).
    + assert (concat (posted st) ++ pending_batch (consumer st) =
              take (Z.to_nat (taken (consumer st))) (claimed st)) as E1.
      { destruct (consumer st); simpl in *; try done. by exfalso; eapply Hm2. }
      rewrite <- Ht in E1. by destruct c.
    + destruct Ho as [_ Ho]. split; [|done]. specialize (Hr eq_refl). by destruct c.
Qed.

Lemma inv_consumer_step (st st' : state) : inv st → consumer_step lg stops moved_from st (consumer st) st' → inv st'.
Proof.
  intros Hi Hs. pose proof (i_consumer _ Hi) as Hc.
  inversion Hs as [n Hr Hp|n Hr Hp|n s up Hle Hf Hp|n s up Hle Hf Hp|n s up Hlt Hp|n Hle Hp
                  |n s av b e Hle He Hst Hp|n s av b Hp|n s av b e Hle He Hst Hp|s b Hp|n s av b Hlt Hp|last b Hp];
    symmetry in Hp; subst st'; pose proof (co_pc _ Hc) as Hpc; rewrite Hp in Hpc.
  - apply inv_loop; rewrite ?Hp; simpl; try done; tauto.
  - apply inv_loop; rewrite ?Hp, ?Hr; simpl; try done; tauto.
  - by apply (inv_scan st n s up).
  - apply (inv_scanned st n s up); try done; lia.
  - apply (inv_scanned st n s up); try done; lia.
  - apply inv_loop; rewrite ?Hp; simpl; try done; tauto.
  - by apply inv_read.
  - by apply inv_mark.
  - by apply (inv_read_stop st n s av b e).
  - by apply inv_mark_stop.
  - apply inv_loop; rewrite ?Hp; simpl; try done; try tauto; lia.
  - by apply inv_gating.
Qed.

Lemma inv_initial threads dflt : inv (initial lg threads dflt).
Proof.
  assert (∀ s, flag (initial lg threads dflt) s = false) as Hf.
  { intros s. unfold Disruptor.flag. simpl. rewrite nth_lookup.
    destruct (_ !! slot s) eqn:El; [|done]. by apply lookup_replicate in El as [-> _]. }
  pose proof (buffer_size_pos lg). split; simpl; try done; try (rewrite length_replicate; lia); try lia.
  - intros t p [-> _]%lookup_replicate. by split.
  - intros t1 t2 p1 p2 s [-> _]%lookup_replicate. done.
Qed.

Lemma inv_reachable threads dflt (st : state) :
  reachable lg stops moved_from threads dflt st → inv st.
Proof.
  unfold reachable. intros Hr. remember (initial lg threads dflt) as st0 eqn:E0.
  assert (inv st0) as H0 by (rewrite E0; apply inv_initial). clear E0.
  induction Hr as [|st0 st1 st2 Hs _ IH]; [done|]. apply IH. inversion Hs; subst.
  - eapply (inv_producer_step st0); eauto.
  - by apply (inv_consumer_step st0).
Qed.
End Safety.

(** ** Theorems *)

Section Theorems.
Context {E : Type}.
Variable lg : nat.
Variable stops : E → bool.
Variable moved_from : E → E.
Variables (threads : nat) (dflt : E).

Abbreviation reach := (reachable lg stops moved_from threads dflt).
Abbreviation step := (step lg stops moved_from).

Lemma output_prefix (st : state) :
  (lg ≤ 63)%nat → reach st →
  ∃ k, (k ≤ length (claimed st))%nat ∧ output st = take k (claimed st) ∧
       (running st = false → ∃ e, claimed st !! k = Some e ∧ stops e = true).
Proof.
  intros Hlg Hr. pose proof (inv_reachable lg Hlg _ _ _ _ _ Hr) as Hi.
  pose proof (i_output _ _ _ Hi) as Ho. pose proof (i_claimed _ _ _ Hi) as Hc.
  pose proof (co_taken _ _ (i_consumer _ _ _ Hi)) as Ht. unfold output_ok in Ho.
  destruct (running st).
  - exists (match consumer st with CMarkStop s _ => Z.to_nat s | c => Z.to_nat (taken c) end).
    destruct (consumer st); simpl in *; (split; [lia|]); try done. by destruct Ho.
  - destruct Ho as (_ & e & He & Hs & Ho). exists (Z.to_nat (taken (consumer st) - 1)).
    split; [lia|]. split; [done|]. intros _. by exists e.
Qed.

(** C4: the disruptor delivers in order, without loss or duplication: in every
    reachable state of any number of producers running [next]/[next_batch]/
    [try_next], writes and [publish], what the consumer has handed on is
    exactly the first [k] claimed entries, in claim order and with the
    contents their producers wrote.  The consumer only stops at a shutdown
    entry. *)
Theorem disruptor_in_order (st : state) :
  (lg ≤ 63)%nat → reach st →
  ∃ k, (k ≤ length (claimed st))%nat ∧ output st = take k (claimed st) ∧
       (running st = false → ∃ e, claimed st !! k = Some e ∧ stops e = true).
Proof. apply output_prefix. Qed.

(** A producer about to write is alone on its slot. *)
Lemma write_alone (st : state) (t : nat) (lo seq : Z) (e : E) (rest : list E) :
  (lg ≤ 63)%nat → inv lg stops st → producers st !! t = Some (PWrite lo seq (e :: rest)) →
  seq - buffer_size lg < taken (consumer st) ∧ flag lg st seq = false ∧
  (∀ s, taken (consumer st) ≤ s ≤ cursor st → slot lg s = slot lg seq → s = seq) ∧
  (∀ t' p' s, producers st !! t' = Some p' → owns p' s → slot lg s = slot lg seq → t' = t).
Proof.
  intros Hlg Hi Hp.
  assert (owns (PWrite lo seq (e :: rest)) seq) as Hown.
  { pose proof (po_rest _ _ _ (i_producers _ _ _ Hi _ _ Hp)) as [Hlo _]. simpl. lia. }
  destruct (po_range _ _ _ (i_producers _ _ _ Hi _ _ Hp) seq Hown) as [Hseq Hf].
  pose proof (owned_window lg Hlg stops _ _ _ _ Hi Hp Hown) as Hw.
  pose proof (co_gate _ _ (i_consumer _ _ _ Hi)) as Hg. pose proof (i_window _ _ _ Hi) as [Hw1 Hw2].
  split_and!; [lia|done|..].
  - intros s Hs Hsl. eapply (window_slot lg Hlg stops st); [done|lia|lia|done].
  - intros t' p' s Hp' Ho Hsl.
    assert (s = seq) as -> by (eapply (window_slot lg Hlg stops st); [done|by eapply owned_window|done|done]).
    by eapply (i_disjoint _ _ _ Hi t' t).
Qed.

(** A published entry the consumer has not taken keeps its flag and its cell
    in every step of any thread. *)
Lemma published_stable (st st' : state) s :
  (lg ≤ 63)%nat → inv lg stops st → step st st' →
  taken (consumer st') ≤ s ≤ cursor st → flag lg st s = true →
  flag lg st' s = true ∧ cell lg st' s = cell lg st s.
Proof.
  intros Hlg Hi Hst Hs Hf.
  pose proof (i_window _ _ _ Hi) as [Hw1 Hw2].
  pose proof (i_consumer _ _ _ Hi) as [Hg Ht Hm Hpc].
  destruct Hst as [st t p st' Hp Hst|st st' Hst].
  - destruct Hst; simpl in *; try done.
    + assert (owns (PWrite lo seq (e :: rest)) seq) as Hown.
      { pose proof (po_rest _ _ _ (i_producers _ _ _ Hi _ _ Hp)) as [Hlo _]. simpl. lia. }
      pose proof (owned_window lg Hlg stops _ _ _ _ Hi Hp Hown) as Hw.
      destruct (po_range _ _ _ (i_producers _ _ _ Hi _ _ Hp) seq Hown) as [_ Hf'].
      split; [done|]. change (cell lg (set_ring lg st seq e) s = cell lg st s).
      rewrite (cell_set lg Hlg stops) by done. rewrite decide_False; [done|]. intros Hsl.
      assert (seq = s) by (eapply (window_slot lg Hlg stops st); [done|done|lia|done]). congruence.
    + split; [|done]. change (flag lg (set_flag lg st seq true) s = true).
      rewrite (flag_set lg Hlg stops) by done. by case_decide.
  - remember (consumer st) as c eqn:Ec. destruct Hst; simpl in *; try done.
    + split; [done|]. change (cell lg (set_ring lg st s0 (moved_from e)) s = cell lg st s).
      rewrite (cell_set lg Hlg stops) by done. rewrite decide_False; [done|]. intros Hsl.
      assert (s0 = s) by (eapply (window_slot lg Hlg stops st); [done|lia|lia|done]). lia.
    + destruct (Hm s0 eq_refl) as [_ Hs0]. split; [|done].
      change (flag lg (set_flag lg st s0 false) s = true).
      rewrite (flag_set lg Hlg stops) by done. rewrite decide_False; [done|]. intros Hsl.
      assert (s0 = s) by (eapply (window_slot lg Hlg stops st); [done|lia|lia|done]). lia.
    + destruct (Hm s0 eq_refl) as [_ Hs0]. split; [|done].
      change (flag lg (set_flag lg st s0 false) s = true).
      rewrite (flag_set lg Hlg stops) by done. rewrite decide_False; [done|]. intros Hsl.
      assert (s0 = s) by (eapply (window_slot lg Hlg stops st); [done|lia|lia|done]). lia.
Qed.

(** Every sequence up to the cursor has its entry in the history. *)
Lemma entry_claimed (st : state) s :
  (lg ≤ 63)%nat → inv lg stops st → taken (consumer st) ≤ s ≤ cursor st →
  ∃ e, entry st s = Some e.
Proof.
  intros Hlg Hi Hs. pose proof (i_claimed _ _ _ Hi). pose proof (taken_nonneg lg Hlg stops st Hi).
  apply (lookup_lt_is_Some_2 (claimed st)). lia.
Qed.

(** C5: no overwriting, in every reachable state of any number of producers
    and the consumer.  The ring cell of every published sequence the consumer
    has not taken holds the entry that was claimed under that sequence, and
    every step of every thread leaves that cell and its flag as they are until
    the consumer takes the entry.  The cell of a claimed sequence whose
    producer has written it and not yet published it holds the claimed entry
    too.  And a producer about to write finds the slot unavailable, its
    previous entry consumed, and shared with no other claimed sequence and no
    other producer. *)
Theorem disruptor_no_overwrite (st : state) :
  (lg ≤ 63)%nat → reach st →
  (∀ s, taken (consumer st) ≤ s ≤ cursor st → flag lg st s = true →
     (∃ e, claimed st !! Z.to_nat s = Some e ∧ ring st !! slot lg s = Some e) ∧
     ∀ st', step st st' → taken (consumer st') ≤ s →
       flag lg st' s = true ∧ ring st' !! slot lg s = ring st !! slot lg s) ∧
  (∀ t p s, producers st !! t = Some p → written p s →
     ∃ e, claimed st !! Z.to_nat s = Some e ∧ ring st !! slot lg s = Some e) ∧
  (∀ t lo seq e rest, producers st !! t = Some (PWrite lo seq (e :: rest)) →
     seq - buffer_size lg < taken (consumer st) ∧ flag lg st seq = false ∧
     (∀ s, taken (consumer st) ≤ s ≤ cursor st → slot lg s = slot lg seq → s = seq) ∧
     (∀ t' p' s, producers st !! t' = Some p' → owns p' s → slot lg s = slot lg seq → t' = t)).
Proof.
  intros Hlg Hr. pose proof (inv_reachable lg Hlg _ _ _ _ _ Hr) as Hi. split_and!.
  - intros s Hs Hf. destruct (entry_claimed _ _ Hlg Hi Hs) as [e He]. split.
    + exists e. split; [done|]. etrans; [by apply (i_published _ _ _ Hi)|done].
    + intros st' Hst Ht. apply (published_stable st st'); [done..|lia|done].
  - intros t p s Hp Hw. assert (owns p s) as Ho.
    { pose proof (po_rest _ _ _ (i_producers _ _ _ Hi _ _ Hp)). destruct p; simpl in *; lia || done. }
    destruct (po_range _ _ _ (i_producers _ _ _ Hi _ _ Hp) s Ho) as [Hs _].
    destruct (entry_claimed _ _ Hlg Hi Hs) as [e He]. exists e. split; [done|].
    etrans; [by apply (po_data _ _ _ (i_producers _ _ _ Hi _ _ Hp))|done].
  - intros t lo seq e rest Hp. by apply (write_alone st t lo seq e rest).
Qed.

(** The back-pressure bound: the number of claimed and unconsumed sequences
    stays between 0 and the buffer size, so [remaining_capacity] is never
    negative and never exceeds it. *)
Theorem disruptor_bounded (st : state) :
  (lg ≤ 63)%nat → reach st →
  0 ≤ remaining_capacity (mkSequencer (cursor st) (gating st) (Z.to_nat (buffer_size lg)) (flags st))
    ≤ buffer_size lg.
Proof.
  intros Hlg Hr. pose proof (inv_reachable lg Hlg _ _ _ _ _ Hr) as Hi.
  pose proof (co_gate _ _ (i_consumer _ _ _ Hi)). pose proof (co_taken _ _ (i_consumer _ _ _ Hi)).
  pose proof (i_window _ _ _ Hi) as [Hw1 Hw2]. pose proof (buffer_size_pos lg).
  unfold remaining_capacity. simpl. lia.
Qed.

Lemma idle_published (st : state) s :
  (lg ≤ 63)%nat → inv lg stops st → Forall (λ p, p = PIdle) (producers st) →
  taken (consumer st) ≤ s ≤ cursor st → flag lg st s = true ∧ cell lg st s = entry st s.
Proof.
  intros Hlg Hi Hidle Hs. destruct (flag lg st s) eqn:Ef.
  - split; [done|]. by apply (i_published _ _ _ Hi).
  - destruct (i_owned _ _ _ Hi s Hs Ef) as (t & p & Hp & Ho).
    rewrite Forall_lookup in Hidle. by rewrite (Hidle t p Hp) in Ho.
Qed.

(** *** Running the consumer alone *)

Lemma reach_step (st st' : state) : reach st → step st st' → reach st'.
Proof. intros Hr Hs. eapply rtc_r; done. Qed.

(** The parts of the state a run of the consumer preserves. *)
Definition same_input (st st' : @state E) : Prop :=
  producers st' = producers st ∧ claimed st' = claimed st ∧ cursor st' = cursor st ∧
  running st' = running st.

Lemma run_scan (st : state) n s (k : nat) :
  (lg ≤ 63)%nat → reach st → Forall (λ p, p = PIdle) (producers st) → n ≤ s →
  consumer st = CScan n s (cursor st) → cursor st + 1 - s = Z.of_nat k →
  ∃ st', rtc step st st' ∧ same_input st st' ∧ consumer st' = CScan n (cursor st + 1) (cursor st).
Proof.
  intros Hlg. revert st s. induction k as [|k IH]; intros st s Hr Hid Hn Hc Hk.
  { exists st. split_and!; [done|done|]. rewrite Hc. f_equal; lia. }
  pose proof (inv_reachable lg Hlg _ _ _ _ _ Hr) as Hi.
  destruct (idle_published st s Hlg Hi Hid) as [Hf _]; [rewrite Hc; simpl; lia|].
  assert (step st (set_consumer st (CScan n (s + 1) (cursor st)))) as Hs.
  { apply step_consumer. rewrite Hc. constructor; [lia|done]. }
  destruct (IH _ (s + 1) (reach_step _ _ Hr Hs)) as (st' & H1 & H2 & H3); simpl; [done|lia|done|lia|].
  exists st'. split_and!; [by eapply rtc_l|done|done].
Qed.

Lemma run_read (st : state) n s b (k : nat) :
  (lg ≤ 63)%nat → reach st → Forall (λ p, p = PIdle) (producers st) →
  Forall (λ e, stops e = false) (claimed st) →
  consumer st = CRead n s (cursor st) b → cursor st + 1 - s = Z.of_nat k →
  ∃ st' b', rtc step st st' ∧ same_input st st' ∧ consumer st' = CRead n (cursor st + 1) (cursor st) b'.
Proof.
  intros Hlg. revert st s b. induction k as [|k IH]; intros st s b Hr Hid Hns Hc Hk.
  { exists st, b. split_and!; [done|done|]. rewrite Hc. f_equal; lia. }
  pose proof (inv_reachable lg Hlg _ _ _ _ _ Hr) as Hi.
  assert (0 ≤ taken (consumer st)) as Ht by (eapply taken_nonneg; eauto).
  pose proof (i_claimed _ _ _ Hi) as Hcl.
  destruct (idle_published st s Hlg Hi Hid) as [Hf He]; [rewrite Hc; simpl; lia|].
  rewrite Hc in Ht. simpl in Ht. destruct (lookup_lt_is_Some_2 (claimed st) (Z.to_nat s)) as [e Hen]; [lia|].
  unfold entry in He. rewrite Hen in He.
  assert (stops e = false) as Hst by (rewrite Forall_lookup in Hns; by eapply Hns).
  assert (step st (set_consumer (set_ring lg st s (moved_from e)) (CMark n s (cursor st) (b ++ [e])))) as Hs1.
  { apply step_consumer. rewrite Hc. constructor; [lia|done|done]. }
  set (st1 := set_consumer _ _) in Hs1.
  assert (step st1 (set_consumer (set_flag lg st1 s false) (CRead n (s + 1) (cursor st) (b ++ [e])))) as Hs2.
  { apply step_consumer. simpl. constructor. }
  destruct (IH _ (s + 1) (b ++ [e]) (reach_step _ _ (reach_step _ _ Hr Hs1) Hs2))
    as (st' & b' & H1 & H2 & H3); simpl; [done|done|done|lia|].
  exists st', b'. split_and!; [|done|done]. eapply rtc_l; [exact Hs1|]. by eapply rtc_l.
Qed.

Lemma head_output (st : state) n :
  (lg ≤ 63)%nat → reach st → running st = true → consumer st = CHead n →
  0 ≤ n ≤ cursor st + 1 ∧ output st = take (Z.to_nat n) (claimed st) ∧
  length (claimed st) = Z.to_nat (cursor st + 1).
Proof.
  intros Hlg Hr Hrun Hc. pose proof (inv_reachable lg Hlg _ _ _ _ _ Hr) as Hi.
  assert (0 ≤ taken (consumer st)) as Ht by (eapply taken_nonneg; eauto).
  pose proof (co_taken _ _ (i_consumer _ _ _ Hi)) as Hk. pose proof (i_claimed _ _ _ Hi) as Hcl.
  pose proof (i_output _ _ _ Hi) as Ho. unfold output_ok in Ho. rewrite Hrun, Hc in Ho.
  rewrite Hc in Ht, Hk. simpl in *. split_and!; [lia|lia|done|lia].
Qed.

(** C6: when every producer has published what it claimed, the logger runs, no
    shutdown entry has been claimed and the consumer is at the head of its loop,
    its next iteration delivers everything: it reaches the loop head again with
    all claimed entries in its output. *)
Theorem disruptor_drains (st : state) (n : Z) :
  (lg ≤ 63)%nat → reach st → Forall (λ p, p = PIdle) (producers st) → running st = true →
  Forall (λ e, stops e = false) (claimed st) → consumer st = CHead n →
  ∃ st', rtc step st st' ∧ output st' = claimed st ∧ claimed st' = claimed st ∧
         consumer st' = CHead (cursor st + 1).
Proof.
  intros Hlg Hr Hid Hrun Hns Hc. destruct (head_output st n Hlg Hr Hrun Hc) as (Hn & Ho & Hl).
  destruct (decide (n = cursor st + 1)) as [->|Hne].
  { exists st. split_and!; [done| |done|done]. rewrite Ho. apply take_ge. lia. }
  assert (step st (set_consumer st (CScan n n (cursor st)))) as Hs1.
  { apply step_consumer. rewrite Hc. by constructor. }
  pose proof (reach_step _ _ Hr Hs1) as Hr1.
  destruct (run_scan _ n n (Z.to_nat (cursor st + 1 - n)) Hlg Hr1) as (st2 & R2 & (Ep & Ecl & Ecu & Er) & C2);
    simpl in *; [done|lia|done|lia|].
  assert (step st2 (set_consumer st2 (CRead n n (cursor st2) []))) as Hs3.
  { replace (CRead n n (cursor st2) []) with (@scanned E n (cursor st2)).
    - apply step_consumer. rewrite C2. rewrite Ecu. apply c_all. lia.
    - unfold scanned. destruct (Z.ltb_spec (cursor st2) n); [lia|done]. }
  assert (reach st2) as Hr2 by (by eapply (transitivity Hr1)).
  pose proof (reach_step _ _ Hr2 Hs3) as Hr3.
  destruct (run_read _ n n [] (Z.to_nat (cursor st + 1 - n)) Hlg Hr3)
    as (st4 & b & R4 & (Ep4 & Ecl4 & Ecu4 & Er4) & C4); simpl in *; [by rewrite Ep|by rewrite Ecl|done|lia|].
  rewrite Ecu in C4.
  assert (step st4 (set_consumer st4 (CGating (cursor st + 1 - 1) b))) as Hs5.
  { apply step_consumer. rewrite C4. apply c_read_done. lia. }
  set (st5 := set_consumer st4 _) in Hs5.
  assert (step st5 (set_consumer (set_gating st5 (cursor st + 1 - 1) b) (CHead (cursor st + 1 - 1 + 1)))) as Hs6.
  { apply step_consumer. simpl. apply c_gating. }
  assert (reach st4) as Hr4 by (by eapply (transitivity Hr3)).
  pose proof (reach_step _ _ (reach_step _ _ Hr4 Hs5) Hs6) as Hr6.
  replace (cursor st + 1 - 1 + 1) with (cursor st + 1) in * by lia.
  destruct (head_output _ _ Hlg Hr6 ltac:(simpl; congruence) eq_refl) as (_ & Ho6 & Hl6).
  exists (set_consumer (set_gating st5 (cursor st + 1 - 1) b) (CHead (cursor st + 1))).
  split_and!; [| | |done].
  - eapply rtc_l; [exact Hs1|]. etrans; [exact R2|]. eapply rtc_l; [exact Hs3|].
    etrans; [exact R4|]. eapply rtc_l; [exact Hs5|]. by apply rtc_once.
  - rewrite Ho6. simpl. rewrite take_ge; [congruence|]. simpl in Hl6. rewrite Ecl4, Ecl. lia.
  - simpl. congruence.
Qed.
End Theorems.

(** ** A run of one producer and the consumer on a ring of two slots *)

Module Run.
Definition stops (e : nat) : bool := false.
Definition moved_from (e : nat) : nat := 0%nat.

(** Sequence 0 claimed, its entry not yet written. *)
Definition at_write : state :=
  mkState 0 (-1) [false; false] [0%nat; 0%nat] [PWrite 0 0 [7%nat]] (CHead 0) true [] [7%nat].
(** Published, the producer idle again. *)
Definition at_idle : state :=
  mkState 0 (-1) [true; false] [7%nat; 0%nat] [PIdle] (CHead 0) true [] [7%nat].

(** Take a step of producer 0 by rule [r]. *)
Ltac producer_rule r :=
  eapply rtc_l;
  [eapply (step_producer _ _ _ _ 0%nat); [reflexivity|eapply r; try done]|cbn].

Lemma at_write_reachable : reachable 1 stops moved_from 1 0%nat at_write.
Proof.
  unfold reachable.
  eapply rtc_l; [eapply (step_producer _ _ _ _ 0%nat); [reflexivity|by apply (p_start _ _ _ [7%nat])]|].
  producer_rule @p_read.
  producer_rule @p_gate_pass.
  producer_rule @p_cas.
  apply rtc_refl.
Qed.

Lemma at_idle_reachable : reachable 1 stops moved_from 1 0%nat at_idle.
Proof.
  eapply (transitivity at_write_reachable).
  producer_rule @p_write.
  producer_rule @p_written.
  producer_rule @p_publish.
  producer_rule @p_published.
  apply rtc_refl.
Qed.
End Run.

Lemma disruptor_in_order_witness :
  ∃ k, (k ≤ length (claimed Run.at_idle))%nat ∧ output Run.at_idle = take k (claimed Run.at_idle) ∧
       (running Run.at_idle = false → ∃ e, claimed Run.at_idle !! k = Some e ∧ Run.stops e = true).
Proof. apply (disruptor_in_order 1 Run.stops Run.moved_from 1 0%nat); [lia|apply Run.at_idle_reachable]. Defined.

Lemma disruptor_no_overwrite_witness :
  (∃ e, claimed Run.at_idle !! 0%nat = Some e ∧ ring Run.at_idle !! slot 1 0 = Some e) ∧
  0 - buffer_size 1 < taken (consumer Run.at_write) ∧ flag 1 Run.at_write 0 = false.
Proof.
  destruct (disruptor_no_overwrite 1 Run.stops Run.moved_from 1 0%nat Run.at_idle) as (Hpub & _ & _);
    [lia|apply Run.at_idle_reachable|].
  destruct (disruptor_no_overwrite 1 Run.stops Run.moved_from 1 0%nat Run.at_write) as (_ & _ & Hw);
    [lia|apply Run.at_write_reachable|].
  split.
  - destruct (Hpub 0) as [H _]; [vm_compute; split; discriminate|reflexivity|exact H].
  - destruct (Hw 0%nat 0 0 7%nat []) as (H1 & H2 & _); [reflexivity|exact (conj H1 H2)].
Defined.

Lemma disruptor_bounded_witness :
  0 ≤ remaining_capacity (mkSequencer (cursor Run.at_idle) (gating Run.at_idle)
                            (Z.to_nat (buffer_size 1)) (flags Run.at_idle)) ≤ buffer_size 1.
Proof. apply (disruptor_bounded 1 Run.stops Run.moved_from 1 0%nat); [lia|apply Run.at_idle_reachable]. Defined.

Lemma disruptor_drains_witness :
  ∃ st', rtc (step 1 Run.stops Run.moved_from) Run.at_idle st' ∧ output st' = [7%nat] ∧
         claimed st' = [7%nat] ∧ consumer st' = CHead 1.
Proof.
  apply (disruptor_drains 1 Run.stops Run.moved_from 1 0%nat Run.at_idle 0);
    [lia|apply Run.at_idle_reachable|by repeat constructor|done|by repeat constructor|done].
Defined.
