(* ===== verification/WaitStrategies.v ===== *)
(** * Wait strategies

    [common/multithread/disruptor/wait_strategies]: how the consumer waits in
    [wait_for(sequence, cursor)] for the producers to claim a sequence, and
    what [signal()] does for it, as a step relation between one waiting
    thread and any number of producers.  A producer moves the cursor (the
    claim) and later calls [signal()] (the end of [publish]). *)

From stdpp Require Import relations.
From S2P Require Import Prelude.

Local Open Scope Z_scope.

Inductive strategy : Type := BusySpin | Yielding | Blocking | TimeoutBlocking.

(** The waiting thread.  [Spin]: the loops of the two spinning strategies.
    The blocking ones look once ([Quick]), take the mutex ([Lock]), test the
    predicate ([Check]) and, if it fails, enter [cv_.wait] ([Park], [Sleep]). *)
Inductive waiter : Type :=
  | Spin
  | Quick
  | Lock
  | Check
  | Park
  | Sleep
  | Returned (available_sequence : Z).

(** A producer: about to advance the cursor by one, about to signal, finished. *)
Inductive publisher : Type := Claim | Signal | Finished.

Record wstate := mkW {
  wcursor : Z;
  thread : waiter;
  publishers : list publisher;
}.

Section Wait.
Variable strat : strategy.
Variable sequence : Z.

Definition enter : waiter :=
  match strat with BusySpin | Yielding => Spin | Blocking | TimeoutBlocking => Quick end.

Definition with_thread (st : wstate) (w : waiter) : wstate := mkW (wcursor st) w (publishers st).

(** [cv_.notify_one()], without the mutex; the spinning strategies do nothing. *)
Definition signal (w : waiter) : waiter :=
  match w with Sleep => Check | w => w end.

(** [spurious]: a wake-up that no one asked for. *)
Inductive wait_step : bool → wstate → wstate → Prop :=
  | w_spin st : thread st = Spin → wcursor st < sequence → wait_step false st st
  | w_spin_done st : thread st = Spin → sequence ≤ wcursor st →
      wait_step false st (with_thread st (Returned (wcursor st)))
  | w_quick st : thread st = Quick → sequence ≤ wcursor st →
      wait_step false st (with_thread st (Returned (wcursor st)))
  | w_quick_fail st : thread st = Quick → wcursor st < sequence → wait_step false st (with_thread st Lock)
  | w_lock st : thread st = Lock → wait_step false st (with_thread st Check)
  | w_check st : thread st = Check → sequence ≤ wcursor st →
      wait_step false st (with_thread st (Returned (wcursor st)))
  | w_check_fail st : thread st = Check → wcursor st < sequence → wait_step false st (with_thread st Park)
  | w_park st : thread st = Park → wait_step false st (with_thread st Sleep)
  | w_timeout st : strat = TimeoutBlocking → thread st = Sleep → wait_step false st (with_thread st Check)
  | w_spurious st : thread st = Sleep → wait_step true st (with_thread st Check)
  | w_claim st t : publishers st !! t = Some Claim →
      wait_step false st (mkW (wcursor st + 1) (thread st) (<[t:=Signal]> (publishers st)))
  | w_signal st t : publishers st !! t = Some Signal →
      wait_step false st (mkW (wcursor st) (signal (thread st)) (<[t:=Finished]> (publishers st))).

Definition any_step (st st' : wstate) : Prop := ∃ sp, wait_step sp st st'.

Definition wait_initial (cursor : Z) (n : nat) : wstate := mkW cursor enter (replicate n Claim).

Definition returned_ok (st : wstate) : Prop :=
  match thread st with Returned v => sequence ≤ v ≤ wcursor st | _ => True end.

Lemma returned_ok_step st st' : returned_ok st → any_step st st' → returned_ok st'.
Proof.
  intros H [sp Hs]. unfold returned_ok in *.
  inversion Hs; subst; simpl; try done; try lia.
  - destruct (thread st); lia || done.
  - destruct (thread st); simpl; lia || done.
Qed.

Lemma returned_ok_reachable cursor n st : rtc any_step (wait_initial cursor n) st → returned_ok st.
Proof.
  intros Hr. remember (wait_initial cursor n) as st0 eqn:E0.
  assert (returned_ok st0) as H0. { rewrite E0. unfold returned_ok, wait_initial, enter. simpl. by destruct strat. }
  clear E0. induction Hr; [done|]. eauto using returned_ok_step.
Qed.

End Wait.

(** Whatever the strategy, [wait_for] returns a cursor value it has read
    that is at least the requested sequence, and no more than has been
    claimed. *)
Theorem wait_for_returns_claimed (strat : strategy) (sequence cursor : Z) (n : nat) (st : wstate) (v : Z) :
  rtc (any_step strat sequence) (wait_initial strat cursor n) st → thread st = Returned v →
  sequence ≤ v ≤ wcursor st.
Proof.
  intros Hr Hv. apply returned_ok_reachable in Hr. unfold returned_ok in Hr. by rewrite Hv in Hr.
Qed.

Lemma wait_for_returns_claimed_witness : 0 ≤ 0 ≤ wcursor (mkW 0 (Returned 0) [Signal]).
Proof.
  apply (wait_for_returns_claimed Yielding 0 (-1) 1); [|done].
  eapply rtc_l; [exists false; by apply (w_claim Yielding 0 (wait_initial Yielding (-1) 1) 0)|].
  eapply rtc_l; [exists false; by apply w_spin_done|]. apply rtc_refl.
Defined.

(** [BlockingWaitStrategy] can lose a wake-up: [signal()] does not take the
    mutex, so it can run between the consumer's test of the cursor and its
    going to sleep.  There is a run after which the sequence the consumer
    waits for is claimed, every producer is finished, and the consumer sleeps
    with no step left but a spurious wake-up. *)
Theorem blocking_lost_wakeup (sequence : Z) :
  ∃ st, rtc (wait_step Blocking sequence false) (wait_initial Blocking (sequence - 1) 1) st ∧
        sequence ≤ wcursor st ∧ thread st = Sleep ∧ Forall (λ p, p = Finished) (publishers st) ∧
        ∀ st', ¬ wait_step Blocking sequence false st st'.
Proof.
  exists (mkW (sequence - 1 + 1) Sleep [Finished]). split_and!; simpl; [|lia|done|by repeat constructor|].
  - eapply rtc_l; [apply w_quick_fail; simpl; [done|lia]|].
    eapply rtc_l; [by apply w_lock|].
    eapply rtc_l; [apply w_check_fail; simpl; [done|lia]|].
    eapply rtc_l; [by eapply (w_claim _ _ _ 0)|]. simpl.
    eapply rtc_l; [by eapply (w_signal _ _ _ 0)|]. simpl.
    eapply rtc_l; [by apply w_park|]. apply rtc_refl.
  - intros st' Hs. inversion Hs; subst; simpl in *; try done.
    + by destruct t as [|[|]].
    + by destruct t as [|[|]].
Qed.
