(* ===== verification/StaticSequencer.v ===== *)
(** * The compile-time sized disruptor

    [StaticMultiProducerSequencer<BufferSize>] and [StaticRingBuffer<T,
    BufferSize>]: the operations of the dynamic ones with the size in the type,
    a mask that is a constant, flags in an array.  The back-pressure loop of
    [next] and [next_batch] is modelled with its spin counter, at its width,
    against the gating sequences it reads. *)

From S2P Require Import Prelude Bytes Disruptor.

Local Open Scope Z_scope.

Section Static.
Variable BufferSize : nat.

Definition INDEX_MASK : Z := Z.of_nat BufferSize - 1.
(** [static_assert(std::has_single_bit(BufferSize))] *)
Definition instantiable : bool := has_single_bit BufferSize.

(** [sequence & INDEX_MASK] *)
Definition mask_index (sequence : Z) : nat := Z.to_nat (Z.land (to_unsigned 64 sequence) INDEX_MASK).

Record StaticSequencer := mkStatic { s_cursor_ : Z; s_gating_sequence_ : Z; s_available_flags_ : list bool }.

Definition make_static (initial_cursor : Z) : StaticSequencer :=
  mkStatic initial_cursor initial_cursor (replicate BufferSize false).

Definition static_try_next (q : StaticSequencer) : StaticSequencer * Z :=
  let next := s_cursor_ q + 1 in
  if s_gating_sequence_ q <? next - Z.of_nat BufferSize then (q, -1)
  else (mkStatic next (s_gating_sequence_ q) (s_available_flags_ q), next).

Definition static_store (q : StaticSequencer) (sequence : Z) (b : bool) : StaticSequencer :=
  mkStatic (s_cursor_ q) (s_gating_sequence_ q) (<[mask_index sequence := b]> (s_available_flags_ q)).
Definition static_publish (q : StaticSequencer) (sequence : Z) : StaticSequencer := static_store q sequence true.
Definition static_mark_consumed (q : StaticSequencer) (sequence : Z) : StaticSequencer := static_store q sequence false.

Fixpoint static_publish_loop (q : StaticSequencer) (n : nat) (seq : Z) : StaticSequencer :=
  match n with
  | O => q
  | S n' => static_publish_loop (static_store q seq true) n' (seq + 1)
  end.
Definition static_publish_batch (q : StaticSequencer) (lo hi : Z) : StaticSequencer :=
  static_publish_loop q (Z.to_nat (hi - lo + 1)) lo.

Definition static_is_available (q : StaticSequencer) (sequence : Z) : bool :=
  nth (mask_index sequence) (s_available_flags_ q) false.

Fixpoint static_scan (q : StaticSequencer) (n : nat) (seq available_sequence : Z) : Z :=
  match n with
  | O => available_sequence
  | S n' => if negb (static_is_available q seq) then seq - 1 else static_scan q n' (seq + 1) available_sequence
  end.
Definition static_get_highest_published (q : StaticSequencer) (lower_bound available_sequence : Z) : Z :=
  static_scan q (Z.to_nat (available_sequence - lower_bound + 1)) lower_bound available_sequence.

Definition static_update_gating (q : StaticSequencer) (sequence : Z) : StaticSequencer :=
  mkStatic (s_cursor_ q) sequence (s_available_flags_ q).
Definition static_get_cursor (q : StaticSequencer) : Z := s_cursor_ q.
Definition static_get_gating (q : StaticSequencer) : Z := s_gating_sequence_ q.
Definition static_remaining_capacity (q : StaticSequencer) : Z :=
  Z.of_nat BufferSize - (s_cursor_ q - s_gating_sequence_ q).

(** *** next and next_batch *)

Definition SPIN_BEFORE_YIELD : Z := 100.

(** The loop [while (wrap_point > gating_seq)]: [readings] are the gating
    sequences it reads, one per iteration; [std::int16_t spin_count] wraps.  The
    result is the number of [yield]s and the readings left, or [None] when the
    readings end first; every value of the counter is collected in [counts]. *)
Fixpoint spin (readings : list Z) (wrap_point gating_seq spin_count : Z) (yields : nat) (counts : list Z)
    : option (nat * list Z * list Z) :=
  if gating_seq <? wrap_point then
    match readings with
    | [] => None
    | g :: readings' =>
        let bumped := to_signed 16 (spin_count + 1) in
        if bumped <? SPIN_BEFORE_YIELD
        then spin readings' wrap_point g bumped yields (counts ++ [bumped])
        else spin readings' wrap_point g 0 (S yields) (counts ++ [bumped])
    end
  else Some (yields, readings, counts).

(** One claim of [n] sequences whose compare-and-set succeeds: the gating
    sequence read first, then those of the loop.  The result is the first
    sequence of the batch. *)
Definition static_next_batch (n : Z) (q : StaticSequencer) (readings : list Z) : option (Z * StaticSequencer) :=
  let current := s_cursor_ q in
  let next := current + n in
  match spin readings (next - Z.of_nat BufferSize) (s_gating_sequence_ q) 0 0 [] with
  | Some _ => Some (current + 1, mkStatic next (s_gating_sequence_ q) (s_available_flags_ q))
  | None => None
  end.
(** [next()]: a batch of one. *)
Definition static_next (q : StaticSequencer) (readings : list Z) : option (Z * StaticSequencer) :=
  static_next_batch 1 q readings.

(** *** StaticRingBuffer *)

Definition static_ring {T} (dflt : T) : list T := replicate BufferSize dflt.
Definition ring_get {T} (buffer : list T) (sequence : Z) : option T := buffer !! mask_index sequence.
Definition ring_set {T} (buffer : list T) (sequence : Z) (v : T) : list T := <[mask_index sequence := v]> buffer.
Definition ring_capacity : nat := BufferSize.

(** ** The dynamic sequencer of the same size *)

Definition as_dynamic (q : StaticSequencer) : Sequencer :=
  mkSequencer (s_cursor_ q) (s_gating_sequence_ q) BufferSize (s_available_flags_ q).

Lemma scan_dynamic q n seq available :
  available = seq + Z.of_nat n - 1 → static_scan q n seq available = scan_published (as_dynamic q) n seq.
Proof.
  revert seq. induction n as [|n IH]; intros seq ->; simpl; [lia|].
  change (is_available (as_dynamic q) seq) with (static_is_available q seq).
  destruct (static_is_available q seq); simpl; [|done]. apply IH. lia.
Qed.

Lemma publish_dynamic q n seq :
  as_dynamic (static_publish_loop q n seq) = publish_range (as_dynamic q) n seq.
Proof. revert q seq. induction n as [|n IH]; intros q seq; simpl; [done|]. apply IH. Qed.

(** The static disruptor is the dynamic one: a size accepted by the
    [static_assert] is one the dynamic constructor accepts, both start in the same
    state, and every operation takes corresponding states to corresponding states
    with the same result. *)
Theorem static_matches_dynamic (q : StaticSequencer) (c lo hi : Z) :
  make_sequencer BufferSize c = (if instantiable then Ok (as_dynamic (make_static c)) else Throw invalid_argument) ∧
  (as_dynamic (static_try_next q).1, (static_try_next q).2) = try_next (as_dynamic q) ∧
  as_dynamic (static_publish q lo) = publish (as_dynamic q) lo ∧
  as_dynamic (static_mark_consumed q lo) = mark_consumed (as_dynamic q) lo ∧
  as_dynamic (static_publish_batch q lo hi) = publish_batch (as_dynamic q) lo hi ∧
  static_is_available q lo = is_available (as_dynamic q) lo ∧
  static_get_highest_published q lo hi = get_highest_published (as_dynamic q) lo hi ∧
  as_dynamic (static_update_gating q lo) = update_gating_sequence (as_dynamic q) lo ∧
  static_remaining_capacity q = remaining_capacity (as_dynamic q).
Proof.
  split_and!; try done.
  - unfold static_try_next, try_next, would_wrap. simpl. by case_match.
  - apply publish_dynamic.
  - unfold static_get_highest_published, get_highest_published. destruct (Z.leb_spec lo hi).
    + apply scan_dynamic. lia.
    + replace (Z.to_nat (hi - lo + 1)) with 0%nat by lia. done.
Qed.

(** The readings that end a back-pressure loop. *)
Definition passes_gate (wrap_point : Z) (readings : list Z) : Prop := Exists (λ g, wrap_point ≤ g) readings.

Lemma spin_counts readings wp g c y counts y' rest counts' :
  0 ≤ c < SPIN_BEFORE_YIELD → spin readings wp g c y counts = Some (y', rest, counts') →
  Forall (λ k, 0 ≤ k ≤ SPIN_BEFORE_YIELD) counts → Forall (λ k, 0 ≤ k ≤ SPIN_BEFORE_YIELD) counts'.
Proof.
  unfold SPIN_BEFORE_YIELD. revert g c y counts. induction readings as [|r rs IH]; intros g c y counts Hc; simpl;
    (destruct (g <? wp); [|by intros [= <- <- <-]]); [done|]. intros Hs Hf.
  assert (to_signed 16 (c + 1) = c + 1) as E by (unfold to_signed; rewrite Z.mod_small; lia).
  rewrite E in Hs. unfold SPIN_BEFORE_YIELD in Hs. destruct (Z.ltb_spec (c + 1) 100).
  - eapply IH; [|exact Hs|]; [lia|]. apply Forall_app. split; [done|]. repeat constructor; lia.
  - eapply IH; [|exact Hs|]; [lia|]. apply Forall_app. split; [done|]. repeat constructor; lia.
Qed.

Lemma spin_returns readings wp g c y counts :
  is_Some (spin readings wp g c y counts) ↔ (wp ≤ g ∨ passes_gate wp readings).
Proof.
  unfold passes_gate. revert g c y counts. induction readings as [|r rs IH]; intros g c y counts; simpl;
    destruct (Z.ltb_spec g wp); rewrite ?Exists_nil, ?Exists_cons.
  - split; [by intros []|]. intros [|[]]; lia.
  - split; [auto|by eexists].
  - case_match; rewrite IH; intuition lia.
  - split; [auto|by eexists].
Qed.

(** Back-pressure of the static sequencer: a claim of [n] sequences returns,
    with the [n] sequences after the cursor, exactly when one of the gating
    sequences it reads leaves room for them; its 16-bit spin counter never wraps,
    at most [SPIN_BEFORE_YIELD] spins lie between two yields.  A batch larger than
    the buffer never returns, because the consumer cannot pass the cursor. *)
Theorem static_backpressure (n : Z) (q : StaticSequencer) (readings : list Z) :
  let wrap_point := s_cursor_ q + n - Z.of_nat BufferSize in
  (is_Some (static_next_batch n q readings) ↔ (wrap_point ≤ s_gating_sequence_ q ∨ passes_gate wrap_point readings)) ∧
  (∀ first q', static_next_batch n q readings = Some (first, q') →
     first = s_cursor_ q + 1 ∧ s_cursor_ q' = s_cursor_ q + n) ∧
  (∀ yields rest counts, spin readings wrap_point (s_gating_sequence_ q) 0 0 [] = Some (yields, rest, counts) →
     Forall (λ k, 0 ≤ k ≤ SPIN_BEFORE_YIELD) counts) ∧
  (Z.of_nat BufferSize < n → Forall (λ g, g ≤ s_cursor_ q) (s_gating_sequence_ q :: readings) →
     static_next_batch n q readings = None).
Proof.
  cbv zeta. set (wp := s_cursor_ q + n - Z.of_nat BufferSize).
  assert (is_Some (static_next_batch n q readings) ↔ (wp ≤ s_gating_sequence_ q ∨ passes_gate wp readings)) as Hret.
  { rewrite <- (spin_returns readings wp (s_gating_sequence_ q) 0 0 []). unfold static_next_batch. fold wp.
    destruct (spin _ _ _ _ _ _); split; intros []; try done; by eexists. }
  split_and!; [done| | |].
  - intros first q'. unfold static_next_batch. fold wp. case_match; [|done]. by intros [= <- <-].
  - intros yields rest counts Hs. eapply spin_counts; [|exact Hs|constructor]. unfold SPIN_BEFORE_YIELD. lia.
  - intros Hn [Hg Hr]%Forall_cons. apply eq_None_not_Some. rewrite Hret. unfold passes_gate.
    intros [Hw|(g & Hi & Hw)%Exists_exists]; [lia|]. rewrite Forall_forall in Hr.
    specialize (Hr g Hi). simpl in *. lia.
Qed.
End Static.
