(* ===== verification/SlidingWindowSorter.v ===== *)
(** * SlidingWindowSorter

    [common/algorithms/sliding_window_sorter/sliding_window_sorter.hpp]: entries
    arrive in any order, are sorted batch by batch, merged into a sorted window
    and handed to a consumer from the front of the window.  The theorems: no
    entry is ever lost or duplicated, every batch the consumer gets is sorted
    and not above what stays in the window, and the buffers stay bounded. *)

From Stdlib Require Import Sorting.Sorted.
From S2P Require Import Prelude.

Section Sorter.
Context {T : Type}.

(** [SlidingWindowConfig] *)
Record Config := mkConfig {
  window_size : nat;
  batch_size : nat;
  enable_sorting : bool;
  comparator : T → T → bool;
  use_inplace_merge : bool;
  merge_threshold : nat;
}.

(** [outputs]: the vectors the consumer was called with, first to last. *)
Record Sorter := mkSorter {
  config_ : Config;
  sorted_window_ : list T;
  new_entries_ : list T;
  outputs : list (list T);
  total_processed_ : nat;
  merge_operations_ : nat;
  sort_operations_ : nat;
}.

Definition make_sorter (cfg : Config) : Sorter := mkSorter cfg [] [] [] 0 0 0.

(** [std::sort] with a comparator: an unspecified order among equivalent
    elements, so a parameter. *)
Variable std_sort : (T → T → bool) → list T → list T.
(** [sorted_window_.capacity()] for a window of the given size. *)
Variable capacity : nat → nat.

(** *** Standard algorithms *)

(** [std::upper_bound(first, it, key, comp)] splits the range: what is not
    above the key, and the rest. *)
Fixpoint upper_bound (comp : T → T → bool) (key : T) (l : list T) : nat :=
  match l with
  | [] => 0
  | x :: l' => if comp key x then 0 else S (upper_bound comp key l')
  end.

(** [std::merge]: stable, ties from the first range. *)
Fixpoint merge (comp : T → T → bool) (l1 : list T) : list T → list T :=
  match l1 with
  | [] => λ l2, l2
  | x :: l1' =>
      fix go l2 :=
        match l2 with
        | [] => x :: l1'
        | y :: l2' => if comp y x then y :: go l2' else x :: merge comp l1' (y :: l2')
        end
  end.

(** [std::inplace_merge(first, middle, last)] *)
Definition inplace_merge (comp : T → T → bool) (l : list T) (middle : nat) : list T :=
  merge comp (take middle l) (drop middle l).

(** *** The class *)

(** One iteration of [insertion_sort]: [key] goes behind the elements of the
    sorted prefix that are not above it. *)
Definition insert_key (comp : T → T → bool) (prefix : list T) (key : T) : list T :=
  let pos := upper_bound comp key prefix in
  take pos prefix ++ key :: drop pos prefix.

Definition insertion_sort (comp : T → T → bool) (l : list T) : list T :=
  match l with
  | [] => []
  | x :: l' => foldl (insert_key comp) [x] l'
  end.

Definition can_use_inplace_merge (s : Sorter) : bool :=
  length (sorted_window_ s) + length (new_entries_ s) <=? capacity (length (sorted_window_ s)).

Definition perform_inplace_merge (s : Sorter) : list T :=
  let old_size := length (sorted_window_ s) in
  inplace_merge (comparator (config_ s)) (sorted_window_ s ++ new_entries_ s) old_size.

Definition perform_standard_merge (s : Sorter) : list T :=
  merge (comparator (config_ s)) (sorted_window_ s) (new_entries_ s).

Definition merge_with_window (s : Sorter) : Sorter :=
  let window := if use_inplace_merge (config_ s) && can_use_inplace_merge s
                then perform_inplace_merge s else perform_standard_merge s in
  mkSorter (config_ s) window [] (outputs s) (total_processed_ s) (merge_operations_ s) (sort_operations_ s).

Definition sort_and_merge (s : Sorter) : Sorter :=
  match new_entries_ s with
  | [] => s
  | _ =>
      let comp := comparator (config_ s) in
      let sorted := if length (new_entries_ s) <=? merge_threshold (config_ s)
                    then insertion_sort comp (new_entries_ s) else std_sort comp (new_entries_ s) in
      let s1 := mkSorter (config_ s) (sorted_window_ s) sorted (outputs s) (total_processed_ s)
                         (merge_operations_ s) (S (sort_operations_ s)) in
      match sorted_window_ s with
      | [] => mkSorter (config_ s1) sorted [] (outputs s1) (total_processed_ s1)
                       (merge_operations_ s1) (sort_operations_ s1)
      | _ => let s2 := merge_with_window s1 in
             mkSorter (config_ s2) (sorted_window_ s2) (new_entries_ s2) (outputs s2)
                      (total_processed_ s2) (S (merge_operations_ s2)) (sort_operations_ s2)
      end
  end.

Definition calculate_output_count (s : Sorter) : nat :=
  if length (sorted_window_ s) <? window_size (config_ s) then 0
  else Nat.max (length (sorted_window_ s) - window_size (config_ s)) (batch_size (config_ s)).

Definition output_entries (s : Sorter) (count : nat) : Sorter :=
  if (count =? 0) || (length (sorted_window_ s) =? 0) then s
  else
    let n := Nat.min count (length (sorted_window_ s)) in
    let output := take n (sorted_window_ s) in
    mkSorter (config_ s) (drop n (sorted_window_ s)) (new_entries_ s) (outputs s ++ [output])
             (total_processed_ s + length output) (merge_operations_ s) (sort_operations_ s).

Definition maintain_window_size (s : Sorter) : Sorter :=
  if window_size (config_ s) <? length (sorted_window_ s) then
    let excess := length (sorted_window_ s) - window_size (config_ s) in
    mkSorter (config_ s) (drop excess (sorted_window_ s)) (new_entries_ s) (outputs s)
             (total_processed_ s) (merge_operations_ s) (sort_operations_ s)
  else s.

Definition append_unsorted (s : Sorter) : Sorter :=
  mkSorter (config_ s) (sorted_window_ s ++ new_entries_ s) [] (outputs s)
           (total_processed_ s) (merge_operations_ s) (sort_operations_ s).

Definition process_batch (force_all : bool) (s : Sorter) : Sorter :=
  if (length (new_entries_ s) =? 0) && (length (sorted_window_ s) =? 0) then s
  else
    let s1 := if enable_sorting (config_ s) then sort_and_merge s else append_unsorted s in
    let output_count := if force_all then length (sorted_window_ s1) else calculate_output_count s1 in
    let s2 := if 0 <? output_count then output_entries s1 output_count else s1 in
    maintain_window_size s2.

Definition should_process (s : Sorter) : bool := batch_size (config_ s) <=? length (new_entries_ s).

Definition with_new (s : Sorter) (l : list T) : Sorter :=
  mkSorter (config_ s) (sorted_window_ s) l (outputs s) (total_processed_ s)
           (merge_operations_ s) (sort_operations_ s).

Definition add_entries (entries : list T) (s : Sorter) : Sorter :=
  match entries with
  | [] => s
  | _ => let s1 := with_new s (new_entries_ s ++ entries) in
         if should_process s1 then process_batch false s1 else s1
  end.

Definition add_entry (entry : T) (s : Sorter) : Sorter :=
  let s1 := with_new s (new_entries_ s ++ [entry]) in
  if should_process s1 then process_batch false s1 else s1.

Definition flush (s : Sorter) : Sorter :=
  if negb (length (new_entries_ s) =? 0) || negb (length (sorted_window_ s) =? 0)
  then process_batch true s else s.

Definition reconfigure (cfg : Config) (s : Sorter) : Sorter :=
  let s1 := flush s in
  mkSorter cfg (sorted_window_ s1) (new_entries_ s1) (outputs s1) (total_processed_ s1)
           (merge_operations_ s1) (sort_operations_ s1).

(** The public operations, and what each of them puts in. *)
Inductive op : Type :=
  | AddEntries (l : list T)
  | AddEntry (x : T)
  | Flush
  | Reconfigure (cfg : Config).
Definition run_op (s : Sorter) (o : op) : Sorter :=
  match o with
  | AddEntries l => add_entries l s
  | AddEntry x => add_entry x s
  | Flush => flush s
  | Reconfigure cfg => reconfigure cfg s
  end.
Definition input (o : op) : list T :=
  match o with AddEntries l => l | AddEntry x => [x] | _ => [] end.

(** ** Sorting and merging *)

(** A strict weak order. *)
Definition strict_weak (comp : T → T → bool) : Prop :=
  (∀ x y, comp x y = true → comp y x = false) ∧
  (∀ x y z, comp y x = false → comp z y = false → comp z x = false).

(** [x] may come before [y]. *)
Definition before (comp : T → T → bool) (x y : T) : Prop := comp y x = false.
Abbreviation sorted comp := (StronglySorted (before comp)).

(** What the standard says about [std::sort]. *)
Definition sort_spec : Prop :=
  ∀ comp l, strict_weak comp → std_sort comp l ≡ₚ l ∧ sorted comp (std_sort comp l).

Lemma insert_key_perm comp l x : insert_key comp l x ≡ₚ x :: l.
Proof. unfold insert_key. rewrite <- Permutation_middle. by rewrite take_drop. Qed.

Lemma insertion_sort_perm comp l : insertion_sort comp l ≡ₚ l.
Proof.
  destruct l as [|x l]; [done|]. simpl.
  assert (∀ acc, foldl (insert_key comp) acc l ≡ₚ l ++ acc) as H.
  { induction l as [|y l IH]; intros acc; simpl; [done|]. rewrite IH, insert_key_perm.
    by rewrite Permutation_middle. }
  rewrite H. by rewrite Permutation_app_comm.
Qed.

Lemma merge_perm comp l1 l2 : merge comp l1 l2 ≡ₚ l1 ++ l2.
Proof.
  revert l2. induction l1 as [|x l1 IH1]; intros l2; [done|].
  induction l2 as [|y l2 IH2]; simpl; [by rewrite app_nil_r|]. destruct (comp y x).
  - simpl in IH2. rewrite IH2. rewrite <- Permutation_middle. apply perm_swap.
  - by rewrite IH1.
Qed.

Lemma inplace_merge_eq comp l1 l2 : inplace_merge comp (l1 ++ l2) (length l1) = merge comp l1 l2.
Proof. unfold inplace_merge. by rewrite take_app_length, drop_app_length. Qed.

Section Order.
Variable comp : T → T → bool.
Hypothesis Hcomp : strict_weak comp.

Lemma before_trans x y z : before comp x y → before comp y z → before comp x z.
Proof. destruct Hcomp as [_ Ht]. unfold before. eauto. Qed.
Lemma before_of x y : comp x y = true → before comp x y.
Proof. destruct Hcomp as [Ha _]. apply Ha. Qed.

Lemma sorted_insert l x : sorted comp l → sorted comp (insert_key comp l x).
Proof.
  intros Hl. unfold insert_key. induction Hl as [|y l Hl IH Hy]; simpl; [by repeat constructor|].
  destruct (comp x y) eqn:Exy; simpl.
  - constructor; [by constructor|]. constructor; [by apply before_of|].
    eapply List.Forall_impl; [|exact Hy]. intros z Hz. eapply before_trans; [by apply before_of|done].
  - constructor; [done|]. rewrite (insert_key_perm comp l x). constructor; [done|done].
Qed.

Lemma insertion_sort_sorted l : sorted comp (insertion_sort comp l).
Proof.
  destruct l as [|x l]; [constructor|]. simpl.
  assert (∀ acc, sorted comp acc → sorted comp (foldl (insert_key comp) acc l)) as H.
  { induction l as [|y l IH]; intros acc Hacc; simpl; [done|]. by apply IH, sorted_insert. }
  apply H. by repeat constructor.
Qed.

Lemma merge_sorted l1 l2 : sorted comp l1 → sorted comp l2 → sorted comp (merge comp l1 l2).
Proof.
  intros H1. revert l2. induction H1 as [|x l1 H1 IH1 Hx]; intros l2 H2; [done|].
  induction H2 as [|y l2 H2 IH2 Hy]; simpl; [by constructor|]. destruct (comp y x) eqn:Eyx.
  - constructor; [exact IH2|].
    assert (before comp y x) as Hyx by (by apply before_of).
    change (Forall (before comp y) (merge comp (x :: l1) l2)). rewrite merge_perm. apply Forall_app. split.
    + constructor; [done|]. eapply List.Forall_impl; [|exact Hx]. intros z. by apply before_trans.
    + done.
  - constructor; [by apply IH1; constructor|]. rewrite merge_perm. apply Forall_app. split; [done|].
    constructor; [done|]. eapply List.Forall_impl; [|exact Hy]. intros z. by apply before_trans.
Qed.
End Order.

(** ** The operations *)

Definition cfg_ok (cfg : Config) : Prop := strict_weak (comparator cfg).

(** Everything that went in and where it is now. *)
Definition content (s : Sorter) : list T := concat (outputs s) ++ sorted_window_ s ++ new_entries_ s.

Record inv (s : Sorter) : Prop := {
  i_cfg : cfg_ok (config_ s);
  i_window : length (sorted_window_ s) ≤ window_size (config_ s);
  i_sorted : enable_sorting (config_ s) = true → sorted (comparator (config_ s)) (sorted_window_ s);
  i_total : total_processed_ s = length (concat (outputs s));
}.

Hypothesis Hsort : sort_spec.

(** [sort_and_merge]: the new entries are in the window, which is sorted. *)
Lemma sort_and_merge_spec s :
  cfg_ok (config_ s) → sorted (comparator (config_ s)) (sorted_window_ s) →
  let s' := sort_and_merge s in
  config_ s' = config_ s ∧ outputs s' = outputs s ∧ total_processed_ s' = total_processed_ s ∧
  new_entries_ s' = [] ∧ sorted_window_ s' ≡ₚ sorted_window_ s ++ new_entries_ s ∧
  sorted (comparator (config_ s)) (sorted_window_ s').
Proof.
  intros Hcfg Hw. unfold sort_and_merge. destruct (new_entries_ s) as [|x new] eqn:En.
  { cbv zeta. rewrite app_nil_r. done. }
  cbv zeta. set (sorted_new := if _ <=? _ then _ else _).
  assert (sorted_new ≡ₚ x :: new ∧ sorted (comparator (config_ s)) sorted_new) as [Hp Hs].
  { unfold sorted_new. destruct (_ <=? _).
    - split; [apply insertion_sort_perm|by apply insertion_sort_sorted].
    - by apply Hsort. }
  destruct (sorted_window_ s) as [|w window] eqn:Ew; simpl.
  { split_and!; try done. }
  unfold perform_inplace_merge, perform_standard_merge. simpl.
  change (w :: window ++ sorted_new) with ((w :: window) ++ sorted_new).
  change (S (length window)) with (length (w :: window)). rewrite inplace_merge_eq.
  assert (∀ b : bool, (if b then merge (comparator (config_ s)) (w :: window) sorted_new
                       else merge (comparator (config_ s)) (w :: window) sorted_new)
                      = merge (comparator (config_ s)) (w :: window) sorted_new) as Hif by (by intros []).
  split_and!; try done.
  - rewrite Hif, merge_perm, Hp. done.
  - rewrite Hif. by apply merge_sorted.
Qed.

(** The new entries join the window, sorted or not. *)
Definition absorb (s : Sorter) : Sorter :=
  if enable_sorting (config_ s) then sort_and_merge s else append_unsorted s.

Lemma absorb_spec s :
  cfg_ok (config_ s) →
  (enable_sorting (config_ s) = true → sorted (comparator (config_ s)) (sorted_window_ s)) →
  let s' := absorb s in
  config_ s' = config_ s ∧ outputs s' = outputs s ∧ total_processed_ s' = total_processed_ s ∧
  new_entries_ s' = [] ∧ sorted_window_ s' ≡ₚ sorted_window_ s ++ new_entries_ s ∧
  (enable_sorting (config_ s) = true → sorted (comparator (config_ s)) (sorted_window_ s')).
Proof.
  intros Hcfg Hw. unfold absorb. destruct (enable_sorting (config_ s)) eqn:Ee; [|done].
  destruct (sort_and_merge_spec s Hcfg (Hw eq_refl)) as (H1 & H2 & H3 & H4 & H5 & H6).
  split_and!; done.
Qed.

(** Handing out the first [n] entries of the window leaves the rest; nothing is
    left for [maintain_window_size] to drop. *)
Lemma output_maintain s count :
  length (sorted_window_ s) - count ≤ window_size (config_ s) →
  let n := Nat.min count (length (sorted_window_ s)) in
  let s' := maintain_window_size (if 0 <? count then output_entries s count else s) in
  config_ s' = config_ s ∧ new_entries_ s' = new_entries_ s ∧
  sorted_window_ s' = drop n (sorted_window_ s) ∧
  outputs s' = outputs s ++ (if n =? 0 then [] else [take n (sorted_window_ s)]) ∧
  total_processed_ s' = total_processed_ s + n.
Proof.
  intros Hc n. cbv zeta.
  set (s1 := if 0 <? count then output_entries s count else s).
  assert (config_ s1 = config_ s ∧ new_entries_ s1 = new_entries_ s ∧
          sorted_window_ s1 = drop n (sorted_window_ s) ∧
          outputs s1 = outputs s ++ (if n =? 0 then [] else [take n (sorted_window_ s)]) ∧
          total_processed_ s1 = total_processed_ s + n) as Hs1.
  { unfold s1, output_entries. destruct (Nat.ltb_spec 0 count) as [Hpos|Hz].
    - destruct (Nat.eqb_spec count 0); [lia|]. simpl. destruct (Nat.eqb_spec (length (sorted_window_ s)) 0) as [E|E].
      + assert (n = 0) as -> by lia. simpl. rewrite app_nil_r, Nat.add_0_r. done.
      + simpl. fold n. destruct (Nat.eqb_spec n 0); [lia|]. rewrite length_take. split_and!; try done. lia.
    - assert (n = 0) as -> by lia. simpl. rewrite app_nil_r, Nat.add_0_r. done. }
  destruct Hs1 as (H1 & H2 & H3 & H4 & H5). unfold maintain_window_size.
  rewrite H3, H1, length_drop. destruct (Nat.ltb_spec (window_size (config_ s)) (length (sorted_window_ s) - n)); [lia|].
  done.
Qed.

Lemma output_count_enough s :
  length (sorted_window_ s) - calculate_output_count s ≤ window_size (config_ s).
Proof.
  unfold calculate_output_count. destruct (Nat.ltb_spec (length (sorted_window_ s)) (window_size (config_ s))); lia.
Qed.

Lemma sorted_take_drop comp n (l : list T) :
  sorted comp l →
  sorted comp (take n l) ∧ sorted comp (drop n l) ∧
  ∀ x y, x ∈ take n l → y ∈ drop n l → before comp x y.
Proof.
  intros Hl. revert n. induction Hl as [|z l Hl IH Hz]; intros [|n]; simpl.
  - split_and!; try constructor; intros x y Hx; by apply not_elem_of_nil in Hx.
  - split_and!; try constructor; intros x y Hx; by apply not_elem_of_nil in Hx.
  - split_and!; [constructor|by constructor|]. intros x y Hx; by apply not_elem_of_nil in Hx.
  - destruct (IH n) as (H1 & H2 & H3). split_and!; [constructor; [done|]|done|].
    + by apply Forall_take.
    + intros x y [->|Hx]%elem_of_cons Hy; [|by apply H3].
      rewrite Forall_forall in Hz. apply Hz. rewrite <- (take_drop n l). apply elem_of_app. by right.
Qed.

(** *** [process_batch] *)

(** The one batch a [process_batch] may hand on: [out], when it is not empty. *)
Lemma process_batch_spec force s :
  cfg_ok (config_ s) →
  (enable_sorting (config_ s) = true → sorted (comparator (config_ s)) (sorted_window_ s)) →
  total_processed_ s = length (concat (outputs s)) →
  let s' := process_batch force s in
  config_ s' = config_ s ∧ new_entries_ s' = [] ∧ (force = true → sorted_window_ s' = []) ∧
  inv s' ∧ content s' ≡ₚ content s ∧
  ∃ out, outputs s' = outputs s ++ (match out with [] => [] | _ => [out] end) ∧
    (enable_sorting (config_ s) = true → sorted (comparator (config_ s)) out ∧
       ∀ x y, x ∈ out → y ∈ sorted_window_ s' → before (comparator (config_ s)) x y).
Proof.
  intros Hcfg Hw Htot. cbv zeta. unfold process_batch.
  destruct ((length (new_entries_ s) =? 0) && (length (sorted_window_ s) =? 0)) eqn:Eempty.
  { apply andb_true_iff in Eempty as [E1%Nat.eqb_eq E2%Nat.eqb_eq].
    apply nil_length_inv in E1, E2. split_and!; try done.
    - split; try done. by rewrite E2; simpl; lia.
    - exists []. rewrite app_nil_r. split; [done|]. intros _. split; [constructor|].
      intros x y Hx; by apply not_elem_of_nil in Hx. }
  fold (absorb s). destruct (absorb_spec s Hcfg Hw) as (A1 & A2 & A3 & A4 & A5 & A6).
  set (count := if force then length (sorted_window_ (absorb s)) else calculate_output_count (absorb s)).
  assert (length (sorted_window_ (absorb s)) - count ≤ window_size (config_ (absorb s))) as Hcount.
  { unfold count. destruct force; [lia|]. apply output_count_enough. }
  destruct (output_maintain (absorb s) count Hcount) as (B1 & B2 & B3 & B4 & B5).
  set (s' := maintain_window_size _) in *. set (n := Nat.min count _) in *.
  assert (concat (outputs s') = concat (outputs s) ++ take n (sorted_window_ (absorb s))) as Hcat.
  { rewrite B4, A2, concat_app. f_equal. destruct (Nat.eqb_spec n 0) as [->|]; simpl; [done|by rewrite app_nil_r]. }
  assert (n ≤ length (sorted_window_ (absorb s))) as Hn by lia.
  split_and!.
  - congruence.
  - congruence.
  - intros ->. rewrite B3. apply drop_ge. unfold n, count. lia.
  - split.
    + by rewrite B1, A1.
    + rewrite B3, B1, length_drop. unfold n. lia.
    + rewrite B1, A1, B3. intros Hen. by apply sorted_take_drop, A6.
    + rewrite Hcat, B5, A3, Htot, length_app, length_take. lia.
  - unfold content. rewrite Hcat, B2, A4, app_nil_r, B3, <- app_assoc, take_drop, A5. done.
  - exists (take n (sorted_window_ (absorb s))). split.
    + rewrite B4, A2. f_equal. destruct (Nat.eqb_spec n 0) as [->|Hne]; [done|].
      destruct (take n _) eqn:Et; [|done]. apply (f_equal length) in Et. rewrite length_take in Et. simpl in Et. lia.
    + rewrite B3. intros Hen. specialize (A6 Hen). apply (sorted_take_drop _ n) in A6. tauto.
Qed.

(** *** The public operations *)

Definition op_ok (o : op) : Prop := match o with Reconfigure cfg => cfg_ok cfg | _ => True end.

Lemma inv_with_new s l : inv s → inv (with_new s l).
Proof. intros [H1 H2 H3 H4]. by split. Qed.

Lemma content_with_new s l : content (with_new s (new_entries_ s ++ l)) = content s ++ l.
Proof. unfold content. simpl. by rewrite <- !app_assoc. Qed.

(** Adding entries and processing them when there are enough. *)
Lemma add_spec s l :
  inv s →
  let s1 := with_new s (new_entries_ s ++ l) in
  let s' := if should_process s1 then process_batch false s1 else s1 in
  inv s' ∧ content s' ≡ₚ content s ++ l.
Proof.
  intros Hi. cbv zeta. set (s1 := with_new s (new_entries_ s ++ l)).
  pose proof (inv_with_new s (new_entries_ s ++ l) Hi) as Hi1. fold s1 in Hi1.
  rewrite <- content_with_new. fold s1. destruct (should_process s1); [|done].
  destruct Hi1 as [H1 H2 H3 H4]. by destruct (process_batch_spec false s1 H1 H3 H4) as (_ & _ & _ & ? & ? & _).
Qed.

Lemma flush_spec s :
  inv s → inv (flush s) ∧ content (flush s) ≡ₚ content s ∧
          sorted_window_ (flush s) = [] ∧ new_entries_ (flush s) = [] ∧ config_ (flush s) = config_ s.
Proof.
  intros [H1 H2 H3 H4]. unfold flush.
  destruct (negb (length (new_entries_ s) =? 0) || negb (length (sorted_window_ s) =? 0)) eqn:E.
  - destruct (process_batch_spec true s H1 H3 H4) as (? & ? & Hw & ? & ? & _). split_and!; auto.
  - apply orb_false_iff in E as [E1%negb_false_iff%Nat.eqb_eq E2%negb_false_iff%Nat.eqb_eq].
    apply nil_length_inv in E1, E2. done.
Qed.

Lemma run_op_spec s o :
  inv s → op_ok o → inv (run_op s o) ∧ content (run_op s o) ≡ₚ content s ++ input o.
Proof.
  intros Hi Ho. destruct o as [l|x| |cfg]; simpl in *.
  - unfold add_entries. destruct l as [|y l]; [by rewrite app_nil_r|]. by apply add_spec.
  - by apply add_spec.
  - rewrite app_nil_r. by destruct (flush_spec s Hi) as (? & ? & _).
  - rewrite app_nil_r. destruct (flush_spec s Hi) as (Hi' & Hc & Hw & Hn & _). unfold reconfigure.
    split; [|exact Hc]. destruct Hi' as [H1 H2 H3 H4]. split; simpl; try done; rewrite Hw; simpl; [lia|].
    intros _. constructor.
Qed.

Definition run_ops (cfg : Config) (ops : list op) : Sorter := foldl run_op (make_sorter cfg) ops.

Lemma run_ops_spec cfg ops :
  cfg_ok cfg → Forall op_ok ops →
  inv (run_ops cfg ops) ∧ content (run_ops cfg ops) ≡ₚ concat (map input ops).
Proof.
  intros Hcfg Hops. unfold run_ops.
  assert (∀ s, inv s → inv (foldl run_op s ops) ∧
                       content (foldl run_op s ops) ≡ₚ content s ++ concat (map input ops)) as H.
  { induction Hops as [|o ops Ho Hops IH]; intros s Hi; simpl; [by rewrite app_nil_r|].
    destruct (run_op_spec s o Hi Ho) as [Hi1 Hc1]. destruct (IH _ Hi1) as [Hi2 Hc2].
    split; [done|]. by rewrite Hc2, Hc1, <- app_assoc. }
  destruct (H (make_sorter cfg)) as [H1 H2]; [|by split].
  split; simpl; [done|lia|intros; constructor|done].
Qed.
End Sorter.

(** ** Theorems *)

Arguments Config : clear implicits.
Arguments op : clear implicits.

Section Theorems.
Context {T : Type} (std_sort : (T → T → bool) → list T → list T) (capacity : nat → nat).

(** C18: no entry is lost, duplicated or made up: after any sequence of public
    operations, what the consumer got, the window and the new entries are
    together a permutation of everything that was added; in particular
    [maintain_window_size] never drops an entry.  The statistics count what the
    consumer got. *)
Theorem sorter_no_loss (cfg : Config T) (ops : list (op T)) :
  sort_spec std_sort → cfg_ok cfg → Forall op_ok ops →
  let s := run_ops std_sort capacity cfg ops in
  concat (outputs s) ++ sorted_window_ s ++ new_entries_ s ≡ₚ concat (map input ops) ∧
  total_processed_ s = length (concat (outputs s)).
Proof.
  intros Hsort Hcfg Hops. destruct (run_ops_spec std_sort capacity Hsort cfg ops Hcfg Hops) as [Hi Hc].
  split; [exact Hc|]. apply (i_total _ Hi).
Qed.

(** [flush] hands on everything: after it the consumer has received a
    permutation of all entries ever added, and both buffers are empty. *)
Theorem sorter_flush_complete (cfg : Config T) (ops : list (op T)) :
  sort_spec std_sort → cfg_ok cfg → Forall op_ok ops →
  let s := flush std_sort capacity (run_ops std_sort capacity cfg ops) in
  concat (outputs s) ≡ₚ concat (map input ops) ∧ sorted_window_ s = [] ∧ new_entries_ s = [].
Proof.
  intros Hsort Hcfg Hops. destruct (run_ops_spec std_sort capacity Hsort cfg ops Hcfg Hops) as [Hi Hc].
  destruct (flush_spec std_sort capacity Hsort _ Hi) as (_ & Hcf & Hw & Hn & _).
  cbv zeta. split; [|done]. rewrite <- Hc, <- Hcf. unfold content. by rewrite Hw, Hn, !app_nil_r.
Qed.

(** With sorting enabled, each batch the consumer is called with is sorted,
    none of it belongs after an entry that stays in the window, and the window
    stays sorted and within its configured size. *)
Theorem sorter_batches_sorted (cfg : Config T) (ops : list (op T)) (force : bool) :
  sort_spec std_sort → cfg_ok cfg → Forall op_ok ops →
  let s := run_ops std_sort capacity cfg ops in
  let s' := process_batch std_sort capacity force s in
  enable_sorting (config_ s) = true →
  ∃ out, outputs s' = outputs s ++ (match out with [] => [] | _ => [out] end) ∧
    StronglySorted (before (comparator (config_ s))) out ∧
    (∀ x y, x ∈ out → y ∈ sorted_window_ s' → before (comparator (config_ s)) x y) ∧
    StronglySorted (before (comparator (config_ s))) (sorted_window_ s') ∧
    length (sorted_window_ s') ≤ window_size (config_ s).
Proof.
  intros Hsort Hcfg Hops s s' Hen.
  destruct (run_ops_spec std_sort capacity Hsort cfg ops Hcfg Hops) as [[H1 H2 H3 H4] _].
  destruct (process_batch_spec std_sort capacity Hsort force _ H1 H3 H4)
    as (Ec & _ & _ & Hi' & _ & out & Ho & Hs).
  fold s in Ec, Hi', Ho, Hs. fold s' in Ec, Hi', Ho, Hs. destruct (Hs Hen) as [Hs1 Hs2].
  exists out. split_and!; [done|done|done|..].
  - rewrite <- Ec. apply (i_sorted _ Hi'). by rewrite Ec.
  - rewrite <- Ec. apply (i_window _ Hi').
Qed.
End Theorems.

(** The in-place merge and the buffered merge compute the same window, so
    the result does not depend on the vector's spare capacity. *)
Theorem merge_paths_agree {T : Type} (capacity1 capacity2 : nat → nat) (s : @Sorter T) :
  perform_inplace_merge s = perform_standard_merge s ∧
  merge_with_window capacity1 s = merge_with_window capacity2 s.
Proof.
  assert (perform_inplace_merge s = perform_standard_merge s) as E by apply inplace_merge_eq.
  split; [done|]. unfold merge_with_window. rewrite E.
  by destruct (_ && _), (use_inplace_merge (config_ s) && can_use_inplace_merge capacity2 s).
Qed.

(** *** Instances *)

Definition nat_config : Config nat := mkConfig 2 2 true Nat.ltb true 64.

Lemma nat_strict_weak : cfg_ok nat_config.
Proof.
  split; simpl.
  - intros x y H%Nat.ltb_lt. apply Nat.ltb_ge. lia.
  - intros x y z H1%Nat.ltb_ge H2%Nat.ltb_ge. apply Nat.ltb_ge. lia.
Qed.

Lemma insertion_sort_is_sort : sort_spec (T := nat) insertion_sort.
Proof. intros comp l Hc. split; [apply insertion_sort_perm|by apply insertion_sort_sorted]. Qed.

Definition nat_ops : list (op nat) := [AddEntries [5; 1]; AddEntry 9; AddEntry 3; AddEntries [2]].

Lemma sorter_no_loss_witness :
  let s := run_ops insertion_sort id nat_config nat_ops in
  concat (outputs s) ++ sorted_window_ s ++ new_entries_ s ≡ₚ [5; 1; 9; 3; 2] ∧
  total_processed_ s = length (concat (outputs s)).
Proof.
  apply (sorter_no_loss insertion_sort id nat_config nat_ops);
    [apply insertion_sort_is_sort|apply nat_strict_weak|by repeat constructor].
Defined.

Lemma sorter_flush_complete_witness :
  let s := flush insertion_sort id (run_ops insertion_sort id nat_config nat_ops) in
  concat (outputs s) ≡ₚ [5; 1; 9; 3; 2] ∧ sorted_window_ s = [] ∧ new_entries_ s = [].
Proof.
  apply (sorter_flush_complete insertion_sort id nat_config nat_ops);
    [apply insertion_sort_is_sort|apply nat_strict_weak|by repeat constructor].
Defined.

Lemma sorter_batches_sorted_witness :
  let s := run_ops insertion_sort id nat_config nat_ops in
  let s' := process_batch insertion_sort id false s in
  ∃ out, outputs s' = outputs s ++ (match out with [] => [] | _ => [out] end) ∧
    StronglySorted (before Nat.ltb) out ∧
    (∀ x y, x ∈ out → y ∈ sorted_window_ s' → before Nat.ltb x y) ∧
    StronglySorted (before Nat.ltb) (sorted_window_ s') ∧ length (sorted_window_ s') ≤ 2.
Proof.
  apply (sorter_batches_sorted insertion_sort id nat_config nat_ops false);
    [apply insertion_sort_is_sort|apply nat_strict_weak|by repeat constructor|reflexivity].
Defined.
