(* ===== verification/Transaction.v ===== *)
(** * Transactions

    [providers/postgresql/transaction]: [TransactionOptions], [Transaction],
    [Savepoint] and [AutoTransaction].  The connection is a script of answers:
    the [n]-th statement given to the executor succeeds or fails as the script
    says, and the log records these statements.  One that the executor refuses
    without sending it, because [check_connection] finds the connection gone, is
    in the log as one that failed.  A [Transaction] holds the pool's lease on its
    connection; releasing it is an effect on the world. *)

From stdpp Require Import sets.
From S2P Require Import Prelude Gears QueryAst Dialect PostgresDialect.

Local Open Scope demi_scope.

(** ** The connection *)

Record world := mkWorld {
  script : nat → bool;
  (** the statements given to the executor *)
  log : list string;
  (** how often the lease has been given back *)
  released : nat;
}.

(** [SyncExecutor{conn_}.execute(sql)], as a success flag. *)
Definition execute (sql : string) (w : world) : bool * world :=
  (script w (length (log w)), mkWorld (script w) (log w ++ [sql]) (released w)).

(** [ConnectionHolder::reset()] *)
Definition holder_reset (w : world) : world := mkWorld (script w) (log w) (S (released w)).

(** [gears::Outcome<A, ErrorContext>], by the kind of error. *)
Inductive error_kind : Type := InvalidState | InvalidArgument | ServerError.
Inductive Outcome (A : Type) : Type := Success (a : A) | Error (e : error_kind).
Arguments Success {A} a.
Arguments Error {A} e.

(** ** TransactionOptions *)

Inductive IsolationLevel : Type := READ_COMMITTED | REPEATABLE_READ | SERIALIZABLE.
Inductive AccessMode : Type := READ_WRITE | READ_ONLY.

#[export] Instance IsolationLevel_eq_dec : EqDecision IsolationLevel.
Proof. solve_decision. Defined.
#[export] Instance AccessMode_eq_dec : EqDecision AccessMode.
Proof. solve_decision. Defined.

Definition isolation_to_string (level : IsolationLevel) : string :=
  match level with
  | READ_COMMITTED => "READ COMMITTED"
  | REPEATABLE_READ => "REPEATABLE READ"
  | SERIALIZABLE => "SERIALIZABLE"
  end.
Definition access_to_string (mode : AccessMode) : string :=
  match mode with READ_WRITE => "READ WRITE" | READ_ONLY => "READ ONLY" end.

Record TransactionOptions := mkOptions {
  isolation : IsolationLevel;
  access : AccessMode;
  deferrable : bool;
}.

Definition begin_text (o : TransactionOptions) : string :=
  "BEGIN" +:+ " ISOLATION LEVEL " +:+ isolation_to_string (isolation o) +:+ " " +:+
  access_to_string (access o) +:+ (if deferrable o then " DEFERRABLE" else "").

Definition to_begin_sql (o : TransactionOptions) : result string :=
  if deferrable o && (bool_decide (isolation o ≠ SERIALIZABLE) || bool_decide (access o ≠ READ_ONLY))
  then Throw invalid_argument
  else Ok (begin_text o).

(** ** Identifiers *)

Definition is_upper (c : ascii) : bool := (65 <=? N_of_ascii c)%N && (N_of_ascii c <=? 90)%N.
Definition is_lower (c : ascii) : bool := (97 <=? N_of_ascii c)%N && (N_of_ascii c <=? 122)%N.
(** [std::isalpha] and [std::isalnum] in the C locale. *)
Definition isalpha (c : ascii) : bool := is_upper c || is_lower c.
Definition isalnum (c : ascii) : bool := isalpha c || ToString.is_digit c.

Definition is_valid_identifier (name : string) : bool :=
  match name with
  | EmptyString => false
  | String c _ =>
      if (63 <? String.length name)%nat then false
      else if negb (isalpha c) && negb (bool_decide (c = "_"%char)) then false
      else string_all (λ c, isalnum c || bool_decide (c = "_"%char)) name
  end.

(** ** Transaction *)

Inductive TransactionStatus : Type := IDLE | ACTIVE | COMMITTED | ROLLED_BACK | FAILED.

#[export] Instance TransactionStatus_eq_dec : EqDecision TransactionStatus.
Proof. solve_decision. Defined.

(** [holder_]: whether the weak pointer still locks; [conn_]: non-null. *)
Record Transaction := mkTx {
  holder_ : bool;
  conn_ : bool;
  options_ : TransactionOptions;
  status_ : TransactionStatus;
}.

Record Savepoint := mkSp {
  sp_conn_ : bool;
  name_ : string;
  active_ : bool;
}.

Definition make_transaction (o : TransactionOptions) : Transaction := mkTx true true o IDLE.

Definition with_status (tx : Transaction) (s : TransactionStatus) : Transaction :=
  mkTx (holder_ tx) (conn_ tx) (options_ tx) s.

Definition execute_control (sql : string) (w : world) : Outcome unit * world :=
  let (ok, w') := execute sql w in (if ok then Success tt else Error ServerError, w').

Definition is_success {A} (o : Outcome A) : bool := match o with Success _ => true | Error _ => false end.

Definition begin (tx : Transaction) (w : world) : result (Outcome unit * Transaction * world) :=
  if decide (status_ tx ≠ IDLE) then Ok (Error InvalidState, tx, w)
  else
    let! sql := to_begin_sql (options_ tx) in
    let (result, w') := execute_control sql w in
    Ok (result, with_status tx (if is_success result then ACTIVE else FAILED), w').

Definition commit (tx : Transaction) (w : world) : Outcome unit * Transaction * world :=
  if decide (status_ tx ≠ ACTIVE) then (Error InvalidState, tx, w)
  else
    let (result, w') := execute_control "COMMIT" w in
    (result, with_status tx (if is_success result then COMMITTED else FAILED), w').

Definition rollback (tx : Transaction) (w : world) : Outcome unit * Transaction * world :=
  if decide (status_ tx ≠ ACTIVE) then (Error InvalidState, tx, w)
  else
    let (result, w') := execute_control "ROLLBACK" w in
    (result, with_status tx (if is_success result then ROLLED_BACK else FAILED), w').

(** [with_sync]/[with_async]: an executor on [conn_]. *)
Definition with_executor (tx : Transaction) : Outcome bool :=
  if decide (status_ tx ≠ ACTIVE) then Error InvalidState else Success (conn_ tx).

(** The quoted name, as [std::format] pastes it. *)
Definition quoted (name : string) : string := String dquote (name +:+ String dquote "").

Definition savepoint (tx : Transaction) (name : string) (w : world) : Outcome Savepoint * world :=
  if decide (status_ tx ≠ ACTIVE) then (Error InvalidState, w)
  else if negb (is_valid_identifier name) then (Error InvalidArgument, w)
  else
    let (result, w') := execute_control ("SAVEPOINT " +:+ quoted name) w in
    match result with
    | Success _ => (Success (mkSp (conn_ tx) name true), w')
    | Error e => (Error e, w')
    end.

Definition is_active (tx : Transaction) : bool := bool_decide (status_ tx = ACTIVE).
Definition is_finished (tx : Transaction) : bool :=
  bool_decide (status_ tx = COMMITTED) || bool_decide (status_ tx = ROLLED_BACK).

(** [~Transaction()] *)
Definition destroy (tx : Transaction) (w : world) : world :=
  if holder_ tx then
    let w1 := if decide (status_ tx = ACTIVE) then snd (execute "ROLLBACK" w) else w in
    holder_reset w1
  else w.

(** The move constructor: the new object and what is left of the old one. *)
Definition moved_out (other : Transaction) : Transaction := mkTx false false (options_ other) FAILED.
Definition move_construct (other : Transaction) : Transaction * Transaction := (other, moved_out other).

(** Move assignment to another object. *)
Definition move_assign (this other : Transaction) (w : world) : Transaction * Transaction * world :=
  let w1 := if holder_ this then holder_reset w else w in
  (other, moved_out other, w1).

(** ** Savepoint *)

Definition sp_rollback (sp : Savepoint) (w : world) : Outcome unit * world :=
  if negb (active_ sp) then (Error InvalidState, w)
  else execute_control ("ROLLBACK TO SAVEPOINT " +:+ quoted (name_ sp)) w.

Definition sp_release (sp : Savepoint) (w : world) : Outcome unit * Savepoint * world :=
  if negb (active_ sp) then (Error InvalidState, sp, w)
  else
    let (result, w') := execute_control ("RELEASE SAVEPOINT " +:+ quoted (name_ sp)) w in
    (result, mkSp (sp_conn_ sp) (name_ sp) (negb (is_success result)), w').

Definition sp_destroy (sp : Savepoint) (w : world) : world :=
  if active_ sp then snd (sp_release sp w) else w.

Definition sp_move (other : Savepoint) : Savepoint * Savepoint := (other, mkSp false "" false).

Definition sp_move_assign (this other : Savepoint) (w : world) : Savepoint * Savepoint * world :=
  let w1 := if active_ this then snd (sp_release this w) else w in
  (other, mkSp false "" false, w1).

(** ** AutoTransaction: a transaction whose only way out is [commit] *)

Definition auto_commit (tx : Transaction) (w : world) : Outcome unit * Transaction * world := commit tx w.
Definition auto_savepoint (tx : Transaction) (name : string) (w : world) : Outcome Savepoint * world :=
  savepoint tx name w.
Definition auto_destroy (tx : Transaction) (w : world) : world := destroy tx w.

(** ** Running a transaction *)

Inductive tx_op : Type := OBegin | OCommit | ORollback | OSavepoint (name : string) | OExecutor.

(** An operation on a transaction; an exception leaves it as it was. *)
Definition run_tx_op (p : Transaction * world) (o : tx_op) : Transaction * world :=
  let (tx, w) := p in
  match o with
  | OBegin => match begin tx w with Ok (_, tx', w') => (tx', w') | Throw _ => (tx, w) end
  | OCommit => let '(_, tx', w') := commit tx w in (tx', w')
  | ORollback => let '(_, tx', w') := rollback tx w in (tx', w')
  | OSavepoint name => let '(_, w') := savepoint tx name w in (tx, w')
  | OExecutor => (tx, w)
  end.
Definition run_tx (tx : Transaction) (w : world) (ops : list tx_op) : Transaction * world :=
  foldl run_tx_op (tx, w) ops.

(** ** The protocol *)

(** A SAVEPOINT statement for an accepted name. *)
Definition savepoint_stmt (s : string) : Prop :=
  ∃ name, is_valid_identifier name = true ∧ s = "SAVEPOINT " +:+ quoted name.

(** What a transaction has sent, by its status. *)
Inductive history (o : TransactionOptions) (begin_ok : bool) : TransactionStatus → list string → Prop :=
  | h_idle : history o begin_ok IDLE []
  | h_active sps : begin_ok = true → Forall savepoint_stmt sps →
      history o begin_ok ACTIVE (begin_text o :: sps)
  | h_committed sps : begin_ok = true → Forall savepoint_stmt sps →
      history o begin_ok COMMITTED (begin_text o :: sps ++ ["COMMIT"])
  | h_rolled_back sps : begin_ok = true → Forall savepoint_stmt sps →
      history o begin_ok ROLLED_BACK (begin_text o :: sps ++ ["ROLLBACK"])
  | h_begin_failed : begin_ok = false → history o begin_ok FAILED [begin_text o]
  | h_end_failed sps fin : begin_ok = true → Forall savepoint_stmt sps → fin ∈ ["COMMIT"; "ROLLBACK"] →
      history o begin_ok FAILED (begin_text o :: sps ++ [fin]).

Section Protocol.
Variables (o : TransactionOptions) (w0 : world).

(** The answer the server has for the first statement. *)
Definition begin_ok : bool := script w0 (length (log w0)).

Definition consistent (p : Transaction * world) : Prop :=
  let (tx, w) := p in
  holder_ tx = true ∧ options_ tx = o ∧ script w = script w0 ∧ released w = released w0 ∧
  ∃ l, log w = log w0 ++ l ∧ history o begin_ok (status_ tx) l.

Lemma execute_control_log sql w r w' :
  execute_control sql w = (r, w') →
  script w' = script w ∧ released w' = released w ∧ log w' = log w ++ [sql] ∧
  is_success r = script w (length (log w)).
Proof.
  unfold execute_control, execute. intros H. destruct (script w (length (log w))) eqn:E; by simplify_eq/=.
Qed.

Lemma consistent_begin tx w r tx' w' :
  consistent (tx, w) → begin tx w = Ok (r, tx', w') → consistent (tx', w').
Proof.
  intros (Hh & Ho & Hs & Hr & l & Hl & Hi) Hb. unfold begin in Hb. case_decide as Hst.
  { simplify_eq. unfold consistent. eauto 10. }
  rewrite Ho in Hb. unfold to_begin_sql in Hb.
  destruct (deferrable o && _); cbn [rbind] in Hb; [done|].
  destruct (execute_control (begin_text o) w) as [r1 w1] eqn:Ex. simplify_eq.
  apply execute_control_log in Ex as (E1 & E2 & E3 & E4).
  rewrite Hst in Hi. inversion Hi; subst l. rewrite app_nil_r in Hl.
  unfold consistent. simpl. split_and!; [done|done|congruence|congruence|].
  exists [begin_text o]. rewrite E3, Hl. split; [done|].
  assert (is_success r = begin_ok) as -> by (rewrite E4, Hs, Hl; done).
  destruct begin_ok eqn:Eb; [by constructor|by constructor].
Qed.

(** COMMIT and ROLLBACK from the active state. *)
Lemma consistent_finish tx w sql ok_status r w' :
  consistent (tx, w) → status_ tx = ACTIVE →
  (sql, ok_status) ∈ [("COMMIT", COMMITTED); ("ROLLBACK", ROLLED_BACK)] →
  execute_control sql w = (r, w') →
  consistent (with_status tx (if is_success r then ok_status else FAILED), w').
Proof.
  intros (Hh & Ho & Hs & Hr & l & Hl & Hi) Hst Hin Hx.
  apply execute_control_log in Hx as (E1 & E2 & E3 & _).
  rewrite Hst in Hi. inversion Hi as [|sps Hb Hsps| | | |]; subst l.
  unfold consistent. simpl. split_and!; [done|done|congruence|congruence|].
  exists (begin_text o :: sps ++ [sql]). split; [by rewrite E3, Hl, <- app_assoc|].
  rewrite !elem_of_cons, elem_of_nil in Hin.
  destruct (is_success r), Hin as [[= -> ->]|[[= -> ->]|[]]]; constructor; try done; set_solver.
Qed.

Lemma consistent_step p t : consistent p → consistent (run_tx_op p t).
Proof.
  destruct p as [tx w]. intros Hc. destruct t as [| | |name|]; simpl.
  - destruct (begin tx w) as [[[r tx'] w']|] eqn:Eb; [|done]. by eapply consistent_begin.
  - unfold commit. case_decide as Hst; [done|].
    destruct (execute_control "COMMIT" w) as [r w'] eqn:Ex.
    eapply (consistent_finish tx w "COMMIT" COMMITTED); [done|done|by left|done].
  - unfold rollback. case_decide as Hst; [done|].
    destruct (execute_control "ROLLBACK" w) as [r w'] eqn:Ex.
    eapply (consistent_finish tx w "ROLLBACK" ROLLED_BACK); [done|done|by right; left|done].
  - unfold savepoint. case_decide as Hst; [done|].
    destruct (is_valid_identifier name) eqn:Ev; cbn [negb]; [|done].
    destruct (execute_control ("SAVEPOINT " +:+ quoted name) w) as [r w'] eqn:Ex. apply execute_control_log in Ex as (E1 & E2 & E3 & _).
    assert (consistent (tx, w')) as Hc'.
    { destruct Hc as (Hh & Ho & Hs & Hr & l & Hl & Hi). split_and!; [done|done|congruence|congruence|].
      rewrite Hst in *. inversion Hi as [|sps Hb Hsps| | | |]; subst l.
      exists (begin_text o :: sps ++ ["SAVEPOINT " +:+ quoted name]).
      split; [by rewrite E3, Hl, <- app_assoc|]. constructor; [done|].
      apply Forall_app. split; [done|]. constructor; [by exists name|constructor]. }
    by destruct r.
  - done.
Qed.

Lemma consistent_run ops p : consistent p → consistent (foldl run_tx_op p ops).
Proof. revert p. induction ops as [|t ops IH]; intros p Hp; simpl; [done|]. by apply IH, consistent_step. Qed.
End Protocol.

(** C17: the transaction protocol: whatever sequence of operations a transaction
    goes through and however the server answers, by the time it is destroyed
    it has executed nothing, or a BEGIN that failed, or a BEGIN, savepoints with
    valid names, and exactly one COMMIT or ROLLBACK at the end; and its lease on
    the connection has been given back exactly once. *)
Theorem transaction_protocol (o : TransactionOptions) (w : world) (ops : list tx_op) :
  let (tx, w1) := run_tx (make_transaction o) w ops in
  let w2 := destroy tx w1 in
  released w2 = S (released w) ∧
  ∃ l, log w2 = log w ++ l ∧
    (l = [] ∨ (l = [begin_text o] ∧ script w (length (log w)) = false) ∨
     ∃ sps fin, Forall savepoint_stmt sps ∧ fin ∈ ["COMMIT"; "ROLLBACK"] ∧
                l = begin_text o :: sps ++ [fin]).
Proof.
  assert (consistent o w (make_transaction o, w)) as H0.
  { split_and!; try done. exists []. rewrite app_nil_r. split; [done|constructor]. }
  apply (consistent_run o w ops) in H0. unfold run_tx.
  destruct (foldl run_tx_op (make_transaction o, w) ops) as [tx w1].
  destruct H0 as (Hh & Ho & Hs & Hr & l & Hl & Hi). unfold destroy. rewrite Hh.
  split; [case_decide; simpl; congruence|].
  inversion Hi as [Est El|sps Hb Hsps Est El|sps Hb Hsps Est El|sps Hb Hsps Est El|Hb Est El|sps fin Hb Hsps Hf Est El];
    (rewrite decide_True by done) || (rewrite decide_False by done); simpl; rewrite Hl.
  - exists []. split; [by subst l|by left].
  - exists (begin_text o :: sps ++ ["ROLLBACK"]). split; [by subst l; rewrite <- app_assoc|].
    right; right. exists sps, "ROLLBACK". split_and!; [done|set_solver|done].
  - eexists. split; [done|]. right; right. exists sps, "COMMIT". split_and!; [done|set_solver|done].
  - eexists. split; [done|]. right; right. exists sps, "ROLLBACK". split_and!; [done|set_solver|done].
  - eexists. split; [done|]. right; left. done.
  - eexists. split; [done|]. right; right. by exists sps, fin.
Qed.

(** Out of its state every operation fails without touching the server:
    [begin] unless idle, [commit], [rollback], [savepoint] and the executors
    unless active, all return InvalidState and send nothing; so the final
    states are final. *)
Theorem transaction_guards (tx : Transaction) (w : world) (name : string) :
  (status_ tx ≠ IDLE → begin tx w = Ok (Error InvalidState, tx, w)) ∧
  (status_ tx ≠ ACTIVE →
     commit tx w = (Error InvalidState, tx, w) ∧ rollback tx w = (Error InvalidState, tx, w) ∧
     savepoint tx name w = (Error InvalidState, w) ∧ with_executor tx = Error InvalidState) ∧
  (∀ ops, is_finished tx = true → run_tx tx w ops = (tx, w)).
Proof.
  assert (status_ tx ≠ IDLE → begin tx w = Ok (Error InvalidState, tx, w)) as H1.
  { intros H. unfold begin. by rewrite decide_True. }
  assert (status_ tx ≠ ACTIVE →
     commit tx w = (Error InvalidState, tx, w) ∧ rollback tx w = (Error InvalidState, tx, w) ∧
     ∀ n, savepoint tx n w = (Error InvalidState, w)) as H2.
  { intros H. unfold commit, rollback, savepoint. by destruct (decide (status_ tx ≠ ACTIVE)). }
  split_and!; [done| |].
  - intros H. destruct (H2 H) as (? & ? & ?). unfold with_executor. rewrite decide_True by done. auto.
  - intros ops Hf. assert (status_ tx ≠ IDLE ∧ status_ tx ≠ ACTIVE) as [Hi Ha].
    { unfold is_finished in Hf. apply orb_true_iff in Hf as [Hf|Hf]; bool_to_prop; rewrite Hf; done. }
    unfold run_tx. induction ops as [|t ops IH]; [done|]. cbn [foldl].
    destruct (H2 Ha) as (Ec & Er & Es).
    assert (run_tx_op (tx, w) t = (tx, w)) as ->; [|done].
    destruct t; simpl; rewrite ?(H1 Hi), ?Ec, ?Er, ?Es; done.
Qed.

(** Move assignment over an active transaction gives its connection back to
    the pool without a ROLLBACK, unlike the destructor: the next borrower finds
    the connection inside the old transaction. *)
Theorem move_assign_skips_rollback (this other : Transaction) (w : world) :
  holder_ this = true → status_ this = ACTIVE →
  (let '(_, _, w1) := move_assign this other w in log w1 = log w ∧ released w1 = S (released w)) ∧
  log (destroy this w) = log w ++ ["ROLLBACK"] ∧ released (destroy this w) = S (released w).
Proof. intros Hh Hs. unfold move_assign, destroy. rewrite Hh, decide_True by done. done. Qed.

Lemma move_assign_skips_rollback_witness :
  let this := mkTx true true (mkOptions SERIALIZABLE READ_WRITE false) ACTIVE in
  let w := mkWorld (λ _, true) [] 0 in
  (let '(_, _, w1) := move_assign this this w in log w1 = log w ∧ released w1 = S (released w)) ∧
  log (destroy this w) = log w ++ ["ROLLBACK"] ∧ released (destroy this w) = S (released w).
Proof.
  apply (move_assign_skips_rollback (mkTx true true (mkOptions SERIALIZABLE READ_WRITE false) ACTIVE)); done.
Defined.

(** A savepoint keeps a bare connection: if it outlives its transaction, its
    destructor still sends RELEASE SAVEPOINT on the connection after the lease
    was given back. *)
Theorem savepoint_outlives_transaction (tx : Transaction) (name : string) (sp : Savepoint) (w w1 : world) :
  holder_ tx = true → savepoint tx name w = (Success sp, w1) →
  let w2 := destroy tx w1 in
  let w3 := sp_destroy sp w2 in
  released w2 = S (released w) ∧
  log w3 = log w ++ ["SAVEPOINT " +:+ quoted name; "ROLLBACK"; "RELEASE SAVEPOINT " +:+ quoted name].
Proof.
  intros Hh Hsp. unfold savepoint in Hsp. case_decide as Hst; [done|].
  destruct (is_valid_identifier name); cbn [negb] in Hsp; [|done].
  destruct (execute_control ("SAVEPOINT " +:+ quoted name) w) as [[u|e] w'] eqn:Ex; simplify_eq.
  apply execute_control_log in Ex as (E1 & E2 & E3 & _).
  unfold destroy. rewrite Hh, decide_True by done. simpl. split; [congruence|].
  unfold sp_destroy, sp_release. simpl. unfold execute_control, execute. simpl.
  rewrite E3, <- !app_assoc. done.
Qed.

Lemma savepoint_outlives_transaction_witness :
  let tx := mkTx true true (mkOptions SERIALIZABLE READ_WRITE false) ACTIVE in
  let w := mkWorld (λ _, true) [] 0 in
  let w2 := destroy tx (mkWorld (λ _, true) ["SAVEPOINT " +:+ quoted "sp1"] 0) in
  let w3 := sp_destroy (mkSp true "sp1" true) w2 in
  released w2 = S (released w) ∧
  log w3 = log w ++ ["SAVEPOINT " +:+ quoted "sp1"; "ROLLBACK"; "RELEASE SAVEPOINT " +:+ quoted "sp1"].
Proof.
  apply (savepoint_outlives_transaction (mkTx true true (mkOptions SERIALIZABLE READ_WRITE false) ACTIVE)
           "sp1" (mkSp true "sp1" true) (mkWorld (λ _, true) [] 0)); vm_compute; reflexivity.
Defined.

(** ** Names and options *)

Lemma identifier_char_plain c : isalnum c || bool_decide (c = "_"%char) = true → c ≠ dquote.
Proof. intros H ->. vm_compute in H. done. Qed.

Lemma plain_esc_ident name :
  string_all (λ c, isalnum c || bool_decide (c = "_"%char)) name = true → Postgres.esc_ident name = name.
Proof.
  induction name as [|c name IH]; [done|]. simpl. intros [Hc Hn]%andb_true_iff.
  rewrite decide_False by (by apply identifier_char_plain). simpl. by rewrite IH.
Qed.

Lemma valid_identifier_all name :
  is_valid_identifier name = true → string_all (λ c, isalnum c || bool_decide (c = "_"%char)) name = true.
Proof.
  unfold is_valid_identifier. destruct name as [|c name]; [done|].
  destruct (63 <? _)%nat; [done|]. by destruct (negb (isalpha c) && _).
Qed.

(** A name that passes [is_valid_identifier] can be pasted between double
    quotes as it is: the server reads back exactly the name, within its
    63-character limit, and what follows is not part of it. *)
Theorem valid_identifier_safe (name rest : string) :
  is_valid_identifier name = true → Postgres.not_starting dquote rest = true →
  Postgres.read_identifier (quoted name +:+ rest) = Some (name, rest) ∧ (String.length name ≤ 63)%nat.
Proof.
  intros Hv Hr. split.
  - unfold quoted. cbn [Postgres.read_identifier String.append]. rewrite decide_True by done.
    rewrite string_app_assoc. rewrite <- (plain_esc_ident name) at 1 by (by apply valid_identifier_all).
    by apply Postgres.read_escaped_ident.
  - unfold is_valid_identifier in Hv. destruct name as [|c name]; [done|].
    destruct (Nat.ltb_spec 63 (String.length (String c name))); [done|lia].
Qed.

Lemma valid_identifier_safe_witness :
  Postgres.read_identifier (quoted "sp_1" +:+ "") = Some ("sp_1", "") ∧ (String.length "sp_1" ≤ 63)%nat.
Proof. apply (valid_identifier_safe "sp_1" ""); reflexivity. Defined.

(** [to_begin_sql] throws exactly for a DEFERRABLE transaction that is not
    SERIALIZABLE READ ONLY, and otherwise the text determines the options. *)
Theorem to_begin_sql_spec (o1 o2 : TransactionOptions) :
  (to_begin_sql o1 = Throw invalid_argument ↔
     deferrable o1 = true ∧ ¬ (isolation o1 = SERIALIZABLE ∧ access o1 = READ_ONLY)) ∧
  (is_ok (to_begin_sql o1) = true → to_begin_sql o1 = to_begin_sql o2 → o1 = o2).
Proof.
  split.
  - destruct o1 as [[] [] []]; vm_compute; split; intros H; try done;
      first [split; [done|by intros [? ?]] | destruct H as [? H]; try done; by destruct H].
  - destruct o1 as [[] [] []], o2 as [[] [] []]; vm_compute; congruence.
Qed.
