(* ===== verification/ErrorCodes.v ===== *)
(** * Error codes

    [base/errors/db_error_codes.hpp]: the three families of error codes, the
    tagged [ErrorCode] that unites them, its retry policy and its texts; and
    [providers/postgresql/errors]: how a libpq result becomes an error code,
    by its SQLSTATE or, without one, by its status.  The tables are in the
    order of the source. *)

From S2P Require Import Prelude Gears Bytes ResultViews.

Local Open Scope Z_scope.
Local Open Scope demi_scope.

(** ** The codes *)

Module Client.
Inductive ClientErrorCode : Type :=
  | Success | InvalidArgument | SyntaxError | InvalidParameter | TypeMismatch | NullConversion
  | InvalidCast | OutOfRange | ConfigurationError | ConnectionStringError
  | AuthenticationError | InvalidOption | MissingParameter | InvalidState | NotConnected
  | AlreadyConnected | TransactionActive | NoActiveTransaction | PoolExhausted | PoolShutdown
  | WaitTimeout.

#[export] Instance ClientErrorCode_eq_dec : EqDecision ClientErrorCode.
Proof. solve_decision. Defined.

Definition client_value (code : ClientErrorCode) : Z :=
  match code with
  | Success => 0
  | InvalidArgument => 100
  | SyntaxError => 101
  | InvalidParameter => 102
  | TypeMismatch => 103
  | NullConversion => 104
  | InvalidCast => 105
  | OutOfRange => 106
  | ConfigurationError => 200
  | ConnectionStringError => 201
  | AuthenticationError => 202
  | InvalidOption => 203
  | MissingParameter => 204
  | InvalidState => 300
  | NotConnected => 301
  | AlreadyConnected => 302
  | TransactionActive => 303
  | NoActiveTransaction => 304
  | PoolExhausted => 310
  | PoolShutdown => 311
  | WaitTimeout => 312
  end.

Definition client_to_string (code : ClientErrorCode) : string :=
  match code with
  | Success => "Success"
  | InvalidArgument => "InvalidArgument"
  | SyntaxError => "SyntaxError"
  | InvalidParameter => "InvalidParameter"
  | TypeMismatch => "TypeMismatch"
  | NullConversion => "NullConversion"
  | InvalidCast => "InvalidCast"
  | OutOfRange => "OutOfRange"
  | ConfigurationError => "ConfigurationError"
  | ConnectionStringError => "ConnectionStringError"
  | AuthenticationError => "AuthenticationError"
  | InvalidOption => "InvalidOption"
  | MissingParameter => "MissingParameter"
  | InvalidState => "InvalidState"
  | NotConnected => "NotConnected"
  | AlreadyConnected => "AlreadyConnected"
  | TransactionActive => "TransactionActive"
  | NoActiveTransaction => "NoActiveTransaction"
  | PoolExhausted => "PoolExhausted"
  | PoolShutdown => "PoolShutdown"
  | WaitTimeout => "WaitTimeout"
  end.

Definition client_get_description (code : ClientErrorCode) : string :=
  match code with
  | Success => "Operation completed successfully"
  | InvalidArgument => "Invalid argument provided to function"
  | SyntaxError => "SQL syntax error in query"
  | InvalidParameter => "Invalid parameter value"
  | TypeMismatch => "Type mismatch between expected and actual value"
  | NullConversion => "Attempted to convert NULL to non-nullable type"
  | InvalidCast => "Invalid type cast operation"
  | OutOfRange => "Value out of valid range"
  | ConfigurationError => "Database configuration error"
  | ConnectionStringError => "Invalid or malformed connection string"
  | AuthenticationError => "Authentication credentials invalid or missing"
  | InvalidOption => "Invalid configuration option"
  | MissingParameter => "Required parameter is missing"
  | InvalidState => "Operation invalid in current state"
  | NotConnected => "Not connected to database"
  | AlreadyConnected => "Already connected to database"
  | TransactionActive => "Transaction already active"
  | NoActiveTransaction => "No active transaction"
  | PoolExhausted => "Connection pool exhausted, no available connections"
  | PoolShutdown => "Connection pool has been shut down"
  | WaitTimeout => "Timed wait on a blocking pool expired before a connection became available"
  end.

Definition client_all : list ClientErrorCode :=
  [Success; InvalidArgument; SyntaxError; InvalidParameter; TypeMismatch; NullConversion;
   InvalidCast; OutOfRange; ConfigurationError; ConnectionStringError; AuthenticationError;
   InvalidOption; MissingParameter; InvalidState; NotConnected; AlreadyConnected;
   TransactionActive; NoActiveTransaction; PoolExhausted; PoolShutdown; WaitTimeout].

(** [static_cast] of a raw value that names a code. *)
Definition client_of_value (v : Z) : option ClientErrorCode := find (λ c, client_value c =? v) client_all.

Lemma client_of_value_value c : client_of_value (client_value c) = Some c.
Proof. by destruct c. Qed.
Lemma client_to_string_inj c1 c2 : client_to_string c1 = client_to_string c2 → c1 = c2.
Proof. destruct c1, c2; simpl; congruence. Qed.
End Client.

Module Server.
Inductive ServerErrorCode : Type :=
  | Success | RuntimeError | ConnectionError | ConnectionLost | ConnectionTimeout
  | ConnectionRefused | DeadlockDetected | LockTimeout | StatementTimeout
  | SerializationFailure | ConstraintViolation | UniqueViolation | ForeignKeyViolation
  | CheckViolation | NotNullViolation | ExclusionViolation | DataError | DataTooLong
  | NumericOverflow | DivisionByZero | InvalidDatetime | InvalidEncoding | InvalidTextFormat
  | AccessError | PermissionDenied | ObjectNotFound | DatabaseNotFound | TableNotFound
  | ColumnNotFound | SchemaNotFound | FunctionNotFound | ResourceError | OutOfMemory
  | DiskFull | TooManyConnections | ConfigurationLimit | QueryTooComplex | TransactionError
  | TransactionRollback | TransactionAborted | InvalidIsolationLevel.

#[export] Instance ServerErrorCode_eq_dec : EqDecision ServerErrorCode.
Proof. solve_decision. Defined.

Definition server_value (code : ServerErrorCode) : Z :=
  match code with
  | Success => 0
  | RuntimeError => 100
  | ConnectionError => 110
  | ConnectionLost => 111
  | ConnectionTimeout => 112
  | ConnectionRefused => 113
  | DeadlockDetected => 120
  | LockTimeout => 121
  | StatementTimeout => 122
  | SerializationFailure => 123
  | ConstraintViolation => 200
  | UniqueViolation => 201
  | ForeignKeyViolation => 202
  | CheckViolation => 203
  | NotNullViolation => 204
  | ExclusionViolation => 205
  | DataError => 300
  | DataTooLong => 301
  | NumericOverflow => 302
  | DivisionByZero => 303
  | InvalidDatetime => 304
  | InvalidEncoding => 305
  | InvalidTextFormat => 306
  | AccessError => 400
  | PermissionDenied => 401
  | ObjectNotFound => 402
  | DatabaseNotFound => 403
  | TableNotFound => 404
  | ColumnNotFound => 405
  | SchemaNotFound => 406
  | FunctionNotFound => 407
  | ResourceError => 500
  | OutOfMemory => 501
  | DiskFull => 502
  | TooManyConnections => 503
  | ConfigurationLimit => 504
  | QueryTooComplex => 505
  | TransactionError => 600
  | TransactionRollback => 601
  | TransactionAborted => 602
  | InvalidIsolationLevel => 603
  end.

Definition server_to_string (code : ServerErrorCode) : string :=
  match code with
  | Success => "Success"
  | RuntimeError => "RuntimeError"
  | ConnectionError => "ConnectionError"
  | ConnectionLost => "ConnectionLost"
  | ConnectionTimeout => "ConnectionTimeout"
  | ConnectionRefused => "ConnectionRefused"
  | DeadlockDetected => "DeadlockDetected"
  | LockTimeout => "LockTimeout"
  | StatementTimeout => "StatementTimeout"
  | SerializationFailure => "SerializationFailure"
  | ConstraintViolation => "ConstraintViolation"
  | UniqueViolation => "UniqueViolation"
  | ForeignKeyViolation => "ForeignKeyViolation"
  | CheckViolation => "CheckViolation"
  | NotNullViolation => "NotNullViolation"
  | ExclusionViolation => "ExclusionViolation"
  | DataError => "DataError"
  | DataTooLong => "DataTooLong"
  | NumericOverflow => "NumericOverflow"
  | DivisionByZero => "DivisionByZero"
  | InvalidDatetime => "InvalidDatetime"
  | InvalidEncoding => "InvalidEncoding"
  | InvalidTextFormat => "InvalidTextFormat"
  | AccessError => "AccessError"
  | PermissionDenied => "PermissionDenied"
  | ObjectNotFound => "ObjectNotFound"
  | DatabaseNotFound => "DatabaseNotFound"
  | TableNotFound => "TableNotFound"
  | ColumnNotFound => "ColumnNotFound"
  | SchemaNotFound => "SchemaNotFound"
  | FunctionNotFound => "FunctionNotFound"
  | ResourceError => "ResourceError"
  | OutOfMemory => "OutOfMemory"
  | DiskFull => "DiskFull"
  | TooManyConnections => "TooManyConnections"
  | ConfigurationLimit => "ConfigurationLimit"
  | QueryTooComplex => "QueryTooComplex"
  | TransactionError => "TransactionError"
  | TransactionRollback => "TransactionRollback"
  | TransactionAborted => "TransactionAborted"
  | InvalidIsolationLevel => "InvalidIsolationLevel"
  end.

Definition server_get_description (code : ServerErrorCode) : string :=
  match code with
  | Success => "Operation completed successfully"
  | RuntimeError => "Runtime error on database server"
  | ConnectionError => "Error establishing connection to database"
  | ConnectionLost => "Connection to database was lost"
  | ConnectionTimeout => "Connection attempt timed out"
  | ConnectionRefused => "Connection refused by database server"
  | DeadlockDetected => "Deadlock detected, transaction aborted"
  | LockTimeout => "Timeout waiting for lock"
  | StatementTimeout => "Statement execution timeout"
  | SerializationFailure => "Transaction serialization failure"
  | ConstraintViolation => "Database constraint violation"
  | UniqueViolation => "Unique constraint violation"
  | ForeignKeyViolation => "Foreign key constraint violation"
  | CheckViolation => "Check constraint violation"
  | NotNullViolation => "NOT NULL constraint violation"
  | ExclusionViolation => "Exclusion constraint violation"
  | DataError => "Data error in query or result"
  | DataTooLong => "Data too long for column"
  | NumericOverflow => "Numeric value overflow"
  | DivisionByZero => "Division by zero"
  | InvalidDatetime => "Invalid datetime value"
  | InvalidEncoding => "Invalid character encoding"
  | InvalidTextFormat => "Invalid text representation"
  | AccessError => "Database access error"
  | PermissionDenied => "Permission denied for operation"
  | ObjectNotFound => "Database object not found"
  | DatabaseNotFound => "Database does not exist"
  | TableNotFound => "Table does not exist"
  | ColumnNotFound => "Column does not exist"
  | SchemaNotFound => "Schema does not exist"
  | FunctionNotFound => "Function does not exist"
  | ResourceError => "Database resource error"
  | OutOfMemory => "Database server out of memory"
  | DiskFull => "Database disk full"
  | TooManyConnections => "Too many database connections"
  | ConfigurationLimit => "Database configuration limit exceeded"
  | QueryTooComplex => "Query too complex to execute"
  | TransactionError => "Transaction error"
  | TransactionRollback => "Transaction rolled back"
  | TransactionAborted => "Transaction aborted"
  | InvalidIsolationLevel => "Invalid transaction isolation level"
  end.

Definition server_all : list ServerErrorCode :=
  [Success; RuntimeError; ConnectionError; ConnectionLost; ConnectionTimeout; ConnectionRefused;
   DeadlockDetected; LockTimeout; StatementTimeout; SerializationFailure; ConstraintViolation;
   UniqueViolation; ForeignKeyViolation; CheckViolation; NotNullViolation; ExclusionViolation;
   DataError; DataTooLong; NumericOverflow; DivisionByZero; InvalidDatetime; InvalidEncoding;
   InvalidTextFormat; AccessError; PermissionDenied; ObjectNotFound; DatabaseNotFound;
   TableNotFound; ColumnNotFound; SchemaNotFound; FunctionNotFound; ResourceError; OutOfMemory;
   DiskFull; TooManyConnections; ConfigurationLimit; QueryTooComplex; TransactionError;
   TransactionRollback; TransactionAborted; InvalidIsolationLevel].

(** [static_cast] of a raw value that names a code. *)
Definition server_of_value (v : Z) : option ServerErrorCode := find (λ c, server_value c =? v) server_all.

Lemma server_of_value_value c : server_of_value (server_value c) = Some c.
Proof. by destruct c. Qed.
Lemma server_to_string_inj c1 c2 : server_to_string c1 = server_to_string c2 → c1 = c2.
Proof. destruct c1, c2; simpl; congruence. Qed.
End Server.

Module Fatal.
Inductive FatalErrorCode : Type :=
  | InternalError | CorruptionDetected | ProtocolViolation | AssertionFailure
  | UnexpectedState.

#[export] Instance FatalErrorCode_eq_dec : EqDecision FatalErrorCode.
Proof. solve_decision. Defined.

Definition fatal_value (code : FatalErrorCode) : Z :=
  match code with
  | InternalError => 1
  | CorruptionDetected => 2
  | ProtocolViolation => 3
  | AssertionFailure => 4
  | UnexpectedState => 5
  end.

Definition fatal_to_string (code : FatalErrorCode) : string :=
  match code with
  | InternalError => "InternalError"
  | CorruptionDetected => "CorruptionDetected"
  | ProtocolViolation => "ProtocolViolation"
  | AssertionFailure => "AssertionFailure"
  | UnexpectedState => "UnexpectedState"
  end.

Definition fatal_get_description (code : FatalErrorCode) : string :=
  match code with
  | InternalError => "Internal database driver error"
  | CorruptionDetected => "Data corruption detected"
  | ProtocolViolation => "Database protocol violation"
  | AssertionFailure => "Internal assertion failed"
  | UnexpectedState => "Unexpected internal state"
  end.

Definition fatal_all : list FatalErrorCode :=
  [InternalError; CorruptionDetected; ProtocolViolation; AssertionFailure; UnexpectedState].

(** [static_cast] of a raw value that names a code. *)
Definition fatal_of_value (v : Z) : option FatalErrorCode := find (λ c, fatal_value c =? v) fatal_all.

Lemma fatal_of_value_value c : fatal_of_value (fatal_value c) = Some c.
Proof. by destruct c. Qed.
Lemma fatal_to_string_inj c1 c2 : fatal_to_string c1 = fatal_to_string c2 → c1 = c2.
Proof. destruct c1, c2; simpl; congruence. Qed.
End Fatal.

(** ** ErrorCode *)

Inductive Category : Type := CatSuccess | CatClient | CatServer | CatFatal.

#[export] Instance Category_eq_dec : EqDecision Category.
Proof. solve_decision. Defined.

Record ErrorCode := mkCode { category_ : Category; code_ : Z }.

#[export] Instance ErrorCode_eq_dec : EqDecision ErrorCode.
Proof. solve_decision. Defined.

Definition no_error : ErrorCode := mkCode CatSuccess 0.
Definition client (c : Client.ClientErrorCode) : ErrorCode := mkCode CatClient (Client.client_value c).
Definition server (c : Server.ServerErrorCode) : ErrorCode := mkCode CatServer (Server.server_value c).
Definition fatal (c : Fatal.FatalErrorCode) : ErrorCode := mkCode CatFatal (Fatal.fatal_value c).

Definition is_success (e : ErrorCode) : bool := bool_decide (category_ e = CatSuccess).
Definition is_client_error (e : ErrorCode) : bool := bool_decide (category_ e = CatClient).
Definition is_server_error (e : ErrorCode) : bool := bool_decide (category_ e = CatServer).
Definition is_fatal_error (e : ErrorCode) : bool := bool_decide (category_ e = CatFatal).

Definition is_retryable (e : ErrorCode) : bool :=
  if is_server_error e then
    if (100 <=? code_ e) && (code_ e <? 200) then true
    else if (500 <=? code_ e) && (code_ e <? 600) then true
    else if (600 <=? code_ e) && (code_ e <? 700) then (code_ e =? 601) || (code_ e =? 602)
    else false
  else false.

Definition category_name (e : ErrorCode) : string :=
  match category_ e with
  | CatSuccess => "success"
  | CatClient => "client"
  | CatServer => "server"
  | CatFatal => "fatal"
  end.

Definition as_client_error (e : ErrorCode) : option Client.ClientErrorCode :=
  if is_client_error e then Client.client_of_value (code_ e) else None.
Definition as_server_error (e : ErrorCode) : option Server.ServerErrorCode :=
  if is_server_error e then Server.server_of_value (code_ e) else None.
Definition as_fatal_error (e : ErrorCode) : option Fatal.FatalErrorCode :=
  if is_fatal_error e then Fatal.fatal_of_value (code_ e) else None.

(** [name()] and [description()]: a raw value that names no code of its
    category is unreachable. *)
Definition text_of (success : string) (on_client : Client.ClientErrorCode → string)
    (on_server : Server.ServerErrorCode → string) (on_fatal : Fatal.FatalErrorCode → string)
    (e : ErrorCode) : result string :=
  let text {A} (f : A → string) (c : option A) :=
    match c with Some c => Ok (f c) | None => Throw UndefinedBehaviour end in
  match category_ e with
  | CatSuccess => Ok success
  | CatClient => text on_client (Client.client_of_value (code_ e))
  | CatServer => text on_server (Server.server_of_value (code_ e))
  | CatFatal => text on_fatal (Fatal.fatal_of_value (code_ e))
  end.
Definition name : ErrorCode → result string :=
  text_of "Success" Client.client_to_string Server.server_to_string Fatal.fatal_to_string.
Definition description : ErrorCode → result string :=
  text_of "Operation completed successfully" Client.client_get_description Server.server_get_description
    Fatal.fatal_get_description.

(** The codes that the constructors build. *)
Inductive proper : ErrorCode → Prop :=
  | proper_success : proper no_error
  | proper_client c : proper (client c)
  | proper_server c : proper (server c)
  | proper_fatal c : proper (fatal c).

(** ** SQLSTATE *)

Definition starts_with (p s : string) : bool := String.prefix p s.

Definition map_sqlstate (sqlstate : string) : option ErrorCode :=
  let eqs (s : string) := bool_decide (sqlstate = s) in
  let error_class := String.substring 0 2 sqlstate in
  let cls (s : string) := bool_decide (error_class = s) in
  if eqs "" || eqs "00000" then None
  else if cls "00" then None
  else if cls "08" then
    if eqs "08000" then Some (server Server.ConnectionError)
    else if eqs "08003" then Some (client Client.NotConnected)
    else if eqs "08006" then Some (server Server.ConnectionLost)
    else if eqs "08P01" then Some (fatal Fatal.ProtocolViolation)
    else Some (server Server.ConnectionError)
  else if cls "0A" then Some (client Client.InvalidOption)
  else if cls "20" then Some (server Server.ObjectNotFound)
  else if cls "21" then Some (server Server.DataError)
  else if cls "22" then
    if eqs "22000" then Some (server Server.DataError)
    else if eqs "22001" then Some (server Server.DataTooLong)
    else if eqs "22003" then Some (server Server.NumericOverflow)
    else if eqs "22007" then Some (server Server.InvalidDatetime)
    else if eqs "22008" then Some (server Server.InvalidDatetime)
    else if eqs "22012" then Some (server Server.DivisionByZero)
    else if eqs "22P02" then Some (server Server.InvalidTextFormat)
    else if eqs "22P03" then Some (server Server.InvalidEncoding)
    else if eqs "22P04" then Some (server Server.InvalidTextFormat)
    else Some (server Server.DataError)
  else if cls "23" then
    if eqs "23000" then Some (server Server.ConstraintViolation)
    else if eqs "23001" then Some (server Server.ConstraintViolation)
    else if eqs "23502" then Some (server Server.NotNullViolation)
    else if eqs "23503" then Some (server Server.ForeignKeyViolation)
    else if eqs "23505" then Some (server Server.UniqueViolation)
    else if eqs "23514" then Some (server Server.CheckViolation)
    else if eqs "23P01" then Some (server Server.ExclusionViolation)
    else Some (server Server.ConstraintViolation)
  else if cls "24" then Some (client Client.InvalidState)
  else if cls "25" then
    if eqs "25001" then Some (client Client.TransactionActive)
    else if eqs "25P01" then Some (client Client.NoActiveTransaction)
    else if eqs "25P02" then Some (client Client.TransactionActive)
    else if eqs "25P03" then Some (client Client.NoActiveTransaction)
    else Some (client Client.InvalidState)
  else if cls "26" then Some (client Client.InvalidArgument)
  else if cls "28" then Some (client Client.AuthenticationError)
  else if cls "2B" then Some (server Server.ConstraintViolation)
  else if cls "2D" then Some (server Server.TransactionError)
  else if cls "2F" then Some (server Server.RuntimeError)
  else if cls "34" then Some (client Client.InvalidArgument)
  else if cls "38" then Some (server Server.RuntimeError)
  else if cls "39" then Some (server Server.RuntimeError)
  else if cls "3B" then Some (server Server.TransactionError)
  else if cls "3D" then Some (server Server.DatabaseNotFound)
  else if cls "3F" then Some (server Server.SchemaNotFound)
  else if cls "40" then
    if eqs "40001" then Some (server Server.SerializationFailure)
    else if eqs "40002" then Some (server Server.TransactionAborted)
    else if eqs "40003" then Some (server Server.TransactionAborted)
    else if eqs "40P01" then Some (server Server.DeadlockDetected)
    else Some (server Server.TransactionRollback)
  else if cls "42" then
    if eqs "42501" then Some (server Server.PermissionDenied)
    else if eqs "42601" then Some (client Client.SyntaxError)
    else if eqs "42703" then Some (server Server.ColumnNotFound)
    else if eqs "42704" then Some (server Server.ObjectNotFound)
    else if eqs "42804" || eqs "42846" || eqs "42P18" then Some (client Client.TypeMismatch)
    else if eqs "42830" then Some (server Server.PermissionDenied)
    else if eqs "42883" then Some (server Server.FunctionNotFound)
    else if eqs "42P01" then Some (server Server.TableNotFound)
    else if eqs "42P02" then Some (client Client.InvalidParameter)
    else if eqs "42P04" then Some (server Server.DatabaseNotFound)
    else if eqs "42P06" || eqs "42P15" then Some (server Server.SchemaNotFound)
    else Some (client Client.SyntaxError)
  else if cls "44" then Some (server Server.CheckViolation)
  else if cls "53" then
    if eqs "53100" then Some (server Server.DiskFull)
    else if eqs "53200" then Some (server Server.OutOfMemory)
    else if eqs "53300" then Some (server Server.TooManyConnections)
    else if eqs "53400" then Some (server Server.ConfigurationLimit)
    else Some (server Server.ResourceError)
  else if cls "54" then
    if eqs "54001" then Some (server Server.QueryTooComplex)
    else if eqs "54011" || eqs "54023" then Some (server Server.TooManyConnections)
    else Some (server Server.ConfigurationLimit)
  else if cls "55" then
    if eqs "55P02" || eqs "55P03" then Some (server Server.LockTimeout)
    else Some (client Client.InvalidState)
  else if cls "57" then
    if eqs "57014" then Some (server Server.StatementTimeout)
    else if starts_with "57P" sqlstate then Some (server Server.ConnectionError)
    else Some (server Server.RuntimeError)
  else if cls "58" then
    if eqs "58030" then Some (fatal Fatal.CorruptionDetected)
    else Some (fatal Fatal.InternalError)
  else if cls "F0" then Some (client Client.ConfigurationError)
  else if cls "HV" then Some (server Server.RuntimeError)
  else if cls "P0" then
    if eqs "P0002" then Some (server Server.ObjectNotFound)
    else if eqs "P0003" then Some (server Server.DataError)
    else if eqs "P0004" then Some (client Client.InvalidParameter)
    else Some (server Server.RuntimeError)
  else if cls "XX" then
    if eqs "XX001" || eqs "XX002" then Some (fatal Fatal.CorruptionDetected)
    else Some (fatal Fatal.InternalError)
  else Some (fatal Fatal.UnexpectedState).

(** ** libpq results *)

(** The statuses that the code names, and any other value of the enumeration. *)
Inductive ExecStatusType : Type :=
  | PGRES_EMPTY_QUERY | PGRES_COMMAND_OK | PGRES_TUPLES_OK | PGRES_COPY_OUT | PGRES_COPY_IN
  | PGRES_BAD_RESPONSE | PGRES_NONFATAL_ERROR | PGRES_FATAL_ERROR | PGRES_COPY_BOTH
  | PGRES_SINGLE_TUPLE | PGRES_PIPELINE_SYNC | PGRES_PIPELINE_ABORTED | PGRES_TUPLES_CHUNK
  | PGRES_unlisted (value : Z).

Inductive ConnStatusType : Type :=
  | CONNECTION_OK | CONNECTION_BAD | CONNECTION_STARTED | CONNECTION_MADE
  | CONNECTION_AWAITING_RESPONSE | CONNECTION_AUTH_OK | CONNECTION_SETENV
  | CONNECTION_SSL_STARTUP | CONNECTION_NEEDED | CONNECTION_CHECK_WRITABLE
  | CONNECTION_CONSUME | CONNECTION_GSS_STARTUP | CONNECTION_CHECK_TARGET
  | CONNECTION_CHECK_STANDBY | CONNECTION_ALLOCATED | CONNECTION_AUTHENTICATING
  | CONNECTION_unlisted (value : Z).

#[export] Instance ExecStatusType_eq_dec : EqDecision ExecStatusType.
Proof. solve_decision. Defined.
#[export] Instance ConnStatusType_eq_dec : EqDecision ConnStatusType.
Proof. solve_decision. Defined.

Inductive DiagField : Type :=
  | PG_DIAG_SQLSTATE | PG_DIAG_MESSAGE_DETAIL | PG_DIAG_MESSAGE_HINT | PG_DIAG_CONTEXT
  | PG_DIAG_STATEMENT_POSITION.

Definition map_exec_status (status : ExecStatusType) : option ErrorCode :=
  match status with
  | PGRES_EMPTY_QUERY => Some (client Client.InvalidArgument)
  | PGRES_COMMAND_OK | PGRES_TUPLES_OK | PGRES_COPY_OUT | PGRES_COPY_IN | PGRES_COPY_BOTH
  | PGRES_SINGLE_TUPLE | PGRES_PIPELINE_SYNC | PGRES_TUPLES_CHUNK => None
  | PGRES_PIPELINE_ABORTED => Some (server Server.TransactionAborted)
  | PGRES_BAD_RESPONSE => Some (fatal Fatal.ProtocolViolation)
  | PGRES_NONFATAL_ERROR | PGRES_FATAL_ERROR => Some (server Server.RuntimeError)
  | PGRES_unlisted _ => Some (fatal Fatal.UnexpectedState)
  end.

Definition is_success_status (status : ExecStatusType) : bool :=
  match status with
  | PGRES_COMMAND_OK | PGRES_TUPLES_OK | PGRES_COPY_OUT | PGRES_COPY_IN | PGRES_COPY_BOTH
  | PGRES_SINGLE_TUPLE | PGRES_PIPELINE_SYNC => true
  | _ => false
  end.

Record ErrorContext := mkContext {
  ctx_code : ErrorCode;
  ctx_sqlstate : string;
  ctx_message : string;
  ctx_detail : string;
  ctx_hint : string;
  ctx_context : string;
  ctx_position : option Z;
}.

Definition context_of (ec : ErrorCode) : ErrorContext := mkContext ec "" "" "" "" "" None.

Definition has_error (ctx : ErrorContext) : bool := negb (is_success (ctx_code ctx)).

(** [std::to_string(int)] *)
Definition std_to_string (z : Z) : string :=
  (if z <? 0 then "-" else "") +:+ ToString.numeral (Z.abs_N z).

Definition newline : string := String (ascii_of_N 10) EmptyString.

Definition format (ctx : ErrorContext) : result string :=
  let field (label text : string) :=
    if bool_decide (text = "") then "" else newline +:+ label +:+ text in
  if negb (has_error ctx) then Ok "Success"
  else
    let! n := name (ctx_code ctx) in
    Ok ("[" +:+ n +:+ "] " +:+
        (if bool_decide (ctx_sqlstate ctx = "") then ""
         else "SQLSTATE " +:+ ctx_sqlstate ctx +:+ ": ") +:+
        ctx_message ctx +:+ field "Detail: " (ctx_detail ctx) +:+ field "Hint: " (ctx_hint ctx) +:+
        field "Context: " (ctx_context ctx) +:+
        match ctx_position ctx with
        | Some p => newline +:+ "Position: " +:+ std_to_string p
        | None => ""
        end).

(** libpq is not part of the program: its result and connection objects are
    opaque, and the functions that read them are parameters. *)
Section Libpq.
Context {PGresult PGconn : Type}.
Variable PQresultStatus : PGresult → ExecStatusType.
Variable PQresultErrorField : PGresult → DiagField → option string.
Variable PQresultErrorMessage : PGresult → option string.
Variable PQstatus : PGconn → ConnStatusType.
Variable PQerrorMessage : PGconn → option string.

(** A null pointer is [None]. *)
Definition extract_error (result : option PGresult) : option ErrorContext :=
  match result with
  | None => Some (context_of (fatal Fatal.UnexpectedState))
  | Some r =>
      let status := PQresultStatus r in
      if is_success_status status then None
      else
        let found :=
          match PQresultErrorField r PG_DIAG_SQLSTATE with
          | Some sqlstate =>
              match map_sqlstate sqlstate with
              | Some code => Some (sqlstate, code)
              | None => None
              end
          | None =>
              match map_exec_status status with
              | Some code => Some ("", code)
              | None => None
              end
          end in
        match found with
        | None => None
        | Some (sqlstate, code) =>
            Some (mkContext code sqlstate
                    (default "" (PQresultErrorMessage r))
                    (default "" (PQresultErrorField r PG_DIAG_MESSAGE_DETAIL))
                    (default "" (PQresultErrorField r PG_DIAG_MESSAGE_HINT))
                    (default "" (PQresultErrorField r PG_DIAG_CONTEXT))
                    match PQresultErrorField r PG_DIAG_STATEMENT_POSITION with
                    | Some pos => from_chars_signed 32 (list_ascii_of_string pos)
                    | None => None
                    end)
        end
  end.

Definition extract_error_code (result : option PGresult) : option ErrorCode :=
  match result with
  | None => Some (fatal Fatal.UnexpectedState)
  | Some r =>
      let status := PQresultStatus r in
      if is_success_status status then None
      else
        match PQresultErrorField r PG_DIAG_SQLSTATE with
        | Some sqlstate => map_sqlstate sqlstate
        | None => map_exec_status status
        end
  end.

Definition extract_connection_error (conn : option PGconn) : ErrorContext :=
  match conn with
  | None => context_of (client Client.NotConnected)
  | Some c =>
      let code := match PQstatus c with
                  | CONNECTION_BAD => server Server.ConnectionLost
                  | _ => server Server.RuntimeError
                  end in
      let message := match PQerrorMessage c with
                     | Some msg => if bool_decide (msg = "") then "Unknown connection error" else msg
                     | None => "Unknown connection error"
                     end in
      mkContext code "" message "" "" "" None
  end.

Definition check_connection (conn : option PGconn) : ErrorCode :=
  match conn with
  | None => client Client.NotConnected
  | Some c =>
      match PQstatus c with
      | CONNECTION_OK => no_error
      | CONNECTION_BAD => server Server.ConnectionLost
      | CONNECTION_unlisted _ => fatal Fatal.UnexpectedState
      | _ => client Client.InvalidState
      end
  end.
End Libpq.

(** ** Lemmas *)

Lemma substring_0 s : String.substring 0 0 s = "".
Proof. by destruct s. Qed.

(** The class of a SQLSTATE is its first two characters. *)
Lemma class_of a b s : String.substring 0 2 (String a (String b s)) = String a (String b "").
Proof. cbn. by rewrite substring_0. Qed.

(** Walk down the decision list. *)
Ltac walk_tests :=
  repeat match goal with |- context [if ?b then _ else _] => destruct b end.

(** Walk it for a SQLSTATE whose class is known: the other classes are
    refuted by their first two characters. *)
Ltac refute_test E :=
  exfalso; repeat apply orb_true_iff in E as [E|E]; bool_to_prop; discriminate.
Ltac accept_test E := exfalso; bool_to_prop; congruence.
Ltac walk_class :=
  unfold map_sqlstate; cbn [String.append]; rewrite ?class_of;
  repeat match goal with
  | |- context [if ?b then _ else _] =>
      let E := fresh "E" in destruct b eqn:E; [try (refute_test E)|try (accept_test E)]
  end.

Lemma map_sqlstate_proper s e : map_sqlstate s = Some e → proper e.
Proof. unfold map_sqlstate. walk_tests; intros [= <-]; constructor. Qed.

Lemma map_exec_status_proper st e : map_exec_status st = Some e → proper e.
Proof. destruct st; simpl; intros [= <-]; constructor. Qed.

Lemma map_sqlstate_error s e : map_sqlstate s = Some e → is_success e = false.
Proof. unfold map_sqlstate. walk_tests; intros [= <-]; reflexivity. Qed.

Lemma map_exec_status_error st e : map_exec_status st = Some e → is_success e = false.
Proof. destruct st; simpl; intros [= <-]; reflexivity. Qed.

(** A code that a constructor built has a name and a description. *)
Lemma proper_texts e : proper e → is_ok (name e) = true ∧ is_ok (description e) = true.
Proof.
  intros [|c|c|c]; cbn -[Client.client_of_value Server.server_of_value Fatal.fatal_of_value];
    by rewrite ?Client.client_of_value_value, ?Server.server_of_value_value, ?Fatal.fatal_of_value_value.
Qed.

Lemma format_defined ctx :
  proper (ctx_code ctx) → is_success (ctx_code ctx) = false →
  has_error ctx = true ∧ ∃ text, format ctx = Ok text.
Proof.
  intros Hp Hs. unfold format, has_error. rewrite Hs. split; [done|]. cbn [negb].
  destruct (proper_texts _ Hp) as [Hn _]. destruct (name (ctx_code ctx)); [|done].
  by eexists.
Qed.

(** ** Theorems *)

(** The retryable server codes: runtime errors, resource errors, and a
    transaction that was rolled back or aborted. *)
Definition retryable_codes : list Server.ServerErrorCode :=
  [Server.RuntimeError; Server.ConnectionError; Server.ConnectionLost; Server.ConnectionTimeout;
   Server.ConnectionRefused; Server.DeadlockDetected; Server.LockTimeout;
   Server.StatementTimeout; Server.SerializationFailure;
   Server.ResourceError; Server.OutOfMemory; Server.DiskFull; Server.TooManyConnections;
   Server.ConfigurationLimit; Server.QueryTooComplex;
   Server.TransactionRollback; Server.TransactionAborted].

(** The ranges of [is_retryable] select exactly the codes that the policy
    names: a code that the constructors build is retryable if and only if it is
    one of the listed server codes; client and fatal codes never are. *)
Theorem retry_policy e :
  proper e →
  is_retryable e = true ↔ ∃ c, e = server c ∧ c ∈ retryable_codes.
Proof.
  intros He. split.
  - destruct He as [|c|c|c]; try done. intros Hr. exists c. split; [done|].
    destruct c; try done; apply list_elem_of_In; cbn; tauto.
  - intros (c & -> & Hc). unfold retryable_codes in Hc.
    repeat (apply elem_of_cons in Hc as [->|Hc]; [reflexivity|]). by apply not_elem_of_nil in Hc.
Qed.

Lemma retry_policy_witness :
  is_retryable (server Server.DeadlockDetected) = true ↔
  ∃ c, server Server.DeadlockDetected = server c ∧ c ∈ retryable_codes.
Proof. apply retry_policy. constructor. Defined.

(** An [ErrorCode] keeps what it was built from: the typed accessor of its
    category gives the code back and the others nothing, and name and
    description are defined; within a category the name determines the code. *)
Theorem error_code_identity :
  (∀ c, as_client_error (client c) = Some c ∧ as_server_error (client c) = None ∧
        as_fatal_error (client c) = None) ∧
  (∀ c, as_server_error (server c) = Some c ∧ as_client_error (server c) = None ∧
        as_fatal_error (server c) = None) ∧
  (∀ c, as_fatal_error (fatal c) = Some c ∧ as_client_error (fatal c) = None ∧
        as_server_error (fatal c) = None) ∧
  (∀ e, proper e → is_ok (name e) = true ∧ is_ok (description e) = true) ∧
  (∀ e1 e2, proper e1 → proper e2 → category_ e1 = category_ e2 → name e1 = name e2 → e1 = e2).
Proof.
  repeat split; try by destruct c.
  - by apply proper_texts.
  - by apply proper_texts.
  - intros e1 e2 [|c1|c1|c1] [|c2|c2|c2]; try done; intros _;
      cbn -[Client.client_of_value Server.server_of_value Fatal.fatal_of_value Client.client_value Server.server_value Fatal.fatal_value];
      rewrite ?Client.client_of_value_value, ?Server.server_of_value_value, ?Fatal.fatal_of_value_value;
      intros [= Hn]; f_equal.
    + by apply Client.client_to_string_inj.
    + by apply Server.server_to_string_inj.
    + by apply Fatal.fatal_to_string_inj.
Qed.

(** A SQLSTATE is taken for success exactly when it is empty or of class
    00.  Whatever the rest of the state, classes 40 (transaction rollback), 53
    (insufficient resources) and 54 (program limit exceeded) are retryable, and
    classes 22 (data), 23 (integrity), 28 (authorization), 42 (syntax or access
    rule), 58 and XX (system, internal) are not. *)
Theorem sqlstate_classes :
  (∀ s, map_sqlstate s = None ↔ s = "" ∨ ∃ t, s = "00" +:+ t) ∧
  (∀ t, Forall (λ c, is_retryable <$> map_sqlstate (c +:+ t) = Some true) ["40"; "53"; "54"]) ∧
  (∀ t, Forall (λ c, is_retryable <$> map_sqlstate (c +:+ t) = Some false)
          ["22"; "23"; "28"; "42"; "58"; "XX"]).
Proof.
  split; [|split].
  - intros s. split.
    + unfold map_sqlstate. destruct (_ || _) eqn:E0.
      { intros _. apply orb_true_iff in E0 as [?|?]; bool_to_prop; subst; [by left|].
        right. by exists "000". }
      destruct (bool_decide (String.substring 0 2 s = "00")) eqn:E1.
      { intros _. right. bool_to_prop. destruct s as [|a [|b s]]; try done.
        rewrite class_of in E1. simplify_eq. by exists s. }
      walk_tests; done.
    + intros [->|[t ->]]; [done|]. by walk_class.
  - intros t. repeat constructor; by walk_class.
  - intros t. repeat constructor; by walk_class.
Qed.

(** The two ways to read an error off a libpq result agree, whatever libpq
    returns: [extract_error_code] gives the code of the context that
    [extract_error] builds, and neither reports an error for a success status.
    An extracted context is an error with a printable text. *)
Theorem extract_error_agrees {PGresult : Type} (status : PGresult → ExecStatusType)
    (field : PGresult → DiagField → option string) (message : PGresult → option string) r :
  extract_error_code status field r = ctx_code <$> extract_error status field message r ∧
  (∀ ctx, extract_error status field message r = Some ctx →
     has_error ctx = true ∧ ∃ text, format ctx = Ok text).
Proof.
  destruct r as [r|]; [|by split; [|intros ctx [= <-]; split; [|eexists]]].
  unfold extract_error, extract_error_code. destruct (is_success_status _) eqn:Es; [done|].
  split.
  - destruct (field r PG_DIAG_SQLSTATE); [by destruct (map_sqlstate _)|by destruct (map_exec_status _)].
  - intros ctx. destruct (field r PG_DIAG_SQLSTATE) as [st|].
    + destruct (map_sqlstate st) as [e|] eqn:He; [|done]. intros [= <-].
      apply format_defined; [by eapply map_sqlstate_proper|by eapply map_sqlstate_error].
    + destruct (map_exec_status _) as [e|] eqn:He; [|done]. intros [= <-].
      apply format_defined; [by eapply map_exec_status_proper|by eapply map_exec_status_error].
Qed.
