(* ===== verification/Schema.v ===== *)
(** * Schemas and records

    [primitives/table] and [primitives/record]: [DynamicTable] with its fluent
    schema builder, [Record] with its fields, and the [InsertExpr] members that
    turn records into rows; and the SQL type names of
    [providers/postgresql/registries] and [type_mapping].

    A field of a [Record] is its value: the schema it points to is the field of
    the shared schema at the same position, which does not change while the
    record exists. *)

From stdpp Require Import gmap.
From S2P Require Import Prelude Gears Bytes QueryAst PostgresParams ResultViews.

Local Open Scope demi_scope.

(** ** DynamicTable *)

Definition make_table (name : string) (provider : Providers) : DynamicTable :=
  mkTable name [] ∅ provider.

(** [add_field(name, db_type)]: a field with the default attributes; the index
    entry of the name is overwritten. *)
Definition default_field (name db_type : string) : DynamicFieldSchema :=
  mkField name db_type true false false false false "" "" "" 0 [].

Definition add_field (name db_type : string) (t : DynamicTable) : DynamicTable :=
  let fs := fields t ++ [default_field name db_type] in
  mkTable (table_name t) fs (<[name := length fs - 1]> (field_index t)) (table_provider t).

(** [get_field_schema]: the position that a non-null pointer refers to. *)
Definition get_field_schema (t : DynamicTable) (name : string) : option nat :=
  field_index t !! name.

(** Writing through the pointer that [get_field_schema] returned. *)
Definition update_field (name : string) (f : DynamicFieldSchema → DynamicFieldSchema)
    (t : DynamicTable) : DynamicTable :=
  match get_field_schema t name with
  | Some i => mkTable (table_name t) (alter f i (fields t)) (field_index t) (table_provider t)
  | None => t
  end.

Definition primary_key (name : string) : DynamicTable → DynamicTable :=
  update_field name (λ f,
    mkField (f_name f) (f_db_type f) false true (f_is_foreign_key f) (f_is_unique f)
      (f_is_indexed f) (f_foreign_table f) (f_foreign_column f) (f_default_value f)
      (f_max_length f) (f_db_attributes f)).

Definition nullable (name : string) (is_null : bool) : DynamicTable → DynamicTable :=
  update_field name (λ f,
    mkField (f_name f) (f_db_type f) is_null (f_is_primary_key f) (f_is_foreign_key f)
      (f_is_unique f) (f_is_indexed f) (f_foreign_table f) (f_foreign_column f)
      (f_default_value f) (f_max_length f) (f_db_attributes f)).

Definition foreign_key (name ref_table ref_column : string) : DynamicTable → DynamicTable :=
  update_field name (λ f,
    mkField (f_name f) (f_db_type f) (f_is_nullable f) (f_is_primary_key f) true (f_is_unique f)
      (f_is_indexed f) ref_table ref_column (f_default_value f) (f_max_length f)
      (f_db_attributes f)).

Definition unique (name : string) : DynamicTable → DynamicTable :=
  update_field name (λ f,
    mkField (f_name f) (f_db_type f) (f_is_nullable f) (f_is_primary_key f) (f_is_foreign_key f)
      true (f_is_indexed f) (f_foreign_table f) (f_foreign_column f) (f_default_value f)
      (f_max_length f) (f_db_attributes f)).

Definition indexed (name : string) : DynamicTable → DynamicTable :=
  update_field name (λ f,
    mkField (f_name f) (f_db_type f) (f_is_nullable f) (f_is_primary_key f) (f_is_foreign_key f)
      (f_is_unique f) true (f_foreign_table f) (f_foreign_column f) (f_default_value f)
      (f_max_length f) (f_db_attributes f)).

Definition field_names (t : DynamicTable) : list string := f_name <$> fields t.

Definition table_column (t : DynamicTable) (name : string) : result Column :=
  match get_field_schema t name with
  | None => Throw runtime_error
  | Some i =>
      match fields t !! i with
      | Some f => Ok (col_of (f_name f) (table_name t))
      | None => Throw UndefinedBehaviour
      end
  end.

(** ** SQL type names *)

Module SqlTypeRegistry.
Definition digit_count (n : N) : nat :=
  if (n <? 10)%N then 1 else if (n <? 100)%N then 2 else if (n <? 1000)%N then 3
  else if (n <? 10000)%N then 4 else 5.

(** [static_cast<char>('0' + d)] *)
Definition digit_char (d : N) : ascii := ascii_of_N (48 + d).

(** The zero-initialised array after the characters [cs] were written to its
    start, and a view of [len] characters of it. *)
Definition array_of (size : nat) (cs : list ascii) : list ascii :=
  cs ++ replicate (size - length cs) Ascii.zero.
Definition view_of (array : list ascii) (len : nat) : string :=
  string_of_list_ascii (take len array).

(** [SingleParamStorage<PrefixLen, N, Prefix...>] *)
Definition single_param_chars (prefix : string) (n : N) : list ascii :=
  list_ascii_of_string prefix ++ ["("%char] ++
  (if (10000 <=? n)%N then [digit_char ((n / 10000) mod 10)] else []) ++
  (if (1000 <=? n)%N then [digit_char ((n / 1000) mod 10)] else []) ++
  (if (100 <=? n)%N then [digit_char ((n / 100) mod 10)] else []) ++
  (if (10 <=? n)%N then [digit_char ((n / 10) mod 10)] else []) ++
  [digit_char (n mod 10)] ++ [")"%char].
Definition single_param (prefix_len : nat) (prefix : string) (n : N) : string :=
  view_of (array_of 32 (single_param_chars prefix n)) (prefix_len + 1 + digit_count n + 1).

Definition char_type : N → string := single_param 4 "CHAR".
Definition varchar : N → string := single_param 7 "VARCHAR".
Definition bit : N → string := single_param 3 "BIT".
Definition varbit : N → string := single_param 6 "VARBIT".
Definition time_p : N → string := single_param 4 "TIME".
Definition timestamp_p : N → string := single_param 9 "TIMESTAMP".

(** [TimestampTzStorage<P>] *)
Definition timestamptz_chars (p : N) : list ascii :=
  list_ascii_of_string "TIMESTAMP(" ++ [digit_char p] ++ list_ascii_of_string ") WITH TIME ZONE".
Definition timestamptz_p (p : N) : string :=
  view_of (array_of 32 (timestamptz_chars p)) 30.

(** [NumericStorage<Precision, Scale>] *)
Definition numeric_chars (p s : N) : list ascii :=
  list_ascii_of_string "NUMERIC(" ++
  (if (10 <=? p)%N then [digit_char (p / 10)] else []) ++ [digit_char (p mod 10)] ++ [","%char] ++
  (if (10 <=? s)%N then [digit_char (s / 10)] else []) ++ [digit_char (s mod 10)] ++ [")"%char].
Definition numeric (p s : N) : string :=
  view_of (array_of 16 (numeric_chars p s)) (8 + digit_count p + 1 + digit_count s + 1).
End SqlTypeRegistry.

(** [SqlTypeMapping<T, Providers::PostgreSQL>]; [std::monostate] has none. *)
Definition sql_type_for (T : field_type) : option string :=
  match T with
  | TMonostate => None
  | TBool => Some "BOOLEAN"
  | TChar => Some (SqlTypeRegistry.char_type 1)
  | TInt16 => Some "SMALLINT"
  | TInt32 => Some "INTEGER"
  | TInt64 => Some "BIGINT"
  | TUint16 => Some "INTEGER"
  | TUint32 => Some "BIGINT"
  | TUint64 => Some (SqlTypeRegistry.numeric 20 0)
  | TFloat => Some "REAL"
  | TDouble => Some "DOUBLE PRECISION"
  | TString | TStringView => Some "TEXT"
  | TVector | TSpan => Some "BYTEA"
  end.

(** [add_field<T>(name)]: infers the type from the provider. *)
Definition add_field_inferred (name : string) (T : field_type) (t : DynamicTable)
    : result DynamicTable :=
  match table_provider t with
  | NoProvider => Throw logic_error
  | PostgreSQL =>
      match sql_type_for T with
      | Some ty => Ok (add_field name ty t)
      | None => Throw UndefinedBehaviour
      end
  end.

(** ** Record *)

Record Record_ := mkRecord {
  schema_ : DynamicTable;
  fields_ : list FieldValue;
  field_index_ : gmap string nat;
}.

(** The constructor's loop over the fields of the schema. *)
Definition push_field (acc : list FieldValue * gmap string nat) (f : DynamicFieldSchema)
    : list FieldValue * gmap string nat :=
  (fst acc ++ [FNull], <[f_name f := length (fst acc)]> (snd acc)).

Definition make_record (schema : option DynamicTable) : result Record_ :=
  match schema with
  | None => Throw invalid_argument
  | Some t =>
      let '(vs, ix) := foldl push_field ([], ∅) (fields t) in Ok (mkRecord t vs ix)
  end.

(** [operator[]]: the position of the field that the reference denotes. *)
Definition field_of (r : Record_) (name : string) : result nat :=
  match field_index_ r !! name with
  | None => Throw out_of_range
  | Some i => Ok i
  end.

Definition record_at (r : Record_) (i : nat) : result FieldValue :=
  match fields_ r !! i with
  | Some v => Ok v
  | None => Throw out_of_range
  end.

Definition get_field (r : Record_) (name : string) : option nat := field_index_ r !! name.

(** [record[name].raw_value()] *)
Definition record_value (r : Record_) (name : string) : result FieldValue :=
  let! i := field_of r name in
  match fields_ r !! i with
  | Some v => Ok v
  | None => Throw UndefinedBehaviour
  end.

(** [record[name].set(value)] *)
Definition record_set (r : Record_) (name : string) (v : FieldValue) : result Record_ :=
  let! i := field_of r name in
  Ok (mkRecord (schema_ r) (<[i := v]> (fields_ r)) (field_index_ r)).

#[export] Instance field_type_eq_dec : EqDecision field_type.
Proof. solve_decision. Defined.

(** [Field::get<T>] and [Field::try_get<T>] on the field's value. *)
Definition value_get (T : field_type) (v : FieldValue) : result FieldValue :=
  if bool_decide (type_of v = T) then Ok v else Throw bad_variant_access.
Definition value_try_get (T : field_type) (v : FieldValue) : option FieldValue :=
  if bool_decide (type_of v = T) then Some v else None.

(** ** InsertExpr *)

Record InsertExpr := mkInsert {
  ins_table : Table;
  ins_columns : list string;
  ins_rows : list (list FieldValue);
}.

Definition insert_into (t : Table) : InsertExpr := mkInsert t [] [].

Definition into (e : InsertExpr) (cols : list string) : InsertExpr :=
  mkInsert (ins_table e) cols (ins_rows e).

Definition values_list (e : InsertExpr) (vals : list FieldValue) : InsertExpr :=
  mkInsert (ins_table e) (ins_columns e) (ins_rows e ++ [vals]).

(** The members are [noexcept]: an exception inside ends the program. *)
Definition noexcept {A} (m : result A) : result A :=
  match m with
  | Ok a => Ok a
  | Throw UndefinedBehaviour => Throw UndefinedBehaviour
  | Throw _ => Throw terminate
  end.

(** [values(const Record&)]: reads the record once per column. *)
Fixpoint row_of (r : Record_) (cols : list string) : result (list FieldValue) :=
  match cols with
  | [] => Ok []
  | c :: cols' => let! v := record_value r c in let! row := row_of r cols' in Ok (v :: row)
  end.

Definition values_record (e : InsertExpr) (r : Record_) : result InsertExpr :=
  noexcept (let! row := row_of r (ins_columns e) in Ok (values_list e row)).

(** [values(Record&&)]: each read moves the value out of the record. *)
Section Move.
(** What the standard library leaves in a value that was moved from. *)
Variable moved_from : FieldValue → FieldValue.

Fixpoint row_of_moved (r : Record_) (cols : list string) : result (list FieldValue) :=
  match cols with
  | [] => Ok []
  | c :: cols' =>
      let! v := record_value r c in
      let! r' := record_set r c (moved_from v) in
      let! row := row_of_moved r' cols' in
      Ok (v :: row)
  end.

Definition values_record_moved (e : InsertExpr) (r : Record_) : result InsertExpr :=
  noexcept (let! row := row_of_moved r (ins_columns e) in Ok (values_list e row)).

Fixpoint batch_moved (e : InsertExpr) (rs : list Record_) : result InsertExpr :=
  match rs with
  | [] => Ok e
  | r :: rs' => let! e' := values_record_moved e r in batch_moved e' rs'
  end.
End Move.

Fixpoint batch (e : InsertExpr) (rs : list Record_) : result InsertExpr :=
  match rs with
  | [] => Ok e
  | r :: rs' => let! e' := values_record e r in batch e' rs'
  end.

(** The expression node. *)
Definition insert_node (e : InsertExpr) : Expr :=
  EInsert (ins_table e) (ins_columns e) (ins_rows e).

(** ** The index of a table *)

(** Reference: the position of the last field with a given name. *)
Fixpoint last_named (name : string) (fs : list DynamicFieldSchema) : option nat :=
  match fs with
  | [] => None
  | f :: fs' =>
      match last_named name fs' with
      | Some i => Some (S i)
      | None => if bool_decide (f_name f = name) then Some 0 else None
      end
  end.

Lemma last_named_app name fs f :
  last_named name (fs ++ [f]) =
  if bool_decide (f_name f = name) then Some (length fs) else last_named name fs.
Proof.
  induction fs as [|g fs IH]; simpl; [done|]. rewrite IH. by case_bool_decide.
Qed.

Lemma last_named_names name fs gs :
  f_name <$> fs = f_name <$> gs → last_named name fs = last_named name gs.
Proof.
  revert gs. induction fs as [|f fs IH]; intros [|g gs]; simpl; try done.
  intros [= Hf Hfs]. by rewrite (IH _ Hfs), Hf.
Qed.

Lemma last_named_spec name fs i :
  last_named name fs = Some i → ∃ f, fs !! i = Some f ∧ f_name f = name.
Proof.
  revert i. induction fs as [|f fs IH]; intros i; simpl; [done|].
  destruct (last_named name fs) as [j|].
  - intros [= <-]. by apply IH.
  - case_bool_decide; [|done]. intros [= <-]. by exists f.
Qed.

Lemma last_named_some name fs : is_Some (last_named name fs) ↔ name ∈ f_name <$> fs.
Proof.
  induction fs as [|f fs IH]; simpl.
  - split; [by intros [? [=]]|]. intros H. by apply not_elem_of_nil in H.
  - rewrite elem_of_cons, <- IH. destruct (last_named name fs).
    + split; [by right|by eexists].
    + case_bool_decide as Hf; split; try (by eexists); try by intros [? [=]].
      * by left.
      * intros [->|[? [=]]]. done.
Qed.

Definition table_ok (t : DynamicTable) : Prop :=
  ∀ name, field_index t !! name = last_named name (fields t).

Lemma make_table_ok name p : table_ok (make_table name p).
Proof. intros n. simpl. apply lookup_empty. Qed.

Lemma add_field_ok name ty t : table_ok t → table_ok (add_field name ty t).
Proof.
  intros Hok n. cbn -[length]. rewrite last_named_app, length_app. simpl.
  replace (length (fields t) + 1 - 1) with (length (fields t)) by lia.
  case_bool_decide as Hn.
  - subst. by rewrite lookup_insert_eq.
  - by rewrite lookup_insert_ne.
Qed.

Lemma alter_names (f : DynamicFieldSchema → DynamicFieldSchema) (i : nat) (fs : list DynamicFieldSchema) :
  (∀ x, f_name (f x) = f_name x) → f_name <$> alter f i fs = f_name <$> fs.
Proof.
  intros Hf. revert i. induction fs as [|x fs IH]; intros [|i]; simpl; try done.
  - by rewrite Hf.
  - f_equal. apply IH.
Qed.

Lemma update_field_ok name f t :
  (∀ x, f_name (f x) = f_name x) → table_ok t → table_ok (update_field name f t).
Proof.
  intros Hf Hok n. unfold update_field. destruct (get_field_schema t name) as [i|]; [|done].
  simpl. rewrite Hok. apply last_named_names. symmetry. by apply alter_names.
Qed.

Create HintDb schema.
#[export] Hint Resolve make_table_ok add_field_ok update_field_ok : schema.

(** A record built from a table has its index. *)
Lemma push_fields fs vs ix :
  ∃ ix', foldl push_field (vs, ix) fs = (vs ++ replicate (length fs) FNull, ix') ∧
         ∀ name, ix' !! name = match last_named name fs with
                               | Some i => Some (length vs + i)
                               | None => ix !! name
                               end.
Proof.
  revert vs ix. induction fs as [|f fs IH]; intros vs ix; simpl.
  { exists ix. by rewrite app_nil_r. }
  unfold push_field at 2. cbn [fst snd].
  destruct (IH (vs ++ [FNull]) (<[f_name f := length vs]> ix)) as (ix' & -> & Hix).
  exists ix'. rewrite <- app_assoc. split; [done|]. intros name. rewrite Hix, length_app. simpl.
  destruct (last_named name fs); [f_equal; lia|].
  case_bool_decide as Hn; [subst; rewrite lookup_insert_eq; f_equal; lia|by rewrite lookup_insert_ne].
Qed.

(** The index of a record is that of its schema, and it has a value per field. *)
Definition record_ok (r : Record_) : Prop :=
  length (fields_ r) = length (fields (schema_ r)) ∧
  ∀ name, field_index_ r !! name = last_named name (fields (schema_ r)).

Lemma make_record_ok t :
  ∃ r, make_record (Some t) = Ok r ∧ schema_ r = t ∧ record_ok r ∧
       fields_ r = replicate (length (fields t)) FNull.
Proof.
  destruct (push_fields (fields t) [] ∅) as (ix & E & Hix).
  unfold make_record. rewrite E. eexists. split_and!; [done|done| |done].
  split; [apply length_replicate|]. intros name. simpl. rewrite Hix. by destruct (last_named _ _).
Qed.

Lemma record_set_ok r name v r' : record_ok r → record_set r name v = Ok r' → record_ok r'.
Proof.
  unfold record_set, field_of. intros [Hl Hix].
  destruct (field_index_ r !! name); simpl; [|done]. intros [= <-].
  split; simpl; [by rewrite length_insert|done].
Qed.

(** ** Runs of the builders *)

Inductive table_op : Type :=
  | AddField (name db_type : string)
  | AddInferred (name : string) (T : field_type)
  | PrimaryKey (name : string)
  | Nullable (name : string) (is_null : bool)
  | ForeignKey (name ref_table ref_column : string)
  | Unique (name : string)
  | Indexed (name : string).

Definition run_table_op (t : DynamicTable) (o : table_op) : result DynamicTable :=
  match o with
  | AddField name ty => Ok (add_field name ty t)
  | AddInferred name T => add_field_inferred name T t
  | PrimaryKey name => Ok (primary_key name t)
  | Nullable name b => Ok (nullable name b t)
  | ForeignKey name rt rc => Ok (foreign_key name rt rc t)
  | Unique name => Ok (unique name t)
  | Indexed name => Ok (indexed name t)
  end.

Fixpoint run_table (t : DynamicTable) (ops : list table_op) : result DynamicTable :=
  match ops with
  | [] => Ok t
  | o :: ops' => let! t' := run_table_op t o in run_table t' ops'
  end.

Lemma run_table_op_ok t o t' : table_ok t → run_table_op t o = Ok t' → table_ok t'.
Proof.
  intros Hok. destruct o; simpl;
    try (intros [= <-]; first [by apply add_field_ok|by apply update_field_ok]).
  unfold add_field_inferred. destruct (table_provider t); [done|].
  destruct (sql_type_for T); [|done]. intros [= <-]. auto with schema.
Qed.

Lemma run_table_ok t ops t' : table_ok t → run_table t ops = Ok t' → table_ok t'.
Proof.
  revert t. induction ops as [|o ops IH]; intros t Hok; simpl; [by intros [= <-]|].
  destruct (run_table_op t o) eqn:E; simpl; [|done]. eauto using run_table_op_ok.
Qed.

(** The records a client can hold: fresh ones, and those it has set fields of. *)
Inductive built : Record_ → Prop :=
  | built_make t r : make_record (Some t) = Ok r → built r
  | built_set r name v r' : built r → record_set r name v = Ok r' → built r'.

Lemma built_ok r : built r → record_ok r.
Proof.
  induction 1 as [t r Hr|]; [|by eauto using record_set_ok].
  destruct (make_record_ok t) as (r' & Hr' & _ & Hok & _). congruence.
Qed.

Lemma field_of_spec r name :
  record_ok r →
  (name ∈ field_names (schema_ r) → ∃ i v, field_of r name = Ok i ∧ fields_ r !! i = Some v) ∧
  (name ∉ field_names (schema_ r) → field_of r name = Throw out_of_range).
Proof.
  intros [Hl Hix]. unfold field_of. rewrite Hix. split.
  - intros Hn. apply last_named_some in Hn as [i Hi]. rewrite Hi.
    destruct (last_named_spec _ _ _ Hi) as (f & Hf & _). apply lookup_lt_Some in Hf.
    rewrite <- Hl in Hf. apply lookup_lt_is_Some_2 in Hf as [v Hv]. eauto.
  - intros Hn. destruct (last_named name _) as [i|] eqn:Hi; [|done].
    exfalso. apply Hn, last_named_some. eauto.
Qed.

(** Different names denote different fields. *)
Lemma field_of_inj r n m i : record_ok r → field_of r n = Ok i → field_of r m = Ok i → n = m.
Proof.
  intros [_ Hix]. unfold field_of. rewrite !Hix.
  destruct (last_named n _) as [j|] eqn:Hn; [|done]. intros [= ->].
  destruct (last_named m _) as [j|] eqn:Hm; [|done]. intros [= ->].
  destruct (last_named_spec _ _ _ Hn) as (f & Hf & <-).
  destruct (last_named_spec _ _ _ Hm) as (g & Hg & <-). congruence.
Qed.

Lemma record_value_set r n v r' m :
  record_ok r → record_set r n v = Ok r' →
  record_value r' m = if decide (m = n) then Ok v else record_value r m.
Proof.
  intros Hok. unfold record_set. destruct (field_of r n) as [i|] eqn:Hi; simpl; [|done].
  intros [= <-]. unfold record_value, field_of. cbn [field_index_ fields_].
  change (match field_index_ r !! m with Some i => Ok i | None => Throw out_of_range end)
    with (field_of r m).
  destruct (decide (m = n)) as [->|Hne].
  - rewrite Hi. cbn [rbind]. rewrite list_lookup_insert_eq; [done|].
    destruct (field_of_spec r n Hok) as [H1 H2].
    destruct (decide (n ∈ field_names (schema_ r))) as [Hin|Hout].
    + destruct (H1 Hin) as (j & w & Hj & Hw). rewrite Hi in Hj. injection Hj as ->.
      by eapply lookup_lt_Some.
    + rewrite (H2 Hout) in Hi. done.
  - destruct (field_of r m) as [j|] eqn:Hj; [|done]. cbn [rbind].
    rewrite list_lookup_insert_ne; [done|]. intros ->. apply Hne. by eapply field_of_inj.
Qed.

Lemma record_value_ok r name :
  record_ok r → name ∈ field_names (schema_ r) → ∃ v, record_value r name = Ok v.
Proof.
  intros Hok Hn. destruct (field_of_spec r name Hok) as [H1 _].
  destruct (H1 Hn) as (i & v & Hi & Hv). exists v. unfold record_value. rewrite Hi. simpl. by rewrite Hv.
Qed.

Lemma record_value_missing r name :
  record_ok r → name ∉ field_names (schema_ r) → record_value r name = Throw out_of_range.
Proof.
  intros Hok Hn. destruct (field_of_spec r name Hok) as [_ H2].
  unfold record_value. by rewrite (H2 Hn).
Qed.

Lemma record_set_defined r name v :
  record_ok r → name ∈ field_names (schema_ r) →
  ∃ r', record_set r name v = Ok r' ∧ schema_ r' = schema_ r.
Proof.
  intros Hok Hn. destruct (field_of_spec r name Hok) as [H1 _].
  destruct (H1 Hn) as (i & w & Hi & _). unfold record_set. rewrite Hi. simpl. eauto.
Qed.

(** Reading one value per column. *)
Lemma row_of_ok r cols :
  record_ok r → Forall (λ c, c ∈ field_names (schema_ r)) cols →
  ∃ row, row_of r cols = Ok row ∧ Forall2 (λ c v, record_value r c = Ok v) cols row.
Proof.
  intros Hok. induction 1 as [|c cols Hc _ (row & Hrow & Hall)]; simpl; [by exists []|].
  destruct (record_value_ok r c Hok Hc) as [v Hv]. exists (v :: row). rewrite Hv, Hrow.
  split; [done|]. by constructor.
Qed.

Lemma row_of_missing r cols :
  record_ok r → ¬ Forall (λ c, c ∈ field_names (schema_ r)) cols →
  row_of r cols = Throw out_of_range.
Proof.
  intros Hok. induction cols as [|c cols IH]; simpl; [intros H; by destruct H|]. intros Hn.
  destruct (decide (c ∈ field_names (schema_ r))) as [Hc|Hc].
  - destruct (record_value_ok r c Hok Hc) as [v ->]. simpl. rewrite IH; [done|].
    intros Hall. apply Hn. by constructor.
  - by rewrite record_value_missing.
Qed.

(** Moving the values out gives the same row when no column is repeated. *)
Lemma row_of_moved_same mf r cols row :
  record_ok r → NoDup cols → Forall2 (λ c v, record_value r c = Ok v) cols row →
  row_of_moved mf r cols = Ok row.
Proof.
  intros Hok Hnd Hall. revert r Hok Hnd Hall.
  induction cols as [|c cols IH] in row |- *; intros r Hok Hnd Hall; inversion Hall; subst; [done|].
  inversion Hnd as [|? ? Hc Hnd']; subst. simpl. rewrite H1. simpl.
  destruct (record_set r c (mf y)) as [r'|e] eqn:Hs; simpl.
  - rewrite (IH l' r'); [done|by eapply record_set_ok|done|].
    eapply Forall2_impl_in; [eassumption|]. intros d v Hd Hv.
    rewrite (record_value_set _ _ _ _ _ Hok Hs). rewrite decide_False; [done|].
    intros ->. done.
  - exfalso. revert Hs. unfold record_set. unfold record_value in H1.
    destruct (field_of r c); simpl; done.
Qed.

(** ** Type names *)

Import SqlTypeRegistry.

Lemma div_ltb n a b : (b ≠ 0 → (n / b <? a) = (n <? b * a))%N.
Proof.
  intros Hb. destruct (N.ltb_spec n (b * a)) as [H|H].
  - apply N.ltb_lt. by apply N.Div0.div_lt_upper_bound.
  - apply N.ltb_ge. by apply N.div_le_lower_bound.
Qed.

(** The digit-by-digit writing of a parameter below 100000 is its numeral. *)
Lemma digits_numeral n :
  (n <= 99999)%N →
  list_ascii_of_string (ToString.numeral n) =
  (if (10000 <=? n)%N then [digit_char ((n / 10000) mod 10)] else []) ++
  (if (1000 <=? n)%N then [digit_char ((n / 1000) mod 10)] else []) ++
  (if (100 <=? n)%N then [digit_char ((n / 100) mod 10)] else []) ++
  (if (10 <=? n)%N then [digit_char ((n / 10) mod 10)] else []) ++
  [digit_char (n mod 10)].
Proof.
  intros Hn. unfold ToString.numeral. rewrite list_ascii_of_string_of_list_ascii.
  rewrite (ToString.numeral_aux_fuel _ 5) by (try apply ToString.size_nat_pow10; simpl; lia).
  cbn [ToString.numeral_aux]. rewrite !N.Div0.div_div. rewrite !div_ltb by lia.
  change ToString.ascii_digit with digit_char. rewrite !N.ltb_antisym.
  change (10 * 10)%N with 100%N. change (100 * 10)%N with 1000%N.
  change (1000 * 10)%N with 10000%N. change (10000 * 10)%N with 100000%N.
  destruct (N.leb_spec 100000 n); [lia|].
  destruct (N.leb_spec 10000 n), (N.leb_spec 1000 n), (N.leb_spec 100 n), (N.leb_spec 10 n);
    try lia; reflexivity.
Qed.

Lemma digit_count_length n :
  (n <= 99999)%N → length (list_ascii_of_string (ToString.numeral n)) = digit_count n.
Proof.
  intros Hn. rewrite digits_numeral by done. unfold digit_count. rewrite !N.ltb_antisym.
  destruct (N.leb_spec 10000 n), (N.leb_spec 1000 n), (N.leb_spec 100 n), (N.leb_spec 10 n);
    try lia; reflexivity.
Qed.

(** A view that covers exactly what was written. *)
Lemma view_of_exact size cs len : len = length cs → view_of (array_of size cs) len = string_of_list_ascii cs.
Proof. intros ->. unfold view_of, array_of. by rewrite take_app_length. Qed.

Lemma string_eq_of_list (s : string) l : l = list_ascii_of_string s → string_of_list_ascii l = s.
Proof. intros ->. apply string_of_list_ascii_of_string. Qed.

Lemma single_param_text k prefix n :
  (n <= 99999)%N → k = String.length prefix →
  single_param k prefix n = prefix +:+ "(" +:+ ToString.numeral n +:+ ")".
Proof.
  intros Hn ->. unfold single_param.
  assert (single_param_chars prefix n =
          list_ascii_of_string (prefix +:+ "(" +:+ ToString.numeral n +:+ ")")) as ->.
  { rewrite !list_ascii_app, digits_numeral by done. unfold single_param_chars.
    f_equal. f_equal. rewrite <- !app_assoc. reflexivity. }
  rewrite view_of_exact; [by apply string_eq_of_list|].
  rewrite !list_ascii_app, !length_app, digit_count_length by done. simpl.
  rewrite length_list_ascii. lia.
Qed.

Lemma numeric_text p s :
  (p <= 99)%N → (s <= 99)%N →
  numeric p s = "NUMERIC(" +:+ ToString.numeral p +:+ "," +:+ ToString.numeral s +:+ ")".
Proof.
  intros Hp Hs. unfold numeric.
  assert (numeric_chars p s =
          list_ascii_of_string ("NUMERIC(" +:+ ToString.numeral p +:+ "," +:+ ToString.numeral s +:+ ")"))
    as ->.
  { rewrite !list_ascii_app, !digits_numeral by lia. unfold numeric_chars.
    assert ((p / 10) mod 10 = p / 10)%N as -> by (apply N.mod_small, N.Div0.div_lt_upper_bound; lia).
    assert ((s / 10) mod 10 = s / 10)%N as -> by (apply N.mod_small, N.Div0.div_lt_upper_bound; lia).
    destruct (N.leb_spec 10000 p), (N.leb_spec 1000 p), (N.leb_spec 100 p); try lia.
    destruct (N.leb_spec 10000 s), (N.leb_spec 1000 s), (N.leb_spec 100 s); try lia.
    rewrite <- !app_assoc. reflexivity. }
  rewrite view_of_exact; [by apply string_eq_of_list|].
  rewrite !list_ascii_app, !length_app, !digit_count_length by lia. simpl. lia.
Qed.

(** ** Theorems *)

(** Whatever the order of [add_field] and of the constraint builders, the
    name index of a [DynamicTable] denotes, for every name, the last field added
    under it; [column] gives that column of the table for the names of fields
    and throws for every other name. *)
Theorem table_index_correct name provider ops t :
  run_table (make_table name provider) ops = Ok t →
  ∀ n,
    get_field_schema t n = last_named n (fields t) ∧
    table_column t n =
      (if decide (n ∈ field_names t) then Ok (col_of n (table_name t)) else Throw runtime_error).
Proof.
  intros Hrun n. assert (table_ok t) as Hok by (eapply run_table_ok; [apply make_table_ok|done]).
  split; [apply Hok|]. unfold table_column, get_field_schema. rewrite Hok.
  destruct (decide (n ∈ field_names t)) as [Hin|Hout].
  - apply last_named_some in Hin as [i Hi]. rewrite Hi.
    by destruct (last_named_spec _ _ _ Hi) as (f & -> & <-).
  - destruct (last_named n (fields t)) eqn:Hi; [|done].
    exfalso. apply Hout, last_named_some. by rewrite Hi.
Qed.

Definition users_ops : list table_op :=
  [AddInferred "id" TInt64; AddField "name" "TEXT"; PrimaryKey "id"; Nullable "name" false].

Lemma table_index_correct_witness :
  ∃ t, run_table (make_table "users" PostgreSQL) users_ops = Ok t ∧
       get_field_schema t "id" = last_named "id" (fields t) ∧
       table_column t "id" =
         (if decide ("id" ∈ field_names t) then Ok (col_of "id" (table_name t))
          else Throw runtime_error).
Proof.
  destruct (run_table (make_table "users" PostgreSQL) users_ops) as [t|] eqn:E.
  - exists t. split; [done|]. exact (table_index_correct "users" PostgreSQL users_ops t E "id").
  - exfalso. vm_compute in E. discriminate.
Defined.

(** A record behaves as a map from the field names of its schema to
    values: after [record[n].set(v)], reading [n] gives [v] and every other name
    reads as before; a name that the schema lacks throws [out_of_range] on
    reading and on writing. *)
Theorem record_get_set r n v :
  built r →
  (n ∈ field_names (schema_ r) →
     ∃ r', record_set r n v = Ok r' ∧ schema_ r' = schema_ r ∧ record_value r' n = Ok v ∧
           ∀ m, m ≠ n → record_value r' m = record_value r m) ∧
  (n ∉ field_names (schema_ r) →
     record_value r n = Throw out_of_range ∧ record_set r n v = Throw out_of_range).
Proof.
  intros Hb. pose proof (built_ok r Hb) as Hok. split.
  - intros Hn. destruct (record_set_defined r n v Hok Hn) as (r' & Hr' & Hs).
    exists r'. split_and!; [done|done| |].
    + by rewrite (record_value_set _ _ _ _ _ Hok Hr'), decide_True.
    + intros m Hm. by rewrite (record_value_set _ _ _ _ _ Hok Hr'), decide_False.
  - intros Hn. split; [by apply record_value_missing|].
    unfold record_set. destruct (field_of_spec r n Hok) as [_ H2]. by rewrite (H2 Hn).
Qed.

Definition users : DynamicTable :=
  match run_table (make_table "users" PostgreSQL) users_ops with
  | Ok t => t
  | Throw _ => make_table "" NoProvider
  end.
Definition user_record : Record_ :=
  match make_record (Some users) with
  | Ok r => r
  | Throw _ => mkRecord users [] ∅
  end.

Lemma record_get_set_witness :
  ∃ r', record_set user_record "name" (FString "ann") = Ok r' ∧ schema_ r' = schema_ user_record ∧
        record_value r' "name" = Ok (FString "ann") ∧
        ∀ m, m ≠ "name" → record_value r' m = record_value user_record m.
Proof.
  apply (record_get_set user_record "name" (FString "ann")).
  - apply (built_make users). vm_compute. reflexivity.
  - apply list_elem_of_In. vm_compute. tauto.
Defined.

(** [values(record)] adds one row that holds, column by column, the
    record's values of the columns named by [into]; moving the record in gives
    the same row when no column is listed twice.  A column that the schema lacks
    does not raise the documented exception: the members are [noexcept], so the
    program is terminated. *)
Theorem insert_record_row (moved_from : FieldValue → FieldValue) e r :
  built r →
  (Forall (λ c, c ∈ field_names (schema_ r)) (ins_columns e) →
     ∃ row, values_record e r = Ok (values_list e row) ∧
            Forall2 (λ c v, record_value r c = Ok v) (ins_columns e) row ∧
            (NoDup (ins_columns e) →
             values_record_moved moved_from e r = Ok (values_list e row))) ∧
  (¬ Forall (λ c, c ∈ field_names (schema_ r)) (ins_columns e) →
     values_record e r = Throw terminate).
Proof.
  intros Hb. pose proof (built_ok r Hb) as Hok. split.
  - intros Hcols. destruct (row_of_ok r _ Hok Hcols) as (row & Hrow & Hall). exists row.
    split_and!; [|done|].
    + unfold values_record. by rewrite Hrow.
    + intros Hnd. unfold values_record_moved. by rewrite (row_of_moved_same _ _ _ row).
  - intros Hcols. unfold values_record. by rewrite row_of_missing.
Qed.

Lemma insert_record_row_witness :
  values_record (into (insert_into (TName "users")) ["id"; "email"]) user_record = Throw terminate.
Proof.
  apply (insert_record_row (λ v, v)).
  - apply (built_make users). vm_compute. reflexivity.
  - intros H. apply (bool_decide_eq_true_2 _) in H. vm_compute in H. discriminate.
Defined.

(** The parameterised type names computed at compile time are the SQL
    texts, for every parameter that the static assertions admit: the digits
    written one by one are the decimal numeral and the declared length is the
    number of characters written. *)
Theorem sql_type_texts :
  (∀ n, (n <= 99999)%N →
     char_type n = "CHAR(" +:+ ToString.numeral n +:+ ")" ∧
     varchar n = "VARCHAR(" +:+ ToString.numeral n +:+ ")" ∧
     bit n = "BIT(" +:+ ToString.numeral n +:+ ")" ∧
     varbit n = "VARBIT(" +:+ ToString.numeral n +:+ ")" ∧
     time_p n = "TIME(" +:+ ToString.numeral n +:+ ")" ∧
     timestamp_p n = "TIMESTAMP(" +:+ ToString.numeral n +:+ ")") ∧
  (∀ p s, (p <= 99)%N → (s <= 99)%N →
     numeric p s = "NUMERIC(" +:+ ToString.numeral p +:+ "," +:+ ToString.numeral s +:+ ")").
Proof.
  split; [|exact numeric_text].
  intros n Hn. split_and!; (etrans; [by apply single_param_text|reflexivity]).
Qed.

(** [timestamptz_p<P>()] declares a length of 30 for a text of 27
    characters: for every precision the view ends in three NUL characters, so a
    statement that contains it stops there when it is passed as a C string. *)
Theorem timestamptz_trailing_nuls p :
  timestamptz_p p =
  "TIMESTAMP(" +:+ String (digit_char p) (") WITH TIME ZONE" +:+
    String Ascii.zero (String Ascii.zero (String Ascii.zero ""))).
Proof. reflexivity. Qed.
