(* ===== verification/StaticSchema.v ===== *)
(** * Tables whose schema is a type

    [StaticFieldSchema] with its constraints ([db_constraints.hpp],
    [db_static_field_schema.hpp]), [StaticTable] and [TypedColumn]
    ([db_static_table.hpp], [db_typed_column.hpp]), the remaining members of
    [Column] and [AllColumns], and the schema reading of a static table by the
    SQL generator compared with a [DynamicTable] built with the same
    constraints.  A [FixedString] is its text: two of different lengths are
    never equal. *)

From stdpp Require Import gmap.
From S2P Require Import Prelude Gears Bytes QueryAst Dialect PostgresParams ResultViews SqlGenerator SqlTemplate Schema.

Local Open Scope demi_scope.

(** ** FixedString *)

(** A [char[N]] with the terminator; the view has [N - 1] characters. *)
Record FixedString := mkFixed { fs_size : nat; fs_data : list ascii }.
Definition fixed_string (s : string) : FixedString :=
  mkFixed (S (String.length s)) (list_ascii_of_string s ++ [InlineString.NUL]).
Definition fs_view (f : FixedString) : string := string_of_list_ascii (take (fs_size f - 1) (fs_data f)).
Definition fs_eqb (a b : FixedString) : bool :=
  if (fs_size a =? fs_size b)%nat then String.eqb (fs_view a) (fs_view b) else false.

Lemma fixed_string_view s : fs_view (fixed_string s) = s.
Proof.
  unfold fs_view, fixed_string. cbn [fs_size fs_data]. rewrite Nat.sub_succ, Nat.sub_0_r.
  rewrite take_app_length' by (by rewrite length_list_ascii). apply string_of_list_ascii_of_string.
Qed.

Lemma fixed_string_eqb s t : fs_eqb (fixed_string s) (fixed_string t) = bool_decide (s = t).
Proof.
  unfold fs_eqb. rewrite !fixed_string_view. cbn [fs_size fixed_string].
  destruct (Nat.eqb_spec (S (String.length s)) (S (String.length t))) as [_|Hl].
  - destruct (String.eqb_spec s t); by case_bool_decide.
  - symmetry. apply bool_decide_eq_false. intros ->. done.
Qed.

(** ** Constraints *)

Inductive constraint : Type :=
  | PrimaryKey | NotNull | Unique | Indexed
  | ForeignKey (table column : string)
  | Default (value : string)
  | MaxLength (n : N)
  | DbType (sql_type : string).

#[export] Instance constraint_eq_dec : EqDecision constraint.
Proof. solve_decision. Defined.

(** [std::is_same_v<Constraints, C> || ...] *)
Definition any_same (c : constraint) (cs : list constraint) : bool := existsb (λ d, bool_decide (d = c)) cs.

Definition is_foreign_key (c : constraint) : bool := match c with ForeignKey _ _ => true | _ => false end.
Definition is_default (c : constraint) : bool := match c with Default _ => true | _ => false end.
Definition is_max_length (c : constraint) : bool := match c with MaxLength _ => true | _ => false end.
Definition is_db_type (c : constraint) : bool := match c with DbType _ => true | _ => false end.

(** The first constraint of the kind; [found] is [is_Some]. *)
Fixpoint extract_foreign_key (cs : list constraint) : option (string * string) :=
  match cs with
  | [] => None
  | ForeignKey t c :: _ => Some (t, c)
  | _ :: rest => extract_foreign_key rest
  end.
Fixpoint extract_default (cs : list constraint) : option string :=
  match cs with [] => None | Default v :: _ => Some v | _ :: rest => extract_default rest end.
Fixpoint extract_max_length (cs : list constraint) : option N :=
  match cs with [] => None | MaxLength n :: _ => Some n | _ :: rest => extract_max_length rest end.
Fixpoint extract_db_type (cs : list constraint) : option string :=
  match cs with [] => None | DbType s :: _ => Some s | _ :: rest => extract_db_type rest end.

(** ** StaticFieldSchema *)

Record StaticFieldSchema := mkSchema { value_type : field_type; name : string; constraints : list constraint }.

Definition is_primary_key (s : StaticFieldSchema) : bool := any_same PrimaryKey (constraints s).
Definition is_nullable (s : StaticFieldSchema) : bool := negb (any_same NotNull (constraints s)).
Definition is_unique (s : StaticFieldSchema) : bool := any_same Unique (constraints s).
Definition is_indexed (s : StaticFieldSchema) : bool := any_same Indexed (constraints s).
Definition field_is_foreign_key (s : StaticFieldSchema) : bool := existsb is_foreign_key (constraints s).
Definition has_default (s : StaticFieldSchema) : bool := bool_decide (is_Some (extract_default (constraints s))).
Definition has_max_length (s : StaticFieldSchema) : bool := bool_decide (is_Some (extract_max_length (constraints s))).
Definition has_db_type (s : StaticFieldSchema) : bool := bool_decide (is_Some (extract_db_type (constraints s))).

(** The accessors are constrained by [found]: without it the call is rejected. *)
Definition foreign_table (s : StaticFieldSchema) : option string := fst <$> extract_foreign_key (constraints s).
Definition foreign_column (s : StaticFieldSchema) : option string := snd <$> extract_foreign_key (constraints s).
Definition default_value (s : StaticFieldSchema) : option string := extract_default (constraints s).
Definition max_length (s : StaticFieldSchema) : option N := extract_max_length (constraints s).
Definition db_type (s : StaticFieldSchema) : option string := extract_db_type (constraints s).

(** The flag and the accessor agree: a foreign key has a table and a column. *)
Lemma foreign_key_found s :
  field_is_foreign_key s = true ↔ ∃ t c, foreign_table s = Some t ∧ foreign_column s = Some c ∧
                                         ForeignKey t c ∈ constraints s.
Proof.
  unfold field_is_foreign_key, foreign_table, foreign_column. destruct s as [T n cs]. cbn [constraints].
  induction cs as [|d cs IH]; cbn.
  - split; [done|]. intros (? & ? & ? & _). done.
  - destruct d as [| | | |t c| | |]; cbn; try (rewrite IH; split; intros (t' & c' & ? & ? & Hin); exists t', c';
      (split_and!; [done|done|]); [by right|by apply elem_of_cons in Hin as [|Hin]]).
    split; [|done]. intros _. exists t, c. split_and!; [done|done|left].
Qed.

(** ** TypedColumn, Column, AllColumns *)

Record TypedColumn := mkTyped { tc_type : field_type; tc_name : string; tc_table : string; tc_alias : string }.
Definition typed_column (T : field_type) (name table : string) : TypedColumn := mkTyped T name table "".
Definition typed_as (c : TypedColumn) (alias : string) : TypedColumn := mkTyped (tc_type c) (tc_name c) (tc_table c) alias.
(** [as_column] builds a [Column] from the name and the table. *)
Definition typed_as_column (c : TypedColumn) : Column := col_of (tc_name c) (tc_table c).

Definition set_table (c : Column) (table : string) : Column := mkColumn (col_name c) table (col_alias c).
Definition set_name (c : Column) (name : string) : Column := mkColumn name (col_table c) (col_alias c).
Definition all_of (table : string) : ColumnLike := CAll table.
Definition all : ColumnLike := CAll "".
(** [AllColumns::as_column] *)
Definition all_as_column (table : string) : Column := col_of "*" table.

(** The alias of a typed column does not survive the conversion. *)
Lemma as_column_drops_alias c a : typed_as_column (typed_as c a) = typed_as_column c ∧ col_alias (typed_as_column c) = "".
Proof. done. Qed.

(** ** StaticTable *)

Record StaticTable := mkStatic { st_name : string; field_schemas : list StaticFieldSchema; st_provider : Providers }.
Definition static_table (table_name : string) (fs : list StaticFieldSchema) : StaticTable := mkStatic table_name fs NoProvider.

Definition field_count (t : StaticTable) : nat := length (field_schemas t).

Fixpoint find_index_from (i : nat) (n : string) (names : list string) : nat :=
  match names with
  | [] => i
  | m :: names' => if String.eqb m n then i else find_index_from (S i) n names'
  end.
(** The position of the first field of the name, or the number of fields. *)
Definition find_index (t : StaticTable) (n : string) : nat := find_index_from 0 n (name <$> field_schemas t).

(** [column<Name>()]; [None] is the failed static assertion. *)
Definition column_named (t : StaticTable) (n : string) : option TypedColumn :=
  let I := find_index t n in
  if (I <? field_count t)%nat
  then match field_schemas t !! I with Some s => Some (typed_column (value_type s) n (st_name t)) | None => None end
  else None.
(** [column<I>()] *)
Definition column_at (t : StaticTable) (I : nat) : option TypedColumn :=
  match field_schemas t !! I with Some s => Some (typed_column (value_type s) (name s) (st_name t)) | None => None end.

(** [for_each_field]: the visitor is called on every field in order. *)
Definition for_each_field {S} (v : StaticFieldSchema → S → S) (t : StaticTable) (s : S) : S :=
  foldl (λ s f, v f s) s (field_schemas t).

Lemma find_index_from_spec i n names :
  match list_find (λ m, m = n) names with
  | Some (j, _) => find_index_from i n names = i + j
  | None => find_index_from i n names = i + length names
  end.
Proof.
  revert i. induction names as [|m names IH]; intros i; cbn [find_index_from list_find length]; [cbn; lia|].
  destruct (String.eqb_spec m n) as [->|Hne].
  - rewrite decide_True by done. lia.
  - rewrite decide_False by done. specialize (IH (S i)).
    destruct (list_find (λ m, m = n) names) as [[j x]|]; cbn; rewrite IH; lia.
Qed.

(** A column looked up by name is the one looked up by the position of the first
    field of that name; an unknown name does not compile. *)
Theorem column_named_at t n :
  column_named t n = column_at t (find_index t n) ∧
  (is_Some (column_named t n) ↔ n ∈ name <$> field_schemas t).
Proof.
  unfold column_named, column_at, find_index, field_count.
  pose proof (find_index_from_spec 0 n (name <$> field_schemas t)) as H.
  destruct (list_find _ _) as [[j x]|] eqn:E; rewrite H; cbn [Nat.add]; clear H.
  - apply list_find_Some in E as (Hj & -> & _). apply list_lookup_fmap_Some in Hj as (s & -> & Hj).
    pose proof (lookup_lt_Some _ _ _ Hj). destruct (Nat.ltb_spec j (length (field_schemas t))); [|lia]. rewrite Hj.
    split; [done|]. split; [|eauto]. intros _. apply list_elem_of_fmap_2. by eapply list_elem_of_lookup_2.
  - apply list_find_None in E. rewrite length_fmap, Nat.ltb_irrefl.
    rewrite (lookup_ge_None_2 (field_schemas t)) by lia. split; [done|]. split; [by intros [? ?]|].
    intros Hin. rewrite Forall_forall in E. by apply E in Hin.
Qed.

(** ** CREATE TABLE *)

(** The field as the visitor reads it: its name, the SQL type of its C++ type and
    three flags. *)
Definition visited_field (s : StaticFieldSchema) : option StaticField :=
  match sql_type_for (value_type s) with
  | Some ty => Some (mkStaticField (name s) ty (is_nullable s) (is_primary_key s) (is_unique s))
  | None => None
  end.
(** The table of an expression over a static table. *)
Definition static_expr_table (t : StaticTable) : option Table :=
  match mapM visited_field (field_schemas t) with
  | Some fs => Some (TStatic (st_name t) fs)
  | None => None
  end.

(** The same field in a [DynamicTable]: [add_field], then one builder call per
    constraint; [MaxLength], [Default] and [DbType] have none. *)
Definition apply_constraint (n : string) (t : DynamicTable) (c : constraint) : DynamicTable :=
  match c with
  | PrimaryKey => primary_key n t
  | NotNull => nullable n false t
  | Unique => unique n t
  | Indexed => indexed n t
  | ForeignKey rt rc => foreign_key n rt rc t
  | Default _ | MaxLength _ | DbType _ => t
  end.
Definition add_schema (t : DynamicTable) (s : StaticFieldSchema) : option DynamicTable :=
  match sql_type_for (value_type s) with
  | Some ty => Some (foldl (apply_constraint (name s)) (add_field (name s) ty t) (constraints s))
  | None => None
  end.
Fixpoint add_schemas (t : DynamicTable) (ss : list StaticFieldSchema) : option DynamicTable :=
  match ss with
  | [] => Some t
  | s :: ss' => match add_schema t s with Some t' => add_schemas t' ss' | None => None end
  end.

(** *** Agreement *)

(** The last field of [t] is [f], and the index knows it under its name. *)
Definition last_field (t : DynamicTable) (old : list DynamicFieldSchema) (n : string) (f : DynamicFieldSchema) : Prop :=
  fields t = old ++ [f] ∧ field_index t !! n = Some (length old).

Lemma update_last n g t old f : last_field t old n f → last_field (update_field n g t) old n (g f).
Proof.
  intros [Hf Hi]. unfold update_field, get_field_schema. rewrite Hi. split; [|done]. cbn [fields].
  by rewrite Hf, alter_app_r_alt, Nat.sub_diag by lia.
Qed.

Lemma add_field_last n ty t : last_field (add_field n ty t) (fields t) n (default_field n ty).
Proof.
  unfold last_field, add_field. cbn [fields field_index]. split; [done|].
  rewrite lookup_insert_eq, length_app. cbn. f_equal. lia.
Qed.

(** What the flags of the dynamic field are after the constraints [cs]. *)
Definition flags_after (f : DynamicFieldSchema) (cs : list constraint) (f' : DynamicFieldSchema) : Prop :=
  f_name f' = f_name f ∧ f_db_type f' = f_db_type f ∧
  f_is_primary_key f' = f_is_primary_key f || any_same PrimaryKey cs ∧
  f_is_unique f' = f_is_unique f || any_same Unique cs ∧
  negb (f_is_nullable f') = negb (f_is_nullable f) || any_same NotNull cs || any_same PrimaryKey cs ∧
  f_default_value f' = f_default_value f ∧
  (existsb is_foreign_key cs = false → f_is_foreign_key f' = f_is_foreign_key f).

Lemma constraints_last n t old f cs :
  last_field t old n f → ∃ f', last_field (foldl (apply_constraint n) t cs) old n f' ∧ flags_after f cs f'.
Proof.
  revert t f. induction cs as [|c cs IH]; intros t f Hl; cbn [foldl].
  { exists f. split; [done|]. unfold flags_after. cbn. by rewrite !orb_false_r. }
  assert (∃ f1, last_field (apply_constraint n t c) old n f1 ∧ flags_after f [c] f1) as (f1 & Hl1 & Hf1).
  { destruct c; cbn [apply_constraint]; eexists;
      (split; [first [exact Hl|apply update_last; exact Hl]|]); unfold flags_after, any_same; cbn;
      by rewrite ?orb_false_r, ?orb_true_r. }
  destruct (IH _ _ Hl1) as (f' & Hl' & Hf'). exists f'. split; [done|].
  destruct Hf1 as (A1 & A2 & A3 & A4 & A5 & A6 & A7), Hf' as (B1 & B2 & B3 & B4 & B5 & B6 & B7).
  unfold flags_after, any_same in *. cbn in *. rewrite !orb_false_r in *.
  split_and!; [congruence|congruence|by rewrite B3, A3, orb_assoc|by rewrite B4, A4, orb_assoc| |congruence|].
  - rewrite B5, A5. repeat (case_bool_decide || case_match); simplify_eq; cbn; rewrite ?orb_true_r, ?orb_false_r; done.
  - intros [Hc Hcs]%orb_false_iff. rewrite B7, A7; done.
Qed.

Lemma add_schema_field t s sf :
  visited_field s = Some sf → field_is_foreign_key s = false →
  ∃ t' f, add_schema t s = Some t' ∧ fields t' = fields t ++ [f] ∧ Template.dynamic_field f = Template.static_field sf.
Proof.
  unfold visited_field, add_schema, field_is_foreign_key. destruct (sql_type_for (value_type s)) as [ty|]; [|done].
  intros [= <-] Hfk. destruct (constraints_last _ _ _ _ (constraints s) (add_field_last (name s) ty t))
    as (f & [Hf _] & F1 & F2 & F3 & F4 & F5 & F6 & F7).
  eexists _, f. split; [done|]. split; [done|]. cbn in *.
  unfold Template.dynamic_field, Template.static_field. cbn [sf_name sf_sql_type sf_is_primary_key sf_is_nullable sf_is_unique].
  rewrite F1, F2, F3, F4, F5, F6, F7 by done. unfold is_nullable, is_primary_key, is_unique. cbn.
  rewrite negb_involutive, app_nil_r. f_equal. f_equal. f_equal. f_equal.
  destruct (any_same PrimaryKey (constraints s)); cbn; [by rewrite !andb_false_r|by rewrite orb_false_r].
Qed.

Lemma add_schemas_name t ss t' : add_schemas t ss = Some t' → table_name t' = table_name t.
Proof.
  assert (∀ n cs u, table_name (foldl (apply_constraint n) u cs) = table_name u) as Hc.
  { intros n cs. induction cs as [|c cs IH]; intros u; [done|]. cbn [foldl]. rewrite IH.
    destruct c; cbn; unfold primary_key, nullable, unique, indexed, foreign_key, update_field;
      try case_match; done. }
  revert t. induction ss as [|s ss IH]; intros t; cbn [add_schemas]; [by intros [= <-]|].
  unfold add_schema. destruct (sql_type_for (value_type s)); [|done]. intros H%IH. by rewrite H, Hc.
Qed.

(** [CREATE TABLE] of a static table and of the dynamic table built with the same
    constraints is the same SQL, when no field has a foreign key. *)
Theorem static_dynamic_ddl t sts dt :
  static_expr_table t = Some sts → Forall (λ s, field_is_foreign_key s = false) (field_schemas t) →
  fields dt = [] → table_name dt = st_name t → st_name t ≠ "" →
  ∃ dt', add_schemas dt (field_schemas t) = Some dt' ∧
    ∀ b, template (ECreateTable sts b) = template (ECreateTable (TDynamic (Some dt')) b).
Proof.
  unfold static_expr_table. destruct (mapM visited_field (field_schemas t)) as [sfs|] eqn:E; [|done].
  intros [= <-] Hfk Hd Hn Hne.
  assert (∃ dt', add_schemas dt (field_schemas t) = Some dt' ∧
    map Template.dynamic_field (fields dt') = map Template.dynamic_field (fields dt) ++ map Template.static_field sfs)
    as (dt' & Hdt & Hm).
  { clear Hd Hn. revert dt sfs E Hfk. induction (field_schemas t) as [|s ss IH]; intros dt sfs E Hfk.
    - apply mapM_Some in E. inversion E. subst. exists dt. split; [done|]. by rewrite app_nil_r.
    - apply mapM_Some in E. inversion E as [|? sf ? sfs' Hs Hss]. subst. apply Forall_cons in Hfk as [Hk Hks].
      destruct (add_schema_field dt s sf Hs Hk) as (t1 & f & Ht1 & Hf & Hd).
      destruct (IH t1 sfs') as (dt' & Hdt & Hm); [by apply mapM_Some|done|].
      exists dt'. cbn [add_schemas]. rewrite Ht1. split; [done|].
      rewrite Hm, Hf, map_app, <- app_assoc. cbn [map app]. by rewrite Hd. }
  exists dt'. split; [done|]. intros b. cbn [template Template.create_columns Template.table].
  rewrite Hm, Hd, (add_schemas_name _ _ _ Hdt), Hn. unfold Template.opt_ident. by rewrite decide_False by done.
Qed.

(** What [Default], [MaxLength], [DbType], [ForeignKey] and [Indexed] say does not
    reach the SQL of a static table. *)
Definition read_by_visitor (c : constraint) : bool :=
  match c with PrimaryKey | NotNull | Unique => true | _ => false end.

Theorem static_ddl_ignores s :
  visited_field s = visited_field (mkSchema (value_type s) (name s) (filter read_by_visitor (constraints s))).
Proof.
  assert (∀ c cs, read_by_visitor c = true → any_same c (filter read_by_visitor cs) = any_same c cs) as H.
  { intros c cs Hc. induction cs as [|d cs IH]; [done|]. rewrite filter_cons. unfold any_same in *.
    case_decide as Hd; cbn [existsb]; rewrite IH; [done|].
    case_bool_decide; [|done]. subst d. rewrite Hc in Hd. by destruct Hd. }
  unfold visited_field, is_nullable, is_primary_key, is_unique.
  cbn [value_type name constraints]. by rewrite !H by done.
Qed.

(** ** Example *)

Definition orders : StaticTable :=
  static_table "orders"
    [mkSchema TInt64 "id" [PrimaryKey]; mkSchema TInt32 "user_id" [NotNull; ForeignKey "users" "id"];
     mkSchema TString "note" [Default "'none'"; MaxLength 40]].

Example orders_ddl :
  static_expr_table orders = Some (TStatic "orders"
    [mkStaticField "id" "BIGINT" true true false; mkStaticField "user_id" "INTEGER" false false false;
     mkStaticField "note" "TEXT" true false false]) ∧
  column_named orders "note" = Some (mkTyped TString "note" "orders" "") ∧ column_named orders "nota" = None.
Proof. done. Qed.
