(* ===== verification/QueryBuilders.v ===== *)
(** * The fluent query builders

    [query/expressions]: the factories ([select], [case_when], [with], ...), the
    operators on expressions and the fluent members of [QueryOperations].  What
    C++ rejects at compile time (a member whose feature tag the class does not
    list, an argument that fails a concept) is [None] here, so the concepts and
    the [Allow...] tags are part of the model: which chains of calls build a
    query is a theorem. *)

From stdpp Require Import list.
From S2P Require Import Prelude Gears Bytes QueryAst Dialect PostgresDialect PostgresParams SqlGenerator SqlTemplate QueryCompiler CompilerTheorems.

Import Generator.

(** ** Concepts *)

Definition is_literal (e : Expr) : bool := match e with ELiteral _ _ => true | _ => false end.
Definition is_param (e : Expr) : bool := match e with EParam => true | _ => false end.
Definition is_column_like (e : Expr) : bool :=
  match e with EColumn _ | EAllColumns _ => true | _ => false end.
Definition is_condition (e : Expr) : bool :=
  match e with
  | EBinary _ _ _ | EUnary _ _ | EExists _ | EInList _ _ | EBetween _ _ _ => true
  | _ => false
  end.
Definition is_aggregate (e : Expr) : bool :=
  match e with ECount _ _ _ | EAggregate _ _ _ => true | _ => false end.
Definition is_case_expr (e : Expr) : bool :=
  match e with ECase _ _ | ECaseElse _ _ _ => true | _ => false end.
Definition is_order_by (e : Expr) : bool := match e with EOrder _ _ => true | _ => false end.
Definition is_cte_expr (e : Expr) : bool := match e with ECte _ _ _ => true | _ => false end.
Definition is_db_operand (e : Expr) : bool :=
  is_column_like e || is_literal e || is_param e || is_condition e || is_aggregate e.
Definition is_selectable (e : Expr) : bool :=
  is_column_like e || is_aggregate e || is_case_expr e || is_literal e.

(** [IsQuery]: the class derives from [Expression]. *)
Definition is_query (e : Expr) : bool :=
  match e with
  | EColumn _ | EAllColumns _ | ELiteral _ _ | ENull | EParam | EOrder _ _ => false
  | _ => true
  end.

(** The classes with an [alias] member and a setter [as]. *)
Definition as_ (e : Expr) (alias : string) : option Expr :=
  match e with
  | EColumn c => Some (EColumn (col_as c alias))
  | ELiteral v _ => Some (ELiteral v alias)
  | ESubquery q _ => Some (ESubquery q alias)
  | ECount c d _ => Some (ECount c d alias)
  | EAggregate fn c _ => Some (EAggregate fn c alias)
  | EFromTable s t _ => Some (EFromTable s t alias)
  | EJoin q c t ty _ => Some (EJoin q c t ty alias)
  | ECase ws _ => Some (ECase ws alias)
  | ECaseElse ws e' _ => Some (ECaseElse ws e' alias)
  | _ => None
  end.

(** ** Operands *)

(** An argument of a factory: an expression, or a plain C++ value. *)
Inductive arg : Type :=
  | AExpr (e : Expr)
  | AValue (v : FieldValue).

Definition lit (v : FieldValue) : Expr := ELiteral v "".

Definition make_literal_if_needed (a : arg) : Expr :=
  match a with AExpr e => e | AValue v => lit v end.

Definition db_operand (a : arg) : bool :=
  match a with AExpr e => is_db_operand e | AValue _ => false end.

(** [operator!], [is_null], [is_not_null] *)
Definition unary (op : UnaryOp) (e : Expr) : option Expr :=
  if is_db_operand e then Some (EUnary op e) else None.

(** The comparison and logical operators. *)
Definition compare (op : BinaryOp) (l r : arg) : option Expr :=
  if db_operand l || db_operand r
  then Some (EBinary op (make_literal_if_needed l) (make_literal_if_needed r)) else None.

(** [like] and [not_like] are not constrained. *)
Definition like (l r : arg) : Expr :=
  EBinary OpLike (make_literal_if_needed l) (make_literal_if_needed r).
Definition not_like (l r : arg) : Expr :=
  EBinary OpNotLike (make_literal_if_needed l) (make_literal_if_needed r).

(** [in(column, subquery)] and [in(operand, values...)] *)
Definition in_subquery (c q : Expr) : option Expr :=
  match q with
  | ESubquery _ _ => if is_column_like c then Some (EBinary OpIn c q) else None
  | _ => None
  end.
Definition in_list (operand : Expr) (vs : list arg) : Expr :=
  EInList operand (map make_literal_if_needed vs).

Definition between (operand : Expr) (lower upper : arg) : option Expr :=
  if is_db_operand operand
  then Some (EBetween operand (make_literal_if_needed lower) (make_literal_if_needed upper))
  else None.

Definition exists_ (q : Expr) : option Expr := if is_query q then Some (EExists q) else None.
Definition subquery (q : Expr) : option Expr := if is_query q then Some (ESubquery q "") else None.

Definition count (c : ColumnLike) : Expr := ECount c false "".
Definition count_distinct (c : ColumnLike) : Expr := ECount c true "".
Definition count_all : Expr := ECount (CAll "") false "".
Definition count_all_distinct : Expr := ECount (CAll "") true "".
Definition sum (c : ColumnLike) : Expr := EAggregate AggSum c "".
Definition avg (c : ColumnLike) : Expr := EAggregate AggAvg c "".
Definition max (c : ColumnLike) : Expr := EAggregate AggMax c "".
Definition min (c : ColumnLike) : Expr := EAggregate AggMin c "".
Definition asc (c : ColumnLike) : Expr := EOrder c ASC.
Definition desc (c : ColumnLike) : Expr := EOrder c DESC.

(** ** CASE *)

Definition case_when (cond : Expr) (value : arg) : option Expr :=
  if is_condition cond then Some (ECase [(cond, make_literal_if_needed value)] "") else None.

(** [WhenClause]: its condition and its value. *)
Definition WhenClause : Type := Expr * Expr.
Definition when_clause (cond value : Expr) : WhenClause := (cond, value).

(** [CaseExpr::add_when_clause] and [CaseExprWithElse::add_when_clause] build a
    new expression from the clauses alone: the alias of the receiver is not
    passed on. *)
Definition add_when_clause (when_clauses_ : list WhenClause) (new_clause : WhenClause) : Expr :=
  ECase (when_clauses_ ++ [new_clause]) "".
Definition add_when_clause_else (when_clauses_ : list WhenClause) (else_clause_ : Expr) (new_clause : WhenClause) : Expr :=
  ECaseElse (when_clauses_ ++ [new_clause]) else_clause_ "".

Definition when (e cond : Expr) (value : arg) : option Expr :=
  let clause := when_clause cond (make_literal_if_needed value) in
  if is_condition cond then
    match e with
    | ECase ws _ => Some (add_when_clause ws clause)
    | ECaseElse ws e' _ => Some (add_when_clause_else ws e' clause)
    | _ => None
    end
  else None.

Definition else_ (e : Expr) (value : arg) : option Expr :=
  match e with
  | ECase ws _ => Some (ECaseElse ws (make_literal_if_needed value) "")
  | _ => None
  end.

(** ** SELECT, CTE, set operations, UPDATE, DELETE, DDL *)

Definition select (cols : list arg) : option Expr :=
  let cs := map make_literal_if_needed cols in
  if forallb is_selectable cs then Some (ESelect false cs) else None.

Definition set_distinct (e : Expr) (d : bool) : option Expr :=
  match e with ESelect _ cs => Some (ESelect d cs) | _ => None end.

Definition select_distinct (cols : list arg) : option Expr :=
  match select cols with Some e => set_distinct e true | None => None end.

Definition from (e : Expr) (t : Table) : option Expr :=
  match e with ESelect _ _ => Some (EFromTable e t "") | _ => None end.

(** [from(cte)]: the node keeps the name, the query and the flag of the CTE. *)
Definition from_cte (e cte : Expr) : option Expr :=
  match e, cte with
  | ESelect _ _, ECte name q recursive => Some (EFromCte e name q recursive)
  | _, _ => None
  end.

Definition select_from_schema (t : DynamicTable) : Expr :=
  EFromTable (ESelect false [EAllColumns (table_name t)]) (TDynamic (Some t)) "".

Definition with_ (name : string) (q : Expr) : option Expr :=
  if is_query q then Some (ECte name q false) else None.
Definition with_recursive (name : string) (q : Expr) : option Expr :=
  if is_query q then Some (ECte name q true) else None.

Definition set_op (op : SetOperation) (l r : Expr) : option Expr :=
  if is_query l && is_query r then Some (ESetOp l r op) else None.
Definition union_query : Expr → Expr → option Expr := set_op UNION.
Definition union_all : Expr → Expr → option Expr := set_op UNION_ALL.
Definition intersect : Expr → Expr → option Expr := set_op INTERSECT.
Definition except : Expr → Expr → option Expr := set_op EXCEPT.

Definition update (t : Table) : Expr := EUpdate t [].
Definition set_ (e : Expr) (column : string) (v : FieldValue) : option Expr :=
  match e with EUpdate t asg => Some (EUpdate t (asg ++ [(column, v)])) | _ => None end.
Definition set_all (e : Expr) (assigns : list (string * FieldValue)) : option Expr :=
  match e with EUpdate t asg => Some (EUpdate t (asg ++ assigns)) | _ => None end.
Definition update_where (e cond : Expr) : option Expr :=
  match e with
  | EUpdate _ _ => if is_condition cond then Some (EUpdateWhere e cond) else None
  | _ => None
  end.

Definition delete_from (t : Table) : Expr := EDelete t.
Definition delete_where (e cond : Expr) : option Expr :=
  match e with
  | EDelete _ => if is_condition cond then Some (EDeleteWhere e cond) else None
  | _ => None
  end.

(** [create_table] needs a schema: there is no overload for a name. *)
Definition create_table (t : Table) (if_not_exists : bool) : option Expr :=
  match t with TName _ => None | _ => Some (ECreateTable t if_not_exists) end.
Definition drop_table (t : Table) (if_exists cascade : bool) : Expr := EDropTable t if_exists cascade.

(** ** QueryOperations *)

Inductive feature : Type :=
  | AllowWhere | AllowGroupBy | AllowHaving | AllowJoin | AllowOrderBy | AllowLimit.

#[export] Instance feature_eq_dec : EqDecision feature.
Proof. solve_decision. Defined.

(** The feature tags that the class of a node passes to [QueryOperations]. *)
Definition features (e : Expr) : list feature :=
  match e with
  | EFromTable _ _ _ | EFromCte _ _ _ _ =>
      [AllowGroupBy; AllowOrderBy; AllowLimit; AllowJoin; AllowWhere]
  | EJoin _ _ _ _ _ => [AllowJoin; AllowOrderBy; AllowLimit; AllowWhere; AllowGroupBy]
  | EWhere _ _ => [AllowGroupBy; AllowOrderBy; AllowLimit]
  | EGroupByColumns _ _ | EGroupByQuery _ _ => [AllowHaving; AllowOrderBy; AllowLimit]
  | EHaving _ _ => [AllowOrderBy; AllowLimit]
  | EOrderBy _ _ => [AllowLimit]
  | ESetOp _ _ _ => [AllowOrderBy; AllowLimit]
  | _ => []
  end.

Definition has_feature (f : feature) (e : Expr) : bool := bool_decide (f ∈ features e).

(** One fluent call. *)
Inductive call : Type :=
  | Where (cond : Expr)
  | GroupBy (cols : list Expr)
  | GroupByQuery (query : Expr)
  | Having (cond : Expr)
  | Join (t : Table) (type : JoinType) (alias : string) (on : Expr)
  | OrderBy (orders : list Expr)
  | Limit (count : N).

(** What the concepts ask of the arguments. *)
Definition arguments_ok (c : call) : bool :=
  match c with
  | Where cond | Having cond | Join _ _ _ cond => is_condition cond
  | GroupBy cols => forallb is_column_like cols
  | GroupByQuery q => is_query q
  | OrderBy os => forallb is_order_by os
  | Limit _ => true
  end.

Definition required (c : call) : feature :=
  match c with
  | Where _ => AllowWhere
  | GroupBy _ | GroupByQuery _ => AllowGroupBy
  | Having _ => AllowHaving
  | Join _ _ _ _ => AllowJoin
  | OrderBy _ => AllowOrderBy
  | Limit _ => AllowLimit
  end.

Definition node (e : Expr) (c : call) : Expr :=
  match c with
  | Where cond => EWhere e cond
  | GroupBy cols => EGroupByColumns e cols
  | GroupByQuery q => EGroupByQuery e q
  | Having cond => EHaving e cond
  | Join t ty a on => EJoin e on t ty a
  | OrderBy os => EOrderBy e os
  | Limit n => ELimit e n 0
  end.

Definition apply_call (e : Expr) (c : call) : option Expr :=
  if has_feature (required c) e && arguments_ok c then Some (node e c) else None.

(** [JoinBuilder]: what [join] returns; it becomes a query with [on]. *)
Record JoinBuilder := mkJoinBuilder { parent_ : Expr; right_table_ : Table; type_ : JoinType; right_alias_ : string }.
Definition join (e : Expr) (t : Table) (type : JoinType) : option JoinBuilder :=
  if has_feature AllowJoin e then Some (mkJoinBuilder e t type "") else None.
Definition join_as (b : JoinBuilder) (name : string) : JoinBuilder :=
  mkJoinBuilder (parent_ b) (right_table_ b) (type_ b) name.
Definition join_on (b : JoinBuilder) (cond : Expr) : option Expr :=
  if is_condition cond then Some (EJoin (parent_ b) cond (right_table_ b) (type_ b) (right_alias_ b)) else None.

(** [join(t).as(a).on(cond)] is the one call; the last alias counts. *)
Lemma join_as_on e t ty a a' cond :
  (match join e t ty with Some b => join_on (join_as (join_as b a') a) cond | None => None end)
  = apply_call e (Join t ty a cond).
Proof.
  unfold join, apply_call, join_on. cbn [required arguments_ok]. destruct (has_feature AllowJoin e); [|done].
  cbn. by destruct (is_condition cond).
Qed.

(** [LimitExpr::offset] replaces the offset of a [LIMIT] node. *)
Definition offset (e : Expr) (n : N) : option Expr :=
  match e with ELimit q c _ => Some (ELimit q c n) | _ => None end.

Fixpoint chain (e : Expr) (cs : list call) : option Expr :=
  match cs with
  | [] => Some e
  | c :: cs' => match apply_call e c with Some e' => chain e' cs' | None => None end
  end.

(** ** Which chains are queries *)

(** The kind of a call, by the clause it adds. *)
Inductive kind : Type := KWhere | KGroupBy | KHaving | KJoin | KOrderBy | KLimit.

#[export] Instance kind_eq_dec : EqDecision kind.
Proof. solve_decision. Defined.

Definition kind_of (c : call) : kind :=
  match c with
  | Where _ => KWhere
  | GroupBy _ | GroupByQuery _ => KGroupBy
  | Having _ => KHaving
  | Join _ _ _ _ => KJoin
  | OrderBy _ => KOrderBy
  | Limit _ => KLimit
  end.

(** The order of the clauses of a SELECT after its FROM: any number of JOINs,
    then at most one WHERE, GROUP BY, HAVING, ORDER BY and LIMIT, in this order,
    with HAVING only after GROUP BY. *)
Definition select_grammar (ks : list kind) : Prop :=
  ∃ j tail, ks = replicate j KJoin ++ tail ∧
    sublist tail [KWhere; KGroupBy; KHaving; KOrderBy; KLimit] ∧
    (KHaving ∈ tail → KGroupBy ∈ tail).

(** The kinds that may follow a node of kind [k] ([None]: the FROM node). *)
Definition follows (k : option kind) : list kind :=
  match k with
  | None | Some KJoin => [KGroupBy; KOrderBy; KLimit; KJoin; KWhere]
  | Some KWhere => [KGroupBy; KOrderBy; KLimit]
  | Some KGroupBy => [KHaving; KOrderBy; KLimit]
  | Some KHaving => [KOrderBy; KLimit]
  | Some KOrderBy => [KLimit]
  | Some KLimit => []
  end.

Fixpoint walks (k : option kind) (ks : list kind) : bool :=
  match ks with
  | [] => true
  | k' :: ks' => bool_decide (k' ∈ follows k) && walks (Some k') ks'
  end.

(** [e] is a node of kind [k]. *)
Definition node_kind (e : Expr) (k : option kind) : Prop :=
  match k, e with
  | None, (EFromTable _ _ _ | EFromCte _ _ _ _) => True
  | Some KJoin, EJoin _ _ _ _ _ | Some KWhere, EWhere _ _
  | Some KGroupBy, (EGroupByColumns _ _ | EGroupByQuery _ _) | Some KHaving, EHaving _ _
  | Some KOrderBy, EOrderBy _ _ | Some KLimit, ELimit _ _ _ => True
  | _, _ => False
  end.

Lemma node_kind_node e c : node_kind (node e c) (Some (kind_of c)).
Proof. by destruct c. Qed.

Lemma has_feature_follows e k c :
  node_kind e k → has_feature (required c) e = bool_decide (kind_of c ∈ follows k).
Proof.
  intros Hk. destruct k as [[]|], e; try done; by destruct c.
Qed.

Lemma chain_walks e k cs :
  node_kind e k → forallb arguments_ok cs = true →
  is_Some (chain e cs) ↔ walks k (map kind_of cs) = true.
Proof.
  revert e k. induction cs as [|c cs IH]; intros e k Hk; simpl; [by split; [|eexists]|].
  intros [Hc Hcs]%andb_true_iff. unfold apply_call.
  rewrite (has_feature_follows e k c Hk), Hc, andb_true_r.
  destruct (bool_decide _); simpl; [|by split; [intros [? [=]]|]].
  apply IH; [apply node_kind_node|done].
Qed.

Lemma bool_elem (k : kind) (ks : list kind) : k ∈ ks ↔ bool_decide (k ∈ ks) = true.
Proof. symmetry. apply bool_decide_eq_true. Qed.

(** Without a leading JOIN there are finitely many chains. *)
Lemma grammar_tail ks :
  walks None ks = true → head ks ≠ Some KJoin →
  sublist ks [KWhere; KGroupBy; KHaving; KOrderBy; KLimit] ∧ (KHaving ∈ ks → KGroupBy ∈ ks).
Proof.
  intros Hw Hj. rewrite (bool_elem KHaving), (bool_elem KGroupBy).
  destruct ks as [|[] ks]; try (by simpl in Hj);
    repeat (destruct ks as [|[] ks]; try discriminate Hw);
    (split; [eauto 7 using sublist_nil, sublist_skip, sublist_cons|vm_compute; congruence]).
Qed.

Lemma walks_join ks : walks None (KJoin :: ks) = walks None ks.
Proof. by destruct ks. Qed.

Lemma walks_grammar ks : walks None ks = true ↔ select_grammar ks.
Proof.
  split.
  - induction ks as [|k ks IH]; intros Hw.
    { exists 0, []. split_and!; [done|apply sublist_nil_l|by intros ?%not_elem_of_nil]. }
    destruct (decide (k = KJoin)) as [->|Hk].
    + rewrite walks_join in Hw. destruct (IH Hw) as (j & tail & -> & Ht). by exists (S j), tail.
    + exists 0, (k :: ks). split; [done|]. apply grammar_tail; [done|simpl; congruence].
  - intros (j & tail & -> & Hsub & Hhav). rewrite (bool_elem KHaving), (bool_elem KGroupBy) in Hhav.
    induction j as [|j IH]; [|cbn [replicate app]; by rewrite walks_join]. cbn [replicate app].
    repeat match goal with H : sublist _ (_ :: _) |- _ => inversion H; clear H; subst end;
      repeat match goal with H : sublist _ [] |- _ => apply sublist_nil_r in H; subst end;
      first [reflexivity|specialize (Hhav eq_refl); discriminate Hhav].
Qed.

(** ** What a chain writes *)

(** The clause that a call appends to the SQL text. *)
Definition clause (c : call) : list tok :=
  match c with
  | Where cond => Txt " WHERE " :: template cond
  | GroupBy cols => Txt " GROUP BY " :: Template.commas true (map template cols)
  | GroupByQuery q => Txt " GROUP BY " :: template q
  | Having cond => Txt " HAVING " :: template cond
  | Join t ty a on =>
      Txt (join_text ty) :: Template.table t ++ Template.alias a ++ Txt " ON " :: template on
  | OrderBy os => Txt " ORDER BY " :: Template.commas true (map template os)
  | Limit n => [Lim (size_t n) (size_t 0)]
  end.

Lemma template_node e c : template (node e c) = template e ++ clause c.
Proof. by destruct c. Qed.

Lemma chain_template e cs e' :
  chain e cs = Some e' → template e' = template e ++ concat (map clause cs).
Proof.
  revert e. induction cs as [|c cs IH]; intros e; simpl.
  { intros [= <-]. by rewrite app_nil_r. }
  unfold apply_call. destruct (_ && _); [|done]. intros Hc.
  by rewrite (IH _ Hc), template_node, <- app_assoc.
Qed.

(** The feature tags admit exactly the SELECT grammar: with arguments of
    the right kind, a chain of fluent calls on [select(...).from(...)] compiles
    if and only if its clauses come in SQL order (JOINs, WHERE, GROUP BY, HAVING
    after GROUP BY, ORDER BY, LIMIT, each at most once but JOIN), and the query
    then writes the clauses in the order of the calls. *)
Theorem fluent_chain_grammar e cs :
  node_kind e None → forallb arguments_ok cs = true →
  (is_Some (chain e cs) ↔ select_grammar (map kind_of cs)) ∧
  ∀ e', chain e cs = Some e' → template e' = template e ++ concat (map clause cs).
Proof.
  intros He Hcs. split; [|apply chain_template].
  by rewrite (chain_walks e None cs He Hcs), walks_grammar.
Qed.

Definition base_query : Expr := EFromTable (ESelect false [EAllColumns ""]) (TName "t") "".
Definition some_calls : list call :=
  [Join (TName "u") INNER "" (EExists base_query); Where (EExists base_query); Limit 3].

Lemma fluent_chain_grammar_witness :
  (is_Some (chain base_query some_calls) ↔ select_grammar (map kind_of some_calls)) ∧
  ∀ e', chain base_query some_calls = Some e' →
        template e' = template base_query ++ concat (map clause some_calls).
Proof. apply (fluent_chain_grammar base_query some_calls); [exact I|reflexivity]. Defined.

(** ** Set operations *)

Lemma compile_dynamic_template {D : SqlDialect} {DT : SqlDialectText D} {SinkT : Type}
    `{ParamSinkBounded SinkT} (make_param_sink : SinkT) Mode e1 e2 :
  template e1 = template e2 →
  compile_dynamic make_param_sink Mode e1 = compile_dynamic make_param_sink Mode e2.
Proof.
  intros Ht. unfold compile_dynamic. destruct Mode.
  - pose proof (visit_string (SinkT := unit) Inline e1 tt) as H1.
    pose proof (visit_string (SinkT := unit) Inline e2 tt) as H2.
    rewrite <- Ht in H2. destruct (run _ _ _ _) as [x [n k]]. by rewrite H1, H2.
  - pose proof (visit_string Sink e1 make_param_sink) as H1.
    pose proof (visit_string Sink e2 make_param_sink) as H2.
    rewrite <- Ht in H2. destruct (run _ _ _ _) as [x [n k]]. by rewrite H1, H2.
  - pose proof (visit_string Sink e1 make_param_sink) as H1.
    pose proof (visit_string Sink e2 make_param_sink) as H2.
    rewrite <- Ht in H2. destruct (run _ _ _ _) as [x [n k]]. by rewrite H1, H2.
Qed.

(** The operands of a set operation are written without parentheses, so the
    grouping is lost: [a | (b - c)] and [(a | b) - c] compile to the same
    statement and the same parameters, in every mode and for every dialect,
    although [A ∪ (B ∖ C)] and [(A ∪ B) ∖ C] differ. *)
Theorem set_op_grouping_lost {D : SqlDialect} {DT : SqlDialectText D} {SinkT : Type}
    `{ParamSinkBounded SinkT} (make_param_sink : SinkT) Mode a b c op1 op2 :
  compile_dynamic make_param_sink Mode (ESetOp a (ESetOp b c op2) op1) =
  compile_dynamic make_param_sink Mode (ESetOp (ESetOp a b op1) c op2).
Proof. apply compile_dynamic_template. simpl. by rewrite <- app_assoc. Qed.

Lemma set_op_grouping_lost_witness :
  let q (t : string) := EFromTable (ESelect false [EAllColumns ""]) (TName t) "" in
  @compile_dynamic Example.dialect _ Example.sink empty_params Inline
    (ESetOp (q "a") (ESetOp (q "b") (q "c") EXCEPT) UNION) =
  @compile_dynamic Example.dialect _ Example.sink empty_params Inline
    (ESetOp (ESetOp (q "a") (q "b") UNION) (q "c") EXCEPT).
Proof.
  intros q. exact (@set_op_grouping_lost _ Example.dialect_text _ Example.sink
    (params_bounded false true) empty_params Inline (q "a") (q "b") (q "c") UNION EXCEPT).
Defined.

(** ** CASE *)

(** An alias set before the last [when] or [else_] is dropped. *)
Lemma case_alias_dropped ws alias cond v :
  is_condition cond = true →
  else_ (ECase ws alias) v = else_ (ECase ws "") v ∧
  when (ECase ws alias) cond v = when (ECase ws "") cond v.
Proof. intros Hc. unfold when. by rewrite Hc. Qed.
