(* ===== verification/ConnectionConfig.v ===== *)
(** * Connection configuration

    [providers/postgresql/config]: credentials, the full configuration with its
    builder, validation and presets, and the rendering of both as a libpq
    connection string.  The second half specifies how libpq documents that a
    connection string is read ([keyword = value], values quoted with single
    quotes, backslash escapes) and shows which of the configured settings are
    read back from what the code writes. *)

From S2P Require Import Prelude Gears Bytes PostgresDialect.
From stdpp Require Import list.

Local Open Scope Z_scope.
Local Open Scope demi_scope.

(** ** Enumerations *)

Inductive SslMode : Type := DISABLE | ALLOW | PREFER | REQUIRE | VERIFY_CA | VERIFY_FULL.
Inductive NodeRole : Type := PRIMARY | STANDBY_SYNC | STANDBY_ASYNC | ANALYTICS | ARCHIVE.

#[export] Instance SslMode_eq_dec : EqDecision SslMode.
Proof. solve_decision. Defined.
#[export] Instance NodeRole_eq_dec : EqDecision NodeRole.
Proof. solve_decision. Defined.

Definition ssl_mode_to_string (m : SslMode) : string :=
  match m with
  | DISABLE => "disable" | ALLOW => "allow" | PREFER => "prefer" | REQUIRE => "require"
  | VERIFY_CA => "verify-ca" | VERIFY_FULL => "verify-full"
  end.
Definition ssl_mode_from_int (v : Z) : SslMode :=
  match v with
  | 0 => DISABLE | 1 => ALLOW | 2 => PREFER | 3 => REQUIRE | 4 => VERIFY_CA | 5 => VERIFY_FULL
  | _ => PREFER
  end.
Definition node_role_to_string (r : NodeRole) : string :=
  match r with
  | PRIMARY => "primary" | STANDBY_SYNC => "standby_sync" | STANDBY_ASYNC => "standby_async"
  | ANALYTICS => "analytics" | ARCHIVE => "archive"
  end.
Definition node_role_from_int (v : Z) : NodeRole :=
  match v with
  | 0 => PRIMARY | 1 => STANDBY_SYNC | 2 => STANDBY_ASYNC | 3 => ANALYTICS | 4 => ARCHIVE
  | _ => PRIMARY
  end.

(** ** Credentials *)

Record ConnectionCredentials := mkCredentials {
  host_ : string;
  port_ : string;
  dbname_ : string;
  user_ : string;
  password_ : string;
}.

Definition default_credentials : ConnectionCredentials := mkCredentials "localhost" "5432" "" "" "".

Definition validate_credentials (c : ConnectionCredentials) : result unit :=
  if decide (dbname_ c = "") then Throw invalid_argument
  else if decide (user_ c = "") then Throw invalid_argument
  else if decide (port_ c = "") then Ok tt
  else match stoi (port_ c) with
       | Ok p => if (p <? 1) || (65535 <? p) then Throw invalid_argument else Ok tt
       | Throw _ => Throw invalid_argument
       end.

(** [detail::escape_connection_value] *)
Definition special (c : ascii) : bool := bool_decide (c = backslash) || bool_decide (c = squote).
Fixpoint escape_loop (value : string) : bool * string :=
  match value with
  | EmptyString => (false, EmptyString)
  | String c value' =>
      let '(needs_quoting, escaped) := escape_loop value' in
      if special c then (true, String backslash (String c escaped))
      else (needs_quoting || bool_decide (c = " "%char) || bool_decide (c = "="%char), String c escaped)
  end.
Definition escape_connection_value (value : string) : string :=
  if decide (value = "") then String squote (String squote "")
  else let '(needs_quoting, escaped) := escape_loop value in
       if needs_quoting : bool then String squote (escaped +:+ String squote "") else escaped.

(** [result.back() == ' '] and [result.pop_back()] *)
Fixpoint pop_back_space (s : string) : string :=
  match s with
  | EmptyString => EmptyString
  | String c EmptyString => if decide (c = " "%char) then EmptyString else s
  | String c s' => String c (pop_back_space s')
  end.

Definition credential (key value : string) : string :=
  if decide (value = "") then "" else key +:+ "=" +:+ escape_connection_value value +:+ " ".

Definition credentials_to_connection_string (c : ConnectionCredentials) : result string :=
  let! _ := validate_credentials c in
  Ok (pop_back_space
        (credential "host" (host_ c) +:+ credential "port" (port_ c) +:+ credential "dbname" (dbname_ c) +:+
         credential "user" (user_ c) +:+ credential "password" (password_ c))).

(** [ConnectionCredentials::Builder] *)
Module CredentialsBuilder.
Definition host (v : string) (k : ConnectionCredentials) : ConnectionCredentials :=
  mkCredentials v (port_ k) (dbname_ k) (user_ k) (password_ k).
Definition port (v : string) (k : ConnectionCredentials) : ConnectionCredentials :=
  mkCredentials (host_ k) v (dbname_ k) (user_ k) (password_ k).
Definition port_number (v : N) (k : ConnectionCredentials) : ConnectionCredentials := port (ToString.numeral v) k.
Definition dbname (v : string) (k : ConnectionCredentials) : ConnectionCredentials :=
  mkCredentials (host_ k) (port_ k) v (user_ k) (password_ k).
Definition user (v : string) (k : ConnectionCredentials) : ConnectionCredentials :=
  mkCredentials (host_ k) (port_ k) (dbname_ k) v (password_ k).
Definition password (v : string) (k : ConnectionCredentials) : ConnectionCredentials :=
  mkCredentials (host_ k) (port_ k) (dbname_ k) (user_ k) v.
Definition finalize_credentials (k : ConnectionCredentials) : result ConnectionCredentials :=
  let! _ := validate_credentials k in Ok k.
End CredentialsBuilder.

(** ** Configuration *)

(** [extra_options_] is a [std::map]: the entries in the order of their keys. *)
Record ConnectionConfig := mkConfig {
  credentials_ : ConnectionCredentials;
  role_ : NodeRole;
  priority_ : Z;
  cluster_name_ : string;
  connect_timeout_ : Z;
  statement_timeout_ : Z;
  idle_in_transaction_timeout_ : Z;
  lock_timeout_ : Z;
  ssl_mode_ : SslMode;
  ssl_cert_ : option string;
  ssl_key_ : option string;
  ssl_root_cert_ : option string;
  binary_protocol_ : bool;
  auto_prepare_ : bool;
  pipeline_mode_ : bool;
  application_name_ : string;
  search_path_ : string;
  work_mem_mb_ : Z;
  jit_ : bool;
  extra_options_ : list (string * string);
}.

Definition default_connection_config : ConnectionConfig :=
  mkConfig default_credentials PRIMARY 0 "" 30 0 0 0 PREFER None None None true false true "" "public" 4 true [].

Definition validate_config (c : ConnectionConfig) : result unit :=
  let! _ := validate_credentials (credentials_ c) in
  if (bool_decide (ssl_mode_ c = VERIFY_CA) || bool_decide (ssl_mode_ c = VERIFY_FULL)) &&
     bool_decide (ssl_root_cert_ c = None) then Throw invalid_argument
  else if negb (eqb (bool_decide (is_Some (ssl_cert_ c))) (bool_decide (is_Some (ssl_key_ c)))) then Throw invalid_argument
  else if connect_timeout_ c <? 0 then Throw invalid_argument
  else if priority_ c <? 0 then Throw invalid_argument
  else Ok tt.

Definition optional (key : string) (value : option string) : string :=
  match value with Some v => " " +:+ key +:+ "=" +:+ escape_connection_value v | None => "" end.

Fixpoint extra_text (l : list (string * string)) : string :=
  match l with
  | [] => ""
  | (key, value) :: l' => " " +:+ key +:+ "=" +:+ escape_connection_value value +:+ extra_text l'
  end.

Definition to_connection_string (c : ConnectionConfig) : result string :=
  let! _ := validate_config c in
  let! result := credentials_to_connection_string (credentials_ c) in
  Ok (result +:+ " sslmode=" +:+ ssl_mode_to_string (ssl_mode_ c) +:+
      optional "sslcert" (ssl_cert_ c) +:+ optional "sslkey" (ssl_key_ c) +:+
      optional "sslrootcert" (ssl_root_cert_ c) +:+
      (if 0 <? connect_timeout_ c then " connect_timeout=" +:+ ToString.numeral (Z.to_N (connect_timeout_ c)) else "") +:+
      (if decide (application_name_ c = "") then ""
       else " application_name=" +:+ escape_connection_value (application_name_ c)) +:+
      extra_text (extra_options_ c)).

(** ** The builder *)

Module ConfigBuilder.
Definition credentials (v : ConnectionCredentials) (c : ConnectionConfig) : ConnectionConfig :=
  mkConfig v (role_ c) (priority_ c) (cluster_name_ c) (connect_timeout_ c) (statement_timeout_ c)
    (idle_in_transaction_timeout_ c) (lock_timeout_ c) (ssl_mode_ c) (ssl_cert_ c) (ssl_key_ c)
    (ssl_root_cert_ c) (binary_protocol_ c) (auto_prepare_ c) (pipeline_mode_ c) (application_name_ c)
    (search_path_ c) (work_mem_mb_ c) (jit_ c) (extra_options_ c).
Definition host (v : string) (c : ConnectionConfig) : ConnectionConfig :=
  let k := credentials_ c in credentials (mkCredentials v (port_ k) (dbname_ k) (user_ k) (password_ k)) c.
Definition port (v : string) (c : ConnectionConfig) : ConnectionConfig :=
  let k := credentials_ c in credentials (mkCredentials (host_ k) v (dbname_ k) (user_ k) (password_ k)) c.
Definition dbname (v : string) (c : ConnectionConfig) : ConnectionConfig :=
  let k := credentials_ c in credentials (mkCredentials (host_ k) (port_ k) v (user_ k) (password_ k)) c.
Definition user (v : string) (c : ConnectionConfig) : ConnectionConfig :=
  let k := credentials_ c in credentials (mkCredentials (host_ k) (port_ k) (dbname_ k) v (password_ k)) c.
Definition password (v : string) (c : ConnectionConfig) : ConnectionConfig :=
  let k := credentials_ c in credentials (mkCredentials (host_ k) (port_ k) (dbname_ k) (user_ k) v) c.
(** The overload for [std::uint16_t] *)
Definition port_number (v : N) (c : ConnectionConfig) : ConnectionConfig := port (ToString.numeral v) c.
Definition role (v : NodeRole) (c : ConnectionConfig) : ConnectionConfig :=
  mkConfig (credentials_ c) v (priority_ c) (cluster_name_ c) (connect_timeout_ c) (statement_timeout_ c)
    (idle_in_transaction_timeout_ c) (lock_timeout_ c) (ssl_mode_ c) (ssl_cert_ c) (ssl_key_ c)
    (ssl_root_cert_ c) (binary_protocol_ c) (auto_prepare_ c) (pipeline_mode_ c) (application_name_ c)
    (search_path_ c) (work_mem_mb_ c) (jit_ c) (extra_options_ c).
Definition priority (v : Z) (c : ConnectionConfig) : ConnectionConfig :=
  mkConfig (credentials_ c) (role_ c) v (cluster_name_ c) (connect_timeout_ c) (statement_timeout_ c)
    (idle_in_transaction_timeout_ c) (lock_timeout_ c) (ssl_mode_ c) (ssl_cert_ c) (ssl_key_ c)
    (ssl_root_cert_ c) (binary_protocol_ c) (auto_prepare_ c) (pipeline_mode_ c) (application_name_ c)
    (search_path_ c) (work_mem_mb_ c) (jit_ c) (extra_options_ c).
Definition cluster_name (v : string) (c : ConnectionConfig) : ConnectionConfig :=
  mkConfig (credentials_ c) (role_ c) (priority_ c) v (connect_timeout_ c) (statement_timeout_ c)
    (idle_in_transaction_timeout_ c) (lock_timeout_ c) (ssl_mode_ c) (ssl_cert_ c) (ssl_key_ c)
    (ssl_root_cert_ c) (binary_protocol_ c) (auto_prepare_ c) (pipeline_mode_ c) (application_name_ c)
    (search_path_ c) (work_mem_mb_ c) (jit_ c) (extra_options_ c).
Definition connect_timeout (v : Z) (c : ConnectionConfig) : ConnectionConfig :=
  mkConfig (credentials_ c) (role_ c) (priority_ c) (cluster_name_ c) v (statement_timeout_ c)
    (idle_in_transaction_timeout_ c) (lock_timeout_ c) (ssl_mode_ c) (ssl_cert_ c) (ssl_key_ c)
    (ssl_root_cert_ c) (binary_protocol_ c) (auto_prepare_ c) (pipeline_mode_ c) (application_name_ c)
    (search_path_ c) (work_mem_mb_ c) (jit_ c) (extra_options_ c).
Definition statement_timeout (v : Z) (c : ConnectionConfig) : ConnectionConfig :=
  mkConfig (credentials_ c) (role_ c) (priority_ c) (cluster_name_ c) (connect_timeout_ c) v
    (idle_in_transaction_timeout_ c) (lock_timeout_ c) (ssl_mode_ c) (ssl_cert_ c) (ssl_key_ c)
    (ssl_root_cert_ c) (binary_protocol_ c) (auto_prepare_ c) (pipeline_mode_ c) (application_name_ c)
    (search_path_ c) (work_mem_mb_ c) (jit_ c) (extra_options_ c).
Definition idle_in_transaction_timeout (v : Z) (c : ConnectionConfig) : ConnectionConfig :=
  mkConfig (credentials_ c) (role_ c) (priority_ c) (cluster_name_ c) (connect_timeout_ c)
    (statement_timeout_ c) v (lock_timeout_ c) (ssl_mode_ c) (ssl_cert_ c) (ssl_key_ c) (ssl_root_cert_ c)
    (binary_protocol_ c) (auto_prepare_ c) (pipeline_mode_ c) (application_name_ c) (search_path_ c)
    (work_mem_mb_ c) (jit_ c) (extra_options_ c).
Definition lock_timeout (v : Z) (c : ConnectionConfig) : ConnectionConfig :=
  mkConfig (credentials_ c) (role_ c) (priority_ c) (cluster_name_ c) (connect_timeout_ c)
    (statement_timeout_ c) (idle_in_transaction_timeout_ c) v (ssl_mode_ c) (ssl_cert_ c) (ssl_key_ c)
    (ssl_root_cert_ c) (binary_protocol_ c) (auto_prepare_ c) (pipeline_mode_ c) (application_name_ c)
    (search_path_ c) (work_mem_mb_ c) (jit_ c) (extra_options_ c).
Definition ssl_mode (v : SslMode) (c : ConnectionConfig) : ConnectionConfig :=
  mkConfig (credentials_ c) (role_ c) (priority_ c) (cluster_name_ c) (connect_timeout_ c)
    (statement_timeout_ c) (idle_in_transaction_timeout_ c) (lock_timeout_ c) v (ssl_cert_ c) (ssl_key_ c)
    (ssl_root_cert_ c) (binary_protocol_ c) (auto_prepare_ c) (pipeline_mode_ c) (application_name_ c)
    (search_path_ c) (work_mem_mb_ c) (jit_ c) (extra_options_ c).
Definition ssl_cert (v : string) (c : ConnectionConfig) : ConnectionConfig :=
  mkConfig (credentials_ c) (role_ c) (priority_ c) (cluster_name_ c) (connect_timeout_ c)
    (statement_timeout_ c) (idle_in_transaction_timeout_ c) (lock_timeout_ c) (ssl_mode_ c) (Some v)
    (ssl_key_ c) (ssl_root_cert_ c) (binary_protocol_ c) (auto_prepare_ c) (pipeline_mode_ c)
    (application_name_ c) (search_path_ c) (work_mem_mb_ c) (jit_ c) (extra_options_ c).
Definition ssl_key (v : string) (c : ConnectionConfig) : ConnectionConfig :=
  mkConfig (credentials_ c) (role_ c) (priority_ c) (cluster_name_ c) (connect_timeout_ c)
    (statement_timeout_ c) (idle_in_transaction_timeout_ c) (lock_timeout_ c) (ssl_mode_ c) (ssl_cert_ c)
    (Some v) (ssl_root_cert_ c) (binary_protocol_ c) (auto_prepare_ c) (pipeline_mode_ c)
    (application_name_ c) (search_path_ c) (work_mem_mb_ c) (jit_ c) (extra_options_ c).
Definition ssl_root_cert (v : string) (c : ConnectionConfig) : ConnectionConfig :=
  mkConfig (credentials_ c) (role_ c) (priority_ c) (cluster_name_ c) (connect_timeout_ c)
    (statement_timeout_ c) (idle_in_transaction_timeout_ c) (lock_timeout_ c) (ssl_mode_ c) (ssl_cert_ c)
    (ssl_key_ c) (Some v) (binary_protocol_ c) (auto_prepare_ c) (pipeline_mode_ c) (application_name_ c)
    (search_path_ c) (work_mem_mb_ c) (jit_ c) (extra_options_ c).
Definition binary_protocol (v : bool) (c : ConnectionConfig) : ConnectionConfig :=
  mkConfig (credentials_ c) (role_ c) (priority_ c) (cluster_name_ c) (connect_timeout_ c)
    (statement_timeout_ c) (idle_in_transaction_timeout_ c) (lock_timeout_ c) (ssl_mode_ c) (ssl_cert_ c)
    (ssl_key_ c) (ssl_root_cert_ c) v (auto_prepare_ c) (pipeline_mode_ c) (application_name_ c)
    (search_path_ c) (work_mem_mb_ c) (jit_ c) (extra_options_ c).
Definition auto_prepare (v : bool) (c : ConnectionConfig) : ConnectionConfig :=
  mkConfig (credentials_ c) (role_ c) (priority_ c) (cluster_name_ c) (connect_timeout_ c)
    (statement_timeout_ c) (idle_in_transaction_timeout_ c) (lock_timeout_ c) (ssl_mode_ c) (ssl_cert_ c)
    (ssl_key_ c) (ssl_root_cert_ c) (binary_protocol_ c) v (pipeline_mode_ c) (application_name_ c)
    (search_path_ c) (work_mem_mb_ c) (jit_ c) (extra_options_ c).
Definition pipeline_mode (v : bool) (c : ConnectionConfig) : ConnectionConfig :=
  mkConfig (credentials_ c) (role_ c) (priority_ c) (cluster_name_ c) (connect_timeout_ c)
    (statement_timeout_ c) (idle_in_transaction_timeout_ c) (lock_timeout_ c) (ssl_mode_ c) (ssl_cert_ c)
    (ssl_key_ c) (ssl_root_cert_ c) (binary_protocol_ c) (auto_prepare_ c) v (application_name_ c)
    (search_path_ c) (work_mem_mb_ c) (jit_ c) (extra_options_ c).
Definition application_name (v : string) (c : ConnectionConfig) : ConnectionConfig :=
  mkConfig (credentials_ c) (role_ c) (priority_ c) (cluster_name_ c) (connect_timeout_ c)
    (statement_timeout_ c) (idle_in_transaction_timeout_ c) (lock_timeout_ c) (ssl_mode_ c) (ssl_cert_ c)
    (ssl_key_ c) (ssl_root_cert_ c) (binary_protocol_ c) (auto_prepare_ c) (pipeline_mode_ c) v
    (search_path_ c) (work_mem_mb_ c) (jit_ c) (extra_options_ c).
Definition search_path (v : string) (c : ConnectionConfig) : ConnectionConfig :=
  mkConfig (credentials_ c) (role_ c) (priority_ c) (cluster_name_ c) (connect_timeout_ c)
    (statement_timeout_ c) (idle_in_transaction_timeout_ c) (lock_timeout_ c) (ssl_mode_ c) (ssl_cert_ c)
    (ssl_key_ c) (ssl_root_cert_ c) (binary_protocol_ c) (auto_prepare_ c) (pipeline_mode_ c)
    (application_name_ c) v (work_mem_mb_ c) (jit_ c) (extra_options_ c).
Definition work_mem_mb (v : Z) (c : ConnectionConfig) : ConnectionConfig :=
  mkConfig (credentials_ c) (role_ c) (priority_ c) (cluster_name_ c) (connect_timeout_ c)
    (statement_timeout_ c) (idle_in_transaction_timeout_ c) (lock_timeout_ c) (ssl_mode_ c) (ssl_cert_ c)
    (ssl_key_ c) (ssl_root_cert_ c) (binary_protocol_ c) (auto_prepare_ c) (pipeline_mode_ c)
    (application_name_ c) (search_path_ c) v (jit_ c) (extra_options_ c).
Definition jit (v : bool) (c : ConnectionConfig) : ConnectionConfig :=
  mkConfig (credentials_ c) (role_ c) (priority_ c) (cluster_name_ c) (connect_timeout_ c)
    (statement_timeout_ c) (idle_in_transaction_timeout_ c) (lock_timeout_ c) (ssl_mode_ c) (ssl_cert_ c)
    (ssl_key_ c) (ssl_root_cert_ c) (binary_protocol_ c) (auto_prepare_ c) (pipeline_mode_ c)
    (application_name_ c) (search_path_ c) (work_mem_mb_ c) v (extra_options_ c).
Definition extra_options (v : list (string * string)) (c : ConnectionConfig) : ConnectionConfig :=
  mkConfig (credentials_ c) (role_ c) (priority_ c) (cluster_name_ c) (connect_timeout_ c)
    (statement_timeout_ c) (idle_in_transaction_timeout_ c) (lock_timeout_ c) (ssl_mode_ c) (ssl_cert_ c)
    (ssl_key_ c) (ssl_root_cert_ c) (binary_protocol_ c) (auto_prepare_ c) (pipeline_mode_ c)
    (application_name_ c) (search_path_ c) (work_mem_mb_ c) (jit_ c) v.
Definition extra_option (key value : string) (c : ConnectionConfig) : ConnectionConfig :=
  extra_options (map_assign key value (extra_options_ c)) c.

Definition finalize_config (c : ConnectionConfig) : result ConnectionConfig :=
  let! _ := validate_config c in Ok c.
End ConfigBuilder.

Import ConfigBuilder.

Definition local_dev : result ConnectionConfig :=
  finalize_config (connect_timeout 5 (ssl_mode DISABLE (port_number 5432 (host "localhost" default_connection_config)))).
Definition testing : result ConnectionConfig :=
  finalize_config (connect_timeout 10 (ssl_mode DISABLE (password "test_password" (user "test_user"
    (dbname "test_db" (port_number 5433 (host "localhost" default_connection_config))))))).
Definition production : result ConnectionConfig :=
  finalize_config (jit true (pipeline_mode true (statement_timeout 60 (connect_timeout 30
    (ssl_mode VERIFY_FULL default_connection_config))))).

(** ** Reading a connection string

    The format libpq documents: settings [keyword = value], separated by white
    space; white space around the equals sign is optional; a value that is
    empty or contains white space is in single quotes; a backslash takes the
    next character literally. *)

Fixpoint read_key (s : string) : option (string * string) :=
  match s with
  | EmptyString => None
  | String c s' =>
      if decide (c = "="%char) then Some ("", s')
      else if isspace c then
        match skip_space s' with
        | String d r => if decide (d = "="%char) then Some ("", r) else None
        | EmptyString => None
        end
      else match read_key s' with Some (k, r) => Some (String c k, r) | None => None end
  end.

Fixpoint read_unquoted (s : string) : string * string :=
  match s with
  | EmptyString => ("", "")
  | String c s' =>
      if isspace c then ("", s)
      else if decide (c = backslash) then
        match s' with
        | String d s'' => let '(v, r) := read_unquoted s'' in (String d v, r)
        | EmptyString => ("", "")
        end
      else let '(v, r) := read_unquoted s' in (String c v, r)
  end.

Fixpoint read_quoted (s : string) : option (string * string) :=
  match s with
  | EmptyString => None
  | String c s' =>
      if decide (c = squote) then Some ("", s')
      else if decide (c = backslash) then
        match s' with
        | String d s'' => match read_quoted s'' with Some (v, r) => Some (String d v, r) | None => None end
        | EmptyString => None
        end
      else match read_quoted s' with Some (v, r) => Some (String c v, r) | None => None end
  end.

Definition read_value (s : string) : option (string * string) :=
  match s with
  | String c s' => if decide (c = squote) then read_quoted s' else Some (read_unquoted s)
  | EmptyString => Some ("", "")
  end.

(** The settings, in order; [fuel] bounds their number. *)
Fixpoint read_settings (fuel : nat) (s : string) : option (list (string * string)) :=
  match skip_space s with
  | EmptyString => Some []
  | s1 =>
      match fuel with
      | O => None
      | S fuel' =>
          match read_key s1 with
          | None => None
          | Some (k, s2) =>
              match read_value (skip_space s2) with
              | None => None
              | Some (v, s3) =>
                  match read_settings fuel' s3 with Some l => Some ((k, v) :: l) | None => None end
              end
          end
      end
  end.

(** ** What was configured *)

Definition nonempty (key value : string) : list (string * string) := if decide (value = "") then [] else [(key, value)].
Definition given (key : string) (value : option string) : list (string * string) :=
  match value with Some v => [(key, v)] | None => [] end.

Definition credential_settings (c : ConnectionCredentials) : list (string * string) :=
  nonempty "host" (host_ c) ++ nonempty "port" (port_ c) ++ nonempty "dbname" (dbname_ c) ++
  nonempty "user" (user_ c) ++ nonempty "password" (password_ c).

(** The options that have a libpq keyword *)
Definition option_settings (c : ConnectionConfig) : list (string * string) :=
  [("sslmode", ssl_mode_to_string (ssl_mode_ c))] ++
  given "sslcert" (ssl_cert_ c) ++ given "sslkey" (ssl_key_ c) ++ given "sslrootcert" (ssl_root_cert_ c) ++
  (if 0 <? connect_timeout_ c then [("connect_timeout", ToString.numeral (Z.to_N (connect_timeout_ c)))] else []) ++
  nonempty "application_name" (application_name_ c) ++ extra_options_ c.

(** The settings of the session, which a server takes through the [options]
    keyword or [SET]: a timeout of zero, an empty path and zero memory ask for
    nothing. *)
Definition session_settings (c : ConnectionConfig) : list (string * string) :=
  let seconds key v := if 0 <? v then [(key, ToString.numeral (Z.to_N v) +:+ "s")] else [] in
  seconds "statement_timeout" (statement_timeout_ c) ++
  seconds "idle_in_transaction_session_timeout" (idle_in_transaction_timeout_ c) ++
  seconds "lock_timeout" (lock_timeout_ c) ++
  nonempty "search_path" (search_path_ c) ++
  (if 0 <? work_mem_mb_ c then [("work_mem", ToString.numeral (Z.to_N (work_mem_mb_ c)) +:+ "MB")] else []) ++
  [("jit", if jit_ c then "on" else "off")].

(** Everything a configuration asks of the connection *)
Definition configured (c : ConnectionConfig) : list (string * string) :=
  credential_settings (credentials_ c) ++ option_settings c ++ session_settings c.

(** Values without white space other than blanks, keys without any and without
    an equals sign. *)
Definition value_char (c : ascii) : bool := negb (isspace c) || bool_decide (c = " "%char).
Definition key_char (c : ascii) : bool := negb (isspace c) && bool_decide (c ≠ "="%char).
Definition readable (p : string * string) : Prop :=
  string_all key_char p.1 = true ∧ p.1 ≠ "" ∧ string_all value_char p.2 = true.

(** ** Values read back *)

(** What may follow a value. *)
Definition ends_value (rest : string) : Prop := rest = "" ∨ ∃ r, rest = String " " r.

Lemma read_quoted_escaped v rest :
  read_quoted ((escape_loop v).2 +:+ String squote rest) = Some (v, rest).
Proof.
  induction v as [|c v IH]; simpl; [done|].
  destruct (escape_loop v) as [q e]. simpl in IH. unfold special.
  destruct (decide (c = backslash)) as [->|Hb]; [|destruct (decide (c = squote)) as [->|Hq]].
  - simpl. by rewrite IH.
  - simpl. by rewrite IH.
  - rewrite !bool_decide_eq_false_2 by done. simpl. case_decide; [done|]. case_decide; [done|]. by rewrite IH.
Qed.

Lemma escape_loop_plain v :
  (escape_loop v).1 = false → (escape_loop v).2 = v ∧ string_all (λ c, negb (special c) && bool_decide (c ≠ " "%char)) v = true.
Proof.
  induction v as [|c v IH]; simpl; [done|]. destruct (escape_loop v) as [q e]. simpl in IH.
  destruct (special c); simpl; [done|]. intros Hq.
  apply orb_false_iff in Hq as [Hq _]. apply orb_false_iff in Hq as [Hq Hsp].
  destruct (IH Hq) as [-> ->]. split; [done|]. apply bool_decide_eq_false in Hsp.
  by rewrite bool_decide_eq_true_2.
Qed.

Lemma read_unquoted_plain v rest :
  string_all (λ c, negb (special c) && bool_decide (c ≠ " "%char)) v = true → string_all value_char v = true →
  ends_value rest → read_unquoted (v +:+ rest) = (v, rest).
Proof.
  intros Hs Hv Hr. induction v as [|c v IH]; simpl in *.
  - destruct Hr as [->|[r ->]]; reflexivity.
  - apply andb_true_iff in Hs as [Hc Hs]. apply andb_true_iff in Hv as [Hc' Hv]. rewrite IH by done.
    apply andb_true_iff in Hc as [Hsp Hbl]. apply bool_decide_eq_true in Hbl.
    unfold value_char in Hc'. rewrite bool_decide_eq_false_2 in Hc' by done. rewrite orb_false_r in Hc'.
    apply negb_true_iff in Hc'. rewrite Hc'. unfold special in Hsp. apply negb_true_iff, orb_false_iff in Hsp as [Hb _].
    apply bool_decide_eq_false in Hb. by case_decide.
Qed.

(** A value the code has written is read as it was, whatever follows it. *)
Lemma read_value_escaped v rest :
  string_all value_char v = true → ends_value rest →
  read_value (escape_connection_value v +:+ rest) = Some (v, rest).
Proof.
  intros Hv Hr. unfold escape_connection_value. case_decide as He.
  - subst v. reflexivity.
  - pose proof (read_quoted_escaped v rest) as Hq. pose proof (escape_loop_plain v) as Hp.
    destruct (escape_loop v) as [q e]. simpl in Hq, Hp. destruct q.
    + simpl. rewrite string_app_assoc. simpl. exact Hq.
    + destruct (Hp eq_refl) as [-> Hs]. pose proof (read_unquoted_plain v rest Hs Hv Hr) as Hu.
      destruct v as [|c v]; [done|]. unfold read_value. rewrite string_app_cons in *.
      case_decide as Hc; [|by rewrite Hu]. subst c. simpl in Hs. done.
Qed.

Lemma read_key_simple k rest :
  string_all key_char k = true → read_key (k +:+ String "=" rest) = Some (k, rest).
Proof.
  induction k as [|c k IH]; simpl; [done|]. intros [Hc Hk]%andb_true_iff. unfold key_char in Hc.
  apply andb_true_iff in Hc as [Hs Hne]. apply bool_decide_eq_true in Hne. apply negb_true_iff in Hs.
  case_decide; [done|]. by rewrite Hs, IH.
Qed.

(** ** The whole string reads back *)

Definition segment (p : string * string) : string := p.1 +:+ "=" +:+ escape_connection_value p.2.

Lemma extra_text_cons p l : extra_text (p :: l) = " " +:+ segment p +:+ extra_text l.
Proof. destruct p as [k v]. unfold segment. simpl. by rewrite !string_app_assoc. Qed.

Lemma extra_text_app l k : extra_text (l ++ k) = extra_text l +:+ extra_text k.
Proof.
  induction l as [|p l IH]; [done|]. rewrite <- app_comm_cons, !extra_text_cons, IH.
  by rewrite !string_app_assoc.
Qed.

Lemma extra_text_ends l : ends_value (extra_text l).
Proof. destruct l as [|[k v] l]; [by left|right]. simpl. eauto. Qed.

(** The first character of a value the code has written is not white space. *)
Lemma skip_space_escaped v rest :
  string_all value_char v = true → skip_space (escape_connection_value v +:+ rest) = escape_connection_value v +:+ rest.
Proof.
  intros Hv. unfold escape_connection_value. case_decide as He; [done|].
  pose proof (escape_loop_plain v) as Hp. destruct (escape_loop v) as [[|] e]; [done|].
  destruct (Hp eq_refl) as [Ee Hs]. simpl in Ee. subst e. destruct v as [|c v]; [done|]. simpl in *.
  apply andb_true_iff in Hs as [Hc _]. apply andb_true_iff in Hc as [_ Hbl]. apply bool_decide_eq_true in Hbl.
  apply andb_true_iff in Hv as [Hc _]. unfold value_char in Hc. rewrite bool_decide_eq_false_2 in Hc by done.
  rewrite orb_false_r in Hc. apply negb_true_iff in Hc. by rewrite Hc.
Qed.

Lemma skip_space_key k rest : string_all key_char k = true → k ≠ "" → skip_space (k +:+ rest) = k +:+ rest.
Proof.
  destruct k as [|c k]; [done|]. simpl. intros [Hc _]%andb_true_iff _. unfold key_char in Hc.
  apply andb_true_iff in Hc as [Hs _]. apply negb_true_iff in Hs. by rewrite Hs.
Qed.

Lemma read_settings_key fuel s k s2 :
  skip_space s = s → read_key s = Some (k, s2) →
  read_settings (S fuel) s =
    match read_value (skip_space s2) with
    | None => None
    | Some (v, s3) => match read_settings fuel s3 with Some l => Some ((k, v) :: l) | None => None end
    end.
Proof. intros Hs Hk. cbn [read_settings]. rewrite Hs. destruct s as [|c s]; [done|]. by rewrite Hk. Qed.

Lemma read_settings_segment fuel p l :
  readable p → read_settings (S fuel) (segment p +:+ extra_text l) = (p ::.) <$> read_settings fuel (extra_text l).
Proof.
  destruct p as [k v]. intros (Hk & Hne & Hv). unfold segment. cbn [fst snd] in *. rewrite !string_app_assoc.
  rewrite (read_settings_key _ _ k (escape_connection_value v +:+ extra_text l));
    [|by apply skip_space_key|by apply read_key_simple].
  rewrite skip_space_escaped by done.
  rewrite read_value_escaped by (done || apply extra_text_ends). by destruct (read_settings fuel (extra_text l)).
Qed.

Lemma read_settings_blank fuel s : read_settings fuel (" " +:+ s) = read_settings fuel s.
Proof. by destruct fuel. Qed.

Lemma read_settings_text fuel l :
  Forall readable l → (length l ≤ fuel)%nat → read_settings fuel (extra_text l) = Some l.
Proof.
  revert fuel. induction l as [|p l IH]; intros fuel Hl Hn; [by destruct fuel|].
  apply Forall_cons_1 in Hl as [Hp Hl]. destruct fuel as [|fuel]; [simpl in Hn; lia|].
  rewrite extra_text_cons, read_settings_blank, read_settings_segment by done.
  rewrite IH; [done|done|simpl in Hn; lia].
Qed.

(** *** Credentials *)

Fixpoint spaced (l : list (string * string)) : string :=
  match l with [] => "" | p :: l' => segment p +:+ " " +:+ spaced l' end.

Lemma spaced_app l k : spaced (l ++ k) = spaced l +:+ spaced k.
Proof. induction l as [|p l IH]; simpl; [done|]. by rewrite IH, !string_app_assoc. Qed.

Lemma credential_spaced k v : credential k v = spaced (nonempty k v).
Proof.
  unfold credential, nonempty. case_decide; [done|]. cbn [spaced]. unfold segment. cbn [fst snd].
  by rewrite !string_app_assoc.
Qed.

Lemma pop_back_space_app s : pop_back_space (s +:+ " ") = s.
Proof. induction s as [|c s IH]; [done|]. simpl. destruct (s +:+ " ") eqn:E; [by destruct s|]. by rewrite IH. Qed.

Lemma spaced_text p l : spaced (p :: l) = (segment p +:+ extra_text l) +:+ " ".
Proof.
  revert p. induction l as [|q l IH]; intros p.
  - simpl. by rewrite !string_app_nil_r.
  - change (spaced (p :: q :: l)) with (segment p +:+ " " +:+ spaced (q :: l)).
    rewrite IH, extra_text_cons. by rewrite !string_app_assoc.
Qed.

Lemma credentials_text c text :
  credentials_to_connection_string c = Ok text → " " +:+ text = extra_text (credential_settings c).
Proof.
  unfold credentials_to_connection_string. destruct (validate_credentials c) as [[]|] eqn:Hv; [|done].
  intros H. simpl in H. injection H as <-. rewrite !credential_spaced, <- !spaced_app.
  change (nonempty "host" (host_ c) ++ _) with (credential_settings c).
  destruct (credential_settings c) as [|p l] eqn:E.
  - exfalso. unfold validate_credentials in Hv. case_decide as Hd; [done|]. unfold credential_settings in E.
    apply app_nil in E as [_ E]. apply app_nil in E as [_ E]. apply app_nil in E as [E _].
    unfold nonempty in E. by case_decide.
  - by rewrite spaced_text, pop_back_space_app, extra_text_cons.
Qed.

(** *** Options *)

Lemma escape_plain v :
  v ≠ "" → string_all (λ c, negb (special c) && bool_decide (c ≠ " "%char) && bool_decide (c ≠ "="%char)) v = true →
  escape_connection_value v = v.
Proof.
  intros Hne Hv. unfold escape_connection_value. case_decide; [done|].
  assert (escape_loop v = (false, v)) as ->; [|done]. clear Hne.
  induction v as [|c v IH]; [done|]. simpl in *. apply andb_true_iff in Hv as [Hc Hv].
  apply andb_true_iff in Hc as [Hc He]. apply andb_true_iff in Hc as [Hs Hb].
  assert (escape_loop v = (false, v)) as ->.
  { destruct (decide (v = "")) as [->|]; [done|]. by apply IH. }
  apply negb_true_iff in Hs. apply bool_decide_eq_true in Hb, He. rewrite Hs, !bool_decide_eq_false_2 by done. done.
Qed.

Lemma escape_ssl_mode m : escape_connection_value (ssl_mode_to_string m) = ssl_mode_to_string m.
Proof. by destruct m. Qed.

Lemma string_all_list P s : string_all P s = forallb P (list_ascii_of_string s).
Proof. induction s as [|c s IH]; simpl; [done|]. by rewrite IH. Qed.

Lemma digit_plain c :
  ToString.is_digit c = true →
  negb (special c) && bool_decide (c ≠ " "%char) && bool_decide (c ≠ "="%char) = true ∧ value_char c = true.
Proof. destruct c as [[] [] [] [] [] [] [] []]; vm_compute; done. Qed.

Lemma numeral_plain n :
  string_all (λ c, negb (special c) && bool_decide (c ≠ " "%char) && bool_decide (c ≠ "="%char)) (ToString.numeral n) = true ∧
  string_all value_char (ToString.numeral n) = true.
Proof.
  rewrite !string_all_list. pose proof (ToString.numeral_digits n) as Hd.
  induction Hd as [|c l Hc _ IH]; [done|]. destruct IH as [IH1 IH2]. apply Is_true_true in Hc.
  destruct (digit_plain c Hc) as [H1 H2]. cbn [forallb]. by rewrite H1, H2, IH1, IH2.
Qed.

Lemma optional_text k v : optional k v = extra_text (given k v).
Proof. destruct v; simpl; by rewrite ?string_app_nil_r. Qed.

Lemma setting_text k v : " " +:+ k +:+ "=" +:+ escape_connection_value v = extra_text [(k, v)].
Proof. simpl. by rewrite string_app_nil_r. Qed.

Lemma timeout_text n :
  (if 0 <? n then " connect_timeout=" +:+ ToString.numeral (Z.to_N n) else "") =
  extra_text (if 0 <? n then [("connect_timeout", ToString.numeral (Z.to_N n))] else []).
Proof.
  destruct (0 <? n); [|done]. rewrite <- setting_text, escape_plain; [done| |apply numeral_plain].
  intros Hn. apply (ToString.numeral_nonempty (Z.to_N n)). by rewrite Hn.
Qed.

Lemma application_text v :
  (if decide (v = "") then "" else " application_name=" +:+ escape_connection_value v) =
  extra_text (nonempty "application_name" v).
Proof. unfold nonempty. case_decide; [done|]. by rewrite <- setting_text. Qed.

Lemma options_text c :
  " sslmode=" +:+ ssl_mode_to_string (ssl_mode_ c) +:+
  optional "sslcert" (ssl_cert_ c) +:+ optional "sslkey" (ssl_key_ c) +:+
  optional "sslrootcert" (ssl_root_cert_ c) +:+
  (if 0 <? connect_timeout_ c then " connect_timeout=" +:+ ToString.numeral (Z.to_N (connect_timeout_ c)) else "") +:+
  (if decide (application_name_ c = "") then ""
   else " application_name=" +:+ escape_connection_value (application_name_ c)) +:+
  extra_text (extra_options_ c) = extra_text (option_settings c).
Proof.
  unfold option_settings. rewrite !extra_text_app, !optional_text, timeout_text, application_text.
  rewrite <- setting_text, escape_ssl_mode. by rewrite !string_app_assoc.
Qed.

Lemma connection_text c text :
  to_connection_string c = Ok text →
  " " +:+ text = extra_text (credential_settings (credentials_ c) ++ option_settings c).
Proof.
  unfold to_connection_string. destruct (validate_config c) as [[]|]; [|done]. simpl.
  destruct (credentials_to_connection_string (credentials_ c)) as [s|] eqn:Hs; [|done]. simpl.
  intros [= <-]. rewrite extra_text_app, <- (credentials_text _ _ Hs), <- options_text.
  by rewrite string_app_assoc.
Qed.

(** ** Validation *)

Definition port_in_range (port : string) : bool :=
  match stoi port with Ok p => (1 <=? p) && (p <=? 65535) | Throw _ => false end.

Lemma validate_credentials_cases c :
  validate_credentials c =
    if bool_decide (dbname_ c ≠ "" ∧ user_ c ≠ "") && (bool_decide (port_ c = "") || port_in_range (port_ c))
    then Ok tt else Throw invalid_argument.
Proof.
  unfold validate_credentials, port_in_range. case_decide as Hd; [by rewrite bool_decide_eq_false_2 by tauto|].
  case_decide as Hu; [by rewrite bool_decide_eq_false_2 by tauto|]. rewrite bool_decide_eq_true_2 by done. simpl.
  case_decide as Hp; [by rewrite bool_decide_eq_true_2|]. rewrite bool_decide_eq_false_2 by done. simpl.
  destruct (stoi (port_ c)) as [p|]; [|done].
  destruct (Z.ltb_spec p 1), (Z.ltb_spec 65535 p), (Z.leb_spec 1 p), (Z.leb_spec p 65535); simpl; done || lia.
Qed.

(** What [validate] asks of a configuration. *)
Definition valid_config (c : ConnectionConfig) : Prop :=
  let k := credentials_ c in
  dbname_ k ≠ "" ∧ user_ k ≠ "" ∧ (port_ k = "" ∨ port_in_range (port_ k) = true) ∧
  (ssl_mode_ c ∈ [VERIFY_CA; VERIFY_FULL] → is_Some (ssl_root_cert_ c)) ∧
  (is_Some (ssl_cert_ c) ↔ is_Some (ssl_key_ c)) ∧ 0 ≤ connect_timeout_ c ∧ 0 ≤ priority_ c.

Lemma validate_config_cases c : validate_config c = Ok tt ∨ validate_config c = Throw invalid_argument.
Proof.
  unfold validate_config. rewrite validate_credentials_cases. case_match; simpl; [|by right].
  repeat (case_match; [by right|]). by left.
Qed.

Lemma validate_config_spec c : validate_config c = Ok tt ↔ valid_config c.
Proof.
  unfold validate_config, valid_config. rewrite validate_credentials_cases.
  destruct (bool_decide _) eqn:Hd; [apply bool_decide_eq_true in Hd as [? ?]|apply bool_decide_eq_false in Hd; simpl; split; [done|tauto]].
  destruct (bool_decide _ || _) eqn:Hp; [|apply orb_false_iff in Hp as [Hp%bool_decide_eq_false Hr]; simpl; rewrite Hr; split; [done|]].
  2: { intros (_ & _ & [?|?] & _); done. }
  apply orb_true_iff in Hp. rewrite bool_decide_eq_true in Hp. cbn [andb rbind].
  rewrite <- !Z.ltb_ge. split.
  - repeat (case_match; [done|]). intros _. split_and!; try done.
    + intros Hm. destruct (ssl_root_cert_ c); [eauto|]. exfalso.
      rewrite andb_true_r in *. set_unfold in Hm. destruct Hm as [Hm|[Hm|[]]]; rewrite Hm in *; done.
    + destruct (ssl_cert_ c), (ssl_key_ c); split; eauto; done.
  - intros (_ & _ & _ & Hr & Hk & -> & ->).
    assert ((bool_decide (ssl_mode_ c = VERIFY_CA) || bool_decide (ssl_mode_ c = VERIFY_FULL)) &&
            bool_decide (ssl_root_cert_ c = None) = false) as ->.
    { apply not_true_iff_false. rewrite andb_true_iff, orb_true_iff, !bool_decide_eq_true.
      intros [Hm Hn]. destruct Hr as [r Er]; [destruct Hm as [-> | ->]; by repeat constructor|congruence]. }
    by rewrite (bool_decide_ext _ _ Hk), eqb_reflx.
Qed.

Definition session_names : list string :=
  ["statement_timeout"; "idle_in_transaction_session_timeout"; "lock_timeout"; "search_path"; "work_mem"; "jit"].
Definition written_names : list string :=
  ["host"; "port"; "dbname"; "user"; "password"; "sslmode"; "sslcert"; "sslkey"; "sslrootcert"; "connect_timeout";
   "application_name"].

Lemma session_keys c : Forall (λ p, p.1 ∈ session_names) (session_settings c).
Proof.
  unfold session_settings, nonempty. repeat (apply Forall_app; split); repeat case_match; repeat constructor.
Qed.

Lemma written_keys c :
  Forall (λ p, p.1 ∈ written_names ∨ p ∈ extra_options_ c) (credential_settings (credentials_ c) ++ option_settings c).
Proof.
  unfold credential_settings, option_settings, nonempty, given. rewrite <- !app_assoc.
  repeat (apply Forall_app; split); [..|apply Forall_forall; by right];
    repeat case_match; repeat (constructor; [left; repeat constructor|]); constructor.
Qed.

Lemma names_apart : Forall (λ k, k ∉ written_names) session_names.
Proof. apply (bool_decide_unpack _). vm_compute. done. Qed.

Lemma session_unwritten c p :
  p ∈ session_settings c → (p ∉ extra_options_ c) → p ∉ credential_settings (credentials_ c) ++ option_settings c.
Proof.
  intros Hs He Hw. pose proof (proj1 (Forall_forall _ _) (session_keys c) p Hs) as Hk.
  destruct (proj1 (Forall_forall _ _) (written_keys c) p Hw) as [Hn|Hn]; [|done].
  by apply (proj1 (Forall_forall _ _) names_apart p.1 Hk).
Qed.

(** C37: A connection string is read back, by the rules libpq documents, as the
    credentials that are not empty, the SSL settings, the connection timeout,
    the application name and the extra options, in this order, whatever quotes,
    backslashes, blanks and equals signs their values contain; values must not
    contain white space other than blanks, and the names of extra options none
    at all.  Of what is configured the session settings are missing: none of
    them ([statement_timeout], [idle_in_transaction_timeout], [lock_timeout],
    [search_path], [work_mem_mb], [jit]) is read back, unless an extra option
    says the same, and the string does not depend on them. *)
Theorem connection_string_reads_back (c : ConnectionConfig) (text : string) (fuel : nat) :
  to_connection_string c = Ok text →
  let settings := credential_settings (credentials_ c) ++ option_settings c in
  Forall readable settings → (length settings ≤ fuel)%nat →
  read_settings fuel text = Some settings ∧
  configured c = settings ++ session_settings c ∧
  (∀ p, p ∈ session_settings c → (p ∉ extra_options_ c) → p ∉ settings) ∧
  (∀ st it lt path mem j,
     to_connection_string
       (statement_timeout st (idle_in_transaction_timeout it (lock_timeout lt (search_path path (work_mem_mb mem (jit j c)))))) =
     Ok text).
Proof.
  intros Ht settings Hr Hn. split_and!.
  - rewrite <- (read_settings_blank fuel text), (connection_text c text Ht). by apply read_settings_text.
  - unfold configured, settings. by rewrite app_assoc.
  - intros p. apply session_unwritten.
  - intros. exact Ht.
Qed.

Definition sample_config : ConnectionConfig :=
  extra_option "options" "-c geqo=off" (application_name "it's \ app" (password "p' =\"
    (dbname "db one" (user "joe" (host "db.example.com" default_connection_config))))).

Lemma connection_string_reads_back_witness :
  ∃ text, to_connection_string sample_config = Ok text ∧
  read_settings 9 text =
    Some [("host", "db.example.com"); ("port", "5432"); ("dbname", "db one"); ("user", "joe"); ("password", "p' =\");
          ("sslmode", "prefer"); ("connect_timeout", "30"); ("application_name", "it's \ app"); ("options", "-c geqo=off")].
Proof.
  eexists. split; [vm_compute; reflexivity|].
  refine (proj1 (connection_string_reads_back sample_config _ 9 _ _ _)); [vm_compute; reflexivity| |vm_compute; lia].
  repeat constructor; done.
Defined.

(** [validate] accepts exactly the configurations with a database and a
    user, an empty port or one that starts with a number from 1 to 65535, a
    root certificate for the verifying SSL modes, certificate and key together
    or not at all, and no negative timeout or priority; everything else is
    [std::invalid_argument], from [validate], from the builder's [finalize]
    and from [to_connection_string]. *)
Theorem connection_config_valid (c : ConnectionConfig) :
  (valid_config c → validate_config c = Ok tt ∧ finalize_config c = Ok c ∧
     ∃ text, to_connection_string c = Ok text) ∧
  (¬ valid_config c → validate_config c = Throw invalid_argument ∧
     finalize_config c = Throw invalid_argument ∧ to_connection_string c = Throw invalid_argument).
Proof.
  unfold finalize_config, to_connection_string. rewrite <- validate_config_spec. split.
  - intros Hv. rewrite Hv. split_and!; [done..|]. simpl.
    unfold validate_config in Hv. destruct (validate_credentials (credentials_ c)) as [[]|] eqn:Hc; [|done].
    unfold credentials_to_connection_string. rewrite Hc. simpl. eauto.
  - intros Hv. destruct (validate_config_cases c) as [?|Hi]; [done|]. by rewrite Hi.
Qed.

(** The presets [local_dev] and [production] set neither a database nor a
    user: they always throw.  [production] would also need a root
    certificate. *)
Theorem preset_configs :
  local_dev = Throw invalid_argument ∧ production = Throw invalid_argument ∧
  (∀ d u p, finalize_config (ssl_mode VERIFY_FULL (credentials (mkCredentials "" p d u "") default_connection_config)) =
            Throw invalid_argument) ∧
  (let! c := testing in to_connection_string c) =
    Ok "host=localhost port=5433 dbname=test_db user=test_user password=test_password sslmode=disable connect_timeout=10".
Proof.
  split; [vm_compute; reflexivity|]. split; [vm_compute; reflexivity|]. split; [|vm_compute; reflexivity].
  intros d u p. unfold finalize_config.
  destruct (validate_config_cases
    (ssl_mode VERIFY_FULL (credentials (mkCredentials "" p d u "") default_connection_config))) as [H|H]; [|by rewrite H].
  apply validate_config_spec in H as (_ & _ & _ & H & _). destruct H as [? ?]; [by repeat constructor|done].
Qed.

(** A tab in a value is not quoted: the value ends there, and the string is
    rejected where something follows; a tab at the end is lost. *)
Definition tab_config (name : string) : ConnectionConfig :=
  application_name name (dbname "d" (user "u" default_connection_config)).
Theorem tab_is_not_quoted :
  (let! text := to_connection_string (tab_config (String "a" (String "009" "b"))) in Ok (read_settings 9 text)) =
    Ok None ∧
  (let! text := to_connection_string (tab_config (String "a" (String "009" ""))) in Ok (read_settings 9 text)) =
    Ok (Some [("host", "localhost"); ("port", "5432"); ("dbname", "d"); ("user", "u"); ("sslmode", "prefer");
              ("connect_timeout", "30"); ("application_name", "a")]).
Proof. split; vm_compute; reflexivity. Qed.

(** A port is not checked past its digits. *)
Theorem port_garbage_accepted :
  validate_credentials (mkCredentials "h" "5432abc" "d" "u" "") = Ok tt.
Proof. reflexivity. Qed.

(** The proxied setters of the configuration builder are the setters of the
    credentials builder on its credentials. *)
Lemma proxied_setters (v : string) (n : N) (c : ConnectionConfig) :
  credentials_ (host v c) = CredentialsBuilder.host v (credentials_ c) ∧
  credentials_ (port v c) = CredentialsBuilder.port v (credentials_ c) ∧
  credentials_ (port_number n c) = CredentialsBuilder.port_number n (credentials_ c) ∧
  credentials_ (dbname v c) = CredentialsBuilder.dbname v (credentials_ c) ∧
  credentials_ (user v c) = CredentialsBuilder.user v (credentials_ c) ∧
  credentials_ (password v c) = CredentialsBuilder.password v (credentials_ c).
Proof. done. Qed.
