(* ===== verification/PoolConfig.v ===== *)
(** * Pool configuration and connection holders

    [session/shared/pool_config.hpp]: the validated configuration shared by
    both connection pools, its builder and its presets;
    [connection_holder/connection_holder.hpp]: the clean-up statements, the
    slot states and the release-time clean-up of a pooled connection. *)

From S2P Require Import Prelude.

Local Open Scope Z_scope.

(** ** PoolConfig *)

(** Durations are [std::chrono::seconds]; [size_t] fields are integers in
    [0, 2^64). *)
Record PoolConfig := mkPoolConfig {
  capacity_ : Z;
  min_connections_ : Z;
  connect_timeout_ : Z;
  idle_timeout_ : Z;
  health_check_interval_ : Z;
  max_lifetime_ : Z;
  pool_cleanup_sql_ : string;
}.

(** The in-class initialisers: [Builder{}]. *)
Definition default_config : PoolConfig := mkPoolConfig 16 2 10 300 30 3600 "".

Definition validate (c : PoolConfig) : result unit :=
  if capacity_ c =? 0 then Throw invalid_argument
  else if negb (Z.land (capacity_ c) (capacity_ c - 1) =? 0) then Throw invalid_argument
  else if capacity_ c <? min_connections_ c then Throw invalid_argument
  else if connect_timeout_ c <=? 0 then Throw invalid_argument
  else Ok tt.

Module Builder.
Definition capacity (v : Z) (c : PoolConfig) : PoolConfig :=
  mkPoolConfig v (min_connections_ c) (connect_timeout_ c) (idle_timeout_ c)
    (health_check_interval_ c) (max_lifetime_ c) (pool_cleanup_sql_ c).
Definition min_connections (v : Z) (c : PoolConfig) : PoolConfig :=
  mkPoolConfig (capacity_ c) v (connect_timeout_ c) (idle_timeout_ c)
    (health_check_interval_ c) (max_lifetime_ c) (pool_cleanup_sql_ c).
Definition connect_timeout (v : Z) (c : PoolConfig) : PoolConfig :=
  mkPoolConfig (capacity_ c) (min_connections_ c) v (idle_timeout_ c)
    (health_check_interval_ c) (max_lifetime_ c) (pool_cleanup_sql_ c).
Definition idle_timeout (v : Z) (c : PoolConfig) : PoolConfig :=
  mkPoolConfig (capacity_ c) (min_connections_ c) (connect_timeout_ c) v
    (health_check_interval_ c) (max_lifetime_ c) (pool_cleanup_sql_ c).
Definition health_check_interval (v : Z) (c : PoolConfig) : PoolConfig :=
  mkPoolConfig (capacity_ c) (min_connections_ c) (connect_timeout_ c) (idle_timeout_ c)
    v (max_lifetime_ c) (pool_cleanup_sql_ c).
Definition max_lifetime (v : Z) (c : PoolConfig) : PoolConfig :=
  mkPoolConfig (capacity_ c) (min_connections_ c) (connect_timeout_ c) (idle_timeout_ c)
    (health_check_interval_ c) v (pool_cleanup_sql_ c).
Definition cleanup_sql (v : string) (c : PoolConfig) : PoolConfig :=
  mkPoolConfig (capacity_ c) (min_connections_ c) (connect_timeout_ c) (idle_timeout_ c)
    (health_check_interval_ c) (max_lifetime_ c) v.

Local Open Scope demi_scope.
Definition finalize (c : PoolConfig) : result PoolConfig :=
  let! _ := validate c in Ok c.
End Builder.

Definition minimal : result PoolConfig :=
  Builder.finalize (Builder.min_connections 1 (Builder.capacity 2 default_config)).
Definition standard : result PoolConfig := Builder.finalize default_config.
Definition high_performance : result PoolConfig :=
  Builder.finalize
    (Builder.health_check_interval 15 (Builder.min_connections 8 (Builder.capacity 64 default_config))).

(** *** Powers of two *)

Lemma land_pred_pow2 (k : Z) : 0 ≤ k → Z.land (2 ^ k) (2 ^ k - 1) = 0.
Proof.
  intros Hk. replace (2 ^ k - 1) with (Z.ones k) by (rewrite Z.ones_equiv; lia).
  rewrite Z.land_ones by done. apply Z_mod_same_full.
Qed.

Lemma land_pred_zero (n : Z) : 0 < n → Z.land n (n - 1) = 0 → n = 2 ^ Z.log2 n.
Proof.
  intros Hn Hl. pose proof (Z.log2_spec n Hn) as [Hlo Hhi]. pose proof (Z.log2_nonneg n) as Hk.
  destruct (Z.eq_dec n (2 ^ Z.log2 n)) as [|Hne]; [done|exfalso].
  assert (Z.log2 (n - 1) = Z.log2 n) as E by (apply Z.log2_unique; lia).
  assert (Z.testbit (Z.land n (n - 1)) (Z.log2 n) = true) as Hb.
  { rewrite Z.land_spec, Z.bit_log2 by done. rewrite <- E, Z.bit_log2; [done|].
    pose proof (Z.pow_pos_nonneg 2 (Z.log2 n)). lia. }
  by rewrite Hl, Z.bits_0 in Hb.
Qed.

(** A configuration the pools may be built with. *)
Definition valid_config (c : PoolConfig) : Prop :=
  (∃ k, 0 ≤ k ∧ capacity_ c = 2 ^ k) ∧ min_connections_ c ≤ capacity_ c ∧ 0 < connect_timeout_ c.

Lemma validate_ok (c : PoolConfig) : 0 ≤ capacity_ c → validate c = Ok tt ↔ valid_config c.
Proof.
  intros Hc. unfold validate, valid_config. split.
  - destruct (Z.eqb_spec (capacity_ c) 0); [done|].
    destruct (Z.eqb_spec (Z.land (capacity_ c) (capacity_ c - 1)) 0) as [Hl|]; [|done]. simpl.
    destruct (Z.ltb_spec (capacity_ c) (min_connections_ c)); [done|].
    destruct (Z.leb_spec (connect_timeout_ c) 0); [done|]. intros _. split_and!; [|lia|lia].
    exists (Z.log2 (capacity_ c)). split; [apply Z.log2_nonneg|]. apply land_pred_zero; [lia|done].
  - intros ((k & Hk & Ek) & Hm & Ht). pose proof (Z.pow_pos_nonneg 2 k).
    rewrite Ek, land_pred_pow2 by done. rewrite <- Ek.
    destruct (Z.eqb_spec (capacity_ c) 0); [lia|]. simpl.
    destruct (Z.ltb_spec (capacity_ c) (min_connections_ c)); [lia|].
    by destruct (Z.leb_spec (connect_timeout_ c) 0); [lia|].
Qed.

(** With a valid capacity, masking with [capacity - 1] is reduction modulo the
    capacity: [(start + i) & mask_] runs round the ring. *)
Lemma mask_mod (c : PoolConfig) (z : Z) : valid_config c → Z.land z (capacity_ c - 1) = z mod capacity_ c.
Proof.
  intros ((k & Hk & ->) & _). replace (2 ^ k - 1) with (Z.ones k) by (rewrite Z.ones_equiv; lia).
  by apply Z.land_ones.
Qed.

(** [PoolConfig::validate], and with it [Builder::finalize], accepts
    exactly the configurations whose capacity is a power of two, at least
    [min_connections], with a positive timeout; anything else throws
    [invalid_argument].  The three presets are accepted. *)
Theorem pool_config_valid (c : PoolConfig) :
  0 ≤ capacity_ c →
  (valid_config c ∧ Builder.finalize c = Ok c ∨
   ¬ valid_config c ∧ Builder.finalize c = Throw invalid_argument) ∧
  Forall (λ r, ∃ c', r = Ok c' ∧ valid_config c') [minimal; standard; high_performance].
Proof.
  intros Hc. split.
  - unfold Builder.finalize. destruct (validate c) as [[]|e] eqn:E; simpl.
    + left. split; [by apply validate_ok|done].
    + right. split; [rewrite <- validate_ok by done; congruence|].
      revert E. unfold validate. by repeat case_test; intros [= <-].
  - repeat constructor; eexists; (split; [reflexivity|]);
      (apply validate_ok; [by compute|by vm_compute]).
Qed.

Lemma pool_config_valid_witness :
  let c := Builder.capacity 6 default_config in
  (valid_config c ∧ Builder.finalize c = Ok c ∨
   ¬ valid_config c ∧ Builder.finalize c = Throw invalid_argument) ∧
  Forall (λ r, ∃ c', r = Ok c' ∧ valid_config c') [minimal; standard; high_performance].
Proof. apply (pool_config_valid (Builder.capacity 6 default_config)). simpl. lia. Defined.

(** ** Connection holders *)

Inductive CleanupQuery : Type := CleanupNone | ResetAll | DeallocateAll | DiscardTemp | DiscardAll.

Definition cleanup_to_sql (q : CleanupQuery) : option string :=
  match q with
  | CleanupNone => None
  | ResetAll => Some "RESET ALL"%string
  | DeallocateAll => Some "DEALLOCATE ALL"%string
  | DiscardTemp => Some "DISCARD TEMP"%string
  | DiscardAll => Some "DISCARD ALL"%string
  end.

Inductive SlotStatus : Type := FREE | USED | WAITING | DEAD | INACTIVE.

#[export] Instance SlotStatus_eq_dec : EqDecision SlotStatus.
Proof. solve_decision. Defined.

Definition slot_status_to_string (s : SlotStatus) : string :=
  match s with
  | FREE => "FREE" | USED => "USED" | WAITING => "WAITING" | DEAD => "DEAD" | INACTIVE => "INACTIVE"
  end.

(** [ConnectionHolder]: connections are numbered in the order they are opened. *)
Record ConnectionHolder := mkHolder {
  conn_ : option nat;
  cleanup_sql_ : option string;
}.

Definition set_cleanup (q : CleanupQuery) (h : ConnectionHolder) : ConnectionHolder :=
  mkHolder (conn_ h) (cleanup_to_sql q).

(** [run_cleanup_sql]: [status_ok] is [PQstatus(conn_) == CONNECTION_OK] and
    [exec_ok] the outcome of [PQexec]; the third component is the statement
    sent, if any. *)
Definition run_cleanup_sql (status_ok exec_ok : bool) (h : ConnectionHolder)
    : bool * ConnectionHolder * option string :=
  match conn_ h with
  | None => (false, h, None)
  | Some _ =>
      if negb status_ok then (false, h, None)
      else match cleanup_sql_ h with
           | None | Some EmptyString => (true, h, None)
           | Some sql => (exec_ok, mkHolder (conn_ h) None, Some sql)
           end
  end.

Lemma run_cleanup_sql_conn a b h :
  conn_ (run_cleanup_sql a b h).1.2 = conn_ h ∧
  ((run_cleanup_sql a b h).1.1 = true → is_Some (conn_ h)).
Proof.
  unfold run_cleanup_sql. destruct (conn_ h) eqn:E; [|done].
  destruct a; simpl; [|done]. destruct (cleanup_sql_ h) as [[]|]; simpl; by eauto.
Qed.
