(* ===== verification/ConnectionPool.v ===== *)
(** * The lock-free connection pool

    [session/free_lock/pool]: [SlotHolder], [ConnectionPool] and the health
    monitor [PoolJanitor].  The first part has the pool and its operations as
    functions; the second is the concurrent program: client threads that
    acquire, use and give back slots, the janitor thread and a thread that
    calls [shutdown], each step one access to shared memory or one call of libpq
    (sequentially consistent).
    A step is an executable function of a label that carries what libpq
    answers; it is undefined where the label does not fit.  The proofs about
    the concurrent program are in [ConnectionPoolSafety.v]. *)

From stdpp Require Import relations.
From S2P Require Import Prelude Bytes PoolConfig.

Local Open Scope Z_scope.

(** ** State *)

Record SlotHolder := mkSlot {
  status : SlotStatus;
  holder : ConnectionHolder;
}.

(** [connected] counts the connections opened so far (the next one gets that
    number); [finished] are those passed to [PQfinish]. *)
Record Pool := mkPool {
  pool_config_ : PoolConfig;
  slots_ : list SlotHolder;
  hint_cursor_ : Z;
  shutdown_ : bool;
  connected : nat;
  finished : list nat;
}.

Definition capacity (p : Pool) : nat := Z.to_nat (capacity_ (pool_config_ p)).
Definition mask_ (p : Pool) : Z := capacity_ (pool_config_ p) - 1.

Definition with_slots (p : Pool) (ss : list SlotHolder) : Pool :=
  mkPool (pool_config_ p) ss (hint_cursor_ p) (shutdown_ p) (connected p) (finished p).
Definition set_hint (p : Pool) (v : Z) : Pool :=
  mkPool (pool_config_ p) (slots_ p) v (shutdown_ p) (connected p) (finished p).
Definition set_shutdown (p : Pool) : Pool :=
  mkPool (pool_config_ p) (slots_ p) (hint_cursor_ p) true (connected p) (finished p).

(** [slot.status.store(s)] *)
Definition with_status (s : SlotStatus) (x : SlotHolder) : SlotHolder := mkSlot s (holder x).
Definition store_status (p : Pool) (i : nat) (s : SlotStatus) : Pool :=
  with_slots p (alter (with_status s) i (slots_ p)).

(** [slot.status.compare_exchange_strong(expected, desired)] *)
Definition compare_exchange (p : Pool) (i : nat) (expected desired : SlotStatus) : bool * Pool :=
  match slots_ p !! i with
  | Some x => if decide (status x = expected) then (true, store_status p i desired) else (false, p)
  | None => (false, p)
  end.

(** [create_connection]: [ok] tells whether the server accepts. *)
Definition create_connection (ok : bool) (p : Pool) : option nat * Pool :=
  if ok
  then (Some (connected p),
        mkPool (pool_config_ p) (slots_ p) (hint_cursor_ p) (shutdown_ p) (S (connected p)) (finished p))
  else (None, p).

(** [SlotHolder::replace_conn] reads [conn_], closes what it read and stores the
    new pointer; [conn_] is not atomic. *)
Definition load_conn (p : Pool) (i : nat) : option nat := slots_ p !! i ≫= λ x, conn_ (holder x).

Definition finish_conn (p : Pool) (old : option nat) : Pool :=
  mkPool (pool_config_ p) (slots_ p) (hint_cursor_ p) (shutdown_ p) (connected p) (option_list old ++ finished p).

Definition with_conn (c : option nat) (x : SlotHolder) : SlotHolder :=
  mkSlot (status x) (mkHolder c (cleanup_sql_ (holder x))).
Definition store_conn (p : Pool) (i : nat) (c : option nat) : Pool :=
  with_slots p (alter (with_conn c) i (slots_ p)).

(** The three in a row, without interference. *)
Definition replace_conn (p : Pool) (i : nat) (c : option nat) : Pool :=
  store_conn (finish_conn p (load_conn p i)) i c.

Definition with_holder (h : ConnectionHolder) (x : SlotHolder) : SlotHolder := mkSlot (status x) h.
Definition set_holder (p : Pool) (i : nat) (h : ConnectionHolder) : Pool :=
  with_slots p (alter (with_holder h) i (slots_ p)).

(** ** Construction and destruction *)

(** [SlotHolder()] *)
Definition fresh_slot : SlotHolder := mkSlot INACTIVE (mkHolder None None).

(** The constructor's loop over the first [min_connections] slots. *)
Fixpoint open_slots (oks : nat → bool) (n i : nat) (p : Pool) : Pool :=
  match n with
  | O => p
  | S n' =>
      let '(c, p1) := create_connection (oks i) p in
      let p2 := match c with
                | Some _ => store_status (replace_conn p1 i c) i FREE
                | None => store_status p1 i DEAD
                end in
      open_slots oks n' (S i) p2
  end.

Definition make_pool (oks : nat → bool) (c : PoolConfig) : Pool :=
  open_slots oks (Z.to_nat (min_connections_ c)) 0
    (mkPool c (replicate (Z.to_nat (capacity_ c)) fresh_slot) 0 false 0 []).

(** [~ConnectionPool]: the slots close what they still hold. *)
Definition destroy_pool (p : Pool) : Pool :=
  mkPool (pool_config_ p) [] (hint_cursor_ p) true (connected p)
         (omap (conn_ ∘ holder) (slots_ p) ++ finished p).

(** ** Operations, run without interference *)

(** [(start + i) & mask_], with [start] and [i] of type [size_t]. *)
Definition index (p : Pool) (start : Z) (i : nat) : nat :=
  Z.to_nat (Z.land (to_unsigned 64 (to_unsigned 64 start + Z.of_nat i)) (mask_ p)).

Definition next_hint (p : Pool) (idx : nat) : Z := Z.land (Z.of_nat idx + 1) (mask_ p).

(** The first loop: claim a FREE slot. *)
Fixpoint scan_free (n : nat) (start : Z) (i : nat) (p : Pool) : option nat * Pool :=
  match n with
  | O => (None, p)
  | S n' =>
      let idx := index p start i in
      let '(won, p1) := compare_exchange p idx FREE USED in
      if won then (Some idx, set_hint p1 (next_hint p1 idx)) else scan_free n' start (S i) p1
  end.

(** The second loop: claim an INACTIVE slot and open a connection for it. *)
Fixpoint scan_inactive (oks : nat → bool) (n : nat) (start : Z) (i : nat) (p : Pool) : option nat * Pool :=
  match n with
  | O => (None, p)
  | S n' =>
      let idx := index p start i in
      let '(won, p1) := compare_exchange p idx INACTIVE USED in
      if won then
        let '(fresh, p2) := create_connection (oks idx) p1 in
        match fresh with
        | None => scan_inactive oks n' start (S i) (store_status p2 idx DEAD)
        | Some _ =>
            let p3 := replace_conn p2 idx fresh in
            (Some idx, set_hint p3 (next_hint p3 idx))
        end
      else scan_inactive oks n' start (S i) p1
  end.

Definition acquire_slot (oks : nat → bool) (p : Pool) : option nat * Pool :=
  if shutdown_ p then (None, p)
  else
    let start := hint_cursor_ p in
    let '(r, p1) := scan_free (capacity p) start 0 p in
    match r with
    | Some idx => (Some idx, p1)
    | None => scan_inactive oks (capacity p) start 0 p1
    end.

(** [acquire_slot_wait]: [others k] is what the other threads do to the pool
    while the [k]-th sleep lasts. *)
Fixpoint acquire_attempts (oks : nat → nat → bool) (others : nat → Pool → Pool)
    (n attempt : nat) (p : Pool) : option nat * Pool :=
  match n with
  | O => (None, p)
  | S n' =>
      if shutdown_ p then (None, p)
      else
        let '(r, p1) := acquire_slot (oks (S attempt)) (others attempt p) in
        match r with
        | Some idx => (Some idx, p1)
        | None => acquire_attempts oks others n' (S attempt) p1
        end
  end.

Definition acquire_slot_wait (oks : nat → nat → bool) (others : nat → Pool → Pool) (timeout : Z) (p : Pool)
    : option nat * Pool :=
  let '(r, p1) := acquire_slot (oks O) p in
  match r with
  | Some idx => (Some idx, p1)
  | None => if timeout <=? 0 then (None, p1) else acquire_attempts oks others 10 0 p1
  end.

(** [SlotHolder::reset] *)
Definition reset (status_ok exec_ok : bool) (i : nat) (p : Pool) : Pool :=
  match slots_ p !! i with
  | Some x =>
      let '(clean, h, _) := run_cleanup_sql status_ok exec_ok (holder x) in
      store_status (set_holder p i h) i (if clean then FREE else DEAD)
  | None => p
  end.

Definition shutdown_slot (x : SlotHolder) : SlotHolder :=
  match status x with USED | WAITING => x | _ => with_status INACTIVE x end.
Definition shutdown (p : Pool) : Pool :=
  if shutdown_ p then p else with_slots (set_shutdown p) (shutdown_slot <$> slots_ p).

Definition active (x : SlotHolder) : bool := match status x with USED | WAITING => true | _ => false end.
Definition active_count (p : Pool) : nat := length (filter active (slots_ p)).
Definition free_count (p : Pool) : nat := length (filter (λ x, status x = FREE) (slots_ p)).
Definition is_shutdown (p : Pool) : bool := shutdown_ p.

(** ** The concurrent program *)

(** What a step depends on besides the shared state. *)
Inductive label : Type :=
  | Tau
  | Call                                   (** the thread calls [acquire_slot] or [shutdown] *)
  | Connect (ok : bool)                    (** [PQconnectdb] *)
  | SetCleanup (q : CleanupQuery)          (** [do_cleanup] of the capability *)
  | Reset (status_ok exec_ok : bool)       (** the capability's destructor, with libpq's answers *)
  | Health (status_ok : bool)              (** [check_connection] *)
  | Stop.                                  (** the janitor sees [stop_requested] *)

(** A client thread: inside [acquire_slot], holding a slot, or in [reset]. *)
Inductive client_pc : Type :=
  | Idle
  | AEnter                                  (** load [shutdown_] *)
  | AHint                                   (** read the hint *)
  | AFree (start : Z) (i : nat)             (** first loop *)
  | AInactive (start : Z) (i : nat)         (** second loop *)
  | ACreate (start : Z) (i : nat)           (** claimed: open a connection *)
  | ADead (start : Z) (i : nat)             (** could not: store DEAD *)
  | AReplace (idx c : nat)                  (** [replace_conn]: read [conn_] *)
  | AFinish (idx c : nat) (old : option nat)     (** [PQfinish] what was read *)
  | AStoreConn (idx c : nat) (old : option nat)  (** store [conn_]; [old] is history *)
  | ASetHint (idx : nat)                    (** set the hint and return *)
  | Leased (idx : nat)                      (** the caller has the slot *)
  | RStore (idx : nat) (clean : bool)       (** [reset]: store the status *)
  | Exhausted.                              (** returned an expired pointer *)

Definition client_step (l : label) (p : Pool) (c : client_pc) : option (Pool * client_pc) :=
  match c, l with
  | Idle, Call | Exhausted, Call => Some (p, AEnter)
  | AEnter, Tau => Some (p, if shutdown_ p then Exhausted else AHint)
  | AHint, Tau => Some (p, AFree (hint_cursor_ p) 0)
  | AFree start i, Tau =>
      if (i <? capacity p)%nat then
        let idx := index p start i in
        let '(won, p') := compare_exchange p idx FREE USED in
        Some (p', if won then ASetHint idx else AFree start (S i))
      else Some (p, AInactive start 0)
  | AInactive start i, Tau =>
      if (i <? capacity p)%nat then
        let '(won, p') := compare_exchange p (index p start i) INACTIVE USED in
        Some (p', if won then ACreate start i else AInactive start (S i))
      else Some (p, Exhausted)
  | ACreate start i, Connect ok =>
      let '(fresh, p') := create_connection ok p in
      Some (p', match fresh with Some c => AReplace (index p start i) c | None => ADead start i end)
  | ADead start i, Tau => Some (store_status p (index p start i) DEAD, AInactive start (S i))
  | AReplace idx c, Tau => Some (p, AFinish idx c (load_conn p idx))
  | AFinish idx c old, Tau => Some (finish_conn p old, AStoreConn idx c old)
  | AStoreConn idx c _, Tau => Some (store_conn p idx (Some c), ASetHint idx)
  | ASetHint idx, Tau => Some (set_hint p (next_hint p idx), Leased idx)
  | Leased idx, SetCleanup q =>
      match slots_ p !! idx with
      | Some x => Some (set_holder p idx (set_cleanup q (holder x)), Leased idx)
      | None => None
      end
  | Leased idx, Reset status_ok exec_ok =>
      match slots_ p !! idx with
      | Some x =>
          let '(clean, h, _) := run_cleanup_sql status_ok exec_ok (holder x) in
          Some (set_holder p idx h, RStore idx clean)
      | None => None
      end
  | RStore idx clean, Tau => Some (store_status p idx (if clean then FREE else DEAD), Idle)
  | _, _ => None
  end.

(** The janitor thread: [run] and [sweep]. *)
Inductive janitor_pc : Type :=
  | JWait                       (** asleep for the health-check interval *)
  | JSlot (i : nat)             (** head of the sweep's loop *)
  | JCheck (i : nat)            (** saw FREE: [check_connection] *)
  | JCas (i : nat)              (** unhealthy: FREE to DEAD *)
  | JCreate (i : nat)
  | JReplace (i : nat) (c : option nat)               (** [replace_conn], also with null *)
  | JFinish (i : nat) (c old : option nat)
  | JStoreConn (i : nat) (c old : option nat)
  | JStoreFree (i : nat)
  | JStoreInactive (i : nat)
  | JStopped.

Definition janitor_step (l : label) (p : Pool) (j : janitor_pc) : option (Pool * janitor_pc) :=
  match j, l with
  | JWait, Tau => Some (p, JSlot 0)
  | JWait, Stop | JSlot _, Stop => Some (p, JStopped)
  | JSlot i, Tau =>
      match slots_ p !! i with
      | None => Some (p, JWait)
      | Some x => Some (p, match status x with
                           | DEAD => JCreate i
                           | FREE => JCheck i
                           | _ => JSlot (S i)
                           end)
      end
  | JCheck i, Health status_ok =>
      match slots_ p !! i with
      | None => None
      | Some x => Some (p, match conn_ (holder x) with
                           | Some _ => if status_ok then JSlot (S i) else JCas i
                           | None => JCas i
                           end)
      end
  | JCas i, Tau =>
      let '(won, p') := compare_exchange p i FREE DEAD in
      Some (p', if won then JCreate i else JSlot (S i))
  | JCreate i, Connect ok =>
      let '(fresh, p') := create_connection ok p in
      Some (p', JReplace i fresh)
  | JReplace i c, Tau => Some (p, JFinish i c (load_conn p i))
  | JFinish i c old, Tau => Some (finish_conn p old, JStoreConn i c old)
  | JStoreConn i c _, Tau =>
      Some (store_conn p i c, match c with Some _ => JStoreFree i | None => JStoreInactive i end)
  | JStoreFree i, Tau => Some (store_status p i FREE, JSlot (S i))
  | JStoreInactive i, Tau => Some (store_status p i INACTIVE, JSlot (S i))
  | _, _ => None
  end.

(** A thread that calls [shutdown]. *)
Inductive closer_pc : Type :=
  | SIdle
  | SLoad (i : nat)
  | SStore (i : nat)
  | SDone.

Definition closer_step (l : label) (p : Pool) (s : closer_pc) : option (Pool * closer_pc) :=
  match s, l with
  | SIdle, Call => Some (set_shutdown p, if shutdown_ p then SDone else SLoad 0)
  | SLoad i, Tau =>
      match slots_ p !! i with
      | None => Some (p, SDone)
      | Some x => Some (p, if active x then SLoad (S i) else SStore i)
      end
  | SStore i, Tau => Some (store_status p i INACTIVE, SLoad (S i))
  | _, _ => None
  end.

Record system := mkSystem {
  pool : Pool;
  clients : list client_pc;
  janitor : janitor_pc;
  closer : closer_pc;
}.

(** A client that may still claim a slot in the [acquire_slot] it is in. *)
Definition in_scan (c : client_pc) : bool :=
  match c with AHint | AFree _ _ | AInactive _ _ | ACreate _ _ | ADead _ _ => true | _ => false end.

(** [shutdown] begins in good order when the janitor has been stopped, which
    is what [LockFreeSession::shutdown] does first, and no client is in the
    middle of [acquire_slot]. *)
Definition quiet (s : system) : Prop :=
  janitor s = JStopped ∧ Forall (λ c, in_scan c = false) (clients s).

(** [orderly]: whether [shutdown] is only called in good order. *)
Inductive pool_step (orderly : bool) : system → system → Prop :=
  | step_client s t c l p' c' :
      clients s !! t = Some c → client_step l (pool s) c = Some (p', c') →
      pool_step orderly s (mkSystem p' (<[t := c']> (clients s)) (janitor s) (closer s))
  | step_janitor s l p' j' :
      janitor_step l (pool s) (janitor s) = Some (p', j') →
      pool_step orderly s (mkSystem p' (clients s) j' (closer s))
  | step_closer s l p' k' :
      (orderly = true → closer s = SIdle → quiet s) →
      closer_step l (pool s) (closer s) = Some (p', k') →
      pool_step orderly s (mkSystem p' (clients s) (janitor s) k').

Definition pool_initial (oks : nat → bool) (c : PoolConfig) (threads : nat) : system :=
  mkSystem (make_pool oks c) (replicate threads Idle) JWait SIdle.

Definition pool_reachable (orderly : bool) (oks : nat → bool) (c : PoolConfig) (threads : nat) (s : system)
    : Prop :=
  rtc (pool_step orderly) (pool_initial oks c threads) s.
