(* ===== verification/ConnectionPoolSafety.v ===== *)
(** * The lock-free connection pool: safety

    The invariants of the concurrent program of [ConnectionPool.v] and what
    follows from them as long as [shutdown] is called in good order: a slot is
    leased to at most one client, with a live connection that nobody exchanges
    under it; [replace_conn] is never run by two threads on one slot; every
    connection is owned by exactly one party and closed at most once. *)

From stdpp Require Import relations.
From S2P Require Import Prelude Bytes PoolConfig ConnectionPool.

Local Open Scope Z_scope.

(** ** Who owns what *)

(** The slot a client has claimed. *)
Definition owner (p : Pool) (c : client_pc) : option nat :=
  match c with
  | ACreate start i | ADead start i => Some (index p start i)
  | AReplace idx _ | AFinish idx _ _ | AStoreConn idx _ _ | ASetHint idx | Leased idx | RStore idx _ => Some idx
  | _ => None
  end.

(** What the client relies on in the slot's [conn_]: that there is a connection,
    or that it is still the one it has read. *)
Definition relies (c : client_pc) (conn : option nat) : Prop :=
  match c with
  | ASetHint _ | Leased _ => is_Some conn
  | RStore _ clean => clean = true → is_Some conn
  | AFinish _ _ old | AStoreConn _ _ old => conn = old
  | _ => True
  end.

Definition janitor_owner (j : janitor_pc) : option nat :=
  match j with
  | JCreate i | JReplace i _ | JFinish i _ _ | JStoreConn i _ _ | JStoreFree i | JStoreInactive i => Some i
  | _ => None
  end.
Definition janitor_relies (j : janitor_pc) (conn : option nat) : Prop :=
  match j with
  | JStoreFree _ => is_Some conn
  | JFinish _ _ old | JStoreConn _ _ old => conn = old
  | _ => True
  end.

(** A connection held in a local variable. *)
Definition pending (c : client_pc) : option nat :=
  match c with AReplace _ k | AFinish _ k _ | AStoreConn _ k _ => Some k | _ => None end.
Definition janitor_pending (j : janitor_pc) : option nat :=
  match j with JReplace _ c | JFinish _ c _ | JStoreConn _ c _ => c | _ => None end.

(** A connection that is closed and still in its slot. *)
Definition stale (c : client_pc) : option nat := match c with AStoreConn _ _ old => old | _ => None end.
Definition janitor_stale (j : janitor_pc) : option nat := match j with JStoreConn _ _ old => old | _ => None end.

Record inv (s : system) : Prop := {
  inv_config : valid_config (pool_config_ (pool s));
  inv_length : length (slots_ (pool s)) = capacity (pool s);
  inv_used i x : slots_ (pool s) !! i = Some x → status x = USED →
    ∃ t c, clients s !! t = Some c ∧ owner (pool s) c = Some i;
  inv_owned t c i : clients s !! t = Some c → owner (pool s) c = Some i →
    ∃ x, slots_ (pool s) !! i = Some x ∧ status x = USED ∧ relies c (conn_ (holder x));
  inv_excl t t' c c' i : clients s !! t = Some c → clients s !! t' = Some c' →
    owner (pool s) c = Some i → owner (pool s) c' = Some i → t = t';
  inv_slot i x : slots_ (pool s) !! i = Some x →
    status x ≠ WAITING ∧ (status x = FREE → is_Some (conn_ (holder x)));
  inv_janitor i : janitor_owner (janitor s) = Some i →
    ∃ x, slots_ (pool s) !! i = Some x ∧ status x = DEAD ∧ janitor_relies (janitor s) (conn_ (holder x));
  inv_shutdown : shutdown_ (pool s) = true → quiet s;
  inv_closer : match closer s with
    | SLoad _ => shutdown_ (pool s) = true
    | SStore i => shutdown_ (pool s) = true ∧ ∃ x, slots_ (pool s) !! i = Some x ∧ status x ≠ USED
    | _ => True
    end;
}.

(** ** Indices *)

Lemma index_lt p start i : valid_config (pool_config_ p) → (index p start i < capacity p)%nat.
Proof.
  intros Hc. unfold index, mask_, capacity. rewrite mask_mod by done.
  destruct Hc as ((k & Hk & Ek) & _). pose proof (Z.pow_pos_nonneg 2 k).
  pose proof (Z.mod_pos_bound (to_unsigned 64 (to_unsigned 64 start + Z.of_nat i)) (capacity_ (pool_config_ p))).
  lia.
Qed.

Lemma index_config p p' start i : pool_config_ p' = pool_config_ p → index p' start i = index p start i.
Proof. intros E. unfold index, mask_. by rewrite E. Qed.

Lemma owner_config p p' c : pool_config_ p' = pool_config_ p → owner p' c = owner p c.
Proof. intros E. destruct c; simpl; f_equal; by apply index_config. Qed.

(** ** Preservation: one lemma per kind of effect *)

(** [p'] is [p] with slot [i] changed to [x'] and perhaps other bookkeeping. *)
Definition changes (p p' : Pool) (i : nat) (x' : SlotHolder) : Prop :=
  pool_config_ p' = pool_config_ p ∧ shutdown_ p' = shutdown_ p ∧ slots_ p' = <[i := x']> (slots_ p).
(** [p'] differs from [p] in bookkeeping only. *)
Definition same (p p' : Pool) : Prop :=
  pool_config_ p' = pool_config_ p ∧ shutdown_ p' = shutdown_ p ∧ slots_ p' = slots_ p.

Lemma changes_slot p i x : slots_ p !! i = Some x → changes p p i x.
Proof. intros H. split_and!; [done..|]. by rewrite list_insert_id. Qed.

(** The client steps within its own slot or outside any: the new state of the
    slot and of the client agree. *)
Definition agrees (p : Pool) (c c' : client_pc) (i : nat) (x x' : SlotHolder) : Prop :=
  (owner p c = Some i ∨ owner p c = None ∧ (status x = FREE ∨ status x = INACTIVE) ∧
                        shutdown_ p = false) ∧
  (status x' = USED ∧ owner p c' = Some i ∨ status x' ≠ USED ∧ owner p c' = None) ∧
  status x' ≠ WAITING ∧
  (status x' = FREE → is_Some (conn_ (holder x'))) ∧ relies c' (conn_ (holder x')).

Lemma quiet_insert s p' t c c' :
  quiet s → clients s !! t = Some c → in_scan c' = false →
  quiet (mkSystem p' (<[t := c']> (clients s)) (janitor s) (closer s)).
Proof. intros [Hj Hf] Ht Hc. split; [done|]. simpl. by apply Forall_insert. Qed.

Lemma inv_client_free s t c c' p' :
  inv s → clients s !! t = Some c → same (pool s) p' →
  owner (pool s) c = None → owner (pool s) c' = None →
  (shutdown_ (pool s) = true → in_scan c' = false) →
  inv (mkSystem p' (<[t := c']> (clients s)) (janitor s) (closer s)).
Proof.
  intros [] Ht (Hcfg & Hsh & Hsl) Ho Ho' Hscan.
  assert (t < length (clients s))%nat as Hlt by by eapply lookup_lt_Some.
  assert (∀ d, owner p' d = owner (pool s) d) as Eo by (intros; by apply owner_config).
  split; simpl; rewrite ?Hcfg, ?Hsh, ?Hsl; unfold capacity in *; rewrite ?Hcfg; try done.
  - intros i x Hi Hx. destruct (inv_used0 i x Hi Hx) as (t1 & c1 & H1 & H2).
    exists t1, c1. rewrite Eo. split; [|done]. rewrite list_lookup_insert_ne; [done|]. intros ->. congruence.
  - intros t1 c1 i H1 H2. rewrite Eo in H2. apply list_lookup_insert_Some in H1 as [(-> & -> & _)|(_ & H1)].
    + congruence.
    + eauto.
  - intros t1 t2 c1 c2 i H1 H2 H3 H4. rewrite Eo in H3, H4.
    apply list_lookup_insert_Some in H1 as [(-> & -> & _)|(_ & H1)]; [congruence|].
    apply list_lookup_insert_Some in H2 as [(-> & -> & _)|(_ & H2)]; [congruence|]. eauto.
  - intros Hs. eapply quiet_insert; eauto.
Qed.

Lemma inv_client_slot s t c c' p' i x x' :
  inv s → clients s !! t = Some c → slots_ (pool s) !! i = Some x → changes (pool s) p' i x' →
  agrees (pool s) c c' i x x' → (shutdown_ (pool s) = true → in_scan c' = false) →
  inv (mkSystem p' (<[t := c']> (clients s)) (janitor s) (closer s)).
Proof.
  intros [] Ht Hi (Hcfg & Hsh & Hsl) (Hown & Hagree & Hw & Hconn & Hrel) Hscan.
  assert (i < length (slots_ (pool s)))%nat as Hil by by eapply lookup_lt_Some.
  assert (∀ d, owner p' d = owner (pool s) d) as Eo by (intros; by apply owner_config).
  assert (∀ t1 c1, clients s !! t1 = Some c1 → owner (pool s) c1 = Some i → t1 = t) as Honly.
  { intros t1 c1 H1 H2. destruct Hown as [Hown|(Hown & Hst & _)]; [by eauto|].
    destruct (inv_owned0 _ _ _ H1 H2) as (x1 & E1 & E2 & _). simplify_eq. destruct Hst; congruence. }
  split; simpl; rewrite ?Hcfg, ?Hsh, ?Hsl; unfold capacity in *; rewrite ?Hcfg, ?length_insert; try done.
  - intros i1 x1 H1 H2. apply list_lookup_insert_Some in H1 as [(-> & -> & _)|(Hne & H1)].
    + destruct Hagree as [[_ Ho']|[]]; [|done]. exists t, c'. rewrite Eo. split; [|done].
      rewrite list_lookup_insert_eq; [done|by eapply lookup_lt_Some].
    + destruct (inv_used0 _ _ H1 H2) as (t1 & c1 & E1 & E2). exists t1, c1. rewrite Eo. split; [|done].
      rewrite list_lookup_insert_ne; [done|]. intros ->. simplify_eq.
      destruct Hown as [Hown|[Hown _]]; congruence.
  - intros t1 c1 i1 H1 H2. rewrite Eo in H2. apply list_lookup_insert_Some in H1 as [(-> & -> & _)|(Hne & H1)].
    + destruct Hagree as [[Hu Ho']|[_ Ho']]; [|congruence]. simplify_eq. exists x'.
      rewrite list_lookup_insert_eq by done. eauto.
    + destruct (decide (i1 = i)) as [->|Hni]; [by pose proof (Honly _ _ H1 H2); congruence|].
      rewrite list_lookup_insert_ne by done. eauto.
  - intros t1 t2 c1 c2 i1 H1 H2 H3 H4. rewrite Eo in H3, H4.
    assert (∀ d, owner (pool s) c' = Some i1 → owner (pool s) d = Some i1 → i1 = i) as Hii.
    { intros d Hd _. destruct Hagree as [[_ Ho']|[_ Ho']]; congruence. }
    apply list_lookup_insert_Some in H1 as [(-> & -> & _)|(Hn1 & H1)];
      apply list_lookup_insert_Some in H2 as [(-> & -> & _)|(Hn2 & H2)]; [done| | |by eauto].
    + rewrite (Hii c2 H3 H4) in H4. symmetry. by eapply Honly.
    + rewrite (Hii c1 H4 H3) in H3. by eapply Honly.
  - intros i1 x1 H1. apply list_lookup_insert_Some in H1 as [(-> & -> & _)|(Hne & H1)]; eauto.
  - intros i1 H1. destruct (inv_janitor0 _ H1) as (x1 & E1 & E2 & E3).
    assert (i1 ≠ i) as Hne.
    { intros ->. simplify_eq. destruct Hown as [Hown|(_ & [] & _)]; [|congruence..].
      destruct (inv_owned0 _ _ _ Ht Hown) as (x2 & ? & ? & _). congruence. }
    rewrite list_lookup_insert_ne by done. eauto.
  - intros Hs. eapply quiet_insert; eauto.
  - destruct (closer s); try done. destruct inv_closer0 as (Hs & x1 & E1 & E2). split; [done|].
    destruct (decide (i0 = i)) as [->|]; [|rewrite list_lookup_insert_ne by done; eauto].
    rewrite list_lookup_insert_eq by done. exists x'. split; [done|].
    destruct Hown as [Hown|(_ & _ & ?)]; [|congruence].
    destruct (inv_owned0 _ _ _ Ht Hown) as (x2 & ? & ? & _). congruence.
Qed.

(** ** The effects of the operations *)

Lemma store_status_changes p i x s :
  slots_ p !! i = Some x → changes p (store_status p i s) i (with_status s x).
Proof. intros H. split_and!; [done..|]. by apply alter_as_insert. Qed.

Lemma set_holder_changes p i x h :
  slots_ p !! i = Some x → changes p (set_holder p i h) i (with_holder h x).
Proof. intros H. split_and!; [done..|]. by apply (alter_as_insert (with_holder h)). Qed.

Lemma replace_conn_changes p i x c :
  slots_ p !! i = Some x → changes p (replace_conn p i c) i (with_conn c x).
Proof. intros H. split_and!; [done..|]. by apply (alter_as_insert (with_conn c)). Qed.

Lemma store_conn_changes p i x c :
  slots_ p !! i = Some x → changes p (store_conn p i c) i (with_conn c x).
Proof. intros H. split_and!; [done..|]. by apply (alter_as_insert (with_conn c)). Qed.

Lemma load_conn_eq p i x : slots_ p !! i = Some x → load_conn p i = conn_ (holder x).
Proof. intros H. unfold load_conn. by rewrite H. Qed.

Lemma finish_conn_same p old : same p (finish_conn p old).
Proof. by split_and!. Qed.

Lemma create_connection_same ok p c p' : create_connection ok p = (c, p') → same p p'.
Proof. unfold create_connection. destruct ok; intros [= <- <-]; by split_and!. Qed.

Lemma compare_exchange_cases p i e d won p' :
  compare_exchange p i e d = (won, p') →
  won = true ∧ (∃ x, slots_ p !! i = Some x ∧ status x = e ∧ changes p p' i (with_status d x)) ∨
  won = false ∧ p' = p.
Proof.
  unfold compare_exchange. destruct (slots_ p !! i) as [x|] eqn:E; [|intros [= <- <-]; by right].
  case_decide; intros [= <- <-]; [left|by right]. split; [done|]. exists x. split_and!; [done..|].
  by apply store_status_changes.
Qed.

(** A slot in the hands of the client. *)
Lemma inv_own s t c i :
  inv s → clients s !! t = Some c → owner (pool s) c = Some i →
  ∃ x, slots_ (pool s) !! i = Some x ∧ status x = USED ∧ relies c (conn_ (holder x)).
Proof. intros Hi. apply Hi. Qed.

(** A client moves on in its own slot, and the slot stays as it is. *)
Lemma inv_client_keep s t c c' p' i x :
  inv s → clients s !! t = Some c → owner (pool s) c = Some i → owner (pool s) c' = Some i →
  slots_ (pool s) !! i = Some x → same (pool s) p' → relies c' (conn_ (holder x)) →
  (shutdown_ (pool s) = true → in_scan c' = false) →
  inv (mkSystem p' (<[t := c']> (clients s)) (janitor s) (closer s)).
Proof.
  intros Hi Ht Ho Ho' Hx (E1 & E2 & E3) Hr Hsc.
  destruct (inv_own _ _ _ _ Hi Ht Ho) as (x1 & Hx1 & Hu & _). simplify_eq.
  eapply (inv_client_slot s t c c' p' i x x Hi Ht Hx); [|split_and!|done].
  - split_and!; [done..|]. by rewrite list_insert_id.
  - by left.
  - by left.
  - by rewrite Hu.
  - by rewrite Hu.
  - done.
Qed.

Lemma scan_not_shutdown s t c :
  inv s → clients s !! t = Some c → in_scan c = true → shutdown_ (pool s) = false.
Proof.
  intros Hi Ht Hc. destruct (shutdown_ (pool s)) eqn:E; [|done].
  destruct (inv_shutdown _ Hi E) as [_ Hf]. rewrite Forall_lookup in Hf. by rewrite (Hf _ _ Ht) in Hc.
Qed.

(** ** Preservation: the threads *)

Ltac own Hi Ht := destruct (inv_own _ _ _ _ Hi Ht eq_refl) as (x & Hx & Hu & Hc).

Lemma inv_client s t c l p' c' :
  inv s → clients s !! t = Some c → client_step l (pool s) c = Some (p', c') →
  inv (mkSystem p' (<[t := c']> (clients s)) (janitor s) (closer s)).
Proof.
  intros Hi Ht Hs.
  assert (in_scan c = true → shutdown_ (pool s) = true → False) as Hsc.
  { intros Hc Hsd. by rewrite (scan_not_shutdown _ _ _ Hi Ht Hc) in Hsd. }
  destruct c, l; simplify_eq/=; try (destruct (_ <? _)%nat; simplify_eq/=).
  (* idle, exhausted and the guards of [acquire_slot] *)
  all: try (by apply (inv_client_free _ _ _ _ _ Hi Ht); [split_and!|..|naive_solver]).
  - (* AEnter *)
    apply (inv_client_free _ _ _ _ _ Hi Ht); [by split_and!|done|by case_match|by case_match].
  - (* AFree, compare and exchange *)
    destruct (compare_exchange _ _ _ _) as [won p1] eqn:E. simplify_eq.
    apply compare_exchange_cases in E as [(-> & x & Hx & Hf & Hch)|[-> ->]].
    + eapply inv_client_slot; [done..|exact Hch| |naive_solver]. split_and!; simpl; [right|left| | |]; [|done..|].
      * split_and!; [done|by left|]. by eapply scan_not_shutdown.
      * by apply (inv_slot _ Hi _ _ Hx).
    + by apply (inv_client_free _ _ _ _ _ Hi Ht); [split_and!|..|naive_solver].
  - (* AInactive *)
    destruct (compare_exchange _ _ _ _) as [won p1] eqn:E. simplify_eq.
    apply compare_exchange_cases in E as [(-> & x & Hx & Hf & Hch)|[-> ->]].
    + eapply inv_client_slot; [done..|exact Hch| |naive_solver]. split_and!; simpl; [right|left|done..].
      * split_and!; [done|by right|]. by eapply scan_not_shutdown.
      * done.
    + by apply (inv_client_free _ _ _ _ _ Hi Ht); [split_and!|..|naive_solver].
  - (* ACreate *)
    destruct (create_connection _ _) as [r p1] eqn:E. simplify_eq. own Hi Ht.
    apply (inv_client_keep _ _ _ _ _ _ x Hi Ht eq_refl); [by case_match|done|by eapply create_connection_same| |].
    + by case_match.
    + naive_solver.
  - (* ADead *)
    own Hi Ht. eapply inv_client_slot; [done..|by apply store_status_changes| |naive_solver].
    split_and!; [by left|by right|done..].
  - (* AReplace: read the connection *)
    own Hi Ht. apply (inv_client_keep _ _ _ _ _ _ x Hi Ht eq_refl); [done..| |naive_solver].
    simpl. by rewrite (load_conn_eq _ _ _ Hx).
  - (* AFinish: close it *)
    own Hi Ht. by apply (inv_client_keep _ _ _ _ _ _ x Hi Ht eq_refl).
  - (* AStoreConn: store the new one *)
    own Hi Ht. eapply inv_client_slot; [done..|by apply store_conn_changes| |naive_solver].
    split_and!; [by left|by left|simpl; by rewrite Hu|simpl; by rewrite Hu|by eexists].
  - (* ASetHint *)
    own Hi Ht. by apply (inv_client_keep _ _ _ _ _ _ x Hi Ht eq_refl).
  - (* Leased, do_cleanup *)
    own Hi Ht. rewrite Hx in Hs. simplify_eq. eapply inv_client_slot; [done..|by apply set_holder_changes| |done].
    split_and!; [by left|by left|simpl; by rewrite Hu|simpl; by rewrite Hu|done].
  - (* Leased, reset *)
    own Hi Ht. rewrite Hx in Hs. destruct (run_cleanup_sql _ _ _) as [[clean h] sent] eqn:E. simplify_eq.
    destruct (run_cleanup_sql_conn status_ok exec_ok (holder x)) as [Ec Ei]. rewrite E in Ec, Ei. simpl in Ec, Ei.
    eapply inv_client_slot; [done..|by apply set_holder_changes| |done].
    split_and!; [by left|by left|simpl; by rewrite Hu|simpl; by rewrite Hu|]. simpl. rewrite Ec. by intros _.
  - (* RStore *)
    own Hi Ht. eapply inv_client_slot; [done..|by apply store_status_changes| |done].
    split_and!; [by left|right| | |done]; simpl; destruct clean; try done. intros _. by apply Hc.
Qed.

(** A slot nobody has leased changes, and with it the janitor or the thread in
    [shutdown]. *)
Lemma inv_unleased_slot s p' j' k' i x x' :
  inv s → slots_ (pool s) !! i = Some x → changes (pool s) p' i x' →
  status x ≠ USED → status x' ≠ USED → status x' ≠ WAITING →
  (status x' = FREE → is_Some (conn_ (holder x'))) →
  (∀ i', janitor_owner j' = Some i' → i' = i ∧ status x' = DEAD ∧ janitor_relies j' (conn_ (holder x'))) →
  (shutdown_ (pool s) = true → j' = JStopped) →
  match k' with
  | SLoad _ | SStore _ => shutdown_ (pool s) = true
  | _ => True
  end → (∀ i', k' = SStore i' → k' = closer s ∨ i' = i) →
  inv (mkSystem p' (clients s) j' k').
Proof.
  intros [] Hi (Hcfg & Hsh & Hsl) Hu Hu' Hw Hf Hj Hq Hk Hk'.
  assert (i < length (slots_ (pool s)))%nat as Hil by by eapply lookup_lt_Some.
  assert (∀ d, owner p' d = owner (pool s) d) as Eo by (intros; by apply owner_config).
  split; simpl; rewrite ?Hcfg, ?Hsh, ?Hsl; unfold capacity in *; rewrite ?Hcfg, ?length_insert; try done.
  - intros i1 x1 H1 H2. apply list_lookup_insert_Some in H1 as [(-> & -> & _)|(Hne & H1)]; [done|].
    setoid_rewrite Eo. eauto.
  - intros t c i1 H1 H2. rewrite Eo in H2. destruct (inv_owned0 _ _ _ H1 H2) as (x1 & E1 & E2 & E3).
    rewrite list_lookup_insert_ne; [eauto|]. congruence.
  - intros t t' c c' i1. rewrite !Eo. eauto.
  - intros i1 x1 H1. apply list_lookup_insert_Some in H1 as [(-> & -> & _)|(Hne & H1)]; eauto.
  - intros i1 H1. destruct (Hj _ H1) as (-> & Hd & Hc). rewrite list_lookup_insert_eq by done. eauto.
  - intros Hs. split; [by apply Hq|]. by destruct (inv_shutdown0 Hs).
  - destruct k' as [| |i1|]; try done. split; [done|]. destruct (decide (i1 = i)) as [->|Hne].
    + rewrite list_lookup_insert_eq by done. eauto.
    + destruct (Hk' _ eq_refl) as [E|]; [|done]. rewrite <- E in inv_closer0.
      destruct inv_closer0 as (_ & x1 & E1 & E2). rewrite list_lookup_insert_ne by done. eauto.
Qed.

(** The janitor or the thread in [shutdown] moves without touching a slot. *)
Lemma inv_others_same s p' j' k' :
  inv s → same (pool s) p' →
  (∀ i', janitor_owner j' = Some i' →
     ∃ x, slots_ (pool s) !! i' = Some x ∧ status x = DEAD ∧ janitor_relies j' (conn_ (holder x))) →
  (shutdown_ (pool s) = true → j' = JStopped) →
  match k' with
  | SLoad _ => shutdown_ (pool s) = true
  | SStore i => shutdown_ (pool s) = true ∧ ∃ x, slots_ (pool s) !! i = Some x ∧ status x ≠ USED
  | _ => True
  end →
  inv (mkSystem p' (clients s) j' k').
Proof.
  intros [] (Hcfg & Hsh & Hsl) Hj Hq Hk.
  assert (∀ d, owner p' d = owner (pool s) d) as Eo by (intros; by apply owner_config).
  split; simpl; rewrite ?Hcfg, ?Hsh, ?Hsl; unfold capacity in *; rewrite ?Hcfg; try done.
  - setoid_rewrite Eo. eauto.
  - intros t c i1. rewrite Eo. eauto.
  - intros t t' c c' i1. rewrite !Eo. eauto.
  - intros Hs. split; [by apply Hq|]. by destruct (inv_shutdown0 Hs).
Qed.

Lemma janitor_not_shutdown s l p' j' :
  inv s → janitor_step l (pool s) (janitor s) = Some (p', j') → shutdown_ (pool s) = false.
Proof.
  intros Hi Hs. destruct (shutdown_ (pool s)) eqn:E; [|done].
  destruct (inv_shutdown _ Hi E) as [Hj _]. by rewrite Hj in Hs.
Qed.

(** What the janitor does to a slot that is FREE or DEAD. *)
Lemma inv_janitor_slot s p' j' i x x' :
  inv s → shutdown_ (pool s) = false → slots_ (pool s) !! i = Some x → changes (pool s) p' i x' →
  status x ≠ USED → status x' ≠ USED → status x' ≠ WAITING →
  (status x' = FREE → is_Some (conn_ (holder x'))) → janitor_relies j' (conn_ (holder x')) →
  (janitor_owner j' = None ∨ janitor_owner j' = Some i ∧ status x' = DEAD) →
  inv (mkSystem p' (clients s) j' (closer s)).
Proof.
  intros Hi Hsd Hx Hch Hu Hu' Hw Hf Hr Hj. pose proof (inv_closer _ Hi) as Hk.
  apply (inv_unleased_slot _ _ _ _ _ _ _ Hi Hx Hch); auto; [|congruence|].
  - intros i' Hi'. destruct Hj as [|[Hj Hd]]; [congruence|]. simplify_eq. split_and!; auto.
  - by destruct (closer s); [|by rewrite Hk in Hsd|by destruct Hk; congruence|].
Qed.

(** The janitor moves on without a slot. *)
Lemma inv_janitor_move s j' :
  inv s → shutdown_ (pool s) = false → janitor_owner j' = None →
  inv (mkSystem (pool s) (clients s) j' (closer s)).
Proof.
  intros Hi Hsd Hj. apply (inv_others_same _ _ _ _ Hi); [by split_and!|congruence|congruence|].
  apply (inv_closer _ Hi).
Qed.

Ltac jown Hi Ej := destruct (inv_janitor _ Hi _ ltac:(rewrite Ej; reflexivity)) as (x & Hx & Hd & Hc);
  rewrite Ej in Hc; cbn [janitor_relies] in Hc.

Lemma inv_janitor_step s l p' j' :
  inv s → janitor_step l (pool s) (janitor s) = Some (p', j') →
  inv (mkSystem p' (clients s) j' (closer s)).
Proof.
  intros Hi Hs. pose proof (janitor_not_shutdown _ _ _ _ Hi Hs) as Hsd.
  destruct (janitor s) eqn:Ej, l; simplify_eq/=.
  all: try by apply inv_janitor_move.
  - (* the head of the loop *)
    destruct (slots_ (pool s) !! i) as [x|] eqn:Hx; simplify_eq; [|by apply inv_janitor_move].
    apply (inv_others_same _ _ _ _ Hi); [by split_and!| |congruence|apply (inv_closer _ Hi)].
    intros i' Hi'. exists x. by destruct (status x) eqn:E; simplify_eq/=.
  - (* the health check *)
    destruct (slots_ (pool s) !! i) as [x|] eqn:Hx; simplify_eq.
    apply inv_janitor_move; [done..|]. by repeat case_match.
  - (* FREE to DEAD *)
    destruct (compare_exchange _ _ _ _) as [won p1] eqn:E. simplify_eq.
    apply compare_exchange_cases in E as [(-> & x & Hx & Hf & Hch)|[-> ->]]; [|by apply inv_janitor_move].
    apply (inv_janitor_slot _ _ _ _ _ _ Hi Hsd Hx Hch); simpl; try congruence; by auto.
  - (* a new connection *)
    destruct (create_connection _ _) as [r p1] eqn:E. simplify_eq. jown Hi Ej.
    apply (inv_others_same _ _ _ _ Hi); [by eapply create_connection_same| |congruence|apply (inv_closer _ Hi)].
    intros i' Hi'. exists x. by simplify_eq/=.
  - (* read the old one *)
    jown Hi Ej. apply (inv_others_same _ _ _ _ Hi); [by split_and!| |congruence|apply (inv_closer _ Hi)].
    intros i' Hi'. exists x. simplify_eq/=. by rewrite (load_conn_eq _ _ _ Hx).
  - (* close it *)
    jown Hi Ej. apply (inv_others_same _ _ _ _ Hi); [by split_and!| |congruence|apply (inv_closer _ Hi)].
    intros i' Hi'. exists x. by simplify_eq/=.
  - (* store the new one *)
    jown Hi Ej. apply (inv_janitor_slot _ _ _ _ _ _ Hi Hsd Hx (store_conn_changes _ _ _ _ Hx));
      simpl; try congruence; destruct c; simpl; by eauto.
  - jown Hi Ej. apply (inv_janitor_slot _ _ _ _ _ _ Hi Hsd Hx (store_status_changes _ _ _ _ Hx));
      simpl; try congruence; by eauto.
  - jown Hi Ej. apply (inv_janitor_slot _ _ _ _ _ _ Hi Hsd Hx (store_status_changes _ _ _ _ Hx));
      simpl; try congruence; by eauto.
Qed.

Lemma inv_closer_step s l p' k' :
  inv s → (closer s = SIdle → quiet s) → closer_step l (pool s) (closer s) = Some (p', k') →
  inv (mkSystem p' (clients s) (janitor s) k').
Proof.
  intros Hi Hq Hs. pose proof (inv_closer _ Hi) as Hk.
  assert (shutdown_ (pool s) = true → janitor s = JStopped) as Hj by (intros H; by destruct (inv_shutdown _ Hi H)).
  destruct (closer s) eqn:Ek, l; simplify_eq/=.
  - (* the exchange *)
    destruct (Hq eq_refl) as [Hjs Hf]. destruct Hi. split; simpl; try done.
    destruct (shutdown_ (pool s)); done.
  - destruct (slots_ (pool s) !! i) as [x|] eqn:Hx; simplify_eq;
      apply (inv_others_same _ _ _ _ Hi); try done; try (by rewrite (Hj Hk)).
    destruct (active x) eqn:Ha; [done|]. split; [done|]. exists x. split; [done|].
    intros E. unfold active in Ha. by rewrite E in Ha.
  - destruct Hk as (Hsd & x & Hx & Hu).
    apply (inv_unleased_slot _ _ _ _ _ _ _ Hi Hx (store_status_changes _ _ _ _ Hx)); try done.
    by rewrite (Hj Hsd).
Qed.

Lemma inv_step s s' : inv s → pool_step true s s' → inv s'.
Proof.
  intros Hi Hs. destruct Hs; [by eapply inv_client|by eapply inv_janitor_step|eapply inv_closer_step; eauto].
Qed.

(** ** The initial state *)

Definition slot_ok (x : SlotHolder) : Prop :=
  status x ≠ USED ∧ status x ≠ WAITING ∧ (status x = FREE → is_Some (conn_ (holder x))).

Lemma open_slots_ok oks n i p :
  (i + n ≤ length (slots_ p))%nat → Forall slot_ok (slots_ p) →
  let p' := open_slots oks n i p in
  pool_config_ p' = pool_config_ p ∧ shutdown_ p' = shutdown_ p ∧
  length (slots_ p') = length (slots_ p) ∧ Forall slot_ok (slots_ p').
Proof.
  revert i p. induction n as [|n IH]; intros i p Hn Hok; [done|]. cbn [open_slots].
  destruct (create_connection (oks i) p) as [c p1] eqn:E.
  destruct (create_connection_same _ _ _ _ E) as (E1 & E2 & E3).
  destruct (lookup_lt_is_Some_2 (slots_ p) i) as [x Hx]; [lia|]. rewrite <- E3 in Hx.
  set (p2 := match c with Some _ => _ | None => _ end).
  assert (∃ x', changes p1 p2 i x' ∧ slot_ok x') as (x' & (C1 & C2 & C3) & Hx').
  { subst p2. destruct c as [c|].
    - destruct (replace_conn_changes p1 i x (Some c) Hx) as (R1 & R2 & R3).
      assert (slots_ (replace_conn p1 i (Some c)) !! i = Some (with_conn (Some c) x)) as Hr.
      { rewrite R3. apply list_lookup_insert_eq. by eapply lookup_lt_Some. }
      destruct (store_status_changes _ i _ FREE Hr) as (S1 & S2 & S3).
      exists (with_status FREE (with_conn (Some c) x)). split; [|by split_and!].
      split_and!; [congruence..|]. rewrite S3, R3. apply list_insert_insert_eq.
    - eexists. split; [by apply store_status_changes|]. by split_and!. }
  destruct (IH (S i) p2) as (H1 & H2 & H3 & H4).
  - rewrite C3, length_insert, E3. lia.
  - rewrite C3, E3. by apply Forall_insert.
  - rewrite H1, H2, H3, C1, C2, C3, length_insert, E1, E2, E3. done.
Qed.

Lemma make_pool_ok oks c :
  valid_config c →
  pool_config_ (make_pool oks c) = c ∧ shutdown_ (make_pool oks c) = false ∧
  length (slots_ (make_pool oks c)) = Z.to_nat (capacity_ c) ∧ Forall slot_ok (slots_ (make_pool oks c)).
Proof.
  intros (Hk & Hm & _). unfold make_pool.
  destruct (open_slots_ok oks (Z.to_nat (min_connections_ c)) 0
    (mkPool c (replicate (Z.to_nat (capacity_ c)) fresh_slot) 0 false 0 [])) as (H1 & H2 & H3 & H4); simpl.
  - rewrite length_replicate. lia.
  - by apply Forall_replicate.
  - rewrite H1, H2, H3. simpl. by rewrite length_replicate.
Qed.

Lemma idle_client n t c : replicate n Idle !! t = Some c → c = Idle.
Proof. by intros [-> _]%lookup_replicate. Qed.

Lemma pool_inv_initial oks c n : valid_config c → inv (pool_initial oks c n).
Proof.
  intros Hc. destruct (make_pool_ok oks c Hc) as (H1 & H2 & H3 & H4). rewrite Forall_lookup in H4.
  split; simpl; rewrite ?H1; try done.
  - unfold capacity. by rewrite H1.
  - intros i x Hx Hu. by destruct (H4 _ _ Hx) as [].
  - by intros t d i ->%idle_client.
  - by intros t t' d d' i ->%idle_client.
  - intros i x Hx. by destruct (H4 _ _ Hx) as (_ & ? & ?).
  - by rewrite H2.
Qed.

Lemma pool_inv_reachable oks c n s : valid_config c → pool_reachable true oks c n s → inv s.
Proof.
  intros Hc Hr. apply (rtc_preserved inv _ _ _ inv_step Hr). by apply pool_inv_initial.
Qed.

(** ** Accounting for the connections *)

Definition slot_conns (p : Pool) : list nat := omap (λ x, conn_ (holder x)) (slots_ p).

(** The connections in local variables, and those that are closed and still in a
    slot: between [PQfinish] and the store, [conn_] is a dangling pointer. *)
Definition pendings (s : system) : list nat :=
  omap pending (clients s) ++ option_list (janitor_pending (janitor s)).
Definition stales (s : system) : list nat :=
  omap stale (clients s) ++ option_list (janitor_stale (janitor s)).

(** Every connection opened so far is in exactly one place: closed, in a slot, or
    in a local variable of one thread; the stale ones are in two. *)
Definition accounted (s : system) : Prop :=
  seq 0 (connected (pool s)) ++ stales s ≡ₚ finished (pool s) ++ slot_conns (pool s) ++ pendings s.

Lemma omap_insert_perm {A B} (f : A → option B) (l : list A) i x y :
  l !! i = Some x → omap f (<[i := y]> l) ++ option_list (f x) ≡ₚ omap f l ++ option_list (f y).
Proof.
  revert i. induction l as [|z l IH]; intros [|i] H; simplify_eq/=.
  - destruct (f x), (f y); simpl; rewrite ?app_nil_r; try done.
    + rewrite <- !Permutation_middle, !app_nil_r. by apply Permutation_swap.
    + by rewrite <- Permutation_middle, app_nil_r.
    + by rewrite <- Permutation_middle, app_nil_r.
  - destruct (f z); simpl; [f_equiv|]; by apply IH.
Qed.

Lemma omap_insert_same {A B} (f : A → option B) (l : list A) i x y :
  l !! i = Some x → f y = f x → omap f (<[i := y]> l) = omap f l.
Proof.
  revert i. induction l as [|z l IH]; intros [|i] H E; simplify_eq/=; [by rewrite E|].
  by rewrite (IH i).
Qed.

Lemma slot_conns_same p p' i x x' :
  slots_ p !! i = Some x → changes p p' i x' → conn_ (holder x') = conn_ (holder x) →
  slot_conns p' = slot_conns p.
Proof.
  intros Hx (_ & _ & Hs) E. unfold slot_conns. rewrite Hs.
  by apply (omap_insert_same (λ x, conn_ (holder x)) _ _ x).
Qed.

(** Storing a pointer drops what was in the slot. *)
Lemma store_conn_accounts p i x c :
  slots_ p !! i = Some x →
  slot_conns (store_conn p i c) ++ option_list (conn_ (holder x)) ≡ₚ slot_conns p ++ option_list c.
Proof.
  intros Hx. destruct (store_conn_changes p i x c Hx) as (_ & _ & Hs). unfold slot_conns. rewrite Hs.
  apply (omap_insert_perm (λ x, conn_ (holder x)) _ _ _ (with_conn c x) Hx).
Qed.

Lemma replace_conn_accounts p i x c :
  slots_ p !! i = Some x →
  finished (replace_conn p i c) ++ slot_conns (replace_conn p i c) ≡ₚ finished p ++ slot_conns p ++ option_list c.
Proof.
  intros Hx. pose proof (store_conn_accounts (finish_conn p (load_conn p i)) i x c Hx) as Hp.
  unfold replace_conn. simpl. rewrite (load_conn_eq _ _ _ Hx) in *. unfold slot_conns in *. simpl in *.
  rewrite <- Hp. solve_Permutation.
Qed.

(** The share of [accounted] that is in the pool. *)
Definition balance (p : Pool) : list nat := finished p ++ slot_conns p.

Lemma accounted_client s t c c' p' new :
  accounted s → clients s !! t = Some c →
  seq 0 (connected p') ≡ₚ seq 0 (connected (pool s)) ++ new →
  balance (pool s) ++ option_list (pending c) ++ new ++ option_list (stale c') ≡ₚ
    balance p' ++ option_list (pending c') ++ option_list (stale c) →
  accounted (mkSystem p' (<[t := c']> (clients s)) (janitor s) (closer s)).
Proof.
  unfold accounted, balance, pendings, stales. simpl. intros Ha Ht Hn Hb.
  pose proof (omap_insert_perm pending _ _ _ c' Ht) as Hp.
  pose proof (omap_insert_perm stale _ _ _ c' Ht) as Hs.
  apply (Permutation_app_inv_r (option_list (stale c) ++ option_list (pending c))). rewrite Hn.
  set (jp := option_list (janitor_pending (janitor s))) in *.
  set (js := option_list (janitor_stale (janitor s))) in *.
  transitivity ((omap stale (<[t:=c']> (clients s)) ++ option_list (stale c)) ++
    seq 0 (connected (pool s)) ++ new ++ js ++ option_list (pending c)); [solve_Permutation|]. rewrite Hs.
  transitivity ((seq 0 (connected (pool s)) ++ omap stale (clients s) ++ js) ++ option_list (stale c') ++
    new ++ option_list (pending c)); [solve_Permutation|]. rewrite Ha.
  transitivity (((finished (pool s) ++ slot_conns (pool s)) ++ option_list (pending c) ++ new ++
    option_list (stale c')) ++ omap pending (clients s) ++ jp); [solve_Permutation|]. rewrite Hb.
  transitivity ((omap pending (clients s) ++ option_list (pending c')) ++ (finished p' ++ slot_conns p') ++
    jp ++ option_list (stale c)); [solve_Permutation|]. rewrite <- Hp. solve_Permutation.
Qed.

Lemma accounted_janitor s j' p' new :
  accounted s →
  seq 0 (connected p') ≡ₚ seq 0 (connected (pool s)) ++ new →
  balance (pool s) ++ option_list (janitor_pending (janitor s)) ++ new ++ option_list (janitor_stale j') ≡ₚ
    balance p' ++ option_list (janitor_pending j') ++ option_list (janitor_stale (janitor s)) →
  accounted (mkSystem p' (clients s) j' (closer s)).
Proof.
  unfold accounted, balance, pendings, stales. simpl. intros Ha Hn Hb. rewrite Hn.
  apply (Permutation_app_inv_r (option_list (janitor_stale (janitor s)))).
  transitivity ((seq 0 (connected (pool s)) ++ omap stale (clients s) ++
    option_list (janitor_stale (janitor s))) ++ new ++ option_list (janitor_stale j')); [solve_Permutation|].
  rewrite Ha.
  transitivity (((finished (pool s) ++ slot_conns (pool s)) ++ option_list (janitor_pending (janitor s)) ++ new ++
    option_list (janitor_stale j')) ++ omap pending (clients s)); [solve_Permutation|].
  rewrite Hb. solve_Permutation.
Qed.

(** *** What the operations do to the balance *)

Lemma compare_exchange_keeps p i e d won p' :
  compare_exchange p i e d = (won, p') → connected p' = connected p ∧ balance p' = balance p.
Proof.
  unfold compare_exchange. destruct (slots_ p !! i) as [x|] eqn:E; [|by intros [= <- <-]].
  case_decide; intros [= <- <-]; [|done]. split; [done|]. unfold balance. f_equal.
  by apply (slot_conns_same _ _ i x (with_status d x)); [|apply store_status_changes|].
Qed.

Lemma store_status_keeps p i s : balance (store_status p i s) = balance p.
Proof.
  unfold balance. f_equal. destruct (slots_ p !! i) as [x|] eqn:E.
  - by apply (slot_conns_same _ _ i x (with_status s x)); [|apply store_status_changes|].
  - unfold store_status, slot_conns, with_slots. simpl. by rewrite alter_out_of_range.
Qed.

Lemma set_holder_keeps p i x h :
  slots_ p !! i = Some x → conn_ h = conn_ (holder x) → balance (set_holder p i h) = balance p.
Proof.
  intros Hx Hh. unfold balance. f_equal.
  by apply (slot_conns_same _ _ i x (with_holder h x)); [|apply set_holder_changes|].
Qed.

Lemma create_connection_accounts ok p r p' :
  create_connection ok p = (r, p') →
  seq 0 (connected p') = seq 0 (connected p) ++ option_list r ∧ balance p' = balance p.
Proof.
  unfold create_connection. destruct ok; intros [= <- <-]; simpl; [|by rewrite app_nil_r].
  split; [|done]. change (0 :: seq 1 (connected p))%nat with (seq 0 (S (connected p))). by rewrite seq_S.
Qed.

(** *** Preservation *)

(** A step of a client that neither opens nor closes a connection. *)
Lemma accounted_client_same s t c c' p' :
  accounted s → clients s !! t = Some c → connected p' = connected (pool s) → balance p' = balance (pool s) →
  pending c' = pending c → stale c' = stale c →
  accounted (mkSystem p' (<[t := c']> (clients s)) (janitor s) (closer s)).
Proof.
  intros Ha Ht Hc Hb Hp Hst. apply (accounted_client _ _ _ _ _ [] Ha Ht).
  - by rewrite Hc, app_nil_r.
  - by rewrite Hb, Hp, Hst.
Qed.

Lemma accounted_client_step s t c l p' c' :
  inv s → accounted s → clients s !! t = Some c → client_step l (pool s) c = Some (p', c') →
  accounted (mkSystem p' (<[t := c']> (clients s)) (janitor s) (closer s)).
Proof.
  intros Hi Ha Ht Hs.
  destruct c, l; simplify_eq/=; try (destruct (_ <? _)%nat; simplify_eq/=).
  all: try (by apply (accounted_client_same _ _ _ _ _ Ha Ht)).
  - apply (accounted_client_same _ _ _ _ _ Ha Ht); try done; by case_match.
  - destruct (compare_exchange _ _ _ _) as [won p1] eqn:E. simplify_eq.
    apply compare_exchange_keeps in E as [E1 E2].
    apply (accounted_client_same _ _ _ _ _ Ha Ht); try done; by destruct won.
  - destruct (compare_exchange _ _ _ _) as [won p1] eqn:E. simplify_eq.
    apply compare_exchange_keeps in E as [E1 E2].
    apply (accounted_client_same _ _ _ _ _ Ha Ht); try done; by destruct won.
  - destruct (create_connection _ _) as [r p1] eqn:E. simplify_eq.
    apply create_connection_accounts in E as [E1 E2].
    apply (accounted_client _ _ _ _ _ (option_list r) Ha Ht); [by rewrite E1|]. rewrite E2. by destruct r.
  - apply (accounted_client_same _ _ _ _ _ Ha Ht); [done|apply store_status_keeps|done..].
  - (* AFinish *)
    apply (accounted_client _ _ _ _ _ [] Ha Ht); [by rewrite app_nil_r|].
    unfold balance. simpl. change (slot_conns (finish_conn (pool s) old)) with (slot_conns (pool s)).
    solve_Permutation.
  - (* AStoreConn *)
    own Hi Ht. simpl in Hc. subst old. pose proof (store_conn_accounts _ _ _ (Some c) Hx) as Hp.
    apply (accounted_client _ _ _ _ _ [] Ha Ht); [by rewrite app_nil_r|].
    unfold balance. simpl in *. change (finished (store_conn _ _ _)) with (finished (pool s)).
    rewrite <- !app_assoc. f_equiv. simpl. by rewrite Hp.
  - destruct (slots_ (pool s) !! idx) as [x|] eqn:Hx; simplify_eq.
    by apply (accounted_client_same _ _ _ _ _ Ha Ht); [|eapply set_holder_keeps|..].
  - destruct (slots_ (pool s) !! idx) as [x|] eqn:Hx; [|done].
    pose proof (run_cleanup_sql_conn status_ok exec_ok (holder x)) as [Hc _].
    destruct (run_cleanup_sql _ _ _) as [[clean h] sent]. simplify_eq/=.
    by apply (accounted_client_same _ _ _ _ _ Ha Ht); [|eapply set_holder_keeps|..].
  - apply (accounted_client_same _ _ _ _ _ Ha Ht); [done|apply store_status_keeps|done..].
Qed.

Lemma accounted_janitor_same s j' p' :
  accounted s → connected p' = connected (pool s) → balance p' = balance (pool s) →
  janitor_pending j' = janitor_pending (janitor s) → janitor_stale j' = janitor_stale (janitor s) →
  accounted (mkSystem p' (clients s) j' (closer s)).
Proof.
  intros Ha Hc Hb Hp Hst. apply (accounted_janitor _ _ _ [] Ha).
  - by rewrite Hc, app_nil_r.
  - by rewrite Hb, Hp, Hst.
Qed.

Lemma accounted_janitor_step s l p' j' :
  inv s → accounted s → janitor_step l (pool s) (janitor s) = Some (p', j') →
  accounted (mkSystem p' (clients s) j' (closer s)).
Proof.
  intros Hi Ha Hs.
  destruct (janitor s) eqn:Ej, l; simplify_eq/=.
  all: try (by apply (accounted_janitor_same _ _ _ Ha); rewrite ?Ej).
  all: try (by apply (accounted_janitor_same _ _ _ Ha); rewrite ?Ej; [|apply store_status_keeps|..]).
  - destruct (slots_ (pool s) !! i) as [x|] eqn:Hx; simplify_eq;
      apply (accounted_janitor_same _ _ _ Ha); rewrite ?Ej; try done; by destruct (status x).
  - destruct (slots_ (pool s) !! i) as [x|] eqn:Hx; simplify_eq.
    apply (accounted_janitor_same _ _ _ Ha); rewrite ?Ej; try done; by repeat case_match.
  - destruct (compare_exchange _ _ _ _) as [won p1] eqn:E. simplify_eq.
    apply compare_exchange_keeps in E as [E1 E2].
    apply (accounted_janitor_same _ _ _ Ha); rewrite ?Ej; try done; by destruct won.
  - destruct (create_connection _ _) as [r p1] eqn:E. simplify_eq.
    apply create_connection_accounts in E as [E1 E2].
    apply (accounted_janitor _ _ _ (option_list r) Ha); [by rewrite E1|]. by rewrite E2, Ej.
  - (* JFinish *)
    apply (accounted_janitor _ _ _ [] Ha); [by rewrite app_nil_r|]. rewrite Ej.
    unfold balance. simpl. change (slot_conns (finish_conn (pool s) old)) with (slot_conns (pool s)).
    solve_Permutation.
  - (* JStoreConn *)
    jown Hi Ej. subst old. pose proof (store_conn_accounts _ _ _ c Hx) as Hp.
    apply (accounted_janitor _ _ _ [] Ha); [by rewrite app_nil_r|]. rewrite Ej.
    unfold balance. simpl in *. change (finished (store_conn _ _ _)) with (finished (pool s)).
    transitivity (finished (pool s) ++ slot_conns (pool s) ++ option_list c).
    { rewrite <- app_assoc. do 2 f_equiv. by destruct c. }
    rewrite <- Hp, app_assoc. f_equiv. by destruct c.
Qed.

(** The steps keep the configuration and the number of slots. *)
Definition shape (p p' : Pool) : Prop :=
  pool_config_ p' = pool_config_ p ∧ length (slots_ p') = length (slots_ p).

Lemma store_status_shape p i s : shape p (store_status p i s).
Proof. split; [done|]. apply length_alter. Qed.
Lemma set_holder_shape p i h : shape p (set_holder p i h).
Proof. split; [done|]. apply length_alter. Qed.
Lemma store_conn_shape p i c : shape p (store_conn p i c).
Proof. split; [done|]. apply length_alter. Qed.
Lemma replace_conn_shape p i c : shape p (replace_conn p i c).
Proof. split; [done|]. apply length_alter. Qed.
Lemma compare_exchange_shape p i e d won p' : compare_exchange p i e d = (won, p') → shape p p'.
Proof.
  unfold compare_exchange. destruct (slots_ p !! i); [|by intros [= <- <-]].
  case_decide; intros [= <- <-]; [apply store_status_shape|done].
Qed.
Lemma create_connection_shape ok p r p' : create_connection ok p = (r, p') → shape p p'.
Proof. intros (E1 & _ & E3)%create_connection_same. split; [done|]. by rewrite E3. Qed.

Create HintDb pool_shape.
#[local] Hint Resolve store_status_shape set_holder_shape store_conn_shape replace_conn_shape compare_exchange_shape
  create_connection_shape : pool_shape.
#[local] Hint Extern 1 (shape _ _) => split; reflexivity : pool_shape.

Ltac destruct_results :=
  repeat match goal with
  | H : context [match slots_ ?p !! ?i with _ => _ end] |- _ => destruct (slots_ p !! i) eqn:?
  | H : context [match compare_exchange ?p ?i ?e ?d with _ => _ end] |- _ =>
      destruct (compare_exchange p i e d) eqn:?
  | H : context [match create_connection ?ok ?p with _ => _ end] |- _ => destruct (create_connection ok p) eqn:?
  | H : context [match run_cleanup_sql ?a ?b ?h with _ => _ end] |- _ =>
      destruct (run_cleanup_sql a b h) as [[? ?] ?]
  | H : context [if (?a <? ?b)%nat then _ else _] |- _ => destruct (a <? b)%nat eqn:?
  end; simplify_eq/=.

Lemma client_shape l p c p' c' : client_step l p c = Some (p', c') → shape p p'.
Proof. intros H. destruct c, l; simplify_eq/=; destruct_results; eauto with pool_shape. Qed.

Lemma janitor_shape l p j p' j' : janitor_step l p j = Some (p', j') → shape p p'.
Proof. intros H. destruct j, l; simplify_eq/=; destruct_results; eauto with pool_shape. Qed.

Lemma closer_shape l p k p' k' : closer_step l p k = Some (p', k') → shape p p'.
Proof. intros H. destruct k, l; simplify_eq/=; destruct_results; eauto with pool_shape. Qed.

Lemma capacity_shape p p' : shape p p' → capacity p' = capacity p.
Proof. intros [E _]. unfold capacity. by rewrite E. Qed.

Lemma accounted_closer s l p' k' :
  accounted s → closer_step l (pool s) (closer s) = Some (p', k') →
  accounted (mkSystem p' (clients s) (janitor s) k').
Proof.
  unfold accounted, stales, pendings. simpl. intros Ha Hs.
  assert (connected p' = connected (pool s) ∧ balance p' = balance (pool s)) as [E1 E2].
  { destruct (closer s), l; simplify_eq/=; destruct_results; try done. split; [done|]. apply store_status_keeps. }
  unfold balance in E2. rewrite E1, Ha, !(app_assoc (finished _)), E2. done.
Qed.

Lemma pool_accounted_step s s' : inv s → accounted s → pool_step true s s' → accounted s'.
Proof.
  intros Hi Ha Hs. destruct Hs as [s t c l p' c' Ht Hs|s l p' j' Hs|s l p' k' _ Hs].
  - by eapply accounted_client_step.
  - by eapply accounted_janitor_step.
  - by eapply accounted_closer.
Qed.

Lemma open_slots_accounts oks n i p :
  (i + n ≤ length (slots_ p))%nat → seq 0 (connected p) ≡ₚ balance p →
  seq 0 (connected (open_slots oks n i p)) ≡ₚ balance (open_slots oks n i p).
Proof.
  revert i p. induction n as [|n IH]; intros i p Hn Hb; [done|]. cbn [open_slots].
  destruct (create_connection (oks i) p) as [c p1] eqn:E.
  pose proof (create_connection_accounts _ _ _ _ E) as [E1 E2].
  destruct (create_connection_shape _ _ _ _ E) as [_ E3].
  apply IH.
  - destruct c; simpl; rewrite ?length_alter; lia.
  - destruct (lookup_lt_is_Some_2 (slots_ p1) i) as [x Hx]; [lia|].
    destruct c as [c|]; rewrite store_status_keeps; simpl;
      rewrite E1, Hb, <- E2; simpl; [|by rewrite app_nil_r].
    unfold balance. by rewrite (replace_conn_accounts _ _ _ _ Hx), app_assoc.
Qed.

Lemma omap_idle {A} (f : client_pc → option A) n : f Idle = None → omap f (replicate n Idle) = [].
Proof. intros E. induction n as [|n IH]; [done|]. simpl. by rewrite E. Qed.

Lemma omap_fresh n : omap (λ x, conn_ (holder x)) (replicate n fresh_slot) = [].
Proof. by induction n. Qed.

Lemma accounted_initial oks c n : valid_config c → accounted (pool_initial oks c n).
Proof.
  intros Hc. unfold accounted, stales, pendings. simpl. rewrite !omap_idle, !app_nil_r by done.
  apply open_slots_accounts; simpl.
  - rewrite length_replicate. destruct Hc as (_ & ? & _). lia.
  - unfold balance, slot_conns. simpl. by rewrite omap_fresh.
Qed.

Lemma elem_of_option_list {A} (o : option A) x : x ∈ option_list o ↔ o = Some x.
Proof. destruct o; simpl; [rewrite list_elem_of_singleton; naive_solver|]. split; [by intros ?%elem_of_nil|done]. Qed.

(** A stale connection is closed; this in every schedule. *)
Definition stale_closed (s : system) : Prop := ∀ k, k ∈ stales s → k ∈ finished (pool s).

Lemma elem_of_stales s k :
  k ∈ stales s ↔ (∃ t i c, clients s !! t = Some (AStoreConn i c (Some k))) ∨
                 ∃ i c, janitor s = JStoreConn i c (Some k).
Proof.
  unfold stales. rewrite elem_of_app, list_elem_of_omap, elem_of_option_list. split.
  - intros [(d & [t Ht]%list_elem_of_lookup_1 & Ed)|Ej]; [left|right].
    + destruct d; simplify_eq/=. by eauto.
    + destruct (janitor s); simplify_eq/=. by eauto.
  - intros [(t & i & c & Ht)|(i & c & ->)]; [left|by right].
    eexists. split; [by eapply list_elem_of_lookup_2|done].
Qed.

Lemma finished_client l p c p' c' k :
  client_step l p c = Some (p', c') → k ∈ finished p → k ∈ finished p'.
Proof.
  intros H Hk. destruct c, l; simplify_eq/=; destruct_results; try done; unfold compare_exchange, create_connection in *;
    repeat (case_match; simplify_eq/=); try done. apply elem_of_app. by right.
Qed.

Lemma finished_janitor l p j p' j' k :
  janitor_step l p j = Some (p', j') → k ∈ finished p → k ∈ finished p'.
Proof.
  intros H Hk. destruct j, l; simplify_eq/=; destruct_results; try done; unfold compare_exchange, create_connection in *;
    repeat (case_match; simplify_eq/=); try done. apply elem_of_app. by right.
Qed.

Lemma stale_closed_step b s s' : stale_closed s → pool_step b s s' → stale_closed s'.
Proof.
  intros Hc Hs k. specialize (Hc k). rewrite elem_of_stales in *.
  destruct Hs as [s t c l p' c' Ht Hs|s l p' j' Hs|s l p' k' _ Hs]; simpl.
  - intros [(t1 & i & d & Ht1)|Hj]; [|by eapply finished_client; [done|]; auto].
    apply list_lookup_insert_Some in Ht1 as [(-> & -> & _)|(_ & Ht1)];
      [|eapply finished_client; [done|]; apply Hc; left; by eauto].
    destruct c, l; simplify_eq/=; destruct_results; repeat case_match; simplify_eq/=. by left.
  - intros [Ht|(i & d & ->)]; [by eapply finished_janitor; [done|]; auto|].
    destruct (janitor s), l; simplify_eq/=; destruct_results; repeat case_match; simplify_eq/=. by left.
  - intros Hk. assert (finished p' = finished (pool s)) as ->; [|auto].
    destruct (closer s), l; simplify_eq/=; by destruct_results.
Qed.

(** What an orderly run keeps of the books. *)
Record books (s : system) : Prop := {
  bk_inv : inv s;
  bk_accounted : accounted s;
  bk_stale : stale_closed s;
}.

Lemma books_reachable oks c n s : valid_config c → pool_reachable true oks c n s → books s.
Proof.
  intros Hc Hr. refine (rtc_preserved books _ _ _ _ Hr _).
  - intros s1 s2 [H1 H2 H3] Hs. split; [by eapply inv_step|by eapply pool_accounted_step|by eapply stale_closed_step].
  - split; [by apply pool_inv_initial|by apply accounted_initial|]. intros k [(t & i & d & Ht)|Hj]%elem_of_stales.
    + by apply idle_client in Ht.
    + by destruct Hj as (i & d & ?).
Qed.

(** *** Where a connection is *)

Lemma NoDup_omap_excl {A B} (f : A → option B) (l : list A) :
  (∀ t t' a a' b, l !! t = Some a → l !! t' = Some a' → f a = Some b → f a' = Some b → t = t') →
  NoDup (omap f l).
Proof.
  induction l as [|a l IH]; intros Hx; [constructor|]. simpl.
  assert (NoDup (omap f l)) as Hn.
  { apply IH. intros t t' c c' b H1 H2 H3 H4. specialize (Hx (S t) (S t') c c' b H1 H2 H3 H4). lia. }
  destruct (f a) as [b|] eqn:Ea; [|done]. apply NoDup_cons. split; [|done].
  rewrite list_elem_of_omap. intros (c & [t Ht]%list_elem_of_lookup_1 & Ec).
  by specialize (Hx O (S t) a c b eq_refl Ht Ea Ec).
Qed.

(** The slots that hold a stale connection, with it. *)
Definition stale_slot (c : client_pc) : option (nat * nat) :=
  match c with AStoreConn i _ (Some k) => Some (i, k) | _ => None end.
Definition janitor_stale_slot (j : janitor_pc) : option (nat * nat) :=
  match j with JStoreConn i _ (Some k) => Some (i, k) | _ => None end.
Definition stale_slots (s : system) : list (nat * nat) :=
  omap stale_slot (clients s) ++ option_list (janitor_stale_slot (janitor s)).

Lemma stale_slots_stales s : (stale_slots s).*2 = stales s.
Proof.
  unfold stale_slots, stales. rewrite fmap_app. f_equal.
  - induction (clients s) as [|d l IH]; [done|]. destruct d as [| | | | | | | | |? ? [k|]| | | |]; simpl; try done. by f_equal.
  - by destruct (janitor s) as [| | | | | | |? ? [k|]| | |].
Qed.

(** Connections in distinct slots are a part of all of them. *)
Lemma conns_of_slots (ps : list (nat * nat)) (l : list SlotHolder) :
  NoDup ps.*1 → (∀ i k, (i, k) ∈ ps → ∃ x, l !! i = Some x ∧ conn_ (holder x) = Some k) →
  ∃ rest, omap (λ x, conn_ (holder x)) l ≡ₚ ps.*2 ++ rest.
Proof.
  revert l. induction ps as [|[i k] ps IH]; intros l Hn Hl; [by exists (omap (λ x, conn_ (holder x)) l)|].
  rewrite fmap_cons in Hn. apply NoDup_cons in Hn as [Hi Hn]. destruct (Hl i k) as (x & Hx & Hk); [by left|].
  destruct (IH (<[i := fresh_slot]> l) Hn) as [rest Hr].
  { intros j m Hj. rewrite list_lookup_insert_ne; [apply Hl; by right|]. intros ->. apply Hi.
    apply list_elem_of_fmap. by exists (j, m). }
  exists rest. pose proof (omap_insert_perm (λ x, conn_ (holder x)) _ _ _ fresh_slot Hx) as Hp.
  simpl in Hp. rewrite Hk, app_nil_r in Hp. rewrite <- Hp, Hr. simpl. solve_Permutation.
Qed.

Lemma stale_slots_NoDup s : inv s → NoDup (stale_slots s).*1.
Proof.
  intros Hi. unfold stale_slots. rewrite fmap_app. apply NoDup_app. split_and!.
  - assert ((omap stale_slot (clients s)).*1 = omap (λ c, fst <$> stale_slot c) (clients s)) as ->.
    { induction (clients s) as [|d l IH]; [done|]. simpl. destruct (stale_slot d); simpl; [by f_equal|done]. }
    apply NoDup_omap_excl. intros t t' d d' i H1 H2 H3 H4.
    assert (∀ d, fst <$> stale_slot d = Some i → owner (pool s) d = Some i) as Ho.
    { intros e He. destruct e as [| | | | | | | | |? ? [k|]| | | |]; by simplify_eq/=. }
    by apply (inv_excl _ Hi t t' d d' i); auto.
  - intros i (p & -> & (d & [t Ht]%list_elem_of_lookup_1 & Ed)%list_elem_of_omap)%list_elem_of_fmap Hj.
    destruct d as [| | | | | | | | |? ? [k|]| | | |]; simplify_eq/=.
    destruct (inv_owned _ Hi _ _ _ Ht eq_refl) as (x & Hx & Hu & _).
    destruct (janitor s) as [| | | | | | |? ? [k'|]| | |] eqn:Ej; simplify_eq/=;
      try (by apply elem_of_nil in Hj). apply list_elem_of_singleton in Hj. subst.
    edestruct (inv_janitor _ Hi) as (y & Hy & Hd & _); [by rewrite Ej|]. congruence.
  - destruct (janitor_stale_slot (janitor s)); simpl; [apply NoDup_singleton|constructor].
Qed.

Lemma stale_slot_conn s i k :
  inv s → (i, k) ∈ stale_slots s → ∃ x, slots_ (pool s) !! i = Some x ∧ conn_ (holder x) = Some k.
Proof.
  intros Hi [(d & [t Ht]%list_elem_of_lookup_1 & Ed)%list_elem_of_omap|Hj]%elem_of_app.
  - destruct d as [| | | | | | | | |? ? [k'|]| | | |]; simplify_eq/=.
    destruct (inv_owned _ Hi _ _ _ Ht eq_refl) as (x & Hx & _ & Hc). by eauto.
  - apply elem_of_option_list in Hj. destruct (janitor s) as [| | | | | | |? ? [k'|]| | |] eqn:Ej; simplify_eq/=.
    edestruct (inv_janitor _ Hi) as (y & Hy & _ & Hc); [by rewrite Ej|]. rewrite Ej in Hc. by eauto.
Qed.

(** Connections in slots where nothing is being replaced are open, each in its
    place. *)
Lemma live_conns s (ps : list (nat * nat)) :
  inv s → accounted s → NoDup (ps.*1 ++ (stale_slots s).*1) →
  (∀ i k, (i, k) ∈ ps → ∃ x, slots_ (pool s) !! i = Some x ∧ conn_ (holder x) = Some k) →
  ∃ rest, seq 0 (connected (pool s)) ≡ₚ finished (pool s) ++ ps.*2 ++ pendings s ++ rest.
Proof.
  intros Hi Ha Hn Hp. unfold accounted in Ha.
  destruct (conns_of_slots (ps ++ stale_slots s) (slots_ (pool s))) as [rest Hr].
  - by rewrite fmap_app.
  - intros i k [?|?]%elem_of_app; [by apply Hp|by apply stale_slot_conn].
  - fold (slot_conns (pool s)) in Hr. exists rest. rewrite Hr, fmap_app, stale_slots_stales in Ha.
    apply (Permutation_app_inv_r (stales s)). rewrite Ha. solve_Permutation.
Qed.
