(* ===== verification/ConnectionPoolTheorems.v ===== *)
(** * The lock-free connection pool: what it promises

    The theorems about the concurrent pool, from the invariants of
    [ConnectionPoolSafety.v], the schedule in which [shutdown] breaks a lease,
    and the sequential behaviour of [acquire_slot]. *)

From S2P Require Import Prelude Bytes PoolConfig ConnectionPool ConnectionPoolSafety.
From stdpp Require Import list relations sets.

Local Open Scope Z_scope.

(** A pool of two slots, one of them opened at once. *)
Definition small_config : PoolConfig := Builder.min_connections 1 (Builder.capacity 2 default_config).
Lemma small_config_valid : valid_config small_config.
Proof. by apply validate_ok; vm_compute. Qed.

(** ** Running schedules *)

Inductive thread : Type := Client (t : nat) | Janitor | Closer.

Definition run_step (s : system) (who : thread) (l : label) : option system :=
  match who with
  | Client t =>
      c ← clients s !! t; '(p', c') ← client_step l (pool s) c;
      Some (mkSystem p' (<[t := c']> (clients s)) (janitor s) (closer s))
  | Janitor => '(p', j') ← janitor_step l (pool s) (janitor s); Some (mkSystem p' (clients s) j' (closer s))
  | Closer => '(p', k') ← closer_step l (pool s) (closer s); Some (mkSystem p' (clients s) (janitor s) k')
  end.

Fixpoint run_schedule (sch : list (thread * label)) (s : system) : option system :=
  match sch with
  | [] => Some s
  | (who, l) :: sch' => s' ← run_step s who l; run_schedule sch' s'
  end.

Lemma run_step_sound s who l s' : run_step s who l = Some s' → pool_step false s s'.
Proof.
  destruct who as [t| |]; simpl; intros H.
  - destruct (clients s !! t) as [c|] eqn:Ht; simplify_eq/=.
    destruct (client_step l (pool s) c) as [[p' c']|] eqn:Hs; simplify_eq/=. by eapply step_client.
  - destruct (janitor_step l _ _) as [[p' j']|] eqn:Hs; simplify_eq/=. by eapply step_janitor.
  - destruct (closer_step l _ _) as [[p' k']|] eqn:Hs; simplify_eq/=. by eapply step_closer.
Qed.

Lemma run_schedule_sound sch s s' : run_schedule sch s = Some s' → rtc (pool_step false) s s'.
Proof.
  revert s. induction sch as [|[who l] sch IH]; simpl; intros s H; [by simplify_eq|].
  destruct (run_step s who l) as [s1|] eqn:E; simplify_eq/=.
  eapply rtc_l; [by eapply run_step_sound|by apply IH].
Qed.

(** The same without a call of [shutdown]: such a schedule is an orderly one. *)
Lemma run_step_orderly s who l s' : who ≠ Closer → run_step s who l = Some s' → pool_step true s s'.
Proof.
  destruct who as [t| |]; simpl; intros Hw H; [| |done].
  - destruct (clients s !! t) as [c|] eqn:Ht; simplify_eq/=.
    destruct (client_step l (pool s) c) as [[p' c']|] eqn:Hs; simplify_eq/=. by eapply step_client.
  - destruct (janitor_step l _ _) as [[p' j']|] eqn:Hs; simplify_eq/=. by eapply step_janitor.
Qed.

Lemma run_schedule_orderly sch s s' :
  Forall (λ e, e.1 ≠ Closer) sch → run_schedule sch s = Some s' → rtc (pool_step true) s s'.
Proof.
  revert s. induction sch as [|[who l] sch IH]; simpl; intros s Hf H; [by simplify_eq|].
  apply Forall_cons_1 in Hf as [Hw Hf].
  destruct (run_step s who l) as [s1|] eqn:E; simplify_eq/=.
  eapply rtc_l; [by eapply run_step_orderly|by apply IH].
Qed.

(** ** Leases *)

(** How many clients have claimed a slot. *)
Definition leases (s : system) : nat := length (omap (owner (pool s)) (clients s)).

Definition used_slots (ss : list SlotHolder) : list nat :=
  filter (λ i, status <$> ss !! i = Some USED) (seq 0 (length ss)).

Lemma filter_ext_in {A} (P Q : A → Prop) `{!∀ x, Decision (P x), !∀ x, Decision (Q x)} (l : list A) :
  (∀ x, x ∈ l → P x ↔ Q x) → filter P l = filter Q l.
Proof.
  induction l as [|x l IH]; intros Hl; [done|]. rewrite !filter_cons, IH by (intros; apply Hl; by right).
  pose proof (Hl x ltac:(left)). repeat case_decide; try done; exfalso; tauto.
Qed.

Lemma filter_active ss :
  (∀ i x, ss !! i = Some x → status x ≠ WAITING) → length (filter active ss) = length (used_slots ss).
Proof.
  unfold used_slots. intros Hw.
  induction ss as [|x ss IH] using rev_ind; [done|].
  rewrite filter_app, length_app, last_length, seq_S, filter_app, length_app.
  rewrite IH; [|intros i y Hy; apply (Hw i); by apply lookup_app_l_Some]. f_equal.
  - f_equal. apply filter_ext_in. intros i [_ Hi]%elem_of_seq. by rewrite lookup_app_l by done.
  - assert ((ss ++ [x]) !! length ss = Some x) as Hx by by apply list_lookup_middle.
    pose proof (Hw _ _ Hx) as Hnw. unfold filter. simpl. rewrite Hx. simpl.
    unfold active. by destruct (status x); repeat case_decide.
Qed.

Lemma leases_exact s : inv s → active_count (pool s) = leases s.
Proof.
  intros Hi. unfold active_count, leases. rewrite filter_active by apply (inv_slot _ Hi).
  apply Permutation_length, NoDup_Permutation.
  - apply NoDup_filter, NoDup_seq.
  - apply NoDup_omap_excl. apply (inv_excl _ Hi).
  - intros i. unfold used_slots. rewrite list_elem_of_filter, list_elem_of_omap. split.
    + intros [H1 _]. destruct (slots_ (pool s) !! i) as [x|] eqn:Hx; simplify_eq/=.
      destruct (inv_used _ Hi _ _ Hx H1) as (t & c & Ht & Ho). exists c. split; [|done].
      by eapply list_elem_of_lookup_2.
    + intros (c & [t Ht]%list_elem_of_lookup_1 & Ho).
      destruct (inv_owned _ Hi _ _ _ Ht Ho) as (x & Hx & Hu & _). rewrite Hx. simpl. rewrite Hu. split; [done|].
      apply elem_of_seq. apply lookup_lt_Some in Hx. lia.
Qed.

(** A slot in which nobody is between [PQfinish] and the store. *)
Definition settled (s : system) (i : nat) : Prop :=
  (∀ t c old, clients s !! t ≠ Some (AStoreConn i c old)) ∧ (∀ c old, janitor s ≠ JStoreConn i c old).

Lemma settled_stale s i : settled s i → i ∉ (stale_slots s).*1.
Proof.
  intros [Hc Hj] ([i' k] & -> & Hin)%list_elem_of_fmap. simpl in *. apply elem_of_app in Hin as [Hin|Hin].
  - apply list_elem_of_omap in Hin as (d & [t Ht]%list_elem_of_lookup_1 & Ed).
    destruct d as [| | | | | | | | |? ? [k'|]| | | |]; simplify_eq/=. by eapply Hc.
  - apply elem_of_option_list in Hin.
    destruct (janitor s) as [| | | | | | |? ? [k'|]| | |]; simplify_eq/=. by eapply Hj.
Qed.

Lemma unsettled s i : ¬ settled s i →
  (∃ t c old, clients s !! t = Some (AStoreConn i c old)) ∨ ∃ c old, janitor s = JStoreConn i c old.
Proof.
  intros Hn.
  set (at_store d := match d with AStoreConn i' _ _ => (i' =? i)%nat | _ => false end).
  destruct (decide (Exists (λ d, at_store d = true) (clients s)))
    as [(d & [t Ht]%list_elem_of_lookup_1 & Hd)%Exists_exists|Hno].
  - left. destruct d; try done. apply Nat.eqb_eq in Hd. subst. by eauto.
  - set (j_store := match janitor s with JStoreConn i' _ _ => (i' =? i)%nat | _ => false end).
    destruct j_store eqn:Hj; unfold j_store in Hj.
    + right. destruct (janitor s); try done. apply Nat.eqb_eq in Hj. subst. by eauto.
    + exfalso. apply Hn. split.
      * intros t c old Ht. apply Hno, Exists_exists. eexists. split; [by eapply list_elem_of_lookup_2|].
        apply Nat.eqb_refl.
      * intros c old E. by rewrite E, Nat.eqb_refl in Hj.
Qed.

(** A connection in a settled slot is open, and nowhere else; one in another slot
    is closed. *)
Lemma settled_conn s i x k :
  books s → slots_ (pool s) !! i = Some x → conn_ (holder x) = Some k → settled s i →
  (k ∉ finished (pool s)) ∧ (k ∉ pendings s) ∧
  (∀ i' x', slots_ (pool s) !! i' = Some x' → conn_ (holder x') = Some k → i' = i).
Proof.
  intros [Hi Ha Hst] Hx Hk Hs. pose proof (settled_stale _ _ Hs) as Hni.
  pose proof (stale_slots_NoDup _ Hi) as Hn. pose proof (NoDup_seq 0 (connected (pool s))) as Hseq.
  assert (∀ j m, (j, m) ∈ [(i, k)] → ∃ x, slots_ (pool s) !! j = Some x ∧ conn_ (holder x) = Some m) as Hin.
  { intros j m [= -> ->]%list_elem_of_singleton. by eauto. }
  destruct (live_conns s [(i, k)] Hi Ha) as [rest Hr]; [by constructor|done|].
  rewrite Hr in Hseq. apply NoDup_app in Hseq as (_ & Hd & Hl). simpl in Hd, Hl.
  apply NoDup_cons in Hl as [Hl _].
  assert (k ∉ finished (pool s)) as Hf by (intros H; apply (Hd _ H); by left).
  split_and!; [done|intros H; apply Hl, elem_of_app; by left|]. intros i' x' Hx' Hk'.
  destruct (decide (i' = i)) as [|Hne]; [done|exfalso].
  destruct (decide (i' ∈ (stale_slots s).*1)) as [H'|H'].
  - apply list_elem_of_fmap in H' as ([j m] & -> & Hjm). simpl in *.
    destruct (stale_slot_conn _ _ _ Hi Hjm) as (y & Hy & Hm). simplify_eq.
    apply Hf, Hst. rewrite <- stale_slots_stales. apply list_elem_of_fmap. by exists (j, k).
  - destruct (live_conns s [(i', k); (i, k)] Hi Ha) as [rest' Hr'].
    + simpl. constructor; [|by constructor]. rewrite elem_of_cons. by intros [|].
    + intros j m [[= -> ->]|Hj]%elem_of_cons; [by eauto|by apply Hin].
    + pose proof (NoDup_seq 0 (connected (pool s))) as Hseq. rewrite Hr' in Hseq.
      apply NoDup_app in Hseq as (_ & _ & Hseq). simpl in Hseq. apply NoDup_cons in Hseq as [Hseq _].
      apply Hseq. by left.
Qed.

(** C22: as long as [shutdown] is called in good order, the lock-free pool never
    leaks a connection, never closes one twice and never replaces a slot's
    connection in two threads at once, although [replace_conn] reads [conn_],
    closes what it read and stores the new pointer in three separate steps.  In
    every interleaving of any number of clients with the janitor and [shutdown]:
    the connections opened so far are, each once, the closed ones, those in the
    slots and those in local variables, where a connection closed by a thread that
    has not yet stored the new one is still in its slot too; no connection was
    closed twice; a slot in which no thread is between closing and storing has an
    open connection that is in no other slot, or none; and at most one thread is
    inside [replace_conn] of a slot, whose pointer is then the one it has read. *)
Theorem pool_connections_accounted (oks : nat → bool) (c : PoolConfig) (threads : nat) (s : system) :
  valid_config c → pool_reachable true oks c threads s →
  accounted s ∧ NoDup (finished (pool s)) ∧
  (∀ i x k, slots_ (pool s) !! i = Some x → conn_ (holder x) = Some k → settled s i →
     (k ∉ finished (pool s)) ∧
     (∀ i' x', slots_ (pool s) !! i' = Some x' → conn_ (holder x') = Some k → i' = i)) ∧
  (∀ k, k ∈ pendings s → (k ∉ finished (pool s)) ∧ k ∉ slot_conns (pool s)) ∧
  (∀ t i k old, clients s !! t = Some (AFinish i k old) ∨ clients s !! t = Some (AStoreConn i k old) →
     load_conn (pool s) i = old ∧ janitor_owner (janitor s) ≠ Some i ∧
     ∀ t' d, clients s !! t' = Some d → owner (pool s) d = Some i → t' = t).
Proof.
  intros Hc Hr. pose proof (books_reachable _ _ _ _ Hc Hr) as Hb. pose proof Hb as [Hi Ha Hst].
  destruct (live_conns s [] Hi Ha) as [rest Hrest]; [by apply stale_slots_NoDup|by intros ?? ?%elem_of_nil|].
  pose proof (NoDup_seq 0 (connected (pool s))) as Hn. rewrite Hrest in Hn.
  apply NoDup_app in Hn as (Hf & Hd & Hn). split_and!; [done..| | |].
  - intros i x k Hx Hk Hs. destruct (settled_conn _ _ _ _ Hb Hx Hk Hs) as (H1 & _ & H2). done.
  - intros k Hk. assert (k ∉ finished (pool s)) as Hkf.
    { intros Hin. apply (Hd _ Hin). simpl. apply elem_of_app. by left. }
    split; [done|]. intros (x & [i Hx]%list_elem_of_lookup_1 & Hxk)%list_elem_of_omap.
    assert (¬ settled s i) as Hun.
    { intros Hs. by destruct (settled_conn _ _ _ _ Hb Hx Hxk Hs) as (_ & ? & _). }
    apply Hkf, Hst, elem_of_stales. apply unsettled in Hun as [(t & m & old & Ht)|(m & old & Hj)].
    + left. destruct (inv_owned _ Hi _ _ _ Ht eq_refl) as (y & Hy & _ & Hrel). simplify_eq/=. rewrite Hxk in Ht. by eauto.
    + right. destruct (inv_janitor _ Hi i) as (y & Hy & _ & Hrel); [by rewrite Hj|]. rewrite Hj in Hrel.
      simplify_eq/=. rewrite Hxk in Hj. by eauto.
  - intros t i k old Ht.
    assert (∃ d, clients s !! t = Some d ∧ owner (pool s) d = Some i ∧ ∀ o, relies d o → o = old) as (d & Hd' & Ho & Hrel).
    { destruct Ht as [Ht|Ht]; eexists; (split; [exact Ht|]); by split. }
    destruct (inv_owned _ Hi _ _ _ Hd' Ho) as (x & Hx & Hu & Hx'). split_and!.
    + rewrite (load_conn_eq _ _ _ Hx). by apply Hrel.
    + intros Hj. destruct (inv_janitor _ Hi _ Hj) as (y & Hy & Hdead & _). congruence.
    + intros t' d' Ht' Ho'. by apply (inv_excl _ Hi t' t d' d i).
Qed.

Lemma leased_settled s t idx : inv s → clients s !! t = Some (Leased idx) → settled s idx.
Proof.
  intros Hi Ht. split.
  - intros t' d old Ht'. assert (t' = t) as -> by by eapply (inv_excl _ Hi). congruence.
  - intros d old Hj. destruct (inv_owned _ Hi _ _ _ Ht eq_refl) as (x & Hx & Hu & _).
    destruct (inv_janitor _ Hi idx) as (y & Hy & Hd & _); [by rewrite Hj|]. congruence.
Qed.

(** C21: a lease is exclusive.  When [shutdown] is only called in good order, in
    every interleaving: two clients never hold the same slot; a client that was
    given a slot has a connection there that is open and in no other slot; and
    [active_count()] is exactly the number of claimed slots. *)
Theorem pool_lease_exclusive (oks : nat → bool) (c : PoolConfig) (threads : nat) (s : system) :
  valid_config c → pool_reachable true oks c threads s →
  (∀ t t' idx, clients s !! t = Some (Leased idx) → clients s !! t' = Some (Leased idx) → t = t') ∧
  (∀ t idx, clients s !! t = Some (Leased idx) →
     ∃ x k, slots_ (pool s) !! idx = Some x ∧ status x = USED ∧ conn_ (holder x) = Some k ∧
            (k ∉ finished (pool s)) ∧
            ∀ i' x', slots_ (pool s) !! i' = Some x' → conn_ (holder x') = Some k → i' = idx) ∧
  active_count (pool s) = leases s.
Proof.
  intros Hc Hr. pose proof (pool_inv_reachable _ _ _ _ Hc Hr) as Hi. split_and!.
  - intros t t' idx H1 H2. by eapply (inv_excl _ Hi).
  - intros t idx Ht. destruct (inv_owned _ Hi _ _ _ Ht eq_refl) as (x & Hx & Hu & [k Hk]).
    pose proof (books_reachable _ _ _ _ Hc Hr) as Hb.
    destruct (settled_conn _ _ _ _ Hb Hx Hk (leased_settled _ _ _ Hi Ht)) as (H1 & _ & H2).
    exists x, k. by split_and!.
  - by apply leases_exact.
Qed.

(** ** Witnesses: two clients, each gets a slot of its own *)

Definition two_leases : list (thread * label) :=
  [(Client 0, Call); (Client 1, Call); (Client 0, Tau); (Client 1, Tau); (Client 0, Tau); (Client 1, Tau);
   (Client 0, Tau); (Client 1, Tau); (Client 1, Tau); (Client 1, Tau); (Client 0, Tau);
   (Client 1, Tau); (Client 1, Tau); (Client 1, Connect true); (Client 1, Tau); (Client 1, Tau);
   (Client 1, Tau); (Client 1, Tau)].

Definition start_state : system := pool_initial (λ _, true) small_config 2.
Definition run_to (sch : list (thread * label)) : system := default start_state (run_schedule sch start_state).

Lemma run_to_reachable sch :
  Forall (λ e, e.1 ≠ Closer) sch → pool_reachable true (λ _, true) small_config 2 (run_to sch).
Proof.
  intros Hf. unfold run_to. destruct (run_schedule sch start_state) as [s|] eqn:E; [|apply rtc_refl].
  by eapply run_schedule_orderly.
Qed.

Lemma pool_connections_accounted_witness :
  clients (run_to two_leases) = [Leased 0; Leased 1] ∧ NoDup (finished (pool (run_to two_leases))).
Proof.
  split; [reflexivity|].
  apply (pool_connections_accounted (λ _, true) small_config 2); [apply small_config_valid|].
  apply run_to_reachable. repeat constructor; discriminate.
Defined.

Lemma pool_lease_exclusive_witness :
  clients (run_to two_leases) = [Leased 0; Leased 1] ∧
  active_count (pool (run_to two_leases)) = leases (run_to two_leases).
Proof.
  split; [reflexivity|].
  apply (pool_lease_exclusive (λ _, true) small_config 2); [apply small_config_valid|].
  apply run_to_reachable. repeat constructor; discriminate.
Defined.

(** ** Nobody exchanges a leased connection *)

(** The connection of a slot. *)
Definition conn_at (p : Pool) (i : nat) : option nat := slots_ p !! i ≫= (conn_ ∘ holder).

Lemma conn_at_changes p p' i x x' j :
  slots_ p !! i = Some x → changes p p' i x' → conn_ (holder x') = conn_ (holder x) ∨ j ≠ i →
  conn_at p' j = conn_at p j.
Proof.
  intros Hx (_ & _ & Hs) Hj. unfold conn_at. rewrite Hs. destruct (decide (j = i)) as [->|Hne].
  - destruct Hj as [Hj|]; [|done]. rewrite list_lookup_insert_eq by (by eapply lookup_lt_Some).
    rewrite Hx. simpl. done.
  - by rewrite list_lookup_insert_ne.
Qed.

Lemma conn_at_store p i s j : conn_at (store_status p i s) j = conn_at p j.
Proof.
  destruct (slots_ p !! i) as [x|] eqn:Hx.
  - eapply conn_at_changes; [done|by apply store_status_changes|by left].
  - unfold conn_at, store_status, with_slots. simpl. by rewrite alter_out_of_range.
Qed.

Lemma conn_at_cas p i e d won p' j : compare_exchange p i e d = (won, p') → conn_at p' j = conn_at p j.
Proof.
  intros [(-> & x & Hx & _ & Hch)|[-> ->]]%compare_exchange_cases; [|done].
  eapply conn_at_changes; [done..|by left].
Qed.

Lemma conn_at_create ok p r p' j : create_connection ok p = (r, p') → conn_at p' j = conn_at p j.
Proof. intros (_ & _ & E)%create_connection_same. unfold conn_at. by rewrite E. Qed.

Lemma conn_at_store_conn p i c j : j ≠ i → conn_at (store_conn p i c) j = conn_at p j.
Proof.
  intros Hj. destruct (slots_ p !! i) as [x|] eqn:Hx.
  - eapply conn_at_changes; [done|by apply store_conn_changes|by right].
  - unfold conn_at, store_conn, with_slots. simpl. by rewrite alter_out_of_range.
Qed.

Lemma conn_at_holder p i x h j :
  slots_ p !! i = Some x → conn_ h = conn_ (holder x) → conn_at (set_holder p i h) j = conn_at p j.
Proof. intros Hx Hh. eapply conn_at_changes; [done|by apply set_holder_changes|by left]. Qed.

#[local] Hint Resolve conn_at_store conn_at_cas conn_at_create conn_at_store_conn : pool_shape.

(** Only a client in [replace_conn] and the janitor change a slot's connection. *)
Lemma client_conn_at l p c p' c' j :
  client_step l p c = Some (p', c') → (∀ k old, c ≠ AStoreConn j k old) → conn_at p' j = conn_at p j.
Proof.
  intros H Hr. destruct c, l; simplify_eq/=.
  all: try (destruct (slots_ p !! idx) as [x|] eqn:Hx; simplify_eq/=).
  all: try (by eapply conn_at_holder).
  all: try (pose proof (run_cleanup_sql_conn status_ok exec_ok (holder x)) as [Hc _]).
  all: try (destruct (run_cleanup_sql _ _ _) as [[clean h] sent]; simplify_eq/=; by eapply conn_at_holder).
  all: destruct_results; eauto with pool_shape.
  all: apply conn_at_store_conn; intros ->; by eapply Hr.
Qed.

Lemma janitor_conn_at l p j p' j' i :
  janitor_step l p j = Some (p', j') → janitor_owner j ≠ Some i → conn_at p' i = conn_at p i.
Proof.
  intros H Hr. destruct j, l; simplify_eq/=; destruct_results; eauto with pool_shape.
  all: apply conn_at_store_conn; congruence.
Qed.

Lemma closer_conn_at l p k p' k' i : closer_step l p k = Some (p', k') → conn_at p' i = conn_at p i.
Proof. intros H. destruct k, l; simplify_eq/=; destruct_results; eauto with pool_shape. Qed.

(** Nobody pulls a connection away from its lessee: when [shutdown] is
    only called in good order, no step of any thread changes or closes the
    connection of a slot while a client holds it. *)
Theorem leased_connection_stable (oks : nat → bool) (c : PoolConfig) (threads : nat) (s s' : system) (t idx : nat) :
  valid_config c → pool_reachable true oks c threads s → pool_step true s s' →
  clients s !! t = Some (Leased idx) → clients s' !! t = Some (Leased idx) →
  ∃ k, conn_at (pool s) idx = Some k ∧ conn_at (pool s') idx = Some k ∧ k ∉ finished (pool s').
Proof.
  intros Hc Hr Hs Ht Ht'. pose proof (pool_inv_reachable _ _ _ _ Hc Hr) as Hi.
  destruct (inv_owned _ Hi _ _ _ Ht eq_refl) as (x & Hx & Hu & [k Hk]).
  assert (conn_at (pool s) idx = Some k) as Hat by (unfold conn_at; rewrite Hx; exact Hk).
  assert (conn_at (pool s') idx = conn_at (pool s) idx) as E.
  { destruct Hs as [s t1 c1 l p' c1' H1 Hs|s l p' j' Hs|s l p' k' _ Hs]; simpl in *.
    - eapply client_conn_at; [done|]. intros k1 old ->.
      assert (t = t1) as -> by by eapply (inv_excl _ Hi). congruence.
    - eapply janitor_conn_at; [done|]. intros Hj.
      destruct (inv_janitor _ Hi _ Hj) as (x1 & ? & ? & _). congruence.
    - by eapply closer_conn_at. }
  exists k. split_and!; [done|congruence|].
  assert (books s') as Hb. { eapply books_reachable; [done|]. eapply rtc_r; eauto. }
  rewrite Hat in E. unfold conn_at in E. destruct (slots_ (pool s') !! idx) as [x'|] eqn:Hx'; [|done].
  destruct (settled_conn s' idx x' k Hb Hx' E) as (H1 & _); [|done].
  eapply leased_settled; [apply Hb|done].
Qed.

Lemma leased_connection_stable_witness :
  conn_at (pool (run_to two_leases)) 0 = Some 0%nat ∧
  ∃ k, conn_at (pool (run_to two_leases)) 0 = Some k ∧
       conn_at (pool (run_to (two_leases ++ [(Janitor, Tau)]))) 0 = Some k ∧
       k ∉ finished (pool (run_to (two_leases ++ [(Janitor, Tau)]))).
Proof.
  split; [reflexivity|].
  apply (leased_connection_stable (λ _, true) small_config 2 _ _ 0 0); [apply small_config_valid| | |reflexivity..].
  - apply run_to_reachable. repeat constructor; discriminate.
  - apply (run_step_orderly _ Janitor Tau); [discriminate|reflexivity].
Defined.

(** ** [acquire_slot] is wait-free *)

Definition acquiring (c : client_pc) : bool :=
  match c with
  | AEnter | AHint | AFree _ _ | AInactive _ _ | ACreate _ _ | ADead _ _ | AReplace _ _
  | AFinish _ _ _ | AStoreConn _ _ _ | ASetHint _ => true
  | _ => false
  end.

(** How many steps a client has left in [acquire_slot], at most. *)
Definition steps_left (n : nat) (c : client_pc) : nat :=
  match c with
  | AEnter => 4 * n + 6
  | AHint => 4 * n + 5
  | AFree _ i => (n - i) + 3 * n + 4
  | AInactive _ i => 3 * (n - i) + 3
  | ACreate _ i => 3 * (n - i) + 2
  | ADead _ i => 3 * (n - i) + 1
  | AReplace _ _ => 4
  | AFinish _ _ _ => 3
  | AStoreConn _ _ _ => 2
  | ASetHint _ => 1
  | _ => 0
  end.

(** The iteration a client is in. *)
Definition counter_ok (n : nat) (c : client_pc) : Prop :=
  match c with AFree _ i | AInactive _ i => (i ≤ n)%nat | ACreate _ i | ADead _ i => (i < n)%nat | _ => True end.

Lemma client_counter l p c p' c' :
  client_step l p c = Some (p', c') → counter_ok (capacity p) c → counter_ok (capacity p) c'.
Proof.
  intros H Hc. destruct c, l; simplify_eq/=; destruct_results; repeat case_match; simpl; bool_to_prop; lia || done.
Qed.

Lemma client_decreases l p c p' c' :
  client_step l p c = Some (p', c') → counter_ok (capacity p) c → acquiring c = true →
  (steps_left (capacity p) c' < steps_left (capacity p) c)%nat.
Proof.
  intros H Hc Ha. destruct c, l; simplify_eq/=; destruct_results; repeat case_match; simpl; bool_to_prop; lia.
Qed.

Lemma client_enabled p c : acquiring c = true → ∃ l p' c', client_step l p c = Some (p', c').
Proof.
  intros H. destruct c as [| | |start i|start i|start i|start i|idx k|idx k old|idx k old|idx|idx|idx b|]; try done.
  all: try (by exists Tau; eexists _, _; simpl; eauto).
  - exists Tau. simpl. destruct (_ <? _)%nat; [|eauto]. destruct (compare_exchange _ _ _ _). eauto.
  - exists Tau. simpl. destruct (_ <? _)%nat; [|eauto]. destruct (compare_exchange _ _ _ _). eauto.
  - exists (Connect true). simpl. eauto.
Qed.

Lemma counters_reachable b oks c n s :
  valid_config c → pool_reachable b oks c n s →
  ∀ t d, clients s !! t = Some d → counter_ok (capacity (pool s)) d.
Proof.
  intros Hc Hr.
  refine (rtc_preserved (λ s, ∀ t d, clients s !! t = Some d → counter_ok (capacity (pool s)) d) _ _ _ _ Hr _).
  - intros s1 s2 H Hs. destruct Hs as [s1 t1 c1 l p' c1' H1 Hs|s1 l p' j' Hs|s1 l p' k' _ Hs]; simpl.
    + intros t d. rewrite (capacity_shape _ _ (client_shape _ _ _ _ _ Hs)).
      intros [(-> & -> & _)|(_ & Hd)]%list_lookup_insert_Some; [|by eauto]. by eapply client_counter; eauto.
    + rewrite (capacity_shape _ _ (janitor_shape _ _ _ _ _ Hs)). done.
    + rewrite (capacity_shape _ _ (closer_shape _ _ _ _ _ Hs)). done.
  - by intros t d ->%idle_client.
Qed.

(** C24: [acquire_slot] is wait-free: whatever the other threads do, a client
    inside it can always take its next step, each of its own steps brings it
    closer to the end, and it is never more than [4 * capacity + 6] of its own
    steps away from returning a slot or reporting exhaustion. *)
Theorem acquire_wait_free (orderly : bool) (oks : nat → bool) (c : PoolConfig) (threads : nat) (s : system)
    (t : nat) (d : client_pc) :
  valid_config c → pool_reachable orderly oks c threads s →
  clients s !! t = Some d → acquiring d = true →
  let n := capacity (pool s) in
  (∃ l p' d', client_step l (pool s) d = Some (p', d')) ∧
  (∀ l p' d', client_step l (pool s) d = Some (p', d') →
     capacity p' = n ∧ (steps_left n d' < steps_left n d)%nat) ∧
  (steps_left n d ≤ 4 * n + 6)%nat ∧
  (∀ d', steps_left n d' = 0%nat → acquiring d' = false).
Proof.
  intros Hc Hr Ht Ha n. pose proof (counters_reachable _ _ _ _ _ Hc Hr _ _ Ht) as Hok. split_and!.
  - by apply client_enabled.
  - intros l p' d' Hs. split; [by apply capacity_shape; eapply client_shape|]. by eapply client_decreases.
  - fold n in Hok. destruct d; simpl in *; lia.
  - intros d' Hd. destruct d'; simpl in *; done || lia.
Qed.

Lemma acquire_wait_free_witness :
  let s := run_to [(Client 0, Call)] in
  steps_left (capacity (pool s)) AEnter = 14%nat ∧
  (∃ l p' d', client_step l (pool s) AEnter = Some (p', d')).
Proof.
  split; [reflexivity|].
  apply (acquire_wait_free true (λ _, true) small_config 2 (run_to [(Client 0, Call)]) 0 AEnter);
    [apply small_config_valid| |reflexivity..].
  apply run_to_reachable. repeat constructor; discriminate.
Defined.

(** ** [shutdown] overtakes [acquire_slot] *)

Definition one_config : PoolConfig := Builder.min_connections 1 (Builder.capacity 1 default_config).

(** Two clients are inside [acquire_slot]; [shutdown] reads FREE; the first
    client takes the slot and is given connection 0; [shutdown] stores
    INACTIVE; the second client takes the slot again and replaces the
    connection. *)
Definition overtaking : list (thread * label) :=
  [(Client 0, Call); (Client 1, Call); (Client 0, Tau); (Client 1, Tau); (Client 0, Tau); (Client 1, Tau);
   (Closer, Call); (Closer, Tau);
   (Client 0, Tau); (Client 0, Tau);
   (Client 1, Tau); (Client 1, Tau); (Closer, Tau);
   (Client 1, Tau); (Client 1, Connect true); (Client 1, Tau); (Client 1, Tau); (Client 1, Tau); (Client 1, Tau)].

(** [shutdown] is not safe against a concurrent [acquire_slot]: it reads a
    slot's status and stores INACTIVE in two separate accesses, so that a slot
    claimed in between is handed out a second time; the second client closes
    the connection the first one is using. *)
Theorem shutdown_breaks_lease :
  ∃ s, pool_reachable false (λ _, true) one_config 2 s ∧ valid_config one_config ∧
    clients s = [Leased 0; Leased 0] ∧ finished (pool s) = [0%nat] ∧ conn_at (pool s) 0 = Some 1%nat ∧
    active_count (pool s) = 1%nat.
Proof.
  destruct (run_schedule overtaking (pool_initial (λ _, true) one_config 2)) as [s|] eqn:E; [|by vm_compute in E].
  exists s. split; [by eapply run_schedule_sound|]. split; [by apply validate_ok; vm_compute|].
  vm_compute in E. by simplify_eq.
Qed.

(** Client 0 holds slot 0; clients 1 and 2 are in the second loop of
    [acquire_slot] when [shutdown] reads INACTIVE in slot 1; client 1 claims the
    slot, [shutdown] stores INACTIVE, client 2 claims it too, and both run
    [replace_conn] on it. *)
Definition two_replace : list (thread * label) :=
  (Janitor, Stop) ::
  [(Client 0, Call); (Client 0, Tau); (Client 0, Tau); (Client 0, Tau); (Client 0, Tau)] ++
  [(Client 1, Call); (Client 1, Tau); (Client 1, Tau); (Client 1, Tau); (Client 1, Tau); (Client 1, Tau)] ++
  [(Client 2, Call); (Client 2, Tau); (Client 2, Tau); (Client 2, Tau); (Client 2, Tau); (Client 2, Tau)] ++
  [(Closer, Call); (Closer, Tau); (Closer, Tau); (Client 1, Tau); (Closer, Tau); (Client 2, Tau)] ++
  [(Client 1, Connect true); (Client 2, Connect true); (Client 1, Tau); (Client 2, Tau); (Client 1, Tau);
   (Client 2, Tau); (Client 1, Tau); (Client 2, Tau)].

(** [shutdown] overtakes client 0, which has connection 0; client 1 takes the slot
    and closes connection 0; client 0 gives the slot back as DEAD, and the janitor
    replaces its connection before client 1 has stored the new one. *)
Definition two_finish : list (thread * label) :=
  [(Client 0, Call); (Client 1, Call); (Client 0, Tau); (Client 1, Tau); (Client 0, Tau); (Client 1, Tau);
   (Closer, Call); (Closer, Tau); (Client 0, Tau); (Client 0, Tau); (Client 1, Tau); (Client 1, Tau); (Closer, Tau);
   (Client 1, Tau); (Client 1, Connect true); (Client 1, Tau); (Client 1, Tau);
   (Client 0, Reset false false); (Client 0, Tau);
   (Janitor, Tau); (Janitor, Tau); (Janitor, Connect true); (Janitor, Tau); (Janitor, Tau)].

(** C23: when [shutdown] runs while clients are inside [acquire_slot], the books no
    longer balance: two clients can run [replace_conn] on the same slot, and the
    connection of the one is overwritten by the other, in no slot and in no
    variable, and never closed; and with the janitor running a connection can be
    passed to [PQfinish] twice. *)
Theorem replace_conn_races :
  (∃ s k, pool_reachable false (λ _, true) small_config 3 s ∧ valid_config small_config ∧
     clients s = [Leased 0; ASetHint 1; ASetHint 1] ∧ (k < connected (pool s))%nat ∧
     (k ∉ finished (pool s)) ∧ (k ∉ slot_conns (pool s)) ∧ k ∉ pendings s) ∧
  (∃ s, pool_reachable false (λ _, true) one_config 2 s ∧ valid_config one_config ∧
     finished (pool s) = [0; 0]%nat).
Proof.
  split.
  - destruct (run_schedule two_replace (pool_initial (λ _, true) small_config 3)) as [s|] eqn:E; [|by vm_compute in E].
    exists s, 1%nat. split; [by eapply run_schedule_sound|]. split; [apply small_config_valid|].
    vm_compute in E. injection E as <-. vm_compute. split_and!; [done|lia|..]; by rewrite ?list_elem_of_singleton;
      intros H; repeat (apply elem_of_cons in H as [?|H]; [done|]); apply elem_of_nil in H.
  - destruct (run_schedule two_finish (pool_initial (λ _, true) one_config 2)) as [s|] eqn:E; [|by vm_compute in E].
    exists s. split; [by eapply run_schedule_sound|]. split; [by apply validate_ok; vm_compute|].
    vm_compute in E. by injection E as <-.
Qed.

(** ** [acquire_slot] on its own *)

(** A client that runs without interference, the server answering as [oks] says. *)
Definition alone_label (oks : nat → bool) (p : Pool) (c : client_pc) : label :=
  match c with ACreate start i => Connect (oks (index p start i)) | _ => Tau end.
Definition alone_step (oks : nat → bool) (a b : Pool * client_pc) : Prop :=
  client_step (alone_label oks a.1 a.2) a.1 a.2 = Some b.

Definition outcome (r : option nat) : client_pc := match r with Some idx => Leased idx | None => Exhausted end.

Lemma scan_inactive_alone oks n start i p :
  (i + n = capacity p)%nat →
  let '(r, p') := scan_inactive oks n start i p in
  rtc (alone_step oks) (p, AInactive start i) (p', outcome r).
Proof.
  revert i p. induction n as [|n IH]; intros i p Hn; cbn [scan_inactive].
  { apply rtc_once. unfold alone_step. simpl. destruct (Nat.ltb_spec i (capacity p)); [lia|done]. }
  destruct (compare_exchange p (index p start i) INACTIVE USED) as [won p1] eqn:E.
  pose proof (compare_exchange_shape _ _ _ _ _ _ E) as Hsh.
  assert (alone_step oks (p, AInactive start i) (p1, if won then ACreate start i else AInactive start (S i))) as H1.
  { unfold alone_step. simpl. destruct (Nat.ltb_spec i (capacity p)); [|lia]. by rewrite E. }
  assert (index p1 start i = index p start i) as Ei by by apply index_config, Hsh.
  destruct won.
  - destruct (create_connection (oks (index p start i)) p1) as [r p2] eqn:Ec.
    pose proof (create_connection_shape _ _ _ _ Ec) as Hsh2.
    assert (alone_step oks (p1, ACreate start i)
              (p2, match r with Some c => AReplace (index p1 start i) c | None => ADead start i end)) as H2.
    { unfold alone_step. simpl. by rewrite Ei, Ec. }
    destruct r as [c|].
    + eapply rtc_l; [exact H1|]. eapply rtc_l; [exact H2|]. rewrite Ei.
      do 3 (eapply rtc_l; [by unfold alone_step|]). by eapply rtc_once.
    + specialize (IH (S i) (store_status p2 (index p start i) DEAD)).
      destruct (scan_inactive oks n start (S i) _) as [r' p'].
      eapply rtc_l; [exact H1|]. eapply rtc_l; [exact H2|]. eapply rtc_l; [by unfold alone_step|].
      rewrite (index_config p1 p2), Ei by apply Hsh2. apply IH.
      rewrite (capacity_shape _ _ (store_status_shape _ _ _)), (capacity_shape _ _ Hsh2), (capacity_shape _ _ Hsh). lia.
  - specialize (IH (S i) p1). destruct (scan_inactive oks n start (S i) p1) as [r' p'].
    eapply rtc_l; [exact H1|]. apply IH. rewrite (capacity_shape _ _ Hsh). lia.
Qed.

Lemma scan_free_alone oks n start i p :
  (i + n = capacity p)%nat →
  let '(r, p') := scan_free n start i p in
  rtc (alone_step oks) (p, AFree start i)
    (match r with Some idx => (p', Leased idx) | None => (p', AInactive start 0) end).
Proof.
  revert i p. induction n as [|n IH]; intros i p Hn; cbn [scan_free].
  { apply rtc_once. unfold alone_step. simpl. destruct (Nat.ltb_spec i (capacity p)); [lia|done]. }
  destruct (compare_exchange p (index p start i) FREE USED) as [won p1] eqn:E.
  pose proof (compare_exchange_shape _ _ _ _ _ _ E) as Hsh.
  assert (alone_step oks (p, AFree start i) (p1, if won then ASetHint (index p start i) else AFree start (S i))) as H1.
  { unfold alone_step. simpl. destruct (Nat.ltb_spec i (capacity p)); [|lia]. by rewrite E. }
  destruct won.
  - eapply rtc_l; [exact H1|]. by apply rtc_once.
  - specialize (IH (S i) p1). destruct (scan_free n start (S i) p1) as [r' p'].
    eapply rtc_l; [exact H1|]. apply IH. rewrite (capacity_shape _ _ Hsh). lia.
Qed.

Lemma scan_free_shape n start i p r p' : scan_free n start i p = (r, p') → shape p p'.
Proof.
  revert i p. induction n as [|n IH]; intros i p; cbn [scan_free]; [by intros [= <- <-]|].
  destruct (compare_exchange _ _ _ _) as [won p1] eqn:E. apply compare_exchange_shape in E as [E1 E2].
  destruct won; [intros [= <- <-]; by split|]. intros [H1 H2]%IH. split; congruence.
Qed.

(** The step-by-step client, run without interference, computes exactly
    the function [acquire_slot]: it ends holding the slot the function returns,
    or exhausted, with the same pool. *)
Theorem acquire_slot_steps (oks : nat → bool) (p : Pool) :
  let '(r, p') := acquire_slot oks p in rtc (alone_step oks) (p, AEnter) (p', outcome r).
Proof.
  unfold acquire_slot. destruct (shutdown_ p) eqn:Hs.
  { apply rtc_once. unfold alone_step. simpl. by rewrite Hs. }
  pose proof (scan_free_alone oks (capacity p) (hint_cursor_ p) 0 p eq_refl) as H1.
  destruct (scan_free _ _ _ p) as [r p1] eqn:E.
  assert (rtc (alone_step oks) (p, AEnter) (p, AFree (hint_cursor_ p) 0)) as H0.
  { eapply rtc_l; [unfold alone_step; simpl; by rewrite Hs|]. by apply rtc_once. }
  destruct r as [idx|]; [by etrans|].
  pose proof (capacity_shape _ _ (scan_free_shape _ _ _ _ _ _ E)) as Hc.
  pose proof (scan_inactive_alone oks (capacity p) (hint_cursor_ p) 0 p1 ltac:(lia)) as H2.
  destruct (scan_inactive _ _ _ _ p1) as [r' p']. etrans; [exact H0|]. by etrans.
Qed.

(** ** Which slot [acquire_slot] returns *)

Definition status_at (p : Pool) (i : nat) : option SlotStatus := status <$> slots_ p !! i.

Lemma status_store p i s j : (i < length (slots_ p))%nat →
  status_at (store_status p i s) j = if decide (j = i) then Some s else status_at p j.
Proof.
  intros [x Hx]%lookup_lt_is_Some_2. unfold status_at.
  destruct (store_status_changes p i x s Hx) as (_ & _ & ->). case_decide as Hj.
  - subst. by rewrite list_lookup_insert_eq by (by eapply lookup_lt_Some).
  - by rewrite list_lookup_insert_ne.
Qed.

Lemma compare_exchange_eq p i e d :
  compare_exchange p i e d =
    if decide (status_at p i = Some e) then (true, store_status p i d) else (false, p).
Proof.
  unfold compare_exchange, status_at. destruct (slots_ p !! i) as [x|]; simpl; [|done].
  repeat case_decide; congruence.
Qed.

(** The index visits every slot. *)
Lemma index_mod p start i :
  valid_config (pool_config_ p) → capacity_ (pool_config_ p) < 2 ^ 64 →
  index p start i = Z.to_nat ((start + Z.of_nat i) mod capacity_ (pool_config_ p)).
Proof.
  intros Hv Hlt. unfold index, mask_. rewrite mask_mod by done. f_equal.
  destruct Hv as ((k & Hk & Ek) & _). rewrite Ek in *.
  assert (k < 64) by (apply (Z.pow_lt_mono_r_iff 2); lia). pose proof (Z.pow_pos_nonneg 2 k).
  assert (2 ^ k | 2 ^ 64) as Hd.
  { exists (2 ^ (64 - k)). rewrite <- Z.pow_add_r by lia. f_equal. lia. }
  unfold to_unsigned. rewrite Z.mod_mod_divide by done.
  rewrite Z.add_mod by lia. rewrite (Z.mod_mod_divide start) by done. by rewrite <- Z.add_mod by lia.
Qed.

Lemma index_onto p start j :
  valid_config (pool_config_ p) → capacity_ (pool_config_ p) < 2 ^ 64 → (j < capacity p)%nat →
  ∃ i, (i < capacity p)%nat ∧ index p start i = j.
Proof.
  intros Hv Hlt Hj. unfold capacity in *.
  assert (0 < capacity_ (pool_config_ p)) by lia.
  pose proof (Z.mod_pos_bound (Z.of_nat j - start) (capacity_ (pool_config_ p))).
  exists (Z.to_nat ((Z.of_nat j - start) mod capacity_ (pool_config_ p))). split; [lia|].
  rewrite index_mod by done. rewrite Z2Nat.id by lia. rewrite Zplus_mod_idemp_r.
  replace (start + (Z.of_nat j - start)) with (Z.of_nat j) by lia. rewrite Z.mod_small by lia. lia.
Qed.

Lemma scan_free_spec n start i p :
  (∀ k, (index p start k < length (slots_ p))%nat) →
  match scan_free n start i p with
  | (Some idx, p') =>
      status_at p idx = Some FREE ∧ p' = set_hint (store_status p idx USED) (next_hint p idx) ∧
      ∃ k, (i ≤ k < i + n)%nat ∧ idx = index p start k ∧
           ∀ k', (i ≤ k' < k)%nat → status_at p (index p start k') ≠ Some FREE
  | (None, p') => p' = p ∧ ∀ k, (i ≤ k < i + n)%nat → status_at p (index p start k) ≠ Some FREE
  end.
Proof.
  intros Hr. revert i. induction n as [|n IH]; intros i; cbn [scan_free]; [split; [done|lia]|].
  rewrite compare_exchange_eq. case_decide as Hf.
  - split_and!; [done..|]. exists i. split_and!; [lia..|done|lia].
  - specialize (IH (S i)). destruct (scan_free n start (S i) p) as [[idx|] p'].
    + destruct IH as (H1 & H2 & k & H3 & H4 & H5). split_and!; [done..|]. exists k. split_and!; [lia..|done|].
      intros k' Hk'. destruct (decide (k' = i)) as [->|]; [done|]. apply H5. lia.
    + destruct IH as (-> & H). split; [done|]. intros k Hk. destruct (decide (k = i)) as [->|]; [done|]. apply H. lia.
Qed.

(** What the second loop leaves behind: the slots it could not connect are
    DEAD, the claimed one is USED, the others are as they were. *)
Definition scan_effect (oks : nat → bool) (p p' : Pool) (r : option nat) : Prop :=
  ∀ j, status_at p' j = status_at p j ∧ r ≠ Some j ∨
       status_at p j = Some INACTIVE ∧ oks j = false ∧ status_at p' j = Some DEAD ∨
       status_at p j = Some INACTIVE ∧ oks j = true ∧ status_at p' j = Some USED ∧ r = Some j ∧
       conn_at p' j = Some (connected p).

Lemma replace_conn_status p i c j : status_at (replace_conn p i c) j = status_at p j.
Proof.
  unfold status_at. destruct (slots_ p !! i) as [x|] eqn:Hx.
  2:{ unfold replace_conn, store_conn, with_slots. simpl. by rewrite alter_out_of_range. }
  destruct (replace_conn_changes p i x c Hx) as (_ & _ & ->).
  destruct (decide (j = i)) as [->|].
  - rewrite list_lookup_insert_eq by (by eapply lookup_lt_Some). by rewrite Hx.
  - by rewrite list_lookup_insert_ne.
Qed.

(** An INACTIVE slot claimed and connected. *)
Lemma claim_effect p idx h :
  (idx < length (slots_ p))%nat →
  let p' := set_hint (replace_conn (create_connection true (store_status p idx USED)).2 idx (Some (connected p))) h in
  (∀ j, status_at p' j = if decide (j = idx) then Some USED else status_at p j) ∧
  conn_at p' idx = Some (connected p).
Proof.
  intros Hi p'. set (p2 := (create_connection true (store_status p idx USED)).2). split.
  - intros j. change (status_at (replace_conn p2 idx (Some (connected p))) j = if decide (j = idx) then Some USED else status_at p j).
    rewrite replace_conn_status. change (status_at (store_status p idx USED) j = if decide (j = idx) then Some USED else status_at p j).
    by apply status_store.
  - change (conn_at (replace_conn p2 idx (Some (connected p))) idx = Some (connected p)).
    destruct (lookup_lt_is_Some_2 (slots_ p2) idx) as [x Hx]; [simpl; by rewrite length_alter|].
    destruct (replace_conn_changes p2 idx x (Some (connected p)) Hx) as (_ & _ & E). unfold conn_at.
    by rewrite E, list_lookup_insert_eq by (by eapply lookup_lt_Some).
Qed.

Lemma scan_inactive_spec oks n start i p :
  (∀ k, (index p start k < length (slots_ p))%nat) →
  match scan_inactive oks n start i p with
  | (r, p') =>
      scan_effect oks p p' r ∧
      (r = None → ∀ k, (i ≤ k < i + n)%nat → status_at p (index p start k) = Some INACTIVE →
                  oks (index p start k) = false ∧ status_at p' (index p start k) = Some DEAD) ∧
      (∀ idx, r = Some idx → status_at p idx = Some INACTIVE ∧ oks idx = true)
  end.
Proof.
  revert i p. induction n as [|n IH]; intros i p Hr; cbn [scan_inactive].
  { split_and!; [by left|lia|done]. }
  rewrite compare_exchange_eq. pose proof (Hr i) as Hi. case_decide as Hf.
  - set (idx := index p start i) in *. unfold create_connection. destruct (oks idx) eqn:Ho.
    + split_and!; [|done|by intros ? [= <-]].
      match goal with |- scan_effect _ _ (set_hint _ ?h) _ => destruct (claim_effect p idx h Hi) as [H1 H2] end.
      intros j. specialize (H1 j). case_decide as Hj; [subst j; right; right; by split_and!|]. left. split; [exact H1|congruence].
    + set (p1 := store_status (store_status p idx USED) idx DEAD).
      assert (∀ j, status_at p1 j = if decide (j = idx) then Some DEAD else status_at p j) as Hp1.
      { intros j. unfold p1. rewrite status_store by (simpl; by rewrite length_alter).
        case_decide; [done|]. rewrite status_store by done. by case_decide. }
      assert (∀ k, index p1 start k = index p start k) as Hix by done.
      specialize (IH (S i) p1). destruct (scan_inactive oks n start (S i) p1) as [r p'].
      destruct IH as (H1 & H2 & H3).
      { intros k. rewrite Hix. unfold p1. simpl. by rewrite !length_alter. }
      assert (status_at p' idx = Some DEAD) as Hdead.
      { specialize (H1 idx). rewrite Hp1 in H1. case_decide; [|done].
        destruct H1 as [[H1 _]|[(H1 & _)|(H1 & _)]]; [by rewrite H1|done..]. }
      split_and!.
      * intros j. destruct (decide (j = idx)) as [->|Hj]; [right; left; by split_and!|].
        specialize (H1 j). rewrite Hp1 in H1. change (connected p1) with (connected p) in H1. by case_decide.
      * intros Hn k Hk Hs. destruct (decide (index p start k = idx)) as [->|Hne]; [done|].
        apply (H2 Hn k); [destruct (decide (k = i)) as [->|]; [done|lia]|]. rewrite Hix, Hp1. by case_decide.
      * intros idx' H. destruct (H3 _ H) as [H4 H5]. rewrite Hp1 in H4. case_decide; [done|]. done.
  - specialize (IH (S i) p Hr). destruct (scan_inactive oks n start (S i) p) as [r p'].
    destruct IH as (H1 & H2 & H3). split_and!; [done| |done].
    intros Hn k Hk. destruct (decide (k = i)) as [->|]; [by intros|]. apply (H2 Hn). lia.
Qed.

(** A slot that [acquire_slot] returns is leased. *)
Lemma acquire_slot_used oks p idx p' :
  valid_config (pool_config_ p) → length (slots_ p) = capacity p →
  acquire_slot oks p = (Some idx, p') → status_at p' idx = Some USED.
Proof.
  intros Hv Hlen. unfold acquire_slot. destruct (shutdown_ p); [done|].
  assert (∀ k, (index p (hint_cursor_ p) k < length (slots_ p))%nat) as Hr.
  { intros k. rewrite Hlen. by apply index_lt. }
  pose proof (scan_free_spec (capacity p) (hint_cursor_ p) 0 p Hr) as H1.
  destruct (scan_free _ _ _ p) as [[i|] p1].
  - destruct H1 as (_ & -> & k & _ & -> & _). intros [= <- <-].
    change (status_at (store_status p (index p (hint_cursor_ p) k) USED) (index p (hint_cursor_ p) k) = Some USED).
    rewrite status_store by done. by case_decide.
  - destruct H1 as (-> & _). intros E.
    pose proof (scan_inactive_spec oks (capacity p) (hint_cursor_ p) 0 p Hr) as H2. rewrite E in H2.
    destruct H2 as (He & _ & Hsome). destruct (Hsome idx eq_refl) as [_ Ho].
    destruct (He idx) as [[_ ?]|[(_ & ? & _)|(_ & _ & Hu & _)]]; [done|congruence|done].
Qed.

(** Which slot [acquire_slot] returns, without interference.  It takes the
    first FREE slot from the hint on, with its connection as it is and without
    touching another slot; if no slot is FREE it takes an INACTIVE slot to
    which the server accepts a new connection, and marks DEAD those INACTIVE
    slots for which it did not; it returns an expired pointer exactly when the
    pool is shut down or neither kind of slot exists. *)
Theorem acquire_slot_spec (oks : nat → bool) (p : Pool) :
  valid_config (pool_config_ p) → capacity_ (pool_config_ p) < 2 ^ 64 → length (slots_ p) = capacity p →
  shutdown_ p = false →
  match acquire_slot oks p with
  | (Some idx, p') =>
      status_at p' idx = Some USED ∧
      (status_at p idx = Some FREE ∧ (∀ j, conn_at p' j = conn_at p j) ∧
       (∀ j, j ≠ idx → status_at p' j = status_at p j) ∨
       (∀ j, status_at p j ≠ Some FREE) ∧ status_at p idx = Some INACTIVE ∧ oks idx = true ∧
       conn_at p' idx = Some (connected p) ∧ scan_effect oks p p' (Some idx))
  | (None, p') =>
      (∀ j, status_at p j ≠ Some FREE) ∧ (∀ j, status_at p j = Some INACTIVE → oks j = false) ∧
      (∀ j, status_at p' j = if decide (status_at p j = Some INACTIVE) then Some DEAD else status_at p j)
  end.
Proof.
  intros Hv Hlt Hlen Hs. pose proof (acquire_slot_used oks p) as Hused.
  unfold acquire_slot in *. rewrite Hs in *.
  assert (∀ k, (index p (hint_cursor_ p) k < length (slots_ p))%nat) as Hr.
  { intros k. rewrite Hlen. by apply index_lt. }
  assert (∀ (P : nat → Prop), (∀ k, (k < capacity p)%nat → P (index p (hint_cursor_ p) k)) →
            (∀ j, status_at p j = None → P j) → ∀ j, P j) as Hall.
  { intros P H1 H2 j. destruct (decide (j < capacity p)%nat) as [Hj|Hj].
    - destruct (index_onto p (hint_cursor_ p) j Hv Hlt Hj) as (i & Hi & <-). by apply H1.
    - apply H2. unfold status_at. rewrite lookup_ge_None_2; [done|]. lia. }
  pose proof (scan_free_spec (capacity p) (hint_cursor_ p) 0 p Hr) as H1.
  destruct (scan_free _ _ _ p) as [[idx|] p1].
  - destruct H1 as (Hf & -> & k & Hk & -> & _). split; [by apply Hused|].
    left. split_and!; [done|intros j; apply conn_at_store|]. intros j Hj.
    change (status_at (store_status p (index p (hint_cursor_ p) k) USED) j = status_at p j).
    rewrite status_store by done. by case_decide.
  - destruct H1 as (-> & Hnf).
    assert (∀ j, status_at p j ≠ Some FREE) as Hno.
    { apply Hall; [intros k Hk; apply Hnf; lia|congruence]. }
    pose proof (scan_inactive_spec oks (capacity p) (hint_cursor_ p) 0 p Hr) as H2.
    destruct (scan_inactive _ _ _ _ p) as [[idx|] p2]; destruct H2 as (He & Hn & Hsome).
    + destruct (Hsome idx eq_refl) as [H1 H2]. pose proof (He idx) as Hi.
      destruct Hi as [[_ ?]|[(_ & ? & _)|(_ & _ & Hu & _ & Hc)]]; [done|congruence|].
      split; [by apply Hused|right]. by split_and!.
    + split_and!; [done| |].
      * apply (Hall (λ j, status_at p j = Some INACTIVE → oks j = false)); [|congruence].
        intros k Hk Hst. by apply Hn; [|lia|].
      * intros j. destruct (He j) as [[H1 _]|[(H1 & H2 & H3)|(_ & _ & _ & ? & _)]]; [|by case_decide|done].
        rewrite H1. case_decide as Hd; [|done]. rewrite <- H1. revert j Hd H1.
        apply (Hall (λ j, status_at p j = Some INACTIVE → status_at p2 j = status_at p j → status_at p2 j = Some DEAD));
          [|congruence]. intros k Hk Hst _. by apply Hn; [|lia|].
Qed.

Lemma acquire_slot_spec_witness :
  let p := make_pool (λ i, (i =? 1)%nat) small_config in
  acquire_slot (λ i, (i =? 1)%nat) p = (Some 1%nat, (acquire_slot (λ i, (i =? 1)%nat) p).2) ∧
  match acquire_slot (λ i, (i =? 1)%nat) p with
  | (Some idx, p') => status_at p' idx = Some USED
  | (None, _) => False
  end.
Proof.
  split; [reflexivity|].
  pose proof (acquire_slot_spec (λ i, (i =? 1)%nat) (make_pool (λ i, (i =? 1)%nat) small_config)
    small_config_valid ltac:(vm_compute; reflexivity) ltac:(reflexivity) ltac:(reflexivity)) as H.
  destruct (acquire_slot _ _) as [[idx|] p'] eqn:E; [apply H|]. vm_compute in E. discriminate E.
Defined.

(** ** [shutdown] and [reset] on their own *)

(** After [shutdown] nobody gets a slot: [acquire_slot] and
    [acquire_slot_wait] fail and change nothing; the slots that were not
    borrowed are INACTIVE; and a slot given back later goes back to FREE or DEAD
    without being handed out again. *)
Theorem shutdown_refuses (oks : nat → bool) (oks' : nat → nat → bool) (others : nat → Pool → Pool)
    (timeout : Z) (p : Pool) :
  let q := shutdown p in
  shutdown_ p = false →
  is_shutdown q = true ∧ acquire_slot oks q = (None, q) ∧ acquire_slot_wait oks' others timeout q = (None, q) ∧
  shutdown q = q ∧ active_count q = active_count p ∧ free_count q = 0%nat ∧
  (∀ i a b, acquire_slot oks (reset a b i q) = (None, reset a b i q)).
Proof.
  intros q Hs. assert (shutdown_ q = true) as Hq by (unfold q, shutdown; by rewrite Hs).
  assert (∀ oks' q', shutdown_ q' = true → acquire_slot oks' q' = (None, q')) as Ha.
  { intros oks1 q' H. unfold acquire_slot. by rewrite H. }
  assert (slots_ q = shutdown_slot <$> slots_ p) as Hsl by (unfold q, shutdown; by rewrite Hs).
  split_and!; [done|by apply Ha| | | | |].
  - unfold acquire_slot_wait. rewrite Ha by done. case_match; [done|]. simpl. by rewrite Hq.
  - unfold shutdown at 1. by rewrite Hq.
  - unfold active_count. rewrite Hsl. clear Hsl. induction (slots_ p) as [|x l IH]; [done|].
    cbn [fmap list_fmap]. rewrite !filter_cons.
    assert (active (shutdown_slot x) = active x) as E by (by destruct x as [[] h]).
    case_decide as H1; case_decide as H2; rewrite E in H1; simpl; try done; by f_equal.
  - unfold free_count. rewrite Hsl. clear Hsl. induction (slots_ p) as [|x l IH]; [done|].
    cbn [fmap list_fmap]. rewrite filter_cons.
    assert (status (shutdown_slot x) ≠ FREE) as E by (by destruct x as [[] h]).
    case_decide; [done|]. exact IH.
  - intros i a b. apply Ha. unfold reset. destruct (slots_ q !! i); [|done].
    by destruct (run_cleanup_sql _ _ _) as [[clean h] sent].
Qed.

Lemma shutdown_refuses_witness :
  let p := make_pool (λ _, true) small_config in
  shutdown_ p = false ∧ free_count p = 1%nat ∧ free_count (shutdown p) = 0%nat.
Proof.
  split; [reflexivity|]. split; [reflexivity|].
  apply (shutdown_refuses (λ _, true) (λ _ _, true) (λ _ p, p) 5 (make_pool (λ _, true) small_config)).
  reflexivity.
Defined.

(** ** The health check looks at leased connections *)

(** The janitor reads FREE, the client takes the slot, and the janitor then
    passes the client's connection to libpq. *)
Lemma janitor_checks_leased :
  ∃ s, pool_reachable true (λ _, true) one_config 1 s ∧
    clients s = [Leased 0] ∧ janitor s = JCheck 0 ∧ conn_at (pool s) 0 = Some 0%nat.
Proof.
  destruct (run_schedule [(Janitor, Tau); (Janitor, Tau); (Client 0, Call); (Client 0, Tau); (Client 0, Tau);
    (Client 0, Tau); (Client 0, Tau)] (pool_initial (λ _, true) one_config 1)) as [s|] eqn:E; [|by vm_compute in E].
  exists s. split; [eapply run_schedule_orderly; [|exact E]; repeat constructor; discriminate|].
  vm_compute in E. by simplify_eq.
Qed.
