(* ===== verification/BlockingPool.v ===== *)
(** * The blocking connection pool

    [session/blocking/pool]: a pool protected by one mutex, with a queue of
    waiting callers that mixes blocked threads ([Waiter]) and suspended
    asynchronous operations ([AsyncWaiter]).  Every critical section is one
    step; between the sections of an operation other threads run.  A step is
    an executable function of a label that carries what libpq, the clock and
    the callers decide. *)

From stdpp Require Import relations.
From S2P Require Import Prelude PoolConfig.

Local Open Scope Z_scope.

(** ** State *)

(** A [QueuedHolder] is named by its connection: the holder is created with it
    and keeps it. *)
Record QueuedHolder := mkQueued {
  qid : nat;
  qholder : ConnectionHolder;
}.

(** [WaiterEntry]: the waiting operation of thread [t]. *)
Inductive WaiterEntry : Type :=
  | SyncWaiter (t : nat)
  | AsyncWaiter (t : nat).

(** [opened] counts the connections opened so far. *)
Record BPool := mkBPool {
  pool_cfg_ : PoolConfig;
  holders_ : list QueuedHolder;
  free_ : list nat;
  waiters_ : list WaiterEntry;
  created_ : nat;
  bshutdown_ : bool;
  opened : nat;
}.

Definition bcapacity (p : BPool) : nat := Z.to_nat (capacity_ (pool_cfg_ p)).

(** How a caller waits: not at all, blocked, or suspended; bounded by a timeout
    or not. *)
Inductive mode : Type := MTry | MSync (bounded : bool) | MAsync (bounded : bool).

(** What an asynchronous acquisition reports. *)
Inductive acquire_error : Type := operation_aborted | timed_out.

(** A caller's thread or asynchronous operation. *)
Inductive bclient : Type :=
  | CIdle
  | CEnter (m : mode)                            (** the check before the lock *)
  | CLock (m : mode)                             (** the first critical section *)
  | CCreate (m : mode)                           (** unlocked: [try_create_holder] *)
  | CLocked (m : mode) (r : option nat)          (** locked again *)
  | CWait (bounded : bool) (assigned : option nat)   (** blocked; [ready] iff assigned *)
  | CAsync (bounded : bool) (claimed : bool)     (** suspended *)
  | CPosted (r : nat + acquire_error)            (** the completion handler is posted *)
  | CLeased (k : nat)
  | CRelease (k : nat) (healthy : bool)          (** in [reset], after the clean-up *)
  | CDangling (k : nat)                          (** dereferences a destroyed holder *)
  | CShutdown                                    (** in [shutdown], before the lock *)
  | CFailed (e : option acquire_error).          (** expired pointer, or the error *)

Record bsystem := mkB { bpool : BPool; bclients : list bclient }.

Inductive blabel : Type :=
  | BTau
  | BCall (m : mode)
  | BConnect (ok : bool)
  | BTimeout
  | BSetCleanup (q : CleanupQuery)
  | BReset (status_ok exec_ok still_ok : bool)
  | BShutdown.

Definition set_client (s : bsystem) (t : nat) (c : bclient) : bsystem := mkB (bpool s) (<[t := c]> (bclients s)).
Definition set_pool (s : bsystem) (p : BPool) : bsystem := mkB p (bclients s).

(** ** Pool operations *)

Definition with_free (p : BPool) (fs : list nat) : BPool :=
  mkBPool (pool_cfg_ p) (holders_ p) fs (waiters_ p) (created_ p) (bshutdown_ p) (opened p).
Definition with_waiters (p : BPool) (ws : list WaiterEntry) : BPool :=
  mkBPool (pool_cfg_ p) (holders_ p) (free_ p) ws (created_ p) (bshutdown_ p) (opened p).
Definition with_holders (p : BPool) (hs : list QueuedHolder) (n : nat) : BPool :=
  mkBPool (pool_cfg_ p) hs (free_ p) (waiters_ p) n (bshutdown_ p) (opened p).

(** [try_create_holder] *)
Definition try_create_holder (ok : bool) (p : BPool) : option nat * BPool :=
  if ok
  then (Some (opened p), mkBPool (pool_cfg_ p) (holders_ p) (free_ p) (waiters_ p) (created_ p) (bshutdown_ p)
                                 (S (opened p)))
  else (None, p).

(** [++created_; holders_.push_back(holder)] *)
Definition fresh_holder (k : nat) : QueuedHolder := mkQueued k (mkHolder (Some k) None).
Definition adopt (p : BPool) (k : nat) : BPool := with_holders p (holders_ p ++ [fresh_holder k]) (S (created_ p)).

Fixpoint open_holders (oks : nat → bool) (n i : nat) (p : BPool) : BPool :=
  match n with
  | O => p
  | S n' =>
      let '(r, p1) := try_create_holder (oks i) p in
      open_holders oks n' (S i)
        (match r with
         | Some k => let p2 := adopt p1 k in with_free p2 (free_ p2 ++ [k])
         | None => p1
         end)
  end.
Definition make_blocking_pool (oks : nat → bool) (c : PoolConfig) : BPool :=
  open_holders oks (Z.to_nat (min_connections_ c)) 0 (mkBPool c [] [] [] 0 false 0).

(** [std::erase_if(waiters_, ...)] *)
Definition entry_thread (e : WaiterEntry) : nat := match e with SyncWaiter t | AsyncWaiter t => t end.
Definition erase_waiter (t : nat) (p : BPool) : BPool :=
  with_waiters p (filter (λ e, entry_thread e ≠ t) (waiters_ p)).

(** [drop_dead] *)
Fixpoint erase_holder (k : nat) (hs : list QueuedHolder) : option (list QueuedHolder) :=
  match hs with
  | [] => None
  | h :: hs' => if decide (qid h = k) then Some hs' else (h ::.) <$> erase_holder k hs'
  end.
Definition drop_dead (k : nat) (p : BPool) : BPool :=
  if bshutdown_ p then p
  else match erase_holder k (holders_ p) with
       | Some hs => with_holders p hs (created_ p - 1)
       | None => p
       end.

(** [return_holder]: the head waiter gets the holder; an asynchronous waiter
    that is already claimed is skipped; without a waiter it is parked. *)
Fixpoint hand_over (k : nat) (ws : list WaiterEntry) (cs : list bclient) : option (list WaiterEntry * list bclient) :=
  match ws with
  | [] => None
  | SyncWaiter t :: ws' =>
      Some (ws', alter (λ c, match c with CWait b _ => CWait b (Some k) | _ => c end) t cs)
  | AsyncWaiter t :: ws' =>
      match cs !! t with
      | Some (CAsync b false) => Some (ws', <[t := CPosted (inl k)]> cs)
      | _ => hand_over k ws' cs
      end
  end.
Definition return_holder (k : nat) (s : bsystem) : bsystem :=
  let p := bpool s in
  if bshutdown_ p then s
  else match hand_over k (waiters_ p) (bclients s) with
       | Some (ws, cs) => mkB (with_waiters p ws) cs
       | None => set_pool s (with_free (with_waiters p []) (free_ p ++ [k]))
       end.

(** [shutdown], under the lock: asynchronous waiters are claimed and told, the
    queue and the holders are dropped.  Blocked threads wake up by themselves. *)
Definition abort_waiter (cs : list bclient) (e : WaiterEntry) : list bclient :=
  match e with
  | SyncWaiter _ => cs
  | AsyncWaiter t =>
      alter (λ c, match c with CAsync _ false => CPosted (inr operation_aborted) | _ => c end) t cs
  end.
Definition shutdown_section (s : bsystem) : bsystem :=
  let p := bpool s in
  mkB (mkBPool (pool_cfg_ p) [] [] [] (created_ p) (bshutdown_ p) (opened p))
      (foldl abort_waiter (bclients s) (waiters_ p)).

(** ** Statistics *)

Definition bfree_count (p : BPool) : nat := length (free_ p).
(** [created_ - free_.size()] on [size_t] *)
Definition bactive_count (p : BPool) : Z := (Z.of_nat (created_ p) - Z.of_nat (length (free_ p))) mod 2 ^ 64.
Definition bwaiter_count (p : BPool) : nat := length (waiters_ p).

(** ** The steps of a caller *)

(** Nothing free and no room: give up, or join the queue. *)
Definition enqueue (m : mode) (t : nat) (s : bsystem) : bsystem :=
  let p := bpool s in
  match m with
  | MTry => set_client s t (CFailed None)
  | MSync b => mkB (with_waiters p (waiters_ p ++ [SyncWaiter t])) (<[t := CWait b None]> (bclients s))
  | MAsync b => mkB (with_waiters p (waiters_ p ++ [AsyncWaiter t])) (<[t := CAsync b false]> (bclients s))
  end.

(** Refused because of [shutdown_]. *)
Definition refused (m : mode) : bclient :=
  match m with MAsync _ => CPosted (inr operation_aborted) | _ => CFailed None end.
(** Given holder [k]. *)
Definition granted (m : mode) (k : nat) : bclient :=
  match m with MAsync _ => CPosted (inl k) | _ => CLeased k end.

Definition first_section (m : mode) (t : nat) (s : bsystem) : bsystem :=
  let p := bpool s in
  if bshutdown_ p then set_client s t (refused m)
  else match free_ p with
       | k :: fs => mkB (with_free p fs) (<[t := granted m k]> (bclients s))
       | [] => if (created_ p <? bcapacity p)%nat then set_client s t (CCreate m) else enqueue m t s
       end.

(** Only the asynchronous variant looks at [shutdown_] again. *)
Definition second_section (m : mode) (r : option nat) (t : nat) (s : bsystem) : bsystem :=
  let p := bpool s in
  match m, bshutdown_ p with
  | MAsync _, true => set_client s t (refused m)
  | _, _ =>
      match r with
      | Some k => mkB (adopt p k) (<[t := granted m k]> (bclients s))
      | None => enqueue m t s
      end
  end.

(** [weak_ptr::lock] finds the holder while the pool keeps it. *)
Definition find_holder (k : nat) (p : BPool) : option QueuedHolder := find (λ h, bool_decide (qid h = k)) (holders_ p).
Definition update_holder (k : nat) (f : ConnectionHolder → ConnectionHolder) (p : BPool) : BPool :=
  with_holders p ((λ h, if decide (qid h = k) then mkQueued (qid h) (f (qholder h)) else h) <$> holders_ p) (created_ p).

(** [QueuedHolder::reset], up to the call of the pool: the connection is given
    back if the clean-up worked and the connection is (still) good. *)
Definition queued_reset (status_ok exec_ok still_ok : bool) (h : ConnectionHolder) : bool * ConnectionHolder :=
  let '(cleanup_ok, h', _) := run_cleanup_sql status_ok exec_ok h in
  (cleanup_ok && bool_decide (is_Some (conn_ h')) && still_ok, h').

(** [on_async_waiter_timeout] *)
Definition on_async_waiter_timeout (t : nat) (claimed : bool) (s : bsystem) : bsystem :=
  if claimed then s
  else mkB (erase_waiter t (bpool s)) (<[t := CPosted (inr timed_out)]> (bclients s)).

(** [w.assigned->weak_from_this()]: [assigned] is a raw pointer. *)
Definition wake (k : nat) (p : BPool) : bclient :=
  match find_holder k p with Some _ => CLeased k | None => CDangling k end.

Definition bstep (l : blabel) (t : nat) (s : bsystem) : option bsystem :=
  let p := bpool s in
  c ← bclients s !! t;
  match c, l with
  | CIdle, BCall m | CFailed _, BCall m => Some (set_client s t (CEnter m))
  | CIdle, BShutdown | CFailed _, BShutdown =>
      let p' := mkBPool (pool_cfg_ p) (holders_ p) (free_ p) (waiters_ p) (created_ p) true (opened p) in
      Some (mkB p' (<[t := if bshutdown_ p then CIdle else CShutdown]> (bclients s)))
  | CShutdown, BTau => Some (set_client (shutdown_section s) t CIdle)
  | CEnter m, BTau => Some (set_client s t (if bshutdown_ p then refused m else CLock m))
  | CLock m, BTau => Some (first_section m t s)
  | CCreate m, BConnect ok =>
      let '(r, p') := try_create_holder ok p in Some (mkB p' (<[t := CLocked m r]> (bclients s)))
  | CLocked m r, BTau => Some (second_section m r t s)
  | CWait b (Some k), BTau => Some (set_client s t (wake k p))
  | CWait b None, BTau =>
      if bshutdown_ p then Some (mkB (erase_waiter t p) (<[t := CFailed None]> (bclients s))) else None
  | CWait b None, BTimeout =>
      if b then Some (mkB (erase_waiter t p) (<[t := CFailed None]> (bclients s))) else None
  | CWait b (Some k), BTimeout => if b then Some (set_client s t (wake k p)) else None
  | CAsync b claimed, BTimeout =>
      if b then Some (on_async_waiter_timeout t claimed s) else None
  | CPosted (inl k), BTau => Some (set_client s t (CLeased k))
  | CPosted (inr e), BTau => Some (set_client s t (CFailed (Some e)))
  | CLeased k, BSetCleanup q => Some (set_pool s (update_holder k (set_cleanup q) p))
  | CLeased k, BReset status_ok exec_ok still_ok =>
      match find_holder k p with
      | None => Some (set_client s t CIdle)
      | Some h =>
          let '(healthy, _) := queued_reset status_ok exec_ok still_ok (qholder h) in
          Some (mkB (update_holder k (λ h, (queued_reset status_ok exec_ok still_ok h).2) p)
                    (<[t := CRelease k healthy]> (bclients s)))
      end
  | CRelease k healthy, BTau =>
      let s' := set_client s t CIdle in
      Some (if healthy then return_holder k s' else set_pool s' (drop_dead k p))
  | _, _ => None
  end.

Definition bstep_rel (s s' : bsystem) : Prop := ∃ l t, bstep l t s = Some s'.

Definition blocking_initial (oks : nat → bool) (c : PoolConfig) (threads : nat) : bsystem :=
  mkB (make_blocking_pool oks c) (replicate threads CIdle).
Definition blocking_reachable (oks : nat → bool) (c : PoolConfig) (threads : nat) (s : bsystem) : Prop :=
  rtc bstep_rel (blocking_initial oks c threads) s.
