(* ===== verification/BlockingPoolSafety.v ===== *)
(** * The blocking connection pool: safety

    Invariants of the concurrent program of [BlockingPool.v]: who holds which
    connection, which callers wait in the queue, how many connections there
    are; the theorems that follow, and the schedules in which the pool does
    not do what it means to. *)

From S2P Require Import Prelude PoolConfig BlockingPool.
From stdpp Require Import list relations sets.

Local Open Scope Z_scope.

(** ** Who holds what *)

(** The holder a caller has, or is about to get. *)
Definition keeps (c : bclient) : option nat :=
  match c with
  | CLocked _ r => r
  | CWait _ r => r
  | CPosted (inl k) | CLeased k | CRelease k _ => Some k
  | _ => None
  end.
(** The same for holders the pool has adopted. *)
Definition borrows (c : bclient) : option nat := match c with CLocked _ _ => None | _ => keeps c end.

(** [limbo] are holders in the middle of a hand-over. *)
Definition held (limbo : list nat) (s : bsystem) : list nat :=
  limbo ++ free_ (bpool s) ++ omap keeps (bclients s).
Definition lent (limbo : list nat) (s : bsystem) : list nat :=
  limbo ++ free_ (bpool s) ++ omap borrows (bclients s).

(** The queue and the callers agree. *)
Definition waiting_entry (cs : list bclient) (e : WaiterEntry) : Prop :=
  match e with
  | SyncWaiter t => ∃ b, cs !! t = Some (CWait b None)
  | AsyncWaiter t => ∃ b, cs !! t = Some (CAsync b false)
  end.
Definition entry_of (t : nat) (c : bclient) : option WaiterEntry :=
  match c with CWait _ None => Some (SyncWaiter t) | CAsync _ _ => Some (AsyncWaiter t) | _ => None end.

Definition creating (c : bclient) : bool :=
  match c with CCreate _ => true | CLocked _ (Some _) => true | _ => false end.
Definition creators (s : bsystem) : nat := length (filter creating (bclients s)).

Record binv (limbo : list nat) (s : bsystem) : Prop := {
  binv_unique : NoDup (held limbo s);
  binv_opened : Forall (λ k, (k < opened (bpool s))%nat) (held limbo s);
  binv_holders : bshutdown_ (bpool s) = false →
    qid <$> holders_ (bpool s) ≡ₚ lent limbo s ∧ created_ (bpool s) = length (holders_ (bpool s));
  binv_entries : Forall (waiting_entry (bclients s)) (waiters_ (bpool s));
  binv_once : NoDup (entry_thread <$> waiters_ (bpool s));
  binv_queued : bshutdown_ (bpool s) = false →
    ∀ t c e, bclients s !! t = Some c → entry_of t c = Some e → e ∈ waiters_ (bpool s);
  binv_bound : (1 ≤ bcapacity (bpool s))%nat → (1 ≤ length (bclients s))%nat →
    (created_ (bpool s) + creators s ≤ bcapacity (bpool s) + length (bclients s) - 1)%nat;
  binv_closing : ∀ t, bclients s !! t = Some CShutdown → bshutdown_ (bpool s) = true;
}.

(** ** One caller changes *)

Lemma omap_split {A B} (f : A → option B) (l : list A) t a :
  l !! t = Some a →
  ∃ rest, omap f l ≡ₚ option_list (f a) ++ rest ∧
          ∀ a', omap f (<[t := a']> l) ≡ₚ option_list (f a') ++ rest.
Proof.
  intros Ht. exists (omap f (take t l) ++ omap f (drop (S t) l)).
  assert (t < length l)%nat as Hlt by by eapply lookup_lt_Some. split.
  - rewrite <- (take_drop_middle l t a Ht) at 1. rewrite omap_app. simpl.
    destruct (f a); simpl; [by rewrite <- Permutation_middle|done].
  - intros a'. rewrite insert_take_drop by done. rewrite omap_app. simpl.
    destruct (f a'); simpl; [by rewrite <- Permutation_middle|done].
Qed.

Lemma filter_split {A} (f : A → bool) (l : list A) t a :
  l !! t = Some a →
  ∃ n, length (filter f l) = ((if f a then 1 else 0) + n)%nat ∧
       ∀ a', length (filter f (<[t := a']> l)) = ((if f a' then 1 else 0) + n)%nat.
Proof.
  intros Ht. exists (length (filter f (take t l)) + length (filter f (drop (S t) l)))%nat.
  assert (t < length l)%nat as Hlt by by eapply lookup_lt_Some. split.
  - rewrite <- (take_drop_middle l t a Ht) at 1. rewrite filter_app, filter_cons, !length_app.
    destruct (f a); case_decide; simpl; try done; lia.
  - intros a'. rewrite insert_take_drop by done. rewrite filter_app, filter_cons, !length_app.
    destruct (f a'); case_decide; simpl; try done; lia.
Qed.

Lemma held_opened_mono limbo s (ks : list nat) n :
  NoDup (held limbo s) → Forall (λ k, (k < opened (bpool s))%nat) (held limbo s) → (opened (bpool s) ≤ n)%nat →
  ks ⊆+ held limbo s → NoDup ks ∧ Forall (λ k, (k < n)%nat) ks.
Proof.
  intros Hn Hf Ho Hs. split.
  { apply submseteq_Permutation in Hs as [r Hr]. rewrite Hr in Hn. by apply NoDup_app in Hn as [? _]. }
  apply Forall_forall. intros k Hk. rewrite Forall_forall in Hf.
  specialize (Hf k (elem_of_submseteq _ _ _ Hk Hs)). lia.
Qed.

(** The threads waiting in the queue are not [t]. *)
Lemma entries_insert cs ws t c :
  Forall (waiting_entry cs) ws → (∀ e, e ∈ ws → entry_thread e ≠ t) →
  Forall (waiting_entry (<[t := c]> cs)) ws.
Proof.
  intros Hf Ht. apply Forall_forall. intros e He. rewrite Forall_forall in Hf. specialize (Hf e He).
  specialize (Ht e He). destruct e as [u|u]; simpl in *; destruct Hf as [b Hb]; exists b;
    by rewrite list_lookup_insert_ne.
Qed.

Lemma not_waiting cs ws t c e :
  Forall (waiting_entry cs) ws → cs !! t = Some c → entry_of t c = None → e ∈ ws → entry_thread e ≠ t.
Proof.
  intros Hf Ht Hc He <-. rewrite Forall_forall in Hf. specialize (Hf e He).
  destruct e as [u|u]; simpl in *; destruct Hf as [b Hb]; by simplify_eq/=.
Qed.

(** What a step of one caller has to respect: holders are passed on or newly
    opened, *)
Definition unique_ok (limbo limbo' : list nat) (p p' : BPool) (c c' : bclient) : Prop :=
  opened p' = opened p ∧
    limbo' ++ free_ p' ++ option_list (keeps c') ⊆+ limbo ++ free_ p ++ option_list (keeps c) ∨
  limbo = [] ∧ limbo' = [] ∧ opened p' = S (opened p) ∧ free_ p' = free_ p ∧ keeps c = None ∧
    (keeps c' = None ∨ keeps c' = Some (opened p)).
(** the pool's list of holders follows, *)
Definition holders_ok (limbo limbo' : list nat) (p p' : BPool) (c c' : bclient) : Prop :=
  bshutdown_ p' = false →
  bshutdown_ p = false ∧
  (created_ p = length (holders_ p) → created_ p' = length (holders_ p')) ∧
  ∀ rest, qid <$> holders_ p ≡ₚ limbo ++ free_ p ++ option_list (borrows c) ++ rest →
          qid <$> holders_ p' ≡ₚ limbo' ++ free_ p' ++ option_list (borrows c') ++ rest.
(** a connection is opened on behalf of a caller that was let through, *)
Definition bound_ok (p p' : BPool) (c c' : bclient) : Prop :=
  (created_ p' + (if creating c' then 1 else 0) ≤ created_ p + (if creating c then 1 else 0))%nat ∨
  (created_ p' < bcapacity p)%nat.
(** and the queue agrees with who waits. *)
Definition queue_ok (s : bsystem) (t : nat) (p' : BPool) (c' : bclient) : Prop :=
  Forall (waiting_entry (<[t := c']> (bclients s))) (waiters_ p') ∧
  NoDup (entry_thread <$> waiters_ p') ∧
  (bshutdown_ p' = false →
   ∀ u d e, <[t := c']> (bclients s) !! u = Some d → entry_of u d = Some e → e ∈ waiters_ p').

Lemma unique_client limbo limbo' s t c c' p' :
  binv limbo s → bclients s !! t = Some c → unique_ok limbo limbo' (bpool s) p' c c' →
  NoDup (held limbo' (mkB p' (<[t := c']> (bclients s)))) ∧
  Forall (λ k, (k < opened p')%nat) (held limbo' (mkB p' (<[t := c']> (bclients s)))).
Proof.
  intros Hi Ht Hu. destruct (omap_split keeps _ _ _ Ht) as (rest & Hk & Hk'). unfold held. simpl.
  destruct Hu as [[Ho Hu]|(-> & -> & Ho & Hf & Hc & Hc')].
  - apply (held_opened_mono limbo s); [apply Hi..|lia|]. unfold held. rewrite Hk, Hk', !app_assoc.
    apply submseteq_app; [|done]. by rewrite <- !app_assoc.
  - destruct Hi as [Hn Hop _ _ _ _ _ _]. unfold held in Hn, Hop. rewrite Hk, Hc in Hn, Hop. simpl in Hn, Hop.
    rewrite Hk', Hf, Ho. destruct Hc' as [->| ->]; simpl.
    + split; [done|]. eapply Forall_impl; [exact Hop|]. simpl. lia.
    + rewrite <- Permutation_middle. split.
      * apply NoDup_cons. split; [|done]. intros Hin. rewrite Forall_forall in Hop. specialize (Hop _ Hin). lia.
      * constructor; [lia|]. eapply Forall_impl; [exact Hop|]. simpl. lia.
Qed.

Lemma binv_client limbo limbo' s t c c' p' :
  binv limbo s → bclients s !! t = Some c → pool_cfg_ p' = pool_cfg_ (bpool s) →
  unique_ok limbo limbo' (bpool s) p' c c' → holders_ok limbo limbo' (bpool s) p' c c' →
  bound_ok (bpool s) p' c c' → queue_ok s t p' c' → (c' = CShutdown → bshutdown_ p' = true) →
  binv limbo' (mkB p' (<[t := c']> (bclients s))).
Proof.
  intros Hi Ht Hcfg Hu Hh Hb (Hq1 & Hq2 & Hq3) Hsd.
  destruct (unique_client _ _ _ _ _ _ _ Hi Ht Hu) as [H1 H2].
  split; simpl; try done.
  - intros Hs. destruct (Hh Hs) as (Hs0 & Hcr & Hp). destruct (binv_holders _ _ Hi Hs0) as [Hq Hl].
    destruct (omap_split borrows _ _ _ Ht) as (rest' & Hb1 & Hb2). split; [|by apply Hcr].
    unfold lent in *. simpl. rewrite Hb2. apply Hp. by rewrite Hq, Hb1.
  - unfold creators. simpl. rewrite length_insert. unfold bcapacity in *. rewrite Hcfg. intros Hc1 Hl1.
    destruct (filter_split creating _ _ _ Ht) as (n & Hn1 & Hn2). rewrite Hn2.
    pose proof (binv_bound _ _ Hi) as Hbd. unfold creators, bcapacity in Hbd. rewrite Hn1 in Hbd.
    destruct Hb as [Hb|Hb]; [lia|]. unfold bcapacity in Hb.
    pose proof (length_filter creating (<[t := c']> (bclients s))) as Hle. rewrite Hn2, length_insert in Hle. lia.
  - intros u [(-> & Hc & _)|(_ & Hd)]%list_lookup_insert_Some; [by apply Hsd|].
    destruct (bshutdown_ p') eqn:E; [done|]. destruct (Hh E) as [Hs0 _]. by rewrite (binv_closing _ _ Hi _ Hd) in Hs0.
Qed.

(** *** The queue *)

Lemma queue_same limbo s t c c' p' :
  binv limbo s → bclients s !! t = Some c → entry_of t c = None → entry_of t c' = None →
  waiters_ p' = waiters_ (bpool s) → (bshutdown_ p' = false → bshutdown_ (bpool s) = false) → queue_ok s t p' c'.
Proof.
  intros Hi Ht Hc Hc' Hw Hs. unfold queue_ok. rewrite Hw. split_and!.
  - apply entries_insert; [apply Hi|]. intros e. by eapply not_waiting; [apply Hi| |].
  - apply Hi.
  - intros Hs' u d e [(-> & -> & _)|(_ & Hd)]%list_lookup_insert_Some He; [congruence|].
    by eapply binv_queued; eauto.
Qed.

Lemma queue_push limbo s t c c' e p' :
  binv limbo s → bclients s !! t = Some c → entry_of t c = None → entry_of t c' = Some e →
  (∀ b, c' ≠ CAsync b true) →
  waiters_ p' = waiters_ (bpool s) ++ [e] → (bshutdown_ p' = false → bshutdown_ (bpool s) = false) →
  queue_ok s t p' c'.
Proof.
  intros Hi Ht Hc Hc' Hcl Hw Hs. unfold queue_ok. rewrite Hw.
  assert (t < length (bclients s))%nat as Hlt by by eapply lookup_lt_Some.
  assert (∀ e', e' ∈ waiters_ (bpool s) → entry_thread e' ≠ t) as Hne by (intros e'; by eapply not_waiting; [apply Hi| |]).
  split_and!.
  - apply Forall_app. split; [apply entries_insert; [apply Hi|done]|]. constructor; [|constructor].
    destruct c' as [| | | | |b [k|]|b cl| | | | | |]; simplify_eq/=; unfold waiting_entry; exists b;
      rewrite list_lookup_insert_eq by done; [done|].
    destruct cl; [by destruct (Hcl b)|done].
  - rewrite fmap_app. apply NoDup_app. split_and!; [apply Hi| |by apply NoDup_singleton].
    assert (entry_thread e = t) as He by (by destruct c' as [| | | | |b [k|]|b cl| | | | | |]; simplify_eq/=).
    intros u (e' & -> & Hin)%list_elem_of_fmap Hu. simpl in Hu. apply list_elem_of_singleton in Hu.
    apply (Hne _ Hin). congruence.
  - intros Hs' u d e' [(-> & -> & _)|(_ & Hd)]%list_lookup_insert_Some He'; [set_solver|].
    apply elem_of_app. left. by eapply binv_queued; eauto.
Qed.

Lemma queue_erase limbo s t c c' p' :
  binv limbo s → bclients s !! t = Some c → entry_of t c' = None →
  waiters_ p' = waiters_ (erase_waiter t (bpool s)) → (bshutdown_ p' = false → bshutdown_ (bpool s) = false) →
  queue_ok s t p' c'.
Proof.
  intros Hi Ht Hc' Hw Hs. unfold queue_ok. rewrite Hw. simpl. split_and!.
  - apply entries_insert.
    + apply Forall_forall. intros e [_ He]%list_elem_of_filter.
      pose proof (binv_entries _ _ Hi) as Hf. rewrite Forall_forall in Hf. auto.
    + by intros e [? _]%list_elem_of_filter.
  - pose proof (binv_once _ _ Hi) as Hn. induction (waiters_ (bpool s)) as [|e l IH]; [constructor|].
    rewrite fmap_cons in Hn. apply NoDup_cons in Hn as [Hin Hn]. rewrite filter_cons. case_decide; [|by apply IH].
    rewrite fmap_cons. apply NoDup_cons. split; [|by apply IH].
    intros (e' & Ee & [_ He']%list_elem_of_filter)%list_elem_of_fmap. apply Hin. rewrite Ee.
    by apply list_elem_of_fmap_2.
  - intros Hs' u d e [(-> & -> & _)|(Hne & Hd)]%list_lookup_insert_Some He; [congruence|].
    apply list_elem_of_filter. split; [|by eapply binv_queued; eauto].
    destruct d as [| | | | |b [k|]|b cl| | | | | |]; simplify_eq/=; done.
Qed.

(** ** The steps *)

Lemma submseteq_opt (l : list nat) o o' : o' = o ∨ o' = None → l ++ option_list o' ⊆+ l ++ option_list o.
Proof.
  intros [->| ->]; [done|]. simpl. rewrite app_nil_r. apply submseteq_inserts_r. done.
Qed.

(** A caller moves on; the pool keeps its holders and its queue. *)
Lemma binv_move limbo s t c c' p' :
  binv limbo s → bclients s !! t = Some c →
  pool_cfg_ p' = pool_cfg_ (bpool s) → opened p' = opened (bpool s) → free_ p' = free_ (bpool s) →
  waiters_ p' = waiters_ (bpool s) → created_ p' = created_ (bpool s) →
  qid <$> holders_ p' = qid <$> holders_ (bpool s) →
  (bshutdown_ p' = false → bshutdown_ (bpool s) = false) →
  keeps c' = keeps c ∨ keeps c' = None →
  (bshutdown_ p' = false → borrows c' = borrows c) →
  (creating c' = false ∨ creating c = true) → entry_of t c = None → entry_of t c' = None →
  (c' = CShutdown → bshutdown_ p' = true) →
  binv limbo (mkB p' (<[t := c']> (bclients s))).
Proof.
  intros Hi Ht Hcfg Ho Hf Hw Hcr Hh Hs Hk Hb Hc He He' Hsd.
  eapply (binv_client limbo limbo); eauto.
  - left. split; [done|]. rewrite Hf, !app_assoc. by apply submseteq_opt.
  - intros Hs'. split_and!; [by apply Hs| |].
    + rewrite Hcr. intros ->. apply (f_equal length) in Hh. by rewrite !length_fmap in Hh.
    + intros rest. by rewrite Hh, Hf, Hb.
  - left. rewrite Hcr. destruct Hc as [->| ->]; repeat case_match; lia.
  - by eapply queue_same.
Qed.

(** The caller joins the queue. *)
Lemma binv_enqueue limbo s t c m :
  binv limbo s → bclients s !! t = Some c → keeps c = None → borrows c = None → entry_of t c = None →
  binv limbo (enqueue m t s).
Proof.
  intros Hi Ht Hk Hb He. destruct m as [|b|b]; simpl.
  - by eapply (binv_move limbo s t c); eauto.
  - eapply (binv_client limbo limbo s t c); eauto; simpl.
    + left. split; [done|]. by rewrite Hk.
    + intros Hs. split_and!; [done..|]. intros rest. by rewrite Hb.
    + left. simpl. case_match; lia.
    + by eapply queue_push.
    + done.
  - eapply (binv_client limbo limbo s t c); eauto; simpl.
    + left. split; [done|]. by rewrite Hk.
    + intros Hs. split_and!; [done..|]. intros rest. by rewrite Hb.
    + left. simpl. case_match; lia.
    + by eapply queue_push.
    + done.
Qed.

Lemma refused_keeps m : keeps (refused m) = None ∧ borrows (refused m) = None ∧ creating (refused m) = false ∧
  (∀ t, entry_of t (refused m) = None) ∧ refused m ≠ CShutdown.
Proof. by destruct m. Qed.
Lemma granted_keeps m k : keeps (granted m k) = Some k ∧ borrows (granted m k) = Some k ∧
  creating (granted m k) = false ∧ (∀ t, entry_of t (granted m k) = None) ∧ granted m k ≠ CShutdown.
Proof. by destruct m. Qed.

Lemma binv_first_section s t m :
  binv [] s → bclients s !! t = Some (CLock m) → binv [] (first_section m t s).
Proof.
  intros Hi Ht. unfold first_section. destruct (bshutdown_ (bpool s)) eqn:Hs.
  { destruct (refused_keeps m) as (? & ? & ? & ? & ?).
    by apply (binv_move [] s t (CLock m)); auto. }
  destruct (free_ (bpool s)) as [|k fs] eqn:Hf.
  - destruct (Nat.ltb_spec (created_ (bpool s)) (bcapacity (bpool s))).
    + eapply (binv_client [] [] s t (CLock m)); eauto; simpl.
      * left. done.
      * intros _. by split_and!.
      * right. done.
      * by eapply queue_same.
      * done.
    + by eapply binv_enqueue.
  - destruct (granted_keeps m k) as (Hk & Hb & Hc & He & Hn).
    eapply (binv_client [] [] s t (CLock m)); eauto; simpl.
    + left. simpl. split; [done|]. rewrite Hk, Hf. simpl. rewrite app_nil_r.
      by rewrite <- Permutation_cons_append.
    + intros _. split_and!; [done..|]. intros rest. simpl. rewrite Hb, Hf. simpl. intros ->.
      by rewrite <- Permutation_middle.
    + left. rewrite Hc. simpl. lia.
    + by eapply queue_same.
Qed.

Lemma binv_second_section s t m r :
  binv [] s → bclients s !! t = Some (CLocked m r) → binv [] (second_section m r t s).
Proof.
  intros Hi Ht. unfold second_section.
  assert (binv [] (match r with
                   | Some k => mkB (adopt (bpool s) k) (<[t := granted m k]> (bclients s))
                   | None => enqueue m t s
                   end)) as Hmain.
  { destruct r as [k|]; [|by eapply binv_enqueue].
    destruct (granted_keeps m k) as (Hk & Hb & Hc & He & Hn).
    eapply (binv_client [] [] s t (CLocked m (Some k))); eauto; simpl.
    - left. simpl. by rewrite Hk.
    - intros Hs. simpl. split_and!; [done| |].
      + intros ->. rewrite length_app. simpl. lia.
      + intros rest Hq. rewrite fmap_app, Hq, Hb. simpl. solve_Permutation.
    - left. rewrite Hc. simpl. lia.
    - by eapply queue_same. }
  destruct m as [| |b]; try done. destruct (bshutdown_ (bpool s)) eqn:Hs; [|done].
  apply (binv_move [] s t (CLocked (MAsync b) r)); simpl; auto; congruence.
Qed.

Lemma binv_create s t m ok :
  binv [] s → bclients s !! t = Some (CCreate m) →
  let '(r, p') := try_create_holder ok (bpool s) in binv [] (mkB p' (<[t := CLocked m r]> (bclients s))).
Proof.
  intros Hi Ht. unfold try_create_holder. destruct ok.
  - eapply (binv_client [] [] s t (CCreate m)); eauto; simpl.
    + right. simpl. split_and!; auto.
    + intros Hs. by split_and!.
    + left. simpl. lia.
    + by eapply queue_same.
    + done.
  - by apply (binv_move [] s t (CCreate m)); auto.
Qed.

Lemma find_holder_free k p : find_holder k p = None → k ∉ qid <$> holders_ p.
Proof.
  unfold find_holder. intros Hf (h & -> & Hh)%list_elem_of_fmap.
  apply list_elem_of_In in Hh. by pose proof (find_none _ _ Hf _ Hh) as H%bool_decide_eq_false.
Qed.

Lemma update_holder_qids k f p : qid <$> holders_ (update_holder k f p) = qid <$> holders_ p.
Proof.
  simpl. rewrite <- list_fmap_compose. apply list_fmap_ext. intros i h _. simpl. by case_decide.
Qed.

Lemma binv_wake s t b k p' :
  binv [] s → bclients s !! t = Some (CWait b (Some k)) → p' = bpool s →
  binv [] (mkB p' (<[t := wake k (bpool s)]> (bclients s))).
Proof.
  intros Hi Ht ->. unfold wake. destruct (find_holder k (bpool s)) eqn:Hf.
  - by apply (binv_move [] s t (CWait b (Some k))); auto.
  - apply (binv_move [] s t (CWait b (Some k))); simpl; auto; [|done].
    intros Hs. exfalso. apply find_holder_free in Hf. apply Hf. destruct (binv_holders _ _ Hi Hs) as [-> _].
    apply elem_of_app. right. apply elem_of_app. right. apply list_elem_of_omap. exists (CWait b (Some k)). split; [|done].
    by eapply list_elem_of_lookup_2.
Qed.

Lemma binv_erase s t c c' :
  binv [] s → bclients s !! t = Some c → keeps c = None → borrows c = None → keeps c' = None →
  borrows c' = None → creating c' = false → entry_of t c' = None → c' ≠ CShutdown →
  binv [] (mkB (erase_waiter t (bpool s)) (<[t := c']> (bclients s))).
Proof.
  intros Hi Ht Hk Hb Hk' Hb' Hc' He' Hn. eapply (binv_client [] [] s t c); eauto; simpl.
  - left. split; [done|]. by rewrite Hk, Hk'.
  - intros Hs. split_and!; [done..|]. intros rest. by rewrite Hb, Hb'.
  - left. rewrite Hc'. simpl. case_match; lia.
  - by eapply queue_erase.
Qed.

(** *** Giving back *)

Lemma erase_head e ws :
  NoDup (entry_thread <$> e :: ws) → filter (λ e', entry_thread e' ≠ entry_thread e) (e :: ws) = ws.
Proof.
  rewrite fmap_cons. intros [Hn Hd]%NoDup_cons. rewrite filter_cons. case_decide; [done|].
  clear Hd. induction ws as [|e' ws IH]; [done|]. rewrite fmap_cons in Hn. rewrite filter_cons.
  apply not_elem_of_cons in Hn as [Hne Hn]. case_decide as He; [f_equal; by apply IH|].
  congruence.
Qed.

(** A waiting caller is handed holder [k]. *)
Lemma binv_hand s k t c c' e ws :
  binv [k] s → waiters_ (bpool s) = e :: ws → entry_thread e = t →
  bclients s !! t = Some c → keeps c = None → borrows c = None →
  keeps c' = Some k → borrows c' = Some k → creating c' = false → entry_of t c' = None → c' ≠ CShutdown →
  binv [] (mkB (with_waiters (bpool s) ws) (<[t := c']> (bclients s))).
Proof.
  intros Hi Hw He Ht Hk Hb Hk' Hb' Hc' He' Hn. eapply (binv_client [k] [] s t c); eauto; simpl.
  - left. split; [done|]. rewrite Hk, Hk'. simpl. rewrite app_nil_r. by rewrite <- Permutation_cons_append.
  - intros Hs. split_and!; [done..|]. intros rest. rewrite Hb, Hb'. simpl. intros ->. by rewrite <- Permutation_middle.
  - left. rewrite Hc'. simpl. case_match; lia.
  - eapply queue_erase; eauto. simpl. pose proof (binv_once _ _ Hi) as Ho. rewrite Hw in *. rewrite <- He.
    by rewrite erase_head.
Qed.

(** The pool changes while some caller [t] stays as it is. *)
Lemma binv_pool limbo limbo' s t c p' :
  binv limbo s → bclients s !! t = Some c → pool_cfg_ p' = pool_cfg_ (bpool s) →
  unique_ok limbo limbo' (bpool s) p' c c → holders_ok limbo limbo' (bpool s) p' c c →
  (created_ p' ≤ created_ (bpool s))%nat → waiters_ p' = waiters_ (bpool s) →
  (bshutdown_ p' = false → bshutdown_ (bpool s) = false) → entry_of t c = None → c ≠ CShutdown →
  binv limbo' (set_pool s p').
Proof.
  intros Hi Ht Hcfg Hu Hh Hb Hw Hs He Hn. unfold set_pool.
  rewrite <- (list_insert_id (bclients s) t c Ht). eapply (binv_client limbo limbo' s t c); eauto.
  - left. lia.
  - by eapply queue_same.
Qed.

Lemma binv_return k s t :
  binv [k] s → bclients s !! t = Some CIdle → binv [] (return_holder k s).
Proof.
  intros Hi Ht. unfold return_holder. destruct (bshutdown_ (bpool s)) eqn:Hs.
  { replace s with (set_pool s (bpool s)) by (by destruct s). eapply (binv_pool [k] []); eauto.
    - left. split; [done|]. by apply submseteq_cons.
    - intros Hs'. congruence. }
  destruct (waiters_ (bpool s)) as [|[u|u] ws] eqn:Hw; cbn [hand_over].
  - eapply (binv_pool [k] []); eauto; simpl.
    + left. simpl. split; [done|]. rewrite app_nil_r. by rewrite <- Permutation_cons_append, app_nil_r.
    + intros _. split_and!; [done..|]. intros rest. simpl. intros ->. solve_Permutation.
  - pose proof (binv_entries _ _ Hi) as Hf. rewrite Hw in Hf. apply Forall_cons_1 in Hf as [[b Hb] _].
    rewrite (alter_as_insert _ _ _ _ Hb). by eapply (binv_hand s k u); eauto.
  - pose proof (binv_entries _ _ Hi) as Hf. rewrite Hw in Hf. apply Forall_cons_1 in Hf as [[b Hb] _].
    rewrite Hb. by eapply (binv_hand s k u); eauto.
Qed.

Lemma erase_holder_perm k hs hs' :
  erase_holder k hs = Some hs' → qid <$> hs ≡ₚ k :: (qid <$> hs') ∧ length hs = S (length hs').
Proof.
  revert hs'. induction hs as [|h hs IH]; intros hs'; simpl; [done|]. case_decide as Hk.
  - intros [= <-]. by subst.
  - destruct (erase_holder k hs) as [hs1|] eqn:E; [|done]. intros [= <-]. destruct (IH _ eq_refl) as [H1 H2].
    rewrite fmap_cons, H1. simpl. split; [by constructor|lia].
Qed.

Lemma erase_holder_none k hs : erase_holder k hs = None → k ∉ qid <$> hs.
Proof.
  induction hs as [|h hs IH]; simpl; [set_solver|]. case_decide; [done|].
  destruct (erase_holder k hs); [done|]. intros _. rewrite not_elem_of_cons. split; [congruence|auto].
Qed.

Lemma binv_drop k s t :
  binv [k] s → bclients s !! t = Some CIdle → binv [] (set_pool s (drop_dead k (bpool s))).
Proof.
  intros Hi Ht. unfold drop_dead. destruct (bshutdown_ (bpool s)) eqn:Hs.
  { eapply (binv_pool [k] []); eauto.
    - left. split; [done|]. by apply submseteq_cons.
    - intros Hs'. congruence. }
  destruct (erase_holder k (holders_ (bpool s))) as [hs|] eqn:E.
  - destruct (erase_holder_perm _ _ _ E) as [Hp Hl]. eapply (binv_pool [k] []); eauto; simpl.
    + left. split; [done|]. by apply submseteq_cons.
    + intros _. split_and!; [done|simpl; lia|]. intros rest. simpl. rewrite Hp. apply Permutation_cons_inv.
    + lia.
  - apply erase_holder_none in E. destruct E. destruct (binv_holders _ _ Hi Hs) as [-> _]. unfold lent. set_solver.
Qed.

(** *** Shutting down *)

(** [alter] with a function that does not change what [f] sees. *)
Lemma omap_alter_same {A B} (f : A → option B) (g : A → A) (l : list A) i :
  (∀ a, f (g a) = f a) → omap f (alter g i l) = omap f l.
Proof.
  intros Hg. revert i. induction l as [|a l IH]; intros [|i]; simpl; [done..| |]; [by rewrite Hg|].
  fold (alter g i l). by destruct (f a); rewrite IH.
Qed.
Lemma filter_alter_same {A} (f : A → bool) (g : A → A) (l : list A) i :
  (∀ a, f (g a) = f a) → length (filter f (alter g i l)) = length (filter f l).
Proof.
  intros Hg. destruct (l !! i) as [a|] eqn:Hi; [|by rewrite alter_out_of_range].
  rewrite (alter_as_insert _ _ _ _ Hi). destruct (filter_split f _ _ _ Hi) as (n & -> & ->). by rewrite Hg.
Qed.

Lemma abort_same cs e :
  omap keeps (abort_waiter cs e) = omap keeps cs ∧ length (abort_waiter cs e) = length cs ∧
  length (filter creating (abort_waiter cs e)) = length (filter creating cs).
Proof.
  destruct e as [t|t]; [done|]. simpl. split_and!.
  - apply omap_alter_same. by intros [| | | | | |b []| | | | | |].
  - apply length_alter.
  - apply filter_alter_same. by intros [| | | | | |b []| | | | | |].
Qed.

Lemma abort_all_same ws cs :
  omap keeps (foldl abort_waiter cs ws) = omap keeps cs ∧ length (foldl abort_waiter cs ws) = length cs ∧
  length (filter creating (foldl abort_waiter cs ws)) = length (filter creating cs).
Proof.
  revert cs. induction ws as [|e ws IH]; intros cs; simpl; [done|].
  destruct (abort_same cs e) as (<- & <- & <-). apply IH.
Qed.

Lemma abort_closing ws cs t :
  foldl abort_waiter cs ws !! t = Some CShutdown ↔ cs !! t = Some CShutdown.
Proof.
  revert cs. induction ws as [|e ws IH]; intros cs; simpl; [done|]. rewrite IH.
  destruct e as [u|u]; simpl; [done|]. destruct (decide (u = t)) as [->|]; [|by rewrite list_lookup_alter_ne].
  rewrite list_lookup_alter_eq. destruct (cs !! t) as [c|] eqn:E; simpl; [|done].
  destruct c as [| | | | | |b []| | | | | |]; done.
Qed.

Lemma binv_shutdown_section s : binv [] s → bshutdown_ (bpool s) = true → binv [] (shutdown_section s).
Proof.
  intros Hi Hs. destruct (abort_all_same (waiters_ (bpool s)) (bclients s)) as (H1 & H2 & H3).
  destruct (held_opened_mono [] s (omap keeps (bclients s)) (opened (bpool s))) as [Hn Hf]; [apply Hi..|done| |].
  { unfold held. simpl. by apply submseteq_inserts_l. }
  split; simpl; try (by rewrite Hs).
  - unfold held. simpl. by rewrite H1.
  - unfold held. simpl. by rewrite H1.
  - constructor.
  - constructor.
  - unfold creators. simpl. rewrite H2, H3. apply Hi.
Qed.

(** *** Every step *)

(** A capability whose holder is gone leaves nothing behind. *)
Lemma binv_expired s t k :
  binv [] s → bclients s !! t = Some (CLeased k) → find_holder k (bpool s) = None → binv [] (set_client s t CIdle).
Proof.
  intros Hi Ht Hf. eapply (binv_client [] [] s t (CLeased k)); eauto; simpl.
  - left. split; [done|]. apply (submseteq_opt (free_ (bpool s)) (Some k) None). by right.
  - intros Hs. exfalso. apply (find_holder_free _ _ Hf). destruct (binv_holders _ _ Hi Hs) as [-> _].
    apply elem_of_app. right. apply elem_of_app. right. apply list_elem_of_omap. exists (CLeased k).
    split; [by eapply list_elem_of_lookup_2|done].
  - left. simpl. lia.
  - by eapply queue_same.
  - done.
Qed.

Lemma binv_release s t k (h : bool) :
  binv [] s → bclients s !! t = Some (CRelease k h) →
  binv [] (if h then return_holder k (set_client s t CIdle)
           else set_pool (set_client s t CIdle) (drop_dead k (bpool s))).
Proof.
  intros Hi Ht. assert (binv [k] (set_client s t CIdle)) as Hl.
  { eapply (binv_client [] [k] s t (CRelease k h)); eauto; simpl.
    - left. split; [done|]. rewrite app_nil_r. simpl. by rewrite <- Permutation_cons_append.
    - intros Hs. split_and!; [done..|]. intros rest. simpl. intros ->. by rewrite <- Permutation_middle.
    - left. simpl. lia.
    - by eapply queue_same.
    - done. }
  assert (bclients (set_client s t CIdle) !! t = Some CIdle) as Ht'.
  { simpl. apply list_lookup_insert_eq. by eapply lookup_lt_Some. }
  destruct h; [by eapply binv_return|by eapply (binv_drop k (set_client s t CIdle) t)].
Qed.

Lemma binv_step s s' : binv [] s → bstep_rel s s' → binv [] s'.
Proof.
  intros Hi (l & t & Hs). unfold bstep in Hs.
  destruct (bclients s !! t) as [c|] eqn:Ht; [|done]. simpl in Hs.
  assert (∀ p' c', binv [] s → bclients s !! t = Some c → p' = bpool s → keeps c' = keeps c →
            borrows c' = borrows c → creating c' = false → entry_of t c = None → entry_of t c' = None →
            c' ≠ CShutdown → binv [] (mkB p' (<[t := c']> (bclients s)))) as Hmove.
  { intros p' c' _ _ -> Hk Hb Hc He He' Hn. by apply (binv_move [] s t c); auto. }
  destruct c as [|m|m|m|m r|b [k|]|b cl|[k|e]|k|k h|k| |e], l; simplify_eq/=; try (by apply Hmove).
  - (* the first access of [shutdown] *)
    destruct (bshutdown_ (bpool s)); by apply (binv_move [] s t CIdle); auto.
  - destruct (refused_keeps m) as (? & ? & ? & ? & ?). destruct (bshutdown_ (bpool s)); by apply Hmove; auto.
  - by apply binv_first_section.
  - destruct (try_create_holder ok (bpool s)) as [r p'] eqn:E. simplify_eq.
    pose proof (binv_create s t m ok Hi Ht) as H. by rewrite E in H.
  - by apply binv_second_section.
  - by eapply binv_wake.
  - destruct b; simplify_eq. by eapply binv_wake.
  - destruct (bshutdown_ (bpool s)); simplify_eq. by eapply binv_erase.
  - destruct b; simplify_eq. by eapply binv_erase.
  - destruct b; simplify_eq. destruct cl; simplify_eq; [done|]. by eapply binv_erase.
  - (* clean-up requested *)
    unfold set_pool. rewrite <- (list_insert_id (bclients s) t _ Ht).
    apply (binv_move [] s t (CLeased k)); auto; [apply update_holder_qids|done].
  - (* the capability's destructor *)
    destruct (find_holder k (bpool s)) as [h|] eqn:Hf; simplify_eq.
    + destruct (queued_reset _ _ _ (qholder h)) as [healthy h']. simplify_eq.
      apply (binv_move [] s t (CLeased k)); auto; [apply update_holder_qids|done].
    + by eapply binv_expired.
  - by apply binv_release.
  - (* the critical section of [shutdown] *)
    pose proof (binv_closing _ _ Hi _ Ht) as Hs. pose proof (binv_shutdown_section s Hi Hs) as Hsec.
    apply (binv_move [] (shutdown_section s) t CShutdown); auto; simpl. by apply abort_closing.
  - destruct (bshutdown_ (bpool s)); by apply (binv_move [] s t (CFailed e)); auto.
Qed.

Lemma open_holders_inv oks n i p :
  free_ p = qid <$> holders_ p → NoDup (free_ p) → Forall (λ k, (k < opened p)%nat) (free_ p) →
  created_ p = length (holders_ p) →
  let p' := open_holders oks n i p in
  free_ p' = qid <$> holders_ p' ∧ NoDup (free_ p') ∧ Forall (λ k, (k < opened p')%nat) (free_ p') ∧
  created_ p' = length (holders_ p') ∧ (created_ p' ≤ created_ p + n)%nat ∧
  waiters_ p' = waiters_ p ∧ bshutdown_ p' = bshutdown_ p ∧ pool_cfg_ p' = pool_cfg_ p.
Proof.
  revert i p. induction n as [|n IH]; intros i p Hf Hn Ho Hc; [by rewrite Nat.add_0_r; split_and!|]. cbn [open_holders].
  unfold try_create_holder. destruct (oks i).
  - set (p2 := adopt _ _). set (p3 := with_free _ _).
    destruct (IH (S i) p3) as (H1 & H2 & H3 & H4 & H5 & H6); simpl.
    + by rewrite fmap_app, Hf.
    + apply NoDup_app. split_and!; [done| |apply NoDup_singleton].
      intros k Hk ->%list_elem_of_singleton. rewrite Forall_forall in Ho. specialize (Ho _ Hk). lia.
    + apply Forall_app. split; [eapply Forall_impl; [exact Ho|simpl; lia]|]. constructor; [simpl; lia|done].
    + rewrite length_app, Hc. simpl. lia.
    + simpl in H5, H6. split_and!; try done; lia || apply H6.
  - destruct (IH (S i) p) as (H1 & H2 & H3 & H4 & H5 & H6); auto. split_and!; try done; lia || apply H6.
Qed.

Lemma omap_idle_none {B} (f : bclient → option B) n : f CIdle = None → omap f (replicate n CIdle) = [].
Proof. intros H. induction n as [|n IH]; simpl; [done|]. by rewrite H. Qed.

Lemma binv_initial oks c n : valid_config c → binv [] (blocking_initial oks c n).
Proof.
  intros (_ & Hm & _).
  destruct (open_holders_inv oks (Z.to_nat (min_connections_ c)) 0 (mkBPool c [] [] [] 0 false 0))
    as (H1 & H2 & H3 & H4 & H5 & H6 & H7 & H8); [done|constructor|constructor|done|].
  unfold blocking_initial, make_blocking_pool in *. set (p := open_holders _ _ _ _) in *.
  split; unfold held, lent; simpl; rewrite ?omap_idle_none, ?app_nil_r by done; auto.
  - intros _. by rewrite H1.
  - rewrite H6. constructor.
  - rewrite H6. constructor.
  - by intros _ t d e [-> _]%lookup_replicate.
  - unfold creators, bcapacity. simpl. rewrite length_replicate, H8. simpl in *.
    assert (filter creating (replicate n CIdle) = []) as ->.
    { clear. induction n as [|n IH]; [done|]. simpl. rewrite filter_cons. by case_decide. }
    simpl. lia.
  - by intros t [? _]%lookup_replicate.
Qed.

Lemma binv_reachable oks c n s : valid_config c → blocking_reachable oks c n s → binv [] s.
Proof. intros Hc Hr. apply (rtc_preserved (binv []) _ _ _ binv_step Hr). by apply binv_initial. Qed.

(** The number of callers does not change. *)
Lemma hand_over_length k ws cs ws' cs' : hand_over k ws cs = Some (ws', cs') → length cs' = length cs.
Proof.
  induction ws as [|[u|u] ws IH]; simpl; [done| |].
  - intros [= <- <-]. apply length_alter.
  - destruct (cs !! u) as [c|]; [|done]. destruct c as [| | | | | |b []| | | | | |]; try done.
    intros [= <- <-]. apply length_insert.
Qed.

Lemma length_step s s' : bstep_rel s s' → length (bclients s') = length (bclients s).
Proof.
  intros (l & t & Hs). unfold bstep in Hs. destruct (bclients s !! t) as [c|] eqn:Ht; [|done]. simpl in Hs.
  destruct c as [|m|m|m|m r|b [k|]|b cl|[k|e]|k|k h|k| |e], l; simplify_eq/=; try (by rewrite length_insert).
  - unfold first_section, enqueue. repeat case_match; simpl; by rewrite length_insert.
  - destruct (try_create_holder ok (bpool s)). simplify_eq/=. by rewrite length_insert.
  - unfold second_section, enqueue. repeat case_match; simpl; by rewrite length_insert.
  - destruct b; simplify_eq/=. by rewrite length_insert.
  - destruct (bshutdown_ (bpool s)); simplify_eq/=. by rewrite length_insert.
  - destruct b; simplify_eq/=. by rewrite length_insert.
  - destruct b; simplify_eq. destruct cl; simplify_eq/=; [done|]. by rewrite length_insert.
  - done.
  - destruct (find_holder k (bpool s)); simplify_eq/=; [|by rewrite length_insert].
    destruct (queued_reset _ _ _ _). simplify_eq/=. by rewrite length_insert.
  - destruct h; simpl; [|by rewrite length_insert]. unfold return_holder. simpl.
    destruct (bshutdown_ (bpool s)); simpl; [by rewrite length_insert|].
    destruct (hand_over k _ _) as [[ws cs]|] eqn:E; simpl; [|by rewrite length_insert].
    apply hand_over_length in E. by rewrite E, length_insert.
  - rewrite length_insert. apply abort_all_same.
Qed.

Lemma length_reachable oks c n s : blocking_reachable oks c n s → length (bclients s) = n.
Proof.
  intros Hr. refine (rtc_preserved (λ s, length (bclients s) = n) _ _ _ _ Hr _).
  - intros a b Ha Hs. by rewrite (length_step _ _ Hs).
  - simpl. apply length_replicate.
Qed.

Lemma config_step s s' : bstep_rel s s' → pool_cfg_ (bpool s') = pool_cfg_ (bpool s).
Proof.
  intros (l & t & Hs). unfold bstep in Hs. destruct (bclients s !! t) as [c|] eqn:Ht; [|done]. simpl in Hs.
  destruct c as [|m|m|m|m r|b [k|]|b cl|[k|e]|k|k h|k| |e], l; simplify_eq/=; try done.
  - unfold first_section, enqueue. by repeat case_match.
  - unfold try_create_holder in Hs. by destruct ok; simplify_eq/=.
  - unfold second_section, enqueue. by repeat case_match.
  - by destruct b; simplify_eq/=.
  - by destruct (bshutdown_ (bpool s)); simplify_eq/=.
  - by destruct b; simplify_eq/=.
  - by destruct b, cl; simplify_eq/=.
  - destruct (find_holder k (bpool s)); simplify_eq/=; [|done].
    destruct (queued_reset _ _ _ _). by simplify_eq/=.
  - destruct h; simpl; [unfold return_holder|unfold drop_dead]; simpl; by repeat case_match.
Qed.

Lemma open_holders_config oks n i p : pool_cfg_ (open_holders oks n i p) = pool_cfg_ p.
Proof.
  revert i p. induction n as [|n IH]; intros i p; [done|]. cbn [open_holders].
  unfold try_create_holder. destruct (oks i); by rewrite IH.
Qed.

Lemma config_reachable oks c n s : blocking_reachable oks c n s → pool_cfg_ (bpool s) = c.
Proof.
  intros Hr. refine (rtc_preserved (λ s, pool_cfg_ (bpool s) = c) _ _ _ _ Hr _).
  - intros a b Ha Hs. by rewrite (config_step _ _ Hs).
  - apply open_holders_config.
Qed.
