(* ===== verification/BlockingPoolTheorems.v ===== *)
(** * The blocking connection pool: what it promises

    The theorems about the blocking pool, from the invariant of
    [BlockingPoolSafety.v], and the schedules in which it does not do what it
    means to. *)

From S2P Require Import Prelude PoolConfig BlockingPool BlockingPoolSafety.
From stdpp Require Import list relations sets.

Local Open Scope Z_scope.

(** ** Running schedules *)

Fixpoint run_blocking (sch : list (nat * blabel)) (s : bsystem) : option bsystem :=
  match sch with
  | [] => Some s
  | (t, l) :: sch' => s' ← bstep l t s; run_blocking sch' s'
  end.

Lemma run_blocking_sound sch s s' : run_blocking sch s = Some s' → rtc bstep_rel s s'.
Proof.
  revert s. induction sch as [|[t l] sch IH]; simpl; intros s H; [by simplify_eq|].
  destruct (bstep l t s) as [s1|] eqn:E; simplify_eq/=. eapply rtc_l; [by exists l, t|by apply IH].
Qed.

(** A pool for one connection, opened on demand. *)
Definition lazy_config : PoolConfig := Builder.min_connections 0 (Builder.capacity 1 default_config).
Lemma lazy_config_valid : valid_config lazy_config.
Proof. by apply validate_ok; vm_compute. Qed.

Definition lazy_run (threads : nat) (sch : list (nat * blabel)) : bsystem :=
  let s := blocking_initial (λ _, true) lazy_config threads in default s (run_blocking sch s).
Lemma lazy_run_reachable threads sch : blocking_reachable (λ _, true) lazy_config threads (lazy_run threads sch).
Proof.
  unfold lazy_run. destruct (run_blocking sch _) as [s|] eqn:E; [|apply rtc_refl]. by eapply run_blocking_sound.
Qed.

(** Thread [t] calls [acquire] with mode [m] and opens a connection. *)
Definition take_new (t : nat) (m : mode) : list (nat * blabel) :=
  [(t, BCall m); (t, BTau); (t, BTau); (t, BConnect true); (t, BTau)].
(** Thread [t] calls [acquire] and finds nothing. *)
Definition wait_for_one (t : nat) (m : mode) : list (nat * blabel) := [(t, BCall m); (t, BTau); (t, BTau)].

(** ** Exclusive use and conservation *)

Lemma omap_lookup_unique {A B} (f : A → option B) (l : list A) t t' a a' b :
  NoDup (omap f l) → l !! t = Some a → l !! t' = Some a' → f a = Some b → f a' = Some b → t = t'.
Proof.
  revert t t'. induction l as [|x l IH]; intros t t' Hn Ht Ht' Hb Hb'; [done|]. simpl in Hn.
  assert (∀ u c, l !! u = Some c → f c = Some b → b ∈ omap f l) as Hin.
  { intros u c Hu Hc. apply list_elem_of_omap. exists c. split; [by eapply list_elem_of_lookup_2|done]. }
  destruct t as [|t], t' as [|t']; simplify_eq/=; [done| | |].
  - rewrite Hb in Hn. apply NoDup_cons in Hn as [Hn _]. by destruct (Hn (Hin _ _ Ht' Hb')).
  - rewrite Hb' in Hn. apply NoDup_cons in Hn as [Hn _]. by destruct (Hn (Hin _ _ Ht Hb)).
  - f_equal. apply IH; try done. destruct (f x); [by apply NoDup_cons in Hn as [_ ?]|done].
Qed.

(** C25: in every interleaving of any number of blocking and asynchronous
    callers, timeouts and [shutdown], no connection is in the hands of two
    callers, and none that a caller has is on the free list. *)
Theorem blocking_holder_exclusive (oks : nat → bool) (c : PoolConfig) (threads : nat) (s : bsystem) :
  valid_config c → blocking_reachable oks c threads s →
  (∀ t t' d d' k, bclients s !! t = Some d → bclients s !! t' = Some d' →
     keeps d = Some k → keeps d' = Some k → t = t') ∧
  (∀ t d k, bclients s !! t = Some d → keeps d = Some k → k ∉ free_ (bpool s)) ∧
  NoDup (free_ (bpool s)).
Proof.
  intros Hc Hr. pose proof (binv_unique _ _ (binv_reachable _ _ _ _ Hc Hr)) as Hn.
  unfold held in Hn. simpl in Hn. apply NoDup_app in Hn as (Hf & Hd & Hk). split_and!; [| |done].
  - intros t t' d d' k Ht Ht' H1 H2. by eapply (omap_lookup_unique keeps).
  - intros t d k Ht H1 Hin. apply (Hd _ Hin). apply list_elem_of_omap. exists d.
    split; [by eapply list_elem_of_lookup_2|done].
Qed.

Lemma blocking_holder_exclusive_witness :
  let s := lazy_run 2 (take_new 0 MTry ++ wait_for_one 1 (MSync false)) in
  bclients s = [CLeased 0; CWait false None] ∧ NoDup (free_ (bpool s)).
Proof.
  split; [reflexivity|]. apply (blocking_holder_exclusive (λ _, true) lazy_config 2); [apply lazy_config_valid|].
  apply lazy_run_reachable.
Defined.

(** How many holders callers have. *)
Definition borrowed (s : bsystem) : nat := length (omap borrows (bclients s)).

(** C26: until [shutdown], the pool's holders are exactly the free ones and
    those that callers have: none is lost; [created_] counts them, and
    [active_count()] is the number of borrowed ones.  A holder assigned to a
    blocked caller is still there when it wakes up. *)
Theorem blocking_pool_conserves (oks : nat → bool) (c : PoolConfig) (threads : nat) (s : bsystem) :
  valid_config c → blocking_reachable oks c threads s → bshutdown_ (bpool s) = false →
  qid <$> holders_ (bpool s) ≡ₚ free_ (bpool s) ++ omap borrows (bclients s) ∧
  created_ (bpool s) = length (holders_ (bpool s)) ∧
  bactive_count (bpool s) = Z.of_nat (borrowed s) mod 2 ^ 64 ∧
  (∀ t b k, bclients s !! t = Some (CWait b (Some k)) → wake k (bpool s) = CLeased k).
Proof.
  intros Hc Hr Hs. pose proof (binv_reachable _ _ _ _ Hc Hr) as Hi.
  destruct (binv_holders _ _ Hi Hs) as [Hp Hl]. unfold lent in Hp. simpl in Hp. split_and!; [done..| |].
  - unfold bactive_count, borrowed. f_equal. apply Permutation_length in Hp.
    rewrite length_app, length_fmap in Hp. lia.
  - intros t b k Ht. unfold wake. destruct (find_holder k (bpool s)) eqn:Hf; [done|].
    apply find_holder_free in Hf. destruct Hf. rewrite Hp. apply elem_of_app. right.
    apply list_elem_of_omap. exists (CWait b (Some k)). split; [by eapply list_elem_of_lookup_2|done].
Qed.

Lemma blocking_pool_conserves_witness :
  let s := lazy_run 2 (take_new 0 MTry ++ wait_for_one 1 (MSync false) ++
                       [(0%nat, BReset true true true); (0%nat, BTau)]) in
  bclients s = [CIdle; CWait false (Some 0%nat)] ∧
  bactive_count (bpool s) = Z.of_nat (borrowed s) mod 2 ^ 64.
Proof.
  split; [reflexivity|].
  apply (blocking_pool_conserves (λ _, true) lazy_config 2); [apply lazy_config_valid| |reflexivity].
  apply lazy_run_reachable.
Defined.

(** C28: how many connections the blocking pool opens.  The check of the
    capacity and the increment of [created_] are in different critical sections,
    so that the capacity is not an upper bound; with [n] callers there are at
    most [capacity + n - 1] connections, and one connection more than the
    capacity does occur. *)
Theorem blocking_capacity_overshoot (oks : nat → bool) (c : PoolConfig) (threads : nat) (s : bsystem) :
  valid_config c → blocking_reachable oks c threads s → (1 ≤ threads)%nat →
  (created_ (bpool s) ≤ bcapacity (bpool s) + threads - 1)%nat ∧
  ∃ s', blocking_reachable (λ _, true) lazy_config 2 s' ∧ bcapacity (bpool s') = 1%nat ∧
        created_ (bpool s') = 2%nat ∧ bclients s' = [CLeased 0; CLeased 1].
Proof.
  intros Hc Hr Hn. split.
  - pose proof (binv_bound _ _ (binv_reachable _ _ _ _ Hc Hr)) as Hb.
    rewrite (length_reachable _ _ _ _ Hr) in Hb. unfold bcapacity in *. rewrite (config_reachable _ _ _ _ Hr) in *.
    destruct Hc as ((k & Hk & Ek) & _). pose proof (Z.pow_pos_nonneg 2 k). lia.
  - exists (lazy_run 2 [(0%nat, BCall MTry); (1%nat, BCall MTry); (0%nat, BTau); (1%nat, BTau);
      (0%nat, BTau); (1%nat, BTau); (0%nat, BConnect true); (1%nat, BConnect true); (0%nat, BTau); (1%nat, BTau)]).
    split; [apply lazy_run_reachable|]. by vm_compute.
Qed.

Lemma blocking_capacity_overshoot_witness :
  (created_ (bpool (lazy_run 3 (take_new 1 (MSync true)))) ≤ 1 + 3 - 1)%nat.
Proof.
  apply (blocking_capacity_overshoot (λ _, true) lazy_config 3 (lazy_run 3 (take_new 1 (MSync true))));
    [apply lazy_config_valid|apply lazy_run_reachable|lia].
Defined.

(** ** The queue *)

(** What a caller becomes when it is handed holder [k]. *)
Definition handed (k : nat) (d : bclient) : bclient :=
  match d with CWait b None => CWait b (Some k) | CAsync _ _ => CPosted (inl k) | _ => d end.

(** C27: the queue is fair and exact.  Until [shutdown], a caller waits if and
    only if it is in the queue, once, and no queued asynchronous caller is
    already claimed; a healthy connection given back goes to the caller at the
    head of the queue, blocked or asynchronous alike, and to the free list only
    if nobody waits. *)
Theorem blocking_queue_fifo (oks : nat → bool) (c : PoolConfig) (threads : nat) (s : bsystem) (t k : nat) :
  valid_config c → blocking_reachable oks c threads s → bshutdown_ (bpool s) = false →
  bclients s !! t = Some (CRelease k true) →
  NoDup (entry_thread <$> waiters_ (bpool s)) ∧
  (∀ u d e, bclients s !! u = Some d → entry_of u d = Some e → e ∈ waiters_ (bpool s)) ∧
  Forall (waiting_entry (bclients s)) (waiters_ (bpool s)) ∧
  bstep BTau t s =
    Some (match waiters_ (bpool s) with
          | [] => mkB (with_free (bpool s) (free_ (bpool s) ++ [k])) (<[t := CIdle]> (bclients s))
          | e :: ws => mkB (with_waiters (bpool s) ws)
                           (alter (handed k) (entry_thread e) (<[t := CIdle]> (bclients s)))
          end).
Proof.
  intros Hc Hr Hs Ht. pose proof (binv_reachable _ _ _ _ Hc Hr) as Hi.
  pose proof (binv_entries _ _ Hi) as Hf. split_and!; [apply Hi| |done|].
  { intros u d e. by apply (binv_queued _ _ Hi). }
  unfold bstep. rewrite Ht. simpl. f_equal. unfold return_holder. simpl. rewrite Hs.
  destruct (waiters_ (bpool s)) as [|e ws] eqn:Hw; cbn [hand_over].
  - unfold set_pool, with_free, with_waiters. simpl. by rewrite Hw.
  - apply Forall_cons_1 in Hf as [He _].
    assert (entry_thread e ≠ t) as Hne.
    { intros E. destruct e as [u|u]; simpl in *; destruct He as [b Hb]; congruence. }
    destruct e as [u|u]; simpl in *; destruct He as [b Hb].
    + f_equal. assert (<[t := CIdle]> (bclients s) !! u = Some (CWait b None)) as Hu
        by (by rewrite list_lookup_insert_ne).
      by rewrite !(alter_as_insert _ _ _ _ Hu).
    + assert (<[t := CIdle]> (bclients s) !! u = Some (CAsync b false)) as Hu by (by rewrite list_lookup_insert_ne).
      rewrite Hu. f_equal. by rewrite (alter_as_insert _ _ _ _ Hu).
Qed.

Lemma blocking_queue_fifo_witness :
  let s := lazy_run 3 (take_new 0 MTry ++ wait_for_one 1 (MAsync true) ++ wait_for_one 2 (MSync false) ++
                       [(0%nat, BReset true true true)]) in
  bclients s = [CRelease 0 true; CAsync true false; CWait false None] ∧
  bstep BTau 0 s =
    Some (mkB (with_waiters (bpool s) [SyncWaiter 2]) [CIdle; CPosted (inl 0%nat); CWait false None]).
Proof.
  split; [reflexivity|].
  refine (proj2 (proj2 (proj2 (blocking_queue_fifo (λ _, true) lazy_config 3 _ 0 0 _ _ _ _)))).
  - apply lazy_config_valid.
  - apply lazy_run_reachable.
  - reflexivity.
  - reflexivity.
Defined.

(** ** Schedules that go wrong *)

(** [t] cannot move, and everybody else is idle. *)
Definition stranded (s : bsystem) (t : nat) : Prop :=
  (∀ l, bstep l t s = None) ∧ ∀ u d, bclients s !! u = Some d → u ≠ t → d = CIdle.

(** A caller of the unbounded [acquire()] can be left waiting for ever
    although the pool could serve it, in two ways: [drop_dead] makes room for a
    new connection but wakes nobody; and a caller whose own attempt to connect
    failed joins the queue without looking at the free list again. *)
Theorem blocking_waiter_stranded :
  (∃ s, blocking_reachable (λ _, true) lazy_config 2 s ∧ stranded s 1 ∧
        (created_ (bpool s) < bcapacity (bpool s))%nat ∧ bshutdown_ (bpool s) = false) ∧
  (∃ s, blocking_reachable (λ _, true) lazy_config 2 s ∧ stranded s 1 ∧
        free_ (bpool s) = [0%nat] ∧ bshutdown_ (bpool s) = false).
Proof.
  split.
  - exists (lazy_run 2 (take_new 0 MTry ++ wait_for_one 1 (MSync false) ++
             [(0%nat, BReset false true true); (0%nat, BTau)])).
    split; [apply lazy_run_reachable|]. split; [|by vm_compute]. split; [by intros []|].
    intros [|[|u]] d H Hu; vm_compute in H; by simplify_eq.
  - exists (lazy_run 2 [(0%nat, BCall MTry); (1%nat, BCall (MSync false)); (0%nat, BTau); (1%nat, BTau);
      (0%nat, BTau); (1%nat, BTau); (0%nat, BConnect true); (1%nat, BConnect false); (0%nat, BTau);
      (0%nat, BReset true true true); (0%nat, BTau); (1%nat, BTau)]).
    split; [apply lazy_run_reachable|]. split; [|by vm_compute]. split; [by intros []|].
    intros [|[|u]] d H Hu; vm_compute in H; by simplify_eq.
Qed.

(** C36: [shutdown] destroys holders that callers still refer to: a blocked
    caller that was assigned a holder before [shutdown] dereferences its raw
    pointer afterwards; and a caller that was opening a connection meanwhile is
    given it by a pool that is shut down. *)
Theorem blocking_shutdown_dangles :
  (∃ s, blocking_reachable (λ _, true) lazy_config 3 s ∧ bclients s !! 1%nat = Some (CDangling 0)) ∧
  (∃ s, blocking_reachable (λ _, true) lazy_config 2 s ∧ bshutdown_ (bpool s) = true ∧
        bclients s = [CLeased 0; CIdle] ∧ created_ (bpool s) = 1%nat).
Proof.
  split.
  - exists (lazy_run 3 (take_new 0 MTry ++ wait_for_one 1 (MSync false) ++
      [(0%nat, BReset true true true); (0%nat, BTau); (2%nat, BShutdown); (2%nat, BTau); (1%nat, BTau)])).
    split; [apply lazy_run_reachable|by vm_compute].
  - exists (lazy_run 2 [(0%nat, BCall MTry); (0%nat, BTau); (0%nat, BTau); (1%nat, BShutdown); (1%nat, BTau);
      (0%nat, BConnect true); (0%nat, BTau)]).
    split; [apply lazy_run_reachable|by vm_compute].
Qed.
