(* ===== verification/Sessions.v ===== *)
(** * Sessions

    [session/free_lock/postgres_free_lock_session.cpp] and
    [session/blocking/postgres_blocking_session.cpp]: the sessions put the
    pools, the transactions and the error codes together.  A capability (an
    executor or a transaction) is the slot or holder it was given; its
    destructor gives the connection back.  libpq's answers to the clean-up at
    release are arguments. *)

From S2P Require Import Prelude PoolConfig ErrorCodes Transaction ConnectionPool ConnectionPoolSafety ConnectionPoolTheorems BlockingPool BlockingPoolSafety.
From stdpp Require Import list relations sets.

Local Open Scope Z_scope.
Local Open Scope demi_scope.

(** What a session reports: a pool error, or the error of BEGIN. *)
Inductive session_error : Type :=
  | PoolError (c : ErrorCode)
  | BeginError (e : Transaction.error_kind).

(** [gears::Outcome<A, ErrorContext>] *)
Abbreviation outcome A := (session_error + A)%type.

Definition pool_error (c : Client.ClientErrorCode) : session_error := PoolError (ErrorCodes.client c).

(** ** LockFreeSession *)

Module LockFree.
Section Session.
(** [acquire_slot], or [acquire_slot_wait] in the variants with a timeout. *)
Variable acquire : Pool → option nat * Pool.
(** libpq's answers when a connection is given back. *)
Variables status_ok exec_ok : bool.

(** [with_sync] and [with_async], with and without a timeout *)
Definition with_sync (p : Pool) : outcome nat * Pool :=
  let '(r, p') := acquire p in
  (match r with Some idx => inr idx | None => inl (pool_error Client.PoolExhausted) end, p').

(** [~SyncExecutor] *)
Definition executor_destroy (idx : nat) (p : Pool) : Pool := ConnectionPool.reset status_ok exec_ok idx p.

Definition begin_transaction (opts : TransactionOptions) (p : Pool) : outcome (nat * Transaction) * Pool :=
  let '(r, p') := acquire p in
  (match r with Some idx => inr (idx, make_transaction opts) | None => inl (pool_error Client.PoolExhausted) end, p').

(** [~Transaction]: ROLLBACK if it is still active, then [reset] of its slot. *)
Definition transaction_destroy (idx : nat) (tx : Transaction) (w : Transaction.world) (p : Pool)
    : Transaction.world * Pool :=
  let w' := Transaction.destroy tx w in
  (w', if (released w <? released w')%nat then ConnectionPool.reset status_ok exec_ok idx p else p).

(** [begin_auto_transaction]: where the local [tx] goes out of scope without
    being returned, its destructor runs. *)
Definition begin_auto_transaction (opts : TransactionOptions) (w : Transaction.world) (p : Pool)
    : result (outcome (nat * Transaction)) * Transaction.world * Pool :=
  let '(r, p1) := acquire p in
  match r with
  | None => (Ok (inl (pool_error Client.PoolExhausted)), w, p1)
  | Some idx =>
      let tx := make_transaction opts in
      match Transaction.begin tx w with
      | Throw e =>
          let '(w2, p2) := transaction_destroy idx tx w p1 in (Throw e, w2, p2)
      | Ok (Error e, tx', w1) =>
          let '(w2, p2) := transaction_destroy idx tx' w1 p1 in (Ok (inl (BeginError e)), w2, p2)
      | Ok (Transaction.Success _, tx', w1) => (Ok (inr (idx, tx')), w1, p1)
      end
  end.
End Session.

(** The session itself: the pool, and the janitor over it. *)
Record session := mkSession { pool_ : Pool; janitor_running : bool }.
Definition make_session (oks : nat → bool) (c : PoolConfig) : session := mkSession (make_pool oks c) true.
Definition shutdown (s : session) : session := mkSession (ConnectionPool.shutdown (pool_ s)) false.
(** [~LockFreeSession]: [shutdown], then the members. *)
Definition destroy (s : session) : Pool := destroy_pool (pool_ (shutdown s)).
Definition pool_capacity (s : session) : nat := capacity (pool_ s).
Definition pool_active_count (s : session) : nat := active_count (pool_ s).
Definition pool_free_count (s : session) : nat := free_count (pool_ s).
Definition is_shutdown (s : session) : bool := ConnectionPool.is_shutdown (pool_ s).
End LockFree.

(** ** BlockingSession *)

Module Blocking.
(** The variants of [acquire] by how they wait. *)
Definition map_empty_weak_timed (p : BPool) : Client.ClientErrorCode :=
  if bshutdown_ p then Client.PoolShutdown else Client.WaitTimeout.

(** The error of a capability request that was given an expired pointer. *)
Definition expired_error (m : mode) (p : BPool) : session_error :=
  pool_error (match m with
              | MTry => Client.PoolExhausted
              | MSync true => map_empty_weak_timed p
              | _ => Client.PoolShutdown
              end).

(** [with_async]: the completion of [async_acquire]. *)
Definition async_outcome (bounded : bool) (ec : option acquire_error) (holder_sp : option nat) : outcome nat :=
  match ec with
  | Some operation_aborted => inl (pool_error Client.PoolShutdown)
  | Some timed_out => inl (pool_error (if bounded then Client.WaitTimeout else Client.PoolShutdown))
  | None => match holder_sp with
            | Some k => inr k
            | None => inl (pool_error Client.PoolShutdown)
            end
  end.

(** The outcome that a caller in mode [m] sees when its acquisition is over. *)
Definition session_outcome (m : mode) (p : BPool) (c : bclient) : option (outcome nat) :=
  match m, c with
  | MAsync b, CPosted (inl k) => Some (async_outcome b None (Some k))
  | MAsync b, CPosted (inr e) => Some (async_outcome b (Some e) None)
  | MTry, CLeased k | MSync _, CLeased k => Some (inr k)
  | MTry, CFailed _ | MSync _, CFailed _ => Some (inl (expired_error m p))
  | _, _ => None
  end.

(** The three [begin_auto_transaction] variants, after the acquisition; they
    are [noexcept].  The boolean is whether the holder was given back. *)
Definition begin_auto_transaction (opts : TransactionOptions) (w : Transaction.world) (r : outcome nat)
    : result (outcome (nat * Transaction) * Transaction.world) :=
  match r with
  | inl e => Ok (inl e, w)
  | inr k =>
      let tx := make_transaction opts in
      match Transaction.begin tx w with
      | Throw _ => Throw terminate
      | Ok (Error e, tx', w1) => Ok (inl (BeginError e), Transaction.destroy tx' w1)
      | Ok (Transaction.Success _, tx', w1) => Ok (inr (k, tx'), w1)
      end
  end.

(** [try_begin_transaction] and the two [begin_transaction], by the way they
    wait: the outcome of the acquisition with a transaction around the holder. *)
Definition begin_transaction (m : mode) (opts : TransactionOptions) (p : BPool) (c : bclient)
    : option (outcome (nat * Transaction)) :=
  match session_outcome m p c with
  | Some (inr k) => Some (inr (k, make_transaction opts))
  | Some (inl e) => Some (inl e)
  | None => None
  end.

Definition pool_capacity (p : BPool) : nat := bcapacity p.
Definition pool_active_count (p : BPool) : Z := bactive_count p.
Definition pool_free_count (p : BPool) : nat := bfree_count p.
Definition pool_waiter_count (p : BPool) : nat := bwaiter_count p.
Definition is_shutdown (p : BPool) : bool := bshutdown_ p.
End Blocking.

(** ** After shutdown *)

(** A lock-free session that was shut down hands out nothing, whatever the
    connections and the other threads do, counts no free connection, and leaves
    the leased ones alone; shutting down twice is shutting down once. *)
Theorem lockfree_shutdown_refuses (s : LockFree.session) (opts : TransactionOptions) (oks : nat → bool)
    (oks' : nat → nat → bool) (others : nat → Pool → Pool) (timeout : Z) :
  let s' := LockFree.shutdown s in
  shutdown_ (LockFree.pool_ s) = false →
  LockFree.is_shutdown s' = true ∧ LockFree.shutdown s' = s' ∧
  (∀ acquire, acquire = acquire_slot oks ∨ acquire = acquire_slot_wait oks' others timeout →
     LockFree.with_sync acquire (LockFree.pool_ s') = (inl (pool_error Client.PoolExhausted), LockFree.pool_ s') ∧
     LockFree.begin_transaction acquire opts (LockFree.pool_ s') = (inl (pool_error Client.PoolExhausted), LockFree.pool_ s')) ∧
  LockFree.pool_free_count s' = 0%nat ∧ LockFree.pool_active_count s' = LockFree.pool_active_count s.
Proof.
  intros s' Hs. assert (shutdown_ (LockFree.pool_ s') = true) as Hd.
  { subst s'. cbn. unfold ConnectionPool.shutdown. by rewrite Hs. }
  split_and!; [done| | | |].
  - unfold LockFree.shutdown at 1. unfold ConnectionPool.shutdown. rewrite Hd. by subst s'.
  - intros acquire Ha.
    assert (acquire (LockFree.pool_ s') = (None, LockFree.pool_ s')) as E.
    { destruct Ha as [->| ->]; unfold acquire_slot_wait, acquire_slot; rewrite Hd; [done|].
      destruct (timeout <=? 0); [done|]. cbn [acquire_attempts]. by rewrite Hd. }
    unfold LockFree.with_sync, LockFree.begin_transaction. by rewrite E.
  - unfold LockFree.pool_free_count, free_count. subst s'. cbn. unfold ConnectionPool.shutdown. rewrite Hs. cbn [slots_ with_slots].
    induction (slots_ (LockFree.pool_ s)) as [|x l IH]; [done|]. cbn [fmap list_fmap]. rewrite filter_cons.
    case_decide as Hf; [|done]. unfold shutdown_slot in Hf. by destruct (status x) eqn:E; cbn in Hf; congruence.
  - unfold LockFree.pool_active_count, active_count. subst s'. cbn. unfold ConnectionPool.shutdown. rewrite Hs. cbn [slots_ with_slots].
    induction (slots_ (LockFree.pool_ s)) as [|x l IH]; [done|]. cbn [fmap list_fmap]. rewrite !filter_cons.
    assert (active (shutdown_slot x) = active x) as ->.
    { unfold active, shutdown_slot. by destruct (status x) eqn:E; cbn; rewrite ?E. }
    case_decide; cbn; [by rewrite IH|done].
Qed.

Lemma lockfree_shutdown_refuses_witness :
  let s := LockFree.make_session (λ _, true) default_config in
  shutdown_ (LockFree.pool_ s) = false ∧
  LockFree.is_shutdown (LockFree.shutdown s) = true ∧ LockFree.pool_free_count (LockFree.shutdown s) = 0%nat.
Proof.
  split; [reflexivity|].
  destruct (lockfree_shutdown_refuses (LockFree.make_session (λ _, true) default_config)
    (mkOptions READ_COMMITTED READ_WRITE false) (λ _, true) (λ _ _, true) (λ _ p, p) 0 eq_refl) as (H1 & _ & _ & H2 & _).
  by split.
Defined.

(** ** The lock-free session gives back what it does not return *)

Lemma reset_status a b idx p x :
  slots_ p !! idx = Some x → status_at (ConnectionPool.reset a b idx p) idx ≠ Some USED.
Proof.
  intros Hx. unfold ConnectionPool.reset. rewrite Hx. destruct (run_cleanup_sql _ _ _) as [[clean h] sent].
  rewrite status_store by (simpl; rewrite length_alter; by eapply lookup_lt_Some).
  case_decide; [|done]. by destruct clean.
Qed.

Lemma destroy_releases tx w : holder_ tx = true → released (Transaction.destroy tx w) = S (released w).
Proof. intros H. unfold Transaction.destroy. rewrite H. by case_decide. Qed.

Lemma transaction_destroy_gives_back a b idx tx w p x :
  holder_ tx = true → slots_ p !! idx = Some x →
  status_at (LockFree.transaction_destroy a b idx tx w p).2 idx ≠ Some USED.
Proof.
  intros Hh Hx. unfold LockFree.transaction_destroy. rewrite (destroy_releases tx w Hh). simpl.
  destruct (Nat.ltb_spec (released w) (S (released w))); [|lia]. by eapply reset_status.
Qed.

(** C29: [LockFreeSession::begin_auto_transaction] does not leak a slot.
    Without interference: when it returns a transaction, BEGIN was accepted and
    the transaction is active on a slot that is leased; when it returns an
    error or throws, the slot it had acquired is no longer leased; it throws
    exactly for options that BEGIN cannot express; and it reports exhaustion
    exactly when the pool has no slot, without sending anything. *)
Theorem auto_transaction_no_leak (oks : nat → bool) (a b : bool) (opts : TransactionOptions)
    (w : Transaction.world) (p : Pool) :
  valid_config (pool_config_ p) → length (slots_ p) = capacity p →
  let '(r, w', p') := LockFree.begin_auto_transaction (acquire_slot oks) a b opts w p in
  match (acquire_slot oks p).1 with
  | None => r = Ok (inl (pool_error Client.PoolExhausted)) ∧ w' = w
  | Some idx =>
      match to_begin_sql opts with
      | Throw e => r = Throw e ∧ log w' = log w ∧ status_at p' idx ≠ Some USED
      | Ok sql =>
          log w' = log w ++ [sql] ∧
          if script w (length (log w))
          then ∃ tx, r = Ok (inr (idx, tx)) ∧ status_ tx = ACTIVE ∧ released w' = released w ∧
                     status_at p' idx = Some USED
          else r = Ok (inl (BeginError ServerError)) ∧ released w' = S (released w) ∧
               status_at p' idx ≠ Some USED
      end
  end.
Proof.
  intros Hv Hlen. pose proof (acquire_slot_used oks p) as Hspec.
  unfold LockFree.begin_auto_transaction. destruct (acquire_slot oks p) as [[idx|] p1] eqn:E; simpl; [|done].
  pose proof (Hspec _ _ Hv Hlen eq_refl) as Hu.
  destruct (slots_ p1 !! idx) as [x|] eqn:Hx; [|by unfold status_at in Hu; rewrite Hx in Hu].
  unfold Transaction.begin. case_decide as Hd; [done|]. simpl.
  assert ((released w <? S (released w))%nat = true) as Hrel by (apply Nat.ltb_lt; lia).
  destruct (to_begin_sql opts) as [sql|e]; simpl.
  - unfold execute_control, execute. destruct (script w (length (log w))) eqn:Hok; simpl.
    + split; [done|]. eexists. by split_and!.
    + split_and!; [done..|]. rewrite Hrel. by eapply reset_status.
  - split_and!; [done..|]. rewrite Hrel. by eapply reset_status.
Qed.

Lemma auto_transaction_no_leak_witness :
  let p := make_pool (λ _, true) small_config in
  let w := Transaction.mkWorld (λ _, false) [] 0 in
  let opts := mkOptions SERIALIZABLE READ_ONLY true in
  (LockFree.begin_auto_transaction (acquire_slot (λ _, true)) true true opts w p).1.1 = Ok (inl (BeginError ServerError)) ∧
  status_at (LockFree.begin_auto_transaction (acquire_slot (λ _, true)) true true opts w p).2 0 ≠ Some USED.
Proof.
  split; [reflexivity|].
  pose proof (auto_transaction_no_leak (λ _, true) true true (mkOptions SERIALIZABLE READ_ONLY true)
    (Transaction.mkWorld (λ _, false) [] 0) (make_pool (λ _, true) small_config) small_config_valid eq_refl) as H.
  simpl in H. exact (proj2 (proj2 (proj2 H))).
Defined.

(** ** What the blocking session reports *)

(** The mode a caller acquires in. *)
Definition mode_of (c : bclient) : option mode :=
  match c with
  | CEnter m | CLock m | CCreate m | CLocked m _ => Some m
  | CWait b _ => Some (MSync b)
  | CAsync b _ => Some (MAsync b)
  | _ => None
  end.

(** [BlockingSession] names the reason of a failure truthfully.  When a
    step of a caller that acquires in mode [m] ends with an error, then the
    error is PoolShutdown only if the pool is shut down; WaitTimeout is only
    reported to callers that gave a timeout; PoolExhausted only to those that
    did not want to wait. *)
Theorem blocking_errors_truthful (l : blabel) (t : nat) (s s' : bsystem) (c c' : bclient) (m : mode)
    (e : session_error) :
  bstep l t s = Some s' → bclients s !! t = Some c → mode_of c = Some m → bclients s' !! t = Some c' →
  Blocking.session_outcome m (bpool s') c' = Some (inl e) →
  (e = pool_error Client.PoolShutdown ∧ bshutdown_ (bpool s') = true) ∨
  (e = pool_error Client.WaitTimeout ∧ (m = MSync true ∨ m = MAsync true)) ∨
  (e = pool_error Client.PoolExhausted ∧ m = MTry).
Proof.
  intros Hs Ht Hm Ht' He. unfold bstep in Hs. rewrite Ht in Hs. simpl in Hs.
  assert (t < length (bclients s))%nat as Hlt by by eapply lookup_lt_Some.
  unfold first_section, second_section, enqueue, set_client, refused, granted, wake, try_create_holder,
    on_async_waiter_timeout in Hs.
  destruct c as [|m0|m0|m0|m0 r|b [k|]|b cl|[k|x]|k|k h|k| |x], l; simplify_eq/=;
    repeat (case_match; simplify_eq/=); rewrite ?list_lookup_insert_eq in Ht' by done; simplify_eq/=.
  all: try (by rewrite Ht in Ht'; simplify_eq).
  all: unfold Blocking.expired_error, Blocking.map_empty_weak_timed in *; simpl in *.
  all: repeat (case_match; simplify_eq/=); auto; try congruence.
  all: by destruct m.
Qed.

Lemma blocking_errors_truthful_witness :
  let s := mkB (mkBPool default_config [] [] [SyncWaiter 0] 16 false 16) [CWait true None] in
  let s' := mkB (mkBPool default_config [] [] [] 16 false 16) [CFailed None] in
  bstep BTimeout 0 s = Some s' ∧
  ((pool_error Client.WaitTimeout = pool_error Client.PoolShutdown ∧ bshutdown_ (bpool s') = true) ∨
   (pool_error Client.WaitTimeout = pool_error Client.WaitTimeout ∧ (MSync true = MSync true ∨ MSync true = MAsync true)) ∨
   (pool_error Client.WaitTimeout = pool_error Client.PoolExhausted ∧ MSync true = MTry)).
Proof.
  split; [reflexivity|].
  apply (blocking_errors_truthful BTimeout 0
    (mkB (mkBPool default_config [] [] [SyncWaiter 0] 16 false 16) [CWait true None])
    (mkB (mkBPool default_config [] [] [] 16 false 16) [CFailed None]) (CWait true None) (CFailed None) (MSync true));
    reflexivity.
Defined.

(** The [begin_auto_transaction] of the blocking session is [noexcept], but
    [Transaction::begin] throws for options that BEGIN cannot express: where the
    lock-free session throws [invalid_argument], the blocking session terminates
    the program.  For every other option both behave alike. *)
Theorem blocking_auto_transaction_terminates (opts : TransactionOptions) (w : Transaction.world) (k : nat) :
  match to_begin_sql opts with
  | Throw _ => Blocking.begin_auto_transaction opts w (inr k) = Throw terminate
  | Ok sql =>
      ∃ r w', Blocking.begin_auto_transaction opts w (inr k) = Ok (r, w') ∧ log w' = log w ++ [sql] ∧
        if script w (length (log w))
        then r = inr (k, Transaction.with_status (make_transaction opts) ACTIVE) ∧ released w' = released w
        else r = inl (BeginError ServerError) ∧ released w' = S (released w)
  end.
Proof.
  unfold Blocking.begin_auto_transaction, Transaction.begin. case_decide as Hd; [done|]. simpl.
  destruct (to_begin_sql opts) as [sql|e]; simpl; [|done].
  unfold execute_control, execute. destruct (script w (length (log w))) eqn:Hok; simpl; eauto 10.
Qed.
