(* ===== verification/Executors.v ===== *)
(** * Executors

    [capabilities/executors]: [SyncExecutor] sends a query with libpq's blocking
    calls, [AsyncExecutor] with its non-blocking ones under a coroutine, and both
    hand the [PGresult] to [process_result].  libpq and Asio's descriptor are not
    part of the program: their calls are the operations of a class, and what the
    drivers rely on is stated as laws of that class.  The second half is the
    ownership of an executor: the pool's holder moves with it and is given back by
    its destructor. *)

From S2P Require Import Prelude Gears Bytes QueryAst Dialect PostgresParams ResultViews ErrorCodes QueryCompiler PoolConfig.
From stdpp Require Import gmap.

Local Open Scope demi_scope.

(** ** libpq *)

Abbreviation Params := PostgresParams.Params.

(** What is sent: [PQexec]/[PQsendQuery], or [PQexecParams]/[PQsendQueryParams]
    with the four parallel arrays and the format asked of the results. *)
Inductive request : Type :=
  | SimpleQuery (query : string)
  | ParamQuery (query : string) (nParams : Z) (bound : list Bound) (resultFormat : Z).

Inductive wait_type : Type := wait_read | wait_write.

(** The calls the executors make; the connection object is the state. *)
Class Libpq (PGconn PGresult : Type) := {
  PQstatus : PGconn → ConnStatusType;
  PQerrorMessage : PGconn → option string;
  PQsocket : PGconn → Z;
  PQresultStatus : PGresult → ExecStatusType;
  PQresultErrorField : PGresult → DiagField → option string;
  PQresultErrorMessage : PGresult → option string;
  PQexec : request → PGconn → option PGresult * PGconn;
  (** [true] is success *)
  PQsetnonblocking : PGconn → bool * PGconn;
  PQsendQuery : request → PGconn → bool * PGconn;
  PQflush : PGconn → Z * PGconn;
  PQconsumeInput : PGconn → bool * PGconn;
  PQisBusy : PGconn → bool * PGconn;
  PQgetResult : PGconn → option PGresult * PGconn;
  (** Asio: the message of the error code, if it is set; [None] is a wait for a
      socket that never becomes ready. *)
  async_wait : wait_type → PGconn → option (option string * PGconn);
}.

(** [gears::as_c_str] and [c_sql()]: what a [const char*] reader sees. *)
Definition c_string (s : string) : string :=
  string_of_list_ascii (InlineString.until_nul (list_ascii_of_string s)).

Section Driver.
Context {PGconn PGresult : Type} `{Libpq PGconn PGresult}.

(** ** The world *)

(** Connection objects by address, the results that were given to [PQclear],
    the pool's holders that are alive, and the holders given back so far, in
    order. *)
Record world := mkWorld {
  conns : gmap nat PGconn;
  cleared : list PGresult;
  holders : gmap nat ConnectionHolder;
  resets : list nat;
  closed_fds : list Z;
}.

Definition set_conns (cs : gmap nat PGconn) (w : world) : world :=
  mkWorld cs (cleared w) (holders w) (resets w) (closed_fds w).

(** A computation of a driver; [None] is a call through a null or dangling
    connection pointer, a wait that never completes, or a loop that has not ended
    within its fuel. *)
Definition drv (A : Type) : Type := world → option (A * world).

#[export] Instance drv_ret : MRet drv := λ A a w, Some (a, w).
#[export] Instance drv_bind : MBind drv := λ A B k m w,
  match m w with Some (a, w') => k a w' | None => None end.

(** A libpq call on the connection at [p]. *)
Definition call {A} (p : option nat) (f : PGconn → A * PGconn) : drv A := λ w,
  match p ≫= λ a, (a,.) <$> conns w !! a with
  | Some (a, c) => let '(r, c') := f c in Some (r, set_conns (<[a := c']> (conns w)) w)
  | None => None
  end.

(** A suspension on the connection at [p]: the coroutine is resumed when the
    operation completes, if it does. *)
Definition suspend {A} (p : option nat) (f : PGconn → option (A * PGconn)) : drv A := λ w,
  match p ≫= λ a, (a,.) <$> conns w !! a with
  | Some (a, c) =>
      match f c with
      | Some (r, c') => Some (r, set_conns (<[a := c']> (conns w)) w)
      | None => None
      end
  | None => None
  end.

(** The object a pointer leads to; null is [None]. *)
Definition peek (p : option nat) : drv (option PGconn) := λ w,
  match p with
  | None => Some (None, w)
  | Some a => match conns w !! a with Some c => Some (Some c, w) | None => None end
  end.

(** [PQclear]: nothing for a null pointer. *)
Definition PQclear (r : option PGresult) : drv () := λ w,
  Some ((), match r with
            | Some x => mkWorld (conns w) (cleared w ++ [x]) (holders w) (resets w) (closed_fds w)
            | None => w
            end).

Definition read_connection_error (p : option nat) : drv ErrorContext :=
  c ← peek p; mret (extract_connection_error PQstatus PQerrorMessage c).

(** ** Results *)

(** [ResultBlock] owns its result. *)
Record ResultBlock := mkBlock { res_ : option PGresult }.

Abbreviation outcome := (ErrorContext + ResultBlock)%type.

Definition process_result (result : option PGresult) : drv outcome :=
  match extract_error PQresultStatus PQresultErrorField PQresultErrorMessage result with
  | Some error_ctx => _ ← PQclear result; mret (inl error_ctx)
  | None => mret (inr (mkBlock result))
  end.

(** [~ResultBlock] *)
Definition block_destroy (b : ResultBlock) : drv () := PQclear (res_ b).

(** ** What the overloads send *)

(** The choice between the two calls, in both executors. *)
Definition request_of (query : string) (params : option Params) : request :=
  match params with
  | Some p =>
      match values p with
      | [] => SimpleQuery query
      | _ => ParamQuery query (int_of_size (length (values p))) (bound_params p) 1
      end
  | None => SimpleQuery query
  end.

(** ** SyncExecutor::execute *)

Record SyncExecutor := mkSync { s_conn_ : option nat; s_holder_ : option nat }.

Definition s_valid (e : SyncExecutor) : bool := bool_decide (s_conn_ e ≠ None).

Definition s_exchange (e : SyncExecutor) (rq : request) : drv outcome :=
  c ← peek (s_conn_ e);
  let ec := check_connection PQstatus c in
  if negb (is_success ec) then mret (inl (context_of ec))
  else
    result ← call (s_conn_ e) (PQexec rq);
    match result with
    | None => ec ← read_connection_error (s_conn_ e); mret (inl ec)
    | Some _ => process_result result
    end.

Definition s_execute_impl (e : SyncExecutor) (query : string) (params : option Params) : drv outcome :=
  s_exchange e (request_of query params).

(** ** AsyncExecutor::execute *)

(** [posix::stream_descriptor] *)
Record descriptor := mkDescriptor { native_fd : Z; is_open : bool }.

Record AsyncExecutor := mkAsync {
  a_conn_ : option nat;
  socket_ : option descriptor;
  cached_socket_fd_ : Z;
  a_holder_ : option nat;
}.

Definition a_valid (e : AsyncExecutor) : bool := bool_decide (a_conn_ e ≠ None) && bool_decide (is_Some (socket_ e)).

Definition socket_usable (e : AsyncExecutor) : bool :=
  match socket_ e with Some d => is_open d | None => false end.

Definition with_message (c : ErrorCode) (message detail : string) : ErrorContext :=
  mkContext c "" message detail "" "" None.

Definition validate_state (e : AsyncExecutor) : drv (option ErrorContext) :=
  c ← peek (a_conn_ e);
  let ec := check_connection PQstatus c in
  if negb (is_success ec) then
    match a_conn_ e with
    | Some _ => err ← read_connection_error (a_conn_ e); mret (Some err)
    | None => mret (Some (with_message (client Client.NotConnected) "Connection is null" ""))
    end
  else if negb (socket_usable e) then
    mret (Some (with_message (client Client.NotConnected) "Socket descriptor not available" ""))
  else
    current_fd ← call (a_conn_ e) (λ c, (PQsocket c, c));
    if bool_decide (current_fd = cached_socket_fd_ e) then mret None
    else mret (Some (with_message (client Client.InvalidState) "Connection was reset (socket fd changed)"
                       ("Expected fd " +:+ std_to_string (cached_socket_fd_ e) +:+ ", got " +:+
                        std_to_string current_fd))).

Definition wait_failed (message detail : string) : ErrorContext :=
  with_message (server Server.RuntimeError) message detail.

Fixpoint async_flush (fuel : nat) (e : AsyncExecutor) : drv (option ErrorContext) :=
  match fuel with
  | O => λ _, None
  | S fuel' =>
      flush_result ← call (a_conn_ e) PQflush;
      if (flush_result =? 0)%Z then mret None
      else if (flush_result <? 0)%Z then
        err ← read_connection_error (a_conn_ e); mret (Some err)
      else
        ec ← suspend (a_conn_ e) (async_wait wait_write);
        match ec with
        | Some msg => mret (Some (wait_failed "Socket write wait failed" msg))
        | None => async_flush fuel' e
        end
  end.

Fixpoint async_consume_until_ready (fuel : nat) (e : AsyncExecutor) : drv (option ErrorContext) :=
  match fuel with
  | O => λ _, None
  | S fuel' =>
      ec ← suspend (a_conn_ e) (async_wait wait_read);
      match ec with
      | Some msg => mret (Some (wait_failed "Socket read wait failed" msg))
      | None =>
          consumed ← call (a_conn_ e) PQconsumeInput;
          if negb consumed then
            err ← read_connection_error (a_conn_ e); mret (Some err)
          else
            busy ← call (a_conn_ e) PQisBusy;
            if negb busy then mret None else async_consume_until_ready fuel' e
      end
  end.

(** [while (PGresult* extra = PQgetResult(conn_)) PQclear(extra);] *)
Fixpoint drain (fuel : nat) (p : option nat) : drv () :=
  match fuel with
  | O => λ _, None
  | S fuel' =>
      extra ← call p PQgetResult;
      match extra with
      | Some _ => _ ← PQclear extra; drain fuel' p
      | None => mret ()
      end
  end.

Definition collect_single_result (fuel : nat) (e : AsyncExecutor) : drv outcome :=
  result ← call (a_conn_ e) PQgetResult;
  match result with
  | None => mret (inl (with_message (client Client.InvalidArgument) "No result returned from query" ""))
  | Some _ => _ ← drain fuel (a_conn_ e); process_result result
  end.

Definition a_exchange (fuel : nat) (e : AsyncExecutor) (rq : request) : drv outcome :=
  invalid ← validate_state e;
  match invalid with
  | Some err => mret (inl err)
  | None =>
      send_ok ← call (a_conn_ e) (PQsendQuery rq);
      if negb send_ok then err ← read_connection_error (a_conn_ e); mret (inl err)
      else
        flush_err ← async_flush fuel e;
        match flush_err with
        | Some err => mret (inl err)
        | None =>
            consume_err ← async_consume_until_ready fuel e;
            match consume_err with
            | Some err => mret (inl err)
            | None => collect_single_result fuel e
            end
        end
  end.

Definition a_execute_impl (fuel : nat) (e : AsyncExecutor) (query : string) (params : option Params)
    : drv outcome :=
  a_exchange fuel e (request_of query params).

(** ** The public overloads, over either implementation *)

Section Overloads.
Variable execute_impl : string → option Params → drv outcome.
Variables native_big empty_data_is_null : bool.
(** The error for a query that another provider's dialect compiled. *)
Variable wrong_provider : ErrorContext.

Definition execute (query : string) : drv outcome := execute_impl (c_string query) None.

Definition execute_params (query : string) (params : Params) : drv outcome :=
  execute_impl (c_string query) (Some params).

(** The variadic and the tuple overload: a fresh sink, one [push] per value. *)
Definition execute_args (query : string) (args : list FieldValue) : drv outcome :=
  let sink := fold_left (λ s v, (push_value native_big empty_data_is_null s v).1) args empty_params in
  execute_impl (c_string query) (Some sink).

Definition execute_static {MaxLen} (query : CompiledStaticQuery MaxLen) : drv outcome :=
  execute_args (static_c_sql query) (static_params_ query).

Definition execute_dynamic (query : CompiledDynamicQuery Params) : drv outcome :=
  if bool_decide (provider query ≠ PostgreSQL) then mret (inl wrong_provider)
  else execute_impl (c_string (dynamic_sql query)) (backend_packet query).
End Overloads.

Definition s_wrong_provider : ErrorContext :=
  mkContext (client Client.SyntaxError) "" "" "" "" "Wrong provider. Query was compiled not by PostgreSQL" None.
Definition a_wrong_provider : ErrorContext :=
  with_message (client Client.SyntaxError) "Query compiled for different provider"
    "Expected PostgreSQL, got different backend".

(** ** Ownership *)

(** [holder_.lock()] *)
Definition lock (h : option nat) (w : world) : option (nat * ConnectionHolder) :=
  h ≫= λ i, (i,.) <$> holders w !! i.

(** [if (auto live = holder_.lock()) live->reset();] *)
Definition reset_live (h : option nat) (w : world) : world :=
  match lock h w with
  | Some (i, _) => mkWorld (conns w) (cleared w) (holders w) (resets w ++ [i]) (closed_fds w)
  | None => w
  end.

(** [do_cleanup] *)
Definition do_cleanup (q : CleanupQuery) (h : option nat) (w : world) : world :=
  match lock h w with
  | Some (i, live) =>
      mkWorld (conns w) (cleared w) (<[i := set_cleanup q live]> (holders w)) (resets w) (closed_fds w)
  | None => w
  end.

(** The two constructors, [~SyncExecutor] and the moves. *)
Definition s_make (conn : option nat) : SyncExecutor := mkSync conn None.

Definition s_make_holder (holder : option nat) (w : world) : SyncExecutor :=
  mkSync (match lock holder w with Some (_, live) => conn_ live | None => None end) holder.

Definition s_destroy (e : SyncExecutor) (w : world) : world := reset_live (s_holder_ e) w.

Definition s_moved_out : SyncExecutor := mkSync None None.

(** The new object and what is left of [other]. *)
Definition s_move (other : SyncExecutor) : SyncExecutor * SyncExecutor := (other, s_moved_out).

(** [operator=] of two distinct objects; the assignment to itself does nothing. *)
Definition s_move_assign (this other : SyncExecutor) (w : world) : SyncExecutor * SyncExecutor * world :=
  (other, s_moved_out, reset_live (s_holder_ this) w).

(** [setup_connection]: [assigned] is whether the reactor accepts the
    descriptor. *)
Definition setup_connection (assigned : bool) (e : AsyncExecutor) (w : world)
    : option (result AsyncExecutor * world) :=
  (c ← peek (a_conn_ e);
   if negb (is_success (check_connection PQstatus c)) then mret (Throw runtime_error)
   else
     ok ← call (a_conn_ e) PQsetnonblocking;
     if negb ok then mret (Throw runtime_error)
     else
       fd ← call (a_conn_ e) (λ c, (PQsocket c, c));
       if (fd <? 0)%Z then mret (Throw runtime_error)
       else if negb assigned then mret (Throw runtime_error)
       else mret (Ok (mkAsync (a_conn_ e) (Some (mkDescriptor fd true)) fd (a_holder_ e)))) w.

(** The constructors; an exception leaves through them, and the destructor of
    the executor does not run. *)
Definition a_construct (assigned : bool) (conn holder : option nat) (w : world)
    : option (result AsyncExecutor * world) :=
  let e := mkAsync conn None (-1) holder in
  match conn with
  | None => Some (Ok e, w)
  | Some _ => setup_connection assigned e w
  end.

Definition a_make (assigned : bool) (conn : option nat) : world → option (result AsyncExecutor * world) :=
  a_construct assigned conn None.

Definition a_make_holder (assigned : bool) (holder : option nat) (w : world)
    : option (result AsyncExecutor * world) :=
  a_construct assigned (match lock holder w with Some (_, live) => conn_ live | None => None end) holder w.

(** [if (socket_ && socket_->is_open()) socket_->release();]: the descriptor
    object is left without its file descriptor. *)
Definition release_socket (s : option descriptor) : option descriptor :=
  match s with
  | Some d => if is_open d then Some (mkDescriptor (native_fd d) false) else s
  | None => None
  end.

(** [~unique_ptr<stream_descriptor>]: an open descriptor closes its file
    descriptor. *)
Definition drop_socket (s : option descriptor) (w : world) : world :=
  match s with
  | Some d => if is_open d
              then mkWorld (conns w) (cleared w) (holders w) (resets w) (closed_fds w ++ [native_fd d])
              else w
  | None => w
  end.

Definition a_destroy (e : AsyncExecutor) (w : world) : world :=
  let socket := release_socket (socket_ e) in
  drop_socket socket (reset_live (a_holder_ e) w).

Definition a_moved_out : AsyncExecutor := mkAsync None None (-1) None.
Definition a_move (other : AsyncExecutor) : AsyncExecutor * AsyncExecutor := (other, a_moved_out).

Definition a_move_assign (this other : AsyncExecutor) (w : world) : AsyncExecutor * AsyncExecutor * world :=
  let socket := release_socket (socket_ this) in
  let w := reset_live (a_holder_ this) w in
  (other, a_moved_out, drop_socket socket w).
End Driver.

Arguments world PGconn PGresult : clear implicits.
