(* ===== verification/ExecutorTheorems.v ===== *)
(** * What the executors guarantee

    The laws of libpq that the drivers rely on, the exchange of a request in
    both executors, the ownership of executors against an interface that both
    discharge, and the requests of the overloads.  [Loopback] is a connection
    that satisfies the laws. *)

From S2P Require Import Prelude Gears Bytes QueryAst Dialect PostgresDialect PostgresParams ResultViews ErrorCodes SqlGenerator SqlTemplate QueryCompiler CompilerTheorems PoolConfig Executors.
From stdpp Require Import gmap.

Local Open Scope demi_scope.

Abbreviation Params := PostgresParams.Params.

(** ** libpq's documented behaviour *)

(** A command string is answered by a list of results: [PQexec] returns the
    last one, [PQgetResult] returns them in order and then null; sending, waiting
    and reading change none of them. *)
Class LibpqLaws {PGconn PGresult : Type} (L : Libpq PGconn PGresult) := {
  answers : request → PGconn → list PGresult;
  ready : PGconn → list PGresult;
  unsent : PGconn → nat;
  unread : PGconn → nat;
  exec_last rq c : (PQexec rq c).1 = last (answers rq c);
  send_answers rq c c' : PQsendQuery rq c = (true, c') → ready c' = answers rq c;
  flush_keeps c : ready (PQflush c).2 = ready c;
  wait_keeps k c r c' : async_wait k c = Some (r, c') → ready c' = ready c;
  consume_keeps c : ready (PQconsumeInput c).2 = ready c;
  busy_keeps c : ready (PQisBusy c).2 = ready c;
  get_result c :
    (PQgetResult c).1 = head (ready c) ∧ ready (PQgetResult c).2 = tail (ready c);
}.

(** The link to the server does not fail during the exchange, and the server
    takes the request and answers it: every wait completes without an error, each
    round of flushing sends some of the [unsent] pieces, each round of reading
    takes in some of the [unread] ones.  Nothing guarantees this of a network; it
    is the assumption under which the two executors are compared. *)
Class ReliableLink {PGconn PGresult : Type} (L : Libpq PGconn PGresult) {LL : LibpqLaws L} : Prop := {
  send_works rq c : (PQsendQuery rq c).1 = true;
  flush_works c : (0 ≤ (PQflush c).1)%Z ∧ unread (PQflush c).2 ≤ unread c;
  wait_works k c : ∃ c', async_wait k c = Some (None, c') ∧ unread c' ≤ unread c;
  consume_works c : (PQconsumeInput c).1 = true;
  flush_progress c r c1 c2 :
    PQflush c = (r, c1) → (0 < r)%Z → async_wait wait_write c1 = Some (None, c2) → unsent c2 < unsent c;
  read_progress c c1 c2 c3 :
    async_wait wait_read c = Some (None, c1) → PQconsumeInput c1 = (true, c2) → PQisBusy c2 = (true, c3) →
    unread c3 < unread c;
}.

Section Exchange.
Context {PGconn PGresult : Type} {L : Libpq PGconn PGresult}.

Implicit Types (w : world PGconn PGresult) (c : PGconn) (a : nat).

(** The world with the connection at [a] in state [c], and with more results
    cleared. *)
Definition upd a c w : world PGconn PGresult := set_conns (<[a := c]> (conns w)) w.
Definition clear_all (rs : list PGresult) w : world PGconn PGresult :=
  mkWorld (conns w) (cleared w ++ rs) (holders w) (resets w) (closed_fds w).

Lemma upd_id a c w : conns w !! a = Some c → w = upd a c w.
Proof. intros E. destruct w. unfold upd, set_conns. simpl in *. by rewrite insert_id. Qed.

Lemma clear_all_app rs rs' w : clear_all rs' (clear_all rs w) = clear_all (rs ++ rs') w.
Proof. unfold clear_all. simpl. by rewrite app_assoc. Qed.
Lemma clear_all_nil w : clear_all [] w = w.
Proof. destruct w. unfold clear_all. simpl. by rewrite app_nil_r. Qed.

Lemma call_upd {A} a c w (f : PGconn → A * PGconn) :
  call (Some a) f (upd a c w) = Some ((f c).1, upd a (f c).2 w).
Proof.
  unfold call, upd. simpl. rewrite lookup_insert_eq. simpl. destruct (f c). simpl.
  unfold set_conns. simpl. by rewrite insert_insert_eq.
Qed.

Lemma suspend_upd {A} a c w (f : PGconn → option (A * PGconn)) r c' :
  f c = Some (r, c') → suspend (Some a) f (upd a c w) = Some (r, upd a c' w).
Proof.
  intros E. unfold suspend, upd. simpl. rewrite lookup_insert_eq. simpl. rewrite E.
  unfold set_conns. simpl. by rewrite insert_insert_eq.
Qed.

Lemma peek_upd a c w : peek (Some a) (upd a c w) = Some (Some c, upd a c w).
Proof. unfold peek, upd. simpl. by rewrite lookup_insert_eq. Qed.

Lemma peek_at a c w : conns w !! a = Some c → peek (Some a) w = Some (Some c, w).
Proof. unfold peek. by intros ->. Qed.

Lemma bind_eq {A B} (m : drv A) (k : A → drv B) w x w' :
  m w = Some (x, w') → (m ≫= k) w = k x w'.
Proof. intros E. unfold mbind, drv_bind. by rewrite E. Qed.


Lemma read_error_at a c w :
  conns w !! a = Some c →
  read_connection_error (Some a) w = Some (extract_connection_error PQstatus PQerrorMessage (Some c), w).
Proof. intros Hc. unfold read_connection_error. by rewrite (bind_eq _ _ _ _ _ (peek_at a c w Hc)). Qed.

(** What [process_result] makes of a result. *)
Definition error_of (r : PGresult) : option ErrorContext :=
  extract_error PQresultStatus PQresultErrorField PQresultErrorMessage (Some r).
Definition outcome_of (r : PGresult) : ErrorContext + ResultBlock (PGresult := PGresult) :=
  match error_of r with Some e => inl e | None => inr (mkBlock (Some r)) end.
Definition discarded (r : PGresult) : list PGresult :=
  match error_of r with Some _ => [r] | None => [] end.

Lemma process_result_eq r w : process_result (Some r) w = Some (outcome_of r, clear_all (discarded r) w).
Proof.
  unfold process_result, outcome_of, discarded, error_of. destruct (extract_error _ _ _ _); [done|].
  by rewrite clear_all_nil.
Qed.

(** A connection that the executor was set up on, and still fits it. *)
Definition async_ready (e : AsyncExecutor) a c : Prop :=
  a_conn_ e = Some a ∧ PQstatus c = CONNECTION_OK ∧ socket_usable e = true ∧ PQsocket c = cached_socket_fd_ e.

Lemma check_ok c : PQstatus c = CONNECTION_OK → is_success (check_connection PQstatus (Some c)) = true.
Proof. intros E. unfold check_connection. by rewrite E. Qed.

Lemma validate_ready e a c w :
  async_ready e a c → validate_state e (upd a c w) = Some (None, upd a c w).
Proof.
  intros (Ha & Hs & Hu & Hfd). unfold validate_state. rewrite Ha.
  rewrite (bind_eq _ _ _ _ _ (peek_upd a c w)), check_ok, Hu by done. cbn [negb].
  rewrite (bind_eq _ _ _ _ _ (call_upd a c w _)). cbn [fst snd]. by rewrite bool_decide_true.
Qed.

Section Laws.
Context {LL : LibpqLaws L}.

Lemma flush_returns `{!ReliableLink L} e a w fuel c :
  a_conn_ e = Some a → unsent c < fuel →
  ∃ c', async_flush fuel e (upd a c w) = Some (None, upd a c' w) ∧ ready c' = ready c ∧ unread c' ≤ unread c.
Proof.
  intros Ha. revert c. induction fuel as [|fuel IH]; intros c Hf; [lia|]. cbn [async_flush]. rewrite Ha.
  rewrite (bind_eq _ _ _ _ _ (call_upd a c w _)).
  pose proof (flush_keeps c) as Hr. pose proof (flush_works c) as [Hw Hu].
  destruct (PQflush c) as [z c1] eqn:E. cbn [fst snd] in *.
  destruct (Z.eqb_spec z 0) as [->|Hz]; [by eexists c1|].
  destruct (Z.ltb_spec z 0) as [Hlt|Hge]; [lia|].
  destruct (wait_works wait_write c1) as (c2 & E2 & Hu2). pose proof (wait_keeps _ _ _ _ E2) as Hr2.
  rewrite (bind_eq _ _ _ _ _ (suspend_upd a c1 w _ _ _ E2)).
  pose proof (flush_progress c z c1 c2 E ltac:(lia) E2) as Hp.
  destruct (IH c2 ltac:(lia)) as (c' & -> & H1 & H2). exists c'. split_and!; [done|congruence|lia].
Qed.

Lemma consume_returns `{!ReliableLink L} e a w fuel c :
  a_conn_ e = Some a → unread c < fuel →
  ∃ c', async_consume_until_ready fuel e (upd a c w) = Some (None, upd a c' w) ∧ ready c' = ready c.
Proof.
  intros Ha. revert c. induction fuel as [|fuel IH]; intros c Hf; [lia|].
  cbn [async_consume_until_ready]. rewrite Ha.
  destruct (wait_works wait_read c) as (c1 & E1 & _). pose proof (wait_keeps _ _ _ _ E1) as Hr.
  rewrite (bind_eq _ _ _ _ _ (suspend_upd a c w _ _ _ E1)).
  rewrite (bind_eq _ _ _ _ _ (call_upd a c1 w _)). pose proof (consume_keeps c1) as Hr2.
  pose proof (consume_works c1) as Hw.
  destruct (PQconsumeInput c1) as [[|] c2] eqn:E2; cbn [fst snd negb] in *; [|done].
  rewrite (bind_eq _ _ _ _ _ (call_upd a c2 w _)). pose proof (busy_keeps c2) as Hr3.
  destruct (PQisBusy c2) as [[|] c3] eqn:E3; cbn [fst snd negb] in *.
  - pose proof (read_progress c c1 c2 c3 E1 E2 E3) as Hp.
    destruct (IH c3 ltac:(lia)) as (c' & -> & H1). exists c'. split; [done|congruence].
  - exists c3. split; [done|congruence].
Qed.

Lemma drain_returns a w fuel c :
  length (ready c) < fuel →
  ∃ c', drain fuel (Some a) (upd a c w) = Some ((), upd a c' (clear_all (ready c) w)) ∧ ready c' = [].
Proof.
  revert c w. induction fuel as [|fuel IH]; intros c w Hf; [lia|]. cbn [drain].
  rewrite (bind_eq _ _ _ _ _ (call_upd a c w _)).
  pose proof (get_result c) as [Hh Ht]. destruct (PQgetResult c) as [r c1]. cbn [fst snd] in *.
  destruct (ready c) as [|x q]; cbn [head tail length] in *; subst r.
  { exists c1. by rewrite clear_all_nil. }
  destruct (IH c1 (clear_all [x] w)) as (c' & E & H'); [rewrite Ht; lia|].
  exists c'. split; [|done]. rewrite Ht, clear_all_app in E. exact E.
Qed.

(** The result of the first command is kept, the others are discarded. *)
Lemma collect_first e a w fuel c :
  a_conn_ e = Some a → length (ready c) ≤ fuel →
  ∃ c', ready c' = [] ∧
    collect_single_result fuel e (upd a c w) =
    Some (match ready c with
          | [] => (inl (with_message (client Client.InvalidArgument) "No result returned from query" ""),
                   upd a c' w)
          | r :: rest => (outcome_of r, upd a c' (clear_all (rest ++ discarded r) w))
          end).
Proof.
  intros Ha Hf. unfold collect_single_result. rewrite Ha.
  rewrite (bind_eq _ _ _ _ _ (call_upd a c w _)).
  pose proof (get_result c) as [Hh Ht]. destruct (PQgetResult c) as [r c1]. cbn [fst snd] in *.
  destruct (ready c) as [|x q]; cbn [head tail length] in *; subst r; [by exists c1|].
  destruct (drain_returns a w fuel c1) as (c' & E & H'); [rewrite Ht; lia|].
  exists c'. split; [done|]. rewrite (bind_eq _ _ _ _ _ E), process_result_eq, Ht.
  unfold upd, set_conns, clear_all. simpl. by rewrite app_assoc.
Qed.

(** Enough fuel for an exchange on a connection in state [c]. *)
Definition enough (rq : request) c (fuel : nat) : Prop :=
  let c' := (PQsendQuery rq c).2 in
  unsent c' < fuel ∧ unread c' < fuel ∧ length (answers rq c) < fuel.

Lemma exchange `{!ReliableLink L} e a w fuel c query params :
  async_ready e a c → enough (request_of query params) c fuel →
  ∃ c', ready c' = [] ∧ a_execute_impl fuel e query params (upd a c w) =
    Some (match answers (request_of query params) c with
          | [] => (inl (with_message (client Client.InvalidArgument) "No result returned from query" ""),
                   upd a c' w)
          | r :: rest => (outcome_of r, upd a c' (clear_all (rest ++ discarded r) w))
          end).
Proof.
  intros Hr (H1 & H2 & H3). pose proof Hr as (Ha & _). unfold a_execute_impl, a_exchange.
  rewrite (bind_eq _ _ _ _ _ (validate_ready e a c w Hr)), Ha.
  rewrite (bind_eq _ _ _ _ _ (call_upd a c w _)).
  pose proof (send_answers (request_of query params) c) as Hs.
  pose proof (send_works (request_of query params) c) as Hw.
  destruct (PQsendQuery (request_of query params) c) as [[|] c1] eqn:E; cbn [fst snd negb] in *; [|done].
  specialize (Hs c1 eq_refl).
  destruct (flush_returns e a w fuel c1) as (c2 & E2 & R2 & U2); [done..|].
  rewrite (bind_eq _ _ _ _ _ E2).
  destruct (consume_returns e a w fuel c2) as (c3 & E3 & R3); [done|lia|].
  rewrite (bind_eq _ _ _ _ _ E3).
  destruct (collect_first e a w fuel c3) as (c4 & R4 & E4); [done|rewrite R3, R2, Hs; lia|].
  exists c4. split; [done|]. by rewrite E4, R3, R2, Hs.
Qed.
End Laws.
End Exchange.

(** ** The exchange *)

Section ExchangeTheorems.
Context {PGconn PGresult : Type} {L : Libpq PGconn PGresult} {LL : LibpqLaws L}.
Implicit Types (w : world PGconn PGresult) (c : PGconn) (a : nat).

Lemma sync_exchange e a w c query params r :
  s_conn_ e = Some a → PQstatus c = CONNECTION_OK → last (answers (request_of query params) c) = Some r →
  ∃ c', s_execute_impl e query params (upd a c w) = Some (outcome_of r, upd a c' (clear_all (discarded r) w)).
Proof.
  intros Ha Hs Hl. unfold s_execute_impl, s_exchange. rewrite Ha, (bind_eq _ _ _ _ _ (peek_upd a c w)), check_ok by done.
  cbn [negb]. rewrite (bind_eq _ _ _ _ _ (call_upd a c w _)).
  pose proof (exec_last (request_of query params) c) as He. rewrite Hl in He.
  destruct (PQexec _ c) as [x c']. cbn [fst snd] in *. subst x. rewrite process_result_eq. by exists c'.
Qed.

Lemma last_is_some (rs : list PGresult) : rs ≠ [] → is_Some (last rs).
Proof. intros H. destruct (last rs) eqn:E; [done|]. by apply last_None in E. Qed.

(** C12: over a link that does not fail, both executors return, and on a
    command string with a single result they return the same: the
    [ErrorContext] of the result, which has then been cleared, or a
    [ResultBlock] that owns it.  The asynchronous one drains the connection, and
    neither touches another connection. *)
Theorem executors_agree es ea a c w fuel query params r :
  ReliableLink L → conns w !! a = Some c → s_conn_ es = Some a → async_ready ea a c →
  answers (request_of query params) c = [r] → enough (request_of query params) c fuel →
  ∃ w1 w2 c',
    s_execute_impl es query params w = Some (outcome_of r, w1) ∧
    a_execute_impl fuel ea query params w = Some (outcome_of r, w2) ∧
    cleared w1 = cleared w ++ discarded r ∧ cleared w2 = cleared w ++ discarded r ∧
    conns w2 !! a = Some c' ∧ ready c' = [] ∧
    (∀ b, b ≠ a → conns w1 !! b = conns w !! b ∧ conns w2 !! b = conns w !! b).
Proof.
  intros R Hc Hs Ha Hr Hf. pose proof Ha as (_ & Hok & _).
  destruct (sync_exchange es a w c query params r) as [c1 E1]; [done|done|by rewrite Hr|].
  destruct (exchange ea a w fuel c query params Ha Hf) as (c2 & Hc2 & E2). rewrite Hr in E2.
  rewrite <- (upd_id a c w Hc) in E1, E2. eexists _, _, c2. split_and!; [exact E1|exact E2|done|done| |done|].
  - apply lookup_insert_eq.
  - intros b Hb. split; by apply lookup_insert_ne.
Qed.

(** C13: a command string with several statements separates the executors:
    the blocking one returns the outcome of the last result, the asynchronous one
    that of the first, and clears the others unread.  So when the first statement
    succeeds and the last one fails, the asynchronous executor reports success. *)
Theorem async_keeps_first_result es ea a c w fuel query params r rest :
  ReliableLink L → conns w !! a = Some c → s_conn_ es = Some a → async_ready ea a c →
  answers (request_of query params) c = r :: rest → enough (request_of query params) c fuel →
  ∃ rl w1 w2, last (r :: rest) = Some rl ∧
    s_execute_impl es query params w = Some (outcome_of rl, w1) ∧
    a_execute_impl fuel ea query params w = Some (outcome_of r, w2) ∧
    cleared w1 = cleared w ++ discarded rl ∧ cleared w2 = cleared w ++ rest ++ discarded r ∧
    (error_of r = None → ∀ err, error_of rl = Some err →
       outcome_of r = inr (mkBlock (Some r)) ∧ outcome_of rl = inl err).
Proof.
  intros R Hc Hs Ha Hr Hf. pose proof Ha as (_ & Hok & _).
  destruct (last_is_some (r :: rest)) as [rl Hl]; [done|].
  destruct (sync_exchange es a w c query params rl) as [c1 E1]; [done|done|by rewrite Hr|].
  destruct (exchange ea a w fuel c query params Ha Hf) as (c2 & _ & E2). rewrite Hr in E2.
  rewrite <- (upd_id a c w Hc) in E1, E2. eexists rl, _, _.
  split_and!; [done|exact E1|exact E2|done|done|]. intros En err Ee. unfold outcome_of. by rewrite En, Ee.
Qed.

(** An executor without a usable connection answers at once. *)
Definition unusable (p : option nat) w : Prop :=
  match p with
  | None => True
  | Some a => ∃ c, conns w !! a = Some c ∧ PQstatus c ≠ CONNECTION_OK
  end.

Lemma not_ok c : PQstatus c ≠ CONNECTION_OK → is_success (check_connection PQstatus (Some c)) = false.
Proof. intros Hn. unfold check_connection. by destruct (PQstatus c). Qed.

Lemma validate_unusable e w :
  unusable (a_conn_ e) w →
  ∃ err, validate_state e w = Some (Some err, w) ∧
    match a_conn_ e with
    | None => ctx_code err = client Client.NotConnected
    | Some a => ∀ c, conns w !! a = Some c → err = extract_connection_error PQstatus PQerrorMessage (Some c)
    end.
Proof.
  unfold validate_state. destruct (a_conn_ e) as [a|].
  - intros (c & Hc & Hn).
    rewrite (bind_eq _ _ _ _ _ (peek_at a c w Hc)), not_ok by done. cbn [negb].
    rewrite (bind_eq _ _ _ _ _ (read_error_at a c w Hc)).
    eexists. split; [done|]. intros c' Hc'. by simplify_eq.
  - intros _. by eexists.
Qed.


(** *** When the asynchronous execution returns *)


















(** Neither executor sends anything over a connection that is null or not
    [CONNECTION_OK]: both return an error and change nothing.  A null connection
    is [NotConnected] and a bad one [ConnectionLost] for both; in every other
    state the blocking executor reports an error that is not retryable, the
    asynchronous one the retryable [RuntimeError]. *)
Theorem executor_validation es ea w fuel query params :
  a_conn_ ea = s_conn_ es → unusable (s_conn_ es) w →
  ∃ s_err a_err,
    s_execute_impl es query params w = Some (inl s_err, w) ∧
    a_execute_impl fuel ea query params w = Some (inl a_err, w) ∧
    match s_conn_ es with
    | None => ctx_code s_err = client Client.NotConnected ∧ ctx_code a_err = client Client.NotConnected
    | Some a => ∀ c, conns w !! a = Some c →
        if bool_decide (PQstatus c = CONNECTION_BAD)
        then ctx_code s_err = server Server.ConnectionLost ∧ ctx_code a_err = server Server.ConnectionLost
        else is_retryable (ctx_code s_err) = false ∧ ctx_code a_err = server Server.RuntimeError
    end.
Proof.
  intros Hp Hu. destruct (validate_unusable ea w) as (a_err & Ea & Ha); [by rewrite Hp|].
  rewrite Hp in Ha. unfold a_execute_impl, a_exchange, s_execute_impl, s_exchange. rewrite (bind_eq _ _ _ _ _ Ea).
  destruct (s_conn_ es) as [a|]; [|by eexists _, a_err].
  destruct Hu as (c & Hc & Hn). rewrite (bind_eq _ _ _ _ _ (peek_at a c w Hc)), not_ok by done. cbn [negb].
  eexists _, a_err. split_and!; [done..|]. intros c' Hc'. rewrite Hc in Hc'. injection Hc' as <-.
  rewrite (Ha c Hc). unfold check_connection, extract_connection_error. by destruct (PQstatus c).
Qed.
End ExchangeTheorems.

(** ** Ownership *)

Section Ownership.
Context {PGconn PGresult : Type}.
Abbreviation W := (world PGconn PGresult).

(** What a pooled capability is to its client: it carries a holder, moves, and
    gives the holder back. *)
Class Capability (E : Type) := {
  cap_holder : E → option nat;
  cap_make : nat → W → option (result E * W);
  cap_move : E → E * E;
  cap_move_assign : E → E → W → E * E * W;
  cap_destroy : E → W → W;
}.

(** From [w] to [w'] the holder [h] was given back, if it is alive. *)
Definition given_back (h : option nat) (w w' : W) : Prop :=
  holders w' = holders w ∧ closed_fds w' = closed_fds w ∧
  resets w' = resets w ++ match lock h w with Some (i, _) => [i] | None => [] end.

Class CapabilityLaws (E : Type) `{Capability E} : Prop := {
  make_holder h w e w' :
    cap_make h w = Some (Ok e, w') →
    cap_holder e = Some h ∧ holders w' = holders w ∧ closed_fds w' = closed_fds w ∧ resets w' = resets w;
  make_throws h w ex w' :
    cap_make h w = Some (Throw ex, w') →
    holders w' = holders w ∧ closed_fds w' = closed_fds w ∧ resets w' = resets w;
  move_holder e : cap_holder (cap_move e).1 = cap_holder e ∧ cap_holder (cap_move e).2 = None;
  assign_holder t o w t' o' w' :
    cap_move_assign t o w = (t', o', w') →
    cap_holder t' = cap_holder o ∧ cap_holder o' = None ∧ given_back (cap_holder t) w w';
  destroy_holder e w : given_back (cap_holder e) w (cap_destroy e w);
}.

Context {E : Type} `{CapabilityLaws E}.

(** A client program: its variables of the capability type, the world, the
    holders it was lent, in order, and those of them whose constructor threw.  The
    pool lends a holder that is alive and that it has not lent already: no live
    capability has it, and it was not lost. *)
Record program := mkProgram { vars : gmap nat E; wld : W; leases : list nat; lost : list nat }.

Inductive own_step : program → program → Prop :=
  | own_make m w l x v h e w' :
      m !! v = None → is_Some (holders w !! h) → (∀ u e', m !! u = Some e' → cap_holder e' ≠ Some h) → (h ∉ x) →
      cap_make h w = Some (Ok e, w') →
      own_step (mkProgram m w l x) (mkProgram (<[v := e]> m) w' (l ++ [h]) x)
  (** the exception leaves through the constructor: there is no object, and no
      destructor runs *)
  | own_make_throws m w l x h ex w' :
      is_Some (holders w !! h) → (∀ u e', m !! u = Some e' → cap_holder e' ≠ Some h) → (h ∉ x) →
      cap_make h w = Some (Throw ex, w') →
      own_step (mkProgram m w l x) (mkProgram m w' (l ++ [h]) (h :: x))
  | own_move m w l x v u e :
      m !! v = Some e → m !! u = None →
      own_step (mkProgram m w l x) (mkProgram (<[u := (cap_move e).1]> (<[v := (cap_move e).2]> m)) w l x)
  | own_assign m w l x v u t o t' o' w' :
      v ≠ u → m !! v = Some t → m !! u = Some o → cap_move_assign t o w = (t', o', w') →
      own_step (mkProgram m w l x) (mkProgram (<[v := t']> (<[u := o']> m)) w' l x)
  | own_destroy m w l x v e :
      m !! v = Some e →
      own_step (mkProgram m w l x) (mkProgram (delete v m) (cap_destroy e w) l x).

Definition owned (m : gmap nat E) : list nat := omap cap_holder (map_to_list m).*2.

Lemma owned_insert m v e : m !! v = None → owned (<[v := e]> m) ≡ₚ option_list (cap_holder e) ++ owned m.
Proof.
  intros Hv. unfold owned. rewrite map_to_list_insert by done. simpl. by destruct (cap_holder e).
Qed.

Lemma owned_delete m v e : m !! v = Some e → owned m ≡ₚ option_list (cap_holder e) ++ owned (delete v m).
Proof. intros Hv. rewrite <- (insert_delete_id m v e) at 1 by done. apply owned_insert, lookup_delete_eq. Qed.

Lemma owned_update m v e e' :
  m !! v = Some e →
  owned m ≡ₚ option_list (cap_holder e) ++ owned (delete v m) ∧
  owned (<[v := e']> m) ≡ₚ option_list (cap_holder e') ++ owned (delete v m).
Proof.
  intros Hv. split; [by apply owned_delete|]. rewrite <- (insert_delete_eq m).
  apply owned_insert, lookup_delete_eq.
Qed.

Lemma elem_of_owned m h : h ∈ owned m ↔ ∃ v e, m !! v = Some e ∧ cap_holder e = Some h.
Proof.
  unfold owned. rewrite list_elem_of_omap. setoid_rewrite list_elem_of_fmap. split.
  - intros (e & ([v e'] & -> & Hin) & He). apply elem_of_map_to_list in Hin. by exists v, e'.
  - intros (v & e & Hv & He). exists e. split; [|done]. exists (v, e). by rewrite elem_of_map_to_list.
Qed.

(** Every lease is given back, or in exactly one live capability, or lost. *)
Definition accounted (w0 : W) (p : program) : Prop :=
  leases p ≡ₚ resets (wld p) ++ owned (vars p) ++ lost p ∧ NoDup (owned (vars p) ++ lost p) ∧
  (∀ h, h ∈ owned (vars p) → is_Some (holders (wld p) !! h)) ∧ closed_fds (wld p) = closed_fds w0.

Lemma given_back_live h w w' :
  (∀ i, h = Some i → is_Some (holders w !! i)) → given_back h w w' →
  holders w' = holders w ∧ closed_fds w' = closed_fds w ∧ resets w' = resets w ++ option_list h.
Proof.
  intros Hl (Hh & Hc & Hr). split_and!; [done..|]. rewrite Hr. f_equal. unfold lock.
  destruct h as [i|]; [|done]. destruct (Hl i eq_refl) as [x Hx]. simpl. by rewrite Hx.
Qed.

(** The holders in variables change by a permutation. *)
Lemma accounted_perm w0 m m' w l x :
  accounted w0 (mkProgram m w l x) → owned m ≡ₚ owned m' → accounted w0 (mkProgram m' w l x).
Proof.
  intros (Hl & Hn & Ha & Hc) Ev. unfold accounted. simpl in *. rewrite <- Ev. split_and!; [done..| |done].
  intros h Hh. apply Ha. by rewrite Ev.
Qed.

(** A capability gives up its holder. *)
Lemma accounted_release w0 m m' w w' l x (h : option nat) :
  accounted w0 (mkProgram m w l x) → owned m ≡ₚ option_list h ++ owned m' → given_back h w w' →
  accounted w0 (mkProgram m' w' l x).
Proof.
  intros (Hl & Hn & Ha & Hc) Ev Hg. simpl in *.
  destruct (given_back_live h w w') as (E1 & E2 & E3); [|done|].
  { intros i ->. apply Ha. rewrite Ev. apply elem_of_app. left. by left. }
  unfold accounted. simpl. rewrite E1, E2, E3. rewrite Ev, <- app_assoc in Hl, Hn.
  apply NoDup_app in Hn as (_ & _ & Hn).
  split_and!; [by rewrite <- app_assoc|done| |done].
  intros y Hy. apply Ha. rewrite Ev. apply elem_of_app. by right.
Qed.

(** A holder that is not lent yet is in nobody's hands. *)
Lemma fresh_lease m (x : list nat) h :
  (∀ u e, m !! u = Some e → cap_holder e ≠ Some h) → (h ∉ x) → (h ∉ owned m ++ x).
Proof.
  intros Hf Hx. rewrite elem_of_app. intros [(u & e & He & Ee)%elem_of_owned|?]; [|done]. by apply (Hf u e).
Qed.

Lemma accounted_step w0 p p' : accounted w0 p → own_step p p' → accounted w0 p'.
Proof.
  intros Hp Hs. destruct Hs as [m w l x v h e w' Hv Hlive Hfree Hx Hm|m w l x h ex w' Hlive Hfree Hx Hm|
    m w l x v u e Hv Hu|m w l x v u t o t' o' w' Hvu Hv Hu Hm|m w l x v e Hv].
  - destruct Hp as (Hl & Hn & Ha & Hc). apply make_holder in Hm as (Eh & E1 & E2 & E3). simpl in *.
    unfold accounted. simpl. rewrite E1, E2, E3, owned_insert, Eh by done. simpl.
    split_and!; [by rewrite Hl, <- app_assoc, (Permutation_app_comm (owned m ++ x))| | |done].
    + constructor; [by apply fresh_lease|done].
    + intros y. rewrite owned_insert, Eh by done. intros [->|Hy]%elem_of_cons; auto.
  - destruct Hp as (Hl & Hn & Ha & Hc). apply make_throws in Hm as (E1 & E2 & E3). simpl in *.
    unfold accounted. simpl. rewrite E1, E2, E3.
    split_and!; [| |done|done].
    + rewrite Hl, <- app_assoc, (Permutation_app_comm (owned m ++ x)). simpl.
      f_equiv. apply Permutation_middle.
    + rewrite <- Permutation_middle. constructor; [by apply fresh_lease|done].
  - destruct (move_holder e) as [E1 E2].
    apply (accounted_perm w0 _ _ _ _ _ Hp). assert (u ≠ v) by congruence.
    rewrite owned_insert by (by rewrite lookup_insert_ne).
    destruct (owned_update m v e (cap_move e).2 Hv) as [-> ->]. by rewrite E1, E2.
  - apply assign_holder in Hm as (E1 & E2 & Hg). eapply accounted_release; [exact Hp| |exact Hg].
    rewrite (owned_delete m v t Hv). f_equiv.
    assert (delete v m !! u = Some o) as Hu' by (by rewrite lookup_delete_ne).
    rewrite <- (insert_delete_eq (<[u := o']> m)), owned_insert by apply lookup_delete_eq.
    rewrite delete_insert_ne by done. destruct (owned_update (delete v m) u o o' Hu') as [-> ->].
    by rewrite E1, E2.
  - eapply accounted_release; [exact Hp|by apply owned_delete|]. apply destroy_holder.
Qed.

Definition own_initial (w0 : W) : program := mkProgram ∅ w0 (resets w0) [].

(** However a client moves, assigns and destroys its capabilities. *)
Lemma accounted_reachable w0 p : rtc own_step (own_initial w0) p → accounted w0 p.
Proof.
  assert (accounted w0 (own_initial w0)) as Hi.
  { split_and!; simpl; [by rewrite !app_nil_r|by constructor|by intros h ?%elem_of_nil|done]. }
  intros Hr. revert Hi. induction Hr; eauto using accounted_step.
Qed.

(** Nothing is lost where the constructor does not throw. *)
Lemma lost_never w0 p :
  (∀ h w ex w', cap_make h w ≠ Some (Throw ex, w')) → rtc own_step (own_initial w0) p → lost p = [].
Proof.
  intros Hn Hr. assert (lost (own_initial w0) = []) as Hi by done. revert Hi.
  induction Hr as [|p p1 p2 Hs _ IH]; [done|]. intros Hi. apply IH.
  destruct Hs; simpl in *; try done. by exfalso; eapply Hn.
Qed.
End Ownership.

(** *** The executors are capabilities *)

Section Instances.
Context {PGconn PGresult : Type} {L : Libpq PGconn PGresult}.
Implicit Types w : world PGconn PGresult.

#[export] Instance sync_capability : Capability (PGconn := PGconn) (PGresult := PGresult) SyncExecutor := {|
  cap_holder := s_holder_;
  cap_make h w := Some (Ok (s_make_holder (Some h) w), w);
  cap_move := s_move;
  cap_move_assign := s_move_assign;
  cap_destroy := s_destroy;
|}.

(** [assigned]: whether the reactor accepts the descriptor. *)
Definition async_capability (assigned : bool)
    : Capability (PGconn := PGconn) (PGresult := PGresult) AsyncExecutor := {|
  cap_holder := a_holder_;
  cap_make h := a_make_holder assigned (Some h);
  cap_move := a_move;
  cap_move_assign := a_move_assign;
  cap_destroy := a_destroy;
|}.

Lemma reset_given_back h w : given_back h w (reset_live h w).
Proof.
  unfold given_back, reset_live. destruct (lock h w) as [[i x]|]; simpl; [done|].
  by rewrite app_nil_r.
Qed.

(** A socket that was released does not close its file descriptor. *)
Lemma drop_released s w : drop_socket (release_socket s) w = w.
Proof. destruct s as [[fd [|]]|]; done. Qed.

Lemma a_destroy_eq e w : a_destroy e w = reset_live (a_holder_ e) w.
Proof. apply drop_released. Qed.

#[export] Instance sync_laws : CapabilityLaws SyncExecutor.
Proof.
  split; [by intros h w e w' [= <- <-]|done|done| |intros e w; apply reset_given_back].
  intros t o w t' o' w' [= <- <- <-]. split_and!; [done..|apply reset_given_back].
Qed.

Definition only_conns w w' : Prop :=
  holders w' = holders w ∧ closed_fds w' = closed_fds w ∧ resets w' = resets w.

Lemma call_only_conns {A} p (f : PGconn → A * PGconn) w r w' :
  call p f w = Some (r, w') → only_conns w w'.
Proof.
  unfold call. destruct (p ≫= _) as [[a c]|]; [|done]. destruct (f c). by intros [= <- <-].
Qed.

Lemma bind_inv {A B} (m : drv A) (k : A → drv B) w y w' :
  (m ≫= k) w = Some (y, w') → ∃ x w1, m w = Some (x, w1) ∧ k x w1 = Some (y, w').
Proof. unfold mbind, drv_bind. destruct (m w) as [[x w1]|]; [by eauto|done]. Qed.

Lemma peek_inv p w r w' : peek p w = Some (r, w') → w' = w.
Proof. unfold peek. destruct p as [a|]; [destruct (conns w !! a)|]; by intros [= <- <-]. Qed.

(** Whatever comes of it, setting up a connection touches connections only, and
    the executor that results has the holder it was given. *)
Lemma setup_effect assigned e w r w' :
  setup_connection assigned e w = Some (r, w') →
  only_conns w w' ∧ ∀ e', r = Ok e' → a_holder_ e' = a_holder_ e.
Proof.
  unfold setup_connection. intros (c & w1 & Hp & Hk)%bind_inv. apply peek_inv in Hp as ->.
  destruct (negb _); [by injection Hk as <- <-|].
  apply bind_inv in Hk as (ok & w2 & Hok%call_only_conns & Hk).
  destruct (negb ok); [by injection Hk as <- <-|].
  apply bind_inv in Hk as (fd & w3 & Hfd%call_only_conns & Hk).
  assert (only_conns w w3) by (destruct Hok as (?&?&?), Hfd as (?&?&?); split_and!; congruence).
  destruct (fd <? 0)%Z; [by injection Hk as <- <-|].
  destruct (negb assigned); injection Hk as <- <-; [done|]. split; [done|]. by intros e' [= <-].
Qed.

#[export] Instance async_laws assigned :
  @CapabilityLaws PGconn PGresult AsyncExecutor (async_capability assigned).
Proof.
  split; cbn [cap_holder cap_make cap_move cap_move_assign cap_destroy async_capability]; [| |done| |].
  - intros h w e w'. unfold a_make_holder, a_construct.
    destruct (match lock _ _ with Some _ => _ | None => _ end).
    + intros [(H1 & H2 & H3) Hh]%setup_effect. rewrite (Hh e eq_refl). done.
    + by intros [= <- <-].
  - intros h w ex w'. unfold a_make_holder, a_construct.
    destruct (match lock _ _ with Some _ => _ | None => _ end); [|done].
    by intros [(H1 & H2 & H3) _]%setup_effect.
  - intros t o w t' o' w'. unfold a_move_assign. rewrite drop_released.
    intros [= <- <- <-]. split_and!; [done..|apply reset_given_back].
  - intros e w. rewrite a_destroy_eq. apply reset_given_back.
Qed.

(** C16: what happens to the leases of pooled executors, whatever a client does
    with its executors: constructing them from holders of the pool, moving them,
    assigning over them and destroying them.  The leases are the holders given back
    together with the holders of the live executors, each of which has its own, and
    with the holders whose [AsyncExecutor] constructor threw: those are given back by
    nobody.  A [SyncExecutor] loses none, and no executor closes libpq's socket. *)
Theorem executor_leases_accounted :
  (∀ w0 p, rtc (own_step (E := SyncExecutor)) (own_initial w0) p → accounted w0 p ∧ lost p = []) ∧
  (∀ assigned w0 p,
     rtc (@own_step PGconn PGresult AsyncExecutor (async_capability assigned)) (own_initial w0) p →
     @accounted PGconn PGresult AsyncExecutor (async_capability assigned) w0 p).
Proof.
  split.
  - intros w0 p Hr. split; [by apply accounted_reachable|]. by apply (lost_never w0).
  - intros assigned w0 p. apply (@accounted_reachable _ _ _ _ (async_laws assigned)).
Qed.

(** An [AsyncExecutor] that cannot be set up keeps its lease: when the
    connection of a live holder is not [CONNECTION_OK] or the reactor refuses the
    descriptor, the constructor throws, the holder is not given back, and there is no
    executor whose destructor would do so.  A [SyncExecutor] on the same holder
    gives it back when it is destroyed. *)
Theorem async_setup_failure_keeps_lease assigned h live a c w :
  holders w !! h = Some live → conn_ live = Some a → conns w !! a = Some c →
  PQstatus c ≠ CONNECTION_OK ∨ assigned = false →
  (∃ w', a_make_holder assigned (Some h) w = Some (Throw runtime_error, w') ∧ only_conns w w') ∧
  resets (s_destroy (s_make_holder (Some h) w) w) = resets w ++ [h].
Proof.
  intros Hh Hl Hc Hbad. assert (lock (Some h) w = Some (h, live)) as Hk by (unfold lock; simpl; by rewrite Hh).
  split; [|by unfold s_destroy, reset_live, s_make_holder; cbn [s_holder_]; rewrite Hk].
  unfold a_make_holder. rewrite Hk, Hl. unfold a_construct.
  destruct (setup_connection _ _ _) as [[r w']|] eqn:E; cycle 1.
  - exfalso. revert E. unfold setup_connection. simpl.
    rewrite (bind_eq _ _ _ _ _ (peek_at a c w Hc)). destruct (negb _); [done|].
    rewrite (upd_id a c w Hc), (bind_eq _ _ _ _ _ (call_upd a c w _)). destruct (negb _); [done|].
    rewrite (bind_eq _ _ _ _ _ (call_upd a _ w _)). by destruct (_ <? 0)%Z, assigned.
  - pose proof (proj1 (setup_effect _ _ _ _ _ E)) as Hw.
    exists w'. split; [|done]. do 2 f_equal. revert E. unfold setup_connection. simpl.
    rewrite (bind_eq _ _ _ _ _ (peek_at a c w Hc)). destruct (negb _) eqn:Hs; [by intros [= <- _]|].
    destruct Hbad as [Hn| ->]; [by rewrite not_ok in Hs|].
    intros (ok & w2 & _ & Hk')%bind_inv. destruct (negb ok); [by injection Hk' as <- _|].
    apply bind_inv in Hk' as (fd & w3 & _ & Hk'). by destruct (fd <? 0)%Z; injection Hk' as <- _.
Qed.
End Instances.

(** ** What the overloads send *)

Section Requests.
Context {PGconn PGresult : Type} {L : Libpq PGconn PGresult}.
Variables native_big empty_data_is_null : bool.

Definition filled (args : list FieldValue) : Params :=
  fold_left (λ s v, (push_value native_big empty_data_is_null s v).1) args empty_params.

Lemma fold_push args p :
  params_ok p →
  let q := fold_left (λ s v, (push_value native_big empty_data_is_null s v).1) args p in
  params_ok q ∧ bound_params q = bound_params p ++ map (wire empty_data_is_null) args.
Proof.
  cbv zeta. revert p. induction args as [|v args IH]; intros p Hp; cbn [fold_left map].
  { by rewrite app_nil_r. }
  destruct (bind_one_bound native_big empty_data_is_null p v Hp) as [H1 H2].
  destruct (IH _ H1) as [H3 H4]. split; [exact H3|]. unfold push_value at 2. cbn [fst].
  rewrite H4, H2, <- app_assoc. done.
Qed.

(** The request for a text and the values bound to it. *)
Definition request_for (query : string) (args : list Bound) : request :=
  match args with
  | [] => SimpleQuery query
  | _ => ParamQuery query (int_of_size (length args)) args 1
  end.

Lemma request_of_bound query p :
  params_ok p → request_of query (Some p) = request_for query (bound_params p).
Proof.
  intros Hp. pose proof (length_bound_params p Hp) as Hl. unfold request_of, request_for.
  destruct (values p), (bound_params p) as [|b bs] eqn:E; simpl in *; try done. by rewrite <- Hl.
Qed.

(** A C string is cut at its first NUL, wherever it is stored. *)
Lemma until_nul_terminated l k :
  InlineString.until_nul (l ++ replicate (S k) InlineString.NUL) = InlineString.until_nul l.
Proof. induction l as [|c l IH]; [done|]. cbn [app InlineString.until_nul]. by rewrite IH. Qed.

Lemma until_nul_idem l : InlineString.until_nul (InlineString.until_nul l) = InlineString.until_nul l.
Proof.
  induction l as [|c l IH]; simpl; [done|]. case_decide; simpl; [done|].
  rewrite decide_False by done. by rewrite IH.
Qed.

Lemma c_string_static {MaxLen} (q : CompiledStaticQuery MaxLen) :
  InlineString.terminated (static_sql_ q) → c_string (static_c_sql q) = c_string (static_sql q).
Proof.
  intros [[Hlen Hle] Hd]. unfold c_string, static_c_sql, static_sql, InlineString.c_str, InlineString.view.
  rewrite !list_ascii_of_string_of_list_ascii, until_nul_idem. f_equal.
  rewrite <- (take_drop (InlineString.size_ (static_sql_ q)) (InlineString.data_ (static_sql_ q))) at 1.
  rewrite Hd. replace (S MaxLen - _) with (S (MaxLen - InlineString.size_ (static_sql_ q))) by lia.
  apply until_nul_terminated.
Qed.

(** C14: the compiled query reaches the server the same way on every path.  For
    an expression without INSERT or UPDATE values and without explicit
    placeholders that [compile_static] accepts, the statically compiled query and
    the dynamically compiled one, executed by either executor, make the same
    exchange: one request with the compiled text, read as a C string, and the wire
    forms of the expression's values in order, or the simple protocol when there
    are none. *)
Theorem compiled_query_request (float_chars : Z → Z → string) (MaxLen : nat) (e : Expr)
    (q : CompiledStaticQuery MaxLen) (D := Postgres.dialect float_chars) :
  no_dml_values e = true → markers (template e) = 0 →
  (N.of_nat (length (vals (template e))) < 2 ^ 64)%N →
  @compile_static D Tuple MaxLen e = Ok q →
  ∃ d, @compile_dynamic D _ (params_sink native_big empty_data_is_null) empty_params Sink e = Ok d ∧
    let rq := request_for (c_string (static_sql q)) (map (wire empty_data_is_null) (static_params_ q)) in
    (∀ es, execute_static (s_execute_impl es) native_big empty_data_is_null q = s_exchange es rq ∧
           execute_dynamic (s_execute_impl es) s_wrong_provider d = s_exchange es rq) ∧
    (∀ fuel ea, execute_static (a_execute_impl fuel ea) native_big empty_data_is_null q = a_exchange fuel ea rq ∧
                execute_dynamic (a_execute_impl fuel ea) a_wrong_provider d = a_exchange fuel ea rq).
Proof.
  intros Hd Hm Hn Hq.
  pose proof (@static_dynamic_pair D (Postgres.dialect_text float_chars) _ _
      (params_sink native_big empty_data_is_null) (params_bounded native_big empty_data_is_null)
      (params_laws native_big empty_data_is_null) MaxLen empty_params e q) as H.
  destruct H as (Ht & k & Ek & Hok & Hbk); [by repeat split|done..|].
  eexists. split; [exact Ek|]. intros rq.
  assert (request_of (c_string (static_c_sql q)) (Some (filled (static_params_ q))) = rq) as E1.
  { destruct (fold_push (static_params_ q) empty_params) as [H1 H2]; [by repeat split|].
    unfold filled. rewrite c_string_static, request_of_bound by done. by rewrite H2. }
  assert (request_of (c_string (static_sql q)) (Some k) = rq) as E2.
  { rewrite request_of_bound by done. unfold rq. f_equal. exact Hbk. }
  unfold execute_static, execute_args, execute_dynamic. rewrite bool_decide_false by (simpl; tauto).
  cbn [dynamic_sql backend_packet]. unfold s_execute_impl, a_execute_impl. fold (filled (static_params_ q)).
  by rewrite E1, E2.
Qed.
End Requests.

(** ** A connection that satisfies the laws *)

Module Loopback.
Record pgresult := mkResult { r_status : ExecStatusType; r_sqlstate : option string }.

(** A connection with its state, its file descriptor, what is left to send and to
    read, the results to hand out, and the server's answers. *)
Record pgconn := mkConn {
  state : ConnStatusType;
  fd : Z;
  out : nat;
  inp : nat;
  queue : list pgresult;
  serve : request → list pgresult;
}.

#[export] Instance libpq : Libpq pgconn pgresult := {|
  PQstatus := state;
  PQerrorMessage _ := Some "server closed the connection unexpectedly";
  PQsocket := fd;
  PQresultStatus := r_status;
  PQresultErrorField r f := match f with PG_DIAG_SQLSTATE => r_sqlstate r | _ => None end;
  PQresultErrorMessage r := None;
  PQexec rq c := (last (serve c rq), c);
  PQsetnonblocking c := (true, c);
  PQsendQuery rq c := (true, mkConn (state c) (fd c) 2 2 (serve c rq) (serve c));
  PQflush c := (if out c =? 0 then 0%Z else 1%Z, c);
  PQconsumeInput c := (true, mkConn (state c) (fd c) (out c) (pred (inp c)) (queue c) (serve c));
  PQisBusy c := (0 <? inp c, c);
  PQgetResult c := (head (queue c), mkConn (state c) (fd c) (out c) (inp c) (tail (queue c)) (serve c));
  async_wait k c :=
    Some (None, match k with
                | wait_read => c
                | wait_write => mkConn (state c) (fd c) (pred (out c)) (inp c) (queue c) (serve c)
                end);
|}.

#[export] Program Instance libpq_laws : LibpqLaws libpq := {|
  answers rq c := serve c rq; ready := queue; unsent := out; unread := inp;
|}.
Solve All Obligations with
  try (intros; simpl in *; by simplify_eq); try (intros k c r c' [= <- <-]; by destruct k).

#[export] Instance libpq_reliable : ReliableLink libpq.
Proof.
  split; try done.
  - intros c. simpl. by destruct (out c =? 0).
  - intros k c. eexists. split; [done|]. by destruct k.
  - intros c r c1 c2. simpl. destruct (Nat.eqb_spec (out c) 0); intros [= <- <-] Hr [= <-]; simpl; lia.
  - intros c c1 c2 c3. simpl. intros [= <-] [= <-] [= Hb <-]. simpl in *. apply Nat.ltb_lt in Hb. lia.
Qed.

Definition ok : pgresult := mkResult PGRES_TUPLES_OK None.
Definition failed : pgresult := mkResult PGRES_FATAL_ERROR (Some "22012").
Definition conn (s : ConnStatusType) (rs : list pgresult) : pgconn := mkConn s 5 0 0 [] (λ _, rs).
Definition start (c : pgconn) : world pgconn pgresult :=
  mkWorld (<[1 := c]> ∅) [] (<[7 := mkHolder (Some 1) None]> ∅) [] [].
Definition sync : SyncExecutor := mkSync (Some 1) None.
Definition async : AsyncExecutor := mkAsync (Some 1) (Some (mkDescriptor 5 true)) 5 None.

Lemma start_lookup c : conns (start c) !! 1 = Some c.
Proof. apply lookup_insert_eq. Qed.
Lemma async_fits rs : async_ready async 1 (conn CONNECTION_OK rs).
Proof. by repeat split. Qed.

End Loopback.
#[local] Existing Instances Loopback.libpq Loopback.libpq_laws Loopback.libpq_reliable.

Lemma executors_agree_witness :
  ∃ w1 w2 (c' : Loopback.pgconn),
    s_execute_impl Loopback.sync "SELECT 1" None (Loopback.start (Loopback.conn CONNECTION_OK [Loopback.ok])) =
      Some (outcome_of (L := Loopback.libpq) Loopback.ok, w1) ∧
    a_execute_impl 4 Loopback.async "SELECT 1" None (Loopback.start (Loopback.conn CONNECTION_OK [Loopback.ok])) =
      Some (outcome_of (L := Loopback.libpq) Loopback.ok, w2) ∧
    cleared w1 = [] ++ discarded (L := Loopback.libpq) Loopback.ok ∧
    cleared w2 = [] ++ discarded (L := Loopback.libpq) Loopback.ok ∧ conns w2 !! 1 = Some c' ∧ ready c' = [] ∧
    (∀ b, b ≠ 1 → conns w1 !! b = conns (Loopback.start (Loopback.conn CONNECTION_OK [Loopback.ok])) !! b ∧
                  conns w2 !! b = conns (Loopback.start (Loopback.conn CONNECTION_OK [Loopback.ok])) !! b).
Proof.
  apply (executors_agree Loopback.sync Loopback.async 1 (Loopback.conn CONNECTION_OK [Loopback.ok])
           (Loopback.start (Loopback.conn CONNECTION_OK [Loopback.ok])) 4 "SELECT 1" None Loopback.ok);
    [apply Loopback.libpq_reliable|apply Loopback.start_lookup|done|apply Loopback.async_fits|done|].
  repeat split; simpl; lia.
Defined.

Lemma async_keeps_first_result_witness :
  let w := Loopback.start (Loopback.conn CONNECTION_OK [Loopback.ok; Loopback.failed]) in
  ∃ rl w1 w2, Some Loopback.failed = Some rl ∧
    s_execute_impl Loopback.sync "SELECT 1; SELECT 1/0" None w = Some (outcome_of (L := Loopback.libpq) rl, w1) ∧
    a_execute_impl 4 Loopback.async "SELECT 1; SELECT 1/0" None w = Some (outcome_of (L := Loopback.libpq) Loopback.ok, w2) ∧
    cleared w1 = [] ++ discarded (L := Loopback.libpq) rl ∧ cleared w2 = [] ++ [Loopback.failed] ++ discarded (L := Loopback.libpq) Loopback.ok ∧
    (error_of (L := Loopback.libpq) Loopback.ok = None → ∀ err, error_of (L := Loopback.libpq) rl = Some err →
       outcome_of (L := Loopback.libpq) Loopback.ok = inr (mkBlock (Some Loopback.ok)) ∧ outcome_of (L := Loopback.libpq) rl = inl err).
Proof.
  apply (async_keeps_first_result Loopback.sync Loopback.async 1
           (Loopback.conn CONNECTION_OK [Loopback.ok; Loopback.failed])
           (Loopback.start (Loopback.conn CONNECTION_OK [Loopback.ok; Loopback.failed])) 4
           "SELECT 1; SELECT 1/0" None Loopback.ok [Loopback.failed]);
    [apply Loopback.libpq_reliable|apply Loopback.start_lookup|done|apply Loopback.async_fits|done|].
  repeat split; simpl; lia.
Defined.


Lemma executor_validation_witness :
  ∃ s_err a_err,
    s_execute_impl Loopback.sync "SELECT 1" None (Loopback.start (Loopback.conn CONNECTION_BAD [])) =
      Some (inl s_err, Loopback.start (Loopback.conn CONNECTION_BAD [])) ∧
    a_execute_impl 0 Loopback.async "SELECT 1" None (Loopback.start (Loopback.conn CONNECTION_BAD [])) =
      Some (inl a_err, Loopback.start (Loopback.conn CONNECTION_BAD [])) ∧
    ∀ c, conns (Loopback.start (Loopback.conn CONNECTION_BAD [])) !! 1 = Some c →
        if bool_decide (PQstatus c = CONNECTION_BAD)
        then ctx_code s_err = server Server.ConnectionLost ∧ ctx_code a_err = server Server.ConnectionLost
        else is_retryable (ctx_code s_err) = false ∧ ctx_code a_err = server Server.RuntimeError.
Proof.
  apply (executor_validation Loopback.sync Loopback.async); [done|].
  exists (Loopback.conn CONNECTION_BAD []). by split; [apply Loopback.start_lookup|].
Defined.

Lemma executor_leases_accounted_witness :
  (∃ p : program (E := SyncExecutor), resets (wld p) = [7] ∧
    accounted (Loopback.start (Loopback.conn CONNECTION_OK [])) p) ∧
  (∃ p : program (E := AsyncExecutor), lost p = [7] ∧ resets (wld p) = [] ∧
    @accounted _ _ _ (async_capability true) (Loopback.start (Loopback.conn CONNECTION_BAD [])) p).
Proof.
  split.
  - set (w := Loopback.start (Loopback.conn CONNECTION_OK [])).
    set (e := s_make_holder (Some 7) w).
    exists (mkProgram (delete 1 (<[1 := e]> (<[0 := s_moved_out]> (<[0 := e]> ∅)))) (s_destroy e w) [7] []).
    split; [done|]. apply (proj1 executor_leases_accounted). unfold own_initial.
    eapply rtc_l; [by eapply (own_make _ _ _ _ 0 7 e); [..|apply not_elem_of_nil|done]|].
    eapply rtc_l; [by eapply (own_move _ _ _ _ 0 1 e)|].
    eapply rtc_l; [by eapply (own_destroy _ _ _ _ 1 e)|]. apply rtc_refl.
  - set (w := Loopback.start (Loopback.conn CONNECTION_BAD [])).
    exists (mkProgram ∅ w [7] [7]). split_and!; [done|done|].
    apply (proj2 executor_leases_accounted). unfold own_initial.
    eapply rtc_l; [|apply rtc_refl].
    by eapply (@own_make_throws _ _ AsyncExecutor (async_capability true) ∅ w [] [] 7 runtime_error w);
      [..|apply not_elem_of_nil|done].
Defined.

Lemma async_setup_failure_keeps_lease_witness :
  let w := Loopback.start (Loopback.conn CONNECTION_BAD []) in
  (∃ w', a_make_holder true (Some 7) w = Some (Throw runtime_error, w') ∧ only_conns w w') ∧
  resets (s_destroy (s_make_holder (Some 7) w) w) = [7].
Proof.
  apply (async_setup_failure_keeps_lease true 7 (mkHolder (Some 1) None) 1 (Loopback.conn CONNECTION_BAD []));
    [done|done|apply Loopback.start_lookup|by left].
Defined.

Lemma compiled_query_request_witness :
  ∃ q, @compile_static Example.dialect Tuple 1024 Example.query = Ok q ∧
  ∃ d, @compile_dynamic Example.dialect _ Example.sink empty_params Sink Example.query = Ok d ∧
    let rq := request_for (c_string (static_sql q)) (map (wire true) (static_params_ q)) in
    (∀ es : SyncExecutor,
       execute_static (s_execute_impl (H := Loopback.libpq) es) false true q = s_exchange es rq ∧
       execute_dynamic (s_execute_impl es) s_wrong_provider d = s_exchange es rq) ∧
    (∀ fuel ea, execute_static (a_execute_impl fuel ea) false true q = a_exchange fuel ea rq ∧
                execute_dynamic (a_execute_impl fuel ea) a_wrong_provider d = a_exchange fuel ea rq).
Proof.
  eexists. split; [vm_compute; reflexivity|].
  apply (compiled_query_request false true Example.float_chars 1024 Example.query);
    [done|done|vm_compute; reflexivity|vm_compute; reflexivity].
Defined.
