(* ===== verification/Chrono.v ===== *)
(** * Clocks, stopwatches and the timer

    [common/chrono]: the ISO timestamps of [SpecClock] ([clock/clock.hpp]), the
    two stopwatches ([stopwatch]), the cancellation token and the timer's watchdog
    ([timer]).  Time points are integers, nanoseconds of their clock; the reading
    of a clock and the calendar ([gmtime_r], [localtime_r]) are arguments. *)

From S2P Require Import Prelude Gears Bytes ErrorCodes.
From Stdlib Require Import Sorted.

Local Open Scope demi_scope.
Local Open Scope Z_scope.

(** ** SpecClock *)

Inductive ClockType : Type := Local | UTC.

(** The fields of [std::tm] that are printed. *)
Record tm := mkTm { tm_year : Z; tm_mon : Z; tm_mday : Z; tm_hour : Z; tm_min : Z; tm_sec : Z }.

(** [printf("%0<w>d", z)]: the sign counts towards the width. *)
Definition zero_pad (w : nat) (z : Z) : string :=
  let digits := ToString.numeral (Z.abs_N z) in
  let sign := if z <? 0 then "-" else "" in
  sign +:+ string_of_list_ascii (replicate (w - String.length sign - String.length digits) "0"%char) +:+ digits.

Section Clock.
Variable to_calendar : ClockType → Z → tm.

(** [system_clock::to_time_t] truncates to seconds. *)
Definition to_tm (CT : ClockType) (tp : Z) : tm := to_calendar CT (Z.quot tp (10 ^ 9)).

(** [snprintf] into 32 bytes; the text is shorter for every year of an [int]
    after the epoch. *)
Definition format_time_iso_ms (CT : ClockType) (tp : Z) : string :=
  let ms := Z.rem (Z.quot tp (10 ^ 6)) 1000 in
  let t := to_tm CT tp in
  zero_pad 4 (tm_year t + 1900) +:+ "-" +:+ zero_pad 2 (tm_mon t + 1) +:+ "-" +:+ zero_pad 2 (tm_mday t) +:+
  "T" +:+ zero_pad 2 (tm_hour t) +:+ ":" +:+ zero_pad 2 (tm_min t) +:+ ":" +:+ zero_pad 2 (tm_sec t) +:+
  "." +:+ zero_pad 3 ms +:+ match CT with UTC => "Z" | Local => " " end.
(** The overload that appends to a string. *)
Definition append_time_iso_ms (CT : ClockType) (tp : Z) (out : string) : string :=
  out +:+ format_time_iso_ms CT tp.

(** [std::put_time], and [std::chrono::parse] with [None] for a stream that
    fails. *)
Variable put_time : tm → string → string.
Variable chrono_parse : string → string → option Z.

Definition format_time (CT : ClockType) (tp : Z) (format : string) : string := put_time (to_tm CT tp) format.
Definition current_time (CT : ClockType) (now : Z) (fmt : string) : string := format_time CT now fmt.
Definition parse (txt fmt : string) : result Z :=
  match chrono_parse fmt txt with Some tp => Ok tp | None => Throw invalid_argument end.

(** A format whose printed times the library reads back: [parse] returns the
    second that was formatted. *)
Lemma format_parse CT tp fmt :
  (∀ sec, chrono_parse fmt (put_time (to_calendar CT sec) fmt) = Some (sec * 10 ^ 9)) →
  parse (format_time CT tp fmt) fmt = Ok (Z.quot tp (10 ^ 9) * 10 ^ 9).
Proof. intros H. unfold parse, format_time, to_tm. by rewrite H. Qed.
End Clock.

(** [clock_formats] *)
Definition eu_dmy_hms : string := "%d-%m-%Y %H:%M:%S".
Definition us_mdy_hms : string := "%m-%d-%Y %I:%M:%S %p".

(** ** Stopwatch *)

(** [std::chrono::duration_cast] to a unit of [unit] ticks: towards zero. *)
Definition duration_cast (unit d : Z) : Z := Z.quot d unit.

Module Stopwatch.
Record Stopwatch := mk { flags_ : list Z }.

Definition make : Stopwatch := mk [].

Definition add_flag (now : Z) (s : Stopwatch) : Stopwatch := mk (flags_ s ++ [now]).
Definition start (now : Z) (s : Stopwatch) : Stopwatch := add_flag now (mk []).
(** The flags are moved out. *)
Definition stop (now : Z) (s : Stopwatch) : list Z * Stopwatch := (flags_ s ++ [now], mk []).

Section Read.
Variable unit : Z.
Variable s : Stopwatch.

(** [flags_[i]]: out of range is undefined. *)
Definition flag_at (i : nat) : result Z :=
  match flags_ s !! i with Some t => Ok t | None => Throw UndefinedBehaviour end.

Definition delta_t (i : nat) : Z * Z :=
  if (length (flags_ s) <=? i)%nat || (i =? 0)%nat then (0, 0)
  else match flags_ s !! i, flags_ s !! 0%nat, flags_ s !! (i - 1)%nat with
       | Some t, Some t0, Some tp => (duration_cast unit (t - tp), duration_cast unit (t - t0))
       | _, _, _ => (0, 0)
       end.

Definition from_start (i : nat) : result Z :=
  let! t := flag_at i in let! t0 := flag_at 0 in Ok (duration_cast unit (t - t0)).
(** [i - 1] wraps for [i = 0]. *)
Definition from_prev (i : nat) : result Z :=
  let! t := flag_at i in
  let! tp := match i with O => Throw UndefinedBehaviour | S i' => flag_at i' end in
  Ok (duration_cast unit (t - tp)).

Definition total_time : result Z :=
  match last (flags_ s), flags_ s !! 0%nat with
  | Some t, Some t0 => Ok (duration_cast unit (t - t0))
  | _, _ => Throw UndefinedBehaviour
  end.

Fixpoint sum_deltas (prev : Z) (fs : list Z) : Z :=
  match fs with
  | [] => 0
  | t :: fs' => duration_cast unit (t - prev) + sum_deltas t fs'
  end.

(** [total / (flags_.size() - 1)]: the divisor is a [size_t], 2^64 - 1 without
    flags and 0 with one, so that the division is one of unsigned numbers. *)
Definition average_delta : result Z :=
  match flags_ s with
  | [] => Ok (Z.quot 0 (2 ^ 64 - 1))
  | t0 :: fs =>
      match fs with
      | [] => Throw UndefinedBehaviour
      | _ => Ok (to_signed 64 (Z.quot (to_unsigned 64 (sum_deltas t0 fs)) (Z.of_nat (length fs))))
      end
  end.
End Read.

(** [measure]: the clock before and after the call. *)
Definition measure (unit before after : Z) : Z := duration_cast unit (after - before).
End Stopwatch.

(** ** PrintingStopwatch *)

Module PrintingStopwatch.
Inductive time_unit : Type := milliseconds | microseconds | nanoseconds | seconds.

Definition ticks (u : time_unit) : Z :=
  match u with milliseconds => 10 ^ 6 | microseconds => 10 ^ 3 | nanoseconds => 1 | seconds => 10 ^ 9 end.
Definition time_unit_name (u : time_unit) : string :=
  match u with
  | milliseconds => "milliseconds" | microseconds => "microseconds"
  | nanoseconds => "nanoseconds" | seconds => "seconds"
  end.
Definition time_unit_name_short (u : time_unit) : string :=
  match u with milliseconds => "mls" | microseconds => "mcs" | nanoseconds => "ns" | seconds => "s" end.

Record t := mk {
  countdown_from_prev_ : bool;
  countdown_from_start_ : bool;
  running_name_ : string;
  start_time_ : Z;
  flags_ : list (string * Z);
}.

Definition make (name : string) : t := mk true true name 0 [].

Definition set_countdown_from_prev (state : bool) (w : t) : t :=
  mk state (countdown_from_start_ w) (running_name_ w) (start_time_ w) (flags_ w).
Definition set_countdown_from_start (state : bool) (w : t) : t :=
  mk (countdown_from_prev_ w) state (running_name_ w) (start_time_ w) (flags_ w).
Definition start (now : Z) (w : t) : t :=
  mk (countdown_from_prev_ w) (countdown_from_start_ w) (running_name_ w) now [].
Definition start_named (name : string) (now : Z) (w : t) : t :=
  mk (countdown_from_prev_ w) (countdown_from_start_ w) name now [].
Definition reset (now : Z) (w : t) : t := start now w.
Definition flag (name : string) (now : Z) (w : t) : t :=
  mk (countdown_from_prev_ w) (countdown_from_start_ w) (running_name_ w) (start_time_ w)
    (flags_ w ++ [(name, now)]).
(** [operator++], both forms. *)
Definition increment (now : Z) (w : t) : t := flag "" now w.
(** [operator--]: removes the last flag, if any. *)
Definition unflag (w : t) : t :=
  mk (countdown_from_prev_ w) (countdown_from_start_ w) (running_name_ w) (start_time_ w)
    (removelast (flags_ w)).
Definition clear (w : t) : t :=
  mk (countdown_from_prev_ w) (countdown_from_start_ w) (running_name_ w) (start_time_ w) [].

Section Print.
Variable u : time_unit.

Definition column (on : bool) (d : Z) : string :=
  if on then "  |  " +:+ std_to_string (duration_cast (ticks u) d) +:+ time_unit_name_short u else "".

Fixpoint flag_lines (w : t) (i : nat) (previous : Z) (fs : list (string * Z)) : list string :=
  match fs with
  | [] => []
  | (name, point) :: fs' =>
      ((if bool_decide (name = "") then "Flag " +:+ ToString.numeral (N.of_nat (i + 1)) else name) +:+
       column (countdown_from_prev_ w) (point - previous) +:+
       column (countdown_from_start_ w) (point - start_time_ w) +:+ newline) ::
      flag_lines w (S i) point fs'
  end.

Definition header (w : t) : string :=
  newline +:+ "Running: " +:+ running_name_ w +:+ newline +:+
  "Stopwatch times (in " +:+ time_unit_name u +:+ "):" +:+ newline.

(** The text written to standard output, and the stopwatch afterwards. *)
Definition print (w : t) : string * t :=
  match flags_ w with
  | [] => ("", w)
  | fs => (header w +:+ String.concat "" (flag_lines w 0 (start_time_ w) fs) +:+ newline, clear w)
  end.

Definition finish (now : Z) (w : t) : string * t := print (flag "Finish" now w).

(** [~PrintingStopwatch] *)
Definition destroy (w : t) : string := (print w).1.
End Print.
End PrintingStopwatch.

(** ** Timer *)

Module Timer.
(** [CancellationToken]: when it was cancelled, if it was. *)
Definition token : Type := option Z.
Definition stop_requested (tok : token) (now : Z) : bool :=
  match tok with Some t => t <=? now | None => false end.
Definition cancel (tok : token) (now : Z) : token :=
  match tok with Some t => Some (Z.min t now) | None => Some now end.

Definition renew (tok : token) : token := None.

(** The watchdog's loop: it looks at the token and the clock every 10 ms. *)
Fixpoint watchdog (fuel : nat) (tok : token) (deadline now : Z) : option Z :=
  match fuel with
  | O => None
  | S fuel' =>
      if negb (stop_requested tok now) && (now <? deadline)
      then watchdog fuel' tok deadline (now + 10) else Some now
  end.

(** [execute_polite_vanish]: [spawn] returns a [std::jthread] that nobody keeps,
    so its destructor joins the watchdog before the future is returned.  The
    result is the time at which the call returns, and the token then. *)
Definition execute_polite_vanish (fuel : nat) (tok : token) (timeout now : Z) : option (Z * token) :=
  match watchdog fuel tok (now + timeout) now with
  | Some t => Some (t, cancel tok t)
  | None => None
  end.

(** [execute_violent_kill]: the worker needs [duration] ms ([None] for ever).  The
    watchdog cancels the thread when its loop ends and detaches it; it is joined
    like the other.  What the call leaves behind is a worker that had finished, or
    one that was cancelled in its work. *)
Inductive worker_end : Type := Finished | Cancelled.
Definition finished_by (duration : option Z) (start t : Z) : bool :=
  match duration with Some d => start + d <=? t | None => false end.
Definition execute_violent_kill (fuel : nat) (tok : token) (duration : option Z) (timeout now : Z)
    : option (Z * worker_end) :=
  match watchdog fuel tok (now + timeout) now with
  | Some t => Some (t, if finished_by duration now t then Finished else Cancelled)
  | None => None
  end.
End Timer.

(** ** Theorems *)

Lemma zero_pad_length w z :
  0 ≤ z → (String.length (ToString.numeral (Z.to_N z)) ≤ w)%nat → String.length (zero_pad w z) = w.
Proof.
  intros Hz Hw. unfold zero_pad. destruct (Z.ltb_spec z 0); [lia|]. cbn [String.length String.append].
  replace (Z.abs_N z) with (Z.to_N z) in * by lia. rewrite string_length_app.
  rewrite <- length_list_ascii, list_ascii_of_string_of_list_ascii, length_replicate. lia.
Qed.

Lemma sum_deltas_bounds unit t0 fs :
  0 < unit → Sorted Z.le (t0 :: fs) →
  let d := default t0 (last fs) - t0 in
  let sum := Stopwatch.sum_deltas unit t0 fs in
  0 ≤ d ∧ unit * sum ≤ d ≤ unit * sum + Z.of_nat (length fs) * (unit - 1).
Proof.
  intros Hu. cbv zeta. revert t0. induction fs as [|t fs IH]; intros t0 Hs; simpl; [lia|].
  apply Sorted_inv in Hs as [Hs Hh]. apply HdRel_inv in Hh. specialize (IH t Hs).
  assert (default t0 (last (t :: fs)) = default t (last fs)) as E.
  { rewrite last_cons. by destruct (last fs). }
  simpl in E. rewrite E. unfold duration_cast. rewrite Z.quot_div_nonneg by lia.
  pose proof (Z.div_mod (t - t0) unit ltac:(lia)) as Hd. pose proof (Z.mod_pos_bound (t - t0) unit Hu) as Hm.
  nia.
Qed.

(** The stopwatch's times fit together: over readings that do not go back,
    the sum of the single deltas never exceeds the total time, and falls short of
    it by less than one unit per delta; the average is that sum over the number of
    deltas, and is undefined for a single flag. *)
Theorem stopwatch_total (unit t0 : Z) (fs : list Z) :
  0 < unit → Sorted Z.le (t0 :: fs) → default t0 (last fs) - t0 < 2 ^ 63 →
  let s := Stopwatch.mk (t0 :: fs) in
  ∃ total, Stopwatch.total_time unit s = Ok total ∧
    Stopwatch.sum_deltas unit t0 fs ≤ total ∧
    total - Stopwatch.sum_deltas unit t0 fs ≤ Z.max 0 (Z.of_nat (length fs) - 1) ∧
    (fs = [] → Stopwatch.average_delta unit s = Throw UndefinedBehaviour) ∧
    (fs ≠ [] → ∃ a, Stopwatch.average_delta unit s = Ok a ∧ 0 ≤ a ∧ a * Z.of_nat (length fs) ≤ total).
Proof.
  intros Hu Hs H63. destruct (sum_deltas_bounds unit t0 fs Hu Hs) as (Hd & Hlo & Hhi).
  cbv zeta. unfold Stopwatch.total_time, Stopwatch.average_delta. simpl.
  assert (last (t0 :: fs) = Some (default t0 (last fs))) as El by (rewrite last_cons; by destruct (last fs)).
  simpl in El. rewrite El. eexists. split; [done|]. unfold duration_cast. rewrite Z.quot_div_nonneg by lia.
  set (d := default t0 (last fs) - t0) in *. set (sum := Stopwatch.sum_deltas unit t0 fs) in *.
  pose proof (Z.div_mod d unit ltac:(lia)) as Hdm. pose proof (Z.mod_pos_bound d unit Hu) as Hm.
  assert (0 ≤ sum) as H0.
  { clear - Hu Hs. unfold sum. clear sum. revert t0 Hs. induction fs as [|t fs IH]; intros t0 Hs; simpl; [lia|].
    apply Sorted_inv in Hs as [Hs Hh]. apply HdRel_inv in Hh. specialize (IH t Hs).
    unfold duration_cast. rewrite Z.quot_div_nonneg by lia. pose proof (Z.div_pos (t - t0) unit ltac:(lia) Hu). lia. }
  split_and!; [nia| | |].
  - destruct (length fs) as [|n] eqn:En; nia.
  - by intros ->.
  - intros Hne. destruct fs as [|t fs]; [done|]. eexists. split; [done|].
    assert (0 < Z.of_nat (length (t :: fs))) as Hn by (simpl; lia).
    pose proof (Z.mul_div_le sum (Z.of_nat (length (t :: fs))) Hn) as Hle.
    pose proof (Z.div_pos sum _ H0 Hn) as Hdp. pose proof (Z.div_le_upper_bound sum _ sum Hn ltac:(nia)) as Hds.
    assert (sum ≤ d) as Hsd by nia.
    unfold to_unsigned. rewrite (Z.mod_small sum) by lia. rewrite Z.quot_div_nonneg by lia.
    unfold to_signed. rewrite Z.mod_small by lia. split; [lia|nia].
Qed.

Lemma stopwatch_total_witness :
  let s := Stopwatch.mk [3; 10; 26] in
  ∃ total, Stopwatch.total_time 10 s = Ok total ∧
    Stopwatch.sum_deltas 10 3 [10; 26] ≤ total ∧
    total - Stopwatch.sum_deltas 10 3 [10; 26] ≤ Z.max 0 (2 - 1) ∧
    ([10; 26] = [] → Stopwatch.average_delta 10 s = Throw UndefinedBehaviour) ∧
    ([10; 26] ≠ [] → ∃ a, Stopwatch.average_delta 10 s = Ok a ∧ 0 ≤ a ∧ a * 2 ≤ total).
Proof. apply (stopwatch_total 10 3 [10; 26]); [lia| |simpl; lia]. repeat constructor; lia. Defined.

Lemma watchdog_returns fuel tok deadline now :
  deadline - now + 10 ≤ 10 * Z.of_nat fuel → (0 < fuel)%nat →
  ∃ t, Timer.watchdog fuel tok deadline now = Some t ∧ now ≤ t ∧
    (Timer.stop_requested tok t = true ∨ deadline ≤ t) ∧
    (t = now ∨ (Timer.stop_requested tok (t - 10) = false ∧ t - 10 < deadline)).
Proof.
  revert now. induction fuel as [|fuel IH]; intros now Hf Hp; [lia|]. cbn [Timer.watchdog].
  destruct (Timer.stop_requested tok now) eqn:Es; simpl.
  { exists now. split_and!; [done|lia|by left|by left]. }
  destruct (Z.ltb_spec now deadline); cycle 1.
  { exists now. split_and!; [done|lia|by right|by left]. }
  destruct (decide (fuel = 0)%nat) as [->|]; [lia|].
  destruct (IH (now + 10)) as (t & -> & H1 & H2 & H3); [lia|lia|].
  exists t. split_and!; [done|lia|done|]. right.
  destruct H3 as [->|]; [|done]. by replace (now + 10 - 10) with now by lia.
Qed.

(** [execute_polite_vanish] blocks: it returns when the watchdog ends, not
    when the task does.  If nobody cancels the token, that is at the deadline or
    less than 10 ms after it, however soon the task is finished; and on return the
    token is cancelled in every case. *)
Theorem polite_vanish_blocks (fuel : nat) (tok : Timer.token) (timeout now : Z) :
  0 ≤ timeout → timeout + 10 ≤ 10 * Z.of_nat fuel →
  ∃ t tok', Timer.execute_polite_vanish fuel tok timeout now = Some (t, tok') ∧
    Timer.stop_requested tok' t = true ∧
    (tok = None → now + timeout ≤ t < now + timeout + 10) ∧
    (∀ s, tok = Some s → now ≤ s → s ≤ now + timeout → t < s + 10).
Proof.
  intros Ht Hf. unfold Timer.execute_polite_vanish.
  destruct (watchdog_returns fuel tok (now + timeout) now) as (t & -> & H1 & H2 & H3); [lia|lia|].
  eexists t, _. split; [done|]. split_and!.
  - destruct tok as [s|]; simpl; apply Z.leb_le; lia.
  - intros ->. simpl in *. destruct H2 as [|H2]; [done|]. destruct H3 as [->|[_ H3]]; lia.
  - intros s -> Hs1 Hs2. simpl in *. destruct H3 as [->|[H3 _]]; [lia|]. apply Z.leb_gt in H3. lia.
Qed.

(** [execute_violent_kill] too returns at the deadline whenever the worker is
    done; a worker that needs no more than the timeout is never cancelled in its
    work unless the token is stopped, and one that needs 10 ms more always is. *)
Theorem violent_kill_spares (fuel : nat) (d : option Z) (timeout now : Z) :
  0 ≤ timeout → timeout + 10 ≤ 10 * Z.of_nat fuel →
  ∃ t e, Timer.execute_violent_kill fuel None d timeout now = Some (t, e) ∧
    now + timeout ≤ t < now + timeout + 10 ∧
    (∀ n, d = Some n → n ≤ timeout → e = Timer.Finished) ∧
    (d = None ∨ (∃ n, d = Some n ∧ timeout + 10 ≤ n) → e = Timer.Cancelled).
Proof.
  intros Ht Hf. unfold Timer.execute_violent_kill.
  destruct (watchdog_returns fuel None (now + timeout) now) as (t & -> & H1 & H2 & H3); [lia|lia|].
  assert (now + timeout ≤ t < now + timeout + 10) as Hr.
  { simpl in *. destruct H2 as [|H2]; [done|]. destruct H3 as [->|[_ H3]]; lia. }
  eexists t, _. split; [done|]. split_and!; [lia|lia|..].
  - intros n -> Hn. simpl. by destruct (Z.leb_spec (now + n) t); [|lia].
  - intros [->|(n & -> & Hn)]; [done|]. simpl. by destruct (Z.leb_spec (now + n) t); [lia|].
Qed.

Lemma violent_kill_spares_witness :
  ∃ t e, Timer.execute_violent_kill 4 None (Some 7) 25 100 = Some (t, e) ∧ 100 + 25 ≤ t < 100 + 25 + 10 ∧
    (∀ n, Some 7 = Some n → n ≤ 25 → e = Timer.Finished) ∧
    (Some 7 = None ∨ (∃ n, Some 7 = Some n ∧ 25 + 10 ≤ n) → e = Timer.Cancelled).
Proof. apply (violent_kill_spares 4 (Some 7) 25 100); lia. Defined.

Lemma polite_vanish_blocks_witness :
  ∃ t tok', Timer.execute_polite_vanish 4 None 25 100 = Some (t, tok') ∧
    Timer.stop_requested tok' t = true ∧
    (@None Z = None → 100 + 25 ≤ t < 100 + 25 + 10) ∧
    (∀ s, None = Some s → 100 ≤ s → s ≤ 100 + 25 → t < s + 10).
Proof. apply (polite_vanish_blocks 4 None 25 100); lia. Defined.

(** A stopwatch prints its flags once: after [finish] neither [print] nor the
    destructor prints anything. *)
Lemma printed_once u now w : PrintingStopwatch.destroy u (PrintingStopwatch.finish u now w).2 = "".
Proof.
  unfold PrintingStopwatch.finish, PrintingStopwatch.print. simpl.
  by destruct (PrintingStopwatch.flags_ w).
Qed.
