(* ===== verification/Serialization.v ===== *)
(** * Writing to and reading from JSON

    [common/serialization/formats/json]: the overloads of [write_field] and
    [read_field] for [Json::Value].  The JSON library is not part of the program:
    its operations are a class, and its documented behaviour the laws of that
    class.  [ConfigInterface::serialize] and [deserialize], which would write and
    read all fields of a configuration, are not modelled: nothing instantiates
    them, and for [Json::Value] they pass the [std::string_view] of the field's
    name where the overloads take a [const std::string&]. *)

From S2P Require Import Prelude.
From stdpp Require Import gmap.

Local Open Scope demi_scope.

(** ** Json::Value *)

Class Json (J : Type) := {
  jnull : J;
  jobject : J;
  isMember : J → string → bool;
  jget : J → string → J;
  jset : J → string → J → J;
  getMemberNames : J → list string;
  jstring : string → J;
  jint : Z → J;
  jint64 : Z → J;
  juint64 : Z → J;
  jbool : bool → J;
  (** a double is its bit pattern *)
  jdouble : Z → J;
  asString : J → result string;
  asInt : J → result Z;
  asInt64 : J → result Z;
  asUInt64 : J → result Z;
  asBool : J → result bool;
  asDouble : J → result Z;
}.

(** Values of a machine type survive; members are set and found by name. *)
Class JsonLaws (J : Type) `{Json J} : Prop := {
  isMember_null k : isMember jnull k = false;
  isMember_object k : isMember jobject k = false;
  elem_of_names j k : k ∈ getMemberNames j ↔ isMember j k = true;
  isMember_set j k v k' : isMember (jset j k v) k' = bool_decide (k' = k) || isMember j k';
  jget_set_eq j k v : jget (jset j k v) k = v;
  jget_set_ne j k v k' : k' ≠ k → jget (jset j k v) k' = jget j k';
  asString_jstring s : asString (jstring s) = Ok s;
  asInt_jint z : (- 2 ^ 31 ≤ z < 2 ^ 31)%Z → asInt (jint z) = Ok z;
  asInt64_jint64 z : (- 2 ^ 63 ≤ z < 2 ^ 63)%Z → asInt64 (jint64 z) = Ok z;
  asUInt64_juint64 z : (0 ≤ z < 2 ^ 64)%Z → asUInt64 (juint64 z) = Ok z;
  asBool_jbool b : asBool (jbool b) = Ok b;
  asDouble_jdouble z : asDouble (jdouble z) = Ok z;
}.

(** ** The overloads *)

Section Config.
Context {J : Type} `{Json J}.

(** The [write_field] and [read_field] overloads of a type; [read_field]
    returns the value when the key was present. *)
Class Codec (T : Type) := {
  write_field : J → string → T → result J;
  read_field : J → string → result (option T);
}.

(** [if (!in.isMember(key)) return false; v = convert(in[key]); return true;] *)
Definition read_member {T} (convert : J → result T) (j : J) (key : string) : result (option T) :=
  if isMember j key then let! v := convert (jget j key) in Ok (Some v) else Ok None.

Definition string_codec : Codec string :=
  {| write_field j k v := Ok (jset j k (jstring v)); read_field := read_member asString |}.
Definition int_codec : Codec Z :=
  {| write_field j k v := Ok (jset j k (jint v)); read_field := read_member asInt |}.
Definition size_codec : Codec Z :=
  {| write_field j k v := Ok (jset j k (juint64 v)); read_field := read_member asUInt64 |}.
Definition bool_codec : Codec bool :=
  {| write_field j k v := Ok (jset j k (jbool v)); read_field := read_member asBool |}.
Definition double_codec : Codec Z :=
  {| write_field j k v := Ok (jset j k (jdouble v)); read_field := read_member asDouble |}.
(** [std::chrono::duration]: its count. *)
Definition duration_codec : Codec Z :=
  {| write_field j k v := Ok (jset j k (jint64 v)); read_field := read_member asInt64 |}.
(** [std::filesystem::path]: its text. *)
Definition path_codec : Codec string := string_codec.
Definition json_codec : Codec J :=
  {| write_field j k v := Ok (jset j k v); read_field := read_member Ok |}.

(** An enumeration by its underlying value.  [static_cast<E>] does not check: a
    number that names no enumerator is [UndefinedBehaviour] here. *)
Definition to_enum {E} (of_value : Z → option E) (z : Z) : result E :=
  match of_value z with Some e => Ok e | None => Throw UndefinedBehaviour end.
Definition enum_codec {E} (value : E → Z) (of_value : Z → option E) : Codec E := {|
  write_field j k v := Ok (jset j k (jint (value v)));
  read_field := read_member (λ x, let! z := asInt x in to_enum of_value z);
|}.

(** [std::optional<T>]: an empty one writes nothing. *)
Definition optional_codec {T} (C : Codec T) : Codec (option T) := {|
  write_field j k v := match v with Some x => write_field j k x | None => Ok j end;
  read_field j k :=
    if isMember j k then
      let! r := read_field j k in Ok (match r with Some x => Some (Some x) | None => None end)
    else Ok None;
|}.

(** [std::map<std::string, std::string>] *)
Definition write_map (m : list (string * string)) : J :=
  fold_left (λ obj p, jset obj p.1 (jstring p.2)) m jobject.
Fixpoint read_map (obj : J) (names : list string) (v : list (string * string)) : result (list (string * string)) :=
  match names with
  | [] => Ok v
  | mk :: names' =>
      let! mv := asString (jget obj mk) in
      read_map obj names' (map_assign mk mv v)
  end.
Definition map_codec : Codec (list (string * string)) := {|
  write_field j k v := Ok (jset j k (write_map v));
  read_field := read_member (λ obj, read_map obj (getMemberNames obj) []);
|}.

(** ** Round trips *)

(** The member [k] is the same in both values. *)
Definition same (j j' : J) (k : string) : Prop :=
  isMember j' k = isMember j k ∧ (isMember j k = true → jget j' k = jget j k).

(** What a codec promises: a storable value is written under its key and
    nowhere else, and reading the key gives back [stored] of it. *)
Class CodecLaws {T} (C : Codec T) := {
  storable : T → Prop;
  stored : T → option T;
  write_stores j k v :
    storable v → isMember j k = false →
    ∃ j', write_field j k v = Ok j' ∧ (∀ k', k' ≠ k → same j j' k') ∧ read_field j' k = Ok (stored v);
  read_same j j' k : same j j' k → read_field j' k = read_field j k;
  read_absent j k : isMember j k = false → read_field j k = Ok None;
}.

Section Codecs.
Context {JL : JsonLaws J}.

Lemma set_same j k v k' : k' ≠ k → same j (jset j k v) k'.
Proof.
  intros Hk. split; [by rewrite isMember_set, bool_decide_false|].
  intros _. by rewrite jget_set_ne.
Qed.

Lemma read_member_same {T} (f : J → result T) j j' k : same j j' k → read_member f j' k = read_member f j k.
Proof. intros [H1 H2]. unfold read_member. rewrite H1. destruct (isMember j k); [by rewrite H2|done]. Qed.

Lemma read_member_set {T} (f : J → result T) j k x v : f x = Ok v → read_member f (jset j k x) k = Ok (Some v).
Proof.
  intros E. unfold read_member. rewrite isMember_set, bool_decide_true by done. simpl.
  by rewrite jget_set_eq, E.
Qed.

Lemma read_member_absent {T} (f : J → result T) j k : isMember j k = false → read_member f j k = Ok None.
Proof. intros E. unfold read_member. by rewrite E. Qed.

Local Hint Resolve set_same read_member_same read_member_absent : core.

(** A codec that sets one member by an injection with a partial inverse. *)
Program Definition member_laws {T} (C : Codec T) (P : T → Prop) (enc : T → J) (dec : J → result T)
    (Hw : ∀ j k v, write_field j k v = Ok (jset j k (enc v))) (Hr : ∀ j k, read_field j k = read_member dec j k)
    (Hd : ∀ v, P v → dec (enc v) = Ok v) : CodecLaws C :=
  {| storable := P; stored := Some |}.
Next Obligation.
  intros T C P enc dec Hw Hr Hd j k v Hv _. eexists. split; [apply Hw|]. split; [auto|].
  rewrite Hr. by apply read_member_set, Hd.
Qed.
Next Obligation. intros T C P enc dec Hw Hr Hd j j' k Hs. rewrite !Hr. auto. Qed.
Next Obligation. intros T C P enc dec Hw Hr Hd j k Hm. rewrite Hr. auto. Qed.

#[export] Instance string_laws : CodecLaws string_codec.
Proof. by apply (member_laws _ (λ _, True) jstring asString); [..|intros; apply asString_jstring]. Defined.
#[export] Instance bool_laws : CodecLaws bool_codec.
Proof. by apply (member_laws _ (λ _, True) jbool asBool); [..|intros; apply asBool_jbool]. Defined.
#[export] Instance int_laws : CodecLaws int_codec.
Proof. by apply (member_laws _ (λ z, - 2 ^ 31 ≤ z < 2 ^ 31)%Z jint asInt); [..|apply asInt_jint]. Defined.
#[export] Instance size_laws : CodecLaws size_codec.
Proof. by apply (member_laws _ (λ z, 0 ≤ z < 2 ^ 64)%Z juint64 asUInt64); [..|apply asUInt64_juint64]. Defined.
#[export] Instance duration_laws : CodecLaws duration_codec.
Proof. by apply (member_laws _ (λ z, - 2 ^ 63 ≤ z < 2 ^ 63)%Z jint64 asInt64); [..|apply asInt64_jint64]. Defined.

Definition enum_laws {E} (value : E → Z) (of_value : Z → option E) :
  (∀ e, of_value (value e) = Some e ∧ (- 2 ^ 31 ≤ value e < 2 ^ 31)%Z) → CodecLaws (enum_codec value of_value).
Proof.
  intros He. apply (member_laws _ (λ _, True) (λ v, jint (value v)) (λ x, let! z := asInt x in to_enum of_value z));
    [done|done|]. intros v _. destruct (He v) as [E1 E2]. rewrite asInt_jint by done. simpl. unfold to_enum. by rewrite E1.
Defined.

(** An empty optional is absent, and stays what the builder had. *)
Program Definition optional_laws {T} (C : Codec T) (L : CodecLaws C) : CodecLaws (optional_codec C) :=
  {| storable v := match v with Some x => storable x | None => True end;
     stored v := match v with Some x => Some <$> stored x | None => None end |}.
Next Obligation.
  intros T C L j k [x|] Hv Hm; simpl in *.
  - destruct (write_stores j k x Hv Hm) as (j' & Ew & Hs & Er). exists j'. split_and!; [done|done|].
    destruct (isMember j' k) eqn:Em; rewrite ?Er; simpl; [by destruct (stored x)|].
    by rewrite (read_absent j' k Em) in Er; destruct (stored x).
  - exists j. split_and!; [done|by split|]. by rewrite Hm.
Qed.
Next Obligation.
  intros T C L j j' k Hs. simpl. destruct (Hs) as [E1 _]. rewrite E1. by rewrite (read_same j j').
Qed.
Next Obligation. intros T C L j k Hm. simpl. by rewrite Hm. Qed.

Lemma fold_members (m : list (string * string)) (obj : J) k :
  let obj' := fold_left (λ obj p, jset obj p.1 (jstring p.2)) m obj in
  isMember obj' k = (bool_decide (k ∈ m.*1) || isMember obj k) ∧
  (k ∉ m.*1 → jget obj' k = jget obj k) ∧
  (NoDup m.*1 → ∀ v, (k, v) ∈ m → jget obj' k = jstring v).
Proof.
  revert obj. induction m as [|[k0 v0] m IH]; intros obj; cbv zeta; cbn [fold_left fmap list_fmap fst snd].
  { split_and!; [done|done|]. by intros _ v ?%not_elem_of_nil. }
  destruct (IH (jset obj k0 (jstring v0))) as (I1 & I2 & I3). split_and!.
  - rewrite I1, isMember_set. repeat case_bool_decide; try done; exfalso;
      rewrite ?elem_of_cons in *; intuition congruence.
  - intros Hk%not_elem_of_cons. destruct Hk. rewrite I2 by done. by rewrite jget_set_ne.
  - intros [Hn Hnd]%NoDup_cons v [[= -> ->]|Hv]%elem_of_cons; [|auto].
    rewrite I2 by done. by rewrite jget_set_eq.
Qed.

Lemma read_map_spec obj f names v :
  (∀ k, k ∈ names → asString (jget obj k) = Ok (f k)) → map_sorted v →
  ∃ r, read_map obj names v = Ok r ∧ map_sorted r ∧
    (∀ p, p ∈ r ↔ (p.1 ∈ names ∧ p.2 = f p.1) ∨ (¬ (p.1 ∈ names) ∧ p ∈ v)).
Proof.
  revert v. induction names as [|n names IH]; intros v Hf Hs; simpl.
  { exists v. split_and!; [done|done|]. intros p. rewrite elem_of_nil. tauto. }
  rewrite (Hf n) by by left. simpl.
  destruct (IH (map_assign n (f n) v)) as (r & E & Hr & Hp);
    [by intros; apply Hf; right|by apply map_assign_sorted|].
  exists r. split_and!; [done|done|]. intros [k x]. rewrite Hp, elem_of_map_assign by done. simpl.
  rewrite elem_of_cons. destruct (decide (k ∈ names)), (decide (k = n)) as [->|]; intuition congruence.
Qed.

Lemma map_sorted_keys m : map_sorted m → NoDup m.*1.
Proof.
  induction 1 as [|p m Hs IH Hf]; simpl; [constructor|]. constructor; [|done].
  intros (q & Eq & Hq)%list_elem_of_fmap. rewrite Forall_forall in Hf. by apply (key_lt_ne p q), Eq; apply Hf.
Qed.

#[export] Instance map_laws : CodecLaws map_codec.
Proof.
  apply (member_laws _ map_sorted write_map (λ obj, read_map obj (getMemberNames obj) [])); [done|done|].
  intros m Hm. pose proof (map_sorted_keys m Hm) as Hnd.
  assert (∀ k, k ∈ getMemberNames (write_map m) ↔ k ∈ m.*1) as Hk.
  { intros k. rewrite elem_of_names. unfold write_map. rewrite (proj1 (fold_members m jobject k)), isMember_object, orb_false_r.
    apply bool_decide_eq_true. }
  assert (∀ k v, (k, v) ∈ m → jget (write_map m) k = jstring v) as Hg.
  { intros k v. unfold write_map. by apply fold_members. }
  destruct (read_map_spec (write_map m) (λ k, match asString (jget (write_map m) k) with Ok v => v | _ => "" end)
    (getMemberNames (write_map m)) []) as (r & -> & Hr & Hp); [|constructor|].
  - intros k Hi%Hk. apply list_elem_of_fmap in Hi as ([k' v] & -> & Hi). simpl. by rewrite (Hg _ _ Hi), asString_jstring.
  - f_equal. apply map_sorted_ext; [done|done|]. intros [k v]. rewrite Hp, Hk. simpl. split.
    + intros [[Hi ->]|[_ []%not_elem_of_nil]]. apply list_elem_of_fmap in Hi as ([k' v] & -> & Hi). simpl.
      by rewrite (Hg _ _ Hi), asString_jstring.
    + intros Hi. left. split; [by apply (list_elem_of_fmap_2 fst) in Hi|]. by rewrite (Hg _ _ Hi), asString_jstring.
Defined.

End Codecs.
End Config.

(** [v] written under [k] is read back as [r], the other members are kept. *)
Definition reads_back {J T} `{Json J} (C : Codec (J := J) T) (j : J) (k : string) (v : T) (r : option T) : Prop :=
  ∃ j', write_field j k v = Ok j' ∧ read_field j' k = Ok r ∧ ∀ k', k' ≠ k → same j j' k'.

(** What is written under a fresh key is read back: strings and paths, [int],
    [std::size_t], [bool], durations and maps of strings in the range of their
    types as they were, an enumerator by its value, and an optional when it is
    not empty, while an empty one leaves no member. *)
Theorem json_fields_round_trip {J} `{JL : JsonLaws J} (j : J) (k : string) :
  isMember j k = false →
  (∀ v, reads_back string_codec j k v (Some v)) ∧ (∀ v, reads_back path_codec j k v (Some v)) ∧
  (∀ b, reads_back bool_codec j k b (Some b)) ∧
  (∀ z, (- 2 ^ 31 ≤ z < 2 ^ 31)%Z → reads_back int_codec j k z (Some z)) ∧
  (∀ z, (0 ≤ z < 2 ^ 64)%Z → reads_back size_codec j k z (Some z)) ∧
  (∀ z, (- 2 ^ 63 ≤ z < 2 ^ 63)%Z → reads_back duration_codec j k z (Some z)) ∧
  (∀ m, map_sorted m → reads_back map_codec j k m (Some m)) ∧
  (∀ E (value : E → Z) of_value, (∀ e, of_value (value e) = Some e ∧ (- 2 ^ 31 ≤ value e < 2 ^ 31)%Z) →
     ∀ e, reads_back (enum_codec value of_value) j k e (Some e)) ∧
  (∀ v, reads_back (optional_codec string_codec) j k v (Some <$> v)).
Proof.
  intros Hm. assert (∀ T (C : Codec (J := J) T) (L : CodecLaws C) v, storable v → reads_back C j k v (stored v)) as Hc.
  { intros T C L v Hv. destruct (write_stores j k v Hv Hm) as (j' & Hw & Hs & Hr). by exists j'. }
  split_and!; intros.
  - by apply (Hc _ _ string_laws).
  - by apply (Hc _ _ string_laws).
  - by apply (Hc _ _ bool_laws).
  - by apply (Hc _ _ int_laws).
  - by apply (Hc _ _ size_laws).
  - by apply (Hc _ _ duration_laws).
  - by apply (Hc _ _ map_laws).
  - by apply (Hc _ _ (enum_laws value of_value ltac:(assumption))).
  - pose proof (Hc _ _ (optional_laws _ string_laws) v) as H1. destruct v; by apply H1.
Qed.

(** ** A document type *)

Module Document.
#[warnings="-register-all"] Inductive t : Type :=
  | Null
  | Str (s : string)
  | Num (z : Z)
  | Bool (b : bool)
  | Object (m : gmap string t).

Definition contents (j : t) : gmap string t := match j with Object m => m | _ => ∅ end.

#[global] Instance document_json : Json t := {|
  jnull := Null;
  jobject := Object ∅;
  isMember j k := bool_decide (is_Some (contents j !! k));
  jget j k := default Null (contents j !! k);
  jset j k v := Object (<[k:=v]> (contents j));
  getMemberNames j := (map_to_list (contents j)).*1;
  jstring := Str; jint := Num; jint64 := Num; juint64 := Num; jbool := Bool; jdouble := Num;
  asString j := match j with Str s => Ok s | _ => Throw logic_error end;
  asInt j := match j with Num z => Ok z | _ => Throw logic_error end;
  asInt64 j := match j with Num z => Ok z | _ => Throw logic_error end;
  asUInt64 j := match j with Num z => Ok z | _ => Throw logic_error end;
  asBool j := match j with Bool b => Ok b | _ => Throw logic_error end;
  asDouble j := match j with Num z => Ok z | _ => Throw logic_error end;
|}.

#[global] Instance document_json_laws : JsonLaws t.
Proof.
  split; try done; simpl.
  - intros j k. rewrite bool_decide_eq_true, list_elem_of_fmap. split.
    + intros ([k' v] & -> & Hi%elem_of_map_to_list). by exists v.
    + intros [v Hv]. exists (k, v). split; [done|]. by apply elem_of_map_to_list.
  - intros j k v k'. destruct (decide (k' = k)) as [->|Hne].
    + rewrite lookup_insert_eq, !bool_decide_true by done. done.
    + rewrite lookup_insert_ne, (bool_decide_false (k' = k)) by done. done.
  - intros j k v. by rewrite lookup_insert_eq.
  - intros j k v k' Hne. by rewrite lookup_insert_ne.
Qed.
End Document.

(** The storable values of the concrete overloads, on that type. *)
Example map_field_round_trip :
  ∃ j', @write_field _ _ map_codec (jobject : Document.t) "options" [("a", "1"); ("b", "")] = Ok j' ∧
        @read_field _ _ map_codec j' "options" = Ok (Some [("a", "1"); ("b", "")]).
Proof. eexists. split; [reflexivity|]. vm_compute. reflexivity. Qed.
