(* ===== verification/Ink.v ===== *)
(** * Ink: text layout for the terminal

    [common/ink]: display width, line splitting, indentation and padding
    ([base/layout.hpp]), ANSI colours ([base/colors.hpp]), border glyphs
    ([base/glyphs.hpp]), and the renderers of tables, boxes and sections.  A text
    is its list of bytes; sizes are natural numbers (the length of a text fits
    [size_t]). *)

From S2P Require Import Prelude.

Local Open Scope demi_scope.
Local Open Scope nat_scope.

Abbreviation text := (list ascii).

(** A literal. *)
Definition lit (s : string) : text := list_ascii_of_string s.
Definition byte (n : N) : ascii := ascii_of_N n.
Definition NL : ascii := byte 10.
Definition ESC : ascii := byte 27.
Definition space : ascii := byte 32.

(** ** Layout *)

Inductive Align : Type := Left | Center | Right.

(** [(c & 0xC0) == 0x80] *)
Definition is_continuation (c : ascii) : bool := (N.land (N_of_ascii c) 0xC0 =? 0x80)%N.

(** The loop of [visible_width]; [in_sgr] while it looks for the ['m'] that ends
    an escape sequence. *)
Fixpoint width_from (in_sgr : bool) (s : text) : nat :=
  match s with
  | [] => 0
  | c :: s' =>
      if in_sgr then width_from (negb (bool_decide (c = "m"%char))) s'
      else if bool_decide (c = ESC) then
        match s' with
        | d :: s'' => if bool_decide (d = "["%char) then width_from true s'' else S (width_from false s')
        | [] => 1
        end
      else if is_continuation c then width_from false s'
      else S (width_from false s')
  end.
Definition visible_width (s : text) : nat := width_from false s.

Fixpoint lines (s : text) : list text :=
  match s with
  | [] => [[]]
  | c :: s' =>
      if bool_decide (c = NL) then [] :: lines s'
      else match lines s' with
           | l :: ls => (c :: l) :: ls
           | [] => [[c]]
           end
  end.

Definition newline (n : nat) : text := replicate n NL.
Definition hr (width : nat) (ch : ascii) : text := replicate width ch.
Definition spaces (n : nat) : text := replicate n space.

Fixpoint indent_rest (pad_str body : text) : text :=
  match body with
  | [] => []
  | c :: body' =>
      c :: (if bool_decide (c = NL) && negb (bool_decide (body' = [])) then pad_str else []) ++
      indent_rest pad_str body'
  end.
Definition indent (body : text) (n : nat) : text :=
  if (n =? 0) || bool_decide (body = []) then body else spaces n ++ indent_rest (spaces n) body.

Definition pad (t : text) (width : nat) (a : Align) : text :=
  let vw := visible_width t in
  if width <=? vw then t
  else
    let missing := width - vw in
    match a with
    | Left => t ++ spaces missing
    | Right => spaces missing ++ t
    | Center => spaces (missing / 2) ++ t ++ spaces (missing - missing / 2)
    end.

(** ** Colours *)

Inductive hue : Type := black | red | green | yellow | blue | magenta | cyan | white.
Inductive style : Type :=
  | regular | bold | underline | background | hi | bold_hi | hi_background.

Definition reset : text := ESC :: lit "[0m".

Definition hue_digit (h : hue) : string :=
  match h with
  | black => "0" | red => "1" | green => "2" | yellow => "3"
  | blue => "4" | magenta => "5" | cyan => "6" | white => "7"
  end.
Definition color_code (s : style) (h : hue) : text :=
  ESC :: lit (match s with
              | regular => "[0;3" | bold => "[1;3" | underline => "[4;3" | background => "[4"
              | hi => "[0;9" | bold_hi => "[1;9" | hi_background => "[0;10"
              end) ++ lit (hue_digit h) ++ lit "m".

Definition colorize (code txt : text) : text := code ++ txt ++ reset.

(** [make_black], [make_background_black], [make_bold_black], ... *)
Definition make_colored (s : style) (h : hue) (txt : text) : text := colorize (color_code s h) txt.

(** ** Glyphs *)

Record Glyphs := mkGlyphs {
  horizontal : text; vertical : text;
  top_left : text; top_right : text; bottom_left : text; bottom_right : text;
  tee_top : text; tee_bottom : text; tee_left : text; tee_right : text; cross : text;
}.

Definition ascii_glyphs : Glyphs :=
  mkGlyphs (lit "-") (lit "|") (lit "+") (lit "+") (lit "+") (lit "+") (lit "+") (lit "+") (lit "+") (lit "+")
    (lit "+").

Definition box_drawing (n : N) : text := [byte 0xE2; byte 0x94; byte n].
Definition unicode_glyphs : Glyphs :=
  mkGlyphs (box_drawing 0x80) (box_drawing 0x82) (box_drawing 0x8C) (box_drawing 0x90) (box_drawing 0x94)
    (box_drawing 0x98) (box_drawing 0xAC) (box_drawing 0xB4) (box_drawing 0x9C) (box_drawing 0xA4)
    (box_drawing 0xBC).

(** [horizontal] appended [count] times. *)
Definition horizontal_run (g : Glyphs) (count : nat) : text := concat (replicate count (horizontal g)).

(** The largest of [init] and the numbers of a loop's updates. *)
Definition fold_max (init : nat) (l : list nat) : nat := fold_left Nat.max l init.

(** ** Table *)

Record TableRenderOptions := mkOpts {
  glyphs : Glyphs;
  header_style_prefix : text;
  min_width : nat;
  opt_terminate : bool;
  default_cell_align : Align;
  column_aligns : list Align;
}.

Definition default_opts : TableRenderOptions := mkOpts ascii_glyphs [] 0 false Left [].

Definition cell_align_for (opts : TableRenderOptions) (c : nat) : Align :=
  default (default_cell_align opts) (column_aligns opts !! c).

Section RenderTable.
Variable headers : list text.
(** column-major *)
Variable cells_cm : list (list text).
Variable opts : TableRenderOptions.

Definition col_count : nat := match headers with [] => length cells_cm | _ => length headers end.
Definition row_count : nat := match cells_cm with [] => 0 | column :: _ => length column end.

Definition col_width (c : nat) : nat :=
  let w := match headers !! c with
           | Some h => Nat.max (min_width opts) (visible_width h)
           | None => min_width opts
           end in
  match cells_cm !! c with
  | Some column => fold_max w (map visible_width (concat (map lines column)))
  | None => w
  end.
Definition col_widths : list nat := map col_width (seq 0 col_count).

(** [c < cells_cm.size() && r < cells_cm[c].size()] *)
Definition cell_at (c r : nat) : option text := cells_cm !! c ≫= λ column, column !! r.

Definition row_height (r : nat) : nat :=
  fold_max 1 (omap (λ c, (λ t, length (lines t)) <$> cell_at c r) (seq 0 col_count)).

Fixpoint border_cells (junction : text) (widths : list nat) : text :=
  match widths with
  | [] => []
  | w :: widths' =>
      horizontal_run (glyphs opts) (w + 2) ++
      match widths' with [] => [] | _ => junction ++ border_cells junction widths' end
  end.
Definition emit_border (left junction right : text) : text :=
  left ++ border_cells junction col_widths ++ right ++ [NL].

Definition emit_cell_line (t : text) (width : nat) (a : Align) : text :=
  vertical (glyphs opts) ++ [space] ++ pad t width a ++ [space].

Definition header_cell (c : nat) : text :=
  let header_text := default [] (headers !! c) in
  match header_style_prefix opts with
  | [] => emit_cell_line header_text (col_width c) Left
  | prefix => vertical (glyphs opts) ++ [space] ++
              colorize prefix (pad header_text (col_width c) Left) ++ [space]
  end.

Definition split_cell (c r : nat) : list text :=
  match cell_at c r with Some t => lines t | None => [[]] end.

Definition cell_line (r line_idx c : nat) : text :=
  emit_cell_line (default [] (split_cell c r !! line_idx)) (col_width c) (cell_align_for opts c).

Definition end_line : text := vertical (glyphs opts) ++ [NL].

Definition middle_border : text :=
  emit_border (tee_left (glyphs opts)) (cross (glyphs opts)) (tee_right (glyphs opts)).

Definition header_block : text :=
  match headers with
  | [] => []
  | _ => concat (map header_cell (seq 0 col_count)) ++ end_line ++
         (if 0 <? row_count then middle_border else [])
  end.

Definition row_block (r : nat) : text :=
  concat (map (λ line_idx, concat (map (cell_line r line_idx) (seq 0 col_count)) ++ end_line)
              (seq 0 (row_height r))) ++
  (if r + 1 <? row_count then middle_border else []).

(** [out.pop_back()] *)
Definition drop_newline (out : text) : text :=
  match last out with
  | Some c => if bool_decide (c = NL) then removelast out else out
  | None => out
  end.

Definition table_text : text :=
  emit_border (top_left (glyphs opts)) (tee_top (glyphs opts)) (top_right (glyphs opts)) ++
  header_block ++ concat (map row_block (seq 0 row_count)) ++
  emit_border (bottom_left (glyphs opts)) (tee_bottom (glyphs opts)) (bottom_right (glyphs opts)).

Definition render_table : text :=
  match headers, cells_cm with
  | [], [] => []
  | _, _ => if opt_terminate opts then table_text else drop_newline table_text
  end.
End RenderTable.

Record Table := mkTable { headers_ : list text; cells_ : list (list text); opts_ : TableRenderOptions }.

Definition table : Table := mkTable [] [] default_opts.

(** [headers(names...)]: the columns are resized to the new count. *)
Definition set_headers (names : list text) (self : Table) : Table :=
  mkTable names (resize (length names) [] (cells_ self)) (opts_ self).

(** [add_row(values...)]: the values are texts already, [std::format("{}", v)]. *)
Definition add_row (values : list text) (self : Table) : result Table :=
  if length (cells_ self) =? length values
  then Ok (mkTable (headers_ self) (zip_with (λ column v, column ++ [v]) (cells_ self) values) (opts_ self))
  else Throw invalid_argument.

Definition border (g : Glyphs) (self : Table) : Table :=
  let o := opts_ self in
  mkTable (headers_ self) (cells_ self)
    (mkOpts g (header_style_prefix o) (min_width o) (opt_terminate o) (default_cell_align o) (column_aligns o)).
Definition header_style (ansi_prefix : text) (self : Table) : Table :=
  let o := opts_ self in
  mkTable (headers_ self) (cells_ self)
    (mkOpts (glyphs o) ansi_prefix (min_width o) (opt_terminate o) (default_cell_align o) (column_aligns o)).
Definition set_min_width (w : nat) (self : Table) : Table :=
  let o := opts_ self in
  mkTable (headers_ self) (cells_ self)
    (mkOpts (glyphs o) (header_style_prefix o) w (opt_terminate o) (default_cell_align o) (column_aligns o)).
Definition set_terminate (on : bool) (self : Table) : Table :=
  let o := opts_ self in
  mkTable (headers_ self) (cells_ self)
    (mkOpts (glyphs o) (header_style_prefix o) (min_width o) on (default_cell_align o) (column_aligns o)).
Definition align (a : Align) (self : Table) : Table :=
  let o := opts_ self in
  mkTable (headers_ self) (cells_ self)
    (mkOpts (glyphs o) (header_style_prefix o) (min_width o) (opt_terminate o) a (column_aligns o)).

Definition column_align (index : nat) (a : Align) (self : Table) : Table :=
  let o := opts_ self in
  let aligns := if length (column_aligns o) <=? index
                then resize (index + 1) (default_cell_align o) (column_aligns o) else column_aligns o in
  mkTable (headers_ self) (cells_ self)
    (mkOpts (glyphs o) (header_style_prefix o) (min_width o) (opt_terminate o) (default_cell_align o)
       (<[index := a]> aligns)).

Definition render (self : Table) : text := render_table (headers_ self) (cells_ self) (opts_ self).

(** [TableFromRange::column(name, fn)]: one cell per element of the range. *)
Definition column {A} (range : list A) (name : text) (fn : A → text) (self : Table) : Table :=
  mkTable (headers_ self ++ [name]) (cells_ self ++ [map fn range]) (opts_ self).

(** ** Box *)

Record Box := mkBox {
  body_ : text;
  title_ : text;
  glyphs_ : Glyphs;
  border_style_ : text;
  padding_ : nat;
  terminate_ : bool;
}.

Definition box (body : text) : Box := mkBox body [] ascii_glyphs [] 1 false.

Definition title (t : text) (b : Box) : Box :=
  mkBox (body_ b) t (glyphs_ b) (border_style_ b) (padding_ b) (terminate_ b).
Definition box_border (g : Glyphs) (b : Box) : Box :=
  mkBox (body_ b) (title_ b) g (border_style_ b) (padding_ b) (terminate_ b).
Definition border_style (ansi_prefix : text) (b : Box) : Box :=
  mkBox (body_ b) (title_ b) (glyphs_ b) ansi_prefix (padding_ b) (terminate_ b).
Definition padding (n : nat) (b : Box) : Box :=
  mkBox (body_ b) (title_ b) (glyphs_ b) (border_style_ b) n (terminate_ b).
Definition box_terminate (on : bool) (b : Box) : Box :=
  mkBox (body_ b) (title_ b) (glyphs_ b) (border_style_ b) (padding_ b) on.

Section RenderBox.
Variable b : Box.

Definition box_span : nat :=
  let inner := fold_max 0 (map visible_width (lines (body_ b))) in
  let min_inner_for_title := match title_ b with [] => 0 | _ => visible_width (title_ b) + 2 + 2 end in
  Nat.max (inner + 2 * padding_ b) min_inner_for_title.

Definition wrap_border (s : text) : text :=
  match border_style_ b with [] => s | _ => colorize (border_style_ b) s end.

Definition box_top : text :=
  top_left (glyphs_ b) ++
  match title_ b with
  | [] => horizontal_run (glyphs_ b) box_span
  | _ =>
      let title_span := visible_width (title_ b) + 2 in
      let left := (box_span - title_span) / 2 in
      let right := box_span - title_span - left in
      horizontal_run (glyphs_ b) left ++ [space] ++ title_ b ++ [space] ++ horizontal_run (glyphs_ b) right
  end ++ top_right (glyphs_ b).

Definition box_line (line : text) : text :=
  wrap_border (vertical (glyphs_ b)) ++ spaces (padding_ b) ++ line ++
  spaces (box_span - 2 * padding_ b - visible_width line) ++ spaces (padding_ b) ++
  wrap_border (vertical (glyphs_ b)) ++ [NL].

Definition box_bottom : text :=
  bottom_left (glyphs_ b) ++ horizontal_run (glyphs_ b) box_span ++ bottom_right (glyphs_ b).

Definition render_box : text :=
  wrap_border box_top ++ [NL] ++ concat (map box_line (lines (body_ b))) ++ wrap_border box_bottom ++
  (if terminate_ b then [NL] else []).
End RenderBox.

(** ** Section *)

Record Section_ := mkSection {
  sec_title_ : text;
  title_style_ : text;
  indent_ : nat;
  separator_ : text;
  sec_terminate_ : bool;
  value_align_ : Align;
  rows_ : list (text * text);
}.

Definition section (title : text) : Section_ := mkSection title [] 2 (lit "  ") false Left [].

Definition row (label value : text) (s : Section_) : Section_ :=
  mkSection (sec_title_ s) (title_style_ s) (indent_ s) (separator_ s) (sec_terminate_ s) (value_align_ s)
    (rows_ s ++ [(label, value)]).

Definition title_style (ansi_prefix : text) (s : Section_) : Section_ :=
  mkSection (sec_title_ s) ansi_prefix (indent_ s) (separator_ s) (sec_terminate_ s) (value_align_ s) (rows_ s).
Definition indent_size (n : nat) (s : Section_) : Section_ :=
  mkSection (sec_title_ s) (title_style_ s) n (separator_ s) (sec_terminate_ s) (value_align_ s) (rows_ s).
Definition separator (sep : text) (s : Section_) : Section_ :=
  mkSection (sec_title_ s) (title_style_ s) (indent_ s) sep (sec_terminate_ s) (value_align_ s) (rows_ s).
Definition section_terminate (on : bool) (s : Section_) : Section_ :=
  mkSection (sec_title_ s) (title_style_ s) (indent_ s) (separator_ s) on (value_align_ s) (rows_ s).
Definition value_align (a : Align) (s : Section_) : Section_ :=
  mkSection (sec_title_ s) (title_style_ s) (indent_ s) (separator_ s) (sec_terminate_ s) a (rows_ s).

Section RenderSection.
Variable s : Section_.

Definition section_title : text :=
  match sec_title_ s with
  | [] => []
  | _ => match title_style_ s with
         | [] => sec_title_ s
         | _ => colorize (title_style_ s) (sec_title_ s)
         end
  end.

Definition max_label : nat := fold_max 0 (map (λ r, visible_width r.1) (rows_ s)).
Definition value_col : nat := indent_ s + max_label + 1 + length (separator_ s).
Definition max_value_vw : nat :=
  match value_align_ s with
  | Left => 0
  | _ => fold_max 0 (map visible_width (concat (map (λ r, lines r.2) (rows_ s))))
  end.

Definition value_text (line : text) : text :=
  match value_align_ s with Left => line | a => pad line max_value_vw a end.

Fixpoint value_lines (ls : list text) (first : bool) : text :=
  match ls with
  | [] => []
  | l :: ls' => (if first then [] else NL :: spaces value_col) ++ value_text l ++ value_lines ls' false
  end.

Definition section_row (out : text) (r : text * text) : text :=
  out ++ (match out with [] => [] | _ => [NL] end) ++
  spaces (indent_ s) ++ r.1 ++ [":"%char] ++
  spaces (max_label - visible_width r.1 + length (separator_ s)) ++ value_lines (lines r.2) true.

Definition render_section : text :=
  fold_left section_row (rows_ s) section_title ++ (if sec_terminate_ s then [NL] else []).
End RenderSection.
