(* ===== verification/InkTheorems.v ===== *)
(** * What the renderers guarantee

    Fragments of a line with a known display width compose; from them follow
    the width of padded text and that tables and boxes are rectangular. *)

From S2P Require Import Prelude Ink.

Local Open Scope demi_scope.
Local Open Scope nat_scope.

(** ** Fragments *)

(** Every escape sequence of the text is complete: what follows is measured on
    its own. *)
Fixpoint closed_from (in_sgr : bool) (s : text) : bool :=
  match s with
  | [] => negb in_sgr
  | c :: s' =>
      if in_sgr then closed_from (negb (bool_decide (c = "m"%char))) s'
      else if bool_decide (c = ESC) then
        match s' with
        | d :: s'' => if bool_decide (d = "["%char) then closed_from true s'' else closed_from false s'
        | [] => false
        end
      else closed_from false s'
  end.
Abbreviation closed := (closed_from false).

Definition no_newline (s : text) : bool := forallb (λ c, negb (bool_decide (c = NL))) s.

(** Two steps at a time, for the look-ahead after an escape character. *)
Lemma text_ind2 (P : text → Prop) :
  P [] → (∀ c, P [c]) → (∀ c d s, P (d :: s) → P s → P (c :: d :: s)) → ∀ s, P s.
Proof.
  intros H0 H1 H2 s. enough (P s ∧ ∀ c, P (c :: s)) as [H _]; [exact H|].
  induction s as [|d s [IH1 IH2]]; split; auto.
Qed.

Lemma width_app b s t :
  closed_from b s = true → width_from b (s ++ t) = width_from b s + width_from false t.
Proof.
  revert b. induction s as [|c|c d s IH1 IH2] using text_ind2; intros b.
  - by destruct b.
  - simpl. destruct b; [by destruct (bool_decide _)|]. destruct (bool_decide _); [done|].
    by destruct (is_continuation c).
  - intros Hc. cbn [app width_from closed_from] in *. destruct b; [by apply (IH1 _ Hc)|].
    destruct (bool_decide (c = ESC)).
    + destruct (bool_decide (d = "["%char)); [by apply IH2|].
      pose proof (IH1 false Hc) as H. cbn [app width_from] in H. rewrite H. done.
    + pose proof (IH1 false Hc) as H. cbn [app width_from] in H. rewrite H.
      by destruct (is_continuation c).
Qed.

Lemma closed_app b s t : closed_from b s = true → closed_from b (s ++ t) = closed t.
Proof.
  revert b. induction s as [|c|c d s IH1 IH2] using text_ind2; intros b.
  - by destruct b.
  - simpl. destruct b; [by destruct (bool_decide _)|]. by destruct (bool_decide _).
  - intros Hc. cbn [app closed_from] in *. destruct b; [by apply (IH1 _ Hc)|].
    destruct (bool_decide (c = ESC)).
    + destruct (bool_decide (d = "["%char)); [by apply IH2|]. exact (IH1 false Hc).
    + exact (IH1 false Hc).
Qed.

(** A piece of a line: no newline, no open escape, and its display width. *)
Definition frag (w : nat) (s : text) : Prop :=
  no_newline s = true ∧ closed s = true ∧ visible_width s = w.

Lemma frag_nil : frag 0 [].
Proof. done. Qed.

Lemma frag_app a b s t : frag a s → frag b t → frag (a + b) (s ++ t).
Proof.
  intros (Hs1 & Hs2 & Hs3) (Ht1 & Ht2 & Ht3). unfold frag, visible_width in *. split_and!.
  - unfold no_newline in *. by rewrite forallb_app, Hs1, Ht1.
  - by rewrite closed_app.
  - by rewrite width_app, Hs3, Ht3.
Qed.

Lemma frag_eq a b s : frag a s → a = b → frag b s.
Proof. by intros H <-. Qed.

Lemma frag_spaces n : frag n (spaces n).
Proof. induction n as [|n IH]; [done|]. exact (frag_app 1 n [space] _ ltac:(done) IH). Qed.

Lemma frag_concat (ws : list nat) (ss : list text) : Forall2 frag ws ss → frag (sum_list ws) (concat ss).
Proof. induction 1 as [|w s ws ss Hw _ IH]; [done|]. simpl. by apply frag_app. Qed.

Lemma frag_run w s n : frag w s → frag (n * w) (concat (replicate n s)).
Proof. intros H. induction n as [|n IH]; [done|]. simpl. by apply frag_app. Qed.

Create HintDb frag.
#[export] Hint Resolve frag_nil frag_app frag_spaces frag_run : frag.

(** *** Padding *)

Lemma pad_shape t w a : ∃ l r, pad t w a = spaces l ++ t ++ spaces r ∧ l + visible_width t + r = Nat.max w (visible_width t).
Proof.
  unfold pad. destruct (Nat.leb_spec w (visible_width t)) as [Hle|Hlt].
  { exists 0, 0. simpl. rewrite app_nil_r. split; [done|lia]. }
  destruct a.
  - exists 0, (w - visible_width t). split; [done|lia].
  - eexists _, _. split; [done|].
    pose proof (Nat.Div0.div_le_mono (w - visible_width t) (w - visible_width t) 2 ltac:(lia)).
    pose proof (Nat.Div0.div_le_upper_bound (w - visible_width t) 2 (w - visible_width t) ltac:(lia)). lia.
  - exists (w - visible_width t), 0. simpl. rewrite app_nil_r. split; [done|lia].
Qed.

Lemma frag_pad t w a v : frag v t → v ≤ w → frag w (pad t w a).
Proof.
  intros Ht Hv. destruct (pad_shape t w a) as (l & r & -> & Hw). destruct Ht as (H1 & H2 & H3).
  eapply frag_eq; [eapply frag_app; [apply frag_spaces|eapply frag_app; [done|apply frag_spaces]]|]. lia.
Qed.

(** *** Colours *)

Lemma frag_reset : frag 0 reset.
Proof. done. Qed.

Lemma frag_color s h : frag 0 (color_code s h).
Proof. by destruct s, h. Qed.

Lemma frag_colorize code t w : frag 0 code → frag w t → frag w (colorize code t).
Proof.
  intros Hc Ht. unfold colorize.
  eapply frag_eq; [eapply frag_app; [exact Hc|eapply frag_app; [exact Ht|exact frag_reset]]|]. lia.
Qed.

(** ** Lines *)

(** A text is its lines joined by newlines. *)
Fixpoint join_lines (ls : list text) : text :=
  match ls with
  | [] => []
  | l :: ls' => l ++ match ls' with [] => [] | _ => NL :: join_lines ls' end
  end.

Lemma lines_nonempty s : lines s ≠ [].
Proof. destruct s as [|c s]; simpl; [done|]. destruct (bool_decide _); [done|]. by destruct (lines s). Qed.

Lemma join_lines_lines s : join_lines (lines s) = s.
Proof.
  induction s as [|c s IH]; [done|]. cbn [lines]. pose proof (lines_nonempty s) as Hn.
  destruct (bool_decide (c = NL)) eqn:E.
  - apply bool_decide_eq_true in E as ->. cbn [join_lines]. by destruct (lines s) eqn:El; [|rewrite <- IH].
  - destruct (lines s) as [|l ls]; [done|]. cbn [join_lines app]. by rewrite <- IH.
Qed.

Lemma lines_no_newline s : Forall (λ l, no_newline l = true) (lines s).
Proof.
  induction s as [|c s IH]; cbn [lines]; [by repeat constructor|].
  destruct (bool_decide (c = NL)) eqn:E; [by constructor|].
  destruct (lines s) as [|l ls]; [by repeat constructor; simpl; rewrite E|].
  inversion IH; subst. constructor; [|done]. unfold no_newline in *. simpl. by rewrite E.
Qed.

Lemma lines_line l : no_newline l = true → lines l = [l].
Proof.
  induction l as [|c l IH]; [done|]. simpl. intros [Hc Hl]%andb_true_iff.
  apply negb_true_iff in Hc. rewrite Hc, IH by done. done.
Qed.

Lemma lines_cons l s : no_newline l = true → lines (l ++ NL :: s) = l :: lines s.
Proof.
  induction l as [|c l IH]; [done|]. simpl. intros [Hc Hl]%andb_true_iff.
  apply negb_true_iff in Hc. rewrite Hc, IH by done. done.
Qed.

(** [n] terminated lines of width [w]. *)
Inductive block (w : nat) : nat → text → Prop :=
  | block_nil : block w 0 []
  | block_cons n l s : frag w l → block w n s → block w (S n) (l ++ NL :: s).

Lemma block_app w n m s t : block w n s → block w m t → block w (n + m) (s ++ t).
Proof.
  induction 1 as [|n l s Hl _ IH]; intros Ht; [done|]. rewrite <- app_assoc. simpl.
  constructor; [done|]. by apply IH.
Qed.

Lemma block_line w l : frag w l → block w 1 (l ++ [NL]).
Proof. intros Hl. by constructor; [|constructor]. Qed.

Lemma block_concat w (f : nat → text) (h : nat → nat) (rs : list nat) :
  (∀ r, r ∈ rs → block w (h r) (f r)) → block w (sum_list (map h rs)) (concat (map f rs)).
Proof.
  induction rs as [|r rs IH]; intros Hr; simpl; [constructor|].
  apply block_app; [by apply Hr; left|]. apply IH. intros. apply Hr. by right.
Qed.

(** All [n] lines of a text have display width [w]. *)
Definition rectangle (w n : nat) (s : text) : Prop :=
  length (lines s) = n ∧ Forall (λ l, visible_width l = w) (lines s).

Lemma block_rectangle w n s l : block w n s → frag w l → rectangle w (S n) (s ++ l).
Proof.
  intros Hs Hl. unfold rectangle. induction Hs as [|n k s Hk _ [IH1 IH2]].
  - simpl. destruct Hl as (H1 & _ & H3). rewrite lines_line by done. by repeat constructor.
  - rewrite <- app_assoc. simpl. destruct Hk as (H1 & _ & H3). rewrite lines_cons by done.
    split; [simpl; by rewrite IH1|by constructor].
Qed.

(** ** Maxima *)

Lemma fold_max_ge i l : i ≤ fold_max i l ∧ ∀ x, x ∈ l → x ≤ fold_max i l.
Proof.
  unfold fold_max. revert i. induction l as [|y l IH]; intros i; simpl.
  { split; [lia|]. by intros x ?%not_elem_of_nil. }
  destruct (IH (Nat.max i y)) as [H1 H2]. split; [lia|].
  intros x [->|Hx]%elem_of_cons; [lia|by apply H2].
Qed.

(** ** Tables *)

(** Glyphs of one column each. *)
Definition glyphs_ok (g : Glyphs) : Prop :=
  Forall (frag 1) [horizontal g; vertical g; top_left g; top_right g; bottom_left g; bottom_right g;
                   tee_top g; tee_bottom g; tee_left g; tee_right g; cross g].

Lemma ascii_glyphs_ok : glyphs_ok ascii_glyphs.
Proof. by repeat constructor. Qed.
Lemma unicode_glyphs_ok : glyphs_ok unicode_glyphs.
Proof. by repeat constructor. Qed.

(** A text whose lines have no open escape sequence. *)
Definition tidy (t : text) : Prop := Forall (λ l, closed l = true) (lines t).

Section Table.
Variable headers : list text.
Variable cells_cm : list (list text).
Variable opts : TableRenderOptions.
Hypothesis Hg : glyphs_ok (glyphs opts).
Hypothesis Hs : frag 0 (header_style_prefix opts).
Hypothesis Hh : Forall (λ h, no_newline h = true ∧ closed h = true) headers.
Hypothesis Hc : Forall (Forall tidy) cells_cm.

Abbreviation widths := (col_widths headers cells_cm opts).
Abbreviation width c := (col_width headers cells_cm opts c).

(** The display width of every line of the table. *)
Definition table_width : nat := sum_list (map (λ w, w + 3) widths) + 1.

Lemma glyph_frag (f : Glyphs → text) :
  f ∈ [horizontal; vertical; top_left; top_right; bottom_left; bottom_right; tee_top; tee_bottom;
       tee_left; tee_right; cross] → frag 1 (f (glyphs opts)).
Proof.
  intros Hf. unfold glyphs_ok in Hg. rewrite List.Forall_forall in Hg. apply Hg.
  apply list_elem_of_In in Hf. apply (in_map (λ f, f (glyphs opts))) in Hf. exact Hf.
Qed.

Ltac glyph := apply glyph_frag; repeat (first [by left|right]).

Lemma line_width c r i l : split_cell cells_cm c r !! i = Some l → frag (visible_width l) l ∧ visible_width l ≤ width c.
Proof.
  unfold split_cell, cell_at, col_width. destruct (cells_cm !! c) as [col|] eqn:Ec; simpl; cycle 1.
  { destruct i; [|done]. intros [= <-]. split; [done|]. apply Nat.le_0_l. }
  destruct (col !! r) as [t|] eqn:Er; simpl; cycle 1.
  { destruct i; [|done]. intros [= <-]. split; [done|]. apply Nat.le_0_l. }
  intros Hl. rewrite Forall_lookup in Hc. specialize (Hc _ _ Ec). rewrite Forall_lookup in Hc.
  specialize (Hc _ _ Er). split.
  - split_and!; [exact (Forall_lookup_1 _ _ _ _ (lines_no_newline t) Hl)|exact (Forall_lookup_1 _ _ _ _ Hc Hl)|done].
  - apply fold_max_ge. apply list_elem_of_fmap. exists l. split; [done|].
    apply list_elem_of_In, in_concat. exists (lines t).
    split; [apply in_map, list_elem_of_In|apply list_elem_of_In]; by eapply list_elem_of_lookup_2.
Qed.

Lemma header_width c : frag (visible_width (default [] (headers !! c))) (default [] (headers !! c)) ∧
  visible_width (default [] (headers !! c)) ≤ width c.
Proof.
  unfold col_width. destruct (headers !! c) as [h|] eqn:Eh; simpl; cycle 1.
  { split; [done|]. apply Nat.le_0_l. }
  rewrite Forall_lookup in Hh. destruct (Hh _ _ Eh) as [H1 H2]. split; [done|].
  destruct (cells_cm !! c); [|lia].
  etransitivity; [|apply (proj1 (fold_max_ge _ _))]. lia.
Qed.

Lemma emit_cell_frag t c a : frag (visible_width t) t → visible_width t ≤ width c →
  frag (width c + 3) (emit_cell_line opts t (width c) a).
Proof.
  intros Ht Hw. unfold emit_cell_line. eapply frag_eq.
  - eapply frag_app; [glyph|]. eapply (frag_app 1); [done|].
    eapply frag_app; [by eapply frag_pad|]. by instantiate (1 := 1).
  - lia.
Qed.

Lemma cell_line_frag r i c : frag (width c + 3) (cell_line headers cells_cm opts r i c).
Proof.
  unfold cell_line. destruct (split_cell cells_cm c r !! i) as [l|] eqn:El; simpl.
  - destruct (line_width _ _ _ _ El). by apply emit_cell_frag.
  - apply emit_cell_frag; [done|]. apply Nat.le_0_l.
Qed.

Lemma header_cell_frag c : frag (width c + 3) (header_cell headers cells_cm opts c).
Proof.
  unfold header_cell. destruct (header_width c) as [H1 H2].
  destruct (header_style_prefix opts) as [|x p] eqn:Ep; [by apply emit_cell_frag|].
  eapply frag_eq.
  - eapply frag_app; [glyph|]. eapply (frag_app 1); [done|].
    eapply frag_app; [apply frag_colorize; [exact Hs|by eapply frag_pad]|]. by instantiate (1 := 1).
  - lia.
Qed.

(** One line of cells: a fragment per column and the closing bar. *)
Lemma cells_block (f : nat → text) :
  (∀ c, frag (width c + 3) (f c)) →
  block table_width 1 (concat (map f (seq 0 (col_count headers cells_cm))) ++ end_line opts).
Proof.
  intros Hf. unfold end_line. rewrite app_assoc. apply block_line.
  eapply frag_eq; [eapply frag_app; [|glyph]|reflexivity]. unfold col_widths. rewrite map_map.
  apply frag_concat. induction (seq _ _); simpl; constructor; auto.
Qed.

Lemma border_cells_frag junction ws :
  frag 1 junction → ws ≠ [] →
  frag (sum_list (map (λ w, w + 3) ws) - 1) (border_cells opts junction ws).
Proof.
  intros Hj. assert (frag 1 (horizontal (glyphs opts))) as Hz by glyph.
  induction ws as [|w ws IH]; [done|]. intros _. cbn [border_cells].
  destruct ws as [|w' ws]; [rewrite app_nil_r|].
  - eapply frag_eq; [apply (frag_run 1), Hz|]. simpl. lia.
  - eapply frag_eq; [eapply frag_app; [apply (frag_run 1), Hz|eapply frag_app; [exact Hj|by apply IH]]|].
    simpl. lia.
Qed.

Lemma border_block left junction right :
  0 < col_count headers cells_cm → frag 1 left → frag 1 junction → frag 1 right →
  ∃ l, frag table_width l ∧ emit_border headers cells_cm opts left junction right = l ++ [NL].
Proof.
  intros Hn Hl Hj Hr. unfold emit_border. exists (left ++ border_cells opts junction widths ++ right).
  split; [|by rewrite <- !app_assoc].
  assert (widths ≠ []) as Hw.
  { unfold col_widths. destruct (col_count headers cells_cm); [lia|done]. }
  pose proof (border_cells_frag junction widths Hj Hw) as Hb.
  eapply frag_eq; [eapply frag_app; [exact Hl|eapply frag_app; [exact Hb|exact Hr]]|].
  unfold table_width. destruct widths; [done|]. simpl. lia.
Qed.

(** The number of lines between the outer borders. *)
Definition separators : nat := pred (row_count cells_cm).
Definition table_height : nat :=
  2 + (match headers with [] => 0 | _ => 1 + if 0 <? row_count cells_cm then 1 else 0 end) +
  sum_list (map (λ r, row_height headers cells_cm r + if r + 1 <? row_count cells_cm then 1 else 0)
                (seq 0 (row_count cells_cm))).

Lemma middle_block : 0 < col_count headers cells_cm → block table_width 1 (middle_border headers cells_cm opts).
Proof.
  intros Hn. unfold middle_border.
  destruct (border_block (tee_left (glyphs opts)) (cross (glyphs opts)) (tee_right (glyphs opts)))
    as (l & Hl & ->); [done|glyph|glyph|glyph|]. by apply block_line.
Qed.

Lemma optional_block (b : bool) :
  0 < col_count headers cells_cm →
  block table_width (if b then 1 else 0) (if b then middle_border headers cells_cm opts else []).
Proof. intros Hn. destruct b; [by apply middle_block|constructor]. Qed.

Lemma header_block_block :
  0 < col_count headers cells_cm →
  block table_width (match headers with [] => 0 | _ => 1 + if 0 <? row_count cells_cm then 1 else 0 end)
    (header_block headers cells_cm opts).
Proof.
  intros Hn. pose proof (cells_block _ header_cell_frag) as Hb. pose proof (optional_block (0 <? row_count cells_cm) Hn) as Ho.
  unfold header_block. destruct headers; [constructor|]. rewrite app_assoc. by apply block_app.
Qed.

Lemma sum_list_ones n s : sum_list (map (λ _ : nat, 1) (seq s n)) = n.
Proof. revert s. induction n as [|n IH]; intros s; simpl; [done|]. by rewrite IH. Qed.

Lemma row_block_block r :
  0 < col_count headers cells_cm →
  block table_width (row_height headers cells_cm r + if r + 1 <? row_count cells_cm then 1 else 0)
    (row_block headers cells_cm opts r).
Proof.
  intros Hn. unfold row_block. apply block_app; [|by apply optional_block].
  rewrite <- (sum_list_ones (row_height headers cells_cm r) 0) at 1. apply (block_concat _ _ (λ _, 1)).
  intros i _. apply cells_block, cell_line_frag.
Qed.

Lemma table_shape :
  0 < col_count headers cells_cm →
  ∃ s l, table_text headers cells_cm opts = s ++ l ++ [NL] ∧ block table_width (pred table_height) s ∧
         frag table_width l.
Proof.
  intros Hn. unfold table_text, table_height.
  destruct (border_block (bottom_left (glyphs opts)) (tee_bottom (glyphs opts)) (bottom_right (glyphs opts)))
    as (bot & Hbot & ->); [done|glyph|glyph|glyph|].
  destruct (border_block (top_left (glyphs opts)) (tee_top (glyphs opts)) (top_right (glyphs opts)))
    as (top & Htop & ->); [done|glyph|glyph|glyph|].
  exists ((top ++ [NL]) ++ header_block headers cells_cm opts ++
          concat (map (row_block headers cells_cm opts) (seq 0 (row_count cells_cm)))), bot.
  split; [by rewrite <- !app_assoc|]. split; [|done].
  apply (block_app _ 1); [by apply block_line|]. apply block_app; [by apply header_block_block|].
  apply block_concat. intros r _. by apply row_block_block.
Qed.
End Table.

(** C40: a table is a rectangle.  With glyphs of one column, a header style of
    width zero, single-line headers and texts without open escape sequences,
    every line of [render_table] has the same display width, [w + 3] for each
    column of width [w] and one for the closing bar; and there is one line for each
    border, the header, each separator and each line of the tallest cell of each
    row.  A newline follows exactly when [terminate] asks for it. *)
Theorem table_rectangular (headers : list text) (cells_cm : list (list text)) (opts : TableRenderOptions) :
  glyphs_ok (glyphs opts) → frag 0 (header_style_prefix opts) →
  Forall (λ h, no_newline h = true ∧ closed h = true) headers → Forall (Forall tidy) cells_cm →
  0 < col_count headers cells_cm →
  ∃ body, rectangle (table_width headers cells_cm opts) (table_height headers cells_cm) body ∧
          render_table headers cells_cm opts = body ++ (if opt_terminate opts then [NL] else []).
Proof.
  intros Hg Hs Hh Hc Hn.
  destruct (table_shape headers cells_cm opts Hg Hs Hh Hc Hn) as (s & l & E & Hb & Hl).
  exists (s ++ l). split; [by apply block_rectangle|].
  assert (render_table headers cells_cm opts =
    if opt_terminate opts then table_text headers cells_cm opts else drop_newline (table_text headers cells_cm opts)) as ->.
  { unfold render_table. unfold col_count in Hn. by destruct headers, cells_cm; simpl in *; [lia|..]. }
  rewrite E. destruct (opt_terminate opts); [by rewrite app_assoc|].
  unfold drop_newline. by rewrite !last_app, app_assoc, removelast_last, app_nil_r.
Qed.

(** ** Building tables *)

(** One column of cells per header, all columns of the same length *)
Definition well_formed (n : nat) (t : Table) : Prop :=
  length (cells_ t) = length (headers_ t) ∧ Forall (λ column, length column = n) (cells_ t).

(** A sequence of [add_row] *)
Fixpoint add_rows (rows : list (list text)) (t : Table) : result Table :=
  match rows with
  | [] => Ok t
  | values :: rows' => let! t' := add_row values t in add_rows rows' t'
  end.

Lemma add_row_columns (cols : list (list text)) (vs : list text) n :
  length cols = length vs → Forall (λ column, length column = n) cols →
  let cols' := zip_with (λ column v, column ++ [v]) cols vs in
  length cols' = length cols ∧ Forall (λ column, length column = S n) cols' ∧
  (∀ c r, cell_at cols' c r = if r =? n then vs !! c else cell_at cols c r).
Proof.
  cbv zeta. intros Hl Hn. split_and!.
  - rewrite length_zip_with. lia.
  - revert vs Hl. induction Hn as [|col cols Hc _ IH]; intros [|v vs] Hl; try done. simpl.
    constructor; [rewrite length_app, Hc; simpl; lia|]. apply IH. simpl in Hl. lia.
  - intros c r. unfold cell_at. rewrite lookup_zip_with.
    destruct (cols !! c) as [col|] eqn:Ec; simpl; cycle 1.
    { apply lookup_ge_None in Ec. rewrite (proj2 (lookup_ge_None vs c)) by lia. by destruct (r =? n). }
    destruct (lookup_lt_is_Some_2 vs c) as [v Ev]; [rewrite <- Hl; by eapply lookup_lt_Some|].
    rewrite Ev. simpl. pose proof (Forall_lookup_1 _ _ _ _ Hn Ec) as Hlen. simpl in Hlen.
    destruct (Nat.eqb_spec r n) as [->|Hr].
    + by rewrite lookup_app_r, Hlen, Nat.sub_diag by lia.
    + destruct (decide (r < n)); [by apply lookup_app_l; lia|].
      rewrite (proj2 (lookup_ge_None col r)) by lia. apply lookup_ge_None. rewrite length_app. simpl. lia.
Qed.

Lemma add_row_aligned n t values :
  well_formed n t → length values = length (headers_ t) →
  ∃ t', add_row values t = Ok t' ∧ well_formed (S n) t' ∧ headers_ t' = headers_ t ∧
        ∀ c r, cell_at (cells_ t') c r = if r =? n then values !! c else cell_at (cells_ t) c r.
Proof.
  intros [Hl Hn] Hv. unfold add_row. rewrite Hl, Hv, Nat.eqb_refl.
  destruct (add_row_columns (cells_ t) values n) as (H1 & H2 & H3); [lia|done|].
  eexists. split; [done|]. split_and!; [split; simpl; [by rewrite H1|done]|done|done].
Qed.

(** Rows of the right length, added one after the other, are the rows of the
    table. *)
Lemma add_rows_aligned n t rows :
  well_formed n t → Forall (λ values, length values = length (headers_ t)) rows →
  ∃ t', add_rows rows t = Ok t' ∧ well_formed (n + length rows) t' ∧ headers_ t' = headers_ t ∧
        ∀ c r, cell_at (cells_ t') c r = if r <? n then cell_at (cells_ t) c r else (rows !! (r - n)) ≫= (.!! c).
Proof.
  intros Hw Hr. revert n t Hw Hr. induction rows as [|values rows IH]; intros n t Hw Hr; simpl.
  - exists t. rewrite Nat.add_0_r. split_and!; [done..|]. intros c r. destruct (Nat.ltb_spec r n); [done|].
    unfold cell_at. destruct (cells_ t !! c) as [col|] eqn:Ec; [|done]. simpl. apply lookup_ge_None.
    destruct Hw as [_ Hw]. rewrite (Forall_lookup_1 _ _ _ _ Hw Ec). lia.
  - apply Forall_cons_1 in Hr as [Hv Hr]. destruct (add_row_aligned n t values Hw Hv) as (t1 & -> & Hw1 & Hh & Hc1).
    simpl. destruct (IH (S n) t1) as (t' & -> & Hw' & Hh' & Hc'); [done|by rewrite Hh|].
    exists t'. split_and!; [done|by rewrite Nat.add_succ_r|congruence|]. intros c r. rewrite Hc', Hc1.
    destruct (Nat.ltb_spec r (S n)), (Nat.ltb_spec r n), (Nat.eqb_spec r n); try lia; [done| |].
    + subst. by rewrite Nat.sub_diag.
    + by replace (r - n) with (S (r - S n)) by lia.
Qed.

Lemma resize_cells k (cells : list (list text)) c r :
  cell_at (resize k [] cells) c r = if c <? k then cell_at cells c r else None.
Proof.
  unfold cell_at. destruct (Nat.ltb_spec c k).
  - destruct (decide (c < length cells)) as [Hc|Hc].
    + by rewrite lookup_resize by done.
    + rewrite lookup_resize_new by lia. by rewrite (proj2 (lookup_ge_None cells c)) by lia.
  - by rewrite lookup_resize_old by lia.
Qed.

Lemma resize_aligned k n (cells : list (list text)) :
  Forall (λ column, length column = n) (resize k [] cells) ↔
  Forall (λ column, length column = n) (take k cells) ∧ (k ≤ length cells ∨ n = 0).
Proof.
  destruct (decide (k ≤ length cells)) as [Hk|Hk].
  - rewrite resize_le by done. tauto.
  - rewrite resize_ge, Forall_app, take_ge by lia. split.
    + intros [Hc Hz]. split; [done|right].
      destruct (k - length cells) eqn:E; [lia|]. by apply Forall_cons_1 in Hz as [Hz _].
    + intros [Hc [?| ->]]; [lia|]. split; [done|]. by apply Forall_replicate.
Qed.

(** C39: the table builder.  [headers], on any table, sets the names and keeps
    the cells of the columns that remain, drops the others and adds empty
    columns; so the result has one column per header, and its columns have the
    same length [n] exactly when the kept ones have and none was added to a
    table with rows.  [add_row], on any table, appends one value to each column
    and throws [invalid_argument] if and only if their number is not the number
    of columns; it keeps columns of equal length so.  On a table without columns,
    [headers] followed by rows of as many values holds exactly these rows.
    Declaring more headers after a row leaves columns of different length. *)
Theorem table_builder_type (t : Table) (names values : list text) (rows : list (list text)) (n : nat) :
  (headers_ (set_headers names t) = names ∧ opts_ (set_headers names t) = opts_ t ∧
   length (cells_ (set_headers names t)) = length names ∧
   (∀ c r, cell_at (cells_ (set_headers names t)) c r = if c <? length names then cell_at (cells_ t) c r else None) ∧
   (well_formed n (set_headers names t) ↔
      Forall (λ column, length column = n) (take (length names) (cells_ t)) ∧
      (length names ≤ length (cells_ t) ∨ n = 0))) ∧
  (add_row values t = Throw invalid_argument ↔ length values ≠ length (cells_ t)) ∧
  (∀ t', add_row values t = Ok t' →
     headers_ t' = headers_ t ∧ opts_ t' = opts_ t ∧
     cells_ t' = zip_with (λ column v, column ++ [v]) (cells_ t) values ∧ (well_formed n t → well_formed (S n) t')) ∧
  (cells_ t = [] → Forall (λ row, length row = length names) rows →
     ∃ t', add_rows rows (set_headers names t) = Ok t' ∧ well_formed (length rows) t' ∧ headers_ t' = names ∧
           ∀ c r, cell_at (cells_ t') c r = (rows !! r) ≫= (.!! c)) ∧
  (∃ t', (let! t1 := add_row [lit "1"] (set_headers [lit "a"] table) in
          add_row [lit "2"; lit "3"] (set_headers [lit "a"; lit "b"] t1)) = Ok t' ∧
         cells_ t' = [[lit "1"; lit "2"]; [lit "3"]]).
Proof.
  assert (∀ m, well_formed m (set_headers names t) ↔
      Forall (λ column, length column = m) (take (length names) (cells_ t)) ∧
      (length names ≤ length (cells_ t) ∨ m = 0)) as Hsh.
  { intros m. unfold well_formed. simpl. rewrite resize_aligned, length_resize. tauto. }
  split_and!; [done|done|apply length_resize|intros; apply resize_cells|apply Hsh|..].
  - unfold add_row. destruct (Nat.eqb_spec (length (cells_ t)) (length values)); split; intros; try done; lia.
  - intros t' H. assert (length (cells_ t) = length values) as Hl.
    { unfold add_row in H. by destruct (Nat.eqb_spec (length (cells_ t)) (length values)). }
    assert (well_formed n t → well_formed (S n) t') as Hw'.
    { intros Hw. destruct (add_row_aligned n t values Hw) as (t1 & E & ? & _); [destruct Hw; lia|]. congruence. }
    unfold add_row in H. rewrite Hl, Nat.eqb_refl in H. injection H as <-. done.
  - intros Hc Hr. destruct (add_rows_aligned 0 (set_headers names t) rows) as (t' & ? & ? & ? & Hcell); [|done|].
    { apply Hsh. rewrite Hc, take_nil. split; [done|by right]. }
    exists t'. split_and!; [done..|]. intros c r. by rewrite Hcell, Nat.sub_0_r.
  - eexists. split; [reflexivity|]. reflexivity.
Qed.

(** ** Boxes *)

Section Box.
Variable b : Box.
Hypothesis Hg : glyphs_ok (glyphs_ b).
Hypothesis Hs : frag 0 (border_style_ b).
Hypothesis Ht1 : no_newline (title_ b) = true.
Hypothesis Ht2 : closed (title_ b) = true.
Hypothesis Hb : tidy (body_ b).

Lemma box_glyph f :
  f ∈ [horizontal; vertical; top_left; top_right; bottom_left; bottom_right; tee_top; tee_bottom;
       tee_left; tee_right; cross] → frag 1 (f (glyphs_ b)).
Proof.
  intros Hf. unfold glyphs_ok in Hg. rewrite List.Forall_forall in Hg. apply Hg.
  apply list_elem_of_In in Hf. by apply (in_map (λ f, f (glyphs_ b))) in Hf.
Qed.

Lemma wrap_frag w s : frag w s → frag w (wrap_border b s).
Proof. intros H. unfold wrap_border. destruct (border_style_ b); [done|]. by apply frag_colorize. Qed.

Lemma run_frag n : frag n (horizontal_run (glyphs_ b) n).
Proof. eapply frag_eq; [apply (frag_run 1), box_glyph; by left|]. lia. Qed.

Lemma box_top_frag : frag (box_span b + 2) (box_top b).
Proof.
  unfold box_top.
  assert (frag (box_span b)
    match title_ b with
    | [] => horizontal_run (glyphs_ b) (box_span b)
    | _ =>
        let title_span := visible_width (title_ b) + 2 in
        let left := (box_span b - title_span) / 2 in
        let right := box_span b - title_span - left in
        horizontal_run (glyphs_ b) left ++ [space] ++ title_ b ++ [space] ++ horizontal_run (glyphs_ b) right
    end) as Hm.
  { destruct (title_ b) as [|x l] eqn:E; [apply run_frag|]. rewrite <- E in *. cbv zeta.
    assert (visible_width (title_ b) + 4 ≤ box_span b) as Hle.
    { unfold box_span. rewrite E at 2. lia. }
    pose proof (Nat.Div0.div_le_upper_bound (box_span b - (visible_width (title_ b) + 2)) 2
                  (box_span b - (visible_width (title_ b) + 2)) ltac:(lia)) as Hd.
    eapply frag_eq.
    - eapply frag_app; [apply run_frag|]. eapply (frag_app 1); [done|].
      eapply frag_app; [by split_and!|]. eapply (frag_app 1); [done|apply run_frag].
    - lia. }
  eapply frag_eq; [eapply frag_app; [|eapply frag_app; [exact Hm|]]|];
    [apply box_glyph; repeat (first [by left|right])..|]. lia.
Qed.

Lemma box_line_block l : l ∈ lines (body_ b) → block (box_span b + 2) 1 (box_line b l).
Proof.
  intros Hl. unfold box_line. rewrite !app_assoc. apply block_line. rewrite <- !app_assoc.
  assert (frag (visible_width l) l) as Hf.
  { apply list_elem_of_lookup in Hl as [i Hi].
    split_and!; [exact (Forall_lookup_1 _ _ _ _ (lines_no_newline _) Hi)|exact (Forall_lookup_1 _ _ _ _ Hb Hi)|done]. }
  assert (visible_width l + 2 * padding_ b ≤ box_span b) as Hw.
  { assert (visible_width l ≤ fold_max 0 (map visible_width (lines (body_ b)))) as H.
    { apply fold_max_ge. apply list_elem_of_fmap. eauto. }
    unfold box_span. cbv zeta. lia. }
  assert (frag 1 (wrap_border b (vertical (glyphs_ b)))) as Hv
    by (apply wrap_frag, box_glyph; repeat (first [by left|right])).
  eapply frag_eq.
  - eapply frag_app; [exact Hv|]. eapply frag_app; [apply frag_spaces|]. eapply frag_app; [exact Hf|].
    eapply frag_app; [apply frag_spaces|]. eapply frag_app; [apply frag_spaces|exact Hv].
  - lia.
Qed.

Lemma box_lines_block ls :
  (∀ l, l ∈ ls → l ∈ lines (body_ b)) → block (box_span b + 2) (length ls) (concat (map (box_line b) ls)).
Proof.
  induction ls as [|l ls IH]; intros Hin; simpl; [constructor|].
  apply (block_app _ 1); [apply box_line_block, Hin; by left|]. apply IH. intros. apply Hin. by right.
Qed.
End Box.

(** A box is a rectangle: with glyphs of one column, a border style of width
    zero, a single-line title and body lines without open escape sequences, every
    line of [Box::render] has the width of the span and the two borders, and
    there are two lines more than the body has. *)
Theorem box_rectangular (b : Box) :
  glyphs_ok (glyphs_ b) → frag 0 (border_style_ b) →
  no_newline (title_ b) = true → closed (title_ b) = true → tidy (body_ b) → terminate_ b = false →
  rectangle (box_span b + 2) (2 + length (lines (body_ b))) (render_box b).
Proof.
  intros Hg Hs Ht1 Ht2 Hb Ht. unfold render_box. rewrite Ht, app_nil_r.
  rewrite !app_assoc. apply block_rectangle.
  - apply (block_app _ 1); [apply block_line, wrap_frag; [done|by apply box_top_frag]|].
    by apply box_lines_block.
  - apply wrap_frag; [done|]. eapply frag_eq.
    + eapply frag_app; [|eapply frag_app; [by apply run_frag|]];
        (apply box_glyph; [done|]; repeat (first [by left|right])).
    + lia.
Qed.

(** ** Sections *)

(** The text of a row before its value. *)
Definition label_part (s : Section_) (label : text) : text :=
  spaces (indent_ s) ++ label ++ [":"%char] ++ spaces (max_label s - visible_width label + length (separator_ s)).

(** The values of a section are aligned: for single-line labels without
    open escapes, the label part of every row has the width [value_col], which is
    also the indentation of the continuation lines.  Of the separator only its
    length matters: two separators of the same length render alike. *)
Theorem section_aligned (s : Section_) :
  Forall (λ r, no_newline r.1 = true ∧ closed r.1 = true) (rows_ s) →
  (∀ r, r ∈ rows_ s → frag (value_col s) (label_part s r.1)) ∧
  (∀ sep, length sep = length (separator_ s) → render_section (separator sep s) = render_section s).
Proof.
  intros Hr. split.
  - intros r Hin. rewrite List.Forall_forall in Hr. destruct (Hr r) as [H1 H2]; [by apply list_elem_of_In|].
    assert (visible_width r.1 ≤ max_label s) as Hw.
    { apply fold_max_ge. apply list_elem_of_fmap. eauto. }
    eapply frag_eq.
    + eapply frag_app; [apply frag_spaces|]. eapply frag_app; [by split_and!|].
      eapply (frag_app 1); [done|apply frag_spaces].
    + unfold value_col. lia.
  - intros sep Hl. unfold render_section. f_equal. change (section_title (separator sep s)) with (section_title s).
    generalize (section_title s). change (rows_ (separator sep s)) with (rows_ s).
    assert (value_col (separator sep s) = value_col s) as Ec by (unfold value_col; simpl; by rewrite Hl).
    assert (∀ ls b, value_lines (separator sep s) ls b = value_lines s ls b) as Ev.
    { induction ls as [|l ls IH]; intros b; [done|]. cbn [value_lines]. by rewrite IH, Ec. }
    assert (∀ out r, section_row (separator sep s) out r = section_row s out r) as E.
    { intros out r. unfold section_row. rewrite Ev. simpl. by rewrite Hl. }
    clear Hr. induction (rows_ s) as [|r rs IH]; intros out; simpl; [done|]. rewrite E. apply IH.
Qed.

(** ** Instances *)

Module InkExample.
Definition heads : list text := [lit "id"; lit "name"].
Definition columns : list (list text) := [[lit "1"; lit "20"]; [lit "a" ++ [NL] ++ lit "bcdef"; make_colored bold red (lit "x")]].
Definition opts : TableRenderOptions := mkOpts unicode_glyphs (color_code bold cyan) 3 false Right [Left].
Definition one_box : Box := title (lit "t") (border_style (color_code hi green) (box (lit "abc" ++ [NL] ++ lit "d"))).
Definition sec : Section_ := row (lit "ops") (lit "42") (row (lit "latency") (lit "7 ms") (section (lit "Stats"))).
End InkExample.

Lemma table_rectangular_witness :
  ∃ body, rectangle 15 8 body ∧ render_table InkExample.heads InkExample.columns InkExample.opts = body ++ [].
Proof.
  apply (table_rectangular InkExample.heads InkExample.columns InkExample.opts);
    [apply unicode_glyphs_ok|apply frag_color|by repeat constructor|by repeat constructor|simpl; lia].
Defined.

Lemma table_builder_type_witness :
  ∃ t', add_rows [[lit "1"; lit "x"]; [lit "2"; lit "y"]] (set_headers InkExample.heads table) = Ok t' ∧ well_formed 2 t' ∧
        cell_at (cells_ t') 1 0 = Some (lit "x").
Proof.
  destruct (table_builder_type table InkExample.heads [] [[lit "1"; lit "x"]; [lit "2"; lit "y"]] 0)
    as (_ & _ & _ & H & _).
  destruct (H eq_refl) as (t' & E & Hw & _ & Hc); [by repeat constructor|]. exists t'. split; [exact E|].
  split; [exact Hw|]. by rewrite Hc.
Defined.

Lemma box_rectangular_witness : rectangle 7 4 (render_box InkExample.one_box).
Proof.
  apply (box_rectangular InkExample.one_box);
    [apply ascii_glyphs_ok|apply frag_color|done|done|by repeat constructor|done].
Defined.

Lemma section_aligned_witness :
  (∀ r, r ∈ rows_ InkExample.sec → frag 12 (label_part InkExample.sec r.1)) ∧
  (∀ sep, length sep = 2 → render_section (separator sep InkExample.sec) = render_section InkExample.sec).
Proof. apply (section_aligned InkExample.sec). by repeat constructor. Defined.
