(* ===== verification/Support.v ===== *)
(** * Random values, salts and hashes

    [common/math/random]: dates, durations, picks, subsets and UUIDs, with the
    numbers the distributions draw as arguments; [common/crypto]: salts, their
    hexadecimal form, the two hashers over OpenSSL's functions, and the comparison
    in constant time. *)

From stdpp Require Import gmap.
From S2P Require Import Prelude Gears Bytes PostgresDialect.

Local Open Scope demi_scope.
Local Open Scope Z_scope.

(** ** Distributions *)

(** [std::uniform_int_distribution(a, b)]: undefined unless [a <= b]; [draw] is
    what the engine yields. *)
Definition uniform (a b draw : Z) : result Z :=
  if b <? a then Throw UndefinedBehaviour else Ok (a + draw mod (b - a + 1)).

Lemma uniform_range a b draw : a ≤ b → ∃ r, uniform a b draw = Ok r ∧ a ≤ r ≤ b.
Proof.
  intros Hab. unfold uniform. destruct (Z.ltb_spec b a); [lia|]. eexists. split; [done|].
  pose proof (Z.mod_pos_bound draw (b - a + 1)). lia.
Qed.

Module RandomTimeGenerator.
(** The products are exact in [double] and the quotients are cut to whole
    milliseconds; a bound that does not fit a [uint32_t] is undefined. *)
Definition generate_milliseconds (target_ms deviation draw : Z) : result Z :=
  if (deviation <? 0) || (100 <? deviation) then Throw invalid_argument
  else
    let lower_bound := target_ms * (100 - deviation) / 100 in
    let upper_bound := target_ms * (100 + deviation) / 100 in
    if 2 ^ 32 <=? upper_bound then Throw UndefinedBehaviour else uniform lower_bound upper_bound draw.

(** A date is a number of days. *)
Definition generate_date (from to draw : Z) : result Z :=
  let! d := uniform 0 (to - from) draw in Ok (from + d).
Definition generate_date_from_to_now (now from draw : Z) : result Z := generate_date from now draw.
(** 1925-07-25, in days since 1970-01-01 *)
Definition start_of_last_century_ : Z := -16231.
Definition generate_date_to (to draw : Z) : result Z := generate_date start_of_last_century_ to draw.
Definition generate_date_last_century (now draw : Z) : result Z :=
  generate_date_from_to_now now start_of_last_century_ draw.

Definition generate_time_period (from to d1 d2 : Z) : result (Z * Z) :=
  let! start := generate_date from to d1 in
  let! finish := generate_date start to d2 in Ok (start, finish).
Definition generate_time_period_default (now d1 d2 : Z) : result (Z * Z) :=
  let! start := generate_date_last_century now d1 in
  let! finish := generate_date_from_to_now now start d2 in Ok (start, finish).
Definition generate_time_period_from (now from d1 d2 : Z) : result (Z * Z) :=
  let! start := generate_date_from_to_now now from d1 in
  let! finish := generate_date_from_to_now now start d2 in Ok (start, finish).
Definition generate_time_period_to (to d1 d2 : Z) : result (Z * Z) :=
  let! start := generate_date_to to d1 in
  let! finish := generate_date start to d2 in Ok (start, finish).

Lemma generate_date_range from to draw : from ≤ to → ∃ r, generate_date from to draw = Ok r ∧ from ≤ r ≤ to.
Proof.
  intros Hft. unfold generate_date. destruct (uniform_range 0 (to - from) draw) as (r & -> & Hr); [lia|].
  exists (from + r). simpl. split; [done|lia].
Qed.

(** A period lies in its range and does not end before it starts. *)
Lemma time_period_ordered from to d1 d2 :
  from ≤ to → ∃ s e, generate_time_period from to d1 d2 = Ok (s, e) ∧ from ≤ s ≤ e ∧ e ≤ to.
Proof.
  intros Hft. unfold generate_time_period. destruct (generate_date_range from to d1 Hft) as (s & -> & Hs).
  simpl. destruct (generate_date_range s to d2) as (e & -> & He); [lia|]. exists s, e. simpl. split; [done|lia].
Qed.

(** Around the target, by at most the deviation. *)
Lemma milliseconds_range target_ms deviation draw :
  0 ≤ target_ms → 0 ≤ deviation ≤ 100 → target_ms * (100 + deviation) / 100 < 2 ^ 32 →
  ∃ r, generate_milliseconds target_ms deviation draw = Ok r ∧
    target_ms * (100 - deviation) / 100 ≤ r ≤ target_ms * (100 + deviation) / 100.
Proof.
  intros Ht Hd Hu. unfold generate_milliseconds.
  destruct (Z.ltb_spec deviation 0), (Z.ltb_spec 100 deviation); try lia. cbn [orb].
  destruct (Z.leb_spec (2 ^ 32) (target_ms * (100 + deviation) / 100)); [lia|].
  apply uniform_range. apply Z.div_le_mono; [lia|nia].
Qed.
End RandomTimeGenerator.

Definition generate_random_uint32 (min max draw : Z) : result Z := uniform min max draw.

(** ** Picks and subsets *)

Fixpoint generate_based_on_subset {T R} (arr : list T) (f : T → R) (coins : list bool) : list R :=
  match arr, coins with
  | elem :: arr', c :: coins' =>
      if c then f elem :: generate_based_on_subset arr' f coins' else generate_based_on_subset arr' f coins'
  | _, _ => []
  end.
Definition generate_subset {T} (arr : list T) (coins : list bool) : list T := generate_based_on_subset arr id coins.

(** The overload for a [std::array]: no test, so an array of size zero asks for
    an index up to [2 ^ 32 - 1]. *)
Definition pick_array {T} (arr : list T) (draw : Z) : result T :=
  let! i := uniform 0 ((Z.of_nat (length arr) - 1) mod 2 ^ 32) draw in
  match arr !! Z.to_nat i with Some x => Ok x | None => Throw UndefinedBehaviour end.
(** The overloads for spans and for iterator ranges. *)
Definition pick {T} (arr : list T) (draw : Z) : result (option T) :=
  match arr with
  | [] => Ok None
  | _ => let! i := uniform 0 (Z.of_nat (length arr) - 1) draw in
         match arr !! Z.to_nat i with Some x => Ok (Some x) | None => Throw UndefinedBehaviour end
  end.

Lemma subset_sublist {T} (arr : list T) coins : generate_subset arr coins `sublist_of` arr.
Proof.
  unfold generate_subset. revert coins.
  induction arr as [|x arr IH]; intros [|[] coins]; simpl; try apply sublist_nil_l;
    unfold id; constructor; apply IH.
Qed.

(** A pick is an element, and there is one unless the range is empty. *)
Lemma pick_elem {T} (arr : list T) draw : arr ≠ [] → ∃ x, pick arr draw = Ok (Some x) ∧ x ∈ arr.
Proof.
  intros Hne. unfold pick. destruct arr as [|y arr]; [done|].
  destruct (uniform_range 0 (Z.of_nat (length (y :: arr)) - 1) draw) as (i & -> & Hi); [simpl; lia|]. cbn [rbind].
  destruct (lookup_lt_is_Some_2 (y :: arr) (Z.to_nat i)) as [x Hx]; [simpl in *; lia|].
  rewrite Hx. exists x. split; [done|]. by eapply list_elem_of_lookup_2.
Qed.

(** ** UUIDs *)

(** [std::hex << std::setfill('0') << std::setw(w)] of a number that fits. *)
Fixpoint hex_field (w : nat) (z : Z) : string :=
  match w with
  | O => ""
  | S w' => hex_field w' (Z.shiftr z 4) +:+ String (Postgres.hex_char (Z.to_N (Z.land z 15))) ""
  end.

Definition uuid_parts (r1 r2 : Z) : Z * Z :=
  (Z.lor (Z.land r1 0xFFFFFFFFFFFF0FFF) 0x4000, Z.lor (Z.land r2 0x3FFFFFFFFFFFFFFF) 0x8000000000000000).

Definition generate_random_uuid_v4 (r1 r2 : Z) : string :=
  let '(part1, part2) := uuid_parts r1 r2 in
  hex_field 8 (Z.land (Z.shiftr part1 32) 0xFFFFFFFF) +:+ "-" +:+
  hex_field 4 (Z.land (Z.shiftr part1 16) 0xFFFF) +:+ "-" +:+
  hex_field 4 (Z.land part1 0xFFFF) +:+ "-" +:+
  hex_field 4 (Z.land (Z.shiftr part2 48) 0xFFFF) +:+ "-" +:+
  hex_field 12 (Z.land part2 0xFFFFFFFFFFFF).

(** Version 4 and variant 1, whatever is drawn: the two parts carry 0100 in bits
    12 to 15 and 10 in bits 62 and 63, and the text has 36 characters. *)
Lemma uuid_format r1 r2 :
  let p := uuid_parts r1 r2 in
  Z.testbit p.1 15 = false ∧ Z.testbit p.1 14 = true ∧ Z.testbit p.1 13 = false ∧ Z.testbit p.1 12 = false ∧
  Z.testbit p.2 63 = true ∧ Z.testbit p.2 62 = false ∧
  String.length (generate_random_uuid_v4 r1 r2) = 36%nat.
Proof.
  cbv zeta. unfold generate_random_uuid_v4, uuid_parts. cbn [fst snd].
  rewrite !Z.lor_spec, !Z.land_spec.
  split_and!; cbn; by rewrite ?andb_false_r, ?orb_true_r.
Qed.

(** ** Salts and hashes *)

(** [SaltGenerator::generate_bytes]; [rand] is what [RAND_bytes] fills in, if it
    succeeds. *)
Definition generate_bytes (size : nat) (rand : option (list ascii)) : result (list ascii) :=
  if (size =? 0)%nat then Throw runtime_error
  else match rand with Some bytes => Ok (take size bytes) | None => Throw runtime_error end.

(** Two characters per byte, high nibble first: the loops of [generate_hex] and
    of both hashers. *)
Definition to_hex (bytes : list ascii) : string := Postgres.hex_digits bytes.
Definition generate_hex (size : nat) (rand : option (list ascii)) : result string :=
  let! bytes := generate_bytes size rand in Ok (to_hex bytes).

(** What OpenSSL's BIO functions return along [encode_base64]. *)
Record Bio := {
  bio_mem : bool; bio_b64 : bool;          (* the two allocations *)
  bio_write : list ascii → Z; bio_flush : Z;
  bio_mem_ptr : list ascii → option string (* what the buffer holds after the writes *)
}.

(** With the number of BIOs still allocated when it returns or throws. *)
Definition encode_base64 (io : Bio) (data : list ascii) : result string * nat :=
  match data with
  | [] => (Ok "", 0%nat)
  | _ =>
      if negb (bio_mem io) then (Throw runtime_error, 0%nat)
      else
        let live := 1%nat in
        if negb (bio_b64 io) then (Throw runtime_error, (live - 1)%nat)    (* BIO_free *)
        else
          let live := S live in
          let free_all := (live - 2)%nat in                                (* the chain of two *)
          if bio_write io data <=? 0 then (Throw runtime_error, free_all)
          else if bio_flush io <? 1 then (Throw runtime_error, free_all)
          else match bio_mem_ptr io data with
               | None | Some EmptyString => (Throw runtime_error, free_all)
               | Some encoded => (Ok encoded, free_all)
               end
  end.

(** No path leaks a BIO, and a text that is returned for data is not empty. *)
Lemma encode_base64_releases io data : (encode_base64 io data).2 = 0%nat.
Proof. unfold encode_base64. by repeat case_match. Qed.

Lemma encode_base64_nonempty io data s : data ≠ [] → (encode_base64 io data).1 = Ok s → s ≠ "".
Proof. unfold encode_base64. intros Hd. repeat case_match; intros; simplify_eq/=; done. Qed.

Definition generate_base64 (io : Bio) (size : nat) (rand : option (list ascii)) : result string :=
  let! salt_bytes := generate_bytes size rand in (encode_base64 io salt_bytes).1.

Lemma generate_hex_length size bytes : size ≠ 0%nat → length bytes = size →
  ∃ h, generate_hex size (Some bytes) = Ok h ∧ String.length h = (2 * size)%nat.
Proof.
  intros Hs Hl. unfold generate_hex, generate_bytes. destruct (Nat.eqb_spec size 0); [done|]. cbn [rbind].
  eexists. split; [done|]. rewrite take_ge by lia. unfold to_hex. subst size. clear.
  induction bytes as [|b bytes IH]; [done|]. simpl. rewrite ?string_length_app, IH. simpl. lia.
Qed.

Section Hashes.
Variable HMAC : string → string → list ascii.
Variable PBKDF2 : string → string → option (list ascii).

(** [key_ + salt.data()]: the salt up to its first NUL. *)
Definition sha256_hash (key data salt : string) : string :=
  to_hex (HMAC (key +:+ string_of_list_ascii (InlineString.until_nul (list_ascii_of_string salt))) data).
Definition pbkdf2_hash (password salt : string) : result string :=
  match PBKDF2 password salt with Some k => Ok (to_hex k) | None => Throw runtime_error end.
(** [hash_with_generated_salt] over a hash function. *)
Definition hash_with_generated_salt (hash : string → string → result string) (password : string)
    (io : Bio) (rand : option (list ascii)) : result (string * string) :=
  let! salt := generate_base64 io 16 rand in
  let! h := hash password salt in Ok (salt, h).

(** The key and the salt are joined without a separator. *)
Lemma key_salt_joined data : sha256_hash "ab" data "c" = sha256_hash "a" data "bc".
Proof. done. Qed.
End Hashes.

(** *** Constant-time comparison *)

Fixpoint compare_loop (a b : list ascii) (result : bool) : bool :=
  match a, b with
  | x :: a', y :: b' => compare_loop a' b' (result && bool_decide (x = y))
  | _, _ => result
  end.
Definition constant_time_compare (a b : string) : bool :=
  if (String.length a =? String.length b)%nat
  then compare_loop (list_ascii_of_string a) (list_ascii_of_string b) true else false.

Lemma compare_loop_spec a b r : length a = length b → compare_loop a b r = r && bool_decide (a = b).
Proof.
  revert b r. induction a as [|x a IH]; intros [|y b] r Hl; simplify_eq/=; [by rewrite andb_true_r|].
  rewrite IH by done. rewrite <- andb_assoc. f_equal.
  repeat case_bool_decide; simplify_eq; done.
Qed.

(** It decides equality. *)
Lemma constant_time_compare_spec a b : constant_time_compare a b = bool_decide (a = b).
Proof.
  unfold constant_time_compare. destruct (Nat.eqb_spec (String.length a) (String.length b)) as [E|E].
  - rewrite compare_loop_spec by (by rewrite !length_list_ascii). simpl. apply bool_decide_ext. split; [|by intros ->].
    intros Hl. rewrite <- (string_of_list_ascii_of_string a), Hl. apply string_of_list_ascii_of_string.
  - symmetry. apply bool_decide_false. by intros ->.
Qed.

(** ** A resource behind a reader-writer lock *)

(** [ThreadSafeResource]: [rd] and [wr] are the threads that hold a read and a
    write proxy (or are inside [with_read_lock] and [with_lock]). A step is
    enabled when the [std::shared_mutex] lets the thread through; asking for the
    lock while holding it is undefined and is not a step. *)
Module ThreadSafeResource.
Section Resource.
Context {T : Type}.

Record state := mk { rd : gset nat; wr : option nat; resource : T }.

Inductive op :=
  | OpRead (t : nat)                  (* read(), operator->() const, with_read_lock *)
  | OpReadEnd (t : nat)               (* ~ReadProxy *)
  | OpWrite (t : nat)                 (* write(), operator->(), with_lock *)
  | OpAssign (t : nat) (f : T → T)    (* a call through WriteProxy::operator-> or * *)
  | OpWriteEnd (t : nat).             (* ~WriteProxy *)

Definition step (o : op) (s : state) : option state :=
  match o with
  | OpRead t =>
      if bool_decide (wr s = None ∧ t ∉ rd s) then Some (mk ({[t]} ∪ rd s) (wr s) (resource s)) else None
  | OpReadEnd t => if bool_decide (t ∈ rd s) then Some (mk (rd s ∖ {[t]}) (wr s) (resource s)) else None
  | OpWrite t =>
      if bool_decide (wr s = None ∧ rd s = ∅) then Some (mk (rd s) (Some t) (resource s)) else None
  | OpAssign t f => if bool_decide (wr s = Some t) then Some (mk (rd s) (wr s) (f (resource s))) else None
  | OpWriteEnd t => if bool_decide (wr s = Some t) then Some (mk (rd s) None (resource s)) else None
  end.

Fixpoint steps (os : list op) (s : state) : option state :=
  match os with
  | [] => Some s
  | o :: os' => match step o s with Some s' => steps os' s' | None => None end
  end.

Definition init (x : T) : state := mk ∅ None x.

(** [with_lock]: the function may leave the resource changed and throw; the guard
    unlocks either way. *)
Definition with_lock (t : nat) (func : T → T * result Z) (s : state) : option (state * result Z) :=
  match step (OpWrite t) s with
  | None => None
  | Some s1 =>
      let '(x, out) := func (resource s1) in
      match step (OpAssign t (λ _, x)) s1 with
      | None => None
      | Some s2 => match step (OpWriteEnd t) s2 with Some s3 => Some (s3, out) | None => None end
      end
  end.

Definition exclusive (s : state) : Prop := ∀ t, wr s = Some t → rd s = ∅.

Ltac invert_step := repeat case_bool_decide; try done; destruct_and?; simplify_eq/=.

Lemma step_exclusive o s s' : step o s = Some s' → exclusive s → exclusive s'.
Proof.
  unfold exclusive. destruct o; cbn [step]; intros E H; invert_step; intros t' Ht'; simplify_eq/=;
    try rewrite (H _ Ht'); (done || set_solver).
Qed.

Lemma steps_exclusive os x s : steps os (init x) = Some s → exclusive s.
Proof.
  assert (exclusive (init x)) as H0 by done. revert H0. generalize (init x) as s0.
  induction os as [|o os IH]; intros s0 H0; simpl; [by intros [= <-]|].
  destruct (step o s0) eqn:E; [|done]. apply IH. by eapply step_exclusive.
Qed.

(** While a read proxy lives nothing changes the resource: along any steps of the
    other threads, and its own reads, the reader sees one value. *)
Theorem read_stable os t s s' :
  exclusive s → t ∈ rd s → OpReadEnd t ∉ os → steps os s = Some s' → resource s' = resource s ∧ t ∈ rd s'.
Proof.
  revert s. induction os as [|o os IH]; intros s Hx Ht Hn; simpl; [naive_solver|].
  destruct (step o s) as [s1|] eqn:E; [|done]. intros Hs.
  apply not_elem_of_cons in Hn as [Hn1 Hn2].
  assert (resource s1 = resource s ∧ t ∈ rd s1) as [<- Ht1]; [|eapply IH; eauto using step_exclusive].
  unfold exclusive in Hx. destruct o; cbn [step] in E; invert_step; try (split; [done|set_solver]).
  all: try match goal with H : wr _ = Some _ |- _ => apply Hx in H end; exfalso; set_solver.
Qed.

(** [with_lock] is one atomic change: it runs exactly when nobody holds the lock,
    and leaves the lock free whether the function returns or throws. *)
Theorem with_lock_atomic t func s :
  with_lock t func s =
    if bool_decide (wr s = None ∧ rd s = ∅)
    then Some (mk (rd s) None (func (resource s)).1, (func (resource s)).2) else None.
Proof.
  unfold with_lock. cbn [step]. case_bool_decide; [|done]. cbn [resource wr rd].
  destruct (func (resource s)) as [x out]. cbn [fst snd].
  rewrite (bool_decide_true (Some t = Some t)) by done. cbn [resource wr rd].
  by rewrite (bool_decide_true (Some t = Some t)) by done.
Qed.
End Resource.
Arguments state : clear implicits.
Arguments op : clear implicits.
End ThreadSafeResource.
