(* ===== verification/DbExceptions.v ===== *)
(** * The exception hierarchy of the database component

    [components/database/base/errors/db_exceptions.hpp]: the classes with their
    bases, the two virtual functions by dispatch over the bases, the cached
    [what], and the order in which a handler for a base sees a derived class.
    [boost::diagnostic_information] and the stack trace are arguments. *)

From S2P Require Import Prelude.

Local Open Scope demi_scope.

Module DbException.
(** [database_exception] is abstract ([category] is pure) and is the base of the
    classes whose [base] is [None]. *)
Inductive cls :=
  | client_error | invalid_argument_error | syntax_error | invalid_parameter_error | type_mismatch_error
  | null_conversion_error | configuration_error | connection_string_error | authentication_error
  | server_error | runtime_error | connection_error | connection_lost_error | connection_timeout_error
  | deadlock_error | lock_timeout_error
  | constraint_error | unique_violation_error | foreign_key_violation_error | check_violation_error
  | not_null_violation_error
  | data_error | data_too_long_error | numeric_overflow_error | division_by_zero_error
  | access_error | permission_denied_error | object_not_found_error
  | resource_error | out_of_memory_error | disk_full_error | too_many_connections_error
  | fatal_error | internal_error | corruption_error.

#[export] Instance cls_eq_dec : EqDecision cls.
Proof. solve_decision. Defined.

Definition classes : list cls :=
  [client_error; invalid_argument_error; syntax_error; invalid_parameter_error; type_mismatch_error;
   null_conversion_error; configuration_error; connection_string_error; authentication_error;
   server_error; runtime_error; connection_error; connection_lost_error; connection_timeout_error;
   deadlock_error; lock_timeout_error;
   constraint_error; unique_violation_error; foreign_key_violation_error; check_violation_error;
   not_null_violation_error;
   data_error; data_too_long_error; numeric_overflow_error; division_by_zero_error;
   access_error; permission_denied_error; object_not_found_error;
   resource_error; out_of_memory_error; disk_full_error; too_many_connections_error;
   fatal_error; internal_error; corruption_error].

Definition base (c : cls) : option cls :=
  match c with
  | client_error | server_error | fatal_error => None
  | invalid_argument_error | configuration_error => Some client_error
  | syntax_error | invalid_parameter_error | type_mismatch_error | null_conversion_error =>
      Some invalid_argument_error
  | connection_string_error | authentication_error => Some configuration_error
  | runtime_error | constraint_error | data_error | access_error | resource_error => Some server_error
  | connection_error | deadlock_error | lock_timeout_error => Some runtime_error
  | connection_lost_error | connection_timeout_error => Some connection_error
  | unique_violation_error | foreign_key_violation_error | check_violation_error
  | not_null_violation_error => Some constraint_error
  | data_too_long_error | numeric_overflow_error | division_by_zero_error => Some data_error
  | permission_denied_error | object_not_found_error => Some access_error
  | out_of_memory_error | disk_full_error | too_many_connections_error => Some resource_error
  | internal_error | corruption_error => Some fatal_error
  end.

(** Every class overrides it. *)
Definition category (c : cls) : string :=
  match c with
  | client_error => "client"
  | invalid_argument_error => "client.invalid_argument"
  | syntax_error => "client.invalid_argument.syntax"
  | invalid_parameter_error => "client.invalid_argument.parameter"
  | type_mismatch_error => "client.invalid_argument.type"
  | null_conversion_error => "client.invalid_argument.null_conversion"
  | configuration_error => "client.configuration"
  | connection_string_error => "client.configuration.connection_string"
  | authentication_error => "client.configuration.auth"
  | server_error => "server"
  | runtime_error => "server.runtime"
  | connection_error => "server.runtime.connection"
  | connection_lost_error => "server.runtime.connection.lost"
  | connection_timeout_error => "server.runtime.connection.timeout"
  | deadlock_error => "server.runtime.deadlock"
  | lock_timeout_error => "server.runtime.lock_timeout"
  | constraint_error => "server.constraint"
  | unique_violation_error => "server.constraint.unique"
  | foreign_key_violation_error => "server.constraint.foreign_key"
  | check_violation_error => "server.constraint.check"
  | not_null_violation_error => "server.constraint.not_null"
  | data_error => "server.data"
  | data_too_long_error => "server.data.too_long"
  | numeric_overflow_error => "server.data.overflow"
  | division_by_zero_error => "server.data.division_by_zero"
  | access_error => "server.access"
  | permission_denied_error => "server.access.permission"
  | object_not_found_error => "server.access.not_found"
  | resource_error => "server.resource"
  | out_of_memory_error => "server.resource.memory"
  | disk_full_error => "server.resource.disk"
  | too_many_connections_error => "server.resource.connections"
  | fatal_error => "fatal"
  | internal_error => "fatal.internal"
  | corruption_error => "fatal.corruption"
  end.

(** The overrides of [is_retryable]. *)
Definition retryable_override (c : cls) : option bool :=
  match c with runtime_error | resource_error => Some true | _ => None end.

(** A virtual call takes the nearest override; five bases are more than any class
    has. [database_exception] answers [false]. *)
Fixpoint dispatch (fuel : nat) (c : cls) : bool :=
  match retryable_override c, base c, fuel with
  | Some b, _, _ => b
  | None, Some p, S fuel' => dispatch fuel' p
  | None, _, _ => false
  end.
Definition is_retryable (c : cls) : bool := dispatch 5 c.

(** What a handler [catch (const D&)] accepts. *)
Fixpoint derives (fuel : nat) (c d : cls) : bool :=
  bool_decide (c = d) ||
  match base c, fuel with Some p, S fuel' => derives fuel' p d | _, _ => false end.
Definition is_a (c d : cls) : bool := derives 5 c d.

(** ** Objects *)

(** The [boost::error_info] tags. *)
Inductive tag :=
  | error_code_info | sqlstate_info | query_info | database_info | host_info | port_info | table_info
  | column_info | constraint_info | retry_after_info | affected_rows_info | error_position_info
  | severity_info | transaction_id_info | tag_message.
#[export] Instance tag_eq_dec : EqDecision tag.
Proof. solve_decision. Defined.

Record exn := { ex_class : cls; ex_infos : list (tag * string); cached_what : string; stack_trace : string }.

(** [e << info]: one entry per tag, the last value. *)
Definition attach (t : tag) (v : string) (e : exn) : exn :=
  {| ex_class := ex_class e;
     ex_infos := filter (λ p, p.1 ≠ t) (ex_infos e) ++ [(t, v)];
     cached_what := cached_what e; stack_trace := stack_trace e |}.

(** Only [fatal_error] and what derives from it capture a stack. *)
Definition construct (c : cls) (stack : string) : exn :=
  {| ex_class := c; ex_infos := []; cached_what := "";
     stack_trace := if is_a c fatal_error then stack else "" |}.
Definition syntax_error_msg (msg : string) : exn := attach tag_message msg (construct syntax_error "").

Section What.
Variable diagnostic_information : cls → list (tag * string) → string.

Definition what (e : exn) : string * exn :=
  if bool_decide (cached_what e = "")
  then let w := diagnostic_information (ex_class e) (ex_infos e) in
       (w, {| ex_class := ex_class e; ex_infos := ex_infos e; cached_what := w; stack_trace := stack_trace e |})
  else (cached_what e, e).

(** ** The text is made once *)

(** Before the first call every attached info is in the text. *)
Lemma what_first e : cached_what e = "" → (what e).1 = diagnostic_information (ex_class e) (ex_infos e).
Proof. unfold what. intros ->. done. Qed.

Lemma what_idempotent e : what (what e).2 = what e.
Proof.
  destruct (decide (cached_what e = "")) as [E|E].
  - unfold what at 2 3. rewrite (bool_decide_true _ E). cbn [snd]. unfold what. cbn [cached_what ex_class ex_infos].
    case_bool_decide as Ew; [by rewrite Ew|done].
  - unfold what at 2 3. rewrite (bool_decide_false _ E). cbn [snd]. unfold what. by rewrite bool_decide_false.
Qed.

(** What is attached after a first call that had a text is never shown. *)
Lemma what_stale e t v :
  (what e).1 ≠ "" → (what (attach t v (what e).2)).1 = (what e).1.
Proof.
  unfold what. case_bool_decide as E; cbn [fst snd attach cached_what]; intros H; by rewrite bool_decide_false.
Qed.
End What.

(** ** Classes and categories *)

Lemma elem_of_classes c : c ∈ classes.
Proof. apply list_elem_of_In. destruct c; simpl; tauto. Qed.

Lemma all_pairs (P : cls → cls → bool) :
  forallb (λ c, forallb (P c) classes) classes = true → ∀ c d, P c d = true.
Proof.
  intros H c d. rewrite forallb_forall in H. specialize (H c). rewrite forallb_forall in H.
  apply H; apply list_elem_of_In, elem_of_classes.
Qed.

(** [c] is [d] or lies below it in the dotted names. *)
Definition category_below (c d : cls) : bool :=
  String.eqb (category c) (category d) || String.prefix (category d +:+ ".") (category c).

(** The dotted names are the hierarchy: a handler for [d] accepts [c] exactly when
    the category of [c] extends that of [d]. *)
Theorem category_is_hierarchy c d : is_a c d = category_below c d.
Proof.
  apply Bool.eqb_prop. apply (all_pairs (λ c d, Bool.eqb (is_a c d) (category_below c d))). vm_compute. done.
Qed.

(** No two classes share a category. *)
Theorem category_inj c d : category c = category d → c = d.
Proof.
  intros E. pose proof (all_pairs (λ c d, implb (String.eqb (category c) (category d)) (bool_decide (c = d)))) as H.
  specialize (H ltac:(vm_compute; done) c d). simpl in H. rewrite E, String.eqb_refl in H. simpl in H.
  by apply bool_decide_eq_true_1 in H.
Qed.

(** Only the runtime and the resource errors of the server can be retried; no
    client, constraint or fatal error can. *)
Theorem retryable_classes c : is_retryable c = is_a c runtime_error || is_a c resource_error.
Proof. destruct c; done. Qed.

(** A derived class inherits the answer. *)
Theorem retryable_inherited c d : is_a c d = true → is_retryable d = true → is_retryable c = true.
Proof. destruct c, d; vm_compute; done. Qed.

(** The fuel is enough for one more level. *)
Lemma is_a_unfold c d :
  is_a c d = bool_decide (c = d) || match base c with Some p => is_a p d | None => false end.
Proof.
  pose proof (all_pairs (λ c0 d0 : cls, Bool.eqb (is_a c0 d0)
    (bool_decide (c0 = d0) || match base c0 with Some p => is_a p d0 | None => false end))) as H.
  by apply Bool.eqb_prop, H; vm_compute.
Qed.

(** [is_a] is the reflexive and transitive closure of [base]. *)
Theorem is_a_rtc c d : is_a c d = true ↔ rtc (λ x y, base x = Some y) c d.
Proof.
  split.
  - unfold is_a. generalize 5%nat as n. intros n. revert c. induction n as [|n IH]; intros c; cbn [derives];
      rewrite orb_true_iff, bool_decide_eq_true; (intros [->|H]; [constructor|]);
      destruct (base c) as [p|] eqn:E; try done.
    eapply rtc_l; [exact E|]. by apply IH.
  - induction 1 as [c|c p d Hb _ IH]; rewrite is_a_unfold; [by rewrite bool_decide_true|].
    by rewrite Hb, IH, orb_true_r.
Qed.
End DbException.
