(* ===== verification/Logging.v ===== *)
(** * Log entries, filters and sinks

    [common/scroll]: the levels and entries ([entry]), the events a logger
    carries and the prefix filter ([sink/interface]), the console and the file
    sink with their configurations ([sink/console_sink], [sink/file_sink]).

    A sink's output is the list of operations on its stream, in order.  The
    calendar, the file system (which files can be opened, how long they are, what
    [tellp] reports) and the clock are arguments. *)

From S2P Require Import Prelude Gears ErrorCodes Chrono Ink.
From stdpp Require Import gmap.

Local Open Scope demi_scope.

(** ** Levels *)

Inductive LogLevel : Type := Trace | Debug | Info | Warning | Error | Fatal.

#[export] Instance LogLevel_eq_dec : EqDecision LogLevel.
Proof. solve_decision. Defined.

Definition level_value (l : LogLevel) : Z :=
  match l with Trace => 0 | Debug => 1 | Info => 2 | Warning => 3 | Error => 4 | Fatal => 5 end.

Definition log_level_to_string (level : LogLevel) : string :=
  match level with
  | Trace => "TRC" | Debug => "DBG" | Info => "INF" | Warning => "WRN" | Error => "ERR" | Fatal => "FAT"
  end.

(** [level_strings[static_cast<std::size_t>(level_)]] *)
Definition level_strings : list string := ["TRC"; "DBG"; "INF"; "WRN"; "ERR"; "FAT"].
Definition level_cstr (level : LogLevel) : option string := level_strings !! Z.to_nat (level_value level).

(** ** Events *)

(** [std::source_location]; a function name may be null. *)
Record source_location := mkLocation { file_name : string; line : N; function_name : option string }.
Definition no_location : source_location := mkLocation "" 0 (Some "").

Abbreviation PrefixNameStorage := (InlineString.t 31).

Record LogEvent := mkEvent {
  level : LogLevel;
  prefix : PrefixNameStorage;
  message : string;
  location : source_location;
  time_point : Z;
  tid : N;
  pid : Z;
  shutdown_signal : bool;
}.

(** What a thread captures when it logs: the clock and its cached identity. *)
Record thread_context := mkContext { ctx_now : Z; ctx_tid : N; ctx_pid : Z }.

(** [LogEvent()]: every member's default, the identity of the constructing
    thread. *)
Definition default_event (c : thread_context) : LogEvent :=
  mkEvent Debug InlineString.empty "" no_location (ctx_now c) (ctx_tid c) (ctx_pid c) false.

(** [snprintf(tid_str, 16, ...)] keeps 15 characters. *)
Definition tid_str (t : N) : string := String.substring 0 15 (ToString.numeral t).

(** ** Entries *)

(** What a sink's [EntryType] is: built from an event, with a level and a text. *)
Class Entry (T : Type) := {
  make_entry_from_event : LogEvent → T;
  entry_level : T → LogLevel;
  format_into : T → string;
}.

Definition newline : string := String (ascii_of_nat 10) "".

Record LightEntry := mkLight { light_level : LogLevel; light_message : string }.

Definition light_format (e : LightEntry) : string :=
  log_level_to_string (light_level e) +:+ " " +:+ light_message e +:+ newline.

#[export] Instance LightEntry_entry : Entry LightEntry := {|
  make_entry_from_event e := mkLight (level e) (message e);
  entry_level := light_level;
  format_into := light_format;
|}.

(** [MetaPrefix] copies the prefix once more. *)
Record DetailedEntry := mkDetailed {
  detailed_level : LogLevel;
  detailed_message : string;
  detailed_time : Z;
  detailed_location : source_location;
  detailed_tid : N;
  detailed_pid : Z;
  detailed_prefix : PrefixNameStorage;
}.

(** [strrchr(fname, '/')]: the part after the last slash. *)
Fixpoint after_slash (fname last : string) : string :=
  match fname with
  | EmptyString => last
  | String c rest => after_slash rest (if bool_decide (c = "/"%char) then rest else last)
  end.
Definition base_name (fname : string) : string := after_slash fname fname.

Section Detailed.
Variable to_calendar : ClockType → Z → tm.

Definition detailed_format (e : DetailedEntry) : string :=
  format_time_iso_ms to_calendar UTC (detailed_time e) +:+ " " +:+
  default "" (level_cstr (detailed_level e)) +:+ " [tid " +:+ tid_str (detailed_tid e) +:+ "] " +:+
  (if bool_decide (InlineString.size_ (detailed_prefix e) = 0%nat) then ""
   else "[" +:+ InlineString.view (detailed_prefix e) +:+ ":" +:+
        default "?" (function_name (detailed_location e)) +:+ "] ") +:+
  "[" +:+ base_name (file_name (detailed_location e)) +:+ ":" +:+
  ToString.numeral (line (detailed_location e)) +:+ "] " +:+ detailed_message e +:+ newline.

Definition make_detailed (e : LogEvent) : DetailedEntry :=
  mkDetailed (level e) (message e) (time_point e) (location e) (tid e) (pid e)
    (InlineString.assign InlineString.empty (InlineString.view (prefix e))).

Definition DetailedEntry_entry : Entry DetailedEntry := {|
  make_entry_from_event := make_detailed;
  entry_level := detailed_level;
  format_into := detailed_format;
|}.

(** [DetailedEntry::comp]: by time, then by level. *)
Definition detailed_comp (lhs rhs : DetailedEntry) : bool :=
  if bool_decide (detailed_time lhs ≠ detailed_time rhs) then (detailed_time lhs <? detailed_time rhs)%Z
  else (level_value (detailed_level lhs) <? level_value (detailed_level rhs))%Z.
End Detailed.

(** ** PrefixFilter *)

Inductive PrefixFilterMode : Type := AllowAll | Allowlist | Denylist.

Record PrefixFilter := mkFilter { mode_ : PrefixFilterMode; block_empty_ : bool; set_ : gset string }.

Definition allow_all : PrefixFilter := mkFilter AllowAll false ∅.
Definition allow (set : gset string) : PrefixFilter := mkFilter Allowlist false set.
Definition deny (set : gset string) : PrefixFilter := mkFilter Denylist false set.
Definition block_empty_prefix (f : PrefixFilter) : PrefixFilter := mkFilter (mode_ f) true (set_ f).

Definition accepts (f : PrefixFilter) (p : string) : bool :=
  if bool_decide (p = "") then negb (block_empty_ f)
  else match mode_ f with
       | AllowAll => true
       | Allowlist => bool_decide (p ∈ set_ f)
       | Denylist => negb (bool_decide (p ∈ set_ f))
       end.

(** [static_cast<int8_t>(lvl) >= static_cast<int8_t>(threshold) && accepts]:
    the [should_log] of both sinks. *)
Definition passes (threshold : LogLevel) (f : PrefixFilter) (lvl : LogLevel) (p : string) : bool :=
  (level_value threshold <=? level_value lvl)%Z && accepts f p.

(** ** Sinks *)

(** [Sink]: [process] may throw; [process_batch] is the default one. *)
Class Sink (S : Type) := {
  process : LogEvent → S → result S;
  flush : S → S;
  should_log : S → LogLevel → string → bool;
}.

Fixpoint process_batch {S} `{Sink S} (batch : list LogEvent) (s : S) : result S :=
  match batch with
  | [] => Ok s
  | e :: batch' => let! s' := process e s in process_batch batch' s'
  end.

(** *** ConsoleSink *)

Record ConsoleSinkConfig := mkConsole {
  c_threshold : LogLevel;
  c_enable_colors : bool;
  c_flush_each_entry : bool;
  c_output : nat;                (** which stream *)
  c_prefix_filter : PrefixFilter;
}.

(** Stream 0 is [std::cout]. *)
Definition default_console : ConsoleSinkConfig := mkConsole Debug true false 0 allow_all.
Definition validate_console (c : ConsoleSinkConfig) : result unit := Ok tt.

Module ConsoleBuilder.
Definition threshold (v : LogLevel) (c : ConsoleSinkConfig) : ConsoleSinkConfig :=
  mkConsole v (c_enable_colors c) (c_flush_each_entry c) (c_output c) (c_prefix_filter c).
Definition enable_colors (v : bool) (c : ConsoleSinkConfig) : ConsoleSinkConfig :=
  mkConsole (c_threshold c) v (c_flush_each_entry c) (c_output c) (c_prefix_filter c).
Definition flush_each_entry (v : bool) (c : ConsoleSinkConfig) : ConsoleSinkConfig :=
  mkConsole (c_threshold c) (c_enable_colors c) v (c_output c) (c_prefix_filter c).
Definition output (v : nat) (c : ConsoleSinkConfig) : ConsoleSinkConfig :=
  mkConsole (c_threshold c) (c_enable_colors c) (c_flush_each_entry c) v (c_prefix_filter c).
Definition prefix_filter (v : PrefixFilter) (c : ConsoleSinkConfig) : ConsoleSinkConfig :=
  mkConsole (c_threshold c) (c_enable_colors c) (c_flush_each_entry c) (c_output c) v.
Definition finalize (c : ConsoleSinkConfig) : result ConsoleSinkConfig :=
  let! _ := validate_console c in Ok c.
End ConsoleBuilder.

(** Operations on an output stream. *)
Inductive out_op : Type := OWrite (stream : nat) (s : string) | OFlush (stream : nat).

Definition in_style (s : style) (h : hue) (text : string) : string :=
  string_of_list_ascii (make_colored s h (list_ascii_of_string text)).

Definition colorize_by_level (text : string) (lvl : LogLevel) : string :=
  match lvl with
  | Trace | Debug => in_style regular cyan text
  | Info => in_style regular green text
  | Warning => in_style regular yellow text
  | Error => in_style regular Ink.red text
  | Fatal => in_style bold Ink.red text
  end.

Module ConsoleSink.
Record t := mk { config_ : ConsoleSinkConfig; format_buffer_ : string; ops : list out_op }.

Definition make (cfg : ConsoleSinkConfig) : t := mk cfg "" [].
Definition set_config (cfg : ConsoleSinkConfig) (s : t) : t := mk cfg (format_buffer_ s) (ops s).

Definition should_log (s : t) (lvl : LogLevel) (p : string) : bool :=
  passes (c_threshold (config_ s)) (c_prefix_filter (config_ s)) lvl p.

Definition flush (s : t) : t := mk (config_ s) (format_buffer_ s) (ops s ++ [OFlush (c_output (config_ s))]).

Section Process.
Context {T : Type} `{Entry T}.

Definition process (event : LogEvent) (s : t) : result t :=
  if negb (should_log s (level event) (InlineString.view (prefix event))) then Ok s
  else
    let entry : T := make_entry_from_event event in
    let buffer := format_into entry in
    let text := if c_enable_colors (config_ s) then colorize_by_level buffer (entry_level entry) else buffer in
    let s := mk (config_ s) buffer (ops s ++ [OWrite (c_output (config_ s)) text]) in
    Ok (if c_flush_each_entry (config_ s) then flush s else s).

Definition console_sink : Sink t := {|
  Logging.process := process; Logging.flush := flush; Logging.should_log := should_log
|}.
End Process.
End ConsoleSink.

(** *** FileSink *)

Record FileSinkConfig := mkFile {
  f_threshold : LogLevel;
  f_file : string;
  f_add_time_to_filename : bool;
  f_time_format : string;
  f_rotate_file : bool;
  f_max_file_size : Z;
  f_flush_each_entry : bool;
  f_prefix_filter : PrefixFilter;
}.

Definition iso8601 : string := "%Y-%m-%dT%H:%M:%S".
Definition mb (value : Z) : Z := ((value * 1024 * 1024) mod 2 ^ 64)%Z.
Definition default_file : FileSinkConfig := mkFile Debug "" true iso8601 true (mb 100) false allow_all.

Definition validate_file (c : FileSinkConfig) : result unit :=
  if f_rotate_file c && (f_max_file_size c =? 0)%Z then
    Throw invalid_argument
  else if bool_decide (f_file c = "") then
    Throw invalid_argument
  else if f_add_time_to_filename c && bool_decide (f_time_format c = "") then
    Throw invalid_argument
  else if f_rotate_file c && negb (f_add_time_to_filename c) then
    Throw invalid_argument
  else Ok tt.

Module FileBuilder.
Definition threshold (v : LogLevel) (c : FileSinkConfig) : FileSinkConfig :=
  mkFile v (f_file c) (f_add_time_to_filename c) (f_time_format c) (f_rotate_file c) (f_max_file_size c)
    (f_flush_each_entry c) (f_prefix_filter c).
Definition file (v : string) (c : FileSinkConfig) : FileSinkConfig :=
  mkFile (f_threshold c) v (f_add_time_to_filename c) (f_time_format c) (f_rotate_file c) (f_max_file_size c)
    (f_flush_each_entry c) (f_prefix_filter c).
Definition add_time_to_filename (v : bool) (c : FileSinkConfig) : FileSinkConfig :=
  mkFile (f_threshold c) (f_file c) v (f_time_format c) (f_rotate_file c) (f_max_file_size c)
    (f_flush_each_entry c) (f_prefix_filter c).
Definition time_format_in_file_name (v : string) (c : FileSinkConfig) : FileSinkConfig :=
  mkFile (f_threshold c) (f_file c) (f_add_time_to_filename c) v (f_rotate_file c) (f_max_file_size c)
    (f_flush_each_entry c) (f_prefix_filter c).
Definition max_file_size (v : Z) (c : FileSinkConfig) : FileSinkConfig :=
  mkFile (f_threshold c) (f_file c) (f_add_time_to_filename c) (f_time_format c) (f_rotate_file c) v
    (f_flush_each_entry c) (f_prefix_filter c).
Definition flush_each_entry (v : bool) (c : FileSinkConfig) : FileSinkConfig :=
  mkFile (f_threshold c) (f_file c) (f_add_time_to_filename c) (f_time_format c) (f_rotate_file c)
    (f_max_file_size c) v (f_prefix_filter c).
Definition rotation (v : bool) (c : FileSinkConfig) : FileSinkConfig :=
  mkFile (f_threshold c) (f_file c) (f_add_time_to_filename c) (f_time_format c) v (f_max_file_size c)
    (f_flush_each_entry c) (f_prefix_filter c).
Definition prefix_filter (v : PrefixFilter) (c : FileSinkConfig) : FileSinkConfig :=
  mkFile (f_threshold c) (f_file c) (f_add_time_to_filename c) (f_time_format c) (f_rotate_file c)
    (f_max_file_size c) (f_flush_each_entry c) v.
Definition finalize (c : FileSinkConfig) : result FileSinkConfig :=
  let! _ := validate_file c in Ok c.
End FileBuilder.

(** [std::filesystem::path] on POSIX, by its text. *)
Module Path.
(** What precedes the last separator, and what follows it. *)
Fixpoint split_last (sep : ascii) (s : list ascii) : option (list ascii * list ascii) :=
  match s with
  | [] => None
  | c :: s' =>
      match split_last sep s' with
      | Some (d, f) => Some (c :: d, f)
      | None => if bool_decide (c = sep) then Some ([], s') else None
      end
  end.

Definition filename (p : list ascii) : list ascii :=
  match split_last "/"%char p with Some (_, f) => f | None => p end.

(** Trailing separators go, but not the root's. *)
Fixpoint strip (p : list ascii) : list ascii :=
  match p with
  | [] => []
  | c :: p' =>
      match strip p' with
      | [] => if bool_decide (c = "/"%char) then [] else [c]
      | q => c :: q
      end
  end.
Definition parent_path (p : list ascii) : list ascii :=
  match split_last "/"%char p with
  | None => []
  | Some (d, f) =>
      match strip d with
      | [] => ["/"%char]
      | q => q
      end
  end.

(** [.] and [..] have no extension, and neither has a leading dot. *)
Definition stem_extension (f : list ascii) : list ascii * list ascii :=
  if bool_decide (f = ["."%char]) || bool_decide (f = ["."%char; "."%char]) then (f, [])
  else match split_last "."%char f with
       | Some ([], _) | None => (f, [])
       | Some (d, e) => (d, "."%char :: e)
       end.
Definition stem (p : list ascii) : list ascii := (stem_extension (filename p)).1.
Definition extension (p : list ascii) : list ascii := (stem_extension (filename p)).2.

(** [p / q] *)
Definition join (p q : list ascii) : list ascii :=
  if bool_decide (q !! 0%nat = Some "/"%char) then q
  else match last p with
       | None => q
       | Some c => if bool_decide (c = "/"%char) then p ++ q else p ++ ["/"%char] ++ q
       end.
End Path.

(** Operations on the file system, in order. *)
Inductive file_op : Type :=
  | CreateDirectories (p : string)
  | Open (p : string)
  | Write (p s : string)
  | Flush (p : string)
  | Close (p : string).

Module FileSink.
(** [opened_at] is the length of the current file when it was opened, [written]
    what has been written to it since. *)
Record t := mk {
  config_ : FileSinkConfig;
  file_path_ : string;
  format_buffer_ : string;
  opened_at : Z;
  written : Z;
  ops : list file_op;
}.

Section FileSystem.
(** [LocalClock::current_time] of the n-th call, by the number of operations so
    far and the format. *)
Variable current_time : nat → string → string.
Variable can_create can_open : string → bool.
(** The length of a file, after the operations so far. *)
Variable file_size : list file_op → string → option Z.
(** What [tellp] reports for a file of the given length at its opening and so
    many characters written; negative for a failure. *)
Variable tellp : Z → Z → Z.

Definition log_path (cfg : FileSinkConfig) (n : nat) : list ascii :=
  let full_path := list_ascii_of_string (f_file cfg) in
  if f_add_time_to_filename cfg then
    let time := list_ascii_of_string (current_time n (f_time_format cfg)) in
    Path.join (Path.parent_path full_path)
      (Path.stem full_path ++ ["_"%char] ++ time ++ Path.extension full_path)
  else full_path.

(** [create_directories] when the path has a parent; its
    [filesystem_error] is a [runtime_error]. *)
Definition ensure_parent (p : list ascii) : result (list file_op) :=
  match Path.parent_path p with
  | [] => Ok []
  | dir =>
      let d := string_of_list_ascii dir in
      if can_create d then Ok [CreateDirectories d]
      else Throw runtime_error
  end.

Definition init (s : t) : result t :=
  let p := log_path (config_ s) (length (ops s)) in
  let! dirs := ensure_parent p in
  let path := string_of_list_ascii p in
  if can_open path then
    let before := ops s ++ dirs in
    Ok (mk (config_ s) path (format_buffer_ s) (default 0%Z (file_size before path)) 0 (before ++ [Open path]))
  else Throw runtime_error.

(** The constructor is [noexcept]: a failure to open terminates the program. *)
Definition make (cfg : FileSinkConfig) : result t :=
  match init (mk cfg "" "" 0 0 []) with
  | Ok s => Ok s
  | Throw _ => Throw terminate
  end.

Definition should_log (s : t) (lvl : LogLevel) (p : string) : bool :=
  passes (f_threshold (config_ s)) (f_prefix_filter (config_ s)) lvl p.

Definition flush (s : t) : t :=
  mk (config_ s) (file_path_ s) (format_buffer_ s) (opened_at s) (written s) (ops s ++ [Flush (file_path_ s)]).

Definition set_config (cfg : FileSinkConfig) (s : t) : t :=
  mk cfg (file_path_ s) (format_buffer_ s) (opened_at s) (written s) (ops s).

Definition should_rotate (s : t) : bool :=
  if negb (f_add_time_to_filename (config_ s)) then false
  else
    let pos := tellp (opened_at s) (written s) in
    let sz := if (0 <=? pos)%Z then pos else default 0%Z (file_size (ops s) (f_file (config_ s))) in
    (f_max_file_size (config_ s) <? sz)%Z.

Definition rotate_log (s : t) : result t :=
  let p := file_path_ s in
  init (mk (config_ s) p (format_buffer_ s) (opened_at s) (written s) (ops s ++ [Flush p; Close p])).

Definition write (buffer : string) (s : t) : t :=
  mk (config_ s) (file_path_ s) buffer (opened_at s) (written s + Z.of_nat (String.length buffer))
     (ops s ++ [Write (file_path_ s) buffer]).

(** [~FileSink]: the stream is open after every [init] that returned. *)
Definition destroy (s : t) : t :=
  let p := file_path_ s in
  mk (config_ s) p (format_buffer_ s) (opened_at s) (written s) (ops s ++ [Flush p; Close p]).

Section Process.
Context {T : Type} `{Entry T}.

Definition process (event : LogEvent) (s : t) : result t :=
  if negb (should_log s (level event) (InlineString.view (prefix event))) then Ok s
  else
    let s := write (format_into (make_entry_from_event event : T)) s in
    let s := if f_flush_each_entry (config_ s) then flush s else s in
    if should_rotate s then rotate_log s else Ok s.

Definition file_sink : Sink t := {|
  Logging.process := process; Logging.flush := flush; Logging.should_log := should_log
|}.
End Process.
End FileSystem.
End FileSink.
