(* ===== verification/SinkTheorems.v ===== *)
(** * The file sink keeps what it logs

    The files of a [FileSink], in the order in which they were opened, hold
    exactly the entries its filters accept; rotation bounds each of them. *)

From S2P Require Import Prelude Gears ErrorCodes Chrono Ink Logging.

Local Open Scope demi_scope.

(** ** Traces *)

(** The open file after some operations; [None] for an operation on a file that
    is not open, or an [Open] over an open one. *)
Fixpoint replay (open : option string) (ops : list file_op) : option (option string) :=
  match ops with
  | [] => Some open
  | CreateDirectories _ :: ops' => replay open ops'
  | Open p :: ops' => if open is None then replay (Some p) ops' else None
  | Write p _ :: ops' | Flush p :: ops' => if decide (open = Some p) then replay open ops' else None
  | Close p :: ops' => if decide (open = Some p) then replay None ops' else None
  end.

(** The entries written between an opening and the next one, the last first. *)
Definition segment_step (acc : list (list string)) (op : file_op) : list (list string) :=
  match op with
  | Open _ => [] :: acc
  | Write _ s => match acc with cur :: acc' => (cur ++ [s]) :: acc' | [] => [[s]] end
  | _ => acc
  end.
Definition segments (ops : list file_op) : list (list string) := fold_left segment_step ops [].

Definition size (entries : list string) : Z := Z.of_nat (sum_list_with String.length entries).

(** At most one entry over the limit. *)
Definition bounded (limit : Z) (entries : list string) : Prop := (size (removelast entries) ≤ limit)%Z.

Lemma replay_app o ops1 ops2 : replay o (ops1 ++ ops2) = (replay o ops1 ≫= λ o', replay o' ops2).
Proof.
  revert o. induction ops1 as [|[p|p|p s|p|p] ops1 IH]; intros o; simpl; auto; try (by case_decide).
  by destruct o.
Qed.

Lemma segments_app ops1 ops2 : segments (ops1 ++ ops2) = fold_left segment_step ops2 (segments ops1).
Proof. apply fold_left_app. Qed.

Lemma size_snoc l s : size (l ++ [s]) = (size l + Z.of_nat (String.length s))%Z.
Proof. unfold size. rewrite sum_list_with_app. simpl. lia. Qed.

Lemma removelast_snoc {A} (l : list A) x : removelast (l ++ [x]) = l.
Proof. rewrite removelast_app by done. simpl. apply app_nil_r. Qed.

(** Only directories are created between two files. *)
Definition quiet (op : file_op) : bool := match op with CreateDirectories _ => true | _ => false end.

Lemma quiet_replay o ops : forallb quiet ops = true → replay o ops = Some o.
Proof. induction ops as [|[] ops IH]; simpl; intros; try done. by apply IH. Qed.
Lemma quiet_segments acc ops : forallb quiet ops = true → fold_left segment_step ops acc = acc.
Proof. revert acc. induction ops as [|[] ops IH]; simpl; intros acc ?; try done. by apply IH. Qed.

(** *** What each file holds *)

(** The names under which files were opened, in order. *)
Definition opened (ops : list file_op) : list string :=
  omap (λ op, match op with Open p => Some p | _ => None end) ops.

(** Everything that was written to the file [p], however often it was opened:
    files are opened in append mode. *)
Definition file_contents (ops : list file_op) (p : string) : list string :=
  omap (λ op, match op with Write q t => if decide (q = p) then Some t else None | _ => None end) ops.

Lemma opened_snoc ops op :
  opened (ops ++ [op]) = opened ops ++ match op with Open p => [p] | _ => [] end.
Proof. unfold opened. rewrite omap_app. by destruct op. Qed.

Lemma contents_snoc ops op p :
  file_contents (ops ++ [op]) p =
  file_contents ops p ++ match op with Write q t => if decide (q = p) then [t] else [] | _ => [] end.
Proof. unfold file_contents. rewrite omap_app. destruct op; try done. simpl. by case_decide. Qed.

(** Writes go to the file opened last. *)
Lemma replay_opened ops o :
  replay None ops = Some o →
  (∀ q, o = Some q → last (opened ops) = Some q) ∧ (∀ p, (p ∉ opened ops) → file_contents ops p = []).
Proof.
  revert o. induction ops as [|op ops IH] using rev_ind; intros o Hr.
  { split; [by intros q ->|done]. }
  rewrite replay_app in Hr. destruct (replay None ops) as [o'|]; [|done].
  destruct (IH o' eq_refl) as [Hl Hc]. clear IH. rewrite opened_snoc. simpl in Hr.
  split.
  - intros q ->. destruct op; simpl in *; rewrite ?app_nil_r; repeat case_match; simplify_eq; auto.
    by rewrite last_snoc.
  - intros p Hp. rewrite contents_snoc, Hc by (intros ?; apply Hp, elem_of_app; auto).
    destruct op; simpl in *; try done. case_decide; [|done]. subst.
    case_decide; [|done]. simplify_eq. exfalso. apply Hp. rewrite app_nil_r.
    specialize (Hl _ eq_refl). apply last_Some in Hl as [l' ->]. apply elem_of_app. right. by left.
Qed.

(** With a new name for every opening, a file is what was written after its
    opening. *)
Lemma segments_contents ops o :
  replay None ops = Some o → NoDup (opened ops) → segments ops = file_contents ops <$> reverse (opened ops).
Proof.
  revert o. induction ops as [|op ops IH] using rev_ind; intros o Hr Hn; [done|].
  rewrite replay_app in Hr. destruct (replay None ops) as [o'|] eqn:E; [|done].
  destruct (replay_opened ops o' E) as [Hl Hc]. rewrite opened_snoc in Hn |- *. rewrite segments_app. cbn [fold_left].
  apply NoDup_app in Hn as (Hn & Hd & _). rewrite (IH o' eq_refl Hn). clear IH.
  assert (∀ l, (∀ p, file_contents (ops ++ [op]) p = file_contents ops p) →
            file_contents (ops ++ [op]) <$> l = file_contents ops <$> l) as Hsame
    by (intros l Hs; by apply list_fmap_ext).
  destruct op as [d|p|p t|p|p]; simpl in Hr |- *; rewrite ?app_nil_r; try (symmetry; apply Hsame; intros q;
    rewrite contents_snoc; apply app_nil_r).
  - rewrite reverse_snoc. cbn [fmap list_fmap]. rewrite contents_snoc, Hc, app_nil_r by (intros ?; eapply Hd; [done|by left]).
    f_equal. symmetry. apply Hsame. intros q. rewrite contents_snoc. apply app_nil_r.
  - case_decide; [|done]. subst o'. specialize (Hl p eq_refl). apply last_Some in Hl as [l' El].
    rewrite El, reverse_snoc. cbn [fmap list_fmap]. rewrite contents_snoc, decide_True by done. f_equal.
    rewrite El in Hn. apply NoDup_app in Hn as (_ & Hn & _). apply list_fmap_ext. intros i q Hq.
    rewrite contents_snoc, decide_False, app_nil_r; [done|]. intros <-. apply (Hn p); [|by left].
    apply elem_of_reverse. by eapply list_elem_of_lookup_2.
Qed.

Lemma contents_segment ops o p :
  replay None ops = Some o → NoDup (opened ops) → file_contents ops p = [] ∨ file_contents ops p ∈ segments ops.
Proof.
  intros Hr Hn. destruct (decide (p ∈ opened ops)) as [Hp|Hp]; [right|left; by eapply replay_opened].
  rewrite (segments_contents _ _ Hr Hn). apply list_elem_of_fmap. exists p. by rewrite elem_of_reverse.
Qed.

Section Keeps.
Context {T : Type} `{Entry T}.
Variable current_time : nat → string → string.
Variable can_create can_open : string → bool.
Variable file_size : list file_op → string → option Z.
Variable tellp : Z → Z → Z.

Abbreviation init := (FileSink.init current_time can_create can_open file_size).
Abbreviation make := (FileSink.make current_time can_create can_open file_size).
Abbreviation rotate_log := (FileSink.rotate_log current_time can_create can_open file_size).
Abbreviation should_rotate := (FileSink.should_rotate file_size tellp).
Abbreviation process := (FileSink.process current_time can_create can_open file_size tellp (T:=T)).
Instance sink : Sink FileSink.t := FileSink.file_sink current_time can_create can_open file_size tellp (T:=T).

Definition accepted (cfg : FileSinkConfig) (e : LogEvent) : bool :=
  passes (f_threshold cfg) (f_prefix_filter cfg) (level e) (InlineString.view (prefix e)).
Definition text_of (e : LogEvent) : string := format_into (make_entry_from_event e : T).
(** What a sink with this configuration is to write. *)
Definition entries (cfg : FileSinkConfig) (es : list LogEvent) : list string :=
  map text_of (filter (λ e, accepted cfg e = true) es).

(** [tellp] counts at least what was written since the file was opened. *)
Definition tellp_counts : Prop := ∀ a n, (0 ≤ n → n ≤ tellp a n)%Z.
Definition rotates (cfg : FileSinkConfig) : Prop :=
  f_add_time_to_filename cfg = true ∧ (0 ≤ f_max_file_size cfg)%Z ∧ tellp_counts.

Record file_ok (cfg : FileSinkConfig) (texts : list string) (s : FileSink.t) : Prop := {
  fo_config : FileSink.config_ s = cfg;
  fo_replay : replay None (FileSink.ops s) = Some (Some (FileSink.file_path_ s));
  fo_segment : ∃ cur rest, segments (FileSink.ops s) = cur :: rest ∧ size cur = FileSink.written s;
  fo_texts : concat (rev (segments (FileSink.ops s))) = texts;
  fo_bounded : rotates cfg → Forall (bounded (f_max_file_size cfg)) (segments (FileSink.ops s));
}.

(** Between two entries, the current file is within the limit. *)
Definition low (cfg : FileSinkConfig) (s : FileSink.t) : Prop :=
  rotates cfg → (FileSink.written s ≤ f_max_file_size cfg)%Z.

(** A new file is opened after some directories. *)
Lemma init_spec s s' :
  init s = Ok s' →
  ∃ dirs p, forallb quiet dirs = true ∧ FileSink.ops s' = FileSink.ops s ++ dirs ++ [Open p] ∧
    FileSink.file_path_ s' = p ∧ FileSink.written s' = 0%Z ∧ FileSink.config_ s' = FileSink.config_ s.
Proof.
  unfold FileSink.init, FileSink.ensure_parent. set (p := FileSink.log_path _ _ _).
  assert (∃ dirs, forallb quiet dirs = true ∧ (FileSink.ensure_parent can_create p = Ok dirs ∨
          ∃ e, FileSink.ensure_parent can_create p = Throw e)) as (dirs & Hq & Hd).
  { unfold FileSink.ensure_parent. destruct (Path.parent_path p); [exists []; by auto|].
    case_match; [eexists; split; [|by left]; done|exists []; split; [done|by right; eexists]]. }
  unfold FileSink.ensure_parent in Hd. destruct Hd as [-> |[e ->]]; simpl; [|done].
  case_match; [|done]. intros [= <-]. exists dirs, (string_of_list_ascii p). simpl. by rewrite <- app_assoc.
Qed.

Lemma opened_ok cfg texts s s' :
  FileSink.config_ s = cfg → replay None (FileSink.ops s) = Some None →
  concat (rev (segments (FileSink.ops s))) = texts →
  (rotates cfg → Forall (bounded (f_max_file_size cfg)) (segments (FileSink.ops s))) →
  init s = Ok s' → file_ok cfg texts s' ∧ low cfg s'.
Proof.
  intros Hc Hr Ht Hb Hi. destruct (init_spec _ _ Hi) as (dirs & p & Hq & Ho & Hp & Hw & Hc').
  assert (segments (FileSink.ops s') = [] :: segments (FileSink.ops s)) as Es.
  { rewrite Ho, !segments_app, fold_left_app, (quiet_segments _ dirs) by done. done. }
  split; [split|].
  - congruence.
  - rewrite Ho, replay_app, Hr. simpl. rewrite replay_app, quiet_replay by done. simpl. by rewrite Hp.
  - exists [], (segments (FileSink.ops s)). by rewrite Hw.
  - rewrite Es. simpl. by rewrite concat_app, app_nil_r.
  - intros Hrot. rewrite Es. constructor; [|auto]. destruct Hrot as (_ & Hm & _). unfold bounded. simpl. done.
  - intros (_ & Hm & _). by rewrite Hw.
Qed.

Lemma write_ok cfg texts s b :
  file_ok cfg texts s → low cfg s → file_ok cfg (texts ++ [b]) (FileSink.write b s).
Proof.
  intros [Hc Hr (cur & rest & Es & Hw) Ht Hb] Hl.
  assert (segments (FileSink.ops (FileSink.write b s)) = (cur ++ [b]) :: rest) as Es'.
  { simpl. by rewrite segments_app, Es. }
  split.
  - done.
  - simpl. rewrite replay_app, Hr. simpl. by rewrite decide_True.
  - exists (cur ++ [b]), rest. split; [done|]. simpl. by rewrite size_snoc, Hw.
  - rewrite Es'. rewrite <- Ht, Es. simpl. rewrite !concat_app. simpl. by rewrite !app_nil_r, app_assoc.
  - intros Hrot. rewrite Es'. specialize (Hb Hrot). rewrite Es in Hb. apply Forall_cons in Hb as [_ Hb].
    constructor; [|done]. unfold bounded. rewrite removelast_snoc, Hw. by apply Hl.
Qed.

Lemma flush_ok cfg texts s : file_ok cfg texts s → file_ok cfg texts (FileSink.flush s).
Proof.
  intros [Hc Hr Hs Ht Hb]. assert (segments (FileSink.ops (FileSink.flush s)) = segments (FileSink.ops s)) as E.
  { simpl. by rewrite segments_app. }
  split; rewrite ?E; try done. simpl. rewrite replay_app, Hr. simpl. by rewrite decide_True.
Qed.

Lemma rotate_ok cfg texts s s' : file_ok cfg texts s → rotate_log s = Ok s' → file_ok cfg texts s' ∧ low cfg s'.
Proof.
  intros [Hc Hr Hs Ht Hb] Hi. assert (∀ l, segments (l ++ [Flush (FileSink.file_path_ s); Close (FileSink.file_path_ s)])
    = segments l) as E by (intros; by rewrite segments_app).
  eapply opened_ok; [| | | |exact Hi]; simpl; rewrite ?E; try done.
  rewrite replay_app, Hr. simpl. by rewrite !decide_True.
Qed.

Lemma size_nonneg l : (0 ≤ size l)%Z.
Proof. unfold size. lia. Qed.

Lemma no_rotation_low cfg texts s : file_ok cfg texts s → should_rotate s = false → low cfg s.
Proof.
  intros [Hc _ (cur & rest & _ & Hw) _ _] Hs (Ha & Hm & Ht). unfold FileSink.should_rotate in Hs.
  rewrite Hc, Ha in Hs. simpl in Hs. pose proof (size_nonneg cur). rewrite Hw in *.
  specialize (Ht (FileSink.opened_at s) (FileSink.written s)).
  destruct (Z.leb_spec 0 (tellp (FileSink.opened_at s) (FileSink.written s))); [|lia].
  apply Z.ltb_ge in Hs. lia.
Qed.

Lemma process_ok cfg texts e s s' :
  file_ok cfg texts s → low cfg s → process e s = Ok s' →
  file_ok cfg (texts ++ entries cfg [e]) s' ∧ low cfg s'.
Proof.
  intros Hok Hl. unfold FileSink.process, entries. rewrite filter_cons.
  assert (FileSink.should_log s (level e) (InlineString.view (prefix e)) = accepted cfg e) as ->
    by (unfold FileSink.should_log; by rewrite (fo_config _ _ _ Hok)).
  destruct (accepted cfg e); [rewrite decide_True by done|rewrite decide_False by done]; cycle 1.
  { intros [= <-]. simpl. by rewrite app_nil_r. }
  simpl. pose proof (write_ok cfg texts s (text_of e) Hok Hl) as Hw. unfold text_of in *.
  set (s1 := FileSink.write _ s) in *.
  assert (file_ok cfg (texts ++ [text_of e]) (if f_flush_each_entry (FileSink.config_ s) then FileSink.flush s1 else s1)) as Hf.
  { case_match; [by apply flush_ok|done]. }
  destruct (should_rotate (if f_flush_each_entry (FileSink.config_ s) then FileSink.flush s1 else s1)) eqn:Er; [by intros; eapply rotate_ok|].
  intros [= <-]. split; [done|]. by eapply no_rotation_low.
Qed.

Lemma entries_cons cfg e es : entries cfg (e :: es) = entries cfg [e] ++ entries cfg es.
Proof. unfold entries. rewrite (filter_cons _ e es), (filter_cons _ e []). by case_decide. Qed.

Lemma process_batch_ok cfg texts es s s' :
  file_ok cfg texts s → low cfg s → process_batch es s = Ok s' →
  file_ok cfg (texts ++ entries cfg es) s' ∧ low cfg s'.
Proof.
  revert texts s. induction es as [|e es IH]; intros texts s Hok Hl Hp.
  { simpl in Hp. simplify_eq. by rewrite app_nil_r. }
  simpl in Hp. destruct (process e s) as [s1|] eqn:E1; [|done]. simpl in Hp.
  destruct (process_ok _ _ _ _ _ Hok Hl E1) as [Hok1 Hl1].
  rewrite entries_cons, app_assoc. by eapply IH.
Qed.

Lemma make_ok cfg s : make cfg = Ok s → file_ok cfg [] s ∧ low cfg s.
Proof.
  unfold FileSink.make. destruct (FileSink.init _ _ _ _ _) as [s1|] eqn:E; [|done]. intros [= <-].
  by eapply opened_ok; [..|exact E].
Qed.

(** With a file system that lets files be opened, nothing throws. *)
Lemma init_total s : (∀ p, can_create p = true) → (∀ p, can_open p = true) → is_ok (init s) = true.
Proof.
  intros Hc Ho. unfold FileSink.init, FileSink.ensure_parent.
  destruct (Path.parent_path _); simpl; rewrite ?Hc; simpl; by rewrite Ho.
Qed.

Lemma process_total e s : (∀ p, can_create p = true) → (∀ p, can_open p = true) → is_ok (process e s) = true.
Proof.
  intros Hc Ho. unfold FileSink.process. repeat case_match; try done; by apply init_total.
Qed.

(** A whole life of the sink. *)
Definition run (cfg : FileSinkConfig) (es : list LogEvent) : result FileSink.t :=
  let! s := make cfg in process_batch es s.

Lemma run_ok cfg es s : run cfg es = Ok s → file_ok cfg (entries cfg es) s.
Proof.
  unfold run. destruct (make cfg) as [s0|] eqn:E; [|done]. simpl. intros Hp.
  destruct (make_ok _ _ E) as [Hok Hl]. by destruct (process_batch_ok _ _ _ _ _ Hok Hl Hp).
Qed.

(** C19: the file sink loses nothing and reorders nothing: whatever it rotates,
    the entries of its files, in the order in which the files were opened, are
    exactly the formatted events that pass the level threshold and the prefix
    filter, in the order of the events, none of them split over two files; every
    write goes to the file that is open.  It fails only when a file cannot be
    opened. *)
Theorem file_sink_keeps (cfg : FileSinkConfig) (es : list LogEvent) :
  (∀ s, run cfg es = Ok s →
     concat (rev (segments (FileSink.ops s))) = entries cfg es ∧
     replay None (FileSink.ops s) = Some (Some (FileSink.file_path_ s)) ∧
     replay None (FileSink.ops (FileSink.destroy s)) = Some None) ∧
  ((∀ p, can_create p = true) → (∀ p, can_open p = true) → is_ok (run cfg es) = true).
Proof.
  split.
  - intros s [_ Hr _ Ht _]%run_ok. split_and!; [done|done|]. simpl. rewrite replay_app, Hr. simpl.
    by rewrite !decide_True.
  - intros Hc Ho. unfold run, FileSink.make. pose proof (init_total (FileSink.mk cfg "" "" 0 0 []) Hc Ho) as Hi.
    destruct (FileSink.init _ _ _ _ _) as [s|]; [|done]. simpl. clear Hi. revert s.
    induction es as [|e es IH]; intros s; [done|]. simpl. pose proof (process_total e s Hc Ho) as Hp.
    simpl in *. destruct (FileSink.process _ _ _ _ _ _ _) as [s1|]; [|done]. apply IH.
Qed.

(** C20: rotation bounds the files: if the file names carry the time, [tellp]
    counts what was written and no two openings got the same name, then for every
    file all that the sink has ever written to it is at most [max_file_size]
    characters and one more entry.  (The names have a resolution of a second: two
    rotations within one reopen the same file, and the bound is lost, see
    [same_second_unbounded].) *)
Theorem file_rotation_bound (cfg : FileSinkConfig) (es : list LogEvent) (s : FileSink.t) (p : string) :
  run cfg es = Ok s → f_add_time_to_filename cfg = true → (0 ≤ f_max_file_size cfg)%Z → tellp_counts →
  NoDup (opened (FileSink.ops s)) →
  bounded (f_max_file_size cfg) (file_contents (FileSink.ops s) p).
Proof.
  intros Hr%run_ok Ha Hm Ht Hn.
  destruct (contents_segment _ _ p (fo_replay _ _ _ Hr) Hn) as [-> |Hin]; [done|].
  pose proof (fo_bounded _ _ _ Hr (conj Ha (conj Hm Ht))) as Hb. rewrite List.Forall_forall in Hb.
  apply Hb. by apply list_elem_of_In.
Qed.

(** The operations do not depend on [rotate_file]. *)
Lemma rotate_flag_ignored (b : bool) (es : list LogEvent) (s : FileSink.t) :
  match process_batch es s, process_batch es (FileSink.set_config (FileBuilder.rotation b (FileSink.config_ s)) s) with
  | Ok s1, Ok s2 => FileSink.ops s1 = FileSink.ops s2
  | Throw e1, Throw e2 => e1 = e2
  | _, _ => False
  end.
Proof.
  set (f s := FileSink.set_config (FileBuilder.rotation b (FileSink.config_ s)) s). change (FileSink.set_config _ s) with (f s).
  assert (∀ e s, process e (f s) = match process e s with Ok s' => Ok (f s') | Throw x => Throw x end) as Hp.
  { intros e t. unfold FileSink.process, FileSink.should_log. simpl. case_match; [done|]. simpl.
    assert (∀ s, should_rotate (f s) = should_rotate s) as Hr by done.
    assert (∀ s, rotate_log (f s) = match rotate_log s with Ok s' => Ok (f s') | Throw x => Throw x end) as Hl.
    { intros u. unfold FileSink.rotate_log, FileSink.init. simpl. unfold FileSink.log_path. simpl.
      destruct (FileSink.ensure_parent _ _); simpl; [|done]. by case_match. }
    destruct (f_flush_each_entry (FileSink.config_ t)).
    - change (FileSink.flush (FileSink.write ?x (f t))) with (f (FileSink.flush (FileSink.write x t))).
      rewrite Hr, Hl. by case_match.
    - change (FileSink.write ?x (f t)) with (f (FileSink.write x t)). rewrite Hr, Hl. by case_match. }
  revert s. induction es as [|e es IH]; intros s; simpl; [done|]. rewrite Hp.
  destruct (process e s) as [s1|]; simpl; [apply IH|done].
Qed.
End Keeps.

(** ** A run with rotation *)

Module FileRun.
Definition clock (n : nat) (fmt : string) : string := ToString.numeral (N.of_nat n).
Definition yes (p : string) : bool := true.
Definition new_file (ops : list file_op) (p : string) : option Z := None.
Definition position (a n : Z) : Z := (Z.max 0 a + n)%Z.
Definition config : FileSinkConfig :=
  FileBuilder.prefix_filter (block_empty_prefix (deny {["noise"]}))
    (FileBuilder.max_file_size 10 (FileBuilder.file "/var/log/app.log" default_file)).

Definition event (l : LogLevel) (p msg : string) : LogEvent :=
  mkEvent l (InlineString.assign InlineString.empty p) msg no_location 0 1 2 false.
Definition events : list LogEvent :=
  [event Info "net" "up"; event Info "noise" "dropped"; event Warning "net" "slow"; event Trace "net" "low";
   event Error "db" "down"; event Error "" "anonymous"].

Definition line (s : string) : string := s +:+ newline.
Definition final : FileSink.t :=
  FileSink.mk config "/var/log/app_6.log" (line "ERR down") 0 9
    [CreateDirectories "/var/log"; Open "/var/log/app_0.log"; Write "/var/log/app_0.log" (line "INF up");
     Write "/var/log/app_0.log" (line "WRN slow"); Flush "/var/log/app_0.log"; Close "/var/log/app_0.log";
     CreateDirectories "/var/log"; Open "/var/log/app_6.log"; Write "/var/log/app_6.log" (line "ERR down")].

Lemma final_run : run clock yes yes new_file position config events (T:=LightEntry) = Ok final.
Proof. vm_compute. reflexivity. Qed.
End FileRun.

Lemma file_sink_keeps_witness :
  concat (rev (segments (FileSink.ops FileRun.final))) = entries (T:=LightEntry) FileRun.config FileRun.events ∧
  replay None (FileSink.ops FileRun.final) = Some (Some "/var/log/app_6.log") ∧
  replay None (FileSink.ops (FileSink.destroy FileRun.final)) = Some None.
Proof.
  apply (proj1 (file_sink_keeps (T:=LightEntry) FileRun.clock FileRun.yes FileRun.yes FileRun.new_file FileRun.position
    FileRun.config FileRun.events)), FileRun.final_run.
Defined.

Lemma file_rotation_bound_witness :
  bounded 10 (file_contents (FileSink.ops FileRun.final) "/var/log/app_0.log").
Proof.
  apply (file_rotation_bound (T:=LightEntry) FileRun.clock FileRun.yes FileRun.yes FileRun.new_file FileRun.position
    FileRun.config FileRun.events FileRun.final).
  - apply FileRun.final_run.
  - reflexivity.
  - vm_compute. discriminate.
  - intros a n Hn. unfold FileRun.position. lia.
  - apply (bool_decide_unpack _). vm_compute. exact I.
Defined.

(** Within one second the clock gives the same name, and each rotation goes on
    with the same file: four entries of eight characters and more, with a limit
    of ten. *)
Lemma same_second_unbounded :
  let clock (n : nat) (fmt : string) := "12" in
  let length_of ops p := Some (size (file_contents ops p)) in
  let es := replicate 4 (FileRun.event Error "db" "down") in
  ∃ s, run clock FileRun.yes FileRun.yes length_of FileRun.position FileRun.config es (T:=LightEntry) = Ok s ∧
    file_contents (FileSink.ops s) "/var/log/app_12.log" = replicate 4 (FileRun.line "ERR down") ∧
    ¬ bounded 10 (file_contents (FileSink.ops s) "/var/log/app_12.log").
Proof.
  intros clock length_of es. eexists. split_and!; [vm_compute; reflexivity|vm_compute; reflexivity|].
  vm_compute. intros Hle. by apply Hle.
Qed.
