(* ===== verification/Logger.v ===== *)
(** * The logger

    [common/scroll/logger]: the configuration, the front end that fills a slot of
    the ring buffer ([Logger::log], [StreamProxy]), and the dispatch of the
    consumer's batches to the sinks through one strand per sink, up to the end of
    [Logger::shutdown].  The ring buffer and [consumer_loop] are those of
    Disruptor, with [LogEvent] as the entry; the sinks are any that obey
    [SinkLaws]. *)

From S2P Require Import Prelude Gears ErrorCodes Chrono Logging Disruptor.

Local Open Scope demi_scope.

(** ** LoggerConfig *)

Inductive WaitStrategy : Type := BusySpin | Yielding | Blocking.

#[export] Instance WaitStrategy_eq_dec : EqDecision WaitStrategy.
Proof. solve_decision. Defined.

Record LoggerConfig := mkLogger {
  ring_buffer_size_ : Z;
  pool_size_ : Z;
  wait_strategy_ : WaitStrategy;
}.

(** The default pool size is the number of processors. *)
Definition default_logger (hardware_concurrency : Z) : LoggerConfig := mkLogger 8192 hardware_concurrency Yielding.

(** [std::popcount] of a [std::size_t]. *)
Definition popcount (n : Z) : nat := length (filter (λ i, Z.testbit n (Z.of_nat i) = true) (seq 0 64)).

Definition validate_logger (c : LoggerConfig) : result unit :=
  if bool_decide (popcount (ring_buffer_size_ c) ≠ 1) then Throw invalid_argument else Ok tt.

Module LoggerBuilder.
Definition ring_buffer_size (v : Z) (c : LoggerConfig) : LoggerConfig := mkLogger v (pool_size_ c) (wait_strategy_ c).
Definition wait_strategy (v : WaitStrategy) (c : LoggerConfig) : LoggerConfig :=
  mkLogger (ring_buffer_size_ c) (pool_size_ c) v.
Definition pool_size (v : Z) (c : LoggerConfig) : LoggerConfig := mkLogger (ring_buffer_size_ c) v (wait_strategy_ c).
Definition finalize (c : LoggerConfig) : result LoggerConfig := let! _ := validate_logger c in Ok c.
End LoggerBuilder.

(** ** Filling a slot *)

(** [EventMeta]: captured before a sequence is claimed. *)
Record EventMeta := mkMeta { meta_level : LogLevel; meta_location : source_location; meta_context : thread_context }.

Definition apply_meta (event : LogEvent) (meta : EventMeta) : LogEvent :=
  mkEvent (meta_level meta) (prefix event) (message event) (meta_location meta)
    (ctx_now (meta_context meta)) (ctx_tid (meta_context meta)) (ctx_pid (meta_context meta)) false.

(** The body shared by [log] and [~StreamProxy]: the thread's buffer, which holds
    what the last swap left in it, takes the text and is swapped into the slot;
    prefix and metadata follow.  The result is the slot and the buffer. *)
Definition fill_slot (tl_msg_buf : string) (event : LogEvent) (text : string) (p : string) (meta : EventMeta)
    : LogEvent * string :=
  let tl_msg_buf := "" in
  let tl_msg_buf := tl_msg_buf +:+ text in
  let swapped := mkEvent (level event) (prefix event) tl_msg_buf (location event) (time_point event)
                   (tid event) (pid event) (shutdown_signal event) in
  let prefixed := mkEvent (level swapped) (InlineString.assign (prefix swapped) p) (message swapped)
                    (location swapped) (time_point swapped) (tid swapped) (pid swapped)
                    (shutdown_signal swapped) in
  (apply_meta prefixed meta, message event).

(** [Logger::log]; the text is the argument or what [std::format_to] makes of it. *)
Definition log (tl : string) (slot : LogEvent) (ctx : thread_context)
    (lvl : LogLevel) (p msg : string) (loc : source_location) : LogEvent * string :=
  fill_slot tl slot msg p (mkMeta lvl loc ctx).

(** The overload without a prefix. *)
Definition log_plain (tl : string) (slot : LogEvent) (ctx : thread_context)
    (lvl : LogLevel) (msg : string) (loc : source_location) : LogEvent * string :=
  log tl slot ctx lvl "" msg loc.

Module StreamProxy.
Record t := mk { level_ : LogLevel; loc_ : source_location; prefix_ : PrefixNameStorage; stream_ : string }.

(** [Logger::stream] *)
Definition make (lvl : LogLevel) (p : string) (loc : source_location) : t :=
  mk lvl loc (InlineString.assign InlineString.empty p) "".
(** [operator<<] with the text the value prints. *)
Definition put (text : string) (s : t) : t := mk (level_ s) (loc_ s) (prefix_ s) (stream_ s +:+ text).
Definition destroy (tl : string) (slot : LogEvent) (ctx : thread_context) (s : t) : LogEvent * string :=
  fill_slot tl slot (stream_ s) (InlineString.view (prefix_ s)) (mkMeta (level_ s) (loc_ s) ctx).
End StreamProxy.

(** [disruptor_.ring_buffer()[seq].shutdown_signal = true] *)
Definition signal_shutdown (slot : LogEvent) : LogEvent :=
  mkEvent (level slot) (prefix slot) (message slot) (location slot) (time_point slot) (tid slot) (pid slot) true.

(** What [std::move(event)] leaves in the slot: the message is valid but
    unspecified, the rest is copied. *)
Definition moved_event (left : string → string) (e : LogEvent) : LogEvent :=
  mkEvent (level e) (prefix e) (left (message e)) (location e) (time_point e) (tid e) (pid e) (shutdown_signal e).

(** ** Providers *)

(** [LoggerProvider] over a type of loggers. *)
Module LoggerProvider.
Record t (L : Type) := mk { logger_ : option L; prefix_ : PrefixNameStorage }.
Arguments mk {L} _ _.
Arguments logger_ {L} _.
Arguments prefix_ {L} _.
Definition make {L} (logger : option L) (p : string) : t L := mk logger (InlineString.assign InlineString.empty p).
Definition set_logger {L} (logger : option L) (x : t L) : t L := mk logger (prefix_ x).
Definition set_prefix {L} (p : string) (x : t L) : t L := mk (logger_ x) (InlineString.assign (prefix_ x) p).
End LoggerProvider.

(** [ComponentLoggerManager]: the registry's logger, or one with a console sink;
    [registered] is what [nexus::instance().get<Logger>()] gives. *)
Module ComponentLoggerManager.
Section Manager.
Context {L : Type}.
Variable registered : result (option L).
Variable fallback : ConsoleSinkConfig → L.

Definition fallback_config : ConsoleSinkConfig :=
  ConsoleBuilder.flush_each_entry false
    (ConsoleBuilder.enable_colors true (ConsoleBuilder.threshold Debug default_console)).

Definition initialize : option L :=
  match registered with
  | Ok (Some l) => Some l
  | _ => Some (fallback fallback_config)
  end.
(** The logger, and the static member afterwards. *)
Definition get (logger : option L) : option L * option L :=
  let logger' := match logger with None => initialize | l => l end in (logger', logger').
Definition set_logger (l : option L) : option L := l.
End Manager.
End ComponentLoggerManager.

(** ** The logging macros *)

(** A call site's arguments select the form: none is a stream, otherwise a
    format. *)
Inductive macro_form : Type := StreamForm | FmtForm.

(** What a macro that reaches a logger leaves in the claimed slot. *)
Definition LOG_DIRECT_FMT (tl : string) (slot : LogEvent) (ctx : thread_context)
    (lvl : LogLevel) (p text : string) (loc : source_location) : LogEvent * string :=
  log tl slot ctx lvl p text loc.
Definition SLOG_DIRECT_FMT (tl : string) (slot : LogEvent) (ctx : thread_context)
    (lvl : LogLevel) (p text : string) (loc : source_location) : LogEvent * string :=
  StreamProxy.destroy tl slot ctx (StreamProxy.put text (StreamProxy.make lvl p loc)).

(** [LOG_TRC] to [LOG_FAT]: nothing at all without [DMP_ENABLE_LOGGING]. *)
Definition LOG {L} (enabled : bool) (this : LoggerProvider.t L) (form : macro_form) (tl : string) (slot : LogEvent)
    (ctx : thread_context) (lvl : LogLevel) (text : string) (loc : source_location) : option (LogEvent * string) :=
  if enabled then
    Some (match form with
          | StreamForm => SLOG_DIRECT_FMT tl slot ctx lvl (InlineString.view (LoggerProvider.prefix_ this)) text loc
          | FmtForm => LOG_DIRECT_FMT tl slot ctx lvl (InlineString.view (LoggerProvider.prefix_ this)) text loc
          end)
  else None.

(** [COMPONENT_LOG_*]: the stream form, through [ComponentLoggerManager]. *)
Definition COMPONENT_LOG (enabled component : bool) (class_prefix : PrefixNameStorage) (tl : string) (slot : LogEvent)
    (ctx : thread_context) (lvl : LogLevel) (text : string) (loc : source_location) : option (LogEvent * string) :=
  if component && enabled
  then Some (SLOG_DIRECT_FMT tl slot ctx lvl (InlineString.view class_prefix) text loc) else None.

(** [SCROLL_ONCE_GUARD_]: [!std::exchange(f_, true)] *)
Definition once_guard (f : bool) : bool * bool := (negb f, true).

(** ** Strands *)

Inductive task : Type :=
  | Process (batch : list LogEvent)   (** [sink->process_batch(batch)] *)
  | FlushDone.                        (** [shutdown]'s flush, and the count-down *)

Section Strands.
Context {S : Type} `{Sink S}.

(** [posts] are the posts the consumer and [shutdown] still have to make, in
    order; a slot is a sink and the queue of its strand; [done_] counts the calls
    of [done.set_value()]. *)
Record strands := mkStrands {
  posts : list (nat * task);
  slots : list (S * list task);
  remaining : Z;
  done_ : nat;
}.

Definition run_task (t : task) (s : S) : result S :=
  match t with Process b => process_batch b s | FlushDone => Ok (flush s) end.

Fixpoint run_tasks (ts : list task) (s : S) : result S :=
  match ts with
  | [] => Ok s
  | t :: ts' => let! s' := run_task t s in run_tasks ts' s'
  end.

(** One post per sink for each batch, then [shutdown]'s for every sink. *)
Definition all_posts (n : nat) (batches : list (list LogEvent)) : list (nat * task) :=
  (batches ≫= λ b, (λ i, (i, Process b)) <$> seq 0 n) ++ ((λ i, (i, FlushDone)) <$> seq 0 n).

Definition start (sinks : list S) (batches : list (list LogEvent)) : strands :=
  mkStrands (all_posts (length sinks) batches) ((λ s, (s, [])) <$> sinks) (Z.of_nat (length sinks)) 0.

(** [remaining.fetch_sub(1) == 1] *)
Definition count_down (t : task) (rem : Z) (d : nat) : Z * nat :=
  match t with
  | Process _ => (rem, d)
  | FlushDone => ((rem - 1)%Z, if (rem =? 1)%Z then (d + 1)%nat else d)
  end.

(** A post appends to a strand; a strand runs its tasks one at a time, in order,
    and any strand may be next.  A task that throws terminates the program: the
    relation has no step for it. *)
Inductive strand_step : strands → strands → Prop :=
  | s_post i t rest sl s q rem d :
      sl !! i = Some (s, q) →
      strand_step (mkStrands ((i, t) :: rest) sl rem d) (mkStrands rest (<[i:=(s, q ++ [t])]> sl) rem d)
  | s_run i t ps sl s s' q rem d :
      sl !! i = Some (s, t :: q) → run_task t s = Ok s' →
      strand_step (mkStrands ps sl rem d)
        (mkStrands ps (<[i:=(s', q)]> sl) (count_down t rem d).1 (count_down t rem d).2).

(** The same on a pool of [threads] threads ([pool_size] of the configuration):
    a post never waits, but a task is run by a thread of the pool, if there is
    one. *)
Inductive pool_step (threads : nat) : strands → strands → Prop :=
  | w_post i t rest sl s q rem d :
      sl !! i = Some (s, q) →
      pool_step threads (mkStrands ((i, t) :: rest) sl rem d) (mkStrands rest (<[i:=(s, q ++ [t])]> sl) rem d)
  | w_run i t ps sl s s' q rem d :
      (0 < threads)%nat → sl !! i = Some (s, t :: q) → run_task t s = Ok s' →
      pool_step threads (mkStrands ps sl rem d)
        (mkStrands ps (<[i:=(s', q)]> sl) (count_down t rem d).1 (count_down t rem d).2).
End Strands.
Arguments strands S : clear implicits.
