(* ===== verification/LoggerTheorems.v ===== *)
(** * The logger delivers

    What Logger and Logging promise together: a slot's history never shows in the
    events it carries, strands keep the order of the posts, [shutdown] waits for
    every sink, and every sink then has processed exactly the events claimed
    before the shutdown signal. *)

From S2P Require Import Prelude Gears ErrorCodes Chrono Ink Logging Logger Disruptor DisruptorSafety.

Local Open Scope demi_scope.

(** ** The configuration *)

Lemma filter_singleton {A} (P : A → Prop) `{∀ x, Decision (P x)} (l : list A) x :
  filter P l = [x] → ∀ y, y ∈ l → P y → y = x.
Proof. intros E y Hy HP. apply list_elem_of_singleton. rewrite <- E. by apply list_elem_of_filter. Qed.

(** A validated configuration has a ring of [2^lg] slots. *)
Lemma validated_ring (c : LoggerConfig) :
  (0 ≤ ring_buffer_size_ c < 2 ^ 64)%Z → validate_logger c = Ok tt →
  ∃ lg, (lg ≤ 63)%nat ∧ ring_buffer_size_ c = buffer_size lg.
Proof.
  intros Hr. unfold validate_logger, popcount. case_bool_decide as E; [done|]. intros _.
  destruct (filter _ _) as [|lg [|]] eqn:Ef; try discriminate.
  pose proof (list_elem_of_filter (λ i, Z.testbit (ring_buffer_size_ c) (Z.of_nat i) = true) (seq 0 64) lg) as [Hin _].
  rewrite Ef in Hin. destruct Hin as [Hb Hlg]; [by left|]. apply elem_of_seq in Hlg.
  exists lg. split; [lia|]. unfold buffer_size. apply Z.bits_inj'. intros i Hi.
  rewrite Z.pow2_bits_eqb by lia. destruct (Z.eqb_spec (Z.of_nat lg) i) as [<-|Hne]; [done|].
  destruct (Z.testbit (ring_buffer_size_ c) i) eqn:Eb; [|done]. exfalso. apply Hne.
  assert (i < 64)%Z.
  { destruct (Z.lt_ge_cases i 64); [done|]. rewrite Z.bits_above_log2 in Eb; [done|lia|].
    destruct (decide (ring_buffer_size_ c = 0%Z)) as [->|]; [simpl; lia|].
    apply Z.lt_le_trans with 64%Z; [|lia]. apply Z.log2_lt_pow2; lia. }
  assert (Z.to_nat i = lg) as <-; [|lia].
  eapply (filter_singleton _ _ _ Ef); [apply elem_of_seq; lia|]. by rewrite Z2Nat.id.
Qed.

(** ** Slots *)

(** Two events that differ only in the unread rest of the prefix buffer. *)
Record event_equiv (e1 e2 : LogEvent) : Prop := {
  eq_level : level e1 = level e2;
  eq_prefix : InlineString.view (prefix e1) = InlineString.view (prefix e2);
  eq_message : message e1 = message e2;
  eq_location : location e1 = location e2;
  eq_time : time_point e1 = time_point e2;
  eq_tid : tid e1 = tid e2;
  eq_pid : pid e1 = pid e2;
  eq_shutdown : shutdown_signal e1 = shutdown_signal e2;
}.

#[export] Instance event_equiv_equivalence : Equivalence event_equiv.
Proof. split; [by split|intros ?? []; by split|intros ??? [] []; split; congruence]. Qed.

Lemma view_assign {Capacity} (s : InlineString.t Capacity) sv :
  InlineString.inv s →
  InlineString.view (InlineString.assign s sv) = string_of_list_ascii (take Capacity (list_ascii_of_string sv)) ∧
  InlineString.inv (InlineString.assign s sv).
Proof.
  intros [Hl Hs]. unfold InlineString.view, InlineString.assign, InlineString.inv. cbn.
  set (n := Nat.min (String.length sv) Capacity). set (cs := take n (list_ascii_of_string sv)).
  assert (length cs = n) as Hn by (unfold cs; rewrite length_take, length_list_ascii; lia).
  split; [|split; [by rewrite length_insert, InlineString.length_write_at|lia]]. f_equal.
  rewrite take_insert_ge by lia. rewrite <- Hn at 1. pose proof (InlineString.take_write_at (InlineString.data_ s) 0 cs) as E.
  simpl in E. rewrite E by lia. unfold cs, n. destruct (Nat.le_ge_cases (String.length sv) Capacity).
  - rewrite Nat.min_l by lia. rewrite !take_ge by (rewrite length_list_ascii; lia). done.
  - by rewrite Nat.min_r.
Qed.

Definition slot_ok (e : LogEvent) : Prop := InlineString.inv (prefix e).

(** What an event shows of a call of [log]. *)
Definition shown (text p : string) (meta : EventMeta) (e : LogEvent) : Prop :=
  level e = meta_level meta ∧ message e = text ∧ location e = meta_location meta ∧
  time_point e = ctx_now (meta_context meta) ∧ tid e = ctx_tid (meta_context meta) ∧
  pid e = ctx_pid (meta_context meta) ∧ shutdown_signal e = false ∧
  InlineString.view (prefix e) = string_of_list_ascii (take 31 (list_ascii_of_string p)).

Lemma fill_slot_shown tl slot text p meta :
  slot_ok slot → shown text p meta (fill_slot tl slot text p meta).1 ∧ slot_ok (fill_slot tl slot text p meta).1.
Proof.
  intros Hs. destruct (view_assign (prefix slot) p Hs) as [Hv Hi]. unfold shown. simpl. by rewrite Hv.
Qed.

Lemma shown_equiv text p meta e1 e2 : shown text p meta e1 → shown text p meta e2 → event_equiv e1 e2.
Proof. intros (?&?&?&?&?&?&?&?) (?&?&?&?&?&?&?&?). split; congruence. Qed.

(** ** Lawful sinks *)

Class EntryLaws (T : Type) `{Entry T} : Prop := {
  make_equiv :: Proper (event_equiv ==> eq) (make_entry_from_event (T:=T));
}.

(** A sink sees what an event shows, and ignores what it does not log. *)
Class SinkLaws (S : Type) `{Sink S} : Prop := {
  process_equiv :: Proper (event_equiv ==> eq ==> eq) (process (S:=S));
  process_skips e s : should_log s (level e) (InlineString.view (prefix e)) = false → process e s = Ok s;
}.

#[export] Instance light_laws : EntryLaws LightEntry.
Proof. split. intros e1 e2 []. simpl. congruence. Qed.

Lemma detailed_laws cal : @EntryLaws DetailedEntry (DetailedEntry_entry cal).
Proof. split. intros e1 e2 []. simpl. unfold make_detailed. congruence. Qed.

Lemma console_laws {T} `{EntryLaws T} : @SinkLaws ConsoleSink.t (ConsoleSink.console_sink (T:=T)).
Proof.
  split.
  - intros e1 e2 He s _ <-. simpl. unfold ConsoleSink.process.
    by rewrite (make_equiv (T:=T) _ _ He), (eq_level _ _ He), (eq_prefix _ _ He).
  - intros e s Hl. simpl in *. unfold ConsoleSink.process. by rewrite Hl.
Qed.

Lemma file_laws {T} `{EntryLaws T} now cc co fsz tp :
  @SinkLaws FileSink.t (FileSink.file_sink now cc co fsz tp (T:=T)).
Proof.
  split.
  - intros e1 e2 He s _ <-. simpl. unfold FileSink.process.
    by rewrite (make_equiv (T:=T) _ _ He), (eq_level _ _ He), (eq_prefix _ _ He).
  - intros e s Hl. simpl in *. unfold FileSink.process. by rewrite Hl.
Qed.

Section Sinks.
Context {S : Type} `{SinkLaws S}.

#[export] Instance process_batch_equiv : Proper (Forall2 event_equiv ==> eq ==> eq) (process_batch (S:=S)).
Proof.
  intros b1 b2 Hb. induction Hb as [|e1 e2 b1 b2 He Hb IH]; intros s _ <-; simpl; [done|].
  rewrite (process_equiv (S:=S) _ _ He s s eq_refl). destruct (process e2 s); simpl; [|done]. by apply IH.
Qed.

(** A slot's history never shows.  Whatever event a ring slot held before
    (its message moved out or not, a longer prefix, a shutdown signal) and
    whatever the last swap left in the thread's buffer, [Logger::log] puts the
    same event into it, and every sink does the same with it; the streaming front
    end puts there what [log] does with the text it collected, cutting the prefix
    once. *)
Theorem slot_reuse (tl1 tl2 : string) (old1 old2 : LogEvent) (ctx : thread_context) (lvl : LogLevel)
    (p msg : string) (loc : source_location) (s : S) :
  slot_ok old1 → slot_ok old2 →
  let e1 := (log tl1 old1 ctx lvl p msg loc).1 in
  let e2 := (log tl2 old2 ctx lvl p msg loc).1 in
  let e3 := (StreamProxy.destroy tl2 old2 ctx (StreamProxy.put msg (StreamProxy.make lvl p loc))).1 in
  shown msg p (mkMeta lvl loc ctx) e1 ∧ slot_ok e1 ∧ event_equiv e1 e2 ∧ event_equiv e1 e3 ∧
  process e1 s = process e2 s ∧ process e1 s = process e3 s.
Proof.
  intros H1 H2. cbv zeta. destruct (fill_slot_shown tl1 old1 msg p (mkMeta lvl loc ctx) H1) as [A1 B1].
  destruct (fill_slot_shown tl2 old2 msg p (mkMeta lvl loc ctx) H2) as [A2 _].
  assert (shown msg p (mkMeta lvl loc ctx)
    (StreamProxy.destroy tl2 old2 ctx (StreamProxy.put msg (StreamProxy.make lvl p loc))).1) as A3.
  { unfold StreamProxy.destroy. simpl.
    destruct (view_assign (Capacity:=31) InlineString.empty p (proj1 InlineString.empty_terminated)) as [Ev _].
    set (q := InlineString.view _) in *.
    destruct (fill_slot_shown tl2 old2 msg q (mkMeta lvl loc ctx) H2) as [(C1&C2&C3&C4&C5&C6&C7&C8) _].
    split_and!; try done. etrans; [exact C8|]. rewrite Ev, list_ascii_of_string_of_list_ascii, take_take. done. }
  pose proof (shown_equiv _ _ _ _ _ A1 A2) as E2. pose proof (shown_equiv _ _ _ _ _ A1 A3) as E3.
  split_and!; try done; by apply process_equiv.
Qed.
End Sinks.

(** However often a call site is passed, one of its [_ONCE] macros logs. *)
Fixpoint passes_of (n : nat) (f : bool) : nat :=
  match n with O => 0 | S n' => (if (once_guard f).1 then 1 else 0) + passes_of n' (once_guard f).2 end.

Lemma once_guard_once n : passes_of n false = Nat.min n 1.
Proof.
  assert (∀ k, passes_of k true = 0%nat) as H by (induction k; simpl; auto).
  destruct n; simpl; [done|]. rewrite H. lia.
Qed.

(** ** Strands *)

Section Strands.
Context {S : Type} `{Sink S}.

Abbreviation strands := (strands S).
Abbreviation steps := (rtc (strand_step (S:=S))).

Definition is_flush (t : task) : bool := match t with FlushDone => true | _ => false end.
Definition flushes (ts : list task) : nat := length (filter (λ t, is_flush t = true) ts).
(** The posts for slot [i]. *)
Definition mine (i : nat) (ps : list (nat * task)) : list task := omap (λ p, if decide (p.1 = i) then Some p.2 else None) ps.

Local Arguments mine : simpl never.

Lemma mine_cons i j t ps : mine i ((j, t) :: ps) = (if decide (j = i) then [t] else []) ++ mine i ps.
Proof. unfold mine. simpl. by destruct (decide (j = i)). Qed.

(** What every strand is to run. *)
Definition tasks (batches : list (list LogEvent)) : list task := map Process batches ++ [FlushDone].

Definition pending (st : strands) : nat :=
  (flushes (map snd (posts st)) + sum_list_with (λ sl, flushes sl.2) (slots st))%nat.

(** Every slot has run a prefix of the tasks from its sink's first state; the
    counter counts the flushes that have not run. *)
Record strands_ok (sinks : list S) (batches : list (list LogEvent)) (st : strands) : Prop := {
  so_length : length (slots st) = length sinks;
  so_posts : Forall (λ p, p.1 < length sinks)%nat (posts st);
  so_slot i s q : slots st !! i = Some (s, q) →
    ∃ s0 ran, sinks !! i = Some s0 ∧ run_tasks ran s0 = Ok s ∧ ran ++ q ++ mine i (posts st) = tasks batches;
  so_remaining : remaining st = Z.of_nat (pending st);
  so_done : done_ st = if decide (pending st = 0 ∧ sinks ≠ [])%nat then 1%nat else 0%nat;
}.

Lemma flushes_app ts us : flushes (ts ++ us) = (flushes ts + flushes us)%nat.
Proof. unfold flushes. by rewrite filter_app, length_app. Qed.
Lemma flushes_cons t ts : flushes (t :: ts) = ((if is_flush t then 1 else 0) + flushes ts)%nat.
Proof. unfold flushes. rewrite filter_cons. destruct t; simpl; by rewrite ?decide_True, ?decide_False. Qed.

Lemma run_tasks_app ts us (s : S) : run_tasks (ts ++ us) s = (let! s' := run_tasks ts s in run_tasks us s').
Proof. revert s. induction ts as [|t ts IH]; intros s; simpl; [done|]. destruct (run_task t s); simpl; auto. Qed.

Lemma process_batch_app b1 b2 (s : S) : process_batch (b1 ++ b2) s = (let! s' := process_batch b1 s in process_batch b2 s').
Proof. revert s. induction b1 as [|e b1 IH]; intros s; simpl; [done|]. destruct (process e s); simpl; auto. Qed.

Lemma run_batches batches (s : S) : run_tasks (map Process batches) s = process_batch (concat batches) s.
Proof.
  revert s. induction batches as [|b bs IH]; intros s; simpl; [done|]. rewrite process_batch_app.
  by destruct (process_batch b s); simpl.
Qed.

Lemma mine_seq i n (t : task) j :
  mine i ((λ k, (k, t)) <$> seq j n) = if decide (j ≤ i < j + n)%nat then [t] else [].
Proof.
  revert j. induction n as [|n IH]; intros j; [by rewrite decide_False by lia|].
  cbn [seq]. rewrite fmap_cons, mine_cons, IH. destruct (decide (j = i)) as [->|]; simpl.
  - rewrite (decide_False (P:=(Datatypes.S i ≤ i < _)%nat)) by lia. by rewrite decide_True by lia.
  - case_decide; case_decide; try lia; done.
Qed.

Lemma mine_app i ps qs : mine i (ps ++ qs) = mine i ps ++ mine i qs.
Proof. apply omap_app. Qed.

Lemma mine_all i n batches : (i < n)%nat → mine i (all_posts n batches) = tasks batches.
Proof.
  intros Hi. unfold all_posts, tasks. rewrite mine_app, mine_seq, decide_True by lia. f_equal.
  induction batches as [|b bs IH]; [done|]. rewrite bind_cons, mine_app, mine_seq, decide_True by lia. simpl. by f_equal.
Qed.

Lemma flushes_seq n j b : flushes (map snd ((λ i, (i, Process b)) <$> seq j n)) = 0%nat.
Proof. revert j. induction n as [|n IH]; intros j; simpl; [done|]. by rewrite flushes_cons, IH. Qed.

Lemma flushes_all n batches : flushes (map snd (all_posts n batches)) = n.
Proof.
  unfold all_posts. rewrite map_app, flushes_app.
  assert (flushes (map snd (batches ≫= λ b, (λ i, (i, Process b)) <$> seq 0 n)) = 0%nat) as ->.
  { induction batches as [|b bs IH]; [done|]. by rewrite bind_cons, map_app, flushes_app, flushes_seq, IH. }
  simpl. generalize 0%nat as j. induction n as [|n IH]; intros j; simpl; [done|]. by rewrite flushes_cons, IH.
Qed.

Lemma start_ok sinks batches : strands_ok sinks batches (start sinks batches).
Proof.
  assert (pending (start sinks batches) = length sinks) as Hp.
  { unfold pending. simpl. rewrite flushes_all.
    assert (sum_list_with (λ sl : S * list task, flushes sl.2) ((λ s, (s, [])) <$> sinks) = 0%nat) as ->; [|lia].
    induction sinks; simpl; auto. }
  split.
  - simpl. by rewrite length_fmap.
  - simpl. apply Forall_app. split.
    + apply Forall_forall. intros p (b & Hp' & _)%list_elem_of_bind.
      apply list_elem_of_fmap in Hp' as (i & -> & Hi%elem_of_seq). simpl. lia.
    + apply Forall_fmap, Forall_forall. intros i Hi%elem_of_seq. simpl. lia.
  - intros i s q E. simpl in *. rewrite list_lookup_fmap in E. destruct (sinks !! i) as [s0|] eqn:E0; simplify_eq/=.
    exists s, []. split_and!; [done|done|]. simpl. apply mine_all. by eapply lookup_lt_Some.
  - by rewrite Hp.
  - rewrite Hp. simpl. rewrite decide_False; [done|]. destruct sinks; simpl; [tauto|lia].
Qed.

Lemma post_ok sinks batches i t rest sl s q rem d :
  sl !! i = Some (s, q) → strands_ok sinks batches (mkStrands ((i, t) :: rest) sl rem d) →
  strands_ok sinks batches (mkStrands rest (<[i:=(s, q ++ [t])]> sl) rem d).
Proof.
  intros Hi [Hl Hp Hs Hr Hd].
  assert (pending (mkStrands rest (<[i:=(s, q ++ [t])]> sl) rem d) = pending (mkStrands ((i, t) :: rest) sl rem d)) as Ep.
  { unfold pending. simpl. rewrite flushes_cons.
    pose proof (sum_list_insert (λ sl : S * list task, flushes sl.2) sl i _ (s, q ++ [t]) Hi) as E. simpl in E.
    rewrite flushes_app, (flushes_cons t []) in E. change (flushes []) with 0%nat in E. lia. }
  split; [simpl in *; by rewrite length_insert|by apply Forall_cons in Hp as [_ Hp]| |by rewrite Ep|by rewrite Ep].
  intros j s' q' E. simpl in *. destruct (decide (i = j)) as [<-|Hne].
  - rewrite list_lookup_insert_eq in E by (by eapply lookup_lt_Some). simplify_eq.
    destruct (Hs i s' q Hi) as (s0 & ran & E0 & Er & Et). exists s0, ran. split_and!; [done|done|].
    rewrite <- Et, mine_cons, decide_True by done. by rewrite <- !app_assoc.
  - rewrite list_lookup_insert_ne in E by done. destruct (Hs j s' q' E) as (s0 & ran & E0 & Er & Et).
    exists s0, ran. split_and!; [done|done|]. by rewrite <- Et, mine_cons, decide_False.
Qed.

Lemma run_slot_ok sinks batches i t ps sl s s' q rem d :
  sl !! i = Some (s, t :: q) → run_task t s = Ok s' → strands_ok sinks batches (mkStrands ps sl rem d) →
  strands_ok sinks batches (mkStrands ps (<[i:=(s', q)]> sl) (count_down t rem d).1 (count_down t rem d).2).
Proof.
  intros Hi Ht [Hl Hp Hs Hr Hd]. simpl in *.
  assert (pending (mkStrands ps (<[i:=(s', q)]> sl) (count_down t rem d).1 (count_down t rem d).2) +
          (if is_flush t then 1 else 0) = pending (mkStrands ps sl rem d))%nat as Ep.
  { unfold pending. simpl.
    pose proof (sum_list_insert (λ sl : S * list task, flushes sl.2) sl i _ (s', q) Hi) as E. simpl in E.
    rewrite flushes_cons in E. lia. }
  assert (sinks ≠ []) as Hne.
  { apply lookup_lt_Some in Hi. intros ->. simpl in Hl. lia. }
  split; [simpl; by rewrite length_insert|done| | |].
  - intros j s'' q' E. simpl in *. destruct (decide (i = j)) as [<-|Hj].
    + rewrite list_lookup_insert_eq in E by (by eapply lookup_lt_Some). simplify_eq.
      destruct (Hs i s (t :: q') Hi) as (s0 & ran & E0 & Er & Et). exists s0, (ran ++ [t]). split_and!; [done| |].
      * rewrite run_tasks_app, Er. simpl. by rewrite Ht.
      * rewrite <- Et. by rewrite <- !app_assoc.
    + rewrite list_lookup_insert_ne in E by done. exact (Hs j s'' q' E).
  - destruct t; simpl in *; lia.
  - destruct t; simpl in *; [by replace (pending _) with (pending (mkStrands ps sl rem d)) by lia|].
    rewrite Hd. unfold pending in *. simpl in *. destruct (Z.eqb_spec rem 1); repeat case_decide; try lia; exfalso;
      match goal with Hn : ¬ (_ ∧ _) |- _ => apply Hn; split; [lia|done] end.
Qed.

Lemma steps_ok sinks batches st : steps (start sinks batches) st → strands_ok sinks batches st.
Proof.
  intros Hr. remember (start sinks batches) as st0 eqn:E.
  assert (strands_ok sinks batches st0) as H0 by (subst; apply start_ok). clear E.
  induction Hr as [|st0 st1 st2 Hs _ IH]; [done|]. apply IH.
  destruct Hs; [by eapply post_ok|by eapply run_slot_ok].
Qed.

(** When the promise is fulfilled, every strand has run everything. *)
Lemma done_complete sinks batches st i s0 :
  steps (start sinks batches) st → (0 < done_ st)%nat → sinks !! i = Some s0 →
  ∃ s, process_batch (concat batches) s0 = Ok s ∧ slots st !! i = Some (flush s, []).
Proof.
  intros Hr Hd Hi. destruct (steps_ok _ _ _ Hr) as [Hl _ Hs _ Hdn]. rewrite Hdn in Hd.
  case_decide as Hp; [|lia]. destruct Hp as [Hp _]. unfold pending in Hp.
  destruct (slots st !! i) as [[s q]|] eqn:Es.
  2:{ apply lookup_ge_None in Es. apply lookup_lt_Some in Hi. lia. }
  destruct (Hs i s q Es) as (s0' & ran & E0 & Er & Et). simplify_eq.
  assert (flushes (q ++ mine i (posts st)) = 0%nat) as Hf.
  { rewrite flushes_app.
    assert (flushes (mine i (posts st)) ≤ flushes (map snd (posts st)))%nat.
    { clear. induction (posts st) as [|[j t] ps IH]; simpl; [done|]. rewrite mine_cons, flushes_app, flushes_cons.
      destruct (decide (j = i)); [rewrite flushes_cons; change (flushes []) with 0%nat|change (flushes []) with 0%nat]; lia. }
    pose proof (sum_list_insert (λ sl : S * list task, flushes sl.2) (slots st) i _ (s, []) Es) as E. simpl in E.
    change (flushes []) with 0%nat in E. lia. }
  assert (q ++ mine i (posts st) = []) as Hnil.
  { destruct (q ++ mine i (posts st)) as [|x l _] using rev_ind; [done|]. exfalso.
    unfold tasks in Et. rewrite app_assoc in Et. apply app_inj_tail in Et as [_ ->].
    rewrite flushes_app, flushes_cons in Hf. simpl in Hf. lia. }
  rewrite Hnil, app_nil_r in Et. subst ran. apply app_nil in Hnil as [-> _].
  unfold tasks in Er. rewrite run_tasks_app, run_batches in Er.
  destruct (process_batch (concat batches) s0) as [m|]; simplify_eq/=. by exists m.
Qed.

Definition work (st : strands) : nat := (2 * length (posts st) + sum_list_with (λ sl, length sl.2) (slots st))%nat.

Lemma step_work st st' : strand_step (S:=S) st st' → (work st' < work st)%nat.
Proof.
  intros Hs. unfold work. destruct Hs as [i t rest sl s q rem d Hi|i t ps sl s s' q rem d Hi Ht]; simpl.
  - pose proof (sum_list_insert (λ sl : S * list task, length sl.2) sl i _ (s, q ++ [t]) Hi) as E. simpl in E.
    rewrite length_app in E. simpl in E. lia.
  - pose proof (sum_list_insert (λ sl : S * list task, length sl.2) sl i _ (s', q) Hi) as E. simpl in E. lia.
Qed.

Lemma nsteps_work n st st' : nsteps (strand_step (S:=S)) n st st' → (n ≤ work st)%nat.
Proof. induction 1 as [|n st st1 st2 Hst _ IH]; [lia|]. apply step_work in Hst. lia. Qed.

Lemma length_all_posts n batches : length (all_posts n batches) = (n * (length batches + 1))%nat.
Proof.
  unfold all_posts. rewrite length_app, length_fmap, length_seq.
  assert (length (batches ≫= λ b, (λ i, (i, Process b)) <$> seq 0 n) = n * length batches)%nat as ->; [|lia].
  induction batches as [|b bs IH]; [simpl; lia|].
  rewrite bind_cons, length_app, length_fmap, length_seq, IH. simpl. lia.
Qed.

Lemma start_work sinks batches : work (start sinks batches) = (2 * (length sinks * (length batches + 1)))%nat.
Proof.
  unfold work. simpl. rewrite length_all_posts.
  assert (sum_list_with (λ sl : S * list task, length sl.2) ((λ s, (s, [])) <$> sinks) = 0%nat) as ->; [|lia].
  induction sinks; simpl; auto.
Qed.

Lemma process_batch_total (b : list LogEvent) (s : S) :
  (∀ e s, ∃ s', process (S:=S) e s = Ok s') → ∃ s', process_batch b s = Ok s'.
Proof.
  intros Ht. revert s. induction b as [|e b IH]; intros s; simpl; [by eexists|].
  destruct (Ht e s) as (s' & ->). apply IH.
Qed.

(** A run of the strands that cannot go on is complete. *)
Lemma stuck_complete sinks batches st :
  steps (start sinks batches) st → sinks ≠ [] →
  (∀ e s, ∃ s', process (S:=S) e s = Ok s') → (∀ st', ¬ strand_step st st') →
  done_ st = 1%nat ∧ posts st = [] ∧ Forall (λ sl, sl.2 = []) (slots st).
Proof.
  intros Hr Hne Htot Hstuck. destruct (steps_ok sinks batches st Hr) as [Hl Hp Hs _ Hd].
  assert (posts st = []) as Eps.
  { destruct st as [[|[i t] ps] sl rem d]; [done|]. exfalso. simpl in *. apply Forall_cons in Hp as [Hi _].
    simpl in Hi. destruct (sl !! i) as [[s q]|] eqn:Ei; [|apply lookup_ge_None in Ei; lia].
    eapply Hstuck. by constructor. }
  assert (Forall (λ sl, sl.2 = []) (slots st)) as Hq.
  { apply Forall_lookup. intros i [s [|t q]] Ei; [done|]. exfalso.
    assert (∃ s', run_task t s = Ok s') as (s' & Et).
    { destruct t; simpl; [by apply process_batch_total|by eexists]. }
    destruct st. simpl in *. eapply Hstuck. by eapply s_run. }
  split_and!; [|done|done]. rewrite Hd, decide_True; [done|]. split; [|done].
  unfold pending. rewrite Eps. clear - Hq. simpl. induction Hq as [|[s q] l E _ IH]; simpl in *; [done|]. by subst.
Qed.

(** The pool only restricts which steps can be taken. *)
Lemma pool_strand threads st st' : pool_step (S:=S) threads st st' → strand_step st st'.
Proof. intros []; [by constructor|by eapply s_run]. Qed.

Lemma strand_pool threads st st' : (0 < threads)%nat → strand_step (S:=S) st st' → pool_step threads st st'.
Proof. intros Ht []; [by constructor|by eapply w_run]. Qed.

Lemma pool_nsteps threads n st st' : nsteps (pool_step (S:=S) threads) n st st' → nsteps (strand_step (S:=S)) n st st'.
Proof. induction 1 as [|n st st1 st2 Hst _ IH]; [constructor|]. eapply nsteps_l; [by eapply pool_strand|done]. Qed.

Lemma no_threads_done n st st' : nsteps (pool_step (S:=S) 0) n st st' → done_ st' = done_ st.
Proof. induction 1 as [|n st st1 st2 Hst _ IH]; [done|]. rewrite IH. destruct Hst; [done|lia]. Qed.

(** C8: step 3 of [Logger::shutdown], once the consumer thread has been joined:
    the posts to the strands and the wait for the promise.  On a pool of any
    number of threads a run makes at most two steps per post and fulfils the
    promise at most once.  On a pool with a thread, with sinks that do not
    throw, a run that cannot go on has fulfilled it, with nothing left to post
    or to run, so that the wait ends.  On a pool without threads the promise is
    never fulfilled and the wait never ends. *)
Theorem shutdown_drain_completes (threads : nat) (sinks : list S) (batches : list (list LogEvent))
    (st : strands) (n : nat) :
  nsteps (pool_step (S:=S) threads) n (start sinks batches) st → sinks ≠ [] →
  (n ≤ 2 * (length sinks * (length batches + 1)))%nat ∧ (done_ st ≤ 1)%nat ∧
  ((0 < threads)%nat → (∀ e s, ∃ s', process (S:=S) e s = Ok s') → (∀ st', ¬ pool_step threads st st') →
   done_ st = 1%nat ∧ posts st = [] ∧ Forall (λ sl, sl.2 = []) (slots st)) ∧
  (threads = 0%nat → done_ st = 0%nat).
Proof.
  intros Hn Hne. pose proof (pool_nsteps _ _ _ _ Hn) as Hs.
  assert (steps (start sinks batches) st) as Hr by (by eapply rtc_nsteps_2). split_and!.
  - rewrite <- start_work. by eapply nsteps_work.
  - rewrite (so_done _ _ _ (steps_ok _ _ _ Hr)). case_decide; lia.
  - intros Ht Htot Hstuck. apply (stuck_complete sinks batches st Hr Hne Htot).
    intros st' Hst. by eapply Hstuck, strand_pool.
  - intros ->. by rewrite (no_threads_done _ _ _ Hn).
Qed.
End Strands.

(** ** From the ring to the sinks *)

Section Live.
Context {E : Type}.
Variables (lg : nat) (stops : E → bool) (moved_from : E → E).

(** The consumer hands on no shutdown entry, and stops only after one. *)
Definition live (st : @state E) : Prop :=
  Forall (λ e, stops e = false) (output st) ∧ (∀ n, consumer st = CDone n → running st = false).

Lemma live_step st st' : step lg stops moved_from st st' → live st → live st'.
Proof.
  intros Hs [Ho Hd]. destruct Hs as [st t p st' _ Hp|st st' Hc].
  - assert (output st' = output st ∧ consumer st' = consumer st ∧ running st' = running st) as (E1 & E2 & E3)
      by (by destruct Hp).
    split; [by rewrite E1|by rewrite E2, E3].
  - unfold live, output in *. inversion Hc as [n|n|n s up|n s up|n s up|n|n s av b e|n s av b|n s av b e|s b|n s av b|last b];
      subst; simpl in *; match goal with Hx : _ = consumer st |- _ => rewrite <- Hx in * end; simpl in *;
      (split; [|unfold scanned; try case_match; by intros]); rewrite ?app_nil_r in *; try done;
      try (unfold scanned; case_match; simpl; by rewrite app_nil_r).
    + rewrite app_assoc. apply Forall_app. split; [done|]. by repeat constructor.
    + destruct b; simpl in *; rewrite ?app_nil_r in *; [done|].
      rewrite concat_app. simpl. by rewrite app_nil_r.
Qed.

Lemma live_reachable threads dflt st : reachable lg stops moved_from threads dflt st → live st.
Proof.
  intros Hr. unfold reachable in Hr. remember (initial lg threads dflt) as st0 eqn:E0.
  assert (live st0) as H0 by (subst; by repeat constructor). clear E0.
  induction Hr as [|st0 st1 st2 Hs _ IH]; [done|]. by eapply IH, live_step.
Qed.

(** The entries before the first shutdown entry. *)
Fixpoint before_shutdown (es : list E) : list E :=
  match es with
  | [] => []
  | e :: es' => if stops e then [] else e :: before_shutdown es'
  end.

Lemma before_shutdown_take es k e :
  es !! k = Some e → stops e = true → Forall (λ e, stops e = false) (take k es) → before_shutdown es = take k es.
Proof.
  revert k. induction es as [|a es IH]; intros [|k] Hk He Hl; simplify_eq/=; [by rewrite He|].
  apply Forall_cons in Hl as [-> Hl]. f_equal. by eapply IH.
Qed.

(** Once the consumer has left its loop, it has handed on exactly these. *)
Lemma posted_complete threads dflt st n :
  (lg ≤ 63)%nat → reachable lg stops moved_from threads dflt st → consumer st = CDone n →
  concat (posted st) = before_shutdown (claimed st).
Proof.
  intros Hlg Hr Hc. destruct (live_reachable _ _ _ Hr) as [Hl Hd]. specialize (Hd n Hc).
  destruct (output_prefix lg stops moved_from threads dflt st Hlg Hr) as (k & _ & Ho & Hk).
  destruct (Hk Hd) as (e & He & Hs). rewrite Ho in Hl.
  rewrite (before_shutdown_take _ _ _ He Hs Hl), <- Ho. unfold output. by rewrite Hc, app_nil_r.
Qed.
End Live.

Section Delivery.
Context {S : Type} `{Sink S}.

(** C7: the logger delivers.  When the consumer thread has ended and the promise
    of [shutdown] is fulfilled, every sink has processed exactly the events
    claimed before the shutdown signal, each once, in the order in which the
    producers claimed their sequences, and has been flushed after the last of
    them; this for any number of producers, any interleaving of them with the
    consumer, and any interleaving of the strands. *)
Theorem logger_delivers (lg threads : nat) (left : string → string) (dflt : LogEvent) (st : state) (n : Z)
    (sinks : list S) (run : strands S) (i : nat) (s0 : S) :
  (lg ≤ 63)%nat → reachable lg shutdown_signal (moved_event left) threads dflt st → consumer st = CDone n →
  rtc (strand_step (S:=S)) (start sinks (posted st)) run → (0 < done_ run)%nat → sinks !! i = Some s0 →
  ∃ s, process_batch (before_shutdown shutdown_signal (claimed st)) s0 = Ok s ∧
       slots run !! i = Some (flush s, []).
Proof.
  intros Hlg Hr Hc Hrun Hd Hi. rewrite <- (posted_complete _ _ _ _ _ _ _ Hlg Hr Hc). by eapply done_complete.
Qed.
End Delivery.

(** ** A run *)

Module LogRun.
Definition ctx : thread_context := mkContext 0 77 42.
Definition loc : source_location := mkLocation "src/net/server.cpp" 12 (Some "accept").
Definition blank : LogEvent := default_event ctx.
Definition up : LogEvent := (log "" blank ctx Info "net" "up" loc).1.
Definition stop : LogEvent := signal_shutdown blank.
Definition emptied (s : string) : string := "".

Definition config : ConsoleSinkConfig := ConsoleBuilder.enable_colors false default_console.
Definition sink : ConsoleSink.t := ConsoleSink.make config.
Definition wrote : ConsoleSink.t :=
  ConsoleSink.mk config ("INF up" +:+ newline) [OWrite 0 ("INF up" +:+ newline)].

#[global] Instance light_console : Sink ConsoleSink.t := ConsoleSink.console_sink (T:=LightEntry).

(** The consumer has left its loop: [up] posted, [stop] read. *)
Definition ended : state :=
  mkState 1 1 [false; false] [moved_event emptied up; stop] [PIdle] (CDone 2) false [[up]] [up; stop].

Ltac producer_rule r :=
  eapply rtc_l; [eapply (step_producer _ _ _ _ 0%nat); [reflexivity|eapply r; try done]|cbn -[up stop]].
Ltac consumer_rule r := eapply rtc_l; [apply step_consumer; eapply r; try done|cbn -[up stop]].

Lemma ended_reachable : reachable 1 shutdown_signal (moved_event emptied) 1 blank ended.
Proof.
  unfold reachable.
  eapply rtc_l; [eapply (step_producer _ _ _ _ 0%nat); [reflexivity|by apply (p_start _ _ _ [up; stop])]|].
  producer_rule @p_read. producer_rule @p_gate_pass. producer_rule @p_cas.
  do 2 producer_rule @p_write. producer_rule @p_written. do 2 producer_rule @p_publish. producer_rule @p_published.
  consumer_rule @c_head. do 2 consumer_rule @c_scan. consumer_rule @c_all.
  consumer_rule @c_read. consumer_rule @c_mark. consumer_rule @c_read_stop. consumer_rule @c_mark_stop.
  consumer_rule @c_gating. consumer_rule @c_stop. apply rtc_refl.
Qed.

(** The strand has run the batch and the flush. *)
Definition drained : strands ConsoleSink.t := mkStrands [] [(flush wrote, [])] 0 1.

Lemma drained_reached : nsteps (strand_step (S:=ConsoleSink.t)) 4 (start [sink] [[up]]) drained.
Proof.
  eapply nsteps_l; [by apply (s_post 0)|].
  eapply nsteps_l; [eapply (s_run 0 (Process [up])); [reflexivity|vm_compute; reflexivity]|].
  eapply nsteps_l; [by apply (s_post 0)|].
  eapply nsteps_l; [eapply (s_run 0 FlushDone); [reflexivity|vm_compute; reflexivity]|].
  apply nsteps_O.
Qed.

Lemma drained_pool : nsteps (pool_step (S:=ConsoleSink.t) 1) 4 (start [sink] [[up]]) drained.
Proof.
  eapply nsteps_l; [by apply (w_post 1 0)|].
  eapply nsteps_l; [eapply (w_run 1 0 (Process [up])); [lia|reflexivity|vm_compute; reflexivity]|].
  eapply nsteps_l; [by apply (w_post 1 0)|].
  eapply nsteps_l; [eapply (w_run 1 0 FlushDone); [lia|reflexivity|vm_compute; reflexivity]|].
  apply nsteps_O.
Qed.
End LogRun.

Lemma slot_reuse_witness :
  let e1 := (log "left over" (signal_shutdown LogRun.up) LogRun.ctx Error "db" "down" LogRun.loc).1 in
  let e2 := (log "" LogRun.blank LogRun.ctx Error "db" "down" LogRun.loc).1 in
  let e3 := (StreamProxy.destroy "" LogRun.blank LogRun.ctx
               (StreamProxy.put "down" (StreamProxy.make Error "db" LogRun.loc))).1 in
  shown "down" "db" (mkMeta Error LogRun.loc LogRun.ctx) e1 ∧ slot_ok e1 ∧ event_equiv e1 e2 ∧ event_equiv e1 e3 ∧
  process e1 LogRun.sink = process e2 LogRun.sink ∧ process e1 LogRun.sink = process e3 LogRun.sink.
Proof.
  apply (@slot_reuse ConsoleSink.t LogRun.light_console console_laws "left over" "" (signal_shutdown LogRun.up) LogRun.blank).
  - split; [reflexivity|vm_compute; lia].
  - split; [reflexivity|vm_compute; lia].
Defined.

Lemma shutdown_drain_completes_witness :
  done_ LogRun.drained = 1%nat ∧ posts LogRun.drained = [] ∧ Forall (λ sl, sl.2 = []) (slots LogRun.drained).
Proof.
  destruct (shutdown_drain_completes 1 [LogRun.sink] [[LogRun.up]] LogRun.drained 4) as (_ & _ & H & _);
    [apply LogRun.drained_pool|done|].
  apply H; [lia| |].
  - intros e s. simpl. unfold ConsoleSink.process. case_match; by eexists.
  - intros st' Hst. inversion Hst as [|i t ps sl s s' q rem d _ Hi]. destruct i as [|[]]; discriminate Hi.
Defined.

Lemma logger_delivers_witness :
  ∃ s, process_batch (before_shutdown shutdown_signal (claimed LogRun.ended)) LogRun.sink = Ok s ∧
       slots LogRun.drained !! 0%nat = Some (flush s, []).
Proof.
  apply (logger_delivers 1 1 LogRun.emptied LogRun.blank LogRun.ended 2 [LogRun.sink] LogRun.drained 0 LogRun.sink);
    [lia|apply LogRun.ended_reachable|reflexivity| |simpl; lia|reflexivity].
  apply (rtc_nsteps_2 4), LogRun.drained_reached.
Defined.
