(* ===== verification/HttpRouting.v ===== *)
(** * HTTP routing

    [components/http/http_server]: [RouteRegistry] with its exact and its
    parametric routes, and the controllers that fill it.  A parametric path such
    as [/users/{id}] is turned into a regular expression by textual
    replacement; the model keeps that text, and interprets the part of
    ECMAScript syntax the replacement produces itself: literal characters, the
    dot and the group [([^/]+)].  A pattern with any other syntax is handed to
    the parameter [other_regex] (a matcher, or [regex_error]). *)

From S2P Require Import Prelude Gears Bytes.
From stdpp Require Import list gmap strings.

Local Open Scope demi_scope.

(** ** [std::regex], as far as the routes use it *)

Inductive item : Type := Lit (c : ascii) | AnyChar | Group.

(** The syntax characters of ECMAScript patterns *)
Definition is_meta (c : ascii) : bool :=
  bool_decide (c ∈ ["^"; "$"; "\"; "."; "*"; "+"; "?"; "("; ")"; "["; "]"; "{"; "}"; "|"]%char).

Definition group_text : string := "([^/]+)".

(** The items up to the closing [$]; [skip] characters belong to the group
    before.  [None]: other syntax. *)
Fixpoint parse_items (skip : nat) (s : string) : option (list item) :=
  match s with
  | EmptyString => None
  | String c s' =>
      match skip with
      | S k => parse_items k s'
      | O =>
          if String.prefix group_text s then (Group ::.) <$> parse_items 6 s'
          else if decide (s = "$") then Some []
          else if decide (c = "."%char) then (AnyChar ::.) <$> parse_items 0 s'
          else if is_meta c then None
          else (Lit c ::.) <$> parse_items 0 s'
      end
  end.

(** [[^/]+] is greedy: the longest run first, then shorter ones as long as the
    rest [k] does not match. *)
Fixpoint match_group (k : string → option (list string)) (acc s : string) : option (list string) :=
  match s with
  | EmptyString => None
  | String c s' =>
      if decide (c = "/"%char) then None
      else let acc' := acc +:+ String c "" in
           match match_group k acc' s' with
           | Some ps => Some ps
           | None => (acc' ::.) <$> k s'
           end
  end.

(** [.] matches no line terminator. *)
Definition line_terminator (c : ascii) : bool := bool_decide (c ∈ ["010"; "013"]%char).

(** [std::regex_match]: the whole string; the contents of the groups. *)
Fixpoint match_items (r : list item) (s : string) : option (list string) :=
  match r with
  | [] => if decide (s = "") then Some [] else None
  | Lit c :: r' =>
      match s with
      | String d s' => if decide (d = c) then match_items r' s' else None
      | EmptyString => None
      end
  | AnyChar :: r' =>
      match s with
      | String d s' => if line_terminator d then None else match_items r' s'
      | EmptyString => None
      end
  | Group :: r' => match_group (match_items r') "" s
  end.

(** ** Paths with parameters *)

Definition contains (c : ascii) (s : string) : bool := negb (string_all (λ d, negb (bool_decide (d = c))) s).

Definition is_parametric_path (path : string) : bool := contains "{" path.

(** The characters up to the next closing brace. *)
Fixpoint upto_brace (s : string) : option string :=
  match s with
  | EmptyString => None
  | String c s' => if decide (c = "}"%char) then Some "" else (String c) <$> upto_brace s'
  end.

Inductive token : Type := Text (c : ascii) | Param (name : string).

(** The successive matches of [\{([^}]+)\}] and the text between them. *)
Fixpoint tokens (skip : nat) (s : string) : list token :=
  match s with
  | EmptyString => []
  | String c s' =>
      match skip with
      | S k => tokens k s'
      | O =>
          if decide (c = "{"%char) then
            match upto_brace s' with
            | Some (String d name) => Param (String d name) :: tokens (S (S (String.length name))) s'
            | _ => Text c :: tokens 0 s'
            end
          else Text c :: tokens 0 s'
      end
  end.

Definition param_names_of (path : string) : list string :=
  omap (λ t, match t with Param n => Some n | Text _ => None end) (tokens 0 path).

(** [std::regex_replace(pattern, param_regex, "([^/]+)")] *)
Fixpoint replace_params (l : list token) : string :=
  match l with
  | [] => ""
  | Text c :: l' => String c (replace_params l')
  | Param _ :: l' => group_text +:+ replace_params l'
  end.

Definition pattern_of (path : string) : string := "^" +:+ replace_params (tokens 0 path) +:+ "$".

(** ** The registry *)

(** [boost::beast::http::verb], by its numeric value *)
Definition verb := N.

Section Registry.
Context {Handler : Type}.
Variable other_regex : string → result (string → option (list string)).

Definition regex_compile (pattern : string) : result (string → option (list string)) :=
  match pattern with
  | String c body =>
      if decide (c = "^"%char) then
        match parse_items 0 body with Some r => Ok (match_items r) | None => other_regex pattern end
      else other_regex pattern
  | EmptyString => other_regex pattern
  end.

Record RouteInfo := mkRoute {
  method : verb;
  path : string;
  pattern : string;
  param_names : list string;
  handler : Handler;
  is_parametric : bool;
  compiled_regex : string → option (list string);
}.

Record RouteRegistry := mkRegistry {
  exact_routes_ : gmap string Handler;
  parametric_routes_ : list RouteInfo;
}.

Definition empty_registry : RouteRegistry := mkRegistry ∅ [].

Definition make_route_key (m : verb) (p : string) : string := ToString.numeral m +:+ ":" +:+ p.

Definition create_parametric_route (m : verb) (p : string) (h : Handler) : result RouteInfo :=
  let! f := regex_compile (pattern_of p) in
  Ok (mkRoute m p (pattern_of p) (param_names_of p) h true f).

Definition add_route (m : verb) (p : string) (h : Handler) (r : RouteRegistry) : result RouteRegistry :=
  if is_parametric_path p then
    let! i := create_parametric_route m p h in
    Ok (mkRegistry (exact_routes_ r) (parametric_routes_ r ++ [i]))
  else Ok (mkRegistry (<[make_route_key m p := h]> (exact_routes_ r)) (parametric_routes_ r)).

(** [params[param_names[i]] = match[i + 1]] for the indices both have. *)
Definition bind_params (names values : list string) : gmap string string :=
  foldl (λ ps nv, <[nv.1 := nv.2]> ps) ∅ (zip names values).

Fixpoint find_parametric (m : verb) (p : string) (l : list RouteInfo) : option (Handler * gmap string string) :=
  match l with
  | [] => None
  | i :: l' =>
      if decide (method i ≠ m) then find_parametric m p l'
      else match compiled_regex i p with
           | Some vs => Some (handler i, bind_params (param_names i) vs)
           | None => find_parametric m p l'
           end
  end.

Definition find_handler (m : verb) (p : string) (r : RouteRegistry) : result (Handler * gmap string string) :=
  match exact_routes_ r !! make_route_key m p with
  | Some h => Ok (h, ∅)
  | None =>
      match find_parametric m p (parametric_routes_ r) with
      | Some x => Ok x
      | None => Throw out_of_range
      end
  end.

Definition route_count (r : RouteRegistry) : nat := size (exact_routes_ r) + length (parametric_routes_ r).
Definition clear (r : RouteRegistry) : RouteRegistry := empty_registry.

(** The keys of the other map are distinct, so the order of the iteration does
    not matter: its entries replace those of this map. *)
Definition merge_exact (this other : gmap string Handler) : gmap string Handler := other ∪ this.

(** [merge(RouteRegistry&&)]: this registry, and the other one after it. *)
Definition merge_move (this other : RouteRegistry) : RouteRegistry * RouteRegistry :=
  (mkRegistry (merge_exact (exact_routes_ this) (exact_routes_ other))
              (parametric_routes_ this ++ parametric_routes_ other),
   clear other).

Definition recompile (i : RouteInfo) : result RouteInfo :=
  if is_parametric i then
    let! f := regex_compile (pattern i) in
    Ok (mkRoute (method i) (path i) (pattern i) (param_names i) (handler i) true f)
  else Ok i.

Fixpoint recompile_all (l : list RouteInfo) : result (list RouteInfo) :=
  match l with
  | [] => Ok []
  | i :: l' => let! i' := recompile i in let! l'' := recompile_all l' in Ok (i' :: l'')
  end.

(** [merge(const RouteRegistry&)] *)
Definition merge_copy (this other : RouteRegistry) : result RouteRegistry :=
  let! l := recompile_all (parametric_routes_ other) in
  Ok (mkRegistry (merge_exact (exact_routes_ this) (exact_routes_ other)) (parametric_routes_ this ++ l)).

(** The copy constructor and the copy assignment from another object *)
Definition copy_registry (other : RouteRegistry) : result RouteRegistry :=
  let! l := recompile_all (parametric_routes_ other) in Ok (mkRegistry (exact_routes_ other) l).

(** ** Controllers

    [HttpController]: the verb-named members register in the controller's own
    registry; the server takes the routes over.  The verbs are [beast]'s. *)

Variables (verb_get verb_post verb_put verb_delete : verb).

Definition Get (p : string) (h : Handler) (registry_ : RouteRegistry) : result RouteRegistry := add_route verb_get p h registry_.
Definition Post (p : string) (h : Handler) (registry_ : RouteRegistry) : result RouteRegistry := add_route verb_post p h registry_.
Definition Put (p : string) (h : Handler) (registry_ : RouteRegistry) : result RouteRegistry := add_route verb_put p h registry_.
Definition Delete (p : string) (h : Handler) (registry_ : RouteRegistry) : result RouteRegistry := add_route verb_delete p h registry_.

(** The target's new registry and what is left of the controller's *)
Definition transfer_routes_to (registry_ target : RouteRegistry) : RouteRegistry * RouteRegistry := merge_move target registry_.

(** A series of registrations. *)
Definition route : Type := verb * string * Handler.

Fixpoint add_routes (l : list route) (r : RouteRegistry) : result RouteRegistry :=
  match l with
  | [] => Ok r
  | (m, p, h) :: l' => let! r' := add_route m p h r in add_routes l' r'
  end.


(** ** Segments *)

(** Up to the next slash, and the rest. *)
Fixpoint span (s : string) : string * string :=
  match s with
  | EmptyString => ("", "")
  | String c s' => if decide (c = "/"%char) then ("", s) else let '(a, r) := span s' in (String c a, r)
  end.

Definition slash_free (s : string) : bool := string_all (λ c, bool_decide (c ≠ "/"%char)) s.
Definition at_slash (s : string) : Prop := s = "" ∨ ∃ r, s = String "/" r.

Lemma span_spec s a r : span s = (a, r) → s = a +:+ r ∧ slash_free a = true ∧ at_slash r.
Proof.
  revert a r. induction s as [|c s IH]; intros a r; simpl.
  - intros [= <- <-]. split_and!; [done|done|by left].
  - case_decide as Hc.
    + intros [= <- <-]. split_and!; [done|done|]. right. exists s. by rewrite Hc.
    + destruct (span s) as [a' r'] eqn:E. intros [= <- <-]. destruct (IH a' r' eq_refl) as (-> & Ha & Hr).
      split_and!; [done| |done]. unfold slash_free in *. simpl. by rewrite bool_decide_eq_true_2.
Qed.

Lemma span_app a r : slash_free a = true → at_slash r → span (a +:+ r) = (a, r).
Proof.
  intros Ha Hr. induction a as [|c a IH].
  - destruct Hr as [->|[r' ->]]; done.
  - unfold slash_free in *. simpl in *. apply andb_true_iff in Ha as [Hc Ha]. apply bool_decide_eq_true in Hc.
    case_decide; [done|]. by rewrite IH.
Qed.

(** A rest that cannot start before a slash or the end. *)
Definition stops (k : string → option (list string)) : Prop := ∀ c s, c ≠ "/"%char → k (String c s) = None.

Lemma match_group_span k acc s :
  stops k →
  match_group k acc s = let '(a, r) := span s in if decide (a = "") then None else ((acc +:+ a) ::.) <$> k r.
Proof.
  intros Hk. revert acc. induction s as [|c s IH]; intros acc; [done|]. simpl. case_decide as Hc; [done|].
  rewrite IH. destruct (span s) as [a r] eqn:E. destruct (span_spec s a r E) as (-> & _ & Hr).
  destruct a as [|d a]; simpl.
  - done.
  - rewrite string_app_assoc. simpl. destruct (k r) eqn:Ek; [done|]. simpl. rewrite Hk; [done|].
    simpl in E. case_decide; [done|]. by subst.
Qed.

Inductive seg : Type := Static (s : string) | Dynamic (name : string).

Definition seg_text (x : seg) : string := match x with Static s => s | Dynamic n => "{" +:+ n +:+ "}" end.
Fixpoint template_text (t : list seg) : string :=
  match t with [] => "" | x :: t' => "/" +:+ seg_text x +:+ template_text t' end.

(** A static segment has no slash and no character that means something in a
    pattern; a parameter has a name without a closing brace. *)
Definition plain_char (c : ascii) : bool := negb (is_meta c) && bool_decide (c ≠ "/"%char).
Definition seg_ok (x : seg) : Prop :=
  match x with
  | Static s => string_all plain_char s = true
  | Dynamic n => n ≠ "" ∧ string_all (λ c, bool_decide (c ≠ "}"%char)) n = true
  end.

Definition names (t : list seg) : list string :=
  omap (λ x, match x with Dynamic n => Some n | Static _ => None end) t.

(** The path that has the given values for the parameters. *)
Fixpoint instantiate (t : list seg) (vs : list string) : option string :=
  match t, vs with
  | [], [] => Some ""
  | Static s :: t', _ => (λ p, "/" +:+ s +:+ p) <$> instantiate t' vs
  | Dynamic _ :: t', v :: vs' => (λ p, "/" +:+ v +:+ p) <$> instantiate t' vs'
  | _, _ => None
  end.

(** Matching segment by segment. *)
Definition match_seg (x : seg) (a : string) : option (list string) :=
  match x with
  | Static s => if decide (a = s) then Some [] else None
  | Dynamic _ => if decide (a = "") then None else Some [a]
  end.
Fixpoint match_path (t : list seg) (s : string) : option (list string) :=
  match t with
  | [] => if decide (s = "") then Some [] else None
  | x :: t' =>
      match s with
      | EmptyString => None
      | String c s' =>
          if decide (c = "/"%char) then
            let '(a, r) := span s' in
            match match_seg x a with Some v => (v ++.) <$> match_path t' r | None => None end
          else None
      end
  end.

(** *** Matching *)

Definition seg_items (x : seg) : list item :=
  match x with Static s => Lit <$> list_ascii_of_string s | Dynamic _ => [Group] end.
Fixpoint template_items (t : list seg) : list item :=
  match t with [] => [] | x :: t' => Lit "/" :: seg_items x ++ template_items t' end.

Lemma template_stops t : stops (match_items (template_items t)).
Proof. destruct t as [|x t]; intros c s Hc; [done|]. simpl. by case_decide. Qed.

Lemma match_lits a r s :
  slash_free a = true → stops (match_items r) →
  match_items ((Lit <$> list_ascii_of_string a) ++ r) s =
    let '(b, rest) := span s in if decide (b = a) then match_items r rest else None.
Proof.
  intros Ha Hr. revert s. induction a as [|c a IH]; intros s; simpl.
  - destruct s as [|d s]; simpl; [done|]. case_decide as Hd; [done|].
    destruct (span s) as [b rest]. rewrite Hr by done. by case_decide.
  - unfold slash_free in *. simpl in Ha. apply andb_true_iff in Ha as [Hc Ha]. apply bool_decide_eq_true in Hc.
    destruct s as [|d s]; simpl; [done|]. destruct (decide (d = "/"%char)) as [Hd|Hd].
    + case_decide as Hdc; [congruence|]. by case_decide.
    + rewrite IH by done. destruct (span s) as [b rest].
      destruct (decide (d = c)), (decide (b = a)), (decide (String d b = String c a)); congruence.
Qed.

Lemma plain_slash_free s : string_all plain_char s = true → slash_free s = true.
Proof.
  unfold slash_free. induction s as [|c s IH]; [done|]. simpl. intros [Hc Hs]%andb_true_iff.
  unfold plain_char in Hc. apply andb_true_iff in Hc as [_ Hc]. by rewrite Hc, IH.
Qed.

Lemma match_template t s : Forall seg_ok t → match_items (template_items t) s = match_path t s.
Proof.
  intros Ht. revert s. induction Ht as [|x t Hx Ht IH]; intros s; [done|]. simpl.
  destruct s as [|c s]; [done|]. case_decide as Hc; [|done]. destruct x as [a|n]; simpl in *.
  - rewrite match_lits; [|by apply plain_slash_free|apply template_stops].
    destruct (span s) as [b r]. case_decide; [|done]. rewrite IH. by destruct (match_path t r).
  - rewrite match_group_span by apply template_stops. destruct (span s) as [b r]. case_decide; [done|].
    rewrite IH. by destruct (match_path t r).
Qed.

Lemma instantiate_slash t vs p : instantiate t vs = Some p → at_slash p.
Proof.
  destruct t as [|[s|n] t]; simpl.
  - destruct vs; [|done]. intros [= <-]. by left.
  - destruct (instantiate t vs); [|done]. intros [= <-]. right. eauto.
  - destruct vs as [|v vs]; [done|]. destruct (instantiate t vs); [|done]. intros [= <-]. right. eauto.
Qed.

Definition value_ok (v : string) : Prop := v ≠ "" ∧ slash_free v = true.

(** A path matches with the values exactly if it is the template with the
    values put in, and they are not empty and have no slash. *)
Lemma match_path_spec t p vs :
  Forall seg_ok t → match_path t p = Some vs ↔ Forall value_ok vs ∧ instantiate t vs = Some p.
Proof.
  intros Ht. revert p vs. induction Ht as [|x t Hx Ht IH]; intros p vs; simpl.
  - case_decide as Hp; split.
    + intros [= <-]. subst p. split; [constructor|done].
    + intros [_ H]. destruct vs; [done|done].
    + done.
    + intros [_ H]. destruct vs; [|done]. congruence.
  - split.
    + destruct p as [|c p]; [done|]. case_decide as Hc; [|done]. subst c.
      destruct (span p) as [a r] eqn:E. destruct (span_spec p a r E) as (-> & Ha & Hr).
      destruct x as [s|n]; simpl; (case_decide as Hd; try done);
        (destruct (match_path t r) as [ws|] eqn:Em; [|done]); intros [= <-]; apply IH in Em as [Hv Hi].
      * subst a. by rewrite Hi.
      * rewrite Hi. split; [|done]. by constructor.
    + intros [Hv Hi]. destruct x as [s|n]; simpl in *.
      * destruct (instantiate t vs) as [q|] eqn:Eq; [|done]. injection Hi as <-. simpl.
        rewrite span_app; [|by apply plain_slash_free|by eapply instantiate_slash].
        case_decide; [|done]. by rewrite (proj2 (IH q vs)).
      * destruct vs as [|v vs]; [done|]. apply Forall_cons_1 in Hv as [[Hne Hsf] Hv].
        destruct (instantiate t vs) as [q|] eqn:Eq; [|done]. injection Hi as <-. simpl.
        rewrite span_app by (done || by eapply instantiate_slash).
        case_decide; [done|]. by rewrite (proj2 (IH q vs)).
Qed.

(** *** From the template to the pattern *)

Definition seg_tokens (x : seg) : list token :=
  match x with Static s => Text <$> list_ascii_of_string s | Dynamic n => [Param n] end.
Fixpoint template_tokens (t : list seg) : list token :=
  match t with [] => [] | x :: t' => Text "/" :: seg_tokens x ++ template_tokens t' end.

Lemma meta_cases c : is_meta c = false → c ≠ "{"%char ∧ c ≠ "("%char ∧ c ≠ "$"%char ∧ c ≠ "."%char.
Proof.
  unfold is_meta. rewrite bool_decide_eq_false. intros H. split_and!; intros ->; apply H; set_solver.
Qed.

Lemma tokens_text s rest :
  string_all plain_char s = true → tokens 0 (s +:+ rest) = (Text <$> list_ascii_of_string s) ++ tokens 0 rest.
Proof.
  induction s as [|c s IH]; [done|]. simpl. intros [Hc Hs]%andb_true_iff. rewrite IH by done.
  unfold plain_char in Hc. apply andb_true_iff in Hc as [Hc _]. apply negb_true_iff in Hc.
  apply meta_cases in Hc as (Hb & _). by case_decide.
Qed.

Lemma tokens_skip s rest : tokens (String.length s) (s +:+ rest) = tokens 0 rest.
Proof. induction s as [|c s IH]; [done|]. simpl. by rewrite IH. Qed.

Lemma upto_brace_app n rest :
  string_all (λ c, bool_decide (c ≠ "}"%char)) n = true → upto_brace (n +:+ String "}" rest) = Some n.
Proof.
  induction n as [|c n IH]; [done|]. simpl. intros [Hc Hn]%andb_true_iff. apply bool_decide_eq_true in Hc.
  case_decide; [done|]. by rewrite IH.
Qed.

Lemma tokens_param n rest :
  seg_ok (Dynamic n) → tokens 0 ("{" +:+ n +:+ "}" +:+ rest) = Param n :: tokens 0 rest.
Proof.
  intros [Hne Hn]. simpl. rewrite (upto_brace_app n rest Hn). destruct n as [|d n]; [done|].
  f_equal. pose proof (tokens_skip (String d n +:+ "}") rest) as H.
  rewrite string_length_app, string_app_assoc, Nat.add_1_r in H. exact H.
Qed.

Lemma tokens_template t : Forall seg_ok t → tokens 0 (template_text t) = template_tokens t.
Proof.
  induction 1 as [|x t Hx Ht IH]; [done|]. simpl. f_equal. destruct x as [s|n]; simpl.
  - by rewrite tokens_text, IH.
  - rewrite <- IH, string_app_assoc. exact (tokens_param n (template_text t) Hx).
Qed.

Lemma parse_text c rest :
  is_meta c = false → parse_items 0 (String c rest) = (Lit c ::.) <$> parse_items 0 rest.
Proof.
  intros Hm. destruct (meta_cases c Hm) as (_ & Hp & Hd & Ho). cbn [parse_items].
  assert (String.prefix group_text (String c rest) = false) as ->.
  { unfold group_text. cbn [String.prefix]. destruct (ascii_dec "(" c); [congruence|done]. }
  case_decide; [congruence|]. case_decide; [done|]. by rewrite Hm.
Qed.

Lemma parse_group rest : parse_items 0 (group_text +:+ rest) = (Group ::.) <$> parse_items 0 rest.
Proof.
  assert (String.prefix group_text (group_text +:+ rest) = true) as H.
  { unfold group_text. simpl. by destruct rest. }
  change (group_text +:+ rest) with (String "(" ("[^/]+)" +:+ rest)) in *. cbn [parse_items]. rewrite H. reflexivity.
Qed.

Lemma parse_static s l rest :
  string_all plain_char s = true →
  parse_items 0 (replace_params ((Text <$> list_ascii_of_string s) ++ l) +:+ rest) =
    ((Lit <$> list_ascii_of_string s) ++.) <$> parse_items 0 (replace_params l +:+ rest).
Proof.
  induction s as [|c s IH]; intros Hs.
  - simpl. by destruct (parse_items 0 _).
  - apply andb_true_iff in Hs as [Hc Hs]. unfold plain_char in Hc. apply andb_true_iff in Hc as [Hc _].
    apply negb_true_iff in Hc. cbn [list_ascii_of_string fmap list_fmap app replace_params].
    rewrite string_app_cons, parse_text by done. setoid_rewrite (IH Hs). by rewrite <- option_fmap_compose.
Qed.

Lemma parse_template t :
  Forall seg_ok t → parse_items 0 (replace_params (template_tokens t) +:+ "$") = Some (template_items t).
Proof.
  induction 1 as [|x t Hx Ht IH]; [done|]. cbn [template_tokens replace_params template_items].
  rewrite string_app_cons, parse_text by done. destruct x as [s|n]; cbn [seg_tokens seg_items app replace_params].
  - by rewrite parse_static, IH.
  - by rewrite string_app_assoc, parse_group, IH.
Qed.

Lemma names_of_tokens t : omap (λ x, match x with Param n => Some n | Text _ => None end) (template_tokens t) = names t.
Proof.
  induction t as [|[s|n] t IH]; [done| |]; simpl.
  - rewrite <- IH. induction s as [|c s IHs]; [done|]. exact IHs.
  - by rewrite <- IH.
Qed.

Lemma pattern_template t :
  Forall seg_ok t → regex_compile (pattern_of (template_text t)) = Ok (match_items (template_items t)).
Proof.
  intros Ht. unfold pattern_of. rewrite tokens_template by done.
  change ("^" +:+ ?x) with (String "^" x) || idtac. cbn [append regex_compile].
  rewrite decide_True by done. by rewrite parse_template.
Qed.

(** ** The registry as a list of routes *)

Lemma numeral_no_colon n c : c ∈ list_ascii_of_string (ToString.numeral n) → c ≠ ":"%char.
Proof.
  intros Hc ->. pose proof (ToString.numeral_digits n) as Hd. rewrite Forall_forall in Hd.
  by apply Hd in Hc.
Qed.

Lemma split_at_colon a b p q :
  ":"%char ∉ a → ":"%char ∉ b → a ++ ":"%char :: p = b ++ ":"%char :: q → a = b ∧ p = q.
Proof.
  revert b. induction a as [|x a IH]; intros [|y b] Ha Hb E; injection E; intros; subst; [done|by destruct Hb; left|by destruct Ha; left|].
  apply not_elem_of_cons in Ha as [_ Ha], Hb as [_ Hb]. destruct (IH b Ha Hb) as [-> ->]; done.
Qed.

Lemma make_route_key_inj m p m' p' : make_route_key m p = make_route_key m' p' → m = m' ∧ p = p'.
Proof.
  unfold make_route_key. intros H. apply (f_equal list_ascii_of_string) in H.
  rewrite !list_ascii_app in H. simpl in H. apply split_at_colon in H as [Hn Hp].
  - apply (f_equal string_of_list_ascii) in Hn, Hp. rewrite !string_of_list_ascii_of_string in Hn, Hp.
    split; [by apply ToString.numeral_inj|done].
  - intros Hc. by apply numeral_no_colon in Hc.
  - intros Hc. by apply numeral_no_colon in Hc.
Qed.

(** The last handler registered for exactly this path. *)
Definition exact_handler (l : list route) (m : verb) (p : string) : option Handler :=
  last (omap (λ '(m', p', h), if decide (m' = m ∧ p' = p) then Some h else None)
             (filter (λ '(_, p', _), is_parametric_path p' = false) l)).

(** The first route with parameters whose pattern the path matches. *)
Definition parametric_match (m : verb) (p : string) (x : route) : option (Handler * gmap string string) :=
  let '(m', p', h) := x in
  if decide (is_parametric_path p' = true ∧ m' = m) then
    match regex_compile (pattern_of p') with
    | Ok f => (λ vs, (h, bind_params (param_names_of p') vs)) <$> f p
    | Throw _ => None
    end
  else None.
Definition parametric_handler (l : list route) (m : verb) (p : string) : option (Handler * gmap string string) :=
  head (omap (parametric_match m p) l).

Lemma add_routes_app l k r : add_routes (l ++ k) r = let! r' := add_routes l r in add_routes k r'.
Proof. revert r. induction l as [|[[m p] h] l IH]; intros r; simpl; [done|]. destruct (add_route m p h r); simpl; done. Qed.

Lemma exact_handler_snoc l m' p' h m p :
  exact_handler (l ++ [(m', p', h)]) m p =
    if decide (is_parametric_path p' = false ∧ m' = m ∧ p' = p) then Some h else exact_handler l m p.
Proof.
  unfold exact_handler. rewrite filter_app, omap_app. unfold filter at 2. simpl.
  destruct (decide (is_parametric_path p' = false)) as [Hn|Hn]; simpl.
  - destruct (decide (m' = m ∧ p' = p)) as [He|He]; simpl.
    + rewrite decide_True by done. apply last_snoc.
    + rewrite app_nil_r, decide_False by tauto. done.
  - rewrite app_nil_r, decide_False by tauto. done.
Qed.

Lemma head_app_option {A} (a b : list A) : head (a ++ b) = match head a with Some x => Some x | None => head b end.
Proof. by destruct a. Qed.

Lemma find_parametric_app m p a b :
  find_parametric m p (a ++ b) =
    match find_parametric m p a with Some x => Some x | None => find_parametric m p b end.
Proof.
  induction a as [|i a IH]; simpl; [done|]. case_decide; [done|]. by destruct (compiled_regex i p).
Qed.

Lemma parametric_handler_snoc l x m p :
  parametric_handler (l ++ [x]) m p =
    match parametric_handler l m p with Some y => Some y | None => parametric_match m p x end.
Proof.
  unfold parametric_handler. rewrite omap_app, head_app_option. destruct (head _); [done|]. simpl.
  by destruct (parametric_match m p x).
Qed.

Lemma registry_spec l r :
  add_routes l empty_registry = Ok r →
  ∀ m p, exact_routes_ r !! make_route_key m p = exact_handler l m p ∧
         find_parametric m p (parametric_routes_ r) = parametric_handler l m p.
Proof.
  revert r. induction l as [|[[m' p'] h] l IH] using rev_ind; intros r H m p.
  - simpl in H. injection H as <-. done.
  - rewrite add_routes_app in H. destruct (add_routes l empty_registry) as [r'|]; [|done]. simpl in H.
    specialize (IH r' eq_refl). rewrite exact_handler_snoc, parametric_handler_snoc.
    unfold add_route in H. destruct (is_parametric_path p') eqn:Hp; simpl in H.
    + unfold create_parametric_route in H. destruct (regex_compile (pattern_of p')) as [f|] eqn:Hf; [|done].
      simpl in H. injection H as <-. cbn [exact_routes_ parametric_routes_]. destruct (IH m p) as [IHe IHp].
      rewrite decide_False by (intros [? _]; congruence). rewrite find_parametric_app, IHe, IHp. split; [done|].
      destruct (parametric_handler l m p); [done|]. unfold parametric_match. rewrite Hf, Hp.
      cbn [find_parametric method compiled_regex]. destruct (decide (m' = m)) as [->|Hm].
      * rewrite decide_False by auto. rewrite decide_True by done. by destruct (f p).
      * rewrite decide_True by done. rewrite decide_False by tauto. done.
    + injection H as <-. cbn [exact_routes_ parametric_routes_]. destruct (IH m p) as [IHe IHp]. rewrite IHp. split.
      * destruct (decide (m' = m ∧ p' = p)) as [[-> ->]|Hne].
        -- by rewrite lookup_insert_eq, decide_True.
        -- rewrite lookup_insert_ne, decide_False; [done|tauto|]. intros Hk.
           apply make_route_key_inj in Hk as [-> ->]. tauto.
      * destruct (parametric_handler l m p); [done|]. unfold parametric_match. by rewrite Hp, decide_False by (intros [? _]; congruence).
Qed.

(** C31: Routing.  In a registry built by any sequence of registrations, a
    request gets the handler registered last for exactly its method and path;
    without one, the first route with parameters of its method that its path
    matches, with the values of the parameters; and otherwise
    [std::out_of_range]. *)
Theorem routing_spec (l : list route) (r : RouteRegistry) (m : verb) (p : string) :
  add_routes l empty_registry = Ok r →
  find_handler m p r =
    match exact_handler l m p, parametric_handler l m p with
    | Some h, _ => Ok (h, ∅)
    | None, Some x => Ok x
    | None, None => Throw out_of_range
    end.
Proof.
  intros H. destruct (registry_spec l r H m p) as [He Hp]. unfold find_handler. rewrite He, Hp.
  by destruct (exact_handler l m p), (parametric_handler l m p).
Qed.

(** ** Merging and copying *)

Lemma add_routes_merge l r s :
  add_routes l empty_registry = Ok s → add_routes l r = Ok (merge_move r s).1.
Proof.
  revert s. induction l as [|[[m p] h] l IH] using rev_ind; intros s H.
  - simpl in *. injection H as <-. unfold merge_move, merge_exact. destruct r. simpl.
    by rewrite map_empty_union, app_nil_r.
  - rewrite add_routes_app in *. destruct (add_routes l empty_registry) as [s'|]; [|done].
    rewrite (IH s' eq_refl). simpl in *. unfold add_route in *. destruct (is_parametric_path p).
    + destruct (create_parametric_route m p h) as [i|]; [|done]. simpl in *. injection H as <-.
      unfold merge_move. simpl. by rewrite app_assoc.
    + simpl in *. injection H as <-. unfold merge_move, merge_exact. simpl. by rewrite insert_union_l.
Qed.

Lemma recompile_registered l r :
  add_routes l empty_registry = Ok r → recompile_all (parametric_routes_ r) = Ok (parametric_routes_ r).
Proof.
  revert r. induction l as [|[[m p] h] l IH] using rev_ind; intros r H.
  - simpl in H. by injection H as <-.
  - rewrite add_routes_app in H. destruct (add_routes l empty_registry) as [s|]; [|done].
    specialize (IH s eq_refl). simpl in H. unfold add_route in H. destruct (is_parametric_path p).
    + unfold create_parametric_route in H. destruct (regex_compile (pattern_of p)) as [f|] eqn:Hf; [|done].
      simpl in H. injection H as <-. simpl. clear -IH Hf.
      induction (parametric_routes_ s) as [|i k IHk]; simpl in *.
      * unfold recompile. simpl. by rewrite Hf.
      * destruct (recompile i) as [i'|]; [|done]. simpl in *.
        destruct (recompile_all k) as [k'|]; [|done]. simpl in *. injection IH as -> ->. by rewrite IHk.
    + simpl in H. by injection H as <-.
Qed.

(** Controllers.  Merging a controller's registry into the server's gives
    the registry in which the controller's routes were registered after the
    server's, whether the registry is moved or copied; a moved registry is
    left empty; and a copied registry is the same registry. *)
Theorem merge_controllers (a b : list route) (ra rb : RouteRegistry) :
  add_routes a empty_registry = Ok ra → add_routes b empty_registry = Ok rb →
  ∃ r, add_routes (a ++ b) empty_registry = Ok r ∧
    transfer_routes_to rb ra = (r, empty_registry) ∧ merge_copy ra rb = Ok r ∧ copy_registry r = Ok r.
Proof.
  intros Ha Hb. exists (merge_move ra rb).1.
  assert (add_routes (a ++ b) empty_registry = Ok (merge_move ra rb).1) as Hab.
  { rewrite add_routes_app, Ha. simpl. by apply add_routes_merge. }
  split_and!; [done|done| |].
  - unfold merge_copy. by rewrite (recompile_registered b rb Hb).
  - unfold copy_registry. rewrite (recompile_registered _ _ Hab). by destruct (merge_move ra rb).1.
Qed.

(** ** Templates *)

Definition is_dynamic (x : seg) : bool := match x with Dynamic _ => true | Static _ => false end.

Lemma contains_app c s t : contains c (s +:+ t) = contains c s || contains c t.
Proof. unfold contains. by rewrite string_all_app, negb_andb. Qed.

Lemma plain_no_brace s : string_all plain_char s = true → contains "{" s = false.
Proof.
  unfold contains. intros H. apply negb_false_iff. induction s as [|c s IH]; [done|].
  simpl in *. apply andb_true_iff in H as [Hc Hs]. rewrite IH by done.
  unfold plain_char in Hc. apply andb_true_iff in Hc as [Hc _]. apply negb_true_iff, meta_cases in Hc as [Hb _].
  by rewrite bool_decide_eq_false_2.
Qed.

Lemma template_parametric t : Forall seg_ok t → is_parametric_path (template_text t) = existsb is_dynamic t.
Proof.
  unfold is_parametric_path. induction 1 as [|x t Hx Ht IH]; [done|]. cbn [template_text existsb].
  rewrite !contains_app, IH. destruct x as [s|n]; cbn [seg_text is_dynamic seg_ok] in *.
  - by rewrite (plain_no_brace s).
  - by rewrite !contains_app.
Qed.

Lemma static_template t vs p :
  existsb is_dynamic t = false → instantiate t vs = Some p ↔ vs = [] ∧ p = template_text t.
Proof.
  intros Hd. revert vs p. induction t as [|[s|n] t IH]; intros vs p; simpl in *; [| |done].
  - destruct vs; split; try (by intros [= <-]); try (by intros [_ ->]); by intros [? ?].
  - specialize (IH Hd). split.
    + destruct (instantiate t vs) as [q|] eqn:E; [|done]. intros [= <-]. by apply IH in E as [-> ->].
    + intros [-> ->]. by rewrite (proj2 (IH [] (template_text t))).
Qed.

Lemma template_registered (m : verb) (t : list seg) (h : Handler) :
  Forall seg_ok t →
  ∃ r, add_route m (template_text t) h empty_registry = Ok r ∧
    (∀ p vs, Forall value_ok vs → instantiate t vs = Some p →
       find_handler m p r = Ok (h, bind_params (names t) vs)) ∧
    (∀ p, (∀ vs, Forall value_ok vs → instantiate t vs ≠ Some p) → find_handler m p r = Throw out_of_range) ∧
    (∀ m' p, m' ≠ m → find_handler m' p r = Throw out_of_range).
Proof.
  intros Ht. unfold add_route. rewrite template_parametric by done.
  destruct (existsb is_dynamic t) eqn:Hd.
  - unfold create_parametric_route. rewrite pattern_template by done. simpl. eexists. split; [done|].
    unfold find_handler, param_names_of. simpl. rewrite tokens_template, names_of_tokens by done. split_and!.
    + intros p vs Hv Hi. rewrite decide_False by auto. rewrite match_template by done.
      by rewrite (proj2 (match_path_spec t p vs Ht) (conj Hv Hi)).
    + intros p Hn. rewrite decide_False by auto. rewrite match_template by done.
      destruct (match_path t p) as [vs|] eqn:E; [|done].
      apply match_path_spec in E as [Hv Hi]; [|done]. by destruct (Hn vs Hv).
    + intros m' p Hm. by rewrite decide_True by auto.
  - eexists. split; [done|]. unfold find_handler. simpl. split_and!.
    + intros p vs Hv Hi. apply static_template in Hi as [-> ->]; [|done]. rewrite lookup_insert_eq.
      unfold bind_params. by destruct (names t).
    + intros p Hn. rewrite lookup_insert_ne; [done|]. intros Hk. apply make_route_key_inj in Hk as [_ <-].
      apply (Hn []); [constructor|]. by apply static_template.
    + intros m' p Hm. rewrite lookup_insert_ne; [done|]. by intros [-> _]%make_route_key_inj.
Qed.

(** What a template contributes to a registry with other routes. *)
Lemma template_parametric_match (m : verb) (t : list seg) (h : Handler) (p : string) (vs : list string) :
  Forall seg_ok t → existsb is_dynamic t = true → Forall value_ok vs → instantiate t vs = Some p →
  parametric_match m p (m, template_text t, h) = Some (h, bind_params (names t) vs).
Proof.
  intros Ht Hd Hv Hi. unfold parametric_match. rewrite template_parametric, Hd, decide_True, pattern_template by done.
  rewrite match_template, (proj2 (match_path_spec t p vs Ht) (conj Hv Hi)) by done.
  unfold param_names_of. by rewrite tokens_template, names_of_tokens.
Qed.

(** Templates.  A route whose path consists of literal segments (of
    characters without a meaning in patterns) and parameters is registered
    without an error.  It serves exactly the paths that come from putting a
    non-empty value without slash in the place of each parameter, and the
    handler is given those values under the names of the parameters; every
    other path is [std::out_of_range]. *)
Theorem route_template (m : verb) (t : list seg) (h : Handler) :
  Forall seg_ok t →
  ∃ r, add_route m (template_text t) h empty_registry = Ok r ∧
    (∀ p vs, Forall value_ok vs → instantiate t vs = Some p →
       find_handler m p r = Ok (h, bind_params (names t) vs)) ∧
    (∀ p, (∀ vs, Forall value_ok vs → instantiate t vs ≠ Some p) → find_handler m p r = Throw out_of_range) ∧
    (∀ m' p, m' ≠ m → find_handler m' p r = Throw out_of_range).
Proof. apply template_registered. Qed.

End Registry.

(** ** Witnesses and counterexamples *)

Module HttpExample.
Definition no_regex (pattern : string) : result (string → option (list string)) := Throw regex_error.
Definition user_route : list seg := [Static "users"; Dynamic "id"; Static "posts"; Dynamic "post"].
Definition routes : list (route (Handler := nat)) :=
  [(2%N, "/users/{id}", 1); (2%N, "/users/me", 2); (2%N, "/users/me", 3); (2%N, "/{any}/{id}", 4)].
End HttpExample.

Lemma route_template_witness :
  ∃ r, add_route HttpExample.no_regex 2%N "/users/{id}/posts/{post}" 7 empty_registry = Ok r ∧
    find_handler 2%N "/users/joe/posts/12" r = Ok (7, <["post" := "12"]> (<["id" := "joe"]> ∅)).
Proof.
  destruct (route_template HttpExample.no_regex 2%N HttpExample.user_route 7) as (r & Hr & Hf & _).
  - repeat constructor; done.
  - exists r. split; [exact Hr|]. apply (Hf "/users/joe/posts/12" ["joe"; "12"]); [|reflexivity].
    repeat constructor; done.
Defined.

Lemma routing_spec_witness :
  ∃ r, add_routes HttpExample.no_regex HttpExample.routes empty_registry = Ok r ∧
    find_handler 2%N "/users/me" r = Ok (3, ∅) ∧
    find_handler 2%N "/users/42" r = Ok (1, <["id" := "42"]> ∅) ∧ find_handler 4%N "/users/42" r = Throw out_of_range.
Proof.
  eexists. split; [vm_compute; reflexivity|]. split_and!;
    (rewrite (routing_spec HttpExample.no_regex HttpExample.routes) by (vm_compute; reflexivity)); vm_compute; reflexivity.
Defined.

Lemma merge_controllers_witness :
  ∃ r, add_routes HttpExample.no_regex (HttpExample.routes ++ HttpExample.routes) empty_registry = Ok r ∧
       copy_registry HttpExample.no_regex r = Ok r.
Proof.
  destruct (merge_controllers HttpExample.no_regex HttpExample.routes HttpExample.routes _ _ eq_refl eq_refl)
    as (r & Hr & _ & _ & Hc). by exists r.
Defined.

(** A dot in a path with parameters is not escaped: it matches any character.
    A brace without its partner is a pattern error at registration. *)
Theorem dot_is_wildcard :
  (let! r := add_route HttpExample.no_regex 2%N "/v1.0/{id}" 1 empty_registry in find_handler 2%N "/v1x0/7" r) =
    Ok (1, <["id" := "7"]> ∅) ∧
  (let! r := add_route HttpExample.no_regex 2%N "/v1.0/users" 1 empty_registry in find_handler 2%N "/v1x0/users" r) =
    Throw out_of_range.
Proof. split; vm_compute; reflexivity. Qed.
