(* ===== verification/HttpRequest.v ===== *)
(** * HTTP requests

    [RequestContext] of [components/http/http_server]: a request with its
    parsed headers, its path and query parameters and the cached results of
    parsing its body, and [Server::parse_query_params].  JsonCpp and the
    reading of floating-point numbers are parameters. *)

From S2P Require Import Prelude Gears Bytes HttpRouting.
From stdpp Require Import list gmap strings.

Local Open Scope demi_scope.

(** ** Strings *)

(** [tolower] in the C locale *)
Definition tolower (c : ascii) : ascii :=
  if (65 <=? N_of_ascii c)%N && (N_of_ascii c <=? 90)%N then ascii_of_N (N_of_ascii c + 32) else c.
Fixpoint lower (s : string) : string :=
  match s with EmptyString => EmptyString | String c s' => String (tolower c) (lower s') end.

(** [s.find(needle) != npos] *)
Fixpoint has_sub (needle s : string) : bool :=
  String.prefix needle s || match s with EmptyString => false | String _ s' => has_sub needle s' end.

(** [s.find(c)]: what comes before and after the first [c]. *)
Fixpoint split_first (c : ascii) (s : string) : option (string * string) :=
  match s with
  | EmptyString => None
  | String d s' =>
      if decide (d = c) then Some ("", s')
      else match split_first c s' with Some (a, b) => Some (String d a, b) | None => None end
  end.

(** The pieces [std::getline(stream, piece, delim)] delivers. *)
Fixpoint getlines (delim : ascii) (s : string) : list string :=
  match s with
  | EmptyString => []
  | String c s' =>
      if decide (c = delim) then "" :: getlines delim s'
      else match getlines delim s' with
           | [] => [String c ""]
           | x :: l => String c x :: l
           end
  end.

(** [parse_query_params] and [parse_form_data_body]: the loop over the pieces *)
Definition add_pair (params : gmap string string) (pair : string) : gmap string string :=
  match split_first "=" pair with
  | Some (key, value) => <[key := value]> params
  | None => params
  end.
Definition parse_query_params (query : string) : gmap string string :=
  foldl add_pair ∅ (getlines "&" query).

(** ** Requests and contexts *)

(** What the code reads of [beast]'s request *)
Record Request := mkRequest {
  req_method : verb;
  req_target : string;
  req_version : N;
  req_fields : list (string * string);
  req_body : string;
}.

Record MultipartField := mkMultipart {
  mf_name : string;
  mf_value : string;
  mf_content_type : string;
  mf_filename : string;
}.

Section Context.
Context {Json Double : Type}.
(** [Json::parseFromStream]: a value, a parse error, or an exception *)
Variable parse_json : string → result (option Json).
Variable stod : string → result Double.

Record RequestContext := mkContext {
  request_ : Request;
  cached_json_ : option Json;
  cached_form_data_ : option (gmap string string);
  cached_multipart_data_ : option (list MultipartField);
  path_params_ : gmap string string;
  query_params_ : gmap string string;
  headers_ : gmap string string;
}.

Definition parse_headers (fields : list (string * string)) : gmap string string :=
  foldl (λ hs f, <[lower f.1 := f.2]> hs) ∅ fields.

Definition make_context (req : Request) : RequestContext :=
  mkContext req None None None ∅ ∅ (parse_headers (req_fields req)).

Definition set_path_params (ps : gmap string string) (c : RequestContext) : RequestContext :=
  mkContext (request_ c) (cached_json_ c) (cached_form_data_ c) (cached_multipart_data_ c) ps (query_params_ c) (headers_ c).
Definition set_query_params (qs : gmap string string) (c : RequestContext) : RequestContext :=
  mkContext (request_ c) (cached_json_ c) (cached_form_data_ c) (cached_multipart_data_ c) (path_params_ c) qs (headers_ c).

Definition body (c : RequestContext) : string := req_body (request_ c).
Definition target (c : RequestContext) : string := req_target (request_ c).

Definition path_only (c : RequestContext) : string :=
  match split_first "?" (target c) with Some (p, _) => p | None => target c end.
Definition query_string (c : RequestContext) : string :=
  match split_first "?" (target c) with Some (_, q) => q | None => "" end.

Definition header (name : string) (c : RequestContext) : option string := headers_ c !! lower name.
Definition header_or (name default_value : string) (c : RequestContext) : string :=
  match header name c with Some v => v | None => default_value end.

Definition header_has (name needle : string) (c : RequestContext) : bool :=
  match header name c with Some v => has_sub needle v | None => false end.

Definition is_json (c : RequestContext) : bool := header_has "content-type" "application/json" c.
Definition is_form_data (c : RequestContext) : bool := header_has "content-type" "application/x-www-form-urlencoded" c.
Definition is_multipart (c : RequestContext) : bool := header_has "content-type" "multipart/form-data" c.
Definition accepts_json (c : RequestContext) : bool := header_has "accept" "application/json" c || header_has "accept" "*/*" c.
Definition accepts_html (c : RequestContext) : bool := header_has "accept" "text/html" c || header_has "accept" "*/*" c.
Definition preferred_content_type (c : RequestContext) : string :=
  if accepts_json c then "application/json" else if accepts_html c then "text/html" else "text/plain".

(** *** Bodies: the caches are mutable members *)

Definition parse_json_body (c : RequestContext) : result Json :=
  let! j := parse_json (body c) in
  match j with Some v => Ok v | None => Throw runtime_error end.

Definition json (c : RequestContext) : result (option Json * RequestContext) :=
  if negb (is_json c) then Ok (None, c)
  else match cached_json_ c with
       | Some v => Ok (Some v, c)
       | None =>
           let store v := mkContext (request_ c) v (cached_form_data_ c) (cached_multipart_data_ c) (path_params_ c)
                                    (query_params_ c) (headers_ c) in
           match parse_json_body c with
           | Ok v => Ok (Some v, store (Some v))
           | Throw runtime_error => Ok (None, store None)
           | Throw e => Throw e
           end
       end.

Definition parse_form_data_body (c : RequestContext) : gmap string string := foldl add_pair ∅ (getlines "&" (body c)).

Definition form_data (c : RequestContext) : option (gmap string string) * RequestContext :=
  if negb (is_form_data c) then (None, c)
  else match cached_form_data_ c with
       | Some d => (Some d, c)
       | None =>
           let d := parse_form_data_body c in
           (Some d, mkContext (request_ c) (cached_json_ c) (Some d) (cached_multipart_data_ c) (path_params_ c)
                              (query_params_ c) (headers_ c))
       end.

(** The body is not looked at: no field is ever delivered. *)
Definition parse_multipart_body (c : RequestContext) : list MultipartField := [].
Definition multipart_data (c : RequestContext) : option (list MultipartField) * RequestContext :=
  if negb (is_multipart c) then (None, c)
  else match cached_multipart_data_ c with
       | Some d => (Some d, c)
       | None =>
           let d := parse_multipart_body c in
           (Some d, mkContext (request_ c) (cached_json_ c) (cached_form_data_ c) (Some d) (path_params_ c)
                              (query_params_ c) (headers_ c))
       end.

(** *** Parameters, converted *)

Definition result_option {A} (r : result A) : option A := match r with Ok a => Some a | Throw _ => None end.

Definition convert_int (v : string) : option Z := result_option (stoi v).
Definition convert_long (v : string) : option Z := result_option (stol v).
Definition convert_double (v : string) : option Double := result_option (stod v).
Definition convert_string (v : string) : option string := Some v.

Definition path_param {T} (convert : string → option T) (name : string) (c : RequestContext) : option T :=
  match path_params_ c !! name with Some v => convert v | None => None end.
Definition path_or {T} (convert : string → option T) (name : string) (default_value : T) (c : RequestContext) : T :=
  match path_param convert name c with Some v => v | None => default_value end.
Definition query {T} (convert : string → option T) (name : string) (c : RequestContext) : option T :=
  match query_params_ c !! name with Some v => convert v | None => None end.
Definition query_or {T} (convert : string → option T) (name : string) (default_value : T) (c : RequestContext) : T :=
  match query convert name c with Some v => v | None => default_value end.

(** ** Headers *)

Lemma parse_headers_lookup fields k :
  parse_headers fields !! k = last (omap (λ f, if decide (lower f.1 = k) then Some f.2 else None) fields).
Proof.
  unfold parse_headers. induction fields as [|f l IH] using rev_ind; [done|].
  rewrite foldl_snoc, omap_app. simpl. destruct (decide (lower f.1 = k)) as [<-|Hne].
  - by rewrite lookup_insert_eq, last_snoc.
  - by rewrite lookup_insert_ne, app_nil_r by done.
Qed.

(** The value of a header is that of the last field with the name, in whatever
    case either is written. *)
Theorem header_lookup (req : Request) (name : string) :
  header name (make_context req) =
    last (omap (λ f, if decide (lower f.1 = lower name) then Some f.2 else None) (req_fields req)).
Proof. apply parse_headers_lookup. Qed.

(** ** Bodies *)

(** Asking for a body again gives the same answer and changes nothing. *)
Theorem body_caches (c c' : RequestContext) (v : option Json) :
  json c = Ok (v, c') →
  json c' = Ok (v, c') ∧
  form_data (form_data c).2 = form_data c ∧ multipart_data (multipart_data c).2 = multipart_data c.
Proof.
  intros H. split_and!.
  - unfold json in H |- *. destruct (is_json c) eqn:Hj; simpl in H.
    + destruct (cached_json_ c) as [j|] eqn:Hc.
      * injection H as <- <-. by rewrite Hj, Hc.
      * destruct (parse_json_body c) as [j|[]] eqn:Hp; simplify_eq/=.
        -- change (is_json _) with (is_json c). by rewrite Hj.
        -- change (is_json _) with (is_json c). change (parse_json_body _) with (parse_json_body c). by rewrite Hj, Hp.
    + injection H as <- <-. by rewrite Hj.
  - unfold form_data at 2 3. destruct (is_form_data c) eqn:Hf; cbn [negb snd]; [|unfold form_data; by rewrite Hf].
    destruct (cached_form_data_ c) eqn:Hc; cbn [snd]; unfold form_data; [by rewrite Hf, Hc|].
    change (is_form_data _) with (is_form_data c). by rewrite Hf.
  - unfold multipart_data at 2 3. destruct (is_multipart c) eqn:Hf; cbn [negb snd]; [|unfold multipart_data; by rewrite Hf].
    destruct (cached_multipart_data_ c) eqn:Hc; cbn [snd]; unfold multipart_data; [by rewrite Hf, Hc|].
    change (is_multipart _) with (is_multipart c). by rewrite Hf.
Qed.

End Context.

(** ** Targets and parameters *)

Definition lacks (c : ascii) (s : string) : bool := string_all (λ d, bool_decide (d ≠ c)) s.

Lemma split_first_app c a b : lacks c a = true → split_first c (a +:+ String c b) = Some (a, b).
Proof.
  unfold lacks. induction a as [|d a IH]; simpl; [by rewrite decide_True|].
  intros [Hd Ha]%andb_true_iff. apply bool_decide_eq_true in Hd. rewrite decide_False by done. by rewrite IH.
Qed.

Lemma split_first_lacks c s : lacks c s = true → split_first c s = None.
Proof.
  unfold lacks. induction s as [|d s IH]; simpl; [done|].
  intros [Hd Hs]%andb_true_iff. apply bool_decide_eq_true in Hd. rewrite decide_False by done. by rewrite IH.
Qed.

Lemma split_first_spec c s a b : split_first c s = Some (a, b) → s = a +:+ String c b ∧ lacks c a = true.
Proof.
  unfold lacks. revert a b. induction s as [|d s IH]; intros a b; simpl; [done|]. case_decide as Hd.
  - intros [= <- <-]. by subst.
  - destruct (split_first c s) as [[a' b']|]; [|done]. intros [= <- <-].
    destruct (IH a' b' eq_refl) as [-> Ha]. split; [done|]. simpl. by rewrite bool_decide_eq_true_2.
Qed.

Lemma getlines_piece d x rest :
  lacks d x = true → getlines d (x +:+ String d rest) = x :: getlines d rest.
Proof.
  unfold lacks. induction x as [|c x IH]; simpl; [by rewrite decide_True|].
  intros [Hc Hx]%andb_true_iff. apply bool_decide_eq_true in Hc. rewrite decide_False by done. by rewrite IH.
Qed.

Lemma getlines_last d x : lacks d x = true → x ≠ "" → getlines d x = [x].
Proof.
  unfold lacks. induction x as [|c x IH]; simpl; [done|].
  intros [Hc Hx]%andb_true_iff _. apply bool_decide_eq_true in Hc. rewrite decide_False by done.
  destruct (decide (x = "")) as [->|Hne]; [done|]. by rewrite IH.
Qed.

(** [key=value] pairs joined by [&] *)
Definition pair_text (kv : string * string) : string := kv.1 +:+ "=" +:+ kv.2.
Fixpoint render_query (l : list (string * string)) : string :=
  match l with
  | [] => ""
  | [kv] => pair_text kv
  | kv :: l' => pair_text kv +:+ "&" +:+ render_query l'
  end.

Definition pair_ok (kv : string * string) : Prop :=
  lacks "&" kv.1 = true ∧ lacks "=" kv.1 = true ∧ lacks "&" kv.2 = true.

Lemma lacks_app c a b : lacks c (a +:+ b) = lacks c a && lacks c b.
Proof. apply string_all_app. Qed.

Lemma getlines_render l : Forall pair_ok l → getlines "&" (render_query l) = pair_text <$> l.
Proof.
  induction 1 as [|kv l (Hk & _ & Hv) Hl IH]; [done|].
  assert (lacks "&" (pair_text kv) = true) as Hp.
  { unfold pair_text. by rewrite !lacks_app, Hk, Hv. }
  destruct l as [|kv' l].
  - apply getlines_last; [done|]. destruct kv as [[|] ?]; done.
  - change (render_query (kv :: kv' :: l)) with (pair_text kv +:+ String "&" (render_query (kv' :: l))).
    by rewrite getlines_piece, IH.
Qed.

Lemma add_pairs l m :
  Forall pair_ok l → foldl add_pair m (pair_text <$> l) = foldl (λ ps kv, <[kv.1 := kv.2]> ps) m l.
Proof.
  intros Hl. revert m. induction Hl as [|kv l (_ & He & _) Hl IH]; intros m; [done|]. simpl. rewrite IH.
  f_equal. unfold add_pair, pair_text. change (kv.1 +:+ "=" +:+ kv.2) with (kv.1 +:+ String "=" kv.2).
  by rewrite split_first_app.
Qed.

(** Query strings and form bodies.  Pairs written as [key=value] and joined
    by [&] are read back as they are, a later pair replacing an earlier one
    with its key; keys may not contain [&] and [=], values no [&]. *)
Theorem query_roundtrip (l : list (string * string)) :
  Forall pair_ok l → parse_query_params (render_query l) = foldl (λ ps kv, <[kv.1 := kv.2]> ps) ∅ l.
Proof. intros Hl. unfold parse_query_params. rewrite getlines_render by done. by apply add_pairs. Qed.

Lemma query_roundtrip_witness :
  parse_query_params "a=1&b=x=y&a=2" = <["a" := "2"]> (<["b" := "x=y"]> (<["a" := "1"]> ∅)).
Proof.
  apply (query_roundtrip [("a", "1"); ("b", "x=y"); ("a", "2")]). repeat constructor; done.
Defined.

(** The target is its path, and its query after the first question mark. *)
Theorem target_split {Json : Type} (c : RequestContext (Json := Json)) :
  lacks "?" (path_only c) = true ∧
  (target c = path_only c +:+ "?" +:+ query_string c ∨ target c = path_only c ∧ query_string c = "").
Proof.
  unfold path_only, query_string. destruct (split_first "?" (target c)) as [[a b]|] eqn:E.
  - destruct (split_first_spec _ _ _ _ E) as [-> Ha]. split; [done|by left].
  - split; [|by right]. clear -E. unfold lacks. induction (target c) as [|d s IH]; [done|]. simpl in *.
    case_decide; [done|]. rewrite bool_decide_eq_true_2 by done. apply IH. by destruct (split_first "?" s) as [[]|].
Qed.
