(* ===== verification/HttpServer.v ===== *)
(** * The HTTP server

    [ResponseFactory] and [Server] of [components/http/http_server]: how a
    request becomes a response, which callbacks are called on the way, and how
    a session answers the requests of a connection.  [beast]'s response type is
    an interface with the laws its documentation gives; the stream is the
    sequence of what it delivers.  What a member function does besides
    returning is a list of events: the callbacks it calls, the coroutines it
    spawns on the [io_context], the runs of that context. *)

From S2P Require Import Prelude Gears Bytes HttpRouting HttpRequest.
From stdpp Require Import list gmap strings.

Local Open Scope demi_scope.

(** ** Responses *)

(** [boost::beast::http::response<string_body>] *)
Class BeastResponse (R : Type) := {
  make_response : N → N → R;
  set_field : string → string → R → R;
  set_body : string → R → R;
  prepare_payload : R → R;
  res_status : R → N;
  res_version : R → N;
  res_field : string → R → option string;
  res_body : R → string;
  keep_alive : R → bool;
}.

(** The documented behaviour the factory relies on: [set] replaces a field,
    [prepare_payload] adjusts Content-Length and Transfer-Encoding only. *)
Class BeastResponseLaws (R : Type) `{BeastResponse R} := {
  make_status : ∀ s v, res_status (make_response s v) = s;
  make_version : ∀ s v, res_version (make_response s v) = v;
  set_field_status : ∀ n x r, res_status (set_field n x r) = res_status r;
  set_field_version : ∀ n x r, res_version (set_field n x r) = res_version r;
  set_field_same : ∀ n x r, res_field n (set_field n x r) = Some x;
  set_field_other : ∀ n n' x r, n ≠ n' → res_field n' (set_field n x r) = res_field n' r;
  set_field_body : ∀ n x r, res_body (set_field n x r) = res_body r;
  set_body_status : ∀ b r, res_status (set_body b r) = res_status r;
  set_body_version : ∀ b r, res_version (set_body b r) = res_version r;
  set_body_field : ∀ b n r, res_field n (set_body b r) = res_field n r;
  set_body_body : ∀ b r, res_body (set_body b r) = b;
  prepare_status : ∀ r, res_status (prepare_payload r) = res_status r;
  prepare_version : ∀ r, res_version (prepare_payload r) = res_version r;
  prepare_field : ∀ n r, n ≠ "Content-Length" → n ≠ "Transfer-Encoding" →
    res_field n (prepare_payload r) = res_field n r;
  prepare_body : ∀ r, res_body (prepare_payload r) = res_body r;
}.

Create Rewrite HintDb beast.
#[export] Hint Rewrite @make_status @make_version @set_field_status @set_field_version @set_field_same @set_field_body
  @set_body_status @set_body_version @set_body_field @set_body_body @prepare_status @prepare_version @prepare_body
  using (typeclasses eauto) : beast.

Module ResponseFactory.
Section Factory.
Context {R : Type} `{BeastResponse R}.

Definition server_name : string := "demiplane/http".

Definition ok (body content_type : string) (version : N) : R :=
  prepare_payload (set_body body (set_field "Server" server_name
    (set_field "Content-Type" content_type (make_response 200 version)))).
Definition json (body : string) (version : N) : R := ok body "application/json" version.
Definition created (body content_type : string) (version : N) : R :=
  prepare_payload (set_body body (set_field "Server" server_name
    (set_field "Content-Type" content_type (make_response 201 version)))).
Definition not_found (message : string) (version : N) : R :=
  prepare_payload (set_body message (set_field "Server" server_name
    (set_field "Content-Type" "text/plain" (make_response 404 version)))).
Definition bad_request (message : string) (version : N) : R :=
  prepare_payload (set_body message (set_field "Server" server_name
    (set_field "Content-Type" "text/plain" (make_response 400 version)))).
Definition internal_error (message : string) (version : N) : R :=
  prepare_payload (set_body message (set_field "Server" server_name
    (set_field "Content-Type" "text/plain" (make_response 500 version)))).
Definition redirect (location : string) (version : N) : R :=
  prepare_payload (set_field "Server" server_name (set_field "Location" location (make_response 302 version))).
Definition no_content (version : N) : R :=
  prepare_payload (set_field "Server" server_name (make_response 204 version)).
Definition unauthorized (message : string) (version : N) : R :=
  prepare_payload (set_body message (set_field "Server" server_name
    (set_field "Content-Type" "text/plain" (make_response 401 version)))).
Definition forbidden (message : string) (version : N) : R :=
  prepare_payload (set_body message (set_field "Server" server_name
    (set_field "Content-Type" "text/plain" (make_response 403 version)))).
Definition custom (status : N) (body content_type : string) (version : N) : R :=
  prepare_payload (set_body body (set_field "Server" server_name
    (set_field "Content-Type" content_type (make_response status version)))).

End Factory.
End ResponseFactory.

(** ** The server *)

Inductive kind : Type := OnStart | OnStop | OnRequest | OnResponse | OnError.

Inductive event : Type :=
  | Called (k : kind) (i : nat)           (* callback [i] was called *)
  | Spawned (k : kind) (i : nat)          (* asynchronous callback [i] was spawned *)
  | AcceptLoop (port : Z)                 (* the accepting coroutine was spawned *)
  | RunLoop                               (* [ioc_.run()] ran until it was stopped *)
  | StopLoop                              (* [ioc_.stop()] *)
  | ControllerShutdown (i : nat).

Section ServerModel.
Context {Json R : Type} `{BeastResponse R}.
Context {Middleware Async : Type}.
Variable other_regex : string → result (string → option (list string)).

(** A handler's coroutine returns a response or throws. *)
Definition ContextHandler : Type := RequestContext (Json := Json) → result R.

(** A callback returns or throws a [std::exception]. *)
Definition callback (A : Type) : Type := A → option exn.

(** A controller is what [configure_routes] and [initialize] register. *)
Definition Controller : Type := list (route (Handler := ContextHandler)).

Record Server := mkServer {
  registry_ : RouteRegistry (Handler := ContextHandler);
  middlewares_ : list Middleware;
  controllers_ : list Controller;
  running_ : bool;
  start_callbacks_ : list (callback unit);
  stop_callbacks_ : list (callback unit);
  request_callbacks_ : list (callback Request);
  response_callbacks_ : list (callback R);
  error_callbacks_ : list (callback exn);
  async_start_callbacks_ : list Async;
  async_stop_callbacks_ : list Async;
  async_request_callbacks_ : list Async;
  async_response_callbacks_ : list Async;
  async_error_callbacks_ : list Async;
}.

Definition new_server : Server := mkServer empty_registry [] [] false [] [] [] [] [] [] [] [] [] [].

Definition with_registry (s : Server) (r : RouteRegistry) (cs : list Controller) : Server :=
  mkServer r (middlewares_ s) cs (running_ s) (start_callbacks_ s) (stop_callbacks_ s) (request_callbacks_ s)
    (response_callbacks_ s) (error_callbacks_ s) (async_start_callbacks_ s) (async_stop_callbacks_ s)
    (async_request_callbacks_ s) (async_response_callbacks_ s) (async_error_callbacks_ s).
Definition with_running (s : Server) (b : bool) : Server :=
  mkServer (registry_ s) (middlewares_ s) (controllers_ s) b (start_callbacks_ s) (stop_callbacks_ s) (request_callbacks_ s)
    (response_callbacks_ s) (error_callbacks_ s) (async_start_callbacks_ s) (async_stop_callbacks_ s)
    (async_request_callbacks_ s) (async_response_callbacks_ s) (async_error_callbacks_ s).
Definition with_sync (s : Server) (a b : list (callback unit)) (c : list (callback Request)) (d : list (callback R))
    (e : list (callback exn)) : Server :=
  mkServer (registry_ s) (middlewares_ s) (controllers_ s) (running_ s) a b c d e (async_start_callbacks_ s)
    (async_stop_callbacks_ s) (async_request_callbacks_ s) (async_response_callbacks_ s) (async_error_callbacks_ s).
Definition with_async (s : Server) (a b c d e : list Async) : Server :=
  mkServer (registry_ s) (middlewares_ s) (controllers_ s) (running_ s) (start_callbacks_ s) (stop_callbacks_ s)
    (request_callbacks_ s) (response_callbacks_ s) (error_callbacks_ s) a b c d e.

(** *** Registration *)

Definition use_middleware (m : Middleware) (s : Server) : Server :=
  mkServer (registry_ s) (middlewares_ s ++ [m]) (controllers_ s) (running_ s) (start_callbacks_ s) (stop_callbacks_ s)
    (request_callbacks_ s) (response_callbacks_ s) (error_callbacks_ s) (async_start_callbacks_ s)
    (async_stop_callbacks_ s) (async_request_callbacks_ s) (async_response_callbacks_ s) (async_error_callbacks_ s).
Definition on_server_start (cb : callback unit) (s : Server) : Server :=
  with_sync s (start_callbacks_ s ++ [cb]) (stop_callbacks_ s) (request_callbacks_ s) (response_callbacks_ s) (error_callbacks_ s).
Definition on_server_stop (cb : callback unit) (s : Server) : Server :=
  with_sync s (start_callbacks_ s) (stop_callbacks_ s ++ [cb]) (request_callbacks_ s) (response_callbacks_ s) (error_callbacks_ s).
Definition on_request (cb : callback Request) (s : Server) : Server :=
  with_sync s (start_callbacks_ s) (stop_callbacks_ s) (request_callbacks_ s ++ [cb]) (response_callbacks_ s) (error_callbacks_ s).
Definition on_response (cb : callback R) (s : Server) : Server :=
  with_sync s (start_callbacks_ s) (stop_callbacks_ s) (request_callbacks_ s) (response_callbacks_ s ++ [cb]) (error_callbacks_ s).
Definition on_error (cb : callback exn) (s : Server) : Server :=
  with_sync s (start_callbacks_ s) (stop_callbacks_ s) (request_callbacks_ s) (response_callbacks_ s) (error_callbacks_ s ++ [cb]).
Definition on_server_start_async (cb : Async) (s : Server) : Server :=
  with_async s (async_start_callbacks_ s ++ [cb]) (async_stop_callbacks_ s) (async_request_callbacks_ s)
    (async_response_callbacks_ s) (async_error_callbacks_ s).
Definition on_server_stop_async (cb : Async) (s : Server) : Server :=
  with_async s (async_start_callbacks_ s) (async_stop_callbacks_ s ++ [cb]) (async_request_callbacks_ s)
    (async_response_callbacks_ s) (async_error_callbacks_ s).
Definition on_request_async (cb : Async) (s : Server) : Server :=
  with_async s (async_start_callbacks_ s) (async_stop_callbacks_ s) (async_request_callbacks_ s ++ [cb])
    (async_response_callbacks_ s) (async_error_callbacks_ s).
Definition on_response_async (cb : Async) (s : Server) : Server :=
  with_async s (async_start_callbacks_ s) (async_stop_callbacks_ s) (async_request_callbacks_ s)
    (async_response_callbacks_ s ++ [cb]) (async_error_callbacks_ s).
Definition on_error_async (cb : Async) (s : Server) : Server :=
  with_async s (async_start_callbacks_ s) (async_stop_callbacks_ s) (async_request_callbacks_ s)
    (async_response_callbacks_ s) (async_error_callbacks_ s ++ [cb]).

Definition merge_controller_routes (c : RouteRegistry) (s : Server) : RouteRegistry := (transfer_routes_to c (registry_ s)).1.

Definition add_controller (c : Controller) (s : Server) : result Server :=
  let! r := add_routes other_regex c empty_registry in
  Ok (with_registry s (merge_controller_routes r s) (controllers_ s ++ [c])).

(** *** Callbacks *)

Fixpoint call_all {A} (k : kind) (i : nat) (cbs : list (callback A)) (a : A) (on_throw : exn → list event) : list event :=
  match cbs with
  | [] => []
  | cb :: cbs' => Called k i :: match cb a with Some e => on_throw e | None => [] end ++ call_all k (S i) cbs' a on_throw
  end.
Definition spawn_all (k : kind) (cbs : list Async) : list event := Spawned k <$> seq 0 (length cbs).

(** An exception in an error callback is only logged. *)
Definition trigger_error_callbacks (s : Server) (e : exn) : list event :=
  call_all OnError 0 (error_callbacks_ s) e (λ _, []) ++ spawn_all OnError (async_error_callbacks_ s).
Definition trigger_start_callbacks (s : Server) : list event :=
  call_all OnStart 0 (start_callbacks_ s) tt (trigger_error_callbacks s) ++ spawn_all OnStart (async_start_callbacks_ s).
Definition trigger_stop_callbacks (s : Server) : list event :=
  call_all OnStop 0 (stop_callbacks_ s) tt (trigger_error_callbacks s) ++ spawn_all OnStop (async_stop_callbacks_ s).
Definition trigger_request_callbacks (s : Server) (req : Request) : list event :=
  call_all OnRequest 0 (request_callbacks_ s) req (trigger_error_callbacks s) ++ spawn_all OnRequest (async_request_callbacks_ s).
Definition trigger_response_callbacks (s : Server) (res : R) : list event :=
  call_all OnResponse 0 (response_callbacks_ s) res (trigger_error_callbacks s) ++ spawn_all OnResponse (async_response_callbacks_ s).

(** *** Life cycle *)

Definition listen (port : Z) (s : Server) : Server * list event :=
  let s' := with_running s true in (s', trigger_start_callbacks s' ++ [AcceptLoop port]).
Definition stop (s : Server) : Server * list event := (with_running s false, [StopLoop]).
Definition run (s : Server) : list event :=
  RunLoop :: trigger_stop_callbacks s ++ (ControllerShutdown <$> seq 0 (length (controllers_ s))).
Definition destroy_server (s : Server) : list event := if running_ s then (stop s).2 else [].

(** *** Requests *)

Definition handle_request (s : Server) (req : Request) : list event * result R :=
  let started := trigger_request_callbacks s req in
  let target := req_target req in
  let path := match split_first "?" target with Some (p, _) => p | None => target end in
  let query := match split_first "?" target with Some (_, q) => q | None => "" end in
  match find_handler (req_method req) path (registry_ s) with
  | Throw _ =>
      let response := ResponseFactory.not_found "404 Not Found" (req_version req) in
      (started ++ trigger_response_callbacks s response, Ok response)
  | Ok (handler, path_params) =>
      let ctx := set_query_params (parse_query_params query) (set_path_params path_params (make_context req)) in
      match middlewares_ s with
      | [] =>
          match handler ctx with
          | Ok response => (started ++ trigger_response_callbacks s response, Ok response)
          | Throw e => (started, Throw e)
          end
      | _ =>
          match handler ctx with
          | Ok response_result => (started ++ trigger_response_callbacks s response_result, Ok response_result)
          | Throw e => (started, Throw e)
          end
      end
  end.

(** What the stream delivers, and whether the response could be written. *)
Inductive read : Type := ReadRequest (req : Request) (written : bool) | EndOfStream | ReadError.
(** How the session stands: waiting for the stream, closed for sending, left. *)
Inductive ending : Type := Waiting | ShutDown | Returned.

Fixpoint session (s : Server) (reads : list read) : list event * list R * ending :=
  match reads with
  | [] => ([], [], Waiting)
  | EndOfStream :: _ => ([], [], ShutDown)
  | ReadError :: _ => ([], [], Returned)
  | ReadRequest req written :: reads' =>
      match handle_request s req with
      | (ev, Throw e) => (ev ++ trigger_error_callbacks s e, [], ShutDown)
      | (ev, Ok res) =>
          if negb written then (ev ++ trigger_error_callbacks s runtime_error, [], ShutDown)
          else if keep_alive res then
            let '(ev', out, e) := session s reads' in (ev ++ ev', res :: out, e)
          else (ev, [res], ShutDown)
      end
  end.

End ServerModel.

(** ** Responses of the factory *)

Section FactoryLaws.
Context {R : Type} `{BeastResponseLaws R}.
Import ResponseFactory.

(** Every response with a body is [custom] with its status; [custom] has the
    status, the version, the content type and the body it was given. *)
Theorem factory_responses (status version : N) (text content_type : string) :
  ok text content_type version = custom 200 text content_type version ∧
  json text version = custom 200 text "application/json" version ∧
  created text content_type version = custom 201 text content_type version ∧
  bad_request text version = custom 400 text "text/plain" version ∧
  unauthorized text version = custom 401 text "text/plain" version ∧
  forbidden text version = custom 403 text "text/plain" version ∧
  not_found text version = custom 404 text "text/plain" version ∧
  internal_error text version = custom 500 text "text/plain" version ∧
  let r := custom status text content_type version in
  res_status r = status ∧ res_version r = version ∧ res_body r = text ∧
  res_field "Content-Type" r = Some content_type ∧ res_field "Server" r = Some server_name.
Proof.
  do 8 (split; [done|]). unfold custom. cbv zeta. rewrite !prepare_field by done.
  autorewrite with beast. rewrite set_field_other by done. autorewrite with beast. done.
Qed.

(** A redirect has the status 302 and the location. *)
Lemma redirect_response (location : string) (version : N) :
  let r := redirect location version in
  res_status r = 302%N ∧ res_field "Location" r = Some location ∧ res_field "Server" r = Some server_name.
Proof.
  unfold redirect. cbv zeta. rewrite !prepare_field by done. autorewrite with beast.
  rewrite set_field_other by done. by autorewrite with beast.
Qed.
End FactoryLaws.

(** ** Requests reach their handlers *)

Section ServerLaws.
Context {Json R : Type} `{BeastResponse R}.
Context {Middleware Async : Type}.
Variable other_regex : string → result (string → option (list string)).
Abbreviation Server := (Server (Json := Json) (R := R) (Middleware := Middleware) (Async := Async)).
Abbreviation Controller := (Controller (Json := Json) (R := R)).

(** Every request with a handler is passed to it in a context with the path
    parameters and the query parameters; the callbacks frame the call. *)
Lemma handle_request_found (s : Server) (req : Request) (h : ContextHandler) (ps : gmap string string) :
  let '(path, query) := match split_first "?" (req_target req) with
                        | Some (p, q) => (p, q) | None => (req_target req, "") end in
  find_handler (req_method req) path (registry_ s) = Ok (h, ps) →
  let ctx := set_query_params (parse_query_params query) (set_path_params ps (make_context req)) in
  handle_request s req =
    (trigger_request_callbacks s req ++
       match h ctx with Ok res => trigger_response_callbacks s res | Throw _ => [] end, h ctx).
Proof.
  unfold handle_request. destruct (split_first "?" (req_target req)) as [[p q]|]; intros ->; cbv zeta.
  - destruct (middlewares_ s), (h _); by rewrite ?app_nil_r.
  - destruct (middlewares_ s), (h _); by rewrite ?app_nil_r.
Qed.

(** What a program does with a server before it listens. *)
Inductive registration : Type :=
  | AddController (c : Controller)
  | UseMiddleware (m : Middleware)
  | StartCallback (cb : callback unit) | StopCallback (cb : callback unit)
  | RequestCallback (cb : callback Request) | ResponseCallback (cb : callback R) | ErrorCallback (cb : callback exn)
  | AsyncStart (cb : Async) | AsyncStop (cb : Async)
  | AsyncRequest (cb : Async) | AsyncResponse (cb : Async) | AsyncError (cb : Async).

Definition register (r : registration) (s : Server) : result Server :=
  match r with
  | AddController c => add_controller other_regex c s
  | UseMiddleware m => Ok (use_middleware m s)
  | StartCallback cb => Ok (on_server_start cb s)
  | StopCallback cb => Ok (on_server_stop cb s)
  | RequestCallback cb => Ok (on_request cb s)
  | ResponseCallback cb => Ok (on_response cb s)
  | ErrorCallback cb => Ok (on_error cb s)
  | AsyncStart cb => Ok (on_server_start_async cb s)
  | AsyncStop cb => Ok (on_server_stop_async cb s)
  | AsyncRequest cb => Ok (on_request_async cb s)
  | AsyncResponse cb => Ok (on_response_async cb s)
  | AsyncError cb => Ok (on_error_async cb s)
  end.

Fixpoint configure (rs : list registration) (s : Server) : result Server :=
  match rs with
  | [] => Ok s
  | r :: rs' => let! s' := register r s in configure rs' s'
  end.

Definition controllers_of : list registration → list Controller :=
  omap (λ r, match r with AddController c => Some c | _ => None end).
Definition request_callbacks_of : list registration → list (callback Request) :=
  omap (λ r, match r with RequestCallback cb => Some cb | _ => None end).
Definition response_callbacks_of : list registration → list (callback R) :=
  omap (λ r, match r with ResponseCallback cb => Some cb | _ => None end).
Definition async_request_of : list registration → list Async :=
  omap (λ r, match r with AsyncRequest cb => Some cb | _ => None end).
Definition async_response_of : list registration → list Async :=
  omap (λ r, match r with AsyncResponse cb => Some cb | _ => None end).

(** The registrations only add to the lists of callbacks, in order, and to the
    routes. *)
Lemma configure_spec rs s s' l :
  add_routes other_regex l empty_registry = Ok (registry_ s) → configure rs s = Ok s' →
  add_routes other_regex (l ++ concat (controllers_of rs)) empty_registry = Ok (registry_ s') ∧
  request_callbacks_ s' = request_callbacks_ s ++ request_callbacks_of rs ∧
  response_callbacks_ s' = response_callbacks_ s ++ response_callbacks_of rs ∧
  async_request_callbacks_ s' = async_request_callbacks_ s ++ async_request_of rs ∧
  async_response_callbacks_ s' = async_response_callbacks_ s ++ async_response_of rs.
Proof.
  revert s l. induction rs as [|r rs IH]; intros s l Hl Hc; simpl in *.
  { injection Hc as <-. by rewrite !app_nil_r. }
  destruct (register r s) as [s1|] eqn:E; [|done]. simpl in Hc. destruct r; simpl in E.
  { unfold add_controller in E. destruct (add_routes other_regex c empty_registry) as [rg|] eqn:Hr; [|done].
    injection E as <-. simpl. rewrite app_assoc. apply (IH _ (l ++ c)) in Hc; [done|].
    simpl. rewrite add_routes_app, Hl. simpl. by apply add_routes_merge. }
  all: injection E as <-; apply (IH _ l) in Hc as (H1 & H2 & H3 & H4 & H5); [|done];
    simpl in *; rewrite H2, H3, H4, H5; by rewrite <- ?app_assoc.
Qed.

(** Callbacks that do not throw are called one after the other. *)
Lemma call_all_quiet {A} k i (cbs : list (callback A)) a on_throw :
  Forall (λ cb, cb a = None) cbs → call_all k i cbs a on_throw = Called k <$> seq i (length cbs).
Proof. intros Hc. revert i. induction Hc as [|cb cbs E _ IH]; intros i; [done|]. simpl. by rewrite E, IH. Qed.

(** C30: from the wire to the handler.  A server on which controllers, callbacks
    and middleware were registered in any order answers a request for an instance
    of a registered route with parameters with what the handler returns, provided
    that no route was registered for exactly that path, that no route with
    parameters registered earlier matches it, that the literal segments of the
    route are plain in a regular expression, and that the path values and the query
    pairs are well formed (no separators in them).  The handler is called once, with
    the request, the values of the path parameters, the parameters of the query
    string and the headers; before it every registered request callback, after it
    every response callback if it did not throw.  If the callbacks do not throw,
    that is each of them exactly once, in the order of registration, the
    asynchronous ones spawned after the others. *)
Theorem request_reaches_handler (rs : list registration) (s : Server) (l1 l2 : list (route (Handler := ContextHandler)))
    (m : verb) (t : list seg) (h : ContextHandler) (vs : list string) (p : string)
    (qs : list (string * string)) (req : Request) :
  configure rs new_server = Ok s → concat (controllers_of rs) = l1 ++ (m, template_text t, h) :: l2 →
  Forall seg_ok t → existsb is_dynamic t = true → Forall value_ok vs → instantiate t vs = Some p →
  exact_handler (l1 ++ (m, template_text t, h) :: l2) m p = None → parametric_handler other_regex l1 m p = None →
  lacks "?" p = true → Forall pair_ok qs →
  req_method req = m → req_target req = p +:+ "?" +:+ render_query qs →
  ∃ ctx, handle_request s req =
      (trigger_request_callbacks s req ++
         match h ctx with Ok res => trigger_response_callbacks s res | Throw _ => [] end, h ctx) ∧
    request_ ctx = req ∧ path_params_ ctx = bind_params (names t) vs ∧
    query_params_ ctx = foldl (λ ps kv, <[kv.1 := kv.2]> ps) ∅ qs ∧ headers_ ctx = parse_headers (req_fields req) ∧
    ∀ res, h ctx = Ok res → Forall (λ cb, cb req = None) (request_callbacks_of rs) →
      Forall (λ cb, cb res = None) (response_callbacks_of rs) →
      handle_request s req =
        ((Called OnRequest <$> seq 0 (length (request_callbacks_of rs))) ++
         (Spawned OnRequest <$> seq 0 (length (async_request_of rs))) ++
         (Called OnResponse <$> seq 0 (length (response_callbacks_of rs))) ++
         (Spawned OnResponse <$> seq 0 (length (async_response_of rs))), Ok res).
Proof.
  intros Hs Hcs Ht Hd Hv Hi He Hp1 Hp Hq Hm Htg.
  destruct (configure_spec rs new_server s [] eq_refl Hs) as (Hr & C1 & C2 & C3 & C4). simpl in *. rewrite Hcs in Hr.
  destruct (registry_spec other_regex _ _ Hr m p) as [Re Rp]. rewrite He in Re.
  assert (parametric_handler other_regex (l1 ++ (m, template_text t, h) :: l2) m p =
          Some (h, bind_params (names t) vs)) as Hf.
  { unfold parametric_handler in *. rewrite omap_app, head_app_option, Hp1. cbn [omap list_omap].
    by rewrite (template_parametric_match other_regex m t h p vs). }
  rewrite Hf in Rp.
  assert (find_handler m p (registry_ s) = Ok (h, bind_params (names t) vs)) as Hfind.
  { unfold find_handler. by rewrite Re, Rp. }
  pose proof (handle_request_found s req h (bind_params (names t) vs)) as Hreq.
  rewrite Htg, Hm in Hreq. change (p +:+ "?" +:+ render_query qs) with (p +:+ String "?" (render_query qs)) in Hreq.
  rewrite split_first_app in Hreq by done. specialize (Hreq Hfind). cbv zeta in Hreq.
  eexists. split; [exact Hreq|]. cbn [set_query_params set_path_params request_ path_params_ query_params_ headers_].
  split_and!; [done|done| |done|].
  - unfold parse_query_params. rewrite getlines_render by done. by apply add_pairs.
  - intros res Hres Hcq Hcr. rewrite Hreq, Hres. f_equal.
    unfold trigger_request_callbacks, trigger_response_callbacks, spawn_all.
    rewrite C1, C2, C3, C4, !call_all_quiet by done. by rewrite <- !app_assoc.
Qed.

(** ** Sessions *)

(** The callbacks of a series of requests *)
Definition request_events (s : Server) (reqs : list Request) : list event :=
  concat ((λ req, (handle_request s req).1) <$> reqs).

(** Requests that are answered and keep the connection alive are answered in
    the order they were read, one response each; then the session goes on. *)
Theorem session_in_order (s : Server) (reqs : list Request) (resps : list R) (tail : list read) :
  Forall2 (λ req res, (handle_request s req).2 = Ok res ∧ keep_alive res = true) reqs resps →
  session s (((λ req, ReadRequest req true) <$> reqs) ++ tail) =
    let '(ev, out, e) := session s tail in (request_events s reqs ++ ev, resps ++ out, e).
Proof.
  unfold request_events. induction 1 as [|req res reqs resps [Hr Hk] _ IH]; cbn [fmap list_fmap app concat session].
  - by destruct (session s tail) as [[ev out] e].
  - destruct (handle_request s req) as [ev1 r1]. simpl in Hr. subst r1. cbn [negb fst]. rewrite Hk, IH.
    destruct (session s tail) as [[ev out] e]. by rewrite app_assoc.
Qed.

(** A request whose handler throws gets no response: the error callbacks are
    called and the connection is closed. *)
Theorem throwing_handler_unanswered (s : Server) (req : Request) (written : bool) (e : exn) (tail : list read) :
  (handle_request s req).2 = Throw e →
  session s (ReadRequest req written :: tail) =
    ((handle_request s req).1 ++ trigger_error_callbacks s e, [], ShutDown).
Proof. intros Hr. simpl. destruct (handle_request s req) as [ev r]. simpl in Hr. by subst r. Qed.

(** Middleware is registered and never called: requests are handled as if it
    were not there. *)
Theorem middleware_ignored (mw : Middleware) (s : Server) (req : Request) :
  handle_request (use_middleware mw s) req = handle_request s req.
Proof.
  unfold handle_request. cbn [registry_ use_middleware middlewares_].
  change (trigger_request_callbacks (use_middleware mw s) req) with (trigger_request_callbacks s req).
  destruct (find_handler _ _ _) as [[h ps]|]; [|done].
  destruct (middlewares_ s); simpl; done.
Qed.

(** The asynchronous stop callbacks are spawned after the last run of the
    [io_context], by [run] itself: they are not executed. *)
Theorem stop_callbacks_after_run (s : Server) (i : nat) :
  (i < length (async_stop_callbacks_ s))%nat →
  ∃ before after, run s = before ++ Spawned OnStop i :: after ∧ RunLoop ∈ before ∧ (RunLoop ∉ after).
Proof.
  intros Hi. unfold run, trigger_stop_callbacks, spawn_all.
  destruct (list_elem_of_split (Spawned OnStop <$> seq 0 (length (async_stop_callbacks_ s))) (Spawned OnStop i)) as (a & b & E).
  { apply list_elem_of_fmap_2, elem_of_seq. lia. }
  exists (RunLoop :: call_all OnStop 0 (stop_callbacks_ s) tt (trigger_error_callbacks s) ++ a),
    (b ++ (ControllerShutdown <$> seq 0 (length (controllers_ s)))). split; [|split; [by left|]].
  - rewrite E, <- !app_assoc. simpl. by rewrite <- !app_assoc.
  - intros [Hb|Hc]%elem_of_app.
    + assert (RunLoop ∈ Spawned OnStop <$> seq 0 (length (async_stop_callbacks_ s))) as Hin.
      { rewrite E. apply elem_of_app. right. by right. }
      by apply list_elem_of_fmap_1 in Hin as (? & ? & _).
    + by apply list_elem_of_fmap_1 in Hc as (? & ? & _).
Qed.

End ServerLaws.

(** ** A concrete response type and witnesses *)

Module ServerExample.
Record response := mkResponse { r_status : N; r_version : N; r_fields : gmap string string; r_body : string }.

#[export] Instance response_ops : BeastResponse response := {|
  make_response s v := mkResponse s v ∅ "";
  set_field n x r := mkResponse (r_status r) (r_version r) (<[n := x]> (r_fields r)) (r_body r);
  set_body b r := mkResponse (r_status r) (r_version r) (r_fields r) b;
  prepare_payload r :=
    mkResponse (r_status r) (r_version r)
      (<["Content-Length" := ToString.numeral (N.of_nat (String.length (r_body r)))]> (r_fields r)) (r_body r);
  res_status := r_status;
  res_version := r_version;
  res_field n r := r_fields r !! n;
  res_body := r_body;
  keep_alive r := (11 <=? r_version r)%N;
|}.

#[export] Instance response_laws : BeastResponseLaws response.
Proof.
  split; try done; simpl; intros.
  - apply lookup_insert_eq.
  - by apply lookup_insert_ne.
  - by apply lookup_insert_ne.
Qed.

(** Greets the user of the path in the language of the query. *)
Definition greet (ctx : RequestContext (Json := unit)) : result response :=
  Ok (ResponseFactory.ok (query_or convert_string "lang" "en" ctx +:+ ":" +:+ path_or convert_string "id" "" ctx) "text/plain" 11%N).
Definition teapot (ctx : RequestContext (Json := unit)) : result response := Throw runtime_error.
Definition user_template : list seg := [Static "users"; Dynamic "id"].
Definition controller : list (route (Handler := RequestContext (Json := unit) → result response)) :=
  [(2%N, "/users", teapot); (2%N, "/users/{id}", greet); (2%N, "/{any}/{id}", teapot)].
Definition request : Request := mkRequest 2%N "/users/joe?x=1&lang=de" 11%N [("Host", "h")] "".
End ServerExample.
Import ServerExample.

(** A callback that logs and returns. *)
Definition silent {A} : callback A := λ _, None.
Definition registrations : list (registration (Json := unit) (R := ServerExample.response) (Middleware := unit) (Async := unit)) :=
  [RequestCallback silent; AddController ServerExample.controller; ResponseCallback silent; UseMiddleware tt;
   RequestCallback silent; AsyncResponse tt].

Lemma request_reaches_handler_witness :
  ∃ s ctx res, configure HttpExample.no_regex registrations new_server = Ok s ∧
    ServerExample.greet ctx = Ok res ∧
    handle_request s ServerExample.request =
      ([Called OnRequest 0; Called OnRequest 1; Called OnResponse 0; Spawned OnResponse 0], Ok res) ∧
    path_params_ ctx = <["id" := "joe"]> ∅ ∧ query_params_ ctx = <["lang" := "de"]> (<["x" := "1"]> ∅).
Proof.
  eexists.
  destruct (request_reaches_handler HttpExample.no_regex registrations _
    [(2%N, "/users", ServerExample.teapot)] [(2%N, "/{any}/{id}", ServerExample.teapot)]
    2%N ServerExample.user_template ServerExample.greet ["joe"] "/users/joe" [("x", "1"); ("lang", "de")]
    ServerExample.request eq_refl eq_refl) as (ctx & _ & _ & Hp & Hq & _ & Hr).
  - repeat constructor; done.
  - reflexivity.
  - repeat constructor; done.
  - reflexivity.
  - vm_compute; reflexivity.
  - vm_compute; reflexivity.
  - reflexivity.
  - repeat constructor; done.
  - reflexivity.
  - reflexivity.
  - exists ctx. eexists. split; [reflexivity|]. split; [reflexivity|].
    split; [|split; [exact Hp|exact Hq]]. apply Hr; [reflexivity|repeat constructor|repeat constructor].
Defined.

(** The whole exchange, evaluated. *)
Example greeting :
  (let! s := configure HttpExample.no_regex registrations new_server in
   let! r := (handle_request s ServerExample.request).2 in Ok (res_status r, res_body r)) = Ok (200%N, "de:joe").
Proof. vm_compute. reflexivity. Qed.
