(* ===== verification/HttpControllers.v ===== *)
(** * HTTP controllers and the accepting coroutine

    [HttpController] ([http_server/include/controller.hpp]): how a member
    function becomes a handler, the registering members, [configure_routes]; the
    whole of [Server::add_controller] with what it leaves behind when a
    controller throws; and the coroutine [Server::listen] spawns.  The handlers
    hold the controller by a shared pointer, so binding needs one to exist. *)

From stdpp Require Import gmap.
From S2P Require Import Prelude Gears Bytes HttpRouting HttpRequest HttpServer.

Local Open Scope demi_scope.

Section Controllers.
Context {Json R : Type} `{BeastResponse R}.
Context {Middleware Async : Type}.
Variable other_regex : string → result (string → option (list string)).
Variables (verb_get verb_post verb_put verb_delete : verb).
(** What a derived controller keeps. *)
Context {C : Type}.

Abbreviation Server := (Server (Json := Json) (R := R) (Middleware := Middleware) (Async := Async)).
Abbreviation ContextHandler := (ContextHandler (Json := Json) (R := R)).
Abbreviation RequestContext := (RequestContext (Json := Json)).
Abbreviation route := (route (Handler := ContextHandler)).

(** [self] is the derived object; [shared] says that a [std::shared_ptr] owns it,
    which [shared_from_this] needs. *)
Record HttpController := mkController {
  self : C;
  shared : bool;
  ctl_registry_ : RouteRegistry (Handler := ContextHandler);
}.

Definition route_count_of (c : HttpController) : nat := route_count (ctl_registry_ c).

(** The four kinds of member function; an [AsyncResponse] that is awaited returns
    a response or throws. *)
Inductive member : Type :=
  | SyncByValue (method : C → RequestContext → result R)
  | SyncConstRef (method : C → RequestContext → result R)
  | AsyncByValue (method : C → RequestContext → result R)
  | AsyncConstRef (method : C → RequestContext → result R).

Definition shared_from_this (c : HttpController) : result C := if shared c then Ok (self c) else Throw bad_weak_ptr.

(** [co_return (self.get()->*method)(std::move(ctx))] *)
Definition bind_sync_method (c : HttpController) (method : C → RequestContext → result R) : result ContextHandler :=
  let! self := shared_from_this c in Ok (λ ctx, method self ctx).
Definition bind_sync_method_const_ref (c : HttpController) (method : C → RequestContext → result R) : result ContextHandler :=
  let! self := shared_from_this c in Ok (λ ctx, method self ctx).
(** [co_return co_await (self.get()->*method)(std::move(ctx))] *)
Definition bind_async_method (c : HttpController) (method : C → RequestContext → result R) : result ContextHandler :=
  let! self := shared_from_this c in Ok (λ ctx, let! res := method self ctx in Ok res).
Definition bind_async_method_const_ref (c : HttpController) (method : C → RequestContext → result R) : result ContextHandler :=
  let! self := shared_from_this c in Ok (λ ctx, let! res := method self ctx in Ok res).

(** Overload resolution on the type of the member pointer. *)
Definition bind_member (c : HttpController) (m : member) : result ContextHandler :=
  match m with
  | SyncByValue f => bind_sync_method c f
  | SyncConstRef f => bind_sync_method_const_ref c f
  | AsyncByValue f => bind_async_method c f
  | AsyncConstRef f => bind_async_method_const_ref c f
  end.

Inductive verb_name : Type := VGet | VPost | VPut | VDelete.
Definition verb_code (v : verb_name) : verb :=
  match v with VGet => verb_get | VPost => verb_post | VPut => verb_put | VDelete => verb_delete end.

Definition with_ctl_registry (c : HttpController) (r : RouteRegistry) : HttpController := mkController (self c) (shared c) r.

(** [Get], [Post], [Put] and [Delete] with a member function: the handler is bound
    before the route is added. *)
Definition register_member (v : verb_name) (path : string) (m : member) (c : HttpController) : result HttpController :=
  let! h := bind_member c m in
  let! r := match v with
            | VGet => Get other_regex verb_get path h (ctl_registry_ c)
            | VPost => Post other_regex verb_post path h (ctl_registry_ c)
            | VPut => Put other_regex verb_put path h (ctl_registry_ c)
            | VDelete => Delete other_regex verb_delete path h (ctl_registry_ c)
            end in
  Ok (with_ctl_registry c r).

(** [configure_routes] of a derived class: its registrations in order, with the
    controller as it stands when one of them throws. *)
Definition registration : Type := verb_name * string * member.
Fixpoint configure_routes (rs : list registration) (c : HttpController) : HttpController * option exn :=
  match rs with
  | [] => (c, None)
  | (v, p, m) :: rs' =>
      match register_member v p m c with
      | Ok c' => configure_routes rs' c'
      | Throw e => (c, Some e)
      end
  end.

(** What a registration amounts to for a shared controller. *)
Definition member_handler (x : C) (m : member) : ContextHandler :=
  match m with
  | SyncByValue f | SyncConstRef f => λ ctx, f x ctx
  | AsyncByValue f | AsyncConstRef f => λ ctx, let! res := f x ctx in Ok res
  end.
Definition method_of (m : member) : C → RequestContext → result R :=
  match m with SyncByValue f | SyncConstRef f | AsyncByValue f | AsyncConstRef f => f end.
Definition routes_of (x : C) (rs : list registration) : list route :=
  (λ '(v, p, m), (verb_code v, p, member_handler x m)) <$> rs.

(** [Server::add_controller]: the controller is kept first, then configured,
    initialised ([initialize_]) and its routes are taken over. *)
Definition add_controller_full (rs : list registration) (initialize_ : C → option exn) (c : HttpController) (s : Server)
    : Server * HttpController * option exn :=
  let s1 := with_registry s (registry_ s) (controllers_ s ++ [routes_of (self c) rs]) in
  match configure_routes rs c with
  | (c1, Some e) => (s1, c1, Some e)
  | (c1, None) =>
      match initialize_ (self c1) with
      | Some e => (s1, c1, Some e)
      | None =>
          let '(r, rest) := transfer_routes_to (ctl_registry_ c1) (registry_ s1) in
          (with_registry s1 r (controllers_ s1), with_ctl_registry c1 rest, None)
      end
  end.

(** ** What is registered *)

(** Every kind of member function is called on the controller with the context. *)
Lemma member_handler_call x m ctx : member_handler x m ctx = method_of m x ctx.
Proof. destruct m as [f|f|f|f]; cbn; [done|done|..]; by destruct (f x ctx). Qed.

Lemma bind_member_shared c m : shared c = true → bind_member c m = Ok (member_handler (self c) m).
Proof.
  intros Hs. unfold bind_member, bind_sync_method, bind_sync_method_const_ref, bind_async_method, bind_async_method_const_ref,
    shared_from_this. rewrite Hs. by destruct m.
Qed.

(** Without a shared pointer nothing can be registered: in the constructor of a
    controller, or with a controller on the stack, the first registration throws. *)
Lemma unshared_registers_nothing c r rs :
  shared c = false → configure_routes (r :: rs) c = (c, Some bad_weak_ptr).
Proof.
  intros Hs. destruct r as [[v p] m]. cbn. unfold register_member, bind_member, bind_sync_method, bind_sync_method_const_ref,
    bind_async_method, bind_async_method_const_ref, shared_from_this. rewrite Hs. by destruct m.
Qed.

Lemma register_member_shared v p m c :
  shared c = true →
  register_member v p m c =
    (let! r := add_route other_regex (verb_code v) p (member_handler (self c) m) (ctl_registry_ c) in
     Ok (with_ctl_registry c r)).
Proof. intros Hs. unfold register_member. rewrite bind_member_shared by done. by destruct v. Qed.

(** A shared controller registers its routes in order, up to the first one whose
    pattern does not compile. *)
Lemma configure_routes_shared rs c :
  shared c = true →
  match add_routes other_regex (routes_of (self c) rs) (ctl_registry_ c) with
  | Ok r => configure_routes rs c = (with_ctl_registry c r, None)
  | Throw e => ∃ c', configure_routes rs c = (c', Some e) ∧ self c' = self c
  end.
Proof.
  revert c. induction rs as [|[[v p] m] rs IH]; intros c Hs; [by destruct c|].
  cbn [routes_of fmap list_fmap add_routes configure_routes]. rewrite register_member_shared by done.
  destruct (add_route other_regex (verb_code v) p _ _) as [r|e]; cbn [rbind]; [|by exists c].
  specialize (IH (with_ctl_registry c r) Hs). cbn [self ctl_registry_ with_ctl_registry] in IH.
  destruct (add_routes other_regex _ r) as [r'|e]; exact IH.
Qed.

(** Adding a shared controller whose patterns compile and whose [initialize]
    returns is what the server model calls [add_controller] with the controller's
    routes; the controller is left without routes.  When it throws, the server
    keeps the controller, so that it is shut down at the end, and none of its
    routes. *)
Theorem add_controller_outcome rs init c s :
  shared c = true → ctl_registry_ c = empty_registry →
  match add_routes other_regex (routes_of (self c) rs) empty_registry, init (self c) with
  | Ok _, None =>
      ∃ s', add_controller other_regex (routes_of (self c) rs) s = Ok s' ∧
        add_controller_full rs init c s = (s', c, None)
  | r, _ =>
      ∃ s' c' e, add_controller_full rs init c s = (s', c', Some e) ∧
        match r with Throw e' => e = e' | Ok _ => init (self c) = Some e end ∧
        registry_ s' = registry_ s ∧ controllers_ s' = controllers_ s ++ [routes_of (self c) rs] ∧
        ControllerShutdown (length (controllers_ s)) ∈ run s'
  end.
Proof.
  intros Hs Hc. pose proof (configure_routes_shared rs c Hs) as Hr. rewrite Hc in Hr.
  assert (∀ s' : Server, controllers_ s' = controllers_ s ++ [routes_of (self c) rs] →
    ControllerShutdown (length (controllers_ s)) ∈ run s') as Hrun.
  { intros s' Hs'. unfold run. right. apply elem_of_app. right. rewrite Hs', length_app, Nat.add_1_r, seq_S, fmap_app.
    apply elem_of_app. right. left. }
  unfold add_controller_full, add_controller. destruct (add_routes other_regex _ empty_registry) as [r|e].
  - rewrite Hr. cbn [self with_ctl_registry]. destruct (init (self c)) as [e|].
    + eexists _, _, e. split; [done|]. split; [done|]. split; [done|]. split; [done|]. by apply Hrun.
    + cbn [rbind]. eexists. split; [done|]. unfold merge_controller_routes, transfer_routes_to, merge_move, with_registry.
      cbn. destruct c; cbn in *; by rewrite Hc.
  - destruct Hr as (c' & -> & _). eexists _, c', e. split; [done|]. split; [done|]. split; [done|]. split; [done|].
    by apply Hrun.
Qed.
End Controllers.

(** ** The accepting coroutine *)

(** What [async_accept] completes with. *)
Inductive accepted (Conn : Type) : Type :=
  | Connection (sock : Conn)
  | AcceptAborted                 (* operation_aborted *)
  | AcceptFailed.                 (* any other error *)
Arguments Connection {Conn} sock.
Arguments AcceptAborted {Conn}.
Arguments AcceptFailed {Conn}.

Section Accept.
Context {Conn : Type}.

(** The loop of [Server::listen] over what happens: [running_] when it is tested,
    and the result of the accept.  The sockets for which a session is spawned, and
    whether the loop has ended. *)
Fixpoint accept_loop (l : list (bool * accepted Conn)) : list Conn * bool :=
  match l with
  | [] => ([], false)
  | (false, _) :: _ => ([], true)
  | (true, AcceptAborted) :: _ => ([], true)
  | (true, AcceptFailed) :: l' => accept_loop l'
  | (true, Connection sock) :: l' => let '(socks, ended) := accept_loop l' in (sock :: socks, ended)
  end.

Definition goes_on (x : bool * accepted Conn) : bool :=
  match x with (true, AcceptAborted) => false | (b, _) => b end.

(** Every connection accepted while the server runs gets one session, in order,
    whatever accepts fail in between; nothing is accepted afterwards. *)
Lemma accept_loop_sessions l rest :
  forallb goes_on l = true →
  accept_loop (l ++ rest) =
    (omap (λ x, match x.2 with Connection c => Some c | _ => None end) l ++ (accept_loop rest).1, (accept_loop rest).2).
Proof.
  induction l as [|[b x] l IH]; cbn; [by destruct (accept_loop rest)|]. intros [Hx Hl]%andb_true_iff.
  destruct b, x; cbn in *; try done; rewrite IH by done; done.
Qed.
Lemma accept_loop_ends x rest : goes_on x = false → accept_loop (x :: rest) = ([], true).
Proof. destruct x as [[] []]; done. Qed.
End Accept.

(** [Server::run]: the threads that run the loop, the caller among them. *)
Definition io_threads (thread_count_ : nat) : nat := length (seq 1 (thread_count_ - 1)) + 1.
Lemma io_threads_count n : io_threads n = Nat.max 1 n.
Proof. unfold io_threads. rewrite length_seq. lia. Qed.
