(* ===== verification/ThreadPool.v ===== *)
(** * The thread pool

    [common/multithread/thread_pool]: a pool of worker threads that take tasks
    from a priority queue, with workers created on demand and retired when
    idle.  The concurrent program has any number of callers of [enqueue], the
    workers, the cleanup thread and a caller of [shutdown].  A step is what one
    thread does between two points where another may run: [enqueue] holds the
    queue mutex for several steps, a worker takes a task in one.  What the
    clock and the heap decide (which of the largest tasks is the top, whether a
    worker has been idle long enough) is in the label. *)

From S2P Require Import Prelude Bytes.
From stdpp Require Import list relations sets.

Local Open Scope demi_scope.

(** ** Configuration and tasks *)

Record ThreadPoolConfig := mkTPC {
  min_threads : nat;
  max_threads : nat;
  idle_timeout : N;            (* milliseconds *)
  cleanup_interval : N;
  enable_cleanup_thread : bool;
}.

Definition config_ok (c : ThreadPoolConfig) : bool :=
  (0 <? min_threads c) && (0 <? max_threads c) && (min_threads c <=? max_threads c).

Definition default_config : ThreadPoolConfig := mkTPC 2 4 30000 15000 true.
Definition minimal : ThreadPoolConfig := mkTPC 1 1 1000 1000 false.
Definition basic : ThreadPoolConfig := mkTPC 2 4 500 1000 true.
Definition high_performance : ThreadPoolConfig := mkTPC 4 16 10000 30000 true.
Definition quick_cleanup : ThreadPoolConfig := mkTPC 2 8 200 500 true.

(** A task is known by the order in which it was enqueued. *)
Record EnqueuedTask := mkTask { task_id : nat; priority_ : N }.

#[export] Instance EnqueuedTask_eq_dec : EqDecision EnqueuedTask.
Proof. solve_decision. Defined.

(** [operator<] *)
Definition task_lt (lhs rhs : EnqueuedTask) : bool := (priority_ lhs <? priority_ rhs)%N.

(** [std::priority_queue]: the top is an element that is not less than any
    other; which one of several is not specified. *)
Definition is_top (q : list EnqueuedTask) (t : EnqueuedTask) : bool := forallb (λ u, negb (task_lt t u)) q.

(** ** The state *)

(** A worker thread: in its loop; with a task, before it counts as active;
    executing; done executing; out of the loop; ended. *)
Inductive worker_pc : Type :=
  | WLoop | WHas (t : EnqueuedTask) | WExec (t : EnqueuedTask) | WDone | WExit | WEnded.

(** [safe_thread]: [valid] is cleared by the last step of the thread. *)
Definition valid (w : worker_pc) : bool := match w with WEnded => false | _ => true end.

(** Inside [enqueue], after the push, with the mutex held: before the count of
    invalid workers, before erasing them, and in the test for a new worker
    before [is_full] reads the number of workers, before [free_threads] reads it
    again, and before [free_threads] reads the number of active ones, with the
    number of workers it has read. *)
Inductive enqueue_pc : Type := ECount | EErase | ECreate | EFree | EActive (n : nat).

(** The cleanup thread: not cleaning up, or about to erase. *)
Inductive cleanup_pc : Type := CWait | CErase.

Record Pool := mkPool {
  stop_ : bool;
  tasks_ : list EnqueuedTask;
  workers_ : list worker_pc;
  active_threads_ : nat;
  section : option enqueue_pc;     (* who holds [task_queue_mutex_] *)
  cleanup : cleanup_pc;
  enqueued : nat;                  (* ghost: tasks enqueued so far *)
  executed : list EnqueuedTask;    (* ghost: tasks executed so far *)
}.

Definition size (p : Pool) : nat := length (workers_ p).
Definition is_running (p : Pool) : bool := negb (stop_ p).
Definition active_threads (p : Pool) : nat := active_threads_ p.
(** [size() - active_threads()] in [std::size_t]: the values of two separate
    reads, between which other threads run. *)
Definition free_threads (size_read active_read : nat) : Z := to_unsigned 64 (Z.of_nat size_read - Z.of_nat active_read).
Definition is_full (c : ThreadPoolConfig) (p : Pool) : bool := size p =? max_threads c.

Definition with_workers (p : Pool) (ws : list worker_pc) : Pool :=
  mkPool (stop_ p) (tasks_ p) ws (active_threads_ p) (section p) (cleanup p) (enqueued p) (executed p).
Definition with_section (p : Pool) (s : option enqueue_pc) : Pool :=
  mkPool (stop_ p) (tasks_ p) (workers_ p) (active_threads_ p) s (cleanup p) (enqueued p) (executed p).
Definition with_cleanup (p : Pool) (c : cleanup_pc) : Pool :=
  mkPool (stop_ p) (tasks_ p) (workers_ p) (active_threads_ p) (section p) c (enqueued p) (executed p).

Definition create_worker (p : Pool) : Pool := with_workers p (workers_ p ++ [WLoop]).

Definition initial (c : ThreadPoolConfig) : Pool := Nat.iter (min_threads c) create_worker (mkPool false [] [] 0 None CWait 0 []).

(** The constructor *)
Definition make_pool (c : ThreadPoolConfig) : result Pool :=
  if negb (config_ok c) then Throw invalid_argument
  else Ok (initial c).

(** ** Cleaning up *)

(** [needs_cleanup], a [std::uint8_t] the count is added to *)
Definition needs_cleanup (p : Pool) : bool :=
  negb (length (filter (λ w, valid w = false) (workers_ p)) mod 256 =? 0).
(** [std::erase_if]: the threads have ended, joining them does not block. *)
Definition erase_invalid (p : Pool) : Pool := with_workers p (filter (λ w, valid w = true) (workers_ p)).

(** ** Steps *)

Inductive label : Type :=
  | LEnqueue (prio : N)                    (* a caller enters [enqueue] and pushes *)
  | LSection                               (* the caller goes on *)
  | LWorker (i choice : nat) (idle : bool) (* worker [i] takes a step *)
  | LCleanup                               (* the cleanup thread takes a step *)
  | LStop                                  (* [shutdown] sets [stop_] *)
  | LJoin.                                 (* [workers_.write()->clear()] has joined all *)

(** [enqueue], from locking the mutex to the push: refused when stopped. *)
Definition enqueue (prio : N) (p : Pool) : result Pool :=
  if stop_ p then Throw runtime_error
  else Ok (mkPool (stop_ p) (mkTask (enqueued p) prio :: tasks_ p) (workers_ p) (active_threads_ p) (Some ECount)
                  (cleanup p) (S (enqueued p)) (executed p)).

Definition enqueue_rest (c : ThreadPoolConfig) (e : enqueue_pc) (p : Pool) : Pool :=
  match e with
  | ECount => with_section p (Some (if needs_cleanup p then EErase else ECreate))
  | EErase => with_section (erase_invalid p) (Some ECreate)
  | ECreate => with_section p (if is_full c p then None else Some EFree)
  | EFree => with_section p (Some (EActive (size p)))
  | EActive n => with_section (if (free_threads n (active_threads p) =? 0)%Z then create_worker p else p) None
  end.

(** The critical section of a worker. *)
Definition worker_section (c : ThreadPoolConfig) (i choice : nat) (idle : bool) (p : Pool) : option Pool :=
  if stop_ p && bool_decide (tasks_ p = []) then Some (with_workers p (<[i := WExit]> (workers_ p)))
  else match tasks_ p with
       | [] =>
           let should_terminate := (min_threads c <? size p) && idle in
           Some (if should_terminate then with_workers p (<[i := WExit]> (workers_ p)) else p)
       | _ =>
           match tasks_ p !! choice with
           | Some t =>
               if is_top (tasks_ p) t then
                 Some (mkPool (stop_ p) (delete choice (tasks_ p)) (<[i := WHas t]> (workers_ p)) (active_threads_ p)
                              (section p) (cleanup p) (enqueued p) (executed p))
               else None
           | None => None
           end
       end.

Definition worker_step (c : ThreadPoolConfig) (i choice : nat) (idle : bool) (p : Pool) : option Pool :=
  match workers_ p !! i with
  | Some WLoop => match section p with Some _ => None | None => worker_section c i choice idle p end
  | Some (WHas t) =>
      Some (mkPool (stop_ p) (tasks_ p) (<[i := WExec t]> (workers_ p)) (S (active_threads_ p)) (section p) (cleanup p)
                   (enqueued p) (executed p))
  | Some (WExec t) =>
      Some (mkPool (stop_ p) (tasks_ p) (<[i := WDone]> (workers_ p)) (active_threads_ p) (section p) (cleanup p)
                   (enqueued p) (executed p ++ [t]))
  | Some WDone =>
      Some (mkPool (stop_ p) (tasks_ p) (<[i := WLoop]> (workers_ p)) (pred (active_threads_ p)) (section p) (cleanup p)
                   (enqueued p) (executed p))
  | Some WExit => Some (with_workers p (<[i := WEnded]> (workers_ p)))
  | Some WEnded | None => None
  end.

Definition cleanup_step (c : ThreadPoolConfig) (p : Pool) : option Pool :=
  if negb (enable_cleanup_thread c) then None
  else match cleanup p with
       | CWait => if stop_ p then None else Some (with_cleanup p (if needs_cleanup p then CErase else CWait))
       | CErase => Some (with_cleanup (erase_invalid p) CWait)
       end.

Definition step (c : ThreadPoolConfig) (p : Pool) (l : label) : option Pool :=
  match l with
  | LEnqueue prio =>
      match section p, enqueue prio p with None, Ok p' => Some p' | _, _ => None end
  | LSection => match section p with Some e => Some (enqueue_rest c e p) | None => None end
  | LWorker i choice idle => worker_step c i choice idle p
  | LCleanup => cleanup_step c p
  | LStop =>
      match section p with
      | Some _ => None
      | None =>
          Some (mkPool true (tasks_ p) (workers_ p) (active_threads_ p) (section p) (cleanup p) (enqueued p) (executed p))
      end
  | LJoin =>
      if stop_ p && forallb (λ w, negb (valid w)) (workers_ p) then Some (with_workers p []) else None
  end.

Definition pool_step (c : ThreadPoolConfig) (p p' : Pool) : Prop := ∃ l, step c p l = Some p'.
Definition reachable (c : ThreadPoolConfig) (p : Pool) : Prop := ∃ p0, make_pool c = Ok p0 ∧ rtc (pool_step c) p0 p.

(** Runs a schedule. *)
Fixpoint run (c : ThreadPoolConfig) (ls : list label) (p : Pool) : option Pool :=
  match ls with [] => Some p | l :: ls' => match step c p l with Some p' => run c ls' p' | None => None end end.

(** ** The invariant *)

Definition held (w : worker_pc) : list EnqueuedTask := match w with WHas t | WExec t => [t] | _ => [] end.
Definition active (w : worker_pc) : list unit := match w with WExec _ | WDone => [()] | _ => [] end.

(** The workers that have not ended *)
Definition running_workers (p : Pool) : nat := length (filter (λ w, valid w = true) (workers_ p)).

Record pool_inv (c : ThreadPoolConfig) (p : Pool) : Prop := {
  (* every task is queued, with one worker, or executed *)
  inv_tasks : task_id <$> (tasks_ p ++ (workers_ p ≫= held) ++ executed p) ≡ₚ seq 0 (enqueued p);
  inv_active : active_threads_ p = length (workers_ p ≫= active);
  inv_size : size p ≤ max_threads c;
  (* the test for a new worker: while the mutex is held no worker is added *)
  inv_room : ∀ e, section p = Some e → e = EFree ∨ (∃ n, e = EActive n) → size p < max_threads c;
  inv_read : ∀ n, section p = Some (EActive n) → running_workers p ≤ n;
}.

Lemma bind_insert {A} (f : worker_pc → list A) ws i w w' :
  ws !! i = Some w → (<[i := w']> ws ≫= f) ++ f w ≡ₚ (ws ≫= f) ++ f w'.
Proof.
  intros Hi. rewrite <- (take_drop_middle ws i w Hi) at 2.
  rewrite insert_take_drop by (by eapply lookup_lt_Some). rewrite !bind_app. simpl. solve_Permutation.
Qed.

Lemma bind_filter {A} (f : worker_pc → list A) (P : worker_pc → Prop) `{∀ w, Decision (P w)} ws :
  (∀ w, ¬ P w → f w = []) → filter P ws ≫= f = ws ≫= f.
Proof.
  intros Hf. induction ws as [|w ws IH]; [done|]. rewrite filter_cons.
  case_decide as Hw; rewrite !bind_cons, ?IH; [done|]. by rewrite (Hf w Hw).
Qed.

Lemma erase_inv c p : pool_inv c p → pool_inv c (erase_invalid p).
Proof.
  intros [Ht Ha Hs Hm Hrd]. split; simpl.
  - rewrite bind_filter; [done|]. by intros [].
  - rewrite bind_filter; [done|]. by intros [].
  - unfold size in *. simpl. etrans; [apply length_filter|done].
  - intros e He Hp. eapply Nat.le_lt_trans; [apply length_filter|]. by apply (Hm e).
  - intros n Hn. unfold running_workers. simpl. etrans; [apply length_filter|]. by apply Hrd.
Qed.

Lemma valid_insert ws i w w' :
  ws !! i = Some w → (valid w' = true → valid w = true) →
  length (filter (λ w, valid w = true) (<[i := w']> ws)) ≤ length (filter (λ w, valid w = true) ws).
Proof.
  intros Hi Hv. rewrite <- (take_drop_middle ws i w Hi) at 2.
  rewrite insert_take_drop by (by eapply lookup_lt_Some). rewrite !filter_app, !filter_cons, !length_app.
  repeat case_decide; simpl; tauto || lia.
Qed.

(** A step of a worker leaves the test for a new worker as it is. *)
Lemma worker_core c p p' i w w' :
  pool_inv c p → workers_ p !! i = Some w → (valid w' = true → valid w = true) →
  workers_ p' = <[i := w']> (workers_ p) → section p' = section p →
  task_id <$> (tasks_ p' ++ (workers_ p' ≫= held) ++ executed p') ≡ₚ seq 0 (enqueued p') →
  active_threads_ p' = length (workers_ p' ≫= active) → pool_inv c p'.
Proof.
  intros [_ _ Hs Hm Hrd] Hi Hv Hw Hse Ht Ha. split; [done|done|..]; unfold size, running_workers in *;
    rewrite ?Hse, Hw, ?length_insert; [done|done|].
  intros n Hn. etrans; [by apply (valid_insert _ i w)|]. by apply Hrd.
Qed.

(** A worker that changes its state without a task changing hands *)
Lemma move_inv c p i w w' :
  workers_ p !! i = Some w → held w = held w' → active w = active w' → (valid w' = true → valid w = true) →
  pool_inv c p → pool_inv c (with_workers p (<[i := w']> (workers_ p))).
Proof.
  intros Hi Hh Ha Hv Hinv. apply (worker_core c p _ i w w'); [done..| |]; destruct Hinv as [Ht Hac _ _ _]; simpl.
  - rewrite <- Ht. pose proof (bind_insert held _ i w w' Hi) as Hp. rewrite Hh in Hp.
    apply Permutation_app_inv_r in Hp. by rewrite Hp.
  - pose proof (bind_insert active _ i w w' Hi) as Hp. rewrite Ha in Hp. apply Permutation_app_inv_r in Hp.
    by rewrite Hp.
Qed.

Lemma create_inv c p : pool_inv c p → size p < max_threads c → pool_inv c (with_section (create_worker p) None).
Proof.
  intros [Ht Ha Hs _ _] Hl. unfold create_worker. split; simpl; [| | |done..].
  - rewrite bind_app. simpl. by rewrite app_nil_r.
  - rewrite bind_app. simpl. by rewrite app_nil_r.
  - unfold size in *. simpl. rewrite length_app. simpl. lia.
Qed.

Lemma create_idle_inv c p : pool_inv c p → size p < max_threads c → section p = None → pool_inv c (create_worker p).
Proof. intros Hi Hl Hse. pose proof (create_inv c p Hi Hl) as H. destruct p. simpl in Hse. by subst. Qed.

Lemma section_inv c p s :
  pool_inv c p → (∀ e, s = Some e → e = EFree ∨ (∃ n, e = EActive n) → size p < max_threads c) →
  (∀ n, s = Some (EActive n) → running_workers p ≤ n) → pool_inv c (with_section p s).
Proof. by intros [Ht Ha Hs _ _]. Qed.
Lemma cleanup_inv c p s : pool_inv c p → pool_inv c (with_cleanup p s).
Proof. by intros [Ht Ha Hs Hm Hrd]. Qed.

Lemma enqueue_inv c p prio p' : pool_inv c p → enqueue prio p = Ok p' → pool_inv c p'.
Proof.
  intros [Ht Ha Hs _ _] H. unfold enqueue in H. destruct (stop_ p); [done|]. injection H as <-.
  split; [|done|done|by intros e [= <-] [|[]]|done].
  cbn [tasks_ workers_ executed enqueued app]. rewrite fmap_cons, seq_S, Ht. cbn [task_id].
  rewrite Nat.add_0_l. by rewrite <- Permutation_cons_append.
Qed.

Lemma enqueue_rest_inv c e p : pool_inv c p → section p = Some e → pool_inv c (enqueue_rest c e p).
Proof.
  intros H He. destruct e as [| | | |n]; simpl.
  - apply section_inv; [done|..]; destruct (needs_cleanup p); try done; by intros e [= <-] [|[]].
  - apply section_inv; [by apply erase_inv| |done]. by intros e [= <-] [|[]].
  - apply section_inv; [done| |by destruct (is_full c p)]. unfold is_full. destruct (_ =? _) eqn:Hf; [done|].
    apply Nat.eqb_neq in Hf. pose proof (inv_size c p H). lia.
  - apply section_inv; [done|intros; apply (inv_room c p H EFree); auto|]. intros n [= <-]. apply length_filter.
  - destruct (_ =? _)%Z; [|by apply section_inv]. apply create_inv; [done|].
    apply (inv_room c p H (EActive n)); eauto.
Qed.

Lemma pop_inv c p i choice t :
  pool_inv c p → workers_ p !! i = Some WLoop → tasks_ p !! choice = Some t →
  pool_inv c (mkPool (stop_ p) (delete choice (tasks_ p)) (<[i := WHas t]> (workers_ p)) (active_threads_ p) (section p)
                     (cleanup p) (enqueued p) (executed p)).
Proof.
  intros Hinv Hi Hc. apply (worker_core c p _ i WLoop (WHas t)); [done..| |]; destruct Hinv as [Ht Ha _ _ _];
    cbn [tasks_ workers_ executed enqueued active_threads_].
  - rewrite <- Ht. pose proof (bind_insert held _ i WLoop (WHas t) Hi) as Hp. simpl in Hp. rewrite app_nil_r in Hp.
    apply fmap_Permutation. rewrite Hp. pose proof (delete_Permutation (tasks_ p) choice t Hc) as Hd.
    etrans; [|by apply Permutation_app_tail; symmetry]. simpl. solve_Permutation.
  - pose proof (bind_insert active _ i WLoop (WHas t) Hi) as Hp. rewrite !app_nil_r in Hp. by rewrite Hp.
Qed.

Lemma worker_inv c i choice idle p p' : pool_inv c p → worker_step c i choice idle p = Some p' → pool_inv c p'.
Proof.
  intros Hinv. unfold worker_step. destruct (workers_ p !! i) as [w|] eqn:Hi; [|done].
  destruct w as [|t|t| | |].
  - destruct (section p) eqn:Hse; [done|]. unfold worker_section. destruct (stop_ p && bool_decide (tasks_ p = [])).
    { intros [= <-]. by apply (move_inv c p i WLoop). }
    destruct (tasks_ p) as [|t0 q] eqn:Hq.
    { destruct (_ && _); intros [= <-]; [by apply (move_inv c p i WLoop)|done]. }
    rewrite <- Hq. destruct (tasks_ p !! choice) as [t|] eqn:Hc; [|done]. destruct (is_top (tasks_ p) t); [|done].
    intros [= <-]. by apply pop_inv.
  - intros [= <-]. apply (worker_core c p _ i (WHas t) (WExec t)); [done..| |]; destruct Hinv as [Ht Ha _ _ _];
      cbn [tasks_ workers_ executed enqueued active_threads_].
    + pose proof (bind_insert held _ i (WHas t) (WExec t) Hi) as Hp. apply Permutation_app_inv_r in Hp. by rewrite Hp.
    + pose proof (bind_insert active _ i (WHas t) (WExec t) Hi) as Hp. apply Permutation_length in Hp.
      rewrite !length_app in Hp. simpl in Hp. lia.
  - intros [= <-]. apply (worker_core c p _ i (WExec t) WDone); [done..| |]; destruct Hinv as [Ht Ha _ _ _];
      cbn [tasks_ workers_ executed enqueued active_threads_].
    + rewrite <- Ht. apply fmap_Permutation. pose proof (bind_insert held _ i (WExec t) WDone Hi) as Hp. simpl in Hp.
      rewrite app_nil_r in Hp. rewrite <- Hp. solve_Permutation.
    + pose proof (bind_insert active _ i (WExec t) WDone Hi) as Hp. apply Permutation_app_inv_r in Hp. by rewrite Hp.
  - intros [= <-]. apply (worker_core c p _ i WDone WLoop); [done..| |]; destruct Hinv as [Ht Ha _ _ _];
      cbn [tasks_ workers_ executed enqueued active_threads_].
    + pose proof (bind_insert held _ i WDone WLoop Hi) as Hp. apply Permutation_app_inv_r in Hp. by rewrite Hp.
    + pose proof (bind_insert active _ i WDone WLoop Hi) as Hp. apply Permutation_length in Hp.
      rewrite !length_app in Hp. simpl in Hp. lia.
  - intros [= <-]. by apply (move_inv c p i WExit).
  - done.
Qed.

Lemma all_ended {A} (f : worker_pc → list A) ws :
  f WEnded = [] → forallb (λ w, negb (valid w)) ws = true → ws ≫= f = [].
Proof.
  intros Hf. induction ws as [|w ws IH]; [done|]. cbn [forallb]. intros [Hw Hws]%andb_true_iff.
  rewrite bind_cons, IH by done. destruct w; done || by rewrite Hf.
Qed.

Lemma step_inv c p l p' : pool_inv c p → step c p l = Some p' → pool_inv c p'.
Proof.
  intros Hinv. destruct l as [prio| |i choice idle| | |]; simpl.
  - destruct (section p); [done|]. destruct (enqueue prio p) as [q|] eqn:E; [|done]. intros [= <-].
    by eapply enqueue_inv.
  - destruct (section p) eqn:E; [|done]. intros [= <-]. by apply enqueue_rest_inv.
  - by apply worker_inv.
  - unfold cleanup_step. destruct (enable_cleanup_thread c); [|done]. simpl. destruct (cleanup p).
    + destruct (stop_ p); [done|]. intros [= <-]. by apply cleanup_inv.
    + intros [= <-]. by apply cleanup_inv, erase_inv.
  - destruct (section p); [done|]. intros [= <-]. by destruct Hinv.
  - destruct (stop_ p); [|done]. simpl. destruct (forallb _ _) eqn:Hf; [|done]. intros [= <-].
    destruct Hinv as [Ht Ha Hs Hm Hrd]. split; simpl.
    + by rewrite (all_ended held) in Ht.
    + by rewrite (all_ended active) in Ha.
    + unfold size. simpl. lia.
    + intros e He Hp. specialize (Hm e He Hp). unfold size in *. simpl. lia.
    + intros n _. unfold running_workers. simpl. lia.
Qed.

Lemma make_inv c p : make_pool c = Ok p → pool_inv c p ∧ stop_ p = false.
Proof.
  unfold make_pool. destruct (config_ok c) eqn:Hok; [|done]. simpl. intros [= <-].
  unfold config_ok in Hok. apply andb_true_iff in Hok as [_ Hle]. apply Nat.leb_le in Hle.
  set (p0 := mkPool false [] [] 0 None CWait 0 []).
  assert (∀ n, n ≤ max_threads c →
    pool_inv c (Nat.iter n create_worker p0) ∧ size (Nat.iter n create_worker p0) = n ∧
    stop_ (Nat.iter n create_worker p0) = false ∧ section (Nat.iter n create_worker p0) = None) as H.
  { induction n as [|n IH]; intros Hn.
    - split_and!; [|done..]. split; simpl; [done|done| |done..]. unfold size. simpl. lia.
    - destruct IH as (IH1 & IH2 & IH3 & IH4); [lia|]. cbn [Nat.iter nat_rect]. split_and!.
      + apply create_idle_inv; [done| |done]. unfold Nat.iter in *. rewrite IH2. lia.
      + unfold create_worker, size in *. simpl. rewrite length_app. simpl. unfold Nat.iter in *. lia.
      + exact IH3.
      + exact IH4. }
  by destruct (H (min_threads c) Hle) as (H1 & _ & H3 & _).
Qed.

Lemma reachable_inv c p : reachable c p → pool_inv c p.
Proof.
  intros (p0 & Hp0 & Hr). apply make_inv in Hp0 as [Hi _].
  eapply (rtc_preserved (pool_inv c)); [|exact Hr|exact Hi]. intros q q' Hq [l Hl]. by eapply step_inv.
Qed.

Lemma active_le ws : length (ws ≫= active) ≤ length (filter (λ w, valid w = true) ws).
Proof.
  induction ws as [|w ws IH]; [done|]. rewrite bind_cons, length_app, filter_cons.
  assert (length (active w) ≤ if valid w then 1 else 0) by (destruct w; simpl; lia).
  destruct (valid w); case_decide; simpl; done || lia.
Qed.

Lemma active_running c p : pool_inv c p → active_threads p ≤ running_workers p.
Proof. intros [_ Ha _ _ _]. unfold active_threads. rewrite Ha. apply active_le. Qed.

Lemma free_threads_exact n a : a ≤ n → (Z.of_nat n < 2 ^ 64)%Z → free_threads n a = Z.of_nat (n - a).
Proof. intros Ha Hn. unfold free_threads, to_unsigned. rewrite Z.mod_small; lia. Qed.

(** C32: Tasks.  In every interleaving, each task ever enqueued is in the queue,
    in the hands of exactly one worker, or executed, and it is so once: no task
    is lost or executed twice.  The pool never has more than [max_threads]
    workers and [active_threads] is the number of workers that execute.  In the
    test of [enqueue] for a new worker, between the two reads of
    [free_threads], the number of workers read first is not less than the
    number of active ones, so the difference is exact there; a caller that does
    not hold the mutex has no such guarantee ([free_threads_wraps]). *)
Theorem pool_tasks_once (c : ThreadPoolConfig) (p : Pool) :
  reachable c p →
  task_id <$> (tasks_ p ++ (workers_ p ≫= held) ++ executed p) ≡ₚ seq 0 (enqueued p) ∧
  NoDup (task_id <$> executed p) ∧
  size p ≤ max_threads c ∧ active_threads p = length (workers_ p ≫= active) ∧ active_threads p ≤ size p ∧
  (∀ n, section p = Some (EActive n) → size p < max_threads c ∧ active_threads p ≤ n ∧
     ((Z.of_nat n < 2 ^ 64)%Z → free_threads n (active_threads p) = Z.of_nat (n - active_threads p))).
Proof.
  intros Hr. pose proof (reachable_inv c p Hr) as Hi. pose proof (active_running c p Hi) as Hle.
  destruct Hi as [Ht Ha Hs Hm Hrd]. split_and!; [done| |done|done|etrans; [exact Hle|apply length_filter]|].
  - pose proof (NoDup_seq 0 (enqueued p)) as Hn. rewrite <- Ht, !fmap_app in Hn.
    apply NoDup_app in Hn as (_ & _ & Hn). by apply NoDup_app in Hn as (_ & _ & Hn).
  - intros n Hn. specialize (Hrd n Hn). split_and!; [eapply Hm; eauto|lia|]. apply free_threads_exact. lia.
Qed.

(** ** Shutdown *)

Definition live (w : worker_pc) : bool := match w with WExit | WEnded => false | _ => true end.

Lemma worker_frame c i choice idle p p' :
  worker_step c i choice idle p = Some p' → stop_ p' = stop_ p ∧ section p' = section p.
Proof.
  unfold worker_step, worker_section. destruct (workers_ p !! i) as [[]|]; try done; try (by intros [= <-]).
  destruct (section p) eqn:Hs; [done|]. destruct (stop_ p && _); [by intros [= <-]|].
  destruct (tasks_ p) eqn:Hq; [destruct (_ && _); by intros [= <-]|].
  destruct (_ !! choice); [|done]. destruct (is_top _ _); [|done]. by intros [= <-].
Qed.

Lemma cleanup_frame c p p' : cleanup_step c p = Some p' → stop_ p' = stop_ p ∧ section p' = section p.
Proof.
  unfold cleanup_step. destruct (enable_cleanup_thread c); [|done]. simpl.
  destruct (cleanup p); [destruct (stop_ p) eqn:E; [done|]|]; by intros [= <-].
Qed.

Lemma stop_section c p : reachable c p → stop_ p = true → section p = None.
Proof.
  intros (p0 & Hp0 & Hr). apply make_inv in Hp0 as [_ Hs].
  eapply (rtc_preserved (λ q, stop_ q = true → section q = None)); [|exact Hr|by rewrite Hs].
  intros q q' Hq [l Hl]. destruct l as [prio| |i choice idle| | |]; simpl in Hl.
  - destruct (section q); [done|]. unfold enqueue in Hl. destruct (stop_ q); [done|]. by injection Hl as <-.
  - destruct (section q) as [e|] eqn:E; [|done]. injection Hl as <-. intros Hst. exfalso.
    assert (stop_ q = true) as H'; [|specialize (Hq H'); congruence].
    destruct e; simpl in *; [done..|]. by destruct (_ =? _)%Z.
  - apply worker_frame in Hl as [-> ->]. done.
  - apply cleanup_frame in Hl as [-> ->]. done.
  - destruct (section q) eqn:E; [done|]. injection Hl as <-. done.
  - destruct (_ && _); [|done]. injection Hl as <-. done.
Qed.

(** Stopped, and somebody is there for what is queued. *)
Definition draining (p : Pool) : Prop :=
  stop_ p = true ∧ section p = None ∧ (existsb live (workers_ p) = true ∨ tasks_ p = []).

Lemma existsb_insert (f : worker_pc → bool) ws i w w' :
  ws !! i = Some w → f w = false ∨ f w' = true → existsb f ws = true → existsb f (<[i := w']> ws) = true.
Proof.
  rewrite !existsb_exists. intros Hi Hf (x & Hx & Hfx). apply list_elem_of_In, list_elem_of_lookup in Hx as [j Hj].
  destruct (decide (i = j)) as [<-|Hne].
  - exists w'. split.
    + apply list_elem_of_In, list_elem_of_lookup. exists i. apply list_lookup_insert_eq. by eapply lookup_lt_Some.
    + destruct Hf; congruence.
  - exists x. split; [|done]. apply list_elem_of_In, list_elem_of_lookup. exists j. by rewrite list_lookup_insert_ne.
Qed.

Lemma existsb_erase ws : existsb live (filter (λ w, valid w = true) ws) = existsb live ws.
Proof.
  induction ws as [|w ws IH]; [done|]. rewrite filter_cons. case_decide as Hw; simpl; rewrite IH; [done|].
  by destruct w.
Qed.

Lemma draining_step c p l p' : draining p → step c p l = Some p' → draining p'.
Proof.
  intros (Hst & Hse & Hd) Hl. destruct l as [prio| |i choice idle| | |]; simpl in Hl.
  - unfold enqueue in Hl. by rewrite Hse, Hst in Hl.
  - by rewrite Hse in Hl.
  - unfold worker_step in Hl. destruct (workers_ p !! i) as [w|] eqn:Hi; [|done].
    assert (i < length (workers_ p)) as Hlt by (by eapply lookup_lt_Some).
    assert (∀ w', live w' = true → existsb live (<[i := w']> (workers_ p)) = true) as Hlive.
    { intros w' Hw'. apply existsb_exists. exists w'. split; [|done].
      apply list_elem_of_In, list_elem_of_lookup. exists i. by apply list_lookup_insert_eq. }
    destruct w as [|t|t| | |]; simpl in Hl.
    + rewrite Hse in Hl. unfold worker_section in Hl. rewrite Hst in Hl. simpl in Hl. case_bool_decide as Hq.
      * injection Hl as <-. split_and!; [done|done|by right].
      * destruct (tasks_ p) as [|t0 q] eqn:Et; [done|]. rewrite <- Et in Hl.
        destruct (tasks_ p !! choice) as [t|]; [|done]. destruct (is_top (tasks_ p) t); [|done]. injection Hl as <-.
        split_and!; [done|done|left]. by apply Hlive.
    + injection Hl as <-. split_and!; [done|done|left]. by apply Hlive.
    + injection Hl as <-. split_and!; [done|done|left]. by apply Hlive.
    + injection Hl as <-. split_and!; [done|done|left]. by apply Hlive.
    + injection Hl as <-. split_and!; [done|done|]. destruct Hd as [Hd|Hd]; [left|by right].
      apply (existsb_insert live _ i WExit); auto.
    + done.
  - unfold cleanup_step in Hl. destruct (enable_cleanup_thread c); [|done]. simpl in Hl. rewrite Hst in Hl.
    destruct (cleanup p); [done|]. injection Hl as <-. split_and!; [done|done|].
    simpl. rewrite existsb_erase. exact Hd.
  - rewrite Hse in Hl. injection Hl as <-. done.
  - destruct (stop_ p && _) eqn:E; [|done]. injection Hl as <-. split_and!; [done|done|].
    apply andb_true_iff in E as [_ E]. destruct Hd as [Hd|Hd]; [|by right]. exfalso.
    apply existsb_exists in Hd as (w & Hw & Hv). rewrite forallb_forall in E. specialize (E w Hw). by destruct w.
Qed.

(** *** Termination *)

Definition weight (w : worker_pc) : nat :=
  match w with WLoop => 2 | WHas _ => 5 | WExec _ => 4 | WDone => 3 | WExit => 1 | WEnded => 0 end.
Definition todo (p : Pool) : nat := 4 * length (tasks_ p) + sum_list (weight <$> workers_ p).

Lemma sum_insert ws i w w' :
  ws !! i = Some w → sum_list (weight <$> <[i := w']> ws) + weight w = sum_list (weight <$> ws) + weight w'.
Proof.
  intros Hi. rewrite <- (take_drop_middle ws i w Hi) at 2. rewrite insert_take_drop by (by eapply lookup_lt_Some).
  rewrite !fmap_app, !sum_list_with_app || rewrite !fmap_app, !sum_list_app. simpl. lia.
Qed.

Lemma top_exists q : q ≠ [] → ∃ i t, q !! i = Some t ∧ is_top q t = true.
Proof.
  intros Hq. assert (∃ t, t ∈ q ∧ ∀ u, u ∈ q → (priority_ u ≤ priority_ t)%N) as (t & Ht & Hmax).
  { induction q as [|x q IH]; [done|]. destruct (decide (q = [])) as [->|Hne].
    - exists x. split; [left|]. by intros u ->%list_elem_of_singleton.
    - destruct (IH Hne) as (t & Ht & Hmax). destruct (N.le_gt_cases (priority_ x) (priority_ t)) as [Hle|Hgt].
      + exists t. split; [by right|]. intros u [->|Hu]%elem_of_cons; auto.
      + exists x. split; [left|]. intros u [->|Hu]%elem_of_cons; [done|]. specialize (Hmax u Hu). lia. }
  apply list_elem_of_lookup in Ht as [i Hi]. exists i, t. split; [done|]. unfold is_top. apply forallb_forall.
  intros u Hu%list_elem_of_In. specialize (Hmax u Hu). unfold task_lt. apply negb_true_iff, N.ltb_ge. lia.
Qed.

Lemma worker_todo c i choice idle p p' :
  stop_ p = true → worker_step c i choice idle p = Some p' → todo p' < todo p.
Proof.
  intros Hst Hl. unfold worker_step in Hl. destruct (workers_ p !! i) as [w|] eqn:Hi; [|done]. unfold todo.
  destruct w as [|t|t| | |]; try (injection Hl as <-; cbn [tasks_ workers_ with_workers];
    match goal with |- context [<[i := ?w']> _] => pose proof (sum_insert _ i _ w' Hi) as Hs end; simpl in Hs; lia); [|done].
  destruct (section p); [done|]. unfold worker_section in Hl. rewrite Hst in Hl. cbn [andb] in Hl. case_bool_decide as Hq.
  - injection Hl as <-. cbn [tasks_ workers_ with_workers]. pose proof (sum_insert _ i _ WExit Hi) as Hs. simpl in Hs. lia.
  - destruct (tasks_ p) as [|t0 q] eqn:Et; [done|]. rewrite <- Et in *. destruct (tasks_ p !! choice) as [t|] eqn:Hc; [|done].
    destruct (is_top (tasks_ p) t); [|done]. injection Hl as <-. cbn [tasks_ workers_].
    pose proof (sum_insert _ i _ (WHas t) Hi) as Hs. simpl in Hs.
    assert (length (tasks_ p) = S (length (delete choice (tasks_ p)))) as Hd.
    { rewrite (delete_Permutation (tasks_ p) choice t Hc) at 1. done. }
    lia.
Qed.

Lemma worker_enabled c p i w :
  stop_ p = true → section p = None → workers_ p !! i = Some w → valid w = true →
  ∃ choice p', worker_step c i choice false p = Some p'.
Proof.
  intros Hst Hse Hi Hv. unfold worker_step. rewrite Hi. destruct w; try done; try (exists 0; by eexists).
  rewrite Hse. unfold worker_section. rewrite Hst. cbn [andb]. case_bool_decide as Hq; [exists 0; by eexists|].
  destruct (top_exists (tasks_ p) Hq) as (k & t & Hk & Ht). exists k. rewrite Hk, Ht.
  destruct (tasks_ p); [done|]. by eexists.
Qed.

(** C33: Shutdown.  Once [shutdown] has set the flag, every step of a worker
    brings it closer to its end, and as long as a worker has not ended one can
    take a step: the join returns.  If at that time a worker was in its loop or
    nothing was queued, then when all workers have ended every task that was
    ever enqueued has been executed. *)
Theorem shutdown_drains (c : ThreadPoolConfig) (p : Pool) :
  reachable c p → stop_ p = true →
  (∀ i choice idle p', worker_step c i choice idle p = Some p' → todo p' < todo p) ∧
  (forallb (λ w, negb (valid w)) (workers_ p) = false → ∃ i choice p', worker_step c i choice false p = Some p') ∧
  (existsb live (workers_ p) = true ∨ tasks_ p = [] → ∀ q, rtc (pool_step c) p q →
     forallb (λ w, negb (valid w)) (workers_ q) = true →
     tasks_ q = [] ∧ task_id <$> executed q ≡ₚ seq 0 (enqueued q)).
Proof.
  intros Hr Hst. pose proof (stop_section c p Hr Hst) as Hse. split_and!.
  - intros i choice idle p'. by apply worker_todo.
  - intros Hf. assert (∃ w, w ∈ workers_ p ∧ valid w = true) as (w & Hw & Hv).
    { induction (workers_ p) as [|w ws IH]; [done|]. simpl in Hf. destruct (valid w) eqn:Hv.
      - exists w. split; [left|done].
      - destruct (IH Hf) as (w' & Hw' & Hv'). exists w'. split; [by right|done]. }
    apply list_elem_of_lookup in Hw as [i Hi]. exists i. by eapply worker_enabled.
  - intros Hd q Hq Hend. assert (draining q) as (_ & _ & Hdq).
    { eapply (rtc_preserved draining); [|exact Hq|by split_and!]. intros a b Ha [l Hl]. by eapply draining_step. }
    assert (reachable c q) as Hrq. { destruct Hr as (p0 & H0 & H1). exists p0. split; [done|]. by etrans. }
    assert (tasks_ q = []) as Htq.
    { destruct Hdq as [Hd'|]; [|done]. exfalso. apply existsb_exists in Hd' as (w & Hw & Hv).
      rewrite forallb_forall in Hend. specialize (Hend w Hw). by destruct w. }
    split; [done|]. destruct (reachable_inv c q Hrq) as [Ht _ _ _ _]. by rewrite Htq, (all_ended held) in Ht.
Qed.

(** ** Stranded tasks *)

(** Neither another task nor a shutdown *)
Definition quiet (l : label) : bool := match l with LEnqueue _ | LStop => false | _ => true end.

Definition race_config : ThreadPoolConfig := mkTPC 1 2 100 100 true.

(** Two workers decide to retire at the same time, each counting the other;
    then a task is enqueued, which takes the retiring workers for free ones. *)
Definition race : list label :=
  [LEnqueue 1; LSection; LSection; LSection; LSection; LWorker 0 0 false; LWorker 0 0 false;
   LEnqueue 1; LSection; LSection; LSection; LSection;
   LWorker 0 0 false; LWorker 0 0 false; LWorker 1 0 false; LWorker 1 0 false; LWorker 1 0 false; LWorker 1 0 false;
   LWorker 0 0 true; LWorker 1 0 true;
   LEnqueue 1; LSection; LSection;
   LWorker 0 0 false; LWorker 1 0 false].

Lemma run_reachable c ls p0 p : make_pool c = Ok p0 → run c ls p0 = Some p → reachable c p.
Proof.
  intros H0 Hr. exists p0. split; [done|]. clear H0. revert p0 Hr. induction ls as [|l ls IH]; intros p0 Hr; simpl in Hr.
  - by injection Hr as ->.
  - destruct (step c p0 l) as [p1|] eqn:E; [|done]. eapply rtc_l; [by exists l|]. by apply IH.
Qed.

Lemma dead_pool_quiet c ls p p' :
  stop_ p = false → section p = None → forallb (λ w, negb (valid w)) (workers_ p) = true →
  Forall (λ l, quiet l = true) ls → run c ls p = Some p' → tasks_ p' = tasks_ p.
Proof.
  intros Hst Hse Hw Hls. revert p Hst Hse Hw. induction Hls as [|l ls Hl Hls IH]; intros p Hst Hse Hw Hr; simpl in Hr.
  - by injection Hr as ->.
  - destruct (step c p l) as [p1|] eqn:E; [|done].
    assert (stop_ p1 = false ∧ section p1 = None ∧ forallb (λ w, negb (valid w)) (workers_ p1) = true ∧ tasks_ p1 = tasks_ p)
      as (H1 & H2 & H3 & <-); [|by apply IH].
    destruct l as [prio| |i choice idle| | |]; simpl in E; try done.
    + by rewrite Hse in E.
    + unfold worker_step in E. destruct (workers_ p !! i) as [w|] eqn:Hi; [|done]. rewrite forallb_forall in Hw.
      assert (negb (valid w) = true) as Hv. { apply Hw, list_elem_of_In. by eapply list_elem_of_lookup_2. }
      by destruct w.
    + unfold cleanup_step in E. destruct (enable_cleanup_thread c); [|done]. simpl in E. rewrite Hst in E.
      destruct (cleanup p); injection E as <-; [done|]. split_and!; [done|done| |done].
      simpl. rewrite forallb_forall in *. intros w Hin%list_elem_of_In. apply list_elem_of_filter in Hin as [_ Hin].
      by apply Hw, list_elem_of_In.
    + by rewrite Hst in E.
Qed.

(** C34: A task can be stranded (a defect).  There is a schedule after which a
    task is queued, the pool is running and no worker is left; whatever the
    pool does from then on, the task stays in the queue until somebody enqueues
    another one. *)
Theorem task_stranded :
  ∃ p, reachable race_config p ∧ stop_ p = false ∧ task_id <$> tasks_ p = [2] ∧
    ∀ ls p', Forall (λ l, quiet l = true) ls → run race_config ls p = Some p' → tasks_ p' = tasks_ p.
Proof.
  destruct (run race_config race (initial race_config)) as [p|] eqn:E; [|vm_compute in E; done].
  exists p. split; [by eapply run_reachable|].
  vm_compute in E. injection E as <-. split_and!; [done|done|]. intros ls p' Hls Hr.
  by eapply dead_pool_quiet.
Qed.

(** A caller of [free_threads] from outside reads the number of workers of a
    pool with one worker; then a second worker is created and both execute, and
    the caller reads the number of active ones: 1 - 2 wraps. *)
Definition two_active : list label :=
  [LEnqueue 1; LSection; LSection; LSection; LSection; LWorker 0 0 false; LWorker 0 0 false;
   LEnqueue 1; LSection; LSection; LSection; LSection; LWorker 1 0 false; LWorker 1 0 false].

Lemma free_threads_wraps :
  ∃ p, run race_config two_active (initial race_config) = Some p ∧
       free_threads (size (initial race_config)) (active_threads p) = (2 ^ 64 - 1)%Z.
Proof. eexists. split; [vm_compute; reflexivity|]. vm_compute. reflexivity. Qed.

(** The count of ended workers wraps at 256: a pool with [max_threads] of 256
    and all workers ended is full and neither cleans up nor creates a worker,
    whatever is enqueued. *)
Lemma full_of_ended c p prio p1 :
  max_threads c = 256 → workers_ p = replicate 256 WEnded → active_threads_ p = 0 → section p = None → enqueue prio p = Ok p1 →
  ∃ p2, run c [LEnqueue prio; LSection; LSection] p = Some p2 ∧ workers_ p2 = replicate 256 WEnded ∧
        section p2 = None ∧ active_threads_ p2 = 0.
Proof.
  intros Hm Hw Ha Hse He. cbn [run step]. rewrite Hse, He.
  unfold enqueue in He. destruct (stop_ p); [done|]. injection He as <-. cbn [section run step enqueue_rest].
  unfold needs_cleanup. cbn [workers_]. rewrite Hw. change (negb (_ mod 256 =? 0)) with false.
  cbn [with_section section run step enqueue_rest]. unfold is_full, size. cbn [workers_]. rewrite ?Hw, Hm.
  change (length (replicate 256 WEnded) =? 256) with true. cbn [negb andb]. eexists. split; [done|]. done.
Qed.

(** The task with the largest priority value is taken first. *)
Lemma is_top_spec q t : is_top q t = true ↔ ∀ u, u ∈ q → (priority_ u ≤ priority_ t)%N.
Proof.
  unfold is_top, task_lt. rewrite forallb_forall. split.
  - intros H u Hu%list_elem_of_In. specialize (H u Hu). apply negb_true_iff, N.ltb_ge in H. done.
  - intros H u Hu%list_elem_of_In. by apply negb_true_iff, N.ltb_ge, H.
Qed.

(** ** Witnesses *)

Definition stop_schedule : list label :=
  [LEnqueue 1; LSection; LSection; LSection; LSection; LEnqueue 7; LSection; LSection; LSection; LSection; LStop].
Definition mid_test : Pool :=
  mkPool false [mkTask 0 1] [WLoop] 0 (Some (EActive 1)) CWait 1 [].
Definition stopped : Pool :=
  mkPool true [mkTask 1 7; mkTask 0 1] [WLoop] 0 None CWait 2 [].

Lemma mid_test_reachable : reachable race_config mid_test.
Proof.
  apply (run_reachable race_config [LEnqueue 1; LSection; LSection; LSection] (initial race_config));
    vm_compute; reflexivity.
Qed.
Lemma stopped_reachable : reachable race_config stopped.
Proof. apply (run_reachable race_config stop_schedule (initial race_config)); vm_compute; reflexivity. Qed.

Lemma pool_tasks_once_witness :
  task_id <$> (tasks_ stopped ++ (workers_ stopped ≫= held) ++ executed stopped) ≡ₚ [0; 1] ∧
  free_threads 1 (active_threads mid_test) = 1%Z.
Proof.
  split.
  - exact (proj1 (pool_tasks_once race_config stopped stopped_reachable)).
  - destruct (pool_tasks_once race_config mid_test mid_test_reachable) as (_ & _ & _ & _ & _ & H).
    destruct (H 1 eq_refl) as (_ & _ & H'). apply H'. lia.
Defined.

Lemma shutdown_drains_witness : ∃ i choice p', worker_step race_config i choice false stopped = Some p'.
Proof. refine (proj1 (proj2 (shutdown_drains race_config stopped stopped_reachable eq_refl)) eq_refl). Defined.
