(* ===== verification/Nexus.v ===== *)
(** * The service registry

    [common/nexus]: [Nexus] holds one slot per type and id, with an object or a
    factory that makes one on first use, and a lifetime policy that the janitor
    enforces.  [get] takes several locks in turn; each stretch under one lock is
    a step here, so that other calls of [get], registrations, resets and sweeps
    run between them.  An object is a number (the order of creation), a handle
    a client holds counts towards its [use_count].  The construction mutex of a
    slot lives as long as the slot: using it afterwards is undefined. *)

From S2P Require Import Prelude.
From stdpp Require Import list gmap relations.

Local Open Scope Z_scope.
Local Open Scope demi_scope.

Inductive Lifetime : Type := Resettable | Scoped | Timed (idle : Z) | Immortal.

#[export] Instance Lifetime_eq_dec : EqDecision Lifetime.
Proof. solve_decision. Defined.

(** [detail::Key]: the type's index and the instance id *)
Definition Key : Type := N * N.

(** A slot; [address] tells two slots registered one after the other apart. *)
Record Slot := mkSlot {
  obj : option nat;
  factory : option nat;
  lt : Lifetime;
  last_touch : Z;
  expired_flag : option bool;
  address : nat;
}.

(** What a call of the factory comes to: an object, a null pointer, an
    exception. *)
Inductive factory_call : Type := Makes | Null | Throws.

(** How a call of [get] ends: with the pointer it returns (null when the factory
    gave null), with one of its three [std::runtime_error]s, with the factory's
    exception, or undefined, having used a destroyed construction mutex. *)
Inductive get_result : Type :=
  | Returned (o : option nat)
  | NotRegistered | NoFactory | RegistrationRemoved
  | FactoryThrew
  | MutexDestroyed.

(** Where a call of [get] stands: before the fast path, before the second look,
    before locking the construction mutex, with the mutex before the double
    check, before the factory, before storing the object, ended. *)
Inductive get_pc : Type :=
  | GStart | GSlow
  | GLock (a : nat) (f : option nat) | GCheck (a : nat) (f : option nat) | GBuild (a : nat) (f : option nat)
  | GStore (a : nat) (o : option nat)
  | GEnd (r : get_result).

Record Nexus := mkNexus {
  map_ : gmap Key Slot;
  owners : gmap (Key * nat) nat;         (* who has locked a construction mutex *)
  threads : gmap nat (Key * get_pc);     (* the calls of [get], by thread *)
  handles : list nat;                    (* objects that clients hold *)
  next_obj : nat;
  next_address : nat;
  built : list (Key * nat);              (* ghost: the objects made by factories *)
}.

Definition new_nexus : Nexus := mkNexus ∅ ∅ ∅ [] 0 0 [].

Definition with_map (n : Nexus) (m : gmap Key Slot) : Nexus :=
  mkNexus m (owners n) (threads n) (handles n) (next_obj n) (next_address n) (built n).
Definition with_thread (n : Nexus) (t : nat) (k : Key) (pc : get_pc) : Nexus :=
  mkNexus (map_ n) (owners n) (<[t := (k, pc)]> (threads n)) (handles n) (next_obj n) (next_address n) (built n).

(** ** Registration *)

(** [map_[Key{...}]]: the slot, made if there is none *)
Definition slot_at (n : Nexus) (k : Key) : Slot :=
  match map_ n !! k with Some s => s | None => mkSlot None None Resettable 0 None (next_address n) end.

Definition put_slot (n : Nexus) (k : Key) (s : Slot) : Nexus :=
  mkNexus (<[k := s]> (map_ n)) (owners n) (threads n) (handles n) (next_obj n) (S (next_address n)) (built n).

Definition register_factory (k : Key) (f : nat) (l : Lifetime) (n : Nexus) : Nexus :=
  let s := slot_at n k in put_slot n k (mkSlot None (Some f) l (last_touch s) (expired_flag s) (address s)).

(** A new object made by the caller, who may keep a reference to it *)
Definition register_object (k : Key) (l : Lifetime) (now : Z) (keep : bool) (n : Nexus) : Nexus :=
  let s := slot_at n k in
  let n' := put_slot n k (mkSlot (Some (next_obj n)) None l now (expired_flag s) (address s)) in
  mkNexus (map_ n') (owners n') (threads n') ((if keep then [next_obj n] else []) ++ handles n') (S (next_obj n'))
          (next_address n') (built n').

(** ** Management *)

Definition reset (k : Key) (n : Nexus) : result Nexus :=
  match map_ n !! k with
  | None => Throw runtime_error
  | Some s => if decide (lt s = Resettable) then Ok (with_map n (delete k (map_ n))) else Throw runtime_error
  end.
Definition has (k : Key) (n : Nexus) : bool := bool_decide (is_Some (map_ n !! k)).
Definition size (n : Nexus) : nat := base.size (map_ n).
Definition clear (n : Nexus) : Nexus := with_map n ∅.

(** One slot in a sweep; [None] erases it. *)
Definition sweep_slot (now : Z) (handles : list nat) (s : Slot) : option Slot :=
  match lt s with
  | Scoped => match obj s with Some o => if decide (o ∈ handles) then Some s else None | None => Some s end
  | Timed idle =>
      Some (if idle <? now - last_touch s then mkSlot None (factory s) (lt s) (last_touch s) (expired_flag s) (address s) else s)
  | _ => Some s
  end.
Definition sweep (now : Z) (n : Nexus) : Nexus := with_map n (omap (sweep_slot now (handles n)) (map_ n)).

(** ** [get] *)

Definition is_timed (s : Slot) : bool := match lt s with Timed _ => true | _ => false end.
Definition expired (s : Slot) : bool := is_timed s && bool_decide (expired_flag s = Some true).

(** [build_handle]: touches a [Timed] slot and returns its object. *)
Definition touched (now : Z) (s : Slot) : Slot :=
  mkSlot (obj s) (factory s) (lt s) (if is_timed s then now else last_touch s) (expired_flag s) (address s).
Definition return_handle (now : Z) (t : nat) (k : Key) (s : Slot) (n : Nexus) : Nexus :=
  mkNexus (<[k := touched now s]> (map_ n)) (owners n) (<[t := (k, GEnd (Returned (obj s)))]> (threads n))
          (option_list (obj s) ++ handles n)
          (next_obj n) (next_address n) (built n).

Definition live (n : Nexus) (k : Key) (a : nat) : bool :=
  match map_ n !! k with Some s => bool_decide (address s = a) | None => false end.

(** Leaving [get] with the construction mutex held: it is unlocked. *)
Definition unlock (t : nat) (k : Key) (a : nat) (r : get_result) (n : Nexus) : Nexus :=
  let n' := mkNexus (map_ n) (delete (k, a) (owners n)) (threads n) (handles n) (next_obj n) (next_address n) (built n) in
  with_thread n' t k (GEnd (if live n k a then r else MutexDestroyed)).

(** One step of thread [t] in [get]; [call]: what the factory comes to. *)
Definition get_step (t : nat) (now : Z) (call : factory_call) (n : Nexus) : option Nexus :=
  match threads n !! t with
  | None => None
  | Some (k, pc) =>
      match pc with
      | GStart =>
          match map_ n !! k with
          | None => Some (with_thread n t k (GEnd NotRegistered))
          | Some s =>
              if expired s then Some (with_thread n t k GSlow)
              else match obj s with
                   | Some _ => Some (return_handle now t k s n)
                   | None => Some (with_thread n t k GSlow)
                   end
          end
      | GSlow =>
          match map_ n !! k with
          | None => Some (with_thread n t k (GEnd NotRegistered))
          | Some s => Some (with_thread n t k (GLock (address s) (factory s)))
          end
      | GLock a f =>
          if negb (live n k a) then Some (with_thread n t k (GEnd MutexDestroyed))
          else match owners n !! (k, a) with
               | Some _ => None
               | None =>
                   Some (with_thread (mkNexus (map_ n) (<[(k, a) := t]> (owners n)) (threads n) (handles n) (next_obj n)
                                              (next_address n) (built n)) t k (GCheck a f))
               end
      | GCheck a f =>
          match map_ n !! k with
          | None => Some (with_thread n t k (GBuild a f))
          | Some s =>
              if expired s then Some (with_thread n t k (GBuild a f))
              else match obj s with
                   | Some o => Some (unlock t k a (Returned (Some o)) (return_handle now t k s n))
                   | None => Some (with_thread n t k (GBuild a f))
                   end
          end
      | GBuild a f =>
          match f with
          | None => Some (unlock t k a NoFactory n)
          | Some _ =>
              match call with
              | Throws => Some (unlock t k a FactoryThrew n)
              | Null => Some (with_thread n t k (GStore a None))
              | Makes =>
                  Some (with_thread (mkNexus (map_ n) (owners n) (threads n) (handles n) (S (next_obj n)) (next_address n)
                                             ((k, next_obj n) :: built n)) t k (GStore a (Some (next_obj n))))
              end
          end
      | GStore a o =>
          match map_ n !! k with
          | None => Some (unlock t k a RegistrationRemoved n)
          | Some s =>
              let flag := if is_timed s then Some false else expired_flag s in
              Some (unlock t k a (Returned o) (return_handle now t k (mkSlot o (factory s) (lt s) now flag (address s)) n))
          end
      | GEnd _ => None
      end
  end.

(** ** The program *)

Inductive label : Type :=
  | LGet (t : nat) (k : Key)
  | LStep (t : nat) (now : Z) (call : factory_call)
  | LRegister (k : Key) (f : nat) (l : Lifetime)
  | LRegisterObject (k : Key) (l : Lifetime) (now : Z) (keep : bool)
  | LReset (k : Key)
  | LClear
  | LSweep (now : Z)
  | LDrop (i : nat).

Definition idle_thread (n : Nexus) (t : nat) : bool :=
  match threads n !! t with None | Some (_, GEnd _) => true | _ => false end.

Definition step (n : Nexus) (l : label) : option Nexus :=
  match l with
  | LGet t k => if idle_thread n t then Some (with_thread n t k GStart) else None
  | LStep t now call => get_step t now call n
  | LRegister k f l => Some (register_factory k f l n)
  | LRegisterObject k l now keep => Some (register_object k l now keep n)
  | LReset k => Some (match reset k n with Ok n' => n' | Throw _ => n end)
  | LClear => Some (clear n)
  | LSweep now => Some (sweep now n)
  | LDrop i =>
      Some (mkNexus (map_ n) (owners n) (threads n) (delete i (handles n)) (next_obj n) (next_address n) (built n))
  end.

Fixpoint run (ls : list label) (n : Nexus) : option Nexus :=
  match ls with [] => Some n | l :: ls' => match step n l with Some n' => run ls' n' | None => None end end.

(** ** One object per registration *)

(** The objects made for a key *)
Definition built_for (k : Key) (n : Nexus) : list nat := (filter (λ p, p.1 = k) (built n)).*2.

(** The calls that have locked the construction mutex at address [a] *)
Definition constructing (a : nat) (pc : get_pc) : bool :=
  match pc with GCheck a' _ | GBuild a' _ | GStore a' _ => bool_decide (a' = a) | _ => false end.

Section Once.
Context (k : Key) (f : nat) (log : list label).

(** Labels that leave the registration of [k] alone *)
Definition keeps (l : label) : Prop :=
  match l with
  | LRegister k' _ _ | LRegisterObject k' _ _ _ => k' ≠ k
  | LClear => False
  | _ => True
  end.

(** The factory gave [call] to thread [t]. *)
Definition called (t : nat) (call : factory_call) : Prop := ∃ now, LStep t now call ∈ log.

(** How a call of [get] for [k] may have ended *)
Definition end_ok (n : Nexus) (t : nat) (r : get_result) : Prop :=
  match r with
  | Returned (Some o) => built_for k n = [o]
  | Returned None => called t Null
  | FactoryThrew => called t Throws
  | NotRegistered | NoFactory | RegistrationRemoved | MutexDestroyed => False
  end.

(** What a call of [get] for [k] knows *)
Definition pc_ok (n : Nexus) (s : Slot) (t : nat) (pc : get_pc) : Prop :=
  match pc with
  | GStart | GSlow => True
  | GLock a g => a = address s ∧ g = Some f
  | GCheck a g => a = address s ∧ g = Some f ∧ owners n !! (k, a) = Some t
  | GBuild a g => a = address s ∧ g = Some f ∧ owners n !! (k, a) = Some t ∧ obj s = None
  | GStore a o =>
      a = address s ∧ owners n !! (k, a) = Some t ∧ obj s = None ∧
      match o with Some o => built_for k n = [o] | None => built_for k n = [] ∧ called t Null end
  | GEnd r => end_ok n t r ∧ (∀ o, r = Returned (Some o) → obj s = Some o)
  end.

Definition phase (n : Nexus) (s : Slot) : Prop :=
  match obj s with
  | Some o => built_for k n = [o]
  | None => built_for k n = [] ∨ ∃ t o, threads n !! t = Some (k, GStore (address s) (Some o))
  end.

(** The construction mutex is with a call that is constructing. *)
Definition locked (n : Nexus) (s : Slot) : Prop :=
  ∀ u, owners n !! (k, address s) = Some u →
    ∃ pc, threads n !! u = Some (k, pc) ∧ constructing (address s) pc = true.

Definition once_inv (n : Nexus) : Prop :=
  ∃ s, map_ n !! k = Some s ∧ lt s = Immortal ∧ factory s = Some f ∧ phase n s ∧ locked n s ∧
       ∀ t pc, threads n !! t = Some (k, pc) → pc_ok n s t pc.

Lemma immortal_not_expired s : lt s = Immortal → expired s = false.
Proof. intros H. unfold expired, is_timed. by rewrite H. Qed.

Lemma immortal_touched now s : lt s = Immortal → touched now s = s.
Proof. intros H. destruct s. simpl in H. subst. done. Qed.

(** A step that does not touch the slot, the construction mutex, the objects
    made for [k] and the calls for [k] *)
Lemma once_frame n n' :
  map_ n' !! k = map_ n !! k → (∀ a, owners n' !! (k, a) = owners n !! (k, a)) → built_for k n' = built_for k n →
  (∀ t pc, threads n' !! t = Some (k, pc) → threads n !! t = Some (k, pc) ∨ pc = GStart) →
  (∀ t a pc, constructing a pc = true → threads n !! t = Some (k, pc) → threads n' !! t = Some (k, pc)) →
  once_inv n → once_inv n'.
Proof.
  intros Hm Ho Hb Ht Hs (s & Hk & Hl & Hf & Hp & Hlk & Hpc). exists s. split_and!; [by rewrite Hm|done|done| | |].
  - unfold phase in *. rewrite Hb. destruct (obj s); [done|]. destruct Hp as [?|(t & o & Hto)]; [by left|right].
    exists t, o. apply (Hs t (address s)); [|done]. simpl. by rewrite bool_decide_eq_true_2.
  - intros u Hu. rewrite Ho in Hu. destruct (Hlk u Hu) as (pc & Hpu & Hc). exists pc. split; [by eapply Hs|done].
  - intros t pc Htp. destruct (Ht t pc Htp) as [Hold| ->]; [|done]. specialize (Hpc t pc Hold).
    destruct pc as [| |a g|a g|a g|a [o|]|r]; simpl in *; rewrite ?Ho, ?Hb; try done.
    destruct r as [[o|]| | | | |]; simpl in *; by rewrite ?Hb.
Qed.

(** A step of a call for another key *)
Lemma once_other n n' t k' pc pc' :
  k' ≠ k → threads n !! t = Some (k', pc) → threads n' = <[t := (k', pc')]> (threads n) →
  map_ n' !! k = map_ n !! k → (∀ a, owners n' !! (k, a) = owners n !! (k, a)) → built_for k n' = built_for k n →
  once_inv n → once_inv n'.
Proof.
  intros Hne Ht Ht' Hm Ho Hb. apply once_frame; [done..| |].
  - intros u q Hu. rewrite Ht' in Hu. destruct (decide (t = u)) as [<-|Htu].
    + rewrite lookup_insert_eq in Hu. congruence.
    + rewrite lookup_insert_ne in Hu by done. by left.
  - intros u a q _ Hu. rewrite Ht'. destruct (decide (t = u)) as [<-|Htu]; [congruence|].
    by rewrite lookup_insert_ne.
Qed.

(** A step of a call for [k] that leaves the slot and what was made alone:
    only the call that has locked the mutex may lock or unlock it. *)
Lemma once_move n n' t pc pc' s :
  threads n !! t = Some (k, pc) → threads n' = <[t := (k, pc')]> (threads n) →
  map_ n !! k = Some s → map_ n' !! k = Some s → built_for k n' = built_for k n →
  (owners n' = owners n ∧ constructing (address s) pc' = constructing (address s) pc ∨
   owners n !! (k, address s) = None ∧ owners n' !! (k, address s) = Some t ∧ constructing (address s) pc' = true ∨
   owners n !! (k, address s) = Some t ∧ owners n' !! (k, address s) = None) →
  (∀ a, a ≠ address s → owners n' !! (k, a) = owners n !! (k, a)) →
  (∀ a o, pc ≠ GStore a o) → pc_ok n' s t pc' → once_inv n → once_inv n'.
Proof.
  intros Ht Ht' Hm Hm' Hb Ho Ho' Hpc Hok (s' & Hs & Hl & Hf & Hp & Hlk & Hall). simplify_eq. exists s.
  split_and!; [done..| | |].
  - unfold phase in *. rewrite Hb. destruct (obj s); [done|]. destruct Hp as [?|(u & o & Hu)]; [by left|right].
    exists u, o. rewrite Ht', lookup_insert_ne; [done|]. intros ->. rewrite Ht in Hu. injection Hu as ->.
    by destruct (Hpc (address s) (Some o)).
  - intros u Hu. rewrite Ht'. destruct (decide (t = u)) as [<-|Htu].
    + exists pc'. rewrite lookup_insert_eq. split; [done|].
      destruct Ho as [[Ho Hc]|[(_ & _ & Hc)|[_ Ho]]]; [|done|congruence]. rewrite Hc. rewrite Ho in Hu.
      destruct (Hlk t Hu) as (q & Hq & Hcq). congruence.
    + rewrite lookup_insert_ne by done. apply Hlk. destruct Ho as [[Ho _]|[(_ & Ho & _)|[_ Ho]]]; congruence.
  - intros u q Hu. rewrite Ht' in Hu. destruct (decide (t = u)) as [<-|Htu].
    + rewrite lookup_insert_eq in Hu. by simplify_eq.
    + rewrite lookup_insert_ne in Hu by done. specialize (Hall u q Hu).
      destruct q as [| |a g|a g|a g|a o|[[o|]| | | | |]]; simpl in *; rewrite ?Hb; try done;
        split_hyps; (destruct Ho as [[-> _]|[[Ho _]|[Ho _]]]; [done|exfalso; congruence..]).
Qed.

Lemma built_for_cons k' o n : built_for k (mkNexus (map_ n) (owners n) (threads n) (handles n) (S (next_obj n)) (next_address n) ((k', o) :: built n)) =
  if decide (k' = k) then o :: built_for k n else built_for k n.
Proof. unfold built_for. simpl. rewrite filter_cons. simpl. by case_decide. Qed.

Lemma once_get_other t now call n n' k' pc :
  k' ≠ k → threads n !! t = Some (k', pc) → get_step t now call n = Some n' → once_inv n → once_inv n'.
Proof.
  intros Hne Ht Hg. unfold get_step in Hg. rewrite Ht in Hg.
  assert (∀ a b : nat, (k', a) ≠ (k, b)) as Hka by congruence.
  destruct pc as [| |a g|a g|a g|a o|r]; try done;
    repeat (case_match; try done); simplify_eq;
    (eapply (once_other n _ t k'); [done|done|simpl; rewrite ?insert_insert_eq; reflexivity|
       simpl; rewrite ?lookup_insert_ne by done; done|
       intros b; simpl; rewrite ?lookup_insert_ne, ?lookup_delete_ne by done; done|]);
    unfold built_for; simpl; rewrite ?filter_cons; simpl; rewrite ?decide_False by done; done.
Qed.

(** Nothing was made while the construction mutex is locked before the factory. *)
Lemma nothing_built n s t :
  phase n s → (∀ t pc, threads n !! t = Some (k, pc) → pc_ok n s t pc) → owners n !! (k, address s) = Some t →
  obj s = None → (∀ a o, threads n !! t ≠ Some (k, GStore a o)) → built_for k n = [].
Proof.
  intros Hp Hall Ho Hobj Ht. unfold phase in Hp. rewrite Hobj in Hp. destruct Hp as [?|(u & o & Hu)]; [done|].
  exfalso. destruct (Hall u _ Hu) as (_ & Hou & _). rewrite Ho in Hou. injection Hou as ->. by eapply Ht.
Qed.

Lemma once_factory t now call n n' s :
  threads n !! t = Some (k, GBuild (address s) (Some f)) → map_ n !! k = Some s → obj s = None →
  owners n !! (k, address s) = Some t → built_for k n = [] → called t call →
  get_step t now call n = Some n' → once_inv n → once_inv n'.
Proof.
  intros Ht Hs Hobj Ho Hb0 Hcall Hg Hinv. unfold get_step in Hg. rewrite Ht in Hg.
  destruct call; injection Hg as <-.
  - destruct Hinv as (s' & Hs' & Hl & Hf & Hp & Hlk & Hall). simplify_eq. exists s. simpl. split_and!; [done..| | |].
    + unfold phase. rewrite Hobj. right. exists t, (next_obj n). simpl. by rewrite lookup_insert_eq.
    + intros u Hu. simpl in *. rewrite Ho in Hu. injection Hu as <-. eexists. rewrite lookup_insert_eq.
      split; [done|]. simpl. by rewrite bool_decide_eq_true_2.
    + assert (built_for k (mkNexus (map_ n) (owners n) (threads n) (handles n) (S (next_obj n)) (next_address n)
               ((k, next_obj n) :: built n)) = [next_obj n]) as Hb1.
      { rewrite built_for_cons, decide_True by done. by rewrite Hb0. }
      intros u q Hu. destruct (decide (t = u)) as [<-|Htu].
      * rewrite lookup_insert_eq in Hu. simplify_eq. simpl. done.
      * rewrite lookup_insert_ne in Hu by done. specialize (Hall u q Hu).
        destruct q as [| |a g|a g|a g|a o|[[o|]| | | | |]]; simpl in *; try done; split_hyps; congruence.
  - eapply (once_move n _ t (GBuild (address s) (Some f)) (GStore (address s) None) s); try done. by left.
  - eapply (once_move n _ t (GBuild (address s) (Some f)) (GEnd FactoryThrew) s); try done.
    + unfold unlock, live. rewrite Hs, bool_decide_eq_true_2 by done. done.
    + right. right. split; [done|]. simpl. apply lookup_delete_eq.
    + intros b Hb. simpl. by rewrite lookup_delete_ne by congruence.
Qed.

Lemma once_store t now call n n' s o :
  threads n !! t = Some (k, GStore (address s) o) → map_ n !! k = Some s →
  get_step t now call n = Some n' → once_inv n → once_inv n'.
Proof.
  intros Ht Hs Hg (s' & Hs' & Hl & Hf & Hp & Hlk & Hall). simplify_eq.
  destruct (Hall t _ Ht) as (_ & Ho & Hobj & Hb). unfold get_step in Hg. rewrite Ht, Hs in Hg. injection Hg as <-.
  unfold is_timed. rewrite Hl. unfold unlock, live, return_handle, touched, is_timed. simpl. rewrite ?Hl.
  rewrite lookup_insert_eq. simpl. rewrite bool_decide_eq_true_2 by done.
  eexists. simpl. split_and!; [by rewrite lookup_insert_eq|done|done| | |].
  - unfold phase. simpl. destruct o as [o|]; [done|]. left. by destruct Hb.
  - intros u Hu. simpl in Hu. by rewrite lookup_delete_eq in Hu.
  - intros u q Hu. simpl in Hu. rewrite insert_insert_eq in Hu. destruct (decide (t = u)) as [<-|Htu].
    + rewrite lookup_insert_eq in Hu. simplify_eq. simpl. destruct o as [o|]; [|by destruct Hb].
      split; [done|]. by intros ? [= ->].
    + rewrite lookup_insert_ne in Hu by done. specialize (Hall u q Hu).
      destruct q as [| |a g|a g|a g|a' o'|[[o'|]| | | | |]]; simpl in *; try done; split_hyps; try (exfalso; congruence).
      * exfalso. specialize (H0 _ eq_refl). congruence.
      * by split.
      * by split.
Qed.

Lemma once_get_same t now call n n' pc :
  called t call → threads n !! t = Some (k, pc) → get_step t now call n = Some n' → once_inv n → once_inv n'.
Proof.
  intros Hcall Ht Hg Hinv. pose proof Hinv as (s & Hs & Hl & Hf & Hp & _ & Hall).
  pose proof (Hall t pc Ht) as Hpc. pose proof (immortal_not_expired s Hl) as Hex. pose proof Hg as Hg0.
  unfold get_step in Hg. rewrite Ht in Hg.
  destruct pc as [| |a g|a g|a g|a o|r]; simpl in Hpc.
  - (* fast path *)
    rewrite Hs, Hex in Hg. destruct (obj s) as [o|] eqn:Ho; injection Hg as <-.
    + eapply (once_move n _ t GStart (GEnd (Returned (Some o))) s); try done.
      * simpl. by rewrite Ho.
      * simpl. by rewrite lookup_insert_eq, immortal_touched.
      * by left.
      * unfold phase in Hp. rewrite Ho in Hp. split; [done|]. by intros ? [= <-].
    + eapply (once_move n _ t GStart GSlow s); try done. by left.
  - rewrite Hs in Hg. injection Hg as <-.
    eapply (once_move n _ t GSlow _ s); try done. by left.
  - (* locking *)
    destruct Hpc as [-> ->]. unfold live in Hg. rewrite Hs, bool_decide_eq_true_2 in Hg by done. simpl in Hg.
    destruct (owners n !! (k, address s)) eqn:Ho; [done|]. injection Hg as <-.
    eapply (once_move n _ t (GLock (address s) (Some f)) _ s); try done.
    + right. left. simpl. rewrite lookup_insert_eq. by rewrite bool_decide_eq_true_2.
    + intros b Hb. simpl. by rewrite lookup_insert_ne by congruence.
    + simpl. by rewrite lookup_insert_eq.
  - (* double check *)
    destruct Hpc as (-> & -> & Ho). rewrite Hs, Hex in Hg. destruct (obj s) as [o|] eqn:Hobj; injection Hg as <-.
    + eapply (once_move n _ t (GCheck (address s) (Some f)) (GEnd (Returned (Some o))) s); try done.
      * unfold unlock, live. simpl. rewrite lookup_insert_eq, immortal_touched by done. simpl.
        rewrite bool_decide_eq_true_2 by done. by rewrite insert_insert_eq.
      * simpl. by rewrite lookup_insert_eq, immortal_touched.
      * right. right. split; [done|]. simpl. apply lookup_delete_eq.
      * intros b Hb. simpl. by rewrite lookup_delete_ne by congruence.
      * unfold phase in Hp. rewrite Hobj in Hp. split; [done|]. by intros ? [= <-].
    + eapply (once_move n _ t (GCheck (address s) (Some f)) _ s); try done. by left.
  - (* building *)
    destruct Hpc as (-> & -> & Ho & Hobj). eapply once_factory; try done.
    eapply nothing_built; try done. intros a o. by rewrite Ht.
  - (* storing *)
    destruct Hpc as (-> & _). by eapply once_store.
  - done.
Qed.

Lemma once_step n l n' : keeps l → l ∈ log → step n l = Some n' → once_inv n → once_inv n'.
Proof.
  intros Hk Hlog Hl Hinv. destruct l as [t k'|t now call|k' g l|k' l now keep|k'| |now|i]; simpl in Hk, Hl.
  - destruct (idle_thread n t) eqn:Hi; [|done]. injection Hl as <-. eapply (once_frame n); [done|done|done| | |exact Hinv].
    + intros u q Hu. simpl in Hu. destruct (decide (t = u)) as [<-|Htu].
      * rewrite lookup_insert_eq in Hu. right. congruence.
      * rewrite lookup_insert_ne in Hu by done. by left.
    + intros u a q Hq Hu. simpl. rewrite lookup_insert_ne; [done|]. intros ->. unfold idle_thread in Hi.
      rewrite Hu in Hi. by destruct q.
  - destruct (threads n !! t) as [[k' pc]|] eqn:Ht.
    + destruct (decide (k' = k)) as [->|Hne]; [eapply once_get_same; [by exists now|done..]|by eapply once_get_other].
    + unfold get_step in Hl. by rewrite Ht in Hl.
  - injection Hl as <-. eapply (once_frame n); [|done|done|by auto|done|exact Hinv]. simpl. by rewrite lookup_insert_ne.
  - injection Hl as <-. eapply (once_frame n); [|done|done|by auto|done|exact Hinv]. simpl. by rewrite lookup_insert_ne.
  - injection Hl as <-. unfold reset. destruct Hinv as (s & Hs & Hr).
    destruct (map_ n !! k') as [s'|] eqn:Hs'; [|by exists s]. case_decide as Hd; [|by exists s].
    assert (k' ≠ k) as Hne. { intros ->. destruct Hr as [Hr _]. congruence. }
    eapply (once_frame n); [|done|done|by auto|done|by exists s]. simpl. by rewrite lookup_delete_ne.
  - done.
  - injection Hl as <-. pose proof Hinv as (s & Hs & Hr & _).
    eapply (once_frame n); [|done|done|by auto|done|exact Hinv]. simpl. rewrite lookup_omap, Hs. simpl.
    unfold sweep_slot. by rewrite Hr.
  - injection Hl as <-. eapply (once_frame n); [done|done|done|by auto|done|exact Hinv].
Qed.

Lemma once_run ls n n' : Forall keeps ls → ls ⊆ log → run ls n = Some n' → once_inv n → once_inv n'.
Proof.
  intros Hls. revert n. induction Hls as [|l ls Hl Hls IH]; intros n Hsub Hr Hn; simpl in Hr.
  - by injection Hr as ->.
  - destruct (step n l) as [n1|] eqn:E; [|done]. eapply IH; [set_solver|done|]. eapply once_step; [done| |done|done].
    set_solver.
Qed.

Lemma once_registered n :
  built_for k n = [] → (∀ a, owners n !! (k, a) = None) → (∀ t pc, threads n !! t ≠ Some (k, pc)) →
  once_inv (register_factory k f Immortal n).
Proof.
  intros Hb Ho Ht. eexists. split_and!; [by apply lookup_insert_eq|done|done| | |].
  - by left.
  - intros u Hu. simpl in Hu. by rewrite Ho in Hu.
  - intros t pc Hpc. by destruct (Ht t pc).
Qed.

(** A call that has not ended can take a step, or waits for the construction
    mutex, held by a call that can. *)
Lemma get_progress n t pc :
  once_inv n → threads n !! t = Some (k, pc) →
  (∃ r, pc = GEnd r) ∨
  ∃ u q, threads n !! u = Some (k, q) ∧ (u = t ∨ constructing (default 0%nat (address <$> map_ n !! k)) q = true) ∧
    ∀ now call, is_Some (get_step u now call n).
Proof.
  intros (s & Hs & Hl & Hf & Hp & Hlk & Hall) Ht. rewrite Hs. simpl.
  assert (∀ u q, threads n !! u = Some (k, q) → constructing (address s) q = true →
    ∀ now call, is_Some (get_step u now call n)) as Hc.
  { intros u q Hu Hq now call. unfold get_step. rewrite Hu, Hs. rewrite (immortal_not_expired s Hl).
    destruct q as [| |a g|a g|a g|a o|r]; try done; repeat case_match; done. }
  destruct pc as [| |a g|a g|a g|a o|r]; [right..|by left; eexists].
  - exists t, GStart. split_and!; [done|by left|]. intros now call. unfold get_step. rewrite Ht, Hs.
    repeat case_match; done.
  - exists t, GSlow. split_and!; [done|by left|]. intros now call. unfold get_step. by rewrite Ht, Hs.
  - destruct (Hall t _ Ht) as [-> ->]. destruct (owners n !! (k, address s)) as [u|] eqn:Ho.
    + destruct (Hlk u Ho) as (q & Hq & Hcq). exists u, q. split_and!; [done|by right|by eapply Hc].
    + exists t, (GLock (address s) (Some f)). split_and!; [done|by left|]. intros now call. unfold get_step, live.
      rewrite Ht, Hs, Ho, bool_decide_eq_true_2 by done. done.
  - exists t, (GCheck a g). split_and!; [done|by left|]. eapply Hc; [done|]. destruct (Hall t _ Ht) as [-> _].
    by apply bool_decide_eq_true_2.
  - exists t, (GBuild a g). split_and!; [done|by left|]. eapply Hc; [done|]. destruct (Hall t _ Ht) as [-> _].
    by apply bool_decide_eq_true_2.
  - exists t, (GStore a o). split_and!; [done|by left|]. eapply Hc; [done|]. destruct (Hall t _ Ht) as [-> _].
    by apply bool_decide_eq_true_2.
Qed.

End Once.

(** C35: One object.  After a factory was registered for a new key as [Immortal],
    whatever calls of [get] run concurrently, with each other and with resets,
    sweeps and registrations of other keys, the factory makes at most one
    object.  A call of [get] for the key that has ended has returned that
    object, or the factory gave the same call a null pointer, which it returns,
    or threw to it: it never ends because the key is not registered, has no
    factory or was removed, and never uses a destroyed mutex.  A call that has
    not ended can take a step, or waits for the construction mutex while the
    call that holds it can. *)
Theorem nexus_built_once (k : Key) (f : nat) (n n' : Nexus) (ls : list label) :
  built_for k n = [] → (∀ a, owners n !! (k, a) = None) → (∀ t pc, threads n !! t ≠ Some (k, pc)) →
  Forall (keeps k) ls → run ls (register_factory k f Immortal n) = Some n' →
  (length (built_for k n') ≤ 1)%nat ∧
  (∀ t r, threads n' !! t = Some (k, GEnd r) →
     (∃ o, r = Returned (Some o) ∧ built_for k n' = [o]) ∨
     (r = Returned None ∧ ∃ now, LStep t now Null ∈ ls) ∨
     (r = FactoryThrew ∧ ∃ now, LStep t now Throws ∈ ls)) ∧
  (∀ t pc, threads n' !! t = Some (k, pc) →
     (∃ r, pc = GEnd r) ∨
     ∃ u q, threads n' !! u = Some (k, q) ∧ (u = t ∨ constructing (default 0%nat (address <$> map_ n' !! k)) q = true) ∧
       ∀ now call, is_Some (get_step u now call n')).
Proof.
  intros Hb Ho Ht Hls Hr.
  pose proof (once_run k f ls ls _ n' Hls (reflexivity ls) Hr (once_registered k f ls n Hb Ho Ht)) as Hinv.
  split_and!; [| |intros t pc; by eapply get_progress]; destruct Hinv as (s & _ & _ & _ & Hp & _ & Hall).
  - unfold phase in Hp. destruct (obj s); [by rewrite Hp|]. destruct Hp as [->|(t & o & Hto)]; [simpl; lia|].
    destruct (Hall t _ Hto) as (_ & _ & _ & ->). done.
  - intros t r Htr. destruct (Hall t _ Htr) as [He _]. destruct r as [[o|]| | | | |]; try done; simpl in He; eauto.
Qed.

Definition demo_key : Key := (7%N, 0%N).
(** Two threads ask for the object at the same time. *)
Definition demo_schedule : list label :=
  [LGet 0 demo_key; LGet 1 demo_key; LStep 0 0 Makes; LStep 1 0 Makes; LStep 0 0 Makes; LStep 1 0 Makes;
   LStep 0 0 Makes; LStep 0 0 Makes; LSweep 9; LStep 0 0 Makes; LStep 0 0 Makes; LStep 1 0 Makes; LStep 1 0 Makes].

(** The factory throws to the first call, gives null to the second and makes the
    object for the third. *)
Definition failing_schedule : list label :=
  [LGet 0 demo_key; LGet 1 demo_key; LGet 2 demo_key] ++
  replicate 4 (LStep 0 0 Throws) ++ [LStep 0 0 Throws] ++ replicate 6 (LStep 1 0 Null) ++ replicate 6 (LStep 2 0 Makes).

Lemma nexus_built_once_witness :
  (∃ n', run demo_schedule (register_factory demo_key 5 Immortal new_nexus) = Some n' ∧
    threads n' !! 0%nat = Some (demo_key, GEnd (Returned (Some 0%nat))) ∧
    threads n' !! 1%nat = Some (demo_key, GEnd (Returned (Some 0%nat))) ∧ (length (built_for demo_key n') ≤ 1)%nat) ∧
  (∃ n', run failing_schedule (register_factory demo_key 5 Immortal new_nexus) = Some n' ∧
    threads n' !! 0%nat = Some (demo_key, GEnd FactoryThrew) ∧ threads n' !! 1%nat = Some (demo_key, GEnd (Returned None)) ∧
    threads n' !! 2%nat = Some (demo_key, GEnd (Returned (Some 0%nat))) ∧ (length (built_for demo_key n') ≤ 1)%nat).
Proof.
  assert (∀ a, owners new_nexus !! (demo_key, a) = None) as Ho by (intros a; apply lookup_empty).
  assert (∀ t pc, threads new_nexus !! t ≠ Some (demo_key, pc)) as Ht.
  { intros t pc. change (threads new_nexus) with (∅ : gmap nat (Key * get_pc)). by rewrite lookup_empty. }
  split.
  - destruct (run demo_schedule (register_factory demo_key 5 Immortal new_nexus)) as [n'|] eqn:E; [|vm_compute in E; discriminate E].
    exists n'. split; [reflexivity|]. split; [|split].
    1,2: vm_compute in E; injection E as <-; vm_compute; reflexivity.
    apply (nexus_built_once demo_key 5 new_nexus n' demo_schedule); [reflexivity|exact Ho|exact Ht| |exact E].
    by repeat constructor.
  - destruct (run failing_schedule (register_factory demo_key 5 Immortal new_nexus)) as [n'|] eqn:E; [|vm_compute in E; discriminate E].
    exists n'. split; [reflexivity|]. split; [|split; [|split]].
    1,2,3: vm_compute in E; injection E as <-; vm_compute; reflexivity.
    apply (nexus_built_once demo_key 5 new_nexus n' failing_schedule); [reflexivity|exact Ho|exact Ht| |exact E].
    by repeat constructor.
Defined.

(** ** Calls without interference *)

Lemma get_start_step n t k s now call :
  threads n !! t = Some (k, GStart) → map_ n !! k = Some s → expired s = false →
  get_step t now call n =
    match obj s with Some _ => Some (return_handle now t k s n) | None => Some (with_thread n t k GSlow) end.
Proof. intros Ht Hs He. unfold get_step. by rewrite Ht, Hs, He. Qed.

Lemma get_slow_step n t k s now call :
  threads n !! t = Some (k, GSlow) → map_ n !! k = Some s →
  get_step t now call n = Some (with_thread n t k (GLock (address s) (factory s))).
Proof. intros Ht Hs. unfold get_step. by rewrite Ht, Hs. Qed.

Lemma get_lock_step n t k s f now call :
  threads n !! t = Some (k, GLock (address s) f) → map_ n !! k = Some s → owners n !! (k, address s) = None →
  get_step t now call n =
    Some (with_thread (mkNexus (map_ n) (<[(k, address s) := t]> (owners n)) (threads n) (handles n) (next_obj n)
                               (next_address n) (built n)) t k (GCheck (address s) f)).
Proof. intros Ht Hs Ho. unfold get_step, live. rewrite Ht, Hs, Ho. by rewrite bool_decide_eq_true_2. Qed.

Lemma get_check_step n t k s a f now call :
  threads n !! t = Some (k, GCheck a f) → map_ n !! k = Some s → expired s = false → obj s = None →
  get_step t now call n = Some (with_thread n t k (GBuild a f)).
Proof. intros Ht Hs He Ho. unfold get_step. by rewrite Ht, Hs, He, Ho. Qed.

Lemma get_build_step n t k a g now :
  threads n !! t = Some (k, GBuild a (Some g)) →
  get_step t now Makes n =
    Some (with_thread (mkNexus (map_ n) (owners n) (threads n) (handles n) (S (next_obj n)) (next_address n)
                               ((k, next_obj n) :: built n)) t k (GStore a (Some (next_obj n)))).
Proof. intros Ht. unfold get_step. by rewrite Ht. Qed.

Lemma get_store_step n t k s a o now call :
  threads n !! t = Some (k, GStore a o) → map_ n !! k = Some s →
  get_step t now call n =
    Some (unlock t k a (Returned o) (return_handle now t k
      (mkSlot o (factory s) (lt s) now (if is_timed s then Some false else expired_flag s) (address s)) n)).
Proof. intros Ht Hs. unfold get_step. by rewrite Ht, Hs. Qed.

(** A call of [get] that runs alone on a key with a factory ends with the object
    of the slot, made now if there was none. *)
Theorem get_alone (n : Nexus) (t : nat) (k : Key) (s : Slot) (g : nat) (now : Z) :
  idle_thread n t = true → map_ n !! k = Some s → factory s = Some g → expired s = false →
  owners n !! (k, address s) = None →
  ∃ n', run (LGet t k :: replicate (match obj s with Some _ => 1 | None => 6 end) (LStep t now Makes)) n = Some n' ∧
    threads n' !! t = Some (k, GEnd (Returned (Some (default (next_obj n) (obj s))))).
Proof.
  intros Hi Hs Hf He Ho. cbn [run step]. rewrite Hi. destruct (obj s) as [o|] eqn:Hob; cbn [replicate run step].
  - erewrite get_start_step by (done || apply lookup_insert_eq). rewrite Hob. eexists. split; [done|]. simpl. by rewrite lookup_insert_eq, Hob.
  - erewrite get_start_step by (done || apply lookup_insert_eq). rewrite Hob.
    erewrite get_slow_step by (done || apply lookup_insert_eq).
    erewrite get_lock_step by (done || apply lookup_insert_eq).
    erewrite get_check_step by (done || apply lookup_insert_eq).
    rewrite Hf. erewrite get_build_step by apply lookup_insert_eq.
    erewrite get_store_step by (done || apply lookup_insert_eq). eexists. split; [done|].
    simpl. rewrite lookup_insert_eq. unfold live. simpl. rewrite lookup_insert_eq. simpl. by rewrite bool_decide_eq_true_2.
Qed.

(** ** Lifetime policies *)

(** A call of [get] for a key without a slot throws at once. *)
Lemma get_unregistered n t k now :
  idle_thread n t = true → map_ n !! k = None →
  ∃ n', run [LGet t k; LStep t now Makes] n = Some n' ∧ threads n' !! t = Some (k, GEnd NotRegistered).
Proof.
  intros Hi Hk. cbn [run step]. rewrite Hi. unfold get_step. cbn [threads with_thread map_].
  rewrite lookup_insert_eq, Hk. eexists. split; [done|]. apply lookup_insert_eq.
Qed.

(** [reset] does not force the object to be made again: it removes the
    registration with its factory, and the next [get] throws. *)
Theorem reset_unregisters (n n' : Nexus) (k : Key) (t : nat) (now : Z) :
  reset k n = Ok n' → idle_thread n t = true →
  has k n' = false ∧
  ∃ n2, run [LGet t k; LStep t now Makes] n' = Some n2 ∧ threads n2 !! t = Some (k, GEnd NotRegistered).
Proof.
  unfold reset. destruct (map_ n !! k) as [s|]; [|done]. case_decide; [|done]. intros [= <-] Hi.
  assert (map_ (with_map n (delete k (map_ n))) !! k = None) as Hk by apply lookup_delete_eq.
  split; [|by apply get_unregistered]. unfold has. rewrite Hk. by rewrite bool_decide_eq_false_2 by (intros [? ?]; done).
Qed.

(** The same happens to a [Scoped] service that nobody holds when the janitor
    comes by, although its factory could make another object. *)
Theorem scoped_sweep_unregisters (n : Nexus) (k : Key) (s : Slot) (o t : nat) (now : Z) :
  map_ n !! k = Some s → lt s = Scoped → obj s = Some o → (o ∉ handles n) → idle_thread n t = true →
  ∃ n2, run [LSweep now; LGet t k; LStep t now Makes] n = Some n2 ∧ threads n2 !! t = Some (k, GEnd NotRegistered).
Proof.
  intros Hs Hl Ho Hh Hi. cbn [run step]. apply (get_unregistered (sweep now n)); [done|].
  simpl. rewrite lookup_omap, Hs. simpl. unfold sweep_slot. rewrite Hl, Ho. by rewrite decide_False.
Qed.

(** A [Timed] service is dropped although a client still holds it; the next
    [get] makes a second object. *)
Definition timed_schedule : list label :=
  [LGet 0 demo_key] ++ replicate 6 (LStep 0 0 Makes) ++ [LSweep 100; LGet 0 demo_key] ++ replicate 6 (LStep 0 100 Makes).
Theorem timed_two_objects :
  ∃ n, run timed_schedule (register_factory demo_key 5 (Timed 60) new_nexus) = Some n ∧
    built_for demo_key n = [1%nat; 0%nat] ∧ handles n = [1%nat; 0%nat].
Proof.
  destruct (run timed_schedule _) as [n|] eqn:E; [|vm_compute in E; discriminate E].
  exists n. split; [done|]. vm_compute in E. injection E as <-. split; vm_compute; reflexivity.
Qed.

(** A [Timed] service registered as an object is lost after the first sweep that
    finds it idle: it stays registered and every [get] throws. *)
Definition timed_object_schedule : list label :=
  [LSweep 100; LGet 0 demo_key] ++ replicate 5 (LStep 0 100 Makes).
Theorem timed_object_lost :
  ∃ n, run timed_object_schedule (register_object demo_key (Timed 60) 0 false new_nexus) = Some n ∧
    has demo_key n = true ∧ threads n !! 0%nat = Some (demo_key, GEnd NoFactory).
Proof.
  destruct (run timed_object_schedule _) as [n|] eqn:E; [|vm_compute in E; discriminate E].
  exists n. split; [done|]. vm_compute in E. injection E as <-. split; vm_compute; reflexivity.
Qed.

(** A [reset] between the second look of a [get] and its locking of the
    construction mutex destroys the mutex; so does one during construction. *)
Definition reset_race : list label :=
  [LGet 0 demo_key; LStep 0 0 Makes; LStep 0 0 Makes; LReset demo_key; LStep 0 0 Makes].
Definition reset_during_construction : list label :=
  [LGet 0 demo_key; LStep 0 0 Makes; LStep 0 0 Makes; LStep 0 0 Makes; LStep 0 0 Makes; LReset demo_key;
   LStep 0 0 Makes; LStep 0 0 Makes].
Theorem reset_destroys_mutex :
  (∃ n, run reset_race (register_factory demo_key 5 Resettable new_nexus) = Some n ∧
     threads n !! 0%nat = Some (demo_key, GEnd MutexDestroyed)) ∧
  (∃ n, run reset_during_construction (register_factory demo_key 5 Resettable new_nexus) = Some n ∧
     threads n !! 0%nat = Some (demo_key, GEnd MutexDestroyed)).
Proof.
  split.
  - destruct (run reset_race _) as [n|] eqn:E; [|vm_compute in E; discriminate E].
    exists n. split; [done|]. vm_compute in E. injection E as <-. vm_compute. reflexivity.
  - destruct (run reset_during_construction _) as [n|] eqn:E; [|vm_compute in E; discriminate E].
    exists n. split; [done|]. vm_compute in E. injection E as <-. vm_compute. reflexivity.
Qed.
