(* ===== verification/NexusJanitor.v ===== *)
(** * The life of the service registry

    [common/nexus]: construction and destruction of [Nexus] around its janitor
    thread ([nexus.cpp]), the singleton overloads ([nexus.inl]) and the sweep
    interval.  The members are initialised in the order of their declaration:
    [janitor_] starts its thread before [stop_] and [sweep_interval_] have their
    values, so the two threads are steps of one machine from that point on. *)

From stdpp Require Import list gmap relations.
From S2P Require Import Prelude Nexus.

Local Open Scope Z_scope.
Local Open Scope demi_scope.

(** ** Singletons *)

(** [register_singleton<T>]: instance 0 of the type. *)
Definition register_singleton_factory (T : N) (f : nat) (l : Lifetime) (n : Nexus) : Nexus :=
  register_factory (T, 0%N) f l n.
Definition register_singleton_shared (T : N) (l : Lifetime) (now : Z) (keep : bool) (n : Nexus) : Nexus :=
  register_object (T, 0%N) l now keep n.
(** By value: [make_shared] makes the object, and nobody else holds it. *)
Definition register_instance_value (T id : N) (l : Lifetime) (now : Z) (n : Nexus) : Nexus :=
  register_object (T, id) l now false n.
Definition register_singleton_value (T : N) (l : Lifetime) (now : Z) (n : Nexus) : Nexus :=
  register_instance_value T 0%N l now n.

(** A registered value is there until something removes it, under its type and
    id only; a [Scoped] one, held by nobody, does not survive a sweep. *)
Lemma register_value_has T id l now n :
  has (T, id) (register_instance_value T id l now n) = true ∧
  (∀ k, k ≠ (T, id) → has k (register_instance_value T id l now n) = has k n) ∧
  (l = Scoped → next_obj n ∉ handles n → ∀ now', has (T, id) (sweep now' (register_instance_value T id l now n)) = false).
Proof.
  unfold has, register_instance_value, register_object, put_slot, sweep, with_map. cbn. split_and!.
  - rewrite lookup_insert_eq. by rewrite bool_decide_true.
  - intros k Hk. by rewrite lookup_insert_ne.
  - intros -> Hh now'. rewrite lookup_omap, lookup_insert_eq. cbn. rewrite decide_False by done.
    by rewrite bool_decide_false; [|intros [? ?]].
Qed.

(** ** The janitor *)

(** Where the thread that constructs, uses and destroys the registry stands. *)
Inductive owner_pc : Type :=
  | OStartJanitor | OInitStop | OInitInterval   (* the constructor, member by member *)
  | OUse
  | OJoin                                       (* the destructor after [stop_.store(true)] *)
  | ODone.

(** [sweep_loop]: the test, the sleep, the sweep. *)
Inductive janitor_pc : Type := JNotStarted | JTest | JSleep | JSweep | JEnded | JUndefined.

(** [None] is a member without a value: reading it is undefined. *)
Record machine := mkMachine {
  owner : owner_pc;
  janitor : janitor_pc;
  stop_ : option bool;
  sweep_interval_ : option Z;
  registry : Nexus;
}.

(** An object with automatic or dynamic storage starts with nothing; the static
    one of [instance()] is zeroed first. *)
Definition fresh : machine := mkMachine OStartJanitor JNotStarted None None new_nexus.
Definition zeroed : machine := mkMachine OStartJanitor JNotStarted (Some false) (Some 0) new_nexus.

Inductive action : Type :=
  | Construct                              (* the next member initialiser *)
  | SetInterval (secs : Z)
  | Use (n : Nexus)                        (* any operation of the registry *)
  | Destroy                                (* [stop_.store(true)] *)
  | Join                                   (* [janitor_.join()] returns *)
  | Janitor (now : Z).                     (* the janitor's next step *)

Definition janitor_step (now : Z) (m : machine) : option machine :=
  match janitor m with
  | JTest =>
      match stop_ m with
      | None => Some (mkMachine (owner m) JUndefined (stop_ m) (sweep_interval_ m) (registry m))
      | Some true => Some (mkMachine (owner m) JEnded (stop_ m) (sweep_interval_ m) (registry m))
      | Some false => Some (mkMachine (owner m) JSleep (stop_ m) (sweep_interval_ m) (registry m))
      end
  | JSleep =>
      match sweep_interval_ m with
      | None => Some (mkMachine (owner m) JUndefined (stop_ m) (sweep_interval_ m) (registry m))
      | Some _ => Some (mkMachine (owner m) JSweep (stop_ m) (sweep_interval_ m) (registry m))
      end
  | JSweep => Some (mkMachine (owner m) JTest (stop_ m) (sweep_interval_ m) (sweep now (registry m)))
  | _ => None
  end.

Definition owner_step (a : action) (m : machine) : option machine :=
  match owner m, a with
  | OStartJanitor, Construct => Some (mkMachine OInitStop JTest (stop_ m) (sweep_interval_ m) (registry m))
  | OInitStop, Construct => Some (mkMachine OInitInterval (janitor m) (Some false) (sweep_interval_ m) (registry m))
  | OInitInterval, Construct => Some (mkMachine OUse (janitor m) (stop_ m) (Some 2) (registry m))
  | OUse, SetInterval secs => Some (mkMachine OUse (janitor m) (stop_ m) (Some secs) (registry m))
  | OUse, Use n => Some (mkMachine OUse (janitor m) (stop_ m) (sweep_interval_ m) n)
  | OUse, Destroy => Some (mkMachine OJoin (janitor m) (Some true) (sweep_interval_ m) (registry m))
  | OJoin, Join =>
      match janitor m with
      | JEnded => Some (mkMachine ODone JEnded (stop_ m) (sweep_interval_ m) (registry m))
      | _ => None
      end
  | _, _ => None
  end.

Definition mstep (a : action) (m : machine) : option machine :=
  match a with Janitor now => janitor_step now m | _ => owner_step a m end.

Fixpoint mrun (l : list action) (m : machine) : option machine :=
  match l with
  | [] => Some m
  | a :: l' => match mstep a m with Some m' => mrun l' m' | None => None end
  end.

(** ** Construction *)

(** The janitor may read [stop_] before it has a value. *)
Theorem janitor_reads_uninitialised :
  ∃ m, mrun [Construct; Janitor 0] fresh = Some m ∧ owner m = OInitStop ∧ janitor m = JUndefined.
Proof. eexists. split; [done|]. done. Qed.

(** In zeroed storage it reads zeros instead: nothing undefined happens, in any
    interleaving, and the interval is 0 until the constructor has set it. *)
Definition initialised (m : machine) : Prop :=
  is_Some (stop_ m) ∧ is_Some (sweep_interval_ m) ∧ janitor m ≠ JUndefined.

Lemma initialised_step a m m' : mstep a m = Some m' → initialised m → initialised m'.
Proof.
  unfold initialised, mstep, owner_step, janitor_step. intros Hs ([b Hb] & [i Hi] & Hj).
  destruct a, (owner m), (janitor m) eqn:Ej; simplify_eq/=; try done;
    try (rewrite Hb in Hs); try (rewrite Hi in Hs); try destruct b; simplify_eq/=; eauto 10.
Qed.

Theorem zeroed_janitor_defined l m : mrun l zeroed = Some m → janitor m ≠ JUndefined.
Proof.
  assert (initialised zeroed) as H0 by (split_and!; eauto; done). revert H0. generalize zeroed as m0.
  induction l as [|a l IH]; intros m0 H0; cbn [mrun]; [by intros [= <-]; apply H0|].
  destruct (mstep a m0) as [m1|] eqn:E; [|done]. apply IH. by eapply initialised_step.
Qed.

(** ** Destruction *)

(** Once [stop_] is set the janitor can always step until it has ended, in at
    most three steps, one sleep and one sweep among them; then [join] returns. *)
Definition steps_left (j : janitor_pc) : nat :=
  match j with JTest => 1 | JSweep => 2 | JSleep => 3 | _ => 0 end.

Definition stopping (m : machine) : Prop :=
  owner m = OJoin ∧ stop_ m = Some true ∧ is_Some (sweep_interval_ m) ∧
  (janitor m = JTest ∨ janitor m = JSleep ∨ janitor m = JSweep ∨ janitor m = JEnded).

Lemma stopping_step now m m' :
  stopping m → janitor_step now m = Some m' → stopping m' ∧ (steps_left (janitor m') < steps_left (janitor m))%nat.
Proof.
  unfold stopping, janitor_step. intros (Ho & Hs & [i Hi] & Hj).
  destruct Hj as [Hj|[Hj|[Hj|Hj]]]; rewrite Hj; try rewrite Hs; try rewrite Hi; intros [= <-]; cbn;
    (split; [|lia]); split_and!; eauto.
Qed.

Lemma stopping_progress m : stopping m → janitor m = JEnded ∨ ∃ m', janitor_step 0 m = Some m'.
Proof.
  unfold stopping, janitor_step. intros (Ho & Hs & [i Hi] & Hj).
  destruct Hj as [Hj|[Hj|[Hj|Hj]]]; rewrite Hj; [right|right|right|by left]; rewrite ?Hs, ?Hi; eauto.
Qed.

(** The destructor returns. *)
Theorem destructor_joins m :
  stopping m → ∃ l m', (length l ≤ 4)%nat ∧ mrun l m = Some m' ∧ owner m' = ODone.
Proof.
  assert (∀ n m, (steps_left (janitor m) ≤ n)%nat → stopping m → ∃ l m', (length l ≤ S n)%nat ∧ mrun l m = Some m' ∧ owner m' = ODone) as H.
  { clear m. induction n as [|n IH]; intros m Hn Hm; destruct (stopping_progress m Hm) as [Hj|[m1 H1]].
    - exists [Join]. destruct Hm as (Ho & _). eexists. cbn. unfold owner_step. rewrite Ho, Hj. done.
    - destruct (stopping_step _ _ _ Hm H1). lia.
    - exists [Join]. destruct Hm as (Ho & _). eexists. split; [cbn; lia|]. cbn. unfold owner_step. rewrite Ho, Hj. done.
    - destruct (stopping_step _ _ _ Hm H1) as [Hm1 Hl]. destruct (IH m1) as (l & m' & Hlen & Hr & Hd); [lia|done|].
      exists (Janitor 0 :: l), m'. split; [cbn; lia|]. split; [|done]. cbn [mrun mstep]. by rewrite H1. }
  intros Hm. apply H; [|done]. destruct (janitor m); cbn; lia.
Qed.

Lemma destructor_joins_witness :
  ∃ m, mrun [Construct; Construct; Construct; Janitor 0; Destroy] fresh = Some m ∧
    ∃ l m', (length l ≤ 4)%nat ∧ mrun l m = Some m' ∧ owner m' = ODone.
Proof.
  eexists. split; [reflexivity|]. apply destructor_joins. split_and!; eauto. 
Defined.
